(* ===== verification/_CoqProject ===== *)
-Q . S2P
Prelude.v
RustStd.v
Frame.v
Resources.v
Connection.v
F64.v
F64Bounds.v
Json.v
Metrics.v
MetricsJson.v
Procfs.v
Http.v
Glob.v
Store.v
Keyspace.v
DbList.v
DbHash.v
DbSet.v
Evict.v
DbKeys.v
Scan.v
Flow.v
Web.v
PubSub.v
Cmd.v
Command.v
Sections.v
Concurrent.v
Aof.v
AofFaults.v
Server.v
SessionIO.v
Subscriber.v
Accept.v
Recovery.v
Config.v
Interleave.v
Reorder.v
Shutdown.v
Startup.v
Typed.v
Lifecycle.v
Divergences.v
