(* ===== verification/Prelude.v ===== *)
(** * In-Memory-Cache: a verification library

    The repository is a Redis-compatible in-memory cache written in Rust: a TCP server that
    speaks RESP, a sharded store of strings, lists, sets and hashes with expiry and an
    approximated LRU memory limit, publish/subscribe, an append-only file, and metrics. This
    library is a shallow embedding of it: the code's types are records and inductive types,
    its functions are Gallina functions that evaluate, its loops are structural or run on a
    fuel that is proved sufficient, its panics and errors are values.

    ** How the parts interact

    A connection task ([process_connection], [src/src/main.rs]) reads frames
    ([src/src/connection.rs], [src/src/frame.rs]), parses each to a command
    ([src/src/cmd/]), sends the frame of a write to the task that owns the append-only file
    ([src/src/aof.rs]), executes the command on the store ([src/src/db.rs]) or the
    publish/subscribe hub ([src/src/pubsub.rs]), counts it ([src/src/metrics.rs]) and
    writes the reply. Background tasks evict expired keys and sample the metrics. At start
    the file is replayed on an empty store; at a signal the file is synced. A second server
    ([src/src/web.rs]) serves the metrics to browsers and can simulate traffic.

    ** Files, and what they model

    - [Prelude]: bytes, 64-bit wrap-around, the [Result] type and its monad, the state
      monad [ST] in which the store's operations run (a result and a state, or a panic and
      a state), total correctness [wp], congruence modulo [2^64], tactics and hints.
    - [RustStd]: what the source uses of Rust's standard library: UTF-8 validation, integer
      parsing and printing, case conversion, white space, [Instant] and [Duration].
    - [Frame]: [frame.rs]. [check] and [parse] are parsers over a [Cursor]; [write_to_buf].
    - [Resources]: what decoding costs: the depth of the recursion of [check], and what
      [parse] reserves.
    - [Connection]: [connection.rs]. A socket is the list of what its reads return.
    - [F64], [Metrics]: [metrics.rs], with binary64 arithmetic; [F64Bounds]: the sizes of
      its results.
    - [Json], [MetricsJson]: a reader of JSON texts, the reference, and [to_json] of
      [metrics.rs], which prints one; the type invariant of the metrics ([metrics_ok]).
    - [Procfs]: the readers of [/proc] of [metrics.rs], given what the file held.
    - [Http], [Web]: [web.rs], against a reader of HTTP responses and of event streams.
    - [Glob]: [glob_match] of [db.rs].
    - [Store]: the data of [db.rs] ([Db], [CacheEntry], [DataType]), shard selection, the
      accesses to a shard's map, the memory counter; the invariant [wf]; [models], which
      says that a store is well formed and that its flat view is a given map.
    - [Keyspace]: the abstract specification. A keyspace maps keys to values with a
      deadline; [live] takes the store's entries to the keyspace at a time; [spec_set],
      [spec_push] and the others are the reference operations; [implements] says that an
      operation replies and acts as its reference, preserves [wf] and moves the memory
      counter exactly, up to a named cost.
    - [DbList], [DbHash], [DbSet], [DbKeys], [Scan], [Evict]: the operations of [db.rs].
    - [Flow]: what holds across every elementary update of the store holds across every
      operation, panics included (a class, and lemmas that walk the operations).
    - [PubSub]: [pubsub.rs], over a class that states what tokio's broadcast channel does.
    - [Cmd]: [cmd/*.rs], a Module per file: argument parsing and execution.
    - [Command]: [cmd/mod.rs]: dispatch, [is_write], [apply].
    - [Sections]: the operations that take more than one lock as programs ([Prog]) whose
      steps are the sections between locks, and that alone they are the operations above.
    - [Concurrent]: threads of commands and sweeps whose sections interleave ([pool_step]),
      and the specification of a command while others run ([Spec], [spec_step]).
    - [Aof]: [aof.rs]: recording, the writer task as a step relation, the replay.
    - [AofFaults]: the writer task of [aof.rs] on a disk that fails.
    - [Server]: [process_connection] and the sweeper of [main.rs].
    - [SessionIO]: [process_connection] over a network that fails and a runtime that drops
      it; where nothing fails it is that of [Server] ([process_connection_io_quiet]).
    - [Subscriber]: [run_subscriber_mode] of [main.rs], over the same network.
    - [Accept]: the accept loop's connection limit and the client gauge, of [main.rs].
    - [Recovery]: a server, its log, a restart.
    - [Config]: [parse_memory_limit] and the constructors of [Db].
    - [Interleave]: connections interleaved between recording and executing a command.
    - [Reorder]: when requests recorded in one order and executed in another leave the same
      store: the order on each key is what counts.
    - [Shutdown]: sessions, writer task and the end of [main] as one process that can stop
      at any moment.
    - [Startup]: [main] up to the accept loop; a stop and the next start as one run.
    - [Typed]: the store of a running server under all its events: requests, HTTP requests,
      connections, sweeper and sampler ticks.
    - [Lifecycle]: the task of a connection from its spawn to its end: session, subscriber
      mode, and what [main] does when they return or are dropped.
    - [Divergences]: runs on which the program does not do what it means to.

    ** What the theorems show

    - The wire: [check] and [parse] agree, framing is prefix-stable, encoding and decoding
      are inverse, and how TCP cuts the stream is invisible (Frame, Connection); decoding
      terminates ([decoding_terminates]), and nests and reserves no more than the bytes received allow ([check_depth_bounded],
      [reservations_bounded]); a session answers each request once, in order (Server), and
      whatever fails, its peer sees a prefix of the replies ([session_survives_faults]).
    - The store: every operation, on every branch, refines its reference on the live
      keyspace; together, every command refines its specification ([command_refines]), with
      its exact reply, also where that depends on more than the live keyspace ([spec_reply]).
      An operation that meets an expired entry and writes drops it ([evicts_expired]).
      Expired entries are invisible, whether an operation, the sweeper or nobody removes
      them. [glob_match] decides the glob relation, SCAN's iteration is complete.
    - Memory: what each operation does to the counter, that SET stays within the limit unless
      its evictions run out of keys to take ([set_within_maxmemory]), which entry an eviction
      takes. Commands that run at the same time can pass the limit
      together ([concurrent_sets_pass_the_limit]), so the bound is one of a SET that runs
      alone.
    - Concurrency: every interleaving of lock sections is one of the specifications, where
      most commands are atomic, DEL is one action per key, KEYS and SCAN one per shard
      ([interleaving_refines], a simulation); the memory counter stays exact
      ([interleaving_accounts]); every command is answered, under any schedule
      ([interleaving_replies]); in all of them the threads run no EXPIRE whose deadline is out
      of the clock's range, as that one panics; what KEYS means while others write ([keys_interference]).
    - Durability: what the writer task puts in the file, what a replay of a possibly torn
      file does, that a restart on a log cut off anywhere rebuilds the keyspace as it was
      after the writes that are whole in it ([aof_recovers]) under hypotheses
      each of which a lemma of [Divergences] or [Interleave] shows to be needed: no
      deadlines, requests handled one at a time. Stopped anywhere, the process leaves a file
      that replays as a prefix of the log; after an orderly end it has all that was logged
      before main's flush ([restart_replays]), and may miss what came after it
      ([shutdown_loses_a_write]). An orderly stop and a new start are together the identity
      on the keyspace, for interleaved clients ([restart_equivalent]); failing writes leave
      bytes out of the log, and neither invent nor move any ([faulty_log]).
    - Publish/subscribe: subscriber mode delivers what its streams yield, each message once
      and in order, as far as the network carries it ([subscriber_delivers]); it counts once
      in the replies of PUBLISH, and not at all once it has ended, however that came about
      ([subscriber_counted_once]). With the session before it and the task around it, a
      connection gives back all it took ([connection_gives_back]).
    - Metrics and limits: percentiles, the latency ring, connection limit, MAXMEMORY units;
      every metrics state is well typed, without a NaN or an infinity ([metrics_typed]), and
      so is every state of a server, also after panics ([server_typed]).
    - The dashboard: [to_json] prints a JSON text that reads back as the document it means
      ([to_json_reads]); the server answers any bytes with a whole HTTP response
      ([web_answers]); the event stream is one of complete events ([event_stream_reads]);
      the simulator's hit ratio is the one asked for ([simulate_traffic]).

    ** Parameters

    The environment of a call ([Env]) gives the readings of the clock, the draws of the
    random generator and the order in which a hash map yields its keys, which is any
    permutation. The hash function of the shards ([Hasher]), the full Unicode case tables
    ([UnicodeCase], ASCII is fixed), the Debug text of a frame ([FrameDebug]), broadcast
    channels ([Broadcast]) and semaphores ([Semaphore], whose [MAX_PERMITS] is a variable of
    [Startup]) are classes; what a network does to a session is a record ([Network]); the
    theorems hold for every instance, the witnesses use concrete ones. The page of the
    dashboard ([DASHBOARD_HTML], a literal of 870 lines) is a variable of [Web]; the contents
    of [/proc] files are arguments. Integer arithmetic is that of a release build: it wraps.
    An [Instant] is nanoseconds within the clock's range, and the sum of an [Instant] and a
    [Duration] beyond it panics.

    ** Fuel

    [check] and [parse] run on the number of bytes left: every level of nesting and every
    element takes bytes, so that the end of the fuel is never reached, whatever would be
    reported there ([decoding_terminates]). [glob_loop] needs at most
    [(|text| + 2) * (|pattern| + 2)] iterations ([glob_terminates]); [scan_loop] one per
    shard and two more ([scan_total]); the replay one per byte and one more
    ([load_replays]); [ensure_capacity_loop] one per stored entry and one more, as each
    round removes one; [process_connection] one per request, and [process_connection_io] one
    per byte received and one more. Under interference the evictions of one SET have no
    bound, as others can fill the store meanwhile: a program of [Sections] that runs out
    stays where it is ([POut]), the safety theorems hold for any fuel, and the theorem that
    commands are answered leaves out SET with a memory limit.

    ** Not modelled

    The files [DbList] to [Scan] run each operation without interference; [Sections] and
    [Concurrent] are what holds under interference. A lock section is one step there, and so
    is an update of an atomic counter: the weak ordering of [Relaxed] accesses is not
    modelled, nor is the contention between lock waiters. Where the stack ends is left open:
    [Resources] says how deep decoding goes. Failures of the network and of the disk are in
    [SessionIO], [Subscriber], [Lifecycle] and [AofFaults]; [Interleave] to [Typed] run
    without them. What a log with gaps replays as is no function of what was recorded: where
    a cut command is followed by others the replay may stop, or take them for its end, so
    [faulty_log] states what is kept of the bytes and says nothing of the keyspace.
    Logging, and with it the [Display] of a frame, the binding of the listeners, the signal
    handlers, and the accept loop of [web.rs], which only spawns the handler, are left out. *)
From Stdlib Require Export Ascii ZArith Lia.
From Stdlib Require String.
From stdpp Require Export base tactics gmap sets strings numbers list.

#[global] Set Default Goal Selector "!".
#[global] Open Scope Z_scope.

(** ** Bytes *)

(** [Bytes], [Vec<u8>], [&[u8]] and the UTF-8 contents of [String] are all lists of
    8-bit characters. *)
Abbreviation bytes := (list ascii).

(** The numeric value of a byte, as [u8]. *)
Definition u8 (c : ascii) : Z := Z.of_nat (nat_of_ascii c).

(** A byte-string literal [b"..."] / ["..."]. *)
Definition bs (s : String.string) : bytes := String.list_ascii_of_string s.
Arguments bs _%_string.

(** A byte given by its code. *)
Definition byte_of (n : nat) : ascii := ascii_of_nat n.

Definition CR : ascii := byte_of 13.
Definition LF : ascii := byte_of 10.
Definition CRLF : bytes := [CR; LF].

(** Length of a sequence, as [usize]. *)
Definition len {A} (l : list A) : Z := Z.of_nat (length l).

Lemma len_nonneg {A} (l : list A) : 0 <= len l.
Proof. unfold len. lia. Qed.

Lemma len_cons {A} (x : A) l : len (x :: l) = 1 + len l.
Proof. unfold len. cbn [length]. lia. Qed.

Lemma len_app {A} (l1 l2 : list A) : len (l1 ++ l2) = len l1 + len l2.
Proof. unfold len. rewrite length_app. lia. Qed.

Lemma u8_range (c : ascii) : 0 <= u8 c < 256.
Proof. unfold u8. pose proof (nat_ascii_bounded c). lia. Qed.

Lemma u8_inj (a b : ascii) : u8 a = u8 b -> a = b.
Proof.
  unfold u8. intros H. apply Nat2Z.inj in H.
  rewrite <- (ascii_nat_embedding a), <- (ascii_nat_embedding b). by rewrite H.
Qed.

(** ** Machine integers *)

(** [usize] and [u64] are 64 bits wide; arithmetic in the release profile and the atomic
    [fetch_add]/[fetch_sub] wrap modulo [2^64]. *)
Definition u64_modulus : Z := 18446744073709551616.
Definition u64_max : Z := u64_modulus - 1.
Definition i64_min : Z := -9223372036854775808.
Definition i64_max : Z := 9223372036854775807.

Definition wrap_u64 (z : Z) : Z := z mod u64_modulus.

(** [x as i64] for an integer [x] of 64 or more bits: two's complement truncation. *)
Definition as_i64 (z : Z) : Z :=
  let w := wrap_u64 z in if w <=? i64_max then w else w - u64_modulus.

Lemma wrap_u64_range z : 0 <= wrap_u64 z < u64_modulus.
Proof. apply Z.mod_pos_bound. reflexivity. Qed.

Lemma wrap_u64_small z : 0 <= z < u64_modulus -> wrap_u64 z = z.
Proof. apply Z.mod_small. Qed.

Lemma as_i64_small z : 0 <= z <= i64_max -> as_i64 z = z.
Proof.
  intros [H1 H2]. unfold as_i64.
  rewrite wrap_u64_small by (unfold u64_modulus, i64_max in *; lia).
  by rewrite (proj2 (Z.leb_le _ _) H2).
Qed.

(** ** Rust's [Result] *)

Inductive Result (E A : Type) : Type :=
  | Ok (a : A)
  | Err (e : E).
Arguments Ok {E A} a.
Arguments Err {E A} e.

#[export] Instance Result_eq_dec {E A} `{EqDecision E, EqDecision A} :
  EqDecision (Result E A).
Proof. solve_decision. Defined.

#[export] Instance Result_ret {E} : MRet (Result E) := fun A a => Ok a.
#[export] Instance Result_fmap {E} : FMap (Result E) :=
  fun A B f m => match m with Ok a => Ok (f a) | Err e => Err e end.
(** The [?] operator: [Err] returns early. *)
#[export] Instance Result_bind {E} : MBind (Result E) :=
  fun A B f m => match m with Ok a => f a | Err e => Err e end.

(** [Option::ok_or_else] *)
Definition ok_or {E A} (e : E) (o : option A) : Result E A :=
  match o with Some a => Ok a | None => Err e end.

Lemma Result_bind_Ok {E A B} (f : A -> Result E B) (m : Result E A) b :
  m ≫= f = Ok b <-> exists a, m = Ok a /\ f a = Ok b.
Proof.
  destruct m as [a|e]; cbn; split.
  - eauto.
  - intros (? & [= <-] & ?). done.
  - done.
  - by intros (? & [=] & _).
Qed.

(** ** Stateful code that may panic

    A computation over a shared state [S] either returns a value with the state it
    leaves, or panics, leaving the state it had reached (locks are released while the
    stack unwinds and [parking_lot] does not poison them). *)

Inductive Outcome (S A : Type) : Type :=
  | Done (a : A) (s : S)
  | Panic (s : S).
Arguments Done {S A} a s.
Arguments Panic {S A} s.

Definition ST (S A : Type) : Type := S -> Outcome S A.

#[export] Instance ST_ret {S} : MRet (ST S) := fun A a s => Done a s.
#[export] Instance ST_bind {S} : MBind (ST S) :=
  fun A B f m s => match m s with Done a s' => f a s' | Panic s' => Panic s' end.

Definition get_state {S} : ST S S := fun s => Done s s.
Definition modify {S} (f : S -> S) : ST S unit := fun s => Done tt (f s).
Definition panic {S A} : ST S A := fun s => Panic s.

(** [for x in l { body x }] *)
Fixpoint for_each {S A} (l : list A) (body : A -> ST S unit) : ST S unit :=
  match l with
  | [] => mret tt
  | x :: l' => body x ;; for_each l' body
  end.

(** Total correctness of a computation from a state: it does not panic, and its value
    and final state satisfy the postcondition. *)
Definition wp {S A} (m : ST S A) (Q : A -> S -> Prop) (s : S) : Prop :=
  match m s with Done a s' => Q a s' | Panic _ => False end.

Lemma wp_ret {S A} (a : A) (Q : A -> S -> Prop) s : Q a s -> wp (mret a) Q s.
Proof. done. Qed.

Lemma wp_bind {S A B} (m : ST S A) (f : A -> ST S B) (Q : B -> S -> Prop) s :
  wp m (fun a s' => wp (f a) Q s') s -> wp (m ≫= f) Q s.
Proof. unfold wp, mbind, ST_bind. by destruct (m s). Qed.

Lemma wp_mono {S A} (m : ST S A) (Q Q' : A -> S -> Prop) s :
  wp m Q s -> (forall a s', Q a s' -> Q' a s') -> wp m Q' s.
Proof. unfold wp. destruct (m s); eauto. Qed.

Lemma wp_modify {S} (f : S -> S) (Q : unit -> S -> Prop) s : Q tt (f s) -> wp (modify f) Q s.
Proof. done. Qed.

Lemma wp_get {S} (Q : S -> S -> Prop) s : Q s s -> wp get_state Q s.
Proof. done. Qed.

Lemma wp_Done {S A} (m : ST S A) (Q : A -> S -> Prop) s :
  wp m Q s <-> exists a s', m s = Done a s' /\ Q a s'.
Proof.
  unfold wp. split.
  - destruct (m s); [eauto | done].
  - by intros (a & s' & -> & HQ).
Qed.

(** A loop keeps an invariant indexed by the elements still to visit. *)
Lemma wp_for_each {S A} (body : A -> ST S unit) (I : list A -> S -> Prop) l s
    (Q : unit -> S -> Prop) :
  I l s ->
  (forall x l' s', I (x :: l') s' -> wp (body x) (fun _ s'' => I l' s'') s') ->
  (forall s', I [] s' -> Q tt s') ->
  wp (for_each l body) Q s.
Proof.
  intros HI Hstep HQ. revert s HI.
  induction l as [|x l IH]; intros s HI; cbn [for_each].
  - apply wp_ret. eauto.
  - apply wp_bind. eapply wp_mono; [by apply Hstep|]. intros [] s'. apply IH.
Qed.

(** ** Sums over lists *)

Fixpoint sumZ (l : list Z) : Z := match l with [] => 0 | x :: l' => x + sumZ l' end.

Lemma sumZ_app l1 l2 : sumZ (l1 ++ l2) = sumZ l1 + sumZ l2.
Proof. induction l1 as [|x l1 IH]; cbn; lia. Qed.

#[export] Instance sumZ_perm : Proper (Permutation ==> eq) sumZ.
Proof. induction 1; cbn; lia. Qed.

Lemma sumZ_nonneg l : Forall (fun x => 0 <= x) l -> 0 <= sumZ l.
Proof. induction 1; cbn; lia. Qed.

(** ** Automation *)

(** Equations between constructors, hypotheses about [option]s and [Result]s, and
    contradictions. *)
Ltac inv_ok :=
  repeat match goal with
    | H : Ok _ = Ok _ |- _ => injection H as H
    | H : Err _ = Err _ |- _ => injection H as H
    | H : Ok _ = Err _ |- _ => discriminate H
    | H : Err _ = Ok _ |- _ => discriminate H
    | H : Done _ _ = Done _ _ |- _ => injection H as H
    | H : _ ≫= _ = Ok _ |- _ => apply Result_bind_Ok in H as (? & ? & ?)
    | H : mret _ = Ok _ |- _ => injection H as H
    end; simplify_eq.

(** Runs the steps of a fallible computation whose results are known. *)
Ltac run_ok := repeat match goal with E : ?m = Ok _ |- context [?m] => rewrite E; cbn [mbind Result_bind fmap Result_fmap] end.

(** Symbolic execution of a computation under [wp]. *)
Create HintDb wp_db.

Ltac wp_step :=
  lazymatch goal with
  | |- wp (mret _) _ _ => apply wp_ret
  | |- wp (_ ≫= _) _ _ => apply wp_bind
  | |- wp (modify _) _ _ => apply wp_modify
  | |- wp get_state _ _ => apply wp_get
  | |- wp (match ?x with _ => _ end) _ _ => destruct x eqn:?
  | |- wp (let x := _ in _) _ _ => intro
  end.

Ltac wp_run := repeat (wp_step; cbn beta).

(** ** Equality modulo the width of a counter *)

Definition eq64 (a b : Z) : Prop := wrap_u64 a = wrap_u64 b.

#[export] Instance eq64_equiv : Equivalence eq64.
Proof. split; [done|by intros a b|]. intros a b c. unfold eq64. congruence. Qed.

#[export] Instance eq64_add : Proper (eq64 ==> eq64 ==> eq64) Z.add.
Proof.
  intros a a' Ha b b' Hb. unfold eq64, wrap_u64 in *.
  by rewrite Zplus_mod, Ha, Hb, <- Zplus_mod.
Qed.

#[export] Instance eq64_sub : Proper (eq64 ==> eq64 ==> eq64) Z.sub.
Proof.
  intros a a' Ha b b' Hb. unfold eq64, wrap_u64 in *.
  by rewrite Zminus_mod, Ha, Hb, <- Zminus_mod.
Qed.

Lemma eq64_wrap a : eq64 (wrap_u64 a) a.
Proof. apply Z.mod_mod. discriminate. Qed.

Lemma eq64_eq a b : a = b -> eq64 a b.
Proof. by intros ->. Qed.

(** Goals between wrapped sums: drop the inner wraps, then linear arithmetic. *)
Ltac wrap_lia :=
  lazymatch goal with
  | |- wrap_u64 ?a = wrap_u64 ?b => change (eq64 a b)
  | |- eq64 _ _ => idtac
  end;
  rewrite ?eq64_wrap; apply eq64_eq; lia.
