(* ===== verification/RustStd.v ===== *)
(** * The parts of Rust's standard library the program uses

    UTF-8 validation ([str::from_utf8], [String::from_utf8]), integer parsing and
    printing ([str::parse], [to_string]), ASCII and Unicode case, white space
    splitting, and the monotonic clock ([Instant], [Duration]). *)
From S2P Require Import Prelude.

(** ** UTF-8 *)

Definition in_range (lo hi : Z) (c : ascii) : bool := (lo <=? u8 c) && (u8 c <=? hi).

(** A continuation byte. *)
Definition utf8_cont (c : ascii) : bool := in_range 128 191 c.

(** [std::str::from_utf8(..).is_ok()]: the well-formed byte sequences of the Unicode
    standard, which is what the library's validation accepts. *)
Fixpoint utf8_valid (s : bytes) : bool :=
  match s with
  | [] => true
  | a :: s1 =>
    if u8 a <? 128 then utf8_valid s1
    else match s1 with
    | b :: s2 =>
      if in_range 194 223 a then utf8_cont b && utf8_valid s2
      else match s2 with
      | c :: s3 =>
        if u8 a =? 224 then in_range 160 191 b && utf8_cont c && utf8_valid s3
        else if in_range 225 236 a || in_range 238 239 a
        then utf8_cont b && utf8_cont c && utf8_valid s3
        else if u8 a =? 237 then in_range 128 159 b && utf8_cont c && utf8_valid s3
        else match s3 with
        | d :: s4 =>
          if u8 a =? 240 then in_range 144 191 b && utf8_cont c && utf8_cont d && utf8_valid s4
          else if in_range 241 243 a then utf8_cont b && utf8_cont c && utf8_cont d && utf8_valid s4
          else if u8 a =? 244 then in_range 128 143 b && utf8_cont c && utf8_cont d && utf8_valid s4
          else false
        | [] => false
        end
      | [] => false
      end
    | [] => false
    end
  end.

(** [String::from_utf8(v)] / [str::from_utf8(s)], the error carrying no information the
    program looks at. *)
Definition from_utf8 (s : bytes) : option bytes := if utf8_valid s then Some s else None.

Definition is_ascii (c : ascii) : bool := u8 c <? 128.

Lemma utf8_valid_ascii s : Forall is_ascii s -> utf8_valid s = true.
Proof.
  induction 1 as [|c s Hc _ IH]; [done|]. cbn.
  unfold is_ascii in Hc. by destruct (u8 c <? 128).
Qed.

Lemma from_utf8_Some s t : from_utf8 s = Some t -> t = s /\ utf8_valid s = true.
Proof. unfold from_utf8. destruct (utf8_valid s); by intros [= ->]. Qed.

(** ** Case *)

Definition ascii_upper (c : ascii) : ascii :=
  if in_range 97 122 c then byte_of (nat_of_ascii c - 32) else c.
Definition ascii_lower (c : ascii) : ascii :=
  if in_range 65 90 c then byte_of (nat_of_ascii c + 32) else c.

(** Unicode's case mappings of strings that are not ASCII: data of the Unicode character
    database that the standard library embeds, an argument of the model. *)
Class UnicodeCase := {
  unicode_upper : bytes -> bytes;
  unicode_lower : bytes -> bytes;
}.

Section case.
Context `{UnicodeCase}.

(** [str::to_uppercase], [str::to_lowercase] *)
Definition to_uppercase (s : bytes) : bytes :=
  if forallb is_ascii s then map ascii_upper s else unicode_upper s.
Definition to_lowercase (s : bytes) : bytes :=
  if forallb is_ascii s then map ascii_lower s else unicode_lower s.
End case.

(** [str::eq_ignore_ascii_case] *)
Definition eq_ignore_ascii_case (s t : bytes) : bool :=
  bool_decide (map ascii_lower s = map ascii_lower t).

(** ** White space *)

(** The number of bytes of the Unicode white space character [s] starts with, 0 when it
    starts with another character ([char::is_whitespace] over UTF-8). *)
Definition ws_len (s : bytes) : nat :=
  match s with
  | [] => 0%nat
  | a :: s1 =>
    if in_range 9 13 a || (u8 a =? 32) then 1%nat
    else match s1 with
    | b :: s2 =>
      if (u8 a =? 194) && ((u8 b =? 133) || (u8 b =? 160)) then 2%nat
      else match s2 with
      | c :: _ =>
        if ((u8 a =? 225) && (u8 b =? 154) && (u8 c =? 128))
        || ((u8 a =? 226) && (u8 b =? 128) &&
            (in_range 128 138 c || (u8 c =? 168) || (u8 c =? 169) || (u8 c =? 175)))
        || ((u8 a =? 226) && (u8 b =? 129) && (u8 c =? 159))
        || ((u8 a =? 227) && (u8 b =? 128) && (u8 c =? 128))
        then 3%nat else 0%nat
      | [] => 0%nat
      end
    | [] => 0%nat
    end
  end.

(** [str::split_whitespace]: the maximal runs of characters that are not white space.
    [skip] counts the bytes of the current white space character still to pass, [cur]
    holds the current run, reversed. *)
Definition emit (cur : bytes) : list bytes := match cur with [] => [] | _ => [rev cur] end.

Fixpoint split_ws (skip : nat) (cur : bytes) (s : bytes) : list bytes :=
  match s with
  | [] => emit cur
  | c :: s' =>
    match skip with
    | S k => split_ws k cur s'
    | O => match ws_len s with
           | O => split_ws 0 (c :: cur) s'
           | S k => emit cur ++ split_ws k [] s'
           end
    end
  end.

Definition split_whitespace (s : bytes) : list bytes := split_ws 0 [] s.

(** ** Integers *)

Definition is_digit (c : ascii) : bool := in_range 48 57 c.
Definition digit_val (c : ascii) : Z := u8 c - 48.
Definition digit_char (d : Z) : ascii := byte_of (Z.to_nat (48 + d)).

Fixpoint parse_digits (acc : Z) (s : bytes) : option Z :=
  match s with
  | [] => Some acc
  | c :: s' => if is_digit c then parse_digits (acc * 10 + digit_val c) s' else None
  end.

(** [str::parse] at an integer type of range [lo..=hi]: an optional [+], for the signed
    types an optional [-], then at least one decimal digit; out of range is an error. *)
Definition parse_int (signed : bool) (lo hi : Z) (s : bytes) : option Z :=
  let in_type z := if (lo <=? z) && (z <=? hi) then Some z else None in
  match s with
  | [] => None
  | c :: s' =>
    if (bool_decide (c = "+"%char) || bool_decide (c = "-"%char)) && bool_decide (s' = []) then None
    else if bool_decide (c = "+"%char) then parse_digits 0 s' ≫= in_type
    else if bool_decide (c = "-"%char) && signed
    then parse_digits 0 s' ≫= (fun z => in_type (- z))
    else parse_digits 0 s ≫= in_type
  end.

Lemma parse_int_range signed lo hi s z : parse_int signed lo hi s = Some z -> lo <= z <= hi.
Proof.
  unfold parse_int. assert (forall o, (o ≫= fun z => if (lo <=? z) && (z <=? hi) then Some z else None) = Some z ->
    lo <= z <= hi) as H1.
  { intros o Ho. apply bind_Some in Ho as (w & _ & Hw). destruct (_ && _) eqn:E; [|done].
    injection Hw as ->. by apply andb_true_iff in E as [?%Z.leb_le ?%Z.leb_le]. }
  destruct s as [|c s]; [done|]. destruct (_ && bool_decide (s = [])); [done|].
  destruct (bool_decide (c = "+"%char)); [apply H1|]. destruct (_ && signed); [|apply H1].
  destruct (parse_digits 0 s) as [w|]; [|done]. intros Hw. by apply (H1 (Some (- w))).
Qed.

Definition parse_i64 : bytes -> option Z := parse_int true i64_min i64_max.
Definition parse_u64 : bytes -> option Z := parse_int false 0 u64_max.
Definition parse_usize : bytes -> option Z := parse_int false 0 u64_max.

Fixpoint show_aux (fuel : nat) (n : Z) (acc : bytes) : bytes :=
  match fuel with
  | O => acc
  | S f =>
    let acc' := digit_char (n mod 10) :: acc in
    if n <? 10 then acc' else show_aux f (n / 10) acc'
  end.

(** [to_string] of an unsigned integer; a decimal has at most as many digits as bits. *)
Definition show_uint (n : Z) : bytes := show_aux (S (Z.to_nat (Z.log2 n))) n [].
(** [to_string] of [i64] *)
Definition show_i64 (z : Z) : bytes :=
  if z <? 0 then "-"%char :: show_uint (- z) else show_uint z.

(** ** Clock *)

(** An [Instant] is a number of nanoseconds; on the supported platform it holds whole
    seconds in an [i64], and [Instant + Duration] panics when they overflow. A [Duration]
    is a number of nanoseconds. *)
Definition NANOS : Z := 1000000000.
Definition Instant_max : Z := (i64_max + 1) * NANOS - 1.

Definition from_secs (s : Z) : Z := s * NANOS.
Definition from_millis (ms : Z) : Z := ms * 1000000.

(** [Instant + Duration]; [None] is the panic. *)
Definition instant_add (t d : Z) : option Z :=
  if t + d <=? Instant_max then Some (t + d) else None.

(** [Instant::duration_since], which saturates at zero. *)
Definition duration_since (t earlier : Z) : Z := Z.max 0 (t - earlier).
Definition as_secs (d : Z) : Z := d / NANOS.
Definition as_millis (d : Z) : Z := d / 1000000.

(** ** Lemmas *)

Lemma u8_byte_of n : (n < 256)%nat -> u8 (byte_of n) = Z.of_nat n.
Proof. intros ?. unfold u8, byte_of. by rewrite nat_ascii_embedding. Qed.

Lemma digit_char_spec d : 0 <= d < 10 ->
  is_digit (digit_char d) = true /\ digit_val (digit_char d) = d.
Proof.
  intros Hd. unfold is_digit, digit_val, digit_char, in_range.
  rewrite u8_byte_of by lia. split; [|lia].
  apply andb_true_iff. split; apply Z.leb_le; lia.
Qed.

Lemma is_digit_ascii c : is_digit c = true -> is_ascii c = true.
Proof.
  unfold is_digit, is_ascii, in_range. intros [_ ?%Z.leb_le]%andb_true_iff.
  apply Z.ltb_lt. lia.
Qed.

Lemma show_aux_digits fuel n acc :
  Forall is_digit acc -> Forall is_digit (show_aux fuel n acc).
Proof.
  revert n acc. induction fuel as [|f IH]; intros n acc Hacc; cbn; [done|].
  pose proof (Z.mod_pos_bound n 10 ltac:(lia)) as Hm.
  assert (Forall is_digit (digit_char (n mod 10) :: acc)).
  { constructor; [|done]. by rewrite (proj1 (digit_char_spec _ Hm)). }
  destruct (n <? 10); eauto.
Qed.

Lemma show_uint_digits n : Forall is_digit (show_uint n).
Proof. by apply show_aux_digits. Qed.

Lemma parse_show_aux fuel n acc :
  0 <= n < 2 ^ Z.of_nat fuel ->
  parse_digits 0 (show_aux fuel n acc) = parse_digits n acc.
Proof.
  revert n acc. induction fuel as [|f IH]; intros n acc Hn; cbn [show_aux].
  { change (2 ^ Z.of_nat 0) with 1 in Hn. by replace n with 0 by lia. }
  pose proof (Z.mod_pos_bound n 10 ltac:(lia)) as Hm.
  pose proof (digit_char_spec _ Hm) as [Hd Hv].
  rewrite Nat2Z.inj_succ, Z.pow_succ_r in Hn by lia.
  destruct (n <? 10) eqn:E.
  - cbn. rewrite Hd, Hv. apply Z.ltb_lt in E. by rewrite Z.mod_small by lia.
  - rewrite IH by (split; [apply Z.div_pos; lia | apply Z.div_lt_upper_bound; lia]).
    cbn. rewrite Hd, Hv. f_equal. pose proof (Z.div_mod n 10). lia.
Qed.

Lemma parse_show_uint n : 0 <= n -> parse_digits 0 (show_uint n) = Some n.
Proof.
  intros Hn. unfold show_uint. rewrite parse_show_aux; [done|]. split; [done|].
  destruct (decide (n = 0)) as [->|]; [by vm_compute|].
  rewrite Nat2Z.inj_succ, Z2Nat.id by apply Z.log2_nonneg.
  apply Z.log2_spec. lia.
Qed.

Lemma show_uint_cons n : exists c s, show_uint n = c :: s /\ is_digit c = true.
Proof.
  pose proof (show_uint_digits n) as Hd.
  assert (show_uint n <> []) as Hne.
  { unfold show_uint. cbn [show_aux].
    assert (forall f m a, a <> [] -> show_aux f m a <> []) as Haux.
    { induction f as [|f IH]; intros m a Ha; cbn; [done|]. destruct (m <? 10); [done|]. by apply IH. }
    destruct (n <? 10); [done|]. by apply Haux. }
  destruct (show_uint n) as [|c s]; [done|]. inversion Hd. exists c, s.
  split; [done|]. by apply Is_true_eq_true.
Qed.

(** Printing then parsing an integer of the type gives it back. *)
Lemma parse_int_show_uint signed lo hi n :
  0 <= n -> lo <= n <= hi -> parse_int signed lo hi (show_uint n) = Some n.
Proof.
  intros Hn Hr. pose proof (parse_show_uint n Hn) as Hp.
  destruct (show_uint_cons n) as (c & s & Hs & Hc). rewrite Hs in *. unfold parse_int.
  rewrite !(bool_decide_eq_false_2 (c = _)) by (intros ->; done).
  cbn [orb andb]. rewrite Hp. cbn.
  by rewrite (proj2 (Z.leb_le _ _) (proj1 Hr)), (proj2 (Z.leb_le _ _) (proj2 Hr)).
Qed.

Lemma parse_i64_show_i64 z : i64_min <= z <= i64_max -> parse_i64 (show_i64 z) = Some z.
Proof.
  intros Hz. unfold show_i64. destruct (z <? 0) eqn:E.
  - apply Z.ltb_lt in E. pose proof (parse_show_uint (- z) ltac:(lia)) as Hp.
    destruct (show_uint_cons (- z)) as (c & s & Hs & _). rewrite Hs in *.
    unfold parse_i64, parse_int. cbn -[parse_digits]. rewrite Hp. cbn.
    rewrite Z.opp_involutive.
    by rewrite (proj2 (Z.leb_le _ _) (proj1 Hz)), (proj2 (Z.leb_le _ _) (proj2 Hz)).
  - apply Z.ltb_ge in E. by apply parse_int_show_uint.
Qed.

Lemma show_i64_ascii z : Forall is_ascii (show_i64 z).
Proof.
  assert (forall n, Forall is_ascii (show_uint n)) as Hu.
  { intros n. eapply Forall_impl; [apply show_uint_digits|].
    intros c Hc. apply Is_true_eq_left, is_digit_ascii. by apply Is_true_eq_true. }
  unfold show_i64. destruct (z <? 0); [by constructor | done].
Qed.
