(* ===== verification/Frame.v ===== *)
(** * RESP2 frames: [src/src/frame.rs]

    The frame type, the cursor helpers, [Frame::check], [Frame::parse] and
    [Frame::write_to_buf]; framing (how many bytes a frame takes, what more input can
    change), agreement of [check] and [parse], and the encode/decode round trip. *)
From S2P Require Import Prelude.
From S2P Require Import RustStd.

(** ** Data *)

Inductive Frame :=
  | Simple (val : bytes)
  | Error (val : bytes)
  | Integer (val : Z)
  | Bulk (val : bytes)
  | Null
  | Array (frames : list Frame).

Inductive FrameError :=
  | Incomplete
  | Other (msg : bytes).

(** [Cursor<&[u8]>]: the position and the bytes from it to the end of the buffer. *)
Record Cursor := mkCursor { position : nat; chunk : bytes }.

(** ** The cursor monad: [&mut Cursor] threaded, [?] on errors *)

Definition Parser (A : Type) : Type := Cursor -> Result FrameError (A * Cursor).

#[export] Instance Parser_ret : MRet Parser := fun A a src => Ok (a, src).
#[export] Instance Parser_bind : MBind Parser :=
  fun A B f p src => match p src with Ok (a, src') => f a src' | Err e => Err e end.

Definition fail {A} (e : FrameError) : Parser A := fun _ => Err e.
Definition other {A} (msg : String.string) : Parser A := fail (Other (bs msg)).
Arguments other {A} msg%_string.

(** [Option::ok_or] inside a parser. *)
Definition require {A} (e : FrameError) (o : option A) : Parser A :=
  match o with Some a => mret a | None => fail e end.

(** [src.advance(n)] *)
Definition advance (n : nat) : Parser unit :=
  fun src => Ok (tt, mkCursor (position src + n) (drop n (chunk src))).

(** [&src.chunk()[..n]] *)
Definition peek_bytes (n : nat) : Parser bytes := fun src => Ok (take n (chunk src), src).

(** [if src.remaining() < n { return Err(FrameError::Incomplete) }] *)
Definition ensure_remaining (n : Z) : Parser unit :=
  fun src => if len (chunk src) <? n then Err Incomplete else Ok (tt, src).

Definition peek_u8 : Parser ascii := fun src =>
  match chunk src with [] => Err Incomplete | b :: _ => Ok (b, src) end.

Definition get_u8 : Parser ascii := fun src =>
  match chunk src with
  | [] => Err Incomplete
  | b :: rest => Ok (b, mkCursor (S (position src)) rest)
  end.

(** The bytes before the first CRLF, and those after it. *)
Fixpoint split_crlf (s : bytes) : option (bytes * bytes) :=
  match s with
  | [] => None
  | a :: s' =>
    match s' with
    | b :: s'' =>
      if Ascii.eqb a CR && Ascii.eqb b LF then Some ([], s'')
      else match split_crlf s' with
           | Some (line, rest) => Some (a :: line, rest)
           | None => None
           end
    | [] => None
    end
  end.

Definition get_line : Parser bytes := fun src =>
  match split_crlf (chunk src) with
  | Some (line, rest) => Ok (line, mkCursor (position src + length line + 2) rest)
  | None => Err Incomplete
  end.

Definition get_decimal : Parser Z :=
  line ← get_line;
  s ← require (Other (bs "invalid utf8 integer")) (from_utf8 line);
  require (Other (bs "invalid integer digits")) (parse_i64 s).

(** [usize::try_from(len)?] *)
Definition usize_try_from (z : Z) : Parser Z :=
  if z <? 0 then other "protocol error; invalid integer conversion" else mret z.

(** [get_u8(src)? != b'\r' || get_u8(src)? != b'\n'] followed by the early return. *)
Definition expect_crlf : Parser unit :=
  a ← get_u8;
  if negb (Ascii.eqb a CR) then other "bulk string not followed by CRLF"
  else b ← get_u8;
  if negb (Ascii.eqb b LF) then other "bulk string not followed by CRLF" else mret tt.

(** [for _ in 0..n { out.push(step(src)?) }]. Every step of the two loops below takes at
    least two bytes, so the number of bytes left bounds the number of iterations: when the
    fuel is out there is no byte left, and the step would report [Incomplete].

    [out_of_fuel] is what a recursion cut off by its fuel reports. The decoders use
    [Incomplete], which is also a result of theirs; that they give the same results whatever
    it is shows that they are never cut off ([decoding_terminates]). *)
Section recursion.
Variable out_of_fuel : FrameError.

Fixpoint for_range_or {A} (step : Parser A) (fuel : nat) (n : Z) : Parser (list A) :=
  if n <=? 0 then mret []
  else match fuel with
  | O => fail out_of_fuel
  | S f => x ← step; xs ← for_range_or step f (n - 1); mret (x :: xs)
  end.

(** ** [Frame::check]

    The recursion is on arrays nested in arrays, each of which takes at least four bytes
    of header; fuel as above. *)
Fixpoint check_or (fuel : nat) : Parser unit :=
  match fuel with
  | O => fail out_of_fuel
  | S f =>
    ensure_remaining 1 ;;
    b ← peek_u8;
    if Ascii.eqb b "+" then get_u8 ;; get_line ;; mret tt
    else if Ascii.eqb b "-" then get_u8 ;; get_line ;; mret tt
    else if Ascii.eqb b ":" then get_u8 ;; get_decimal ;; mret tt
    else if Ascii.eqb b "$" then
      get_u8 ;;
      b1 ← peek_u8;
      if Ascii.eqb b1 "-" then
        line ← get_line;
        if bool_decide (line = bs "-1") then mret tt
        else other "invalid null bulk string"
      else
        n ← get_decimal;
        if n <? 0 then other "negative bulk string length"
        else
          n ← usize_try_from n;
          ensure_remaining (n + 2) ;;
          advance (Z.to_nat n) ;;
          expect_crlf
    else if Ascii.eqb b "*" then
      get_u8 ;;
      n ← get_decimal;
      if n <? 0 then other "negative array length"
      else for_range_or (check_or f) f n ;; mret tt
    else get_line ;; mret tt
  end.

(** ** [Frame::parse] *)
Fixpoint parse_or (fuel : nat) : Parser Frame :=
  match fuel with
  | O => fail out_of_fuel
  | S f =>
    b ← peek_u8;
    if Ascii.eqb b "+" then
      get_u8 ;;
      line ← get_line;
      s ← require (Other (bs "protocol error; invalid utf8 string")) (from_utf8 line);
      mret (Simple s)
    else if Ascii.eqb b "-" then
      get_u8 ;;
      line ← get_line;
      s ← require (Other (bs "protocol error; invalid utf8 string")) (from_utf8 line);
      mret (Error s)
    else if Ascii.eqb b ":" then
      get_u8 ;;
      val ← get_decimal;
      mret (Integer val)
    else if Ascii.eqb b "$" then
      get_u8 ;;
      b1 ← peek_u8;
      if Ascii.eqb b1 "-" then
        line ← get_line;
        if bool_decide (line = bs "-1") then mret Null
        else other "invalid null bulk string"
      else
        n ← get_decimal;
        n ← usize_try_from n;
        ensure_remaining (n + 2) ;;
        data ← peek_bytes (Z.to_nat n);
        advance (Z.to_nat n) ;;
        expect_crlf ;;
        mret (Bulk data)
    else if Ascii.eqb b "*" then
      get_u8 ;;
      n ← get_decimal;
      n ← usize_try_from n;
      out ← for_range_or (parse_or f) f n;
      mret (Array out)
    else
      line ← get_line;
      s ← require (Other (bs "invalid utf8 inline command")) (from_utf8 line);
      mret (Array (map Bulk (split_whitespace s)))
  end.

End recursion.

Notation for_range := (for_range_or Incomplete).
Notation check_fuel := (check_or Incomplete).
Notation parse_fuel := (parse_or Incomplete).

Definition check : Parser unit := fun src => check_fuel (length (chunk src)) src.

Definition parse : Parser Frame := fun src => parse_fuel (length (chunk src)) src.

(** ** [Frame::write_to_buf] *)
Fixpoint write_to_buf (f : Frame) (dst : bytes) : bytes :=
  match f with
  | Simple val => dst ++ ["+"%char] ++ val ++ CRLF
  | Error val => dst ++ ["-"%char] ++ val ++ CRLF
  | Integer val => dst ++ [":"%char] ++ show_i64 val ++ CRLF
  | Null => dst ++ bs "$-1" ++ CRLF
  | Bulk val => dst ++ ["$"%char] ++ show_uint (len val) ++ CRLF ++ val ++ CRLF
  | Array frames =>
    fold_left (fun d frame => write_to_buf frame d) frames
      (dst ++ ["*"%char] ++ show_uint (len frames) ++ CRLF)
  end.

(** [Frame::to_error] *)
Definition to_error (f : Frame) : option bytes :=
  match f with Error msg => Some msg | _ => None end.

(** ** Specification vocabulary *)

(** A cursor at the start of a buffer. *)
Definition cursor_of (s : bytes) : Cursor := mkCursor 0 s.

(** The wire form of a frame. *)
Definition encode (f : Frame) : bytes := write_to_buf f [].

(** A line holds no CRLF. *)
Fixpoint no_crlf (s : bytes) : bool :=
  match s with
  | a :: ((b :: _) as s') => negb (Ascii.eqb a CR && Ascii.eqb b LF) && no_crlf s'
  | _ => true
  end.

(** The frames RESP can carry: simple strings and errors are one line of UTF-8, integers
    are 64-bit and lengths are those of objects in memory. *)
Fixpoint frame_ok (f : Frame) : bool :=
  match f with
  | Simple s | Error s => utf8_valid s && no_crlf s
  | Integer z => (i64_min <=? z) && (z <=? i64_max)
  | Bulk b => len b <=? i64_max
  | Null => true
  | Array fs => (len fs <=? i64_max) && forallb frame_ok fs
  end.

(** ** Framing: what a parser takes and what more input can change *)

(** [c] with [ext] appended to its buffer. *)
Definition extend (c : Cursor) (ext : bytes) : Cursor :=
  mkCursor (position c) (chunk c ++ ext).

(** [p] takes a prefix of at least [k] bytes of what is left; its success and its format
    errors do not depend on the bytes that follow in the buffer. *)
Definition framed {A} (k : nat) (p : Parser A) : Prop :=
  forall c,
    match p c with
    | Ok (a, c') =>
      (exists pre, chunk c = pre ++ chunk c' /\ position c' = (position c + length pre)%nat
                   /\ (k <= length pre)%nat)
      /\ forall ext, p (extend c ext) = Ok (a, extend c' ext)
    | Err (Other m) => forall ext, p (extend c ext) = Err (Other m)
    | Err Incomplete => True
    end.

Lemma framed_ret {A} (a : A) : framed 0 (mret a).
Proof. intros c. cbn. split; [|done]. exists []. cbn. split_and!; [done|lia|lia]. Qed.

Lemma framed_fail {A} k e : framed (A := A) k (fail e).
Proof. intros c. cbn. by destruct e. Qed.

Lemma framed_other {A} k msg : framed (A := A) k (other msg).
Proof. apply framed_fail. Qed.

Lemma framed_weaken {A} k k' (p : Parser A) : (k' <= k)%nat -> framed k p -> framed k' p.
Proof.
  intros Hk Hp c. specialize (Hp c). destruct (p c) as [[a c']|e]; [|done].
  destruct Hp as [(pre & ? & ? & ?) ?]. split; [|done]. exists pre. split_and!; [done|done|lia].
Qed.

Lemma framed_bind {A B} k1 k2 (p : Parser A) (f : A -> Parser B) :
  framed k1 p -> (forall a, framed k2 (f a)) -> framed (k1 + k2) (p ≫= f).
Proof.
  intros Hp Hf c. unfold mbind, Parser_bind. specialize (Hp c).
  destruct (p c) as [[a c1]|[|m]]; [|done|by intros ext; rewrite Hp].
  destruct Hp as [(pre1 & Hc & Hpos & Hk1) Hext]. specialize (Hf a c1).
  destruct (f a c1) as [[b c2]|[|m]]; [|done|].
  - destruct Hf as [(pre2 & Hc1 & Hpos2 & Hk2) Hext2]. split.
    + exists (pre1 ++ pre2). rewrite Hc, Hc1, app_assoc, length_app. split_and!; [done|lia|lia].
    + intros ext. by rewrite Hext, Hext2.
  - intros ext. by rewrite Hext, Hf.
Qed.

Lemma framed_bind0 {A B} k (p : Parser A) (f : A -> Parser B) :
  framed k p -> (forall a, framed 0 (f a)) -> framed k (p ≫= f).
Proof. intros. rewrite <- (Nat.add_0_r k). by apply framed_bind. Qed.

Lemma framed_require {A} e (o : option A) : framed 0 (require e o).
Proof. destruct o; [apply framed_ret | apply framed_fail]. Qed.

Lemma framed_peek_u8 : framed 0 peek_u8.
Proof.
  intros [pos [|b s]]; cbn; [done|]. split; [|done]. exists []. cbn. split_and!; [done|lia|lia].
Qed.

Lemma framed_get_u8 : framed 1 get_u8.
Proof.
  intros [pos [|b s]]; cbn; [done|]. split; [|done]. exists [b]. cbn. split_and!; [done|lia|lia].
Qed.

Lemma framed_ensure n : framed 0 (ensure_remaining n).
Proof.
  intros c. unfold ensure_remaining. destruct (len (chunk c) <? n) eqn:E; [done|].
  split; [by exists []; cbn; split_and!; [done|lia|lia]|].
  intros ext. cbn. rewrite len_app. pose proof (len_nonneg ext).
  apply Z.ltb_ge in E. by rewrite (proj2 (Z.ltb_ge _ _)) by lia.
Qed.

Lemma split_crlf_Some s line rest :
  split_crlf s = Some (line, rest) -> s = line ++ CRLF ++ rest.
Proof.
  revert line rest. induction s as [|a s IH]; intros line rest; [done|].
  destruct s as [|b s']; [done|].
  change (split_crlf (a :: b :: s')) with
    (if Ascii.eqb a CR && Ascii.eqb b LF then Some ([], s')
     else match split_crlf (b :: s') with
          | Some (l, r) => Some (a :: l, r) | None => None end).
  destruct (Ascii.eqb_spec a CR) as [->|]; destruct (Ascii.eqb_spec b LF) as [->|]; cbn [andb];
    try (by intros [= <- <-]);
    (destruct (split_crlf (_ :: s')) as [[l r]|]; [|done]);
    intros [= <- <-]; by rewrite (IH l r).
Qed.

Lemma split_crlf_extend s line rest ext :
  split_crlf s = Some (line, rest) -> split_crlf (s ++ ext) = Some (line, rest ++ ext).
Proof.
  revert line rest. induction s as [|a s IH]; intros line rest; [done|].
  destruct s as [|b s']; [done|].
  specialize (IH (match line with [] => [] | _ :: l => l end) rest).
  cbn [split_crlf app] in *. destruct (_ && _).
  - by intros [= <- <-].
  - destruct (match s' with [] => _ | _ => _ end) as [[l r]|]; [|done].
    intros [= <- <-]. by rewrite IH.
Qed.

Lemma framed_get_line : framed 2 get_line.
Proof.
  intros c. unfold get_line. destruct (split_crlf (chunk c)) as [[line rest]|] eqn:E; [|done].
  split.
  - exists (line ++ CRLF). rewrite length_app. cbn. rewrite <- app_assoc.
    split_and!; [by apply split_crlf_Some|lia|lia].
  - intros ext. cbn. by rewrite (split_crlf_extend _ _ _ _ E).
Qed.

Create HintDb framed.
#[export] Hint Resolve framed_ret framed_fail framed_other framed_require framed_peek_u8 framed_ensure : framed.

Lemma framed_usize n : framed 0 (usize_try_from n).
Proof. unfold usize_try_from. destruct (n <? 0); [apply framed_fail | apply framed_ret]. Qed.

Lemma framed_expect_crlf : framed 1 expect_crlf.
Proof.
  apply (framed_bind 1 0); [apply framed_get_u8|]. intros a. destruct (negb _); [apply framed_fail|].
  apply (framed_weaken 1); [lia|]. apply (framed_bind 1 0); [apply framed_get_u8|].
  intros b. destruct (negb _); auto with framed.
Qed.

Lemma framed_get_decimal : framed 2 get_decimal.
Proof.
  apply (framed_bind0 2); [apply framed_get_line|]. intros line.
  apply (framed_bind0 0); auto with framed.
Qed.

(** Skipping or copying [n] bytes after the test that they are there. *)
Lemma framed_take {B} k n (f : bytes -> Parser B) :
  (forall d, framed k (f d)) ->
  framed k (ensure_remaining (n + 2) ;; data ← peek_bytes (Z.to_nat n);
            advance (Z.to_nat n) ;; f data).
Proof.
  intros Hf c. unfold mbind, Parser_bind, ensure_remaining, peek_bytes, advance.
  destruct (len (chunk c) <? n + 2) eqn:E; [done|]. apply Z.ltb_ge in E. cbn.
  set (d := take (Z.to_nat n) (chunk c)). set (c1 := mkCursor _ _).
  assert (Z.to_nat n <= length (chunk c))%nat as Hlen by (unfold len in E; lia).
  assert (forall ext,
    (len (chunk c ++ ext) <? n + 2) = false /\ take (Z.to_nat n) (chunk c ++ ext) = d /\
    mkCursor (position c + Z.to_nat n) (drop (Z.to_nat n) (chunk c ++ ext)) = extend c1 ext)
    as Hext.
  { intros ext. split_and!.
    - apply Z.ltb_ge. rewrite len_app. pose proof (len_nonneg ext). lia.
    - by apply take_app_le.
    - unfold extend, c1. cbn. by rewrite drop_app_le. }
  specialize (Hf d c1). destruct (f d c1) as [[b c2]|[|m]]; [|done|].
  - destruct Hf as [(pre & Hc1 & Hpos & Hk) Hf]. split.
    + exists (d ++ pre). rewrite length_app, <- app_assoc, <- Hc1. unfold c1, d in *. cbn in *.
      rewrite take_drop, length_take. split_and!; [done|lia|lia].
    + intros ext. destruct (Hext ext) as (H1 & H2 & H3). cbn.
      rewrite H1. cbn. rewrite H2, H3. apply Hf.
  - intros ext. destruct (Hext ext) as (H1 & H2 & H3). cbn.
      rewrite H1. cbn. rewrite H2, H3. apply Hf.
Qed.

Lemma framed_skip {B} k n (f : Parser B) :
  framed k f -> framed k (ensure_remaining (n + 2) ;; advance (Z.to_nat n) ;; f).
Proof. intros Hf. exact (framed_take k n (fun _ => f) (fun _ => Hf)). Qed.

Lemma framed_for_range {A} out (step : Parser A) fuel n :
  framed 0 step -> framed 0 (for_range_or out step fuel n).
Proof.
  intros Hs. revert n. induction fuel as [|f IH]; intros n; cbn; destruct (n <=? 0); auto with framed.
  apply (framed_bind 0 0); [done|]. intros x. apply (framed_bind 0 0); [apply IH|]. auto with framed.
Qed.

#[export] Hint Resolve framed_usize framed_for_range framed_take framed_skip : framed.

(** The body of a line-shaped frame: the type byte, then the line. *)
Lemma framed_tagged {A B} (p : Parser A) (f : A -> Parser B) :
  framed 2 p -> (forall a, framed 0 (f a)) -> framed 2 (get_u8 ;; a ← p; f a).
Proof.
  intros Hp Hf. apply (framed_weaken 3); [lia|].
  apply (framed_bind 1 2); [apply framed_get_u8|]. intros _. by apply framed_bind0.
Qed.

Lemma framed_after_tag {A B} k (p : Parser A) (f : A -> Parser B) :
  framed 0 p -> (forall a, framed k (f a)) -> framed (S k) (get_u8 ;; a ← p; f a).
Proof.
  intros Hp Hf. apply (framed_bind 1 k); [apply framed_get_u8|]. intros _. by apply (framed_bind 0 k).
Qed.

(** Every frame takes at least two bytes. *)
Lemma framed_check_fuel out fuel : framed 2 (check_or out fuel).
Proof.
  induction fuel as [|f IH]; [apply framed_fail|]. cbn [check_or].
  assert (framed 0 (check_or out f)) as IH0 by (eapply framed_weaken; [|exact IH]; lia).
  apply (framed_bind 0 2); [auto with framed|]. intros _.
  apply (framed_bind 0 2); [auto with framed|]. intros b.
  repeat match goal with |- framed _ (if Ascii.eqb b _ then _ else _) => destruct (Ascii.eqb b _) end.
  1,2: apply framed_tagged; auto using framed_get_line with framed.
  - apply framed_tagged; auto using framed_get_decimal with framed.
  - apply framed_after_tag; [auto with framed|]. intros b1. destruct (Ascii.eqb b1 _).
    + apply (framed_weaken 2); [lia|]. apply framed_bind0; [apply framed_get_line|].
      intros line. case_bool_decide; auto with framed.
    + apply (framed_weaken 2); [lia|]. apply framed_bind0; [apply framed_get_decimal|]. intros n.
      destruct (n <? 0); [apply framed_fail|]. apply framed_bind0; [auto with framed|]. intros m.
      apply framed_skip, (framed_weaken 1); [lia|]. apply framed_expect_crlf.
  - apply framed_tagged; [apply framed_get_decimal|]. intros n. destruct (n <? 0); [apply framed_fail|].
    apply framed_bind0; auto with framed.
  - apply framed_bind0; [apply framed_get_line|]. auto with framed.
Qed.

Lemma framed_parse_fuel out fuel : framed 2 (parse_or out fuel).
Proof.
  induction fuel as [|f IH]; [apply framed_fail|]. cbn [parse_or].
  assert (framed 0 (parse_or out f)) as IH0 by (eapply framed_weaken; [|exact IH]; lia).
  apply (framed_bind 0 2); [auto with framed|]. intros b.
  repeat match goal with |- framed _ (if Ascii.eqb b _ then _ else _) => destruct (Ascii.eqb b _) end.
  1,2: apply framed_tagged; [apply framed_get_line|]; intros line; apply framed_bind0; auto with framed.
  - apply framed_tagged; auto using framed_get_decimal with framed.
  - apply framed_after_tag; [auto with framed|]. intros b1. destruct (Ascii.eqb b1 _).
    + apply (framed_weaken 2); [lia|]. apply framed_bind0; [apply framed_get_line|].
      intros line. case_bool_decide; auto with framed.
    + apply (framed_weaken 2); [lia|]. apply framed_bind0; [apply framed_get_decimal|]. intros n.
      apply framed_bind0; [auto with framed|]. intros m.
      apply framed_take. intros d. apply (framed_weaken 1); [lia|].
      apply framed_bind0; auto using framed_expect_crlf with framed.
  - apply framed_tagged; [apply framed_get_decimal|]. intros n. apply framed_bind0; [auto with framed|].
    intros m. apply framed_bind0; auto with framed.
  - apply framed_bind0; [apply framed_get_line|]. intros line. apply framed_bind0; auto with framed.
Qed.

(** ** Enough fuel *)

Lemma framed_length {A} k (p : Parser A) c a c' :
  framed k p -> p c = Ok (a, c') -> (k + length (chunk c') <= length (chunk c))%nat.
Proof.
  intros Hp E. specialize (Hp c). rewrite E in Hp. destruct Hp as [(pre & Hc & _ & Hk) _].
  rewrite Hc, length_app. lia.
Qed.

Lemma Parser_bind_ext {A B} (p : Parser A) (f g : A -> Parser B) c :
  (forall a c', p c = Ok (a, c') -> f a c' = g a c') -> (p ≫= f) c = (p ≫= g) c.
Proof. unfold mbind, Parser_bind. intros H. destruct (p c) as [[a c']|e]; auto. Qed.

(** No step succeeds or is malformed on an empty buffer. *)
Definition needs_input {A} (p : Parser A) : Prop := forall pos, p (mkCursor pos []) = Err Incomplete.

Lemma for_range_enough {A} (s1 s2 : Parser A) :
  framed 1 s1 -> needs_input s1 -> needs_input s2 ->
  forall k1 k2 n c,
    (length (chunk c) <= k1)%nat -> (length (chunk c) <= k2)%nat ->
    (forall c', (length (chunk c') <= length (chunk c))%nat -> s1 c' = s2 c') ->
    for_range s1 k1 n c = for_range s2 k2 n c.
Proof.
  intros Hf Hn1 Hn2. induction k1 as [|k1 IH]; intros k2 n c H1 H2 Hs.
  - destruct c as [pos [|? ?]]; [|cbn in H1; lia]. destruct k2; [done|].
    cbn. destruct (n <=? 0); [done|]. unfold mbind, Parser_bind. by rewrite Hn2.
  - destruct k2 as [|k2].
    + destruct c as [pos [|? ?]]; [|cbn in H2; lia].
      cbn. destruct (n <=? 0); [done|]. unfold mbind, Parser_bind. by rewrite Hn1.
    + cbn. destruct (n <=? 0); [done|]. unfold mbind, Parser_bind. rewrite <- Hs by done.
      destruct (s1 c) as [[x c1]|] eqn:E; [|done].
      pose proof (framed_length _ _ _ _ _ Hf E).
      rewrite (IH k2) by (lia || (intros c' ?; apply Hs; lia)). done.
Qed.

Lemma check_needs_input f : needs_input (check_fuel f).
Proof. intros pos. by destruct f. Qed.
Lemma parse_needs_input f : needs_input (parse_fuel f).
Proof. intros pos. by destruct f. Qed.

(** Chase equal prefixes of two parsers down to the recursive calls. *)
Ltac parser_ext :=
  repeat match goal with
  | |- (_ ≫= _) _ = (_ ≫= _) _ => apply Parser_bind_ext; intros ? ? ?
  | |- (if ?b then _ else _) _ = _ => destruct b
  end.

(** The bytes a step already taken has consumed. *)
Ltac framed_lengths :=
  repeat match goal with
  | H : ensure_remaining _ _ = Ok _ |- _ => apply (framed_length 0) in H; [|apply framed_ensure]
  | H : peek_u8 _ = Ok _ |- _ => apply (framed_length 0) in H; [|apply framed_peek_u8]
  | H : get_u8 _ = Ok _ |- _ => apply (framed_length 1) in H; [|apply framed_get_u8]
  | H : get_decimal _ = Ok _ |- _ => apply (framed_length 2) in H; [|apply framed_get_decimal]
  | H : usize_try_from _ _ = Ok _ |- _ => apply (framed_length 0) in H; [|apply framed_usize]
  end.

Lemma check_fuel_enough f1 f2 c :
  (length (chunk c) <= f1)%nat -> (length (chunk c) <= f2)%nat ->
  check_fuel f1 c = check_fuel f2 c.
Proof.
  revert f2 c. induction f1 as [|f1 IH]; intros f2 c H1 H2;
    [|destruct f2 as [|f2]];
    try (destruct c as [pos [|? ?]]; [by rewrite !check_needs_input | cbn in *; lia]).
  cbn [check_or]. parser_ext; try done.
  match goal with |- _ ?c1 = _ =>
    assert (S (length (chunk c1)) <= length (chunk c))%nat by (framed_lengths; lia) end.
  unfold mbind, Parser_bind.
  erewrite for_range_enough; [done|..]; try apply check_needs_input; try lia.
  - eapply framed_weaken; [|apply framed_check_fuel]. lia.
  - intros c0 ?. apply IH; lia.
Qed.

Lemma parse_fuel_enough f1 f2 c :
  (length (chunk c) <= f1)%nat -> (length (chunk c) <= f2)%nat ->
  parse_fuel f1 c = parse_fuel f2 c.
Proof.
  revert f2 c. induction f1 as [|f1 IH]; intros f2 c H1 H2;
    [|destruct f2 as [|f2]];
    try (destruct c as [pos [|? ?]]; [by rewrite !parse_needs_input | cbn in *; lia]).
  cbn [parse_or]. parser_ext; try done.
  match goal with |- _ ?c1 = _ =>
    assert (S (length (chunk c1)) <= length (chunk c))%nat by (framed_lengths; lia) end.
  unfold mbind, Parser_bind.
  erewrite for_range_enough; [done|..]; try apply parse_needs_input; try lia.
  - eapply framed_weaken; [|apply framed_parse_fuel]. lia.
  - intros c0 ?. apply IH; lia.
Qed.

Lemma check_enough f c : (length (chunk c) <= f)%nat -> check_fuel f c = check c.
Proof. intros. by apply check_fuel_enough. Qed.
Lemma parse_enough f c : (length (chunk c) <= f)%nat -> parse_fuel f c = parse c.
Proof. intros. by apply parse_fuel_enough. Qed.

(** With more fuel than bytes, the end of the fuel is never reached. *)
Lemma for_range_ends {A} o1 o2 (s1 s2 : Parser A) : framed 1 s1 ->
  forall k1 k2 n c, (length (chunk c) < k1)%nat -> (length (chunk c) < k2)%nat ->
    (forall c', (length (chunk c') <= length (chunk c))%nat -> s1 c' = s2 c') ->
    for_range_or o1 s1 k1 n c = for_range_or o2 s2 k2 n c.
Proof.
  intros Hf. induction k1 as [|k1 IH]; intros [|k2] n c H1 H2 Hs; [lia..|].
  cbn [for_range_or]. destruct (n <=? 0); [done|]. unfold mbind, Parser_bind. rewrite <- Hs by done.
  destruct (s1 c) as [[x c1]|] eqn:E; [|done]. pose proof (framed_length _ _ _ _ _ Hf E).
  rewrite (IH k2) by (lia || (intros c' ?; apply Hs; lia)). done.
Qed.

Lemma check_ends o1 o2 : forall f1 f2 c,
  (length (chunk c) < f1)%nat -> (length (chunk c) < f2)%nat -> check_or o1 f1 c = check_or o2 f2 c.
Proof.
  induction f1 as [|f1 IH]; intros [|f2] c H1 H2; [lia..|]. cbn [check_or]. parser_ext; try done.
  match goal with |- _ ?c1 = _ =>
    assert (S (length (chunk c1)) <= length (chunk c))%nat by (framed_lengths; lia) end.
  unfold mbind, Parser_bind. erewrite for_range_ends; [done|..]; [|lia..|].
  - eapply framed_weaken; [|apply framed_check_fuel]. lia.
  - intros c0 ?. apply IH; lia.
Qed.

Lemma parse_ends o1 o2 : forall f1 f2 c,
  (length (chunk c) < f1)%nat -> (length (chunk c) < f2)%nat -> parse_or o1 f1 c = parse_or o2 f2 c.
Proof.
  induction f1 as [|f1 IH]; intros [|f2] c H1 H2; [lia..|]. cbn [parse_or]. parser_ext; try done.
  match goal with |- _ ?c1 = _ =>
    assert (S (length (chunk c1)) <= length (chunk c))%nat by (framed_lengths; lia) end.
  unfold mbind, Parser_bind. erewrite for_range_ends; [done|..]; [|lia..|].
  - eapply framed_weaken; [|apply framed_parse_fuel]. lia.
  - intros c0 ?. apply IH; lia.
Qed.

(** A parser run with the fuel of its buffer is framed as its bounded versions are. *)
Lemma framed_fueled {A} k (pf : nat -> Parser A) :
  (forall f, framed k (pf f)) ->
  (forall f1 f2 c, (length (chunk c) <= f1)%nat -> (length (chunk c) <= f2)%nat -> pf f1 c = pf f2 c) ->
  framed k (fun c => pf (length (chunk c)) c).
Proof.
  intros Hf He c. cbn beta. pose proof (Hf (length (chunk c)) c) as H.
  assert (forall ext : bytes, pf (length (chunk (extend c ext))) (extend c ext)
    = pf (length (chunk c) + length ext)%nat (extend c ext)) as Hx.
  { intros ext. apply He; cbn; rewrite length_app; lia. }
  assert (forall ext : bytes, pf (length (chunk c) + length ext)%nat c = pf (length (chunk c)) c) as Hq.
  { intros ext. apply He; lia. }
  pose proof (fun ext : bytes => Hf (length (chunk c) + length ext)%nat c) as H2.
  destruct (pf (length (chunk c)) c) as [[a c']|[|m]]; [|done|].
  - split; [apply H|]. intros ext. specialize (H2 ext). rewrite Hx. rewrite Hq in H2. apply H2.
  - intros ext. specialize (H2 ext). rewrite Hx. rewrite Hq in H2. apply H2.
Qed.

Lemma framed_check : framed 2 check.
Proof. apply framed_fueled; [apply framed_check_fuel | apply check_fuel_enough]. Qed.
Lemma framed_parse : framed 2 parse.
Proof. apply framed_fueled; [apply framed_parse_fuel | apply parse_fuel_enough]. Qed.

(** ** [check] and [parse] agree *)

(** The errors [parse] can still report after [check] accepted. *)
Definition utf8_error (m : bytes) : Prop :=
  m = bs "protocol error; invalid utf8 string" \/ m = bs "invalid utf8 inline command".

(** Whenever [pc] accepts, [pp] stops at the same place, with a value or a UTF-8 error. *)
Definition agrees {X A} (pc : Parser X) (pp : Parser A) : Prop :=
  forall c x c', pc c = Ok (x, c') ->
    (exists a, pp c = Ok (a, c')) \/ (exists m, utf8_error m /\ pp c = Err (Other m)).

Lemma agrees_bind {X Y A B} (pc : Parser X) (pp : Parser A) (f : X -> Parser Y) (g : A -> Parser B) :
  agrees pc pp -> (forall x a, agrees (f x) (g a)) -> agrees (pc ≫= f) (pp ≫= g).
Proof.
  intros Hp Hf c y c'. unfold mbind, Parser_bind. destruct (pc c) as [[x c1]|] eqn:E; [|done].
  intros Ey. destruct (Hp _ _ _ E) as [[a ->]|(m & Hm & ->)]; [|by right; exists m].
  exact (Hf x a _ _ _ Ey).
Qed.

Lemma agrees_bind_same {Z X A} (p : Parser Z) (f : Z -> Parser X) (g : Z -> Parser A) :
  (forall z, agrees (f z) (g z)) -> agrees (p ≫= f) (p ≫= g).
Proof.
  intros Hf c y c'. unfold mbind, Parser_bind. destruct (p c) as [[z c1]|]; [|done].
  apply Hf.
Qed.

Lemma agrees_ret {X A} (x : X) (a : A) : agrees (mret x) (mret a).
Proof. intros c y c' [= <- <-]. left. by exists a. Qed.

Lemma agrees_fail {X A} e (pp : Parser A) : agrees (fail (A := X) e) pp.
Proof. done. Qed.

Lemma agrees_bind_ret {Z X A} (p : Parser Z) (x : X) (g : Z -> Parser A) (h : Z -> A) :
  (forall z, g z = mret (h z)) -> agrees (p ;; mret x) (p ≫= g).
Proof. intros Hg. apply agrees_bind_same. intros z. rewrite Hg. apply agrees_ret. Qed.

Lemma agrees_utf8 {X A} (x : X) m o (h : bytes -> A) :
  utf8_error m -> agrees (mret x) (s ← require (Other m) o; mret (h s)).
Proof.
  intros Hm c y c' [= <- <-]. destruct o as [s|]; [left; by exists (h s) | right; by exists m].
Qed.

Lemma agrees_for_range {X A} (sc : Parser X) (sp : Parser A) k n :
  agrees sc sp -> agrees (for_range sc k n) (for_range sp k n).
Proof.
  intros Hs. revert n. induction k as [|k IH]; intros n; cbn; destruct (n <=? 0);
    try apply agrees_ret; [apply agrees_fail|].
  apply agrees_bind; [done|]. intros x a. apply agrees_bind; [apply IH|]. intros. apply agrees_ret.
Qed.

Lemma usize_nonneg n : (n <? 0) = false -> usize_try_from n = mret n.
Proof. unfold usize_try_from. by intros ->. Qed.

Lemma agrees_check_parse_fuel f : agrees (check_fuel f) (parse_fuel f).
Proof.
  induction f as [|f IH]; [apply agrees_fail|]. cbn [check_or parse_or].
  intros c u c' E. unfold mbind at 1, Parser_bind at 1 in E. unfold ensure_remaining at 1 in E.
  destruct (len (chunk c) <? 1); [done|]. revert c u c' E.
  apply agrees_bind_same. intros b.
  repeat match goal with |- agrees (if ?x then _ else _) _ => destruct x end.
  - apply agrees_bind_same. intros _. apply agrees_bind_same. intros l. apply agrees_utf8. by left.
  - apply agrees_bind_same. intros _. apply agrees_bind_same. intros l. apply agrees_utf8. by left.
  - apply agrees_bind_same. intros _. apply agrees_bind_same. intros l. apply agrees_ret.
  - apply agrees_bind_same. intros _. apply agrees_bind_same. intros b1. destruct (Ascii.eqb b1 _).
    + apply agrees_bind_same. intros l. case_bool_decide; [apply agrees_ret | apply agrees_fail].
    + apply agrees_bind_same. intros n. destruct (n <? 0) eqn:En; [apply agrees_fail|].
      apply agrees_bind_same. intros m. apply agrees_bind_same. intros _.
      intros c u c' E. unfold mbind, Parser_bind, peek_bytes, advance in *. cbn in *.
      rewrite E. left. by eexists.
  - apply agrees_bind_same. intros _. apply agrees_bind_same. intros n.
    destruct (n <? 0) eqn:En; [apply agrees_fail|]. rewrite usize_nonneg by done.
    apply (agrees_bind (for_range (check_fuel f) f n) (for_range (parse_fuel f) f n)); [|intros; apply agrees_ret].
    by apply agrees_for_range.
  - apply agrees_bind_same. intros l. apply agrees_utf8. by right.
Qed.

(** Conversely, whatever [pp] accepts, [pc] accepts. *)
Definition covers {X A} (pp : Parser A) (pc : Parser X) : Prop :=
  forall c a c', pp c = Ok (a, c') -> exists x, pc c = Ok (x, c').

Lemma covers_bind {X Y A B} (pp : Parser A) (pc : Parser X) (g : A -> Parser B) (f : X -> Parser Y) :
  covers pp pc -> (forall a x, covers (g a) (f x)) -> covers (pp ≫= g) (pc ≫= f).
Proof.
  intros Hp Hf c y c'. unfold mbind, Parser_bind. destruct (pp c) as [[a c1]|] eqn:E; [|done].
  intros Ey. destruct (Hp _ _ _ E) as [x ->]. exact (Hf a x _ _ _ Ey).
Qed.

Lemma covers_bind_same {Z X A} (p : Parser Z) (g : Z -> Parser A) (f : Z -> Parser X) :
  (forall z, covers (g z) (f z)) -> covers (p ≫= g) (p ≫= f).
Proof.
  intros Hf c y c'. unfold mbind, Parser_bind. destruct (p c) as [[z c1]|]; [|done]. apply Hf.
Qed.

Lemma covers_ret {X A} (a : A) (x : X) : covers (mret a) (mret x).
Proof. intros c y c' [= <- <-]. by exists x. Qed.

Lemma covers_fail {X A} e (pc : Parser X) : covers (fail (A := A) e) pc.
Proof. done. Qed.

Lemma covers_require {X A} (x : X) e o (h : bytes -> A) : covers (s ← require e o; mret (h s)) (mret x).
Proof. intros c y c'. destruct o; [|done]. intros [= <- <-]. by exists x. Qed.

Lemma covers_for_range {X A} (sp : Parser A) (sc : Parser X) k n :
  covers sp sc -> covers (for_range sp k n) (for_range sc k n).
Proof.
  intros Hs. revert n. induction k as [|k IH]; intros n; cbn; destruct (n <=? 0);
    try apply covers_ret; [apply covers_fail|].
  apply covers_bind; [done|]. intros x a. apply covers_bind; [apply IH|]. intros. apply covers_ret.
Qed.

Lemma covers_parse_check_fuel f : covers (parse_fuel f) (check_fuel f).
Proof.
  induction f as [|f IH]; [apply covers_fail|]. cbn [check_or parse_or].
  intros c u c' E. unfold mbind at 1, Parser_bind at 1, ensure_remaining at 1.
  destruct (len (chunk c) <? 1) eqn:El.
  { destruct c as [pos [|? ?]]; [done|]. cbn in El. rewrite len_cons in El. apply Z.ltb_lt in El.
    pose proof (len_nonneg l). lia. }
  revert c u c' E El. intros c u c' E _. revert c u c' E. apply covers_bind_same. intros b.
  repeat match goal with |- covers (if ?x then _ else _) _ => destruct x end.
  - apply covers_bind_same. intros _. apply covers_bind_same. intros l. apply covers_require.
  - apply covers_bind_same. intros _. apply covers_bind_same. intros l. apply covers_require.
  - apply covers_bind_same. intros _. apply covers_bind_same. intros l. apply covers_ret.
  - apply covers_bind_same. intros _. apply covers_bind_same. intros b1. destruct (Ascii.eqb b1 _).
    + apply covers_bind_same. intros l. case_bool_decide; [apply covers_ret | apply covers_fail].
    + apply covers_bind_same. intros n. unfold usize_try_from at 1.
      destruct (n <? 0) eqn:En; [apply covers_fail|]. rewrite usize_nonneg by done.
      apply (covers_bind_same (ensure_remaining (n + 2))). intros _.
      intros c u c' E. unfold mbind, Parser_bind, peek_bytes, advance in *. cbn in *.
      destruct (expect_crlf _) as [[[] c1]|]; [|done]. injection E as <- <-. by exists ().
  - apply covers_bind_same. intros _. apply covers_bind_same. intros n. unfold usize_try_from.
    destruct (n <? 0) eqn:En; [apply covers_fail|].
    apply (covers_bind (for_range (parse_fuel f) f n) (for_range (check_fuel f) f n)); [|intros; apply covers_ret].
    by apply covers_for_range.
  - apply covers_bind_same. intros l. apply covers_require.
Qed.

(** ** Encoding *)

(** Induction over frames nested in arrays. *)
Fixpoint Frame_nested_ind (P : Frame -> Prop)
    (HS : forall s, P (Simple s)) (HE : forall s, P (Error s)) (HI : forall z, P (Integer z))
    (HB : forall b, P (Bulk b)) (HN : P Null) (HA : forall fs, Forall P fs -> P (Array fs))
    (f : Frame) : P f :=
  match f with
  | Simple s => HS s
  | Error s => HE s
  | Integer z => HI z
  | Bulk b => HB b
  | Null => HN
  | Array fs =>
    HA fs ((fix go l : Forall P l :=
      match l with
      | [] => Forall_nil_2 _
      | x :: l' => Forall_cons_2 _ _ _ (Frame_nested_ind P HS HE HI HB HN HA x) (go l')
      end) fs)
  end.

(** [write_to_buf] appends. *)
Lemma write_to_buf_app f : forall dst, write_to_buf f dst = dst ++ encode f.
Proof.
  unfold encode. induction f as [s|s|z|b| |fs IH] using Frame_nested_ind; intros dst; cbn [write_to_buf];
    try done.
  assert (forall l, Forall (fun f => forall dst, write_to_buf f dst = dst ++ write_to_buf f []) l ->
    forall d, fold_left (fun d frame => write_to_buf frame d) l d =
      d ++ fold_left (fun d frame => write_to_buf frame d) l []) as Hfold.
  { induction 1 as [|x l Hx _ IHl]; intros d; cbn; [by rewrite app_nil_r|].
    rewrite IHl, Hx, (IHl (write_to_buf x [])). by rewrite app_assoc. }
  rewrite (Hfold _ IH (dst ++ _)), (Hfold _ IH ([] ++ _)). by rewrite <- !app_assoc.
Qed.

Lemma encode_Array fs :
  encode (Array fs) = ["*"%char] ++ show_uint (len fs) ++ CRLF ++ concat (map encode fs).
Proof.
  assert (forall d, fold_left (fun d frame => write_to_buf frame d) fs d
    = d ++ concat (map encode fs)) as H.
  { induction fs as [|x fs IH]; intros d; cbn; [by rewrite app_nil_r|].
    by rewrite IH, write_to_buf_app, app_assoc. }
  unfold encode at 1. cbn [write_to_buf]. rewrite H, app_nil_l. by rewrite <- !app_assoc.
Qed.

(** ** Reading back what was written *)

Lemma split_crlf_line s rest : no_crlf s = true -> split_crlf (s ++ CRLF ++ rest) = Some (s, rest).
Proof.
  induction s as [|a s IH]; [done|]. intros Hs. destruct s as [|b s].
  - cbn. replace (Ascii.eqb CR LF) with false by done. rewrite andb_false_r. done.
  - cbn [no_crlf] in Hs. apply andb_true_iff in Hs as [Hab Hs].
    change ((a :: b :: s) ++ CRLF ++ rest) with (a :: b :: (s ++ CRLF ++ rest)).
    change (split_crlf (a :: b :: s ++ CRLF ++ rest)) with
      (if Ascii.eqb a CR && Ascii.eqb b LF then Some ([], s ++ CRLF ++ rest)
       else match split_crlf ((b :: s) ++ CRLF ++ rest) with
            | Some (l, r) => Some (a :: l, r) | None => None end).
    rewrite (IH Hs). by destruct (_ && _).
Qed.

Lemma get_line_run s pos rest : no_crlf s = true ->
  get_line (mkCursor pos (s ++ CRLF ++ rest)) = Ok (s, mkCursor (pos + length s + 2) rest).
Proof. intros Hs. unfold get_line. cbn [chunk]. by rewrite split_crlf_line. Qed.

Lemma no_crlf_no_CR s : Forall (fun c => c <> CR) s -> no_crlf s = true.
Proof.
  induction 1 as [|a s Ha Hs IH]; [done|]. destruct s as [|b s]; [done|].
  cbn [no_crlf]. destruct (Ascii.eqb_spec a CR); [done|]. done.
Qed.

Lemma is_digit_not_CR c : is_digit c = true -> c <> CR.
Proof. by intros Hc ->. Qed.

Lemma show_uint_no_crlf n : no_crlf (show_uint n) = true.
Proof.
  apply no_crlf_no_CR. eapply Forall_impl; [apply show_uint_digits|].
  intros c Hc. apply is_digit_not_CR. by apply Is_true_eq_true.
Qed.

Lemma show_i64_no_crlf z : no_crlf (show_i64 z) = true.
Proof.
  unfold show_i64. destruct (z <? 0); [|apply show_uint_no_crlf].
  apply no_crlf_no_CR. constructor; [done|]. eapply Forall_impl; [apply show_uint_digits|].
  intros c Hc. apply is_digit_not_CR. by apply Is_true_eq_true.
Qed.

Lemma get_decimal_run z pos rest : i64_min <= z <= i64_max ->
  get_decimal (mkCursor pos (show_i64 z ++ CRLF ++ rest))
    = Ok (z, mkCursor (pos + length (show_i64 z) + 2) rest).
Proof.
  intros Hz. unfold get_decimal, mbind, Parser_bind.
  rewrite get_line_run by apply show_i64_no_crlf. unfold from_utf8.
  rewrite utf8_valid_ascii by apply show_i64_ascii. cbn.
  by rewrite parse_i64_show_i64.
Qed.

Lemma get_len_run n pos rest : 0 <= n <= i64_max ->
  get_decimal (mkCursor pos (show_uint n ++ CRLF ++ rest))
    = Ok (n, mkCursor (pos + length (show_uint n) + 2) rest).
Proof.
  intros Hn. pose proof (get_decimal_run n pos rest ltac:(unfold i64_min; lia)) as H.
  unfold show_i64 in H. by rewrite (proj2 (Z.ltb_ge n 0)) in H by lia.
Qed.

Lemma take_data_run {B} (d rest : bytes) pos (f : bytes -> Parser B) :
  (ensure_remaining (len d + 2) ;; data ← peek_bytes (Z.to_nat (len d));
   advance (Z.to_nat (len d)) ;; f data) (mkCursor pos (d ++ CRLF ++ rest))
  = f d (mkCursor (pos + length d) (CRLF ++ rest)).
Proof.
  unfold mbind, Parser_bind, ensure_remaining, peek_bytes, advance. cbn [chunk position].
  rewrite !len_app, (proj2 (Z.ltb_ge _ _)) by (change (len CRLF) with 2; pose proof (len_nonneg rest); lia).
  unfold len. rewrite Nat2Z.id. cbn [chunk position]. by rewrite take_app_length, drop_app_length.
Qed.

Lemma expect_crlf_run pos rest : expect_crlf (mkCursor pos (CRLF ++ rest)) = Ok (tt, mkCursor (pos + 2) rest).
Proof. replace (pos + 2)%nat with (S (S pos)) by lia. reflexivity. Qed.

(** Two results that differ in how a position is written. *)
Lemma cursor_at {A} (a : A) p p' rest :
  p = p' -> Ok (E := FrameError) (a, mkCursor p rest) = Ok (a, mkCursor p' rest).
Proof. by intros ->. Qed.

(** The statement proved by induction on the frame. *)
Definition reads_back (f : Frame) : Prop :=
  forall fuel pos rest, (length (encode f ++ rest) <= fuel)%nat ->
    parse_fuel fuel (mkCursor pos (encode f ++ rest))
      = Ok (f, mkCursor (pos + length (encode f)) rest).

Lemma for_range_reads_back fs : Forall reads_back fs ->
  forall fuel k pos rest,
    (length (concat (map encode fs) ++ rest) <= fuel)%nat -> (length fs <= k)%nat ->
    for_range (parse_fuel fuel) k (len fs) (mkCursor pos (concat (map encode fs) ++ rest))
      = Ok (fs, mkCursor (pos + length (concat (map encode fs))) rest).
Proof.
  induction 1 as [|x fs Hx Hfs IH]; intros fuel k pos rest Hfuel Hk.
  - cbn. replace (pos + 0)%nat with pos by lia. by destruct k.
  - destruct k as [|k]; cbn [length] in Hk; [lia|]. cbn [for_range_or]. rewrite len_cons.
    rewrite (proj2 (Z.leb_gt _ _)) by (pose proof (len_nonneg fs); lia).
    cbn [concat map] in *. rewrite <- app_assoc in *. unfold mbind, Parser_bind.
    rewrite Hx by done. replace (1 + len fs - 1) with (len fs) by lia.
    rewrite IH by (rewrite length_app in Hfuel; lia).
    cbn. apply cursor_at. rewrite length_app. lia.
Qed.

Lemma encode_length_pos f : (2 <= length (encode f))%nat.
Proof.
  destruct f; try (unfold encode; cbn [write_to_buf]; rewrite ?length_app; cbn; lia).
  rewrite encode_Array, !length_app. cbn. lia.
Qed.

Lemma concat_encode_length fs : (length fs <= length (concat (map encode fs)))%nat.
Proof.
  induction fs as [|x fs IH]; cbn; [lia|]. rewrite length_app. pose proof (encode_length_pos x). lia.
Qed.

(** A frame is at least two bytes: it is enough to look at positive fuel. *)
Lemma reads_back_intro f :
  (forall fuel pos rest, (length (encode f ++ rest) <= S fuel)%nat ->
    parse_fuel (S fuel) (mkCursor pos (encode f ++ rest))
      = Ok (f, mkCursor (pos + length (encode f)) rest)) -> reads_back f.
Proof.
  intros H [|fuel] pos rest Hfuel; [|by apply H].
  rewrite length_app in Hfuel. pose proof (encode_length_pos f). lia.
Qed.

(** Positions are sums of lengths. *)
Ltac cursor_eq :=
  cbn -[show_uint show_i64 CRLF len concat map]; apply cursor_at;
  repeat (rewrite ?length_app; cbn [length app]); change (length CRLF) with 2%nat; lia.

Lemma reads_back_line t s (mk : bytes -> Frame) :
  utf8_valid s && no_crlf s = true ->
  encode (mk s) = t :: s ++ CRLF ->
  (forall fuel pos rest, parse_fuel (S fuel) (mkCursor pos (t :: rest))
    = (line ← get_line;
       s ← require (Other (bs "protocol error; invalid utf8 string")) (from_utf8 line);
       mret (mk s)) (mkCursor (S pos) rest)) ->
  reads_back (mk s).
Proof.
  intros [Hu Hc]%andb_true_iff He Hp. apply reads_back_intro. intros fuel pos rest _.
  rewrite He. cbn [app]. rewrite Hp, <- app_assoc. unfold mbind, Parser_bind.
  rewrite get_line_run by done. unfold from_utf8. rewrite Hu. cursor_eq.
Qed.

Lemma reads_back_Integer z : i64_min <= z <= i64_max -> reads_back (Integer z).
Proof.
  intros Hz. apply reads_back_intro. intros fuel pos rest _.
  change (encode (Integer z)) with (":"%char :: show_i64 z ++ CRLF).
  cbn -[get_decimal CRLF show_i64]. rewrite <- app_assoc. unfold mbind, Parser_bind.
  cbn -[get_decimal CRLF show_i64]. rewrite get_decimal_run by done. cursor_eq.
Qed.

Lemma show_uint_head n s : exists c s', show_uint n ++ s = c :: s' /\ Ascii.eqb c "-" = false.
Proof.
  destruct (show_uint_cons n) as (c & s' & -> & Hc). exists c, (s' ++ s). split; [done|].
  destruct (Ascii.eqb_spec c "-"); [by subst|done].
Qed.

Lemma reads_back_Bulk b : len b <= i64_max -> reads_back (Bulk b).
Proof.
  intros Hb. apply reads_back_intro. intros fuel pos rest _. pose proof (len_nonneg b) as Hb0.
  change (encode (Bulk b)) with ("$"%char :: show_uint (len b) ++ CRLF ++ b ++ CRLF).
  cbn -[get_decimal CRLF show_uint len]. rewrite <- !app_assoc.
  unfold mbind at 1, Parser_bind at 1. cbn -[get_decimal CRLF show_uint len].
  unfold mbind at 1, Parser_bind at 1. cbn -[get_decimal CRLF show_uint len].
  unfold mbind at 1, Parser_bind at 1.
  destruct (show_uint_head (len b) (CRLF ++ b ++ CRLF ++ rest)) as (c & s' & Hs & Hc).
  unfold peek_u8 at 1. cbn [chunk]. rewrite Hs. cbn -[get_decimal CRLF show_uint len]. rewrite Hc, <- Hs.
  unfold mbind at 1, Parser_bind at 1. rewrite get_len_run by done.
  rewrite usize_nonneg by (apply Z.ltb_ge; lia).
  unfold mbind at 1, Parser_bind at 1. cbn -[CRLF show_uint len].
  rewrite (take_data_run b rest _ (fun data => expect_crlf ;; mret (Bulk data))).
  unfold mbind, Parser_bind. rewrite expect_crlf_run. cursor_eq.
Qed.

Lemma reads_back_Array fs : len fs <= i64_max -> Forall reads_back fs -> reads_back (Array fs).
Proof.
  intros Hl Hfs. apply reads_back_intro. intros fuel pos rest Hfuel. pose proof (len_nonneg fs) as Hl0.
  rewrite encode_Array in *. cbn -[get_decimal CRLF show_uint len concat map for_range_or] in *.
  rewrite <- !app_assoc. unfold mbind at 1, Parser_bind at 1. cbn -[get_decimal CRLF show_uint len concat map for_range_or].
  unfold mbind at 1, Parser_bind at 1. cbn -[get_decimal CRLF show_uint len concat map for_range_or].
  unfold mbind at 1, Parser_bind at 1. rewrite get_len_run by done.
  rewrite usize_nonneg by (apply Z.ltb_ge; lia).
  unfold mbind at 1, Parser_bind at 1. cbn -[CRLF show_uint len concat map for_range_or].
  unfold mbind at 1, Parser_bind at 1.
  pose proof (concat_encode_length fs). rewrite !length_app in Hfuel.
  rewrite for_range_reads_back; [|done|rewrite length_app; cbn in Hfuel; lia|cbn in Hfuel; lia].
  cursor_eq.
Qed.

Lemma parse_encode_fuel f : frame_ok f = true -> reads_back f.
Proof.
  induction f as [s|s|z|b| |fs IH] using Frame_nested_ind; intros Hok; cbn in Hok.
  - by apply (reads_back_line "+").
  - by apply (reads_back_line "-").
  - apply andb_true_iff in Hok as [H1%Z.leb_le H2%Z.leb_le]. by apply reads_back_Integer.
  - apply Z.leb_le in Hok. by apply reads_back_Bulk.
  - apply reads_back_intro. intros fuel pos rest _.
    change (length (encode Null)) with 5%nat. cbn. apply cursor_at. cbn [position length]. lia.
  - apply andb_true_iff in Hok as [Hl%Z.leb_le Hfs]. apply reads_back_Array; [done|].
    rewrite forallb_forall in Hfs. rewrite Forall_forall in IH |- *.
    intros x Hx. apply IH; [done|]. by apply Hfs, list_elem_of_In.
Qed.

(** [parse] accepts exactly what [check] accepts, UTF-8 apart. *)
Lemma check_covers_parse c a c' : parse c = Ok (a, c') -> check c = Ok (tt, c').
Proof. intros H. by destruct (covers_parse_check_fuel _ _ _ _ H) as [[] ?]. Qed.

Lemma parse_encode f pos rest : frame_ok f = true ->
  parse (mkCursor pos (encode f ++ rest)) = Ok (f, mkCursor (pos + length (encode f)) rest).
Proof. intros Hok. by apply (parse_encode_fuel f Hok). Qed.

Lemma check_parse_encode (f : Frame) (rest : bytes) (Hok : frame_ok f = true) :
  check (cursor_of (write_to_buf f [] ++ rest)) = Ok (tt, mkCursor (length (encode f)) rest)
  /\ parse (cursor_of (write_to_buf f [] ++ rest)) = Ok (f, mkCursor (length (encode f)) rest).
Proof.
  pose proof (parse_encode f 0 rest Hok) as H. split; [by eapply check_covers_parse | exact H].
Qed.

(** ** What the parser returns can be written back *)

(** From a buffer that fits in memory, the results of [p] satisfy [P] and leave such a buffer. *)
Definition yields {A} (p : Parser A) (P : A -> Prop) : Prop :=
  forall c a c', len (chunk c) <= i64_max -> p c = Ok (a, c') -> P a /\ len (chunk c') <= i64_max.

Lemma yields_ret {A} (a : A) (P : A -> Prop) : P a -> yields (mret a) P.
Proof. intros Ha c a' c' Hc [= <- <-]. done. Qed.

Lemma yields_fail {A} e (P : A -> Prop) : yields (fail e) P.
Proof. by intros c a c' _ [=]. Qed.

Lemma yields_bind {A B} (p : Parser A) (f : A -> Parser B) P Q :
  yields p P -> (forall a, P a -> yields (f a) Q) -> yields (p ≫= f) Q.
Proof.
  intros Hp Hf c b c' Hc Heq. unfold mbind, Parser_bind in Heq.
  destruct (p c) as [[a c1]|] eqn:E; [|done]. destruct (Hp _ _ _ Hc E) as [Ha Hc1]. by apply (Hf a Ha c1).
Qed.

Lemma yields_require {A} e (o : option A) (P : A -> Prop) :
  (forall a, o = Some a -> P a) -> yields (require e o) P.
Proof. destruct o; intros H; [by apply yields_ret, H|apply yields_fail]. Qed.

Lemma yields_any {A} k (p : Parser A) : framed k p -> yields p (fun _ => True).
Proof.
  intros Hp c a c' Hc E. split; [done|]. specialize (Hp c). rewrite E in Hp.
  destruct Hp as [(pre & Hch & _) _]. rewrite Hch, len_app in Hc. pose proof (len_nonneg pre). lia.
Qed.

Lemma split_crlf_no_crlf s line rest : split_crlf s = Some (line, rest) -> no_crlf line = true.
Proof.
  revert line rest. induction s as [|a s IH]; intros line rest; [done|]. destruct s as [|b s']; [done|].
  change (split_crlf (a :: b :: s')) with
    (if Ascii.eqb a CR && Ascii.eqb b LF then Some ([], s')
     else match split_crlf (b :: s') with Some (l, r) => Some (a :: l, r) | None => None end).
  destruct (Ascii.eqb a CR && Ascii.eqb b LF) eqn:E; [by intros [= <- <-]|].
  destruct (split_crlf (b :: s')) as [[l r]|] eqn:Hs; [|done]. intros [= <- <-].
  specialize (IH _ _ eq_refl). destruct l as [|b' l]; [done|].
  apply split_crlf_Some in Hs as [= <- _]. cbn [no_crlf]. by rewrite E.
Qed.

Lemma yields_get_line : yields get_line (fun line => no_crlf line = true /\ len line <= i64_max).
Proof.
  intros c line c' Hc. unfold get_line. destruct (split_crlf (chunk c)) as [[l r]|] eqn:E; [|done].
  intros [= <- <-]. pose proof (split_crlf_no_crlf _ _ _ E). apply split_crlf_Some in E.
  rewrite E, !len_app in Hc. pose proof (len_nonneg l). pose proof (len_nonneg r).
  pose proof (len_nonneg CRLF). cbn [chunk]. split_and!; [done|lia|lia].
Qed.

Lemma parse_i64_range s z : parse_i64 s = Some z -> i64_min <= z <= i64_max.
Proof.
  unfold parse_i64, parse_int.
  assert (forall o, (o ≫= fun z => if (i64_min <=? z) && (z <=? i64_max) then Some z else None) = Some z ->
    i64_min <= z <= i64_max) as H1.
  { intros o Ho. apply bind_Some in Ho as (w & _ & Hw). destruct (_ && _) eqn:E; [|done].
    injection Hw as ->. apply andb_true_iff in E as [?%Z.leb_le ?%Z.leb_le]. done. }
  destruct s as [|c s]; [done|]. destruct (_ && bool_decide (s = [])); [done|].
  destruct (bool_decide (c = "+"%char)); [apply H1|]. destruct (_ && true); [|apply H1].
  intros Ho. apply bind_Some in Ho as (w & _ & Hw). destruct (_ && _) eqn:E; [|done].
  injection Hw as <-. apply andb_true_iff in E as [?%Z.leb_le ?%Z.leb_le]. done.
Qed.

Lemma yields_get_decimal : yields get_decimal (fun z => i64_min <= z <= i64_max).
Proof.
  eapply yields_bind; [apply (yields_any 2), framed_get_line|]. intros line _.
  eapply yields_bind; [by apply (yields_require _ _ (fun _ => True))|]. intros s _.
  apply yields_require, parse_i64_range.
Qed.

Lemma yields_usize z : z <= i64_max -> yields (usize_try_from z) (fun n => 0 <= n <= i64_max).
Proof.
  intros Hz. unfold usize_try_from. destruct (Z.ltb_spec z 0); [apply yields_fail|]. by apply yields_ret.
Qed.

Lemma yields_peek n : yields (peek_bytes n) (fun d => len d <= i64_max).
Proof.
  intros c d c' Hc [= <- <-]. split; [|done]. unfold len in *. rewrite length_take. lia.
Qed.

Lemma yields_for_range {A} (p : Parser A) (P : A -> Prop) fuel n :
  yields p P -> n <= i64_max ->
  yields (for_range p fuel n) (fun l => Forall P l /\ len l <= i64_max /\ len l = Z.max 0 n).
Proof.
  intros Hp. revert n. induction fuel as [|fuel IH]; intros n Hn; cbn [for_range_or];
    destruct (Z.leb_spec n 0); try apply yields_fail; try (apply yields_ret; split_and!; [constructor|discriminate|change (len (A:=A) []) with 0; lia]).
  eapply yields_bind; [exact Hp|]. intros a Ha.
  eapply yields_bind; [apply IH; lia|]. intros l (Hl & _ & Hlen). apply yields_ret.
  rewrite len_cons. split_and!; [by constructor|lia|lia].
Qed.

Lemma split_ws_bound k cur s :
  Forall (fun w => len w <= len cur + len s) (split_ws k cur s) /\ len (split_ws k cur s) <= len cur + len s.
Proof.
  assert (forall cur : bytes, len (emit cur) <= len cur /\ Forall (fun w => len w <= len cur) (emit cur)) as He.
  { intros [|c l]; [done|]. unfold emit. split; [change (len [rev (c :: l)]) with 1; rewrite len_cons; pose proof (len_nonneg l); lia|].
    apply Forall_singleton. unfold len. rewrite length_rev. lia. }
  revert k cur. induction s as [|c s IH]; intros k cur.
  { cbn [split_ws]. destruct (He cur) as [H1 H2]. change (len (A:=ascii) []) with 0. rewrite Z.add_0_r. done. }
  assert (forall k cur', len cur' <= len cur + 1 ->
    Forall (fun w => len w <= len cur + len (c :: s)) (split_ws k cur' s)
    /\ len (split_ws k cur' s) <= len cur + len (c :: s)) as Hstep.
  { intros k' cur' Hc. destruct (IH k' cur') as [H1 H2]. rewrite len_cons. split; [|lia].
    eapply Forall_impl; [exact H1|]. cbn. intros; lia. }
  cbn [split_ws]. destruct k as [|k]; [|apply Hstep; lia].
  destruct (ws_len (c :: s)) as [|j]; [apply Hstep; rewrite len_cons; lia|].
  destruct (IH j []) as [H1 H2]. destruct (He cur) as [H3 H4]. pose proof (len_nonneg cur). pose proof (len_nonneg s).
  change (len (A:=ascii) []) with 0 in *. rewrite len_app, !len_cons. split; [|lia]. apply Forall_app. split.
  - eapply Forall_impl; [exact H4|]. cbn. intros; lia.
  - eapply Forall_impl; [exact H1|]. cbn. intros; lia.
Qed.

Lemma yields_line (mk : bytes -> Frame) m :
  (forall s, utf8_valid s && no_crlf s = true -> frame_ok (mk s) = true) ->
  yields (line ← get_line; s ← require m (from_utf8 line); mret (mk s)) (fun f => frame_ok f = true).
Proof.
  intros Hmk. eapply yields_bind; [apply yields_get_line|]. intros line [Hl _].
  eapply yields_bind; [apply (yields_require _ _ (fun s => utf8_valid s && no_crlf s = true))|].
  - intros s [-> Hu]%from_utf8_Some. by rewrite Hu, Hl.
  - intros s Hs. by apply yields_ret, Hmk.
Qed.

Lemma yields_tag {B} (g : Parser B) Q : yields g Q -> yields (get_u8 ;; g) Q.
Proof. intros Hg. eapply yields_bind; [apply (yields_any 1), framed_get_u8|]. done. Qed.

Lemma yields_parse_fuel fuel : yields (parse_fuel fuel) (fun f => frame_ok f = true).
Proof.
  induction fuel as [|fuel IH]; cbn [parse_or]; [apply yields_fail|].
  eapply yields_bind; [apply (yields_any 0), framed_peek_u8|]. intros b _.
  destruct (Ascii.eqb b "+"); [by apply yields_tag, (yields_line Simple)|].
  destruct (Ascii.eqb b "-"); [by apply yields_tag, (yields_line Error)|].
  destruct (Ascii.eqb b ":").
  { apply yields_tag. eapply yields_bind; [apply yields_get_decimal|]. intros z [H1 H2]. apply yields_ret. cbn.
    by rewrite !(proj2 (Z.leb_le _ _)). }
  destruct (Ascii.eqb b "$").
  { apply yields_tag. eapply yields_bind; [apply (yields_any 0), framed_peek_u8|]. intros b1 _.
    destruct (Ascii.eqb b1 "-").
    { eapply yields_bind; [apply yields_get_line|]. intros line _.
      case_bool_decide; [by apply yields_ret|apply yields_fail]. }
    eapply yields_bind; [apply yields_get_decimal|]. intros n [_ Hn].
    eapply yields_bind; [by apply yields_usize|]. intros n' Hn'.
    eapply yields_bind; [apply (yields_any 0), framed_ensure|]. intros _ _.
    eapply yields_bind; [apply yields_peek|]. intros d Hd.
    eapply (yields_bind _ _ (fun _ => True)); [|intros _ _; eapply yields_bind; [apply (yields_any 1), framed_expect_crlf|]].
    - intros c [] c' Hc [= <-]. split; [exact I|]. cbn [chunk]. unfold len in *. rewrite length_drop. lia.
    - intros _ _. apply yields_ret. cbn. by apply Z.leb_le. }
  destruct (Ascii.eqb b "*").
  { apply yields_tag. eapply yields_bind; [apply yields_get_decimal|]. intros n [_ Hn].
    eapply yields_bind; [by apply yields_usize|]. intros n' [_ Hn'].
    eapply yields_bind; [by apply yields_for_range|]. intros l (Hl & Hlen & _). apply yields_ret. cbn.
    rewrite (proj2 (Z.leb_le _ _)) by done. cbn. apply forallb_forall.
    intros x Hx%list_elem_of_In. rewrite Forall_forall in Hl. by apply Hl. }
  eapply yields_bind; [apply yields_get_line|]. intros line [_ Hl].
  eapply yields_bind; [apply (yields_require _ _ (fun s => s = line))|].
  { by intros s [-> _]%from_utf8_Some. }
  intros s ->. apply yields_ret. cbn. destruct (split_ws_bound 0 [] line) as [H1 H2].
  change (len (A:=ascii) []) with 0 in *. unfold split_whitespace. unfold len at 1. rewrite length_map.
  fold (len (split_ws 0 [] line)). rewrite (proj2 (Z.leb_le _ _)) by lia. cbn.
  apply forallb_forall. intros x Hx%list_elem_of_In. apply list_elem_of_fmap in Hx as (w & -> & Hw).
  rewrite Forall_forall in H1. specialize (H1 w Hw). cbn in H1. cbn. apply Z.leb_le. lia.
Qed.

(** Every frame read off a buffer can be written back and read again. *)
Lemma parse_frame_ok c f c' : len (chunk c) <= i64_max -> parse c = Ok (f, c') -> frame_ok f = true.
Proof. intros Hc Hp. by apply (yields_parse_fuel _ _ _ _ Hc Hp). Qed.

(** ** Properties *)

(** C8: encode/decode round trip. A frame RESP can carry, written by [write_to_buf] and
    followed by any bytes of later frames, is accepted by [check] and read back by [parse]
    as the same frame, and both stop exactly at the end of its encoding. *)
Theorem frame_roundtrip (f : Frame) (rest : bytes) (Hok : frame_ok f = true) :
  check (cursor_of (write_to_buf f [] ++ rest)) = Ok (tt, mkCursor (length (encode f)) rest)
  /\ parse (cursor_of (write_to_buf f [] ++ rest)) = Ok (f, mkCursor (length (encode f)) rest).
Proof. by apply check_parse_encode. Qed.

Lemma frame_roundtrip_witness :
  let f := Array [Bulk (bs "SET"); Bulk (bs "name"); Integer (-42); Simple (bs "OK"); Null] in
  frame_ok f = true /\ parse (cursor_of (write_to_buf f [] ++ bs "rest"))
    = Ok (f, mkCursor (length (encode f)) (bs "rest")).
Proof. split; [reflexivity|]. apply (frame_roundtrip _ (bs "rest")). reflexivity. Defined.

(** C21: agreement of the two passes. If [check] accepts, [parse] from the same place either
    yields a frame and stops where [check] stopped, or reports a line that is not UTF-8: it
    never asks for more data, never reports another format error. Conversely whatever
    [parse] accepts, [check] accepts, at the same place. *)
Theorem check_parse_agree (c c' : Cursor) :
  (check c = Ok (tt, c') ->
     (exists f, parse c = Ok (f, c')) \/ (exists m, utf8_error m /\ parse c = Err (Other m)))
  /\ (forall f, parse c = Ok (f, c') -> check c = Ok (tt, c')).
Proof.
  split; [|intros f; apply check_covers_parse]. apply agrees_check_parse_fuel.
Qed.

(** C22: framing. What [check] decides on a buffer it decides on every longer buffer: an
    accepted frame takes a prefix of at least two bytes and the same bytes whatever
    follows, and a malformed frame stays malformed. Only "incomplete" can change when more
    bytes arrive. *)
Theorem check_framing (s ext : bytes) :
  match check (cursor_of s) with
  | Ok (_, c') =>
    s = take (position c') s ++ chunk c' /\ (2 <= position c')%nat /\
    check (cursor_of (s ++ ext)) = Ok (tt, mkCursor (position c') (chunk c' ++ ext))
  | Err (Other m) => check (cursor_of (s ++ ext)) = Err (Other m)
  | Err Incomplete => True
  end.
Proof.
  pose proof (framed_check (cursor_of s)) as H.
  destruct (check (cursor_of s)) as [[[] c']|[|m]]; [|done|by apply H].
  destruct H as [(pre & Hs & Hp & Hk) Hext]. cbn in Hs, Hp. rewrite Hp. split_and!.
  - by rewrite Hs, take_app_length.
  - done.
  - rewrite <- Hp. apply Hext.
Qed.

(** C39: decoding terminates. On every buffer, [check] and [parse] come to an end by
    themselves: the recursion on nested arrays, and the iteration over the elements of each,
    let go on for any number of steps above the number of bytes left, gives the same result
    whatever stands for a computation that was cut off there, so none is cut off. *)
Theorem decoding_terminates (out_of_fuel : FrameError) (c : Cursor) (fuel : nat) :
  (length (chunk c) < fuel)%nat ->
  check_or out_of_fuel fuel c = check c /\ parse_or out_of_fuel fuel c = parse c.
Proof.
  intros Hf. unfold check, parse.
  rewrite (check_fuel_enough (length (chunk c)) fuel), (parse_fuel_enough (length (chunk c)) fuel) by lia.
  split; [by apply check_ends|by apply parse_ends].
Qed.

(** Nested arrays, the last of which is not there yet: the result is the decoder's own. *)
Lemma decoding_terminates_witness :
  let c := cursor_of (bs "*2" ++ CRLF ++ bs "*1" ++ CRLF ++ bs "+a" ++ CRLF ++ bs "*1" ++ CRLF) in
  check_or (Other (bs "out of fuel")) 100 c = check c /\ check c = Err Incomplete.
Proof. split; [apply (decoding_terminates _ _ 100); vm_compute; lia|reflexivity]. Defined.
