(* ===== verification/Resources.v ===== *)
(** * What decoding a frame costs: [src/src/frame.rs]

    [Frame::check] and [Frame::parse] recurse on nested arrays, and [parse] reserves the
    announced length of an array before it reads its elements. Both are attack surfaces of a
    network server: this file counts the activations of [check] that are open at once and
    the reservations [parse] makes, and bounds them by the bytes received. *)
From S2P Require Import Prelude.
From S2P Require Import RustStd.
From S2P Require Import Frame.

(** ** The depth of the recursion *)

(** The activations open at once during [for _ in 0..n { Frame::check(src)? }]: each
    iteration starts where the one before stopped, and an error ends the loop. *)
Fixpoint range_depth (depth : Cursor -> nat) (k : nat) (n : Z) (src : Cursor) : nat :=
  match k with
  | O => 0
  | S k' =>
    if n <=? 0 then 0
    else Nat.max (depth src)
      (match check src with
       | Ok (_, src') => range_depth depth k' (n - 1) src'
       | Err _ => 0
       end)
  end.

(** [get_u8(src)?; let len = get_decimal(src)?] *)
Definition array_header : Parser Z := get_u8 ;; get_decimal.

(** The activations of [Frame::check] open at once in a call on [src], itself included: the
    only recursive call is the one of the array branch. *)
Fixpoint check_depth_fuel (fuel : nat) (src : Cursor) : nat :=
  match fuel with
  | O => 0
  | S f =>
    match chunk src with
    | b :: _ =>
      if Ascii.eqb b "*" then
        match array_header src with
        | Ok (n, src') => S (range_depth (check_depth_fuel f) f n src')
        | Err _ => 1
        end
      else 1
    | [] => 1
    end
  end.

Definition check_depth (src : Cursor) : nat := check_depth_fuel (S (length (chunk src))) src.

(** ** The reservations of [parse] *)

(** For each [Vec::with_capacity(n)]: [n] and the bytes left to read at that point. *)
Fixpoint range_reserves (reserves : Cursor -> list (Z * nat)) (k : nat) (n : Z) (src : Cursor)
    : list (Z * nat) :=
  match k with
  | O => []
  | S k' =>
    if n <=? 0 then []
    else reserves src ++
      match parse src with
      | Ok (_, src') => range_reserves reserves k' (n - 1) src'
      | Err _ => []
      end
  end.

Fixpoint parse_reserves_fuel (fuel : nat) (src : Cursor) : list (Z * nat) :=
  match fuel with
  | O => []
  | S f =>
    match chunk src with
    | b :: _ =>
      if Ascii.eqb b "*" then
        match (array_header ≫= usize_try_from) src with
        | Ok (n, src') => (n, length (chunk src')) :: range_reserves (parse_reserves_fuel f) f n src'
        | Err _ => []
        end
      else []
    | [] => []
    end
  end.

Definition parse_reserves (src : Cursor) : list (Z * nat) :=
  parse_reserves_fuel (S (length (chunk src))) src.

(** ** An array's header takes at least four bytes *)

Lemma get_decimal_length src n src' :
  get_decimal src = Ok (n, src') -> (3 + length (chunk src') <= length (chunk src))%nat.
Proof.
  unfold get_decimal, get_line, mbind, Parser_bind.
  destruct (split_crlf (chunk src)) as [[line rest]|] eqn:E; [|done].
  apply split_crlf_Some in E. unfold require, fail, mret, Parser_ret.
  destruct (from_utf8 line) as [s|] eqn:Eu; [|done].
  apply from_utf8_Some in Eu as [-> _]. destruct line as [|c line]; [done|].
  destruct (parse_i64 (c :: line)); [|done]. intros [= _ <-]. rewrite E. cbn [chunk length app].
  rewrite !length_app. cbn. lia.
Qed.

Lemma array_header_length src n src' :
  array_header src = Ok (n, src') -> (4 + length (chunk src') <= length (chunk src))%nat.
Proof.
  destruct src as [pos [|b s]]; [done|]. unfold array_header, mbind, Parser_bind. cbn [get_u8 chunk].
  intros E%get_decimal_length. cbn in *. lia.
Qed.

(** The array branch of [check]. *)
Lemma check_array_run f pos s :
  check_fuel (S f) (mkCursor pos ("*"%char :: s))
  = (n ← array_header;
     if n <? 0 then other "negative array length" else for_range (check_fuel f) f n ;; mret tt)
    (mkCursor pos ("*"%char :: s)).
Proof.
  cbn [check_or]. unfold mbind at 1, Parser_bind at 1, ensure_remaining at 1.
  cbn [chunk]. rewrite len_cons. pose proof (len_nonneg s).
  rewrite (proj2 (Z.ltb_ge _ _)) by lia.
  unfold mbind at 1, Parser_bind at 1. cbn [peek_u8 chunk].
  change (Ascii.eqb "*" "+") with false. change (Ascii.eqb "*" "-") with false.
  change (Ascii.eqb "*" ":") with false. change (Ascii.eqb "*" "$") with false.
  rewrite Ascii.eqb_refl. reflexivity.
Qed.

(** ** Depth: the bound *)

Lemma range_depth_bound (depth : Cursor -> nat) d k n src :
  (forall c, (length (chunk c) <= length (chunk src))%nat -> (depth c <= d)%nat) ->
  (range_depth depth k n src <= d)%nat.
Proof.
  revert n src. induction k as [|k IH]; intros n src Hd; cbn; [lia|].
  destruct (n <=? 0); [lia|]. apply Nat.max_lub; [by apply Hd|].
  destruct (check src) as [[[] src']|] eqn:E; [|lia].
  apply (framed_length 2) in E; [|apply framed_check]. apply IH. intros c Hc. apply Hd. lia.
Qed.

Lemma check_depth_fuel_bound fuel src :
  (check_depth_fuel fuel src <= 1 + length (chunk src) / 4)%nat.
Proof.
  revert src. induction fuel as [|f IH]; intros src; cbn [check_depth_fuel]; [lia|].
  destruct (chunk src) as [|b s] eqn:Es; [lia|]. rewrite <- Es. destruct (Ascii.eqb b "*"); [|lia].
  destruct (array_header src) as [[n src']|] eqn:E; [|lia]. apply array_header_length in E.
  enough (range_depth (check_depth_fuel f) f n src' <= 1 + length (chunk src') / 4)%nat.
  { pose proof (Nat.Div0.div_le_mono _ _ 4 E) as H4.
    rewrite Nat.add_comm, (Nat.div_add _ 1 4) in H4 by lia. lia. }
  apply range_depth_bound. intros c Hc. etransitivity; [apply IH|].
  apply le_n_S, Nat.Div0.div_le_mono, Hc.
Qed.

(** ** Depth: attained *)

(** [n] arrays of one element, each the element of the one before. *)
Definition nested_arrays (n : nat) : bytes := concat (replicate n (bs "*1" ++ CRLF)).

Lemma nested_arrays_S n : nested_arrays (S n) = "*"%char :: "1"%char :: CR :: LF :: nested_arrays n.
Proof. reflexivity. Qed.

Lemma nested_header pos s :
  array_header (mkCursor pos ("*"%char :: "1"%char :: CR :: LF :: s)) = Ok (1, mkCursor (pos + 4) s).
Proof. replace (pos + 4)%nat with (S pos + 1 + 2)%nat by lia. reflexivity. Qed.

Lemma nested_depth n fuel pos :
  (n < fuel)%nat -> (S n <= check_depth_fuel fuel (mkCursor pos (nested_arrays n)))%nat.
Proof.
  revert fuel pos. induction n as [|n IH]; intros [|f] pos Hf; try lia; [by cbn; lia|].
  rewrite nested_arrays_S. cbn [check_depth_fuel chunk]. rewrite Ascii.eqb_refl, nested_header.
  destruct f as [|f]; [lia|]. cbn [range_depth]. change (1 <=? 0) with false. cbv iota.
  specialize (IH (S f) (pos + 4)%nat ltac:(lia)). lia.
Qed.

Lemma nested_arrays_length n : length (nested_arrays n) = (4 * n)%nat.
Proof. induction n as [|n IH]; [done|]. rewrite nested_arrays_S. cbn [length]. lia. Qed.

Lemma nested_incomplete n fuel pos : check_fuel fuel (mkCursor pos (nested_arrays n)) = Err Incomplete.
Proof.
  revert fuel pos. induction n as [|n IH]; intros fuel pos; [apply check_needs_input|].
  destruct fuel as [|f]; [done|]. rewrite nested_arrays_S, check_array_run.
  unfold mbind at 1, Parser_bind at 1. rewrite nested_header. change (1 <? 0) with false. cbv iota.
  destruct f as [|f]; [done|]. cbn [for_range_or]. change (1 <=? 0) with false. cbv iota.
  unfold mbind, Parser_bind. by rewrite IH.
Qed.

(** ** Reservations: the bound, after [check] *)

Lemma range_reserves_fit (P : Z * nat -> Prop) (reserves : Cursor -> list (Z * nat)) k k' n src xs src' :
  for_range check k' n src = Ok (xs, src') ->
  (forall c x c', (length (chunk c) <= length (chunk src))%nat ->
     check c = Ok (x, c') -> Forall P (reserves c)) ->
  Forall P (range_reserves reserves k n src).
Proof.
  revert k' n src xs. induction k as [|k IH]; intros k' n src xs E Hr; cbn; [constructor|].
  destruct (n <=? 0) eqn:En; [constructor|]. destruct k' as [|k']; cbn in E; rewrite En in E; [done|].
  unfold mbind, Parser_bind in E. destruct (check src) as [[x src1]|] eqn:E1; [|done].
  apply Forall_app. split; [by eapply Hr|].
  destruct (for_range check k' (n - 1) src1) as [[ys src2]|] eqn:E2; [|done].
  destruct (parse src) as [[f src1']|] eqn:E3; [|constructor].
  destruct (agrees_check_parse_fuel (length (chunk src)) src x src1 E1) as [[f' Hf]|(m & _ & Hf)];
    unfold parse in E3; rewrite Hf in E3; [|done]. injection E3 as _ <-.
  apply (framed_length 2) in E1; [|apply framed_check].
  injection E as _ <-. eapply IH; [exact E2|]. intros c y c' Hc. apply Hr. lia.
Qed.

(** [n] successful iterations take two bytes each. *)
Lemma for_range_length {A} (step : Parser A) k n src xs src' :
  framed 2 step -> for_range step k n src = Ok (xs, src') ->
  2 * n + len (chunk src') <= len (chunk src).
Proof.
  intros Hs. revert n src xs. induction k as [|k IH]; intros n src xs; cbn;
    destruct (n <=? 0) eqn:En; try done.
  1,2: intros [= _ <-]; apply Z.leb_le in En; lia.
  unfold mbind, Parser_bind. destruct (step src) as [[x src1]|] eqn:E1; [|done].
  destruct (for_range step k (n - 1) src1) as [[ys src2]|] eqn:E2; [|done]. intros [= _ <-].
  apply (framed_length 2) in E1; [|done]. apply IH in E2. apply Z.leb_gt in En.
  unfold len in *. lia.
Qed.

(** An accepted array: its header, then its elements. *)
Lemma check_array_inv src u c' s :
  chunk src = "*"%char :: s -> check src = Ok (u, c') ->
  exists n src1 xs, array_header src = Ok (n, src1) /\ 0 <= n
    /\ for_range check (length (chunk src1)) n src1 = Ok (xs, c').
Proof.
  intros Es E. destruct src as [pos s0]. cbn [chunk] in Es. subst s0.
  rewrite <- (check_enough (S (S (length s)))), check_array_run in E by (cbn; lia).
  rename E into Hf.
  unfold mbind at 1, Parser_bind at 1 in Hf.
  destruct (array_header _) as [[n src1]|] eqn:Ed; [|done]. exists n, src1.
  destruct (n <? 0) eqn:En; [done|]. apply Z.ltb_ge in En.
  unfold mbind at 1, Parser_bind at 1 in Hf.
  assert (length (chunk src1) <= length s)%nat as Hl
    by (apply array_header_length in Ed; cbn in Ed; lia).
  destruct (for_range _ _ n src1) as [[xs src2]|] eqn:Er; [|done].
  injection Hf as _ <-. exists xs. split_and!; [done|done|].
  rewrite <- Er. symmetry. apply for_range_enough; try apply check_needs_input; cbn [length]; try lia.
  - eapply framed_weaken; [|apply framed_check_fuel]. lia.
  - intros pos'. reflexivity.
  - intros c Hc. apply check_enough. cbn [length]. lia.
Qed.

(** What fits: twice the reservation, in the bytes left at that point. *)
Definition reservation_fits (r : Z * nat) : Prop := 0 <= r.1 /\ 2 * r.1 <= Z.of_nat r.2.

Lemma parse_reserves_fit fuel src u c' :
  check src = Ok (u, c') -> Forall reservation_fits (parse_reserves_fuel fuel src).
Proof.
  revert src u c'. induction fuel as [|f IH]; intros src u c' E; cbn [parse_reserves_fuel]; [constructor|].
  destruct (chunk src) as [|b s] eqn:Es; [constructor|].
  destruct (Ascii.eqb_spec b "*") as [->|]; [|constructor].
  destruct (check_array_inv _ _ _ _ Es E) as (n & src1 & xs & Hh & Hn & Hr).
  unfold mbind, Parser_bind. rewrite Hh, usize_nonneg by (apply Z.ltb_ge; lia). cbn. constructor.
  - pose proof (for_range_length _ _ _ _ _ _ framed_check Hr) as Hl.
    pose proof (len_nonneg (chunk c')). split; cbn; unfold len in *; lia.
  - eapply range_reserves_fit; [exact Hr|]. intros c x c1 _. apply IH.
Qed.

(** ** Properties *)

(** C23: The recursion of [Frame::check] on a buffer is never deeper than one activation
    per four bytes of it and one more; the bound is reached, by an array nested in an array
    and so on: a peer chooses the depth of the stack with four bytes a level, as the code
    has no limit of its own. *)
Theorem check_depth_bounded :
  (forall s, (check_depth (cursor_of s) <= 1 + length s / 4)%nat) /\
  (forall n, length (nested_arrays n) = (4 * n)%nat
     /\ check_depth (cursor_of (nested_arrays n)) = S n
     /\ check (cursor_of (nested_arrays n)) = Err Incomplete).
Proof.
  split; [intros s; apply check_depth_fuel_bound|]. intros n. split; [apply nested_arrays_length|].
  assert (length (nested_arrays n) / 4 = n)%nat as Hd
    by (rewrite nested_arrays_length, Nat.mul_comm; by apply Nat.div_mul).
  split.
  - apply Nat.le_antisymm.
    + pose proof (check_depth_fuel_bound (S (length (nested_arrays n))) (cursor_of (nested_arrays n))) as Hb.
      cbn [chunk cursor_of] in Hb. rewrite Hd in Hb. exact Hb.
    + apply nested_depth. pose proof (nested_arrays_length n). cbn [chunk cursor_of]. lia.
  - apply nested_incomplete.
Qed.

(** C24: After [check] has accepted a buffer, every [Vec::with_capacity(n)] of [parse] asks
    for at most half as many elements as bytes are left to read: what a peer makes the
    server reserve is linear in what it has sent. Without [check] the reservation is
    whatever the header says. *)
Theorem reservations_bounded (s : bytes) (c' : Cursor) (Hok : check (cursor_of s) = Ok (tt, c')) :
  Forall (fun r : Z * nat => 0 <= r.1 /\ 2 * r.1 <= Z.of_nat r.2) (parse_reserves (cursor_of s)).
Proof. apply (parse_reserves_fit _ _ _ _ Hok). Qed.

Lemma reservations_bounded_witness :
  let s := bs "*2" ++ CRLF ++ bs "*1" ++ CRLF ++ bs ":7" ++ CRLF ++ bs "*0" ++ CRLF in
  parse_reserves (cursor_of s) = [(2, 12%nat); (1, 8%nat); (0, 0%nat)]
  /\ Forall (fun r : Z * nat => 0 <= r.1 /\ 2 * r.1 <= Z.of_nat r.2) (parse_reserves (cursor_of s)).
Proof.
  intros s. split; [vm_compute; reflexivity|].
  apply (reservations_bounded s (mkCursor 16 [])). vm_compute. reflexivity.
Defined.

(** The doc comment of [parse] asks for [check] first, and needs to: alone, it asks for as
    much as an [i64] can say. *)
Example unchecked_reservation :
  parse_reserves (cursor_of (bs "*9223372036854775807" ++ CRLF)) = [(i64_max, 0%nat)].
Proof. vm_compute. reflexivity. Qed.
