(* ===== verification/Connection.v ===== *)
(** * Framing over a TCP stream: [src/src/connection.rs]

    [Connection::parse_frame], [Connection::read_frame], the pipelining test and the
    buffered writes. A socket is the list of what its reads return, in order; the theorems
    show that the frames read do not depend on how TCP cuts the byte stream into reads. *)
From S2P Require Import Prelude.
From S2P Require Import RustStd.
From S2P Require Import Frame.

(** [crate::Error], a boxed error the program only ever prints: its message. *)
Abbreviation CrateError := bytes.

(** [impl Display for FrameError] (the [thiserror] attributes). *)
Definition FrameError_to_string (e : FrameError) : CrateError :=
  match e with
  | Incomplete => bs "not enough data is available to parse a frame"
  | Other msg => bs "invalid frame format: " ++ msg
  end.

(** ** Reading *)

(** [Connection::parse_frame]: the frame at the head of the buffer, if it is complete, and
    the buffer after it. *)
Definition parse_frame (buffer : bytes) : Result CrateError (option Frame * bytes) :=
  match check (cursor_of buffer) with
  | Ok (_, cursor) =>
    let n := position cursor in
    match parse (cursor_of buffer) with
    | Ok (frame, _) => Ok (Some frame, drop n buffer)
    | Err e => Err (FrameError_to_string e)
    end
  | Err Incomplete => Ok (None, buffer)
  | Err e => Err (FrameError_to_string e)
  end.

(** A connection: the socket's pending reads, the read buffer, the bytes in the write
    buffer and the bytes put on the wire. *)
Record Connection := mkConnection {
  reads : list bytes;
  buffer : bytes;
  pending : bytes;
  wire : bytes;
}.

Definition with_input (c : Connection) (rs : list bytes) (b : bytes) : Connection :=
  mkConnection rs b (pending c) (wire c).

Definition reset_error : CrateError := bs "connection reset by peer while reading frame".

(** The loop of [Connection::read_frame]: parse, or read more and try again. A read of no
    bytes is the end of the stream, as is the absence of further reads. *)
Fixpoint read_frame_loop (rs : list bytes) (buf : bytes)
    : Result CrateError (option (Frame * (list bytes * bytes))) :=
  match parse_frame buf with
  | Err e => Err e
  | Ok (Some frame, buf') => Ok (Some (frame, (rs, buf')))
  | Ok (None, _) =>
    match rs with
    | (c :: r) :: rs' => read_frame_loop rs' (buf ++ c :: r)
    | _ => match buf with [] => Ok None | _ => Err reset_error end
    end
  end.

Definition read_frame (conn : Connection) : Result CrateError (option (Frame * Connection)) :=
  match read_frame_loop (reads conn) (buffer conn) with
  | Err e => Err e
  | Ok None => Ok None
  | Ok (Some (frame, (rs, buf))) => Ok (Some (frame, with_input conn rs buf))
  end.

(** [Connection::has_queued_bytes] *)
Definition has_queued_bytes (conn : Connection) : bool :=
  match buffer conn with [] => false | _ => true end.

(** ** Writing *)

(** [Connection::write_frame_buffered] *)
Definition write_frame_buffered (frame : Frame) (conn : Connection) : Connection :=
  mkConnection (reads conn) (buffer conn) (pending conn ++ write_to_buf frame []) (wire conn).

(** [Connection::flush] *)
Definition flush (conn : Connection) : Connection :=
  mkConnection (reads conn) (buffer conn) [] (wire conn ++ pending conn).

(** [Connection::write_frame] *)
Definition write_frame (frame : Frame) (conn : Connection) : Connection :=
  flush (write_frame_buffered frame conn).

(** ** A whole session *)

(** Every frame a peer sends until the stream ends ([None]) or an error closes it. A frame
    takes at least two bytes, so the number of bytes sent bounds the number of frames. *)
Fixpoint read_all (fuel : nat) (rs : list bytes) (buf : bytes) : list Frame * option CrateError :=
  match fuel with
  | O => ([], None)
  | S f =>
    match read_frame_loop rs buf with
    | Err e => ([], Some e)
    | Ok None => ([], None)
    | Ok (Some (frame, (rs', buf'))) =>
      let '(frames, e) := read_all f rs' buf' in (frame :: frames, e)
    end
  end.

(** The reference: the frames of a complete byte string. *)
Fixpoint decode_all (fuel : nat) (s : bytes) : list Frame * option CrateError :=
  match fuel with
  | O => ([], None)
  | S f =>
    match parse_frame s with
    | Err e => ([], Some e)
    | Ok (None, _) => ([], match s with [] => None | _ => Some reset_error end)
    | Ok (Some frame, s') => let '(frames, e) := decode_all f s' in (frame :: frames, e)
    end
  end.

(** ** Lemmas *)

Lemma parse_frame_extend buf ext :
  match parse_frame buf with
  | Ok (Some f, rest) => parse_frame (buf ++ ext) = Ok (Some f, rest ++ ext)
  | Ok (None, _) => True
  | Err e => parse_frame (buf ++ ext) = Err e
  end.
Proof.
  unfold parse_frame. pose proof (framed_check (cursor_of buf)) as Hc.
  pose proof (agrees_check_parse_fuel (length buf) (cursor_of buf)) as Ha.
  change (check_fuel (length buf) (cursor_of buf)) with (check (cursor_of buf)) in Ha.
  change (parse_fuel (length buf) (cursor_of buf)) with (parse (cursor_of buf)) in Ha.
  destruct (check (cursor_of buf)) as [[[] c']|[|m]]; [|done|].
  - destruct Hc as [(pre & Hb & Hp & _) Hext]. specialize (Hext ext).
    change (extend (cursor_of buf) ext) with (cursor_of (buf ++ ext)) in Hext. rewrite Hext.
    cbn in Hp, Hb. pose proof (framed_parse (cursor_of buf)) as Hq.
    destruct (Ha _ _ eq_refl) as [[f Hf]|(m & _ & Hf)]; rewrite Hf in *.
    + destruct Hq as [_ Hq]. specialize (Hq ext).
      change (extend (cursor_of buf) ext) with (cursor_of (buf ++ ext)) in Hq. rewrite Hq.
      cbn [position extend]. rewrite Hp, Hb. by rewrite drop_app_length, <- app_assoc, drop_app_length.
    + specialize (Hq ext). change (extend (cursor_of buf) ext) with (cursor_of (buf ++ ext)) in Hq.
      by rewrite Hq.
  - specialize (Hc ext). change (extend (cursor_of buf) ext) with (cursor_of (buf ++ ext)) in Hc.
    by rewrite Hc.
Qed.

(** A parsed frame takes at least two bytes. *)
Lemma parse_frame_length buf f rest :
  parse_frame buf = Ok (Some f, rest) -> (2 + length rest <= length buf)%nat.
Proof.
  unfold parse_frame. pose proof (framed_check (cursor_of buf)) as Hc.
  destruct (check (cursor_of buf)) as [[[] c']|[|m]]; [|done|done].
  destruct (parse (cursor_of buf)) as [[f' c1]|]; [|done]. intros [= <- <-].
  destruct Hc as [(pre & Hb & Hp & Hk) _]. cbn in Hb, Hp. rewrite Hp, Hb, drop_app_length, length_app. lia.
Qed.

(** What the reading loop returns, in terms of the whole stream. *)
Lemma read_frame_loop_spec rs buf : Forall (fun r => r <> []) rs ->
  match parse_frame (buf ++ concat rs) with
  | Ok (Some f, rest) => exists rs' buf', read_frame_loop rs buf = Ok (Some (f, (rs', buf')))
      /\ buf' ++ concat rs' = rest /\ Forall (fun r => r <> []) rs'
  | Ok (None, _) => read_frame_loop rs buf =
      match buf ++ concat rs with [] => Ok None | _ => Err reset_error end
  | Err e => read_frame_loop rs buf = Err e
  end.
Proof.
  revert buf. induction rs as [|r rs IH]; intros buf Hrs; cbn [concat read_frame_loop].
  - rewrite app_nil_r. destruct (parse_frame buf) as [[[f|] rest]|e]; [|done|done].
    exists [], rest. cbn. by rewrite app_nil_r.
  - inversion Hrs as [|? ? Hr Hrs']; subst. destruct r as [|c r]; [done|].
    pose proof (parse_frame_extend buf ((c :: r) ++ concat rs)) as Hx.
    destruct (parse_frame buf) as [[[f|] rest]|e].
    + rewrite Hx. by exists ((c :: r) :: rs), rest.
    + rewrite app_assoc. apply IH, Hrs'.
    + by rewrite Hx.
Qed.

Lemma read_all_decode fuel rs buf : Forall (fun r => r <> []) rs ->
  read_all fuel rs buf = decode_all fuel (buf ++ concat rs).
Proof.
  revert rs buf. induction fuel as [|f IH]; intros rs buf Hrs; [done|]. cbn [read_all decode_all].
  pose proof (read_frame_loop_spec rs buf Hrs) as H.
  destruct (parse_frame (buf ++ concat rs)) as [[[fr|] rest]|e].
  - destruct H as (rs' & buf' & -> & <- & Hrs'). by rewrite IH.
  - rewrite H. by destruct (buf ++ concat rs).
  - by rewrite H.
Qed.

Lemma parse_frame_encode f rest : frame_ok f = true ->
  parse_frame (encode f ++ rest) = Ok (Some f, rest).
Proof.
  intros Hok. destruct (check_parse_encode f rest Hok) as [Hc Hp]. unfold parse_frame.
  change (write_to_buf f []) with (encode f) in Hc, Hp. rewrite Hc, Hp.
  cbn [position]. by rewrite drop_app_length.
Qed.

(** ** Properties *)

(** C9: TCP segmentation is invisible. However the bytes of a session are cut into (non
    empty) reads, [read_frame] yields the same frames, and ends the same way, as decoding
    the whole byte string at once. *)
Theorem segmentation_independent (fuel : nat) (rs1 rs2 : list bytes)
    (H1 : Forall (fun r => r <> []) rs1) (H2 : Forall (fun r => r <> []) rs2)
    (Hsame : concat rs1 = concat rs2) :
  read_all fuel rs1 [] = read_all fuel rs2 [] /\
  read_all fuel rs1 [] = decode_all fuel (concat rs1).
Proof. rewrite !read_all_decode, Hsame by done. done. Qed.

Lemma segmentation_independent_witness :
  let wire := bs "PING" ++ CRLF ++ bs "*1" ++ CRLF ++ bs "$4" ++ CRLF ++ bs "PING" ++ CRLF in
  read_all 100 (map (fun c => [c]) wire) [] = read_all 100 [wire] []
  /\ read_all 100 [wire] [] = ([Array [Bulk (bs "PING")]; Array [Bulk (bs "PING")]], None).
Proof.
  cbn zeta. split; [|vm_compute; reflexivity].
  apply (segmentation_independent 100).
  - vm_compute. repeat (constructor; [discriminate|]). constructor.
  - constructor; [discriminate|constructor].
  - reflexivity.
Defined.

(** Pipelining. A peer that writes any list of frames back to back, cut into reads in
    any way, is read as exactly those frames, in order, and the stream ends cleanly. *)
Lemma pipeline_roundtrip (fs : list Frame) (rs : list bytes)
    (Hok : forallb frame_ok fs = true) (Hrs : Forall (fun r => r <> []) rs)
    (Hwire : concat rs = concat (map (fun f => write_to_buf f []) fs)) :
  read_all (S (length fs)) rs [] = (fs, None).
Proof.
  rewrite read_all_decode by done. cbn [app]. rewrite Hwire. clear rs Hrs Hwire.
  induction fs as [|f fs IH]; [done|]. cbn in Hok. apply andb_true_iff in Hok as [Hf Hfs].
  specialize (IH Hfs). cbn [map concat length]. remember (S (length fs)) as k. cbn [decode_all].
  change (write_to_buf f []) with (encode f). rewrite parse_frame_encode by done.
  by rewrite IH.
Qed.

Lemma pipeline_roundtrip_witness :
  let fs := [Array [Bulk (bs "GET"); Bulk (bs "k")]; Integer 7] in
  read_all 3 [bs "*2" ++ CRLF ++ bs "$3"; CRLF ++ bs "GET" ++ CRLF ++ bs "$1" ++ CRLF ++ bs "k" ++ CRLF ++ bs ":"; bs "7" ++ CRLF] []
  = (fs, None).
Proof.
  apply (pipeline_roundtrip [Array [Bulk (bs "GET"); Bulk (bs "k")]; Integer 7]).
  - reflexivity.
  - repeat (constructor; [discriminate|]). constructor.
  - reflexivity.
Defined.
