(* ===== verification/F64.v ===== *)
(** * Rust's [f64] arithmetic and formatting

    IEEE 754 binary64 by the executable specification of the standard library
    ([SpecFloat]): correctly rounded operations, the casts [as f64], [as u64] and
    [as u32], [round], [max], [min], [clamp], and fixed-precision printing ([{:.2}]). *)
From Stdlib Require Export SpecFloat.
From S2P Require Import Prelude.
From S2P Require Import RustStd.

Abbreviation f64 := spec_float.

Definition f64_of_Z (z : Z) : f64 := binary_normalize 53 1024 z 0 false.
Definition f64_add : f64 -> f64 -> f64 := SFadd 53 1024.
Definition f64_mul : f64 -> f64 -> f64 := SFmul 53 1024.
Definition f64_div : f64 -> f64 -> f64 := SFdiv 53 1024.
Definition f64_gt (x y : f64) : bool := SFltb y x.

(** The literals [0.0] and [0.001]. *)
Definition f64_zero : f64 := S754_zero false.
Definition f64_milli : f64 := S754_finite false 4611686018427388 (-62).

(** [f64::max], [f64::min]: the other operand when one is NaN. *)
Definition f64_max (x y : f64) : f64 :=
  match x, y with
  | S754_nan, _ => y
  | _, S754_nan => x
  | _, _ => if SFltb x y then y else x
  end.
Definition f64_min (x y : f64) : f64 :=
  match x, y with
  | S754_nan, _ => y
  | _, S754_nan => x
  | _, _ => if SFltb y x then y else x
  end.
Definition f64_clamp (x lo hi : f64) : f64 :=
  let x := if SFltb x lo then lo else x in if SFltb hi x then hi else x.

(** [f64::round]: to the nearest integer, half away from zero. *)
Definition f64_round (x : f64) : f64 :=
  match x with
  | S754_finite s m e =>
    if 0 <=? e then x
    else
      let n := (Z.pos m + 2 ^ (- e - 1)) / 2 ^ (- e) in
      if n =? 0 then S754_zero s else binary_normalize 53 1024 (if s then - n else n) 0 s
  | _ => x
  end.

(** [x as u64] / [x as u32]: towards zero, saturating, NaN to 0. *)
Definition f64_as_uint (max : Z) (x : f64) : Z :=
  match x with
  | S754_finite false m e =>
    Z.min max (if 0 <=? e then Z.pos m * 2 ^ e else Z.pos m / 2 ^ (- e))
  | S754_infinity false => max
  | _ => 0
  end.

(** [format!("{:.d}", x)]: the exact value rounded to [d] decimals, ties to even. *)
Definition pad_zeros (d : nat) (s : bytes) : bytes := repeat "0"%char (d - length s) ++ s.

Definition show_fixed (d : nat) (x : f64) : bytes :=
  let sign (s : bool) : bytes := if s then bs "-" else [] in
  let point (q : Z) : bytes :=
    show_uint (q / 10 ^ Z.of_nat d) ++ bs "." ++ pad_zeros d (show_uint (q mod 10 ^ Z.of_nat d)) in
  match x with
  | S754_zero s => sign s ++ point 0
  | S754_infinity s => sign s ++ bs "inf"
  | S754_nan => bs "NaN"
  | S754_finite s m e =>
    let num := Z.pos m * 10 ^ Z.of_nat d in
    let q :=
      if 0 <=? e then num * 2 ^ e
      else
        let den := 2 ^ (- e) in
        let q := num / den in
        let r := num mod den in
        if (den <? 2 * r) || ((den =? 2 * r) && Z.odd q) then q + 1 else q in
    sign s ++ point q
  end.
