(* ===== verification/F64Bounds.v ===== *)
(** * Bounds on binary64 results

    The sizes of rounded results, enough to show that no quotient, product or rounding the
    metrics compute overflows: every number they report is finite. *)
From S2P Require Import Prelude.
From S2P Require Import RustStd.
From S2P Require Import F64.

Abbreviation digits := Zdigits2.

(** ** Binary digits *)

Lemma digits_nonneg m : 0 <= digits m.
Proof. by destruct m. Qed.

Lemma digits2_pos_pow p : 2 ^ (Z.pos (digits2_pos p) - 1) <= Z.pos p < 2 ^ Z.pos (digits2_pos p).
Proof.
  induction p as [p IH|p IH|]; cbn [digits2_pos]; [| |done];
    rewrite Pos2Z.inj_succ; replace (Z.succ (Z.pos (digits2_pos p)) - 1) with (Z.succ (Z.pos (digits2_pos p) - 1)) by lia;
    rewrite !Z.pow_succ_r by lia; lia.
Qed.

Lemma digits_pow m : 0 < m -> 2 ^ (digits m - 1) <= m < 2 ^ digits m.
Proof. destruct m as [|p|p]; [lia| |lia]. intros _. apply digits2_pos_pow. Qed.

Lemma digits_le m k : 0 <= m -> 0 <= k -> m < 2 ^ k -> digits m <= k.
Proof.
  intros Hm Hk Hlt. destruct (decide (m = 0)) as [->|]; [done|].
  destruct (digits_pow m) as [Hlo _]; [lia|].
  destruct (Z.le_gt_cases (digits m) k) as [|Hgt]; [done|]. exfalso.
  assert (2 ^ k <= 2 ^ (digits m - 1)) by (apply Z.pow_le_mono_r; lia). lia.
Qed.

Lemma digits_ge m k : 0 <= k -> 2 ^ k <= m -> k < digits m.
Proof.
  intros Hk Hle. pose proof (Z.pow_pos_nonneg 2 k). destruct (digits_pow m) as [_ Hhi]; [lia|].
  apply (Z.pow_lt_mono_r_iff 2); [lia|apply digits_nonneg|lia].
Qed.

Lemma digits_mono m n : 0 <= m <= n -> digits m <= digits n.
Proof.
  intros Hmn. destruct (decide (n = 0)) as [->|]; [by replace m with 0 by lia|].
  destruct (digits_pow n) as [_ Hn]; [lia|]. apply digits_le; [lia|apply digits_nonneg|lia].
Qed.

Lemma digits_succ m : 0 <= m -> digits (m + 1) <= digits m + 1.
Proof.
  intros Hm. pose proof (digits_nonneg m). apply digits_le; [lia|lia|].
  rewrite Z.pow_add_r by lia. destruct (decide (m = 0)) as [->|]; [done|].
  destruct (digits_pow m) as [_ ?]; [lia|]. lia.
Qed.

Lemma digits_add m n : 0 <= m -> 0 <= n -> digits (m + n) <= Z.max (digits m) (digits n) + 1.
Proof.
  intros Hm Hn. pose proof (digits_nonneg m). pose proof (digits_nonneg n). apply digits_le; [lia|lia|].
  assert (forall k, 0 <= k -> k < 2 ^ digits k) as Hlt.
  { intros k Hk. destruct (decide (k = 0)) as [->|]; [done|]. apply digits_pow. lia. }
  pose proof (Hlt m Hm). pose proof (Hlt n Hn).
  assert (2 ^ digits m <= 2 ^ Z.max (digits m) (digits n)) by (apply Z.pow_le_mono_r; lia).
  assert (2 ^ digits n <= 2 ^ Z.max (digits m) (digits n)) by (apply Z.pow_le_mono_r; lia).
  rewrite Z.pow_add_r by lia. lia.
Qed.

Lemma digits_mul m n : 0 <= m -> 0 <= n -> digits (m * n) <= digits m + digits n.
Proof.
  intros Hm Hn. pose proof (digits_nonneg m). pose proof (digits_nonneg n).
  destruct (decide (m = 0)) as [->|]; [rewrite Z.mul_0_l; change (digits 0) with 0; lia|].
  destruct (decide (n = 0)) as [->|]; [rewrite Z.mul_0_r; change (digits 0) with 0; lia|].
  destruct (digits_pow m) as [_ ?]; [lia|]. destruct (digits_pow n) as [_ ?]; [lia|].
  apply digits_le; [lia|lia|]. rewrite Z.pow_add_r by done. apply Z.mul_lt_mono_nonneg; lia.
Qed.

Lemma digits_shiftl m s : 0 < m -> 0 <= s -> digits (Z.shiftl m s) = digits m + s.
Proof.
  intros Hm Hs. destruct (digits_pow m Hm) as [Hlo Hhi]. rewrite Z.shiftl_mul_pow2 by done.
  assert (0 < digits m) by (destruct m; [lia|done|lia]).
  pose proof (Z.pow_pos_nonneg 2 s). apply Z.le_antisymm.
  - apply digits_le; [lia|lia|]. rewrite Z.pow_add_r by lia. apply Z.mul_lt_mono_pos_r; lia.
  - assert (digits m + s - 1 < digits (m * 2 ^ s)); [|lia]. apply digits_ge; [lia|].
    replace (digits m + s - 1) with ((digits m - 1) + s) by lia. rewrite Z.pow_add_r by lia.
    apply Z.mul_le_mono_nonneg_r; lia.
Qed.

Lemma digits_div2 m : 0 <= m -> digits (Z.div2 m) = Z.max 0 (digits m - 1).
Proof.
  destruct m as [|p|p]; [done| |lia]. intros _. destruct p as [p|p|]; cbn [Z.div2 Pos.div2 digits digits2_pos]; lia.
Qed.

(** ** Rounding *)

Lemma shr_1_m r : 0 <= shr_m r -> shr_m (shr_1 r) = Z.div2 (shr_m r).
Proof. destruct r as [[|[p|p|]|p] b s]; cbn; done || lia. Qed.

Lemma shr_iter n : forall r, 0 <= shr_m r ->
  0 <= shr_m (iter_pos shr_1 n r) /\ digits (shr_m (iter_pos shr_1 n r)) = Z.max 0 (digits (shr_m r) - Z.pos n).
Proof.
  assert (forall r, 0 <= shr_m r -> 0 <= shr_m (shr_1 r) /\ digits (shr_m (shr_1 r)) = Z.max 0 (digits (shr_m r) - 1)) as H1.
  { intros r Hr. rewrite shr_1_m by done. split; [by apply Z.div2_nonneg|by apply digits_div2]. }
  induction n as [n IH|n IH|]; intros r Hr; cbn [iter_pos]; [| |by apply H1].
  - destruct (H1 r Hr) as [Ha Hb]. destruct (IH _ Ha) as [Hc Hd]. destruct (IH _ Hc) as [He Hf].
    split; [done|]. rewrite Hf, Hd, Hb. pose proof (digits_nonneg (shr_m r)). lia.
  - destruct (IH _ Hr) as [Hc Hd]. destruct (IH _ Hc) as [He Hf].
    split; [done|]. rewrite Hf, Hd. pose proof (digits_nonneg (shr_m r)). lia.
Qed.

Abbreviation fexp64 := (fexp 53 1024).

Lemma fexp64_eq e : fexp64 e = Z.max (e - 53) (-1074).
Proof. done. Qed.

(** Shifting a mantissa to the precision of the format: it stays below [2^k], and a number
    of at least 1 keeps its order of magnitude. *)
Lemma shr_fexp_sized m e l k : 0 <= m -> -1074 <= k -> e <= k -> digits m + e <= k ->
  let '(r, e') := shr_fexp 53 1024 m e l in
  0 <= shr_m r /\ -1074 <= e' <= k /\ digits (shr_m r) + e' <= k
  /\ (0 < digits m -> 1 <= digits m + e -> digits m + e <= digits (shr_m r) + e' /\ 0 < digits (shr_m r)).
Proof.
  intros Hm Hk He Hd. unfold shr_fexp. rewrite fexp64_eq.
  assert (shr_m (shr_record_of_loc m l) = m) as Hr by (destruct l as [|[]]; done).
  pose proof (digits_nonneg m).
  destruct (Z.max (digits m + e - 53) (-1074) - e) as [|n|n] eqn:E; cbn [shr].
  - rewrite Hr. lia.
  - destruct (shr_iter n (shr_record_of_loc m l)) as [Ha Hb]; [by rewrite Hr|]. rewrite Hr in Hb. rewrite Hb. lia.
  - rewrite Hr. lia.
Qed.

Lemma round_nearest_even_range m l : 0 <= m ->
  0 <= round_nearest_even m l /\ m <= round_nearest_even m l <= m + 1.
Proof. intros Hm. unfold round_nearest_even. destruct l as [|[]]; try destruct (Z.even m); lia. Qed.

(** ** Sizes of numbers *)

(** [x] is zero or positive, and below [2^k]. *)
Definition below (k : Z) (x : f64) : Prop :=
  match x with
  | S754_zero _ => True
  | S754_finite s m e => s = false /\ -1074 <= e /\ digits (Z.pos m) + e <= k
  | _ => False
  end.

(** [x] is at least [1]. *)
Definition at_least_1 (x : f64) : Prop :=
  match x with
  | S754_finite s m e => s = false /\ -1074 <= e /\ 1 <= digits (Z.pos m) + e
  | _ => False
  end.

Lemma below_le k k' x : k <= k' -> below k x -> below k' x.
Proof. intros Hk. destruct x; cbn; [done|done|done|]. intros (? & ? & ?). split_and!; [done|done|lia]. Qed.

Lemma binary_round_aux_sized m e l k : 0 <= m -> -1074 <= k < 971 -> e <= k -> digits m + e <= k ->
  below (k + 1) (binary_round_aux 53 1024 false m e l)
  /\ (0 < digits m -> 1 <= digits m + e -> at_least_1 (binary_round_aux 53 1024 false m e l)).
Proof.
  intros Hm Hk He Hd. unfold binary_round_aux.
  pose proof (shr_fexp_sized m e l k Hm ltac:(lia) He Hd) as Hs1.
  destruct (shr_fexp 53 1024 m e l) as [r1 e1]. destruct Hs1 as (Hr1 & He1 & Hd1 & Hlo1).
  set (m1 := round_nearest_even (shr_m r1) (loc_of_shr_record r1)).
  destruct (round_nearest_even_range (shr_m r1) (loc_of_shr_record r1) Hr1) as [Hm1 Hrange].
  fold m1 in Hm1, Hrange.
  pose proof (digits_mono (shr_m r1) m1 ltac:(lia)). pose proof (digits_mono m1 (shr_m r1 + 1) ltac:(lia)).
  pose proof (digits_succ _ Hr1).
  pose proof (shr_fexp_sized m1 e1 loc_Exact (k + 1) Hm1 ltac:(lia) ltac:(lia) ltac:(lia)) as Hs2.
  destruct (shr_fexp 53 1024 m1 e1 loc_Exact) as [r2 e2]. destruct Hs2 as (Hr2 & He2 & Hd2 & Hlo2).
  destruct (shr_m r2) as [|p|p]; [|rewrite (proj2 (Z.leb_le _ _)) by lia|lia].
  - split; [done|]. intros Hp Hone. cbn [digits] in *. lia.
  - cbn [digits] in *. split; [cbn [below]; split_and!; [done|lia|cbn [digits]; lia]|].
    intros Hp Hone. cbn [at_least_1]. split_and!; [done|lia|cbn [digits]; lia].
Qed.

(** ** The operations *)

(** Aligning to an exponent of at most [e] moves the factor into the mantissa. *)
Lemma shl_align_down m e ez : ez <= e ->
  digits (Z.pos (shl_align m e ez).1) + ez = digits (Z.pos m) + e /\ (shl_align m e ez).2 = ez.
Proof.
  intros Hez. unfold shl_align. destruct (ez - e) as [|d|d] eqn:E; cbn [fst snd]; [lia|lia|].
  assert (Z.pos (Pos.iter xO m d) = Z.shiftl (Z.pos m) (Z.pos d)) as ->.
  { change (Z.shiftl (Z.pos m) (Z.pos d)) with (Pos.iter (Z.mul 2) (Z.pos m) d).
    by apply (Pos.iter_swap_gen _ _ Z.pos xO (Z.mul 2)). }
  rewrite digits_shiftl by lia. lia.
Qed.

Lemma binary_round_sized p e k : digits (Z.pos p) + e <= k -> -1074 <= k < 971 ->
  below (k + 1) (binary_round 53 1024 false p e)
  /\ (1 <= digits (Z.pos p) + e -> at_least_1 (binary_round 53 1024 false p e)).
Proof.
  intros Hd Hk. unfold binary_round. assert (0 < digits (Z.pos p)) by done.
  set (ez := fexp64 (digits (Z.pos p) + e)). pose proof (fexp64_eq (digits (Z.pos p) + e)) as Hez. fold ez in Hez.
  change (fexp64 (Z.pos (digits2_pos p) + e)) with ez.
  assert (0 < digits (Z.pos (shl_align p e ez).1)) by done.
  destruct (Z.le_gt_cases ez e) as [Hle|Hgt].
  - destruct (shl_align_down p e ez Hle) as [Ha Hs]. destruct (shl_align p e ez) as [mz ez'].
    cbn [fst snd] in Ha, Hs. subst ez'.
    destruct (binary_round_aux_sized (Z.pos mz) ez loc_Exact k) as [Hb Hlo]; [done|lia|lia|lia|].
    split; [done|]. intros H1. apply Hlo; lia.
  - assert (shl_align p e ez = (p, e)) as ->.
    { unfold shl_align. destruct (ez - e) eqn:E; [done|done|lia]. }
    destruct (binary_round_aux_sized (Z.pos p) e loc_Exact k) as [Hb Hlo]; [done|lia|lia|lia|].
    split; [done|]. intros H1. apply Hlo; lia.
Qed.

Lemma of_Z_sized z k : 0 < z -> digits z <= k -> k < 971 ->
  below (k + 1) (f64_of_Z z) /\ at_least_1 (f64_of_Z z).
Proof.
  intros Hz Hk Hk'. destruct z as [|p|p]; [lia| |lia]. unfold f64_of_Z, binary_normalize.
  assert (0 < digits (Z.pos p)) by done.
  destruct (binary_round_sized p 0 k) as [Hb Hlo]; [lia|lia|]. split; [done|]. apply Hlo. lia.
Qed.

Lemma of_Z_below z k : 0 <= z -> 0 <= k < 971 -> z < 2 ^ k -> below (k + 1) (f64_of_Z z).
Proof.
  intros Hz Hk Hlt. destruct (decide (z = 0)) as [->|]; [done|].
  apply of_Z_sized; [lia|apply digits_le; lia|lia].
Qed.

Lemma of_Z_at_least_1 z : 0 < z < 2 ^ 900 -> at_least_1 (f64_of_Z z).
Proof. intros Hz. apply (of_Z_sized z 900); [lia|apply digits_le; lia|done]. Qed.

Lemma mul_below a b x y : below a x -> below b y -> -1000 <= a -> -74 <= b -> a + b < 971 ->
  below (a + b + 1) (f64_mul x y).
Proof.
  intros Hx Hy Ha Hb Hab. destruct x as [|s| |s m e]; try done; destruct y as [|s'| |s' m' e']; try done.
  destruct Hx as (-> & He & Hd), Hy as (-> & He' & Hd'). unfold f64_mul, SFmul. cbn [xorb].
  pose proof (digits_mul (Z.pos m) (Z.pos m') ltac:(done) ltac:(done)).
  assert (0 < digits (Z.pos m * Z.pos m')) by done.
  change (Z.pos (m * m')) with (Z.pos m * Z.pos m'). apply binary_round_aux_sized; lia.
Qed.

Lemma digits_div m n : 0 <= m -> 0 < n -> digits (m / n) <= Z.max 0 (digits m - digits n + 1).
Proof.
  intros Hm Hn. pose proof (Z.div_pos m n Hm Hn). destruct (decide (m / n = 0)) as [->|Hq]; [cbn [digits]; lia|].
  assert (n <= m) by (destruct (Z.le_gt_cases n m); [done|]; rewrite Z.div_small in Hq by lia; lia).
  destruct (digits_pow m) as [_ Hmhi]; [lia|]. destruct (digits_pow n Hn) as [Hnlo _].
  assert (digits n <= digits m) by (apply digits_mono; lia).
  assert (0 < digits n) by (by destruct n).
  apply Z.max_case_strong; [lia|]. intros _. apply digits_le; [lia|lia|].
  apply Z.div_lt_upper_bound; [lia|]. eapply Z.lt_le_trans; [exact Hmhi|].
  replace (digits m) with ((digits n - 1) + (digits m - digits n + 1)) at 1 by lia.
  rewrite Z.pow_add_r by lia. apply Z.mul_le_mono_nonneg_r; [apply Z.pow_nonneg; lia|done].
Qed.

Lemma div_below k x y : below k x -> at_least_1 y -> -1074 <= k < 971 -> below (k + 1) (f64_div x y).
Proof.
  intros Hx Hy Hk. destruct x as [|s| |s m e]; try done; destruct y as [|s'| |s' m' e']; try done.
  destruct Hx as (-> & He & Hd), Hy as (-> & He' & Hd'). unfold f64_div, SFdiv, SFdiv_core_binary. cbn [xorb].
  set (d1 := digits (Z.pos m)) in *. set (d2 := digits (Z.pos m')) in *. assert (0 < d1) by done. assert (0 < d2) by done.
  set (ez := Z.min (fexp64 (d1 + e - (d2 + e'))) (e - e')).
  assert (ez <= fexp64 (d1 + e - (d2 + e')) /\ ez <= e - e') as [Hez Hez2] by lia. rewrite fexp64_eq in Hez.
  set (num := match e - e' - ez with Z0 => Z.pos m | Z.pos _ => Z.shiftl (Z.pos m) (e - e' - ez) | Z.neg _ => 0 end).
  assert (0 <= num /\ digits num = d1 + (e - e' - ez)) as [Hnum Hdn].
  { subst num. destruct (e - e' - ez) as [|s|s] eqn:E; [|split; [by apply Z.shiftl_nonneg|by apply digits_shiftl]|lia].
    split; [done|]. by rewrite Z.add_0_r. }
  pose proof (Z.div_eucl_eq num (Z.pos m') ltac:(done)) as Hde. pose proof (digits_div num (Z.pos m') Hnum ltac:(done)) as Hdd.
  unfold Z.div in Hdd. pose proof (Z.div_pos num (Z.pos m') Hnum ltac:(done)) as Hq. unfold Z.div in Hq.
  destruct (Z.div_eucl num (Z.pos m')) as [q r]. fold d2 in Hdd. apply binary_round_aux_sized; lia.
Qed.

Lemma round_below k x : below k x -> 0 <= k < 900 -> below (k + 3) (f64_round x).
Proof.
  intros Hx Hk. destruct x as [|s| |s m e]; try done. destruct Hx as (-> & He & Hd).
  cbn [f64_round]. destruct (Z.leb_spec 0 e); [split_and!; [done|done|lia]|].
  set (n := (Z.pos m + 2 ^ (- e - 1)) / 2 ^ (- e)).
  assert (0 <= n) by (apply Z.div_pos; [|apply Z.pow_pos_nonneg]; pose proof (Z.pow_pos_nonneg 2 (- e - 1)); lia).
  destruct (Z.eqb_spec n 0); [done|].
  assert (n < 2 ^ (k + 2)) as Hn.
  { apply Z.div_lt_upper_bound; [apply Z.pow_pos_nonneg; lia|].
    destruct (digits_pow (Z.pos m) ltac:(done)) as [_ Hm].
    assert (2 ^ digits (Z.pos m) <= 2 ^ (- e + k)) by (apply Z.pow_le_mono_r; lia).
    assert (2 ^ (- e - 1) <= 2 ^ (- e + k)) by (apply Z.pow_le_mono_r; lia).
    replace (2 ^ (- e) * 2 ^ (k + 2)) with (4 * 2 ^ (- e + k)) by (rewrite !Z.pow_add_r by lia; change (2 ^ 2) with 4; ring).
    lia. }
  replace (k + 3) with ((k + 2) + 1) by lia. by apply of_Z_below; [|lia|].
Qed.

Lemma min_below k x y : below k x -> below k y -> below k (f64_min x y).
Proof. intros Hx Hy. destruct x, y; try done; unfold f64_min; by case_match. Qed.

(** The sum of two integers, when it is positive. *)
Lemma add_at_least_1 x y :
  (x = f64_zero \/ at_least_1 x) -> (y = f64_zero \/ at_least_1 y) -> below 900 x -> below 900 y ->
  f64_gt (f64_add x y) f64_zero = true -> at_least_1 (f64_add x y).
Proof.
  intros [->|Hx] [->|Hy] Hbx Hby Hgt; [done|by destruct y|by destruct x|].
  destruct x as [| | |s m e]; try done; destruct y as [| | |s' m' e']; try done.
  destruct Hx as (-> & He & Hd), Hy as (-> & He' & Hd'), Hbx as (_ & _ & Hb), Hby as (_ & _ & Hb').
  unfold f64_add, SFadd. cbn zeta. set (ez := Z.min e e').
  destruct (shl_align_down m e ez) as [Ha _]; [lia|]. destruct (shl_align_down m' e' ez) as [Ha' _]; [lia|].
  cbn [cond_Zopp]. destruct (shl_align m e ez) as [p ?], (shl_align m' e' ez) as [p' ?]. cbn [fst] in *.
  change (Z.pos p + Z.pos p') with (Z.pos (p + p')). cbn [binary_normalize].
  pose proof (digits_mono (Z.pos p) (Z.pos (p + p'))) as Hm. pose proof (digits_add (Z.pos p) (Z.pos p')) as Hs.
  change (Z.pos p + Z.pos p') with (Z.pos (p + p')) in Hs.
  apply (binary_round_sized (p + p') ez 901); lia.
Qed.
