(* ===== verification/Json.v ===== *)
(** * JSON texts: the reference the dashboard's output is checked against

    Trees, their text, and a reader of the grammar of RFC 8259 (without white space,
    exponents and string escapes, which the program does not write). The program prints
    JSON by hand; [MetricsJson] shows that this reader reads what it prints. *)
From S2P Require Import Prelude.
From S2P Require Import RustStd.
From S2P Require Import F64.
From S2P Require Import F64Bounds.

(** ** Trees and texts *)

Inductive Json :=
  | JNum (text : bytes)
  | JStr (s : bytes)
  | JArr (l : list Json)
  | JObj (l : list (bytes * Json)).

Definition DQ : ascii := byte_of 34.
Definition quoted (s : bytes) : bytes := DQ :: s ++ [DQ].

(** Texts separated by commas. *)
Fixpoint commas (l : list bytes) : bytes :=
  match l with
  | [] => []
  | [x] => x
  | x :: l' => x ++ ","%char :: commas l'
  end.

Fixpoint render (j : Json) : bytes :=
  match j with
  | JNum t => t
  | JStr s => quoted s
  | JArr l => "["%char :: commas (map render l) ++ ["]"%char]
  | JObj l => "{"%char :: commas (map (fun kv => quoted kv.1 ++ ":"%char :: render kv.2) l) ++ ["}"%char]
  end.

(** ** The reader *)

(** Numbers: an optional minus, an integer part without superfluous zeros, an optional
    fraction. *)
Definition all_digits (s : bytes) : bool := forallb is_digit s.
Definition is_int (s : bytes) : bool :=
  match s with
  | [] => false
  | [c] => is_digit c
  | c :: s' => is_digit c && negb (Ascii.eqb c "0") && all_digits s'
  end.

(** The text before the first [c], and the text after it. *)
Fixpoint cut (c : ascii) (s : bytes) : option (bytes * bytes) :=
  match s with
  | [] => None
  | x :: s' => if Ascii.eqb x c then Some ([], s') else '(a, b) ← cut c s'; Some (x :: a, b)
  end.

Definition is_unsigned (s : bytes) : bool :=
  match cut "." s with
  | None => is_int s
  | Some (i, f) => is_int i && all_digits f && negb (bool_decide (f = []))
  end.
Definition is_number (s : bytes) : bool :=
  match s with
  | c :: s' => if Ascii.eqb c "-" then is_unsigned s' else is_unsigned s
  | [] => false
  end.

Definition number_char (c : ascii) : bool := is_digit c || Ascii.eqb c "-" || Ascii.eqb c ".".

(** The longest prefix of characters that satisfy [p], and the rest. *)
Fixpoint span (p : ascii -> bool) (s : bytes) : bytes * bytes :=
  match s with
  | c :: s' => if p c then let '(a, b) := span p s' in (c :: a, b) else ([], s)
  | [] => ([], [])
  end.

(** The characters a string may hold as they are. *)
Definition plain (c : ascii) : bool := negb (Ascii.eqb c DQ) && negb (Ascii.eqb c "\") && (32 <=? u8 c).

Definition expect (c : ascii) (s : bytes) : option bytes :=
  match s with x :: s' => if Ascii.eqb x c then Some s' else None | [] => None end.

Definition read_string (s : bytes) : option (bytes * bytes) :=
  s ← expect DQ s;
  '(t, rest) ← cut DQ s;
  if forallb plain t then Some (t, rest) else None.

Section items.
Context {A : Type} (item : bytes -> option (A * bytes)) (close : ascii).

(** At least one item, separated by commas, then [close]. *)
Fixpoint read_items (fuel : nat) (s : bytes) : option (list A * bytes) :=
  match fuel with
  | O => None
  | S fuel' =>
    '(x, rest) ← item s;
    match rest with
    | c :: rest' =>
      if Ascii.eqb c close then Some ([x], rest')
      else if Ascii.eqb c "," then '(xs, rest'') ← read_items fuel' rest'; Some (x :: xs, rest'')
      else None
    | [] => None
    end
  end.

Definition read_list (fuel : nat) (s : bytes) : option (list A * bytes) :=
  match expect close s with
  | Some rest => Some ([], rest)
  | None => read_items fuel s
  end.
End items.

Definition read_member (value : bytes -> option (Json * bytes)) (s : bytes) : option ((bytes * Json) * bytes) :=
  '(k, s) ← read_string s;
  s ← expect ":" s;
  '(v, s) ← value s;
  Some ((k, v), s).

Fixpoint read_value (fuel : nat) (s : bytes) : option (Json * bytes) :=
  match fuel with
  | O => None
  | S fuel' =>
    match s with
    | [] => None
    | c :: s' =>
      if Ascii.eqb c "{" then '(l, s) ← read_list (read_member (read_value fuel')) "}" fuel' s'; Some (JObj l, s)
      else if Ascii.eqb c "[" then '(l, s) ← read_list (read_value fuel') "]" fuel' s'; Some (JArr l, s)
      else if Ascii.eqb c DQ then '(t, s) ← read_string s; Some (JStr t, s)
      else let '(t, rest) := span number_char s in if is_number t then Some (JNum t, rest) else None
    end
  end.

(** A JSON text: one value and nothing else. Every level of nesting and every item takes a
    character. *)
Definition read_json (s : bytes) : option Json :=
  match read_value (S (length s)) s with Some (j, []) => Some j | _ => None end.

(** ** Round trip *)

(** The trees that have a text: numbers and strings are as the grammar wants them. *)
Fixpoint json_ok (j : Json) : bool :=
  match j with
  | JNum t => is_number t
  | JStr s => forallb plain s
  | JArr l => forallb json_ok l
  | JObj l => forallb (fun kv => forallb plain kv.1 && json_ok kv.2) l
  end.

Fixpoint Json_nested_ind (P : Json -> Prop) (Hnum : forall t, P (JNum t)) (Hstr : forall s, P (JStr s))
    (Harr : forall l, Forall P l -> P (JArr l)) (Hobj : forall l, Forall (fun kv => P kv.2) l -> P (JObj l))
    (j : Json) : P j :=
  match j with
  | JNum t => Hnum t
  | JStr s => Hstr s
  | JArr l => Harr l ((fix go l := match l return Forall P l with
      | [] => Forall_nil_2 P | x :: l' => Forall_cons_2 P x l' (Json_nested_ind P Hnum Hstr Harr Hobj x) (go l') end) l)
  | JObj l => Hobj l ((fix go l := match l return Forall (fun kv => P kv.2) l with
      | [] => Forall_nil_2 _
      | x :: l' => Forall_cons_2 (fun kv => P kv.2) x l' (Json_nested_ind P Hnum Hstr Harr Hobj x.2) (go l') end) l)
  end.

(** What may follow a value: not a character that would continue a number. *)
Definition stops (rest : bytes) : Prop := match rest with c :: _ => number_char c = false | [] => True end.

Lemma cut_app c s rest : forallb (fun x => negb (Ascii.eqb x c)) s = true -> cut c (s ++ c :: rest) = Some (s, rest).
Proof.
  induction s as [|x s IH]; cbn [app cut forallb]; [by rewrite Ascii.eqb_refl|].
  intros [Hx Hs]%andb_true_iff. rewrite (proj1 (negb_true_iff _) Hx). by rewrite (IH Hs).
Qed.

Lemma cut_None c s : forallb (fun x => negb (Ascii.eqb x c)) s = true -> cut c s = None.
Proof.
  induction s as [|x s IH]; cbn [cut forallb]; [done|]. intros [Hx Hs]%andb_true_iff.
  rewrite (proj1 (negb_true_iff _) Hx). by rewrite (IH Hs).
Qed.

Lemma forallb_weaken {A} (p q : A -> bool) l :
  (forall x, p x = true -> q x = true) -> forallb p l = true -> forallb q l = true.
Proof. intros Hpq. rewrite !forallb_forall. eauto. Qed.

Lemma read_string_quoted s rest : forallb plain s = true -> read_string (quoted s ++ rest) = Some (s, rest).
Proof.
  intros Hs. unfold read_string, quoted. cbn [app expect]. rewrite Ascii.eqb_refl. cbn [mbind option_bind].
  rewrite <- app_assoc. cbn [app]. rewrite cut_app; [by cbn; rewrite Hs|].
  apply (forallb_weaken plain); [|done]. intros x [[? _]%andb_true_iff _]%andb_true_iff. done.
Qed.

Lemma span_app p s rest : forallb p s = true -> match rest with c :: _ => p c = false | [] => True end ->
  span p (s ++ rest) = (s, rest).
Proof.
  intros Hs Hr. induction s as [|x s IH]; cbn [app span].
  - destruct rest as [|c rest]; [done|]. cbn. by rewrite Hr.
  - cbn in Hs. apply andb_true_iff in Hs as [Hx Hs]. by rewrite Hx, (IH Hs).
Qed.

Lemma is_digit_number c : is_digit c = true -> number_char c = true.
Proof. intros Hc. unfold number_char. by rewrite Hc. Qed.

Lemma is_int_digits s : is_int s = true -> forallb is_digit s = true.
Proof.
  destruct s as [|c [|d s]]; [done|cbn; by intros ->|]. cbn [is_int forallb].
  intros [[-> _]%andb_true_iff H]%andb_true_iff. exact H.
Qed.

Lemma cut_Some c s a b : cut c s = Some (a, b) -> s = a ++ c :: b.
Proof.
  revert a b. induction s as [|x s IH]; cbn [cut]; [done|]. intros a b.
  destruct (Ascii.eqb_spec x c) as [->|]; [by intros [= <- <-]|].
  destruct (cut c s) as [[a' b']|]; cbn; [|done]. intros [= <- <-]. by rewrite (IH a' b').
Qed.

Lemma is_unsigned_chars s : is_unsigned s = true -> forallb number_char s = true.
Proof.
  unfold is_unsigned. destruct (cut "." s) as [[i f]|] eqn:E.
  - intros [[Hi Hf]%andb_true_iff _]%andb_true_iff. rewrite (cut_Some _ _ _ _ E), forallb_app. cbn.
    by rewrite (forallb_weaken _ _ _ is_digit_number (is_int_digits _ Hi)), (forallb_weaken _ _ _ is_digit_number Hf).
  - intros Hi. exact (forallb_weaken _ _ _ is_digit_number (is_int_digits _ Hi)).
Qed.

Lemma is_number_chars s : is_number s = true -> forallb number_char s = true.
Proof.
  destruct s as [|c s]; [done|]. cbn [is_number]. destruct (Ascii.eqb_spec c "-") as [->|]; [|apply is_unsigned_chars].
  intros Hs. cbn. by apply is_unsigned_chars.
Qed.

(** What a value's text starts with, which is how the reader chooses. *)
Lemma number_char_first c : number_char c = true ->
  Ascii.eqb c "{" = false /\ Ascii.eqb c "[" = false /\ Ascii.eqb c DQ = false
  /\ Ascii.eqb c "]" = false /\ Ascii.eqb c "," = false /\ Ascii.eqb c "}" = false.
Proof. destruct c as [[] [] [] [] [] [] [] []]; cbn; done. Qed.

Lemma read_value_number fuel t rest : is_number t = true -> stops rest ->
  read_value (S fuel) (t ++ rest) = Some (JNum t, rest).
Proof.
  intros Ht Hr. pose proof (is_number_chars _ Ht) as Hc. cbn [read_value].
  destruct t as [|c t]; [done|]. cbn [app]. cbn [forallb] in Hc. apply andb_true_iff in Hc as [Hc0 Hc].
  destruct (number_char_first c Hc0) as (-> & -> & -> & _).
  change (c :: t ++ rest) with ((c :: t) ++ rest). rewrite span_app; [by rewrite Ht|cbn; by rewrite Hc0|done].
Qed.

Section items_spec.
Context {A : Type} (item : bytes -> option (A * bytes)) (close : ascii) (text : A -> bytes).
Context (Hclose : Ascii.eqb "," close = false).

Lemma read_items_commas l : l <> [] -> forall fuel rest, (length l <= fuel)%nat ->
  (forall x r, x ∈ l -> match r with c :: _ => c = close \/ c = ","%char | [] => False end ->
    item (text x ++ r) = Some (x, r)) ->
  read_items item close fuel (commas (map text l) ++ close :: rest) = Some (l, rest).
Proof.
  induction l as [|x l IH]; [done|]. intros _ fuel rest Hf Hi. destruct fuel as [|fuel]; [cbn in Hf; lia|].
  cbn [read_items map]. destruct l as [|y l].
  - cbn [map commas]. rewrite Hi; [|set_solver|by left]. cbn. by rewrite Ascii.eqb_refl.
  - change (commas (text x :: map text (y :: l))) with (text x ++ ","%char :: commas (map text (y :: l))).
    rewrite <- app_assoc. cbn [app]. rewrite Hi; [|set_solver|by right]. cbn [mbind option_bind].
    rewrite Hclose. cbn [Ascii.eqb Bool.eqb].
    change (Ascii.eqb "," ",") with true. cbn iota.
    rewrite IH; [done|done|cbn in *; lia|]. intros z r Hz. apply Hi. set_solver.
Qed.

Lemma read_list_commas l fuel rest : (length l <= fuel)%nat ->
  (forall x c r, x ∈ l -> text x = c :: r -> Ascii.eqb c close = false) -> (forall x, x ∈ l -> text x <> []) ->
  (forall x r, x ∈ l -> match r with c :: _ => c = close \/ c = ","%char | [] => False end ->
    item (text x ++ r) = Some (x, r)) ->
  read_list item close fuel (commas (map text l) ++ close :: rest) = Some (l, rest).
Proof.
  intros Hf Hne Hne' Hi. unfold read_list. destruct l as [|x l].
  - cbn. by rewrite Ascii.eqb_refl.
  - assert (expect close (commas (map text (x :: l)) ++ close :: rest) = None) as ->.
    { destruct (text x) as [|c r] eqn:E; [by destruct (Hne' x ltac:(set_solver))|].
      pose proof (Hne x c r ltac:(set_solver) E) as Hc.
      cbn [map]. rewrite E. destruct l; cbn [map commas app expect]; by rewrite Hc. }
    by apply read_items_commas.
Qed.
End items_spec.

Lemma commas_length_elem l x : x ∈ l -> (length x <= length (commas l))%nat.
Proof.
  induction l as [|y l IH]; [by intros ?%not_elem_of_nil|]. intros [->|Hx]%elem_of_cons.
  - destruct l; cbn [commas]; rewrite ?length_app; cbn; lia.
  - specialize (IH Hx). destruct l as [|z l]; [by apply not_elem_of_nil in Hx|].
    change (commas (y :: z :: l)) with (y ++ ","%char :: commas (z :: l)). rewrite length_app. cbn [length]. lia.
Qed.

Lemma commas_length_map {A} (f : A -> bytes) l x : x ∈ l -> (length (f x) <= length (commas (map f l)))%nat.
Proof. intros Hx. apply commas_length_elem. exact (list_elem_of_fmap_2 f l x Hx). Qed.

Lemma commas_length l : Forall (fun x => x <> []) l -> (length l <= length (commas l))%nat.
Proof.
  induction 1 as [|y l Hy _ IH]; [done|]. assert (0 < length y)%nat by (destruct y; cbn; done || lia).
  destruct l as [|z l]; [cbn; lia|].
  change (commas (y :: z :: l)) with (y ++ ","%char :: commas (z :: l)). rewrite length_app. cbn [length] in *. lia.
Qed.

(** The text of a tree is never empty and never starts with a closing bracket. *)
Lemma render_first j : json_ok j = true ->
  exists c s, render j = c :: s /\ Ascii.eqb c "]" = false /\ Ascii.eqb c "}" = false.
Proof.
  destruct j as [t|s|l|l]; cbn [json_ok render quoted]; [|intros _; by eexists _, _..].
  intros Ht. pose proof (is_number_chars _ Ht) as Hc. destruct t as [|c t]; [done|]. cbn in Hc.
  apply andb_true_iff in Hc as [Hc _]. apply number_char_first in Hc as (_ & _ & _ & ? & _ & ?). by eexists _, _.
Qed.

Definition member (kv : bytes * Json) : bytes := quoted kv.1 ++ ":"%char :: render kv.2.

Lemma read_member_member fuel k v r : forallb plain k = true ->
  read_value fuel (render v ++ r) = Some (v, r) ->
  read_member (read_value fuel) (member (k, v) ++ r) = Some ((k, v), r).
Proof.
  intros Hk Hv. unfold read_member, member. cbn [fst snd]. rewrite <- app_assoc, read_string_quoted by done.
  cbn [mbind option_bind app expect]. rewrite Ascii.eqb_refl. cbn [mbind option_bind]. by rewrite Hv.
Qed.

Lemma closer_stops (close : ascii) r : number_char close = false ->
  match r with c :: _ => c = close \/ c = ","%char | [] => False end -> stops r.
Proof. intros Hc. destruct r as [|c r]; [done|]. by intros [->| ->]. Qed.

Lemma read_value_render j : json_ok j = true -> forall fuel rest, stops rest ->
  (length (render j) <= fuel)%nat -> read_value fuel (render j ++ rest) = Some (j, rest).
Proof.
  induction j as [t|s|l IH|l IH] using Json_nested_ind; intros Hok fuel rest Hr Hf.
  - destruct (render_first _ Hok) as (c & s & E & _). destruct fuel; [by rewrite E in Hf; cbn in Hf; lia|].
    by apply read_value_number.
  - destruct fuel; [cbn in Hf; lia|]. cbn [read_value render]. cbn [app quoted].
    change (Ascii.eqb DQ "{") with false. change (Ascii.eqb DQ "[") with false. cbn iota. rewrite Ascii.eqb_refl.
    change (DQ :: (s ++ [DQ]) ++ rest) with (quoted s ++ rest). by rewrite read_string_quoted.
  - destruct fuel; [cbn in Hf; lia|]. cbn [json_ok] in Hok. rewrite forallb_forall in Hok.
    assert (forall x, x ∈ l -> json_ok x = true) as Hok' by (intros x Hx; by apply Hok, list_elem_of_In).
    cbn [render] in Hf |- *. cbn [length] in Hf. rewrite length_app in Hf. cbn [length] in Hf.
    cbn [read_value app]. cbn [Ascii.eqb Bool.eqb]. change (Ascii.eqb "[" "{") with false.
    change (Ascii.eqb "[" "[") with true. cbn iota. rewrite <- app_assoc. cbn [app].
    rewrite (read_list_commas _ "]" render); [done|done| | | |].
    + rewrite <- (length_map render l). etransitivity; [apply commas_length|lia].
      apply Forall_fmap, Forall_forall. intros x Hx. cbn. by destruct (render_first _ (Hok' x Hx)) as (? & ? & -> & _).
    + intros x c r Hx E. destruct (render_first _ (Hok' x Hx)) as (? & ? & E' & ? & _). by rewrite E' in E; simplify_eq.
    + intros x Hx E. destruct (render_first _ (Hok' x Hx)) as (? & ? & E' & _). by rewrite E' in E.
    + intros x r Hx Hc. rewrite Forall_forall in IH. apply (IH x Hx); [by apply Hok'|by apply (closer_stops "]")|].
      pose proof (commas_length_map render _ _ Hx). lia.
  - destruct fuel; [cbn in Hf; lia|]. cbn [json_ok] in Hok. rewrite forallb_forall in Hok.
    assert (forall x, x ∈ l -> forallb plain x.1 = true /\ json_ok x.2 = true) as Hok'
      by (intros x Hx; by apply andb_true_iff, Hok, list_elem_of_In).
    change (render (JObj l)) with ("{"%char :: commas (map member l) ++ ["}"%char]) in Hf |- *.
    cbn [length] in Hf. rewrite length_app in Hf. cbn [length] in Hf.
    cbn [read_value app]. change (Ascii.eqb "{" "{") with true. cbn iota. rewrite <- app_assoc. cbn [app].
    rewrite (read_list_commas _ "}" member); [done|done| | | |].
    + rewrite <- (length_map member l). etransitivity; [apply commas_length|lia].
      apply Forall_fmap, Forall_forall. intros x Hx. done.
    + intros x c r Hx [= <- _]. done.
    + done.
    + intros [k v] r Hx Hc. destruct (Hok' _ Hx) as [Hk Hv]. apply read_member_member; [done|].
      rewrite Forall_forall in IH. apply (IH _ Hx); [done|by apply (closer_stops "}")|].
      pose proof (commas_length_map member _ _ Hx) as Hl.
      unfold member in Hl at 1. cbn [fst snd] in *. rewrite length_app in Hl. cbn [length] in Hl. lia.
Qed.

(** The reader reads back the text of every tree that has one. *)
Lemma read_json_render j : json_ok j = true -> read_json (render j) = Some j.
Proof.
  intros Hok. unfold read_json. rewrite <- (app_nil_r (render j)) at 2.
  by rewrite read_value_render; [|done|done|lia].
Qed.

(** ** The numbers the program prints are JSON numbers *)

Lemma digit_char_zero d : 0 <= d < 10 -> Ascii.eqb (digit_char d) "0" = true -> d = 0.
Proof.
  intros Hd E%Ascii.eqb_eq. destruct (digit_char_spec d Hd) as [_ Hv]. rewrite E in Hv. by vm_compute in Hv.
Qed.

Lemma show_aux_first fuel n acc : 0 < n < 2 ^ Z.of_nat fuel ->
  exists c s, show_aux fuel n acc = c :: s /\ Ascii.eqb c "0" = false.
Proof.
  revert n acc. induction fuel as [|f IH]; intros n acc Hn; [change (2 ^ Z.of_nat 0) with 1 in Hn; lia|].
  cbn [show_aux]. rewrite Nat2Z.inj_succ, Z.pow_succ_r in Hn by lia. destruct (Z.ltb_spec n 10).
  - eexists _, _. split; [done|]. apply not_true_is_false. intros E%digit_char_zero.
    + rewrite Z.mod_small in E by lia. lia.
    + apply Z.mod_pos_bound. lia.
  - apply IH. split; [apply Z.div_str_pos; lia|apply Z.div_lt_upper_bound; lia].
Qed.

Lemma forallb_Forall (p : ascii -> bool) s : Forall p s -> forallb p s = true.
Proof. induction 1 as [|c s Hc _ IH]; [done|]. cbn. by rewrite IH, (Is_true_eq_true _ Hc). Qed.

Lemma is_int_show_uint n : 0 <= n -> is_int (show_uint n) = true.
Proof.
  intros Hn. destruct (decide (n = 0)) as [->|]; [done|].
  pose proof (forallb_Forall _ _ (show_uint_digits n)) as Hd.
  destruct (show_aux_first (S (Z.to_nat (Z.log2 n))) n []) as (c & s & E & Hc).
  { rewrite Nat2Z.inj_succ, Z2Nat.id by apply Z.log2_nonneg. pose proof (Z.log2_spec n). lia. }
  change (show_uint n = c :: s) in E. rewrite E in *. cbn [forallb] in Hd. apply andb_true_iff in Hd as [Hc' Hs].
  unfold is_int. rewrite Hc', Hc. by destruct s.
Qed.

Lemma digits_no (c : ascii) s : is_digit c = false -> forallb is_digit s = true ->
  forallb (fun x => negb (Ascii.eqb x c)) s = true.
Proof.
  intros Hc. apply forallb_weaken. intros x Hx. apply negb_true_iff. destruct (Ascii.eqb_spec x c) as [->|]; congruence.
Qed.

Lemma is_number_unsigned s : is_unsigned s = true -> forall c r, s = c :: r -> is_digit c = true -> is_number s = true.
Proof.
  intros Hs c r -> Hc. cbn [is_number]. destruct (Ascii.eqb_spec c "-") as [->|]; [done|exact Hs].
Qed.

Lemma is_unsigned_show_uint n : 0 <= n -> is_unsigned (show_uint n) = true.
Proof.
  intros Hn. unfold is_unsigned. rewrite cut_None by (apply digits_no; [done|apply is_int_digits, is_int_show_uint, Hn]).
  by apply is_int_show_uint.
Qed.

Lemma is_number_show_uint n : 0 <= n -> is_number (show_uint n) = true.
Proof.
  intros Hn. destruct (show_uint_cons n) as (c & s & E & Hc).
  exact (is_number_unsigned _ (is_unsigned_show_uint n Hn) _ _ E Hc).
Qed.

Lemma is_number_show_i64 z : is_number (show_i64 z) = true.
Proof.
  unfold show_i64. destruct (Z.ltb_spec z 0); [|by apply is_number_show_uint].
  cbn [is_number]. by apply is_unsigned_show_uint; lia.
Qed.

(** [point q] of [show_fixed]: an integer part, a point, and at least one decimal. *)
Lemma is_unsigned_point d q : 0 <= q ->
  is_unsigned (show_uint (q / 10 ^ Z.of_nat d) ++ bs "." ++ pad_zeros d (show_uint (q mod 10 ^ Z.of_nat d))) = true.
Proof.
  intros Hq. assert (0 < 10 ^ Z.of_nat d) by lia.
  pose proof (Z.div_pos q (10 ^ Z.of_nat d)). pose proof (Z.mod_pos_bound q (10 ^ Z.of_nat d)).
  unfold is_unsigned. change (bs ".") with ["."%char]. cbn [app].
  rewrite cut_app by (apply digits_no; [done|apply is_int_digits, is_int_show_uint; lia]).
  rewrite is_int_show_uint by lia. cbn [andb]. apply andb_true_iff. split.
  - unfold all_digits, pad_zeros. rewrite forallb_app, (forallb_Forall _ _ (show_uint_digits _)), andb_true_r.
    generalize (d - length (show_uint (q mod 10 ^ Z.of_nat d)))%nat as k. intros k.
    induction k as [|k IH]; [done|]. exact IH.
  - apply negb_true_iff, bool_decide_eq_false. unfold pad_zeros. intros [_ E]%app_eq_nil.
    destruct (show_uint_cons (q mod 10 ^ Z.of_nat d)) as (c & s & E' & _). by rewrite E' in E.
Qed.

(** A float that is finite and not negative (or a zero of either sign) prints as a number. *)
Lemma is_number_show_fixed d k x : below k x -> is_number (show_fixed d x) = true.
Proof.
  intros Hx. assert (forall q, 0 <= q -> is_number (show_uint (q / 10 ^ Z.of_nat d) ++ bs "." ++
      pad_zeros d (show_uint (q mod 10 ^ Z.of_nat d))) = true) as Hp.
  { intros q Hq. destruct (show_uint_cons (q / 10 ^ Z.of_nat d)) as (c & s & E & Hc).
    eapply (is_number_unsigned _ (is_unsigned_point d q Hq)); [rewrite E; cbn [app]; done|exact Hc]. }
  unfold show_fixed. destruct x as [s| | |s m e]; [|done|done|].
  - destruct s; [|by apply Hp]. change (bs "-") with ["-"%char]. cbn [app is_number].
    change (Ascii.eqb "-" "-") with true. cbn iota. by apply is_unsigned_point.
  - destruct Hx as (-> & _). cbn [app]. apply Hp. set (num := Z.pos m * 10 ^ Z.of_nat d).
    assert (0 <= num) by (unfold num; lia). destruct (Z.leb_spec 0 e); [apply Z.mul_nonneg_nonneg; lia|].
    assert (0 < 2 ^ (- e)) by lia. pose proof (Z.div_pos num (2 ^ (- e))).
    destruct ((2 ^ (- e) <? 2 * (num mod 2 ^ (- e))) || _); lia.
Qed.

(** ** The text of a tree is one line *)

Definition printable (c : ascii) : bool := 32 <=? u8 c.

Lemma plain_printable c : plain c = true -> printable c = true.
Proof. unfold plain. by intros [_ H]%andb_true_iff. Qed.
Lemma number_char_printable c : number_char c = true -> printable c = true.
Proof. by destruct c as [[] [] [] [] [] [] [] []]. Qed.

Lemma commas_printable l : Forall (fun x => forallb printable x = true) l -> forallb printable (commas l) = true.
Proof.
  induction 1 as [|x l Hx Hl IH]; [done|]. destruct l as [|y l]; [done|].
  change (commas (x :: y :: l)) with (x ++ ","%char :: commas (y :: l)). rewrite forallb_app, Hx. exact IH.
Qed.

Lemma quoted_printable s : forallb plain s = true -> forallb printable (quoted s) = true.
Proof. intros Hs. unfold quoted. cbn. rewrite forallb_app. by rewrite (forallb_weaken _ _ _ plain_printable Hs). Qed.

Lemma render_printable j : json_ok j = true -> forallb printable (render j) = true.
Proof.
  induction j as [t|s|l IH|l IH] using Json_nested_ind; cbn [json_ok render].
  - intros Ht. exact (forallb_weaken _ _ _ number_char_printable (is_number_chars _ Ht)).
  - apply quoted_printable.
  - intros Hok. cbn [forallb]. rewrite forallb_app, commas_printable; [done|].
    apply Forall_fmap, Forall_forall. intros x Hx. cbn. rewrite Forall_forall in IH. apply (IH x Hx).
    rewrite forallb_forall in Hok. by apply Hok, list_elem_of_In.
  - intros Hok. cbn [forallb]. rewrite forallb_app, commas_printable; [done|].
    apply Forall_fmap, Forall_forall. intros [k v] Hx. cbn [compose fst snd]. rewrite Forall_forall in IH.
    rewrite forallb_forall in Hok. destruct (andb_prop _ _ (Hok (k, v) (proj1 (list_elem_of_In _ _) Hx))) as [Hk Hv].
    change (forallb printable (quoted k ++ ":"%char :: render v) = true).
    rewrite forallb_app, quoted_printable by done. by apply (IH _ Hx).
Qed.
