(* ===== verification/Metrics.v ===== *)
(** * The metrics engine: [src/src/metrics.rs]

    Counters, the ring of recent latencies and its percentiles, client tracking, the
    one-second sampler with its history ring, and the [INFO] text. Counters are atomics of
    64 bits and wrap. *)
From stdpp Require Import sorting.
From S2P Require Import Prelude.
From S2P Require Import RustStd.
From S2P Require Import F64.

Definition LATENCY_BUFFER_SIZE : nat := 2048.
Definition HISTORY_CAPACITY : nat := 60.

(** ** Data *)

Record HistoryPoint := mkHistoryPoint {
  timestamp_sec : Z;
  hp_hit_ratio : f64;
  hp_miss_ratio : f64;
  hp_ops_per_sec : Z;
  avg_latency_us : f64;
  p95_latency_us : Z;
  p99_latency_us : Z;
  memory_cache_bytes : Z;
  memory_rss_bytes : Z;
  hp_cpu_percent : f64;
  hp_connected_clients : Z;
  hp_evicted_keys : Z;
  hp_expired_keys : Z;
}.

Record LatencyStats := mkLatencyStats {
  min_us : Z; max_us : Z; avg_us : f64; p50_us : Z; p95_us : Z; p99_us : Z;
}.

Definition LatencyStats_default : LatencyStats := mkLatencyStats 0 0 f64_zero 0 0 0.

Record Metrics := mkMetrics {
  hits : Z;
  misses : Z;
  total_commands : Z;
  ops_per_sec : Z;
  total_latency_us : Z;
  latency_count : Z;
  recent_latencies : list Z;
  connected_clients : Z;
  peak_clients : Z;
  total_connections : Z;
  connection_errors : Z;
  evicted_keys : Z;
  expired_keys : Z;
  cpu_percent_scaled : Z;
  rss_memory_bytes : Z;
  history : list HistoryPoint;
  m_start_time : Z;
  last_tick_time : Z;
  last_total_commands : Z;
  last_cpu_jiffies : Z;
}.

(** [Metrics::new], at time [now], with what [/proc/self/stat] says. *)
Definition Metrics_new (now : Z) (jiffies : option Z) : Metrics :=
  mkMetrics 0 0 0 0 0 0 [] 0 0 0 0 0 0 0 0 [] now now 0
    (match jiffies with Some j => j | None => 0 end).

(** ** Counters *)

Definition record_hit (m : Metrics) : Metrics :=
  let '(mkMetrics h mi tc os tl lc rl cc pc tn ce ev ex cp rs hi st lt lm lj) := m in
  mkMetrics (wrap_u64 (h + 1)) mi tc os tl lc rl cc pc tn ce ev ex cp rs hi st lt lm lj.

Definition record_miss (m : Metrics) : Metrics :=
  let '(mkMetrics h mi tc os tl lc rl cc pc tn ce ev ex cp rs hi st lt lm lj) := m in
  mkMetrics h (wrap_u64 (mi + 1)) tc os tl lc rl cc pc tn ce ev ex cp rs hi st lt lm lj.

Definition record_connection_error (m : Metrics) : Metrics :=
  let '(mkMetrics h mi tc os tl lc rl cc pc tn ce ev ex cp rs hi st lt lm lj) := m in
  mkMetrics h mi tc os tl lc rl cc pc tn (wrap_u64 (ce + 1)) ev ex cp rs hi st lt lm lj.

Definition record_eviction (count : Z) (m : Metrics) : Metrics :=
  let '(mkMetrics h mi tc os tl lc rl cc pc tn ce ev ex cp rs hi st lt lm lj) := m in
  mkMetrics h mi tc os tl lc rl cc pc tn ce (wrap_u64 (ev + count)) ex cp rs hi st lt lm lj.

Definition record_expiration (count : Z) (m : Metrics) : Metrics :=
  let '(mkMetrics h mi tc os tl lc rl cc pc tn ce ev ex cp rs hi st lt lm lj) := m in
  mkMetrics h mi tc os tl lc rl cc pc tn ce ev (wrap_u64 (ex + count)) cp rs hi st lt lm lj.

(** ** Hit and miss ratios *)

Definition ratio_of (part h m : f64) : f64 :=
  let total := f64_add h m in
  if f64_gt total f64_zero then f64_mul (f64_div part total) (f64_of_Z 100) else f64_zero.

Definition hit_ratio (m : Metrics) : f64 :=
  ratio_of (f64_of_Z (hits m)) (f64_of_Z (hits m)) (f64_of_Z (misses m)).
Definition miss_ratio (m : Metrics) : f64 :=
  ratio_of (f64_of_Z (misses m)) (f64_of_Z (hits m)) (f64_of_Z (misses m)).

(** ** Commands and latencies *)

(** [VecDeque::push_back] on a ring of at most [cap] elements. *)
Definition push_ring {A} (cap : nat) (x : A) (l : list A) : list A :=
  (if (cap <=? length l)%nat then tail l else l) ++ [x].

Definition record_command (duration_us : Z) (m : Metrics) : Metrics :=
  let '(mkMetrics h mi tc os tl lc rl cc pc tn ce ev ex cp rs hi st lt lm lj) := m in
  mkMetrics h mi (wrap_u64 (tc + 1)) os (wrap_u64 (tl + duration_us)) (wrap_u64 (lc + 1))
    (push_ring LATENCY_BUFFER_SIZE duration_us rl) cc pc tn ce ev ex cp rs hi st lt lm lj.

(** [Metrics::latency_stats]; [None] is the panic of an index out of bounds. The sum of the
    samples is a [u64] sum. *)
Definition latency_stats (m : Metrics) : option LatencyStats :=
  match recent_latencies m with
  | [] => Some LatencyStats_default
  | buf =>
    let samples := merge_sort Z.le buf in
    let count := length samples in
    min ← samples !! 0%nat;
    max ← samples !! (count - 1)%nat;
    p50 ← samples !! (count * 50 / 100)%nat;
    p95 ← samples !! (count * 95 / 100)%nat;
    p99 ← samples !! (count * 99 / 100)%nat;
    let sum := wrap_u64 (sumZ samples) in
    Some (mkLatencyStats min max (f64_div (f64_of_Z sum) (f64_of_Z (Z.of_nat count))) p50 p95 p99)
  end.

(** ** Clients *)

(** [client_connected]: when no other thread interferes the compare-and-swap loop raises
    the peak to the current count, once, if it is larger. *)
Definition client_connected (m : Metrics) : Metrics :=
  let '(mkMetrics h mi tc os tl lc rl cc pc tn ce ev ex cp rs hi st lt lm lj) := m in
  let curr := as_i64 (cc + 1) in
  let peak := if 0 <? curr then (if pc <? curr then curr else pc) else pc in
  mkMetrics h mi tc os tl lc rl curr peak (wrap_u64 (tn + 1)) ce ev ex cp rs hi st lt lm lj.

Definition client_disconnected (m : Metrics) : Metrics :=
  let '(mkMetrics h mi tc os tl lc rl cc pc tn ce ev ex cp rs hi st lt lm lj) := m in
  mkMetrics h mi tc os tl lc rl (as_i64 (cc - 1)) pc tn ce ev ex cp rs hi st lt lm lj.

(** ** The one-second sampler *)

Definition cpu_percent (m : Metrics) : f64 :=
  f64_div (f64_of_Z (cpu_percent_scaled m)) (f64_of_Z 100).

(** [Duration::as_secs_f64] *)
Definition as_secs_f64 (d : Z) : f64 :=
  f64_add (f64_of_Z (d / NANOS)) (f64_div (f64_of_Z (d mod NANOS)) (f64_of_Z NANOS)).

(** [u64::saturating_sub] *)
Definition saturating_sub (a b : Z) : Z := Z.max 0 (a - b).

(** One decimal, as the history points keep. *)
Definition round_tenth (x : f64) : f64 := f64_div (f64_round (f64_mul x (f64_of_Z 10))) (f64_of_Z 10).

(** [Metrics::tick_second] at time [now], with the readings of [/proc/self/stat] and
    [/proc/self/statm] when they can be read. *)
Definition tick_second (now : Z) (jiffies rss_b : option Z) (current_cache_memory : Z)
    (m : Metrics) : option Metrics :=
  let '(mkMetrics h mi tc os tl lc rl cc pc tn ce ev ex cp rs hi st lt lm lj) := m in
  let elapsed_sec := f64_max (as_secs_f64 (duration_since now lt)) f64_milli in
  let delta_cmds := saturating_sub tc lm in
  let ops_rate := f64_as_uint u64_max (f64_round (f64_div (f64_of_Z delta_cmds) elapsed_sec)) in
  let '(cp', lj') :=
    match jiffies with
    | Some curr =>
      let delta_jiffies := saturating_sub curr lj in
      let cpu_ratio := f64_div (f64_div (f64_of_Z delta_jiffies) (f64_of_Z 100)) elapsed_sec in
      let cpu_pct := f64_clamp (f64_mul cpu_ratio (f64_of_Z 100)) f64_zero (f64_of_Z 1000) in
      (f64_as_uint 4294967295 (f64_mul cpu_pct (f64_of_Z 100)), curr)
    | None => (cp, lj)
    end in
  let rs' := match rss_b with Some r => r | None => rs end in
  lat ← latency_stats m;
  let point := mkHistoryPoint (as_secs (duration_since now st))
    (round_tenth (hit_ratio m)) (round_tenth (miss_ratio m)) ops_rate
    (round_tenth (avg_us lat)) (p95_us lat) (p99_us lat)
    current_cache_memory rs' (f64_div (f64_of_Z cp') (f64_of_Z 100)) (Z.max cc 0) ev ex in
  Some (mkMetrics h mi tc ops_rate tl lc rl cc pc tn ce ev ex cp' rs'
    (push_ring HISTORY_CAPACITY point hi) st now tc lj').

(** ** The [INFO] text *)

Definition format_human_bytes (n : Z) : bytes :=
  let KB := 1024 in let MB := KB * 1024 in let GB := MB * 1024 in
  if GB <=? n then show_fixed 2 (f64_div (f64_of_Z n) (f64_of_Z GB)) ++ bs " GB"
  else if MB <=? n then show_fixed 2 (f64_div (f64_of_Z n) (f64_of_Z MB)) ++ bs " MB"
  else if KB <=? n then show_fixed 2 (f64_div (f64_of_Z n) (f64_of_Z KB)) ++ bs " KB"
  else show_uint n ++ bs " B".

Definition uptime_seconds (now : Z) (m : Metrics) : Z := as_secs (duration_since now (m_start_time m)).

(** Lines of a text, each ended by CRLF. *)
Definition crlf_lines (ls : list bytes) : bytes := concat (map (fun l => l ++ CRLF) ls).

Definition format_redis_info (now current_cache_memory current_keys maxmemory : Z) (m : Metrics) : bytes :=
  let uptime := uptime_seconds now m in
  crlf_lines [
    bs "# Server";
    bs "redis_version:7.0.0";
    bs "redis_mode:standalone";
    bs "os:Linux";
    bs "arch_bits:64";
    bs "uptime_in_seconds:" ++ show_uint uptime;
    bs "uptime_in_days:" ++ show_uint (uptime / 86400);
    [];
    bs "# Clients";
    bs "connected_clients:" ++ show_i64 (Z.max (connected_clients m) 0);
    [];
    bs "# Memory";
    bs "used_memory:" ++ show_uint current_cache_memory;
    bs "used_memory_human:" ++ format_human_bytes current_cache_memory;
    bs "used_memory_rss:" ++ show_uint (rss_memory_bytes m);
    bs "used_memory_rss_human:" ++ format_human_bytes (rss_memory_bytes m);
    bs "maxmemory:" ++ show_uint maxmemory;
    bs "maxmemory_human:" ++ (if 0 <? maxmemory then format_human_bytes maxmemory else bs "0B");
    [];
    bs "# Stats";
    bs "total_connections_received:" ++ show_uint (total_connections m);
    bs "total_commands_processed:" ++ show_uint (total_commands m);
    bs "instantaneous_ops_per_sec:" ++ show_uint (ops_per_sec m);
    bs "keyspace_hits:" ++ show_uint (hits m);
    bs "keyspace_misses:" ++ show_uint (misses m);
    bs "evicted_keys:" ++ show_uint (evicted_keys m);
    bs "expired_keys:" ++ show_uint (expired_keys m);
    [];
    bs "# CPU";
    bs "used_cpu_percent:" ++ show_fixed 2 (cpu_percent m);
    [];
    bs "# Keyspace";
    bs "db0:keys=" ++ show_uint current_keys ++ bs ",expires=0,avg_ttl=0"
  ].

(** ** Lemmas *)

(** The last [cap] elements. *)
Definition lastn {A} (cap : nat) (l : list A) : list A := drop (length l - cap) l.

Lemma push_ring_lastn {A} cap (x : A) l : (0 < cap)%nat -> (length l <= cap)%nat ->
  push_ring cap x l = lastn cap (l ++ [x]).
Proof.
  intros Hc Hl. unfold push_ring, lastn. rewrite length_app. cbn [length].
  destruct (cap <=? length l)%nat eqn:E.
  - apply Nat.leb_le in E. replace (length l + 1 - cap)%nat with 1%nat by lia.
    destruct l; [cbn in *; lia|done].
  - apply Nat.leb_gt in E. replace (length l + 1 - cap)%nat with 0%nat by lia. done.
Qed.

Lemma lastn_length {A} cap (l : list A) : (length (lastn cap l) <= cap)%nat.
Proof. unfold lastn. rewrite length_drop. lia. Qed.

Lemma lastn_lastn_app {A} cap (l k : list A) : lastn cap (lastn cap l ++ k) = lastn cap (l ++ k).
Proof.
  unfold lastn. rewrite !length_app, length_drop.
  destruct (decide (length l <= cap)%nat).
  - replace (length l - cap)%nat with 0%nat by lia. rewrite drop_0. f_equal. lia.
  - replace (drop (length l - cap) l ++ k) with (drop (length l - cap) (l ++ k))
      by (rewrite drop_app_le by lia; done).
    rewrite drop_drop. f_equal. lia.
Qed.

Lemma sorted_lookup_le (l : list Z) i j x y :
  StronglySorted Z.le l -> l !! i = Some x -> l !! j = Some y -> (i <= j)%nat -> x <= y.
Proof.
  intros Hs. revert i j. induction Hs as [|a l Hl IH Ha]; intros i j Hi Hj Hij; [done|].
  destruct i as [|i], j as [|j]; cbn in *; simplify_eq; [lia| |lia|].
  - exact (Forall_lookup_1 _ _ _ _ Ha Hj).
  - apply (IH i j); auto. lia.
Qed.

Lemma percentile_index (n p : nat) : (0 < n)%nat -> (p < 100)%nat -> (n * p / 100 < n)%nat.
Proof. intros. apply Nat.Div0.div_lt_upper_bound. nia. Qed.

(** The statistics are read off the sorted samples, without indexing out of bounds. *)
Lemma latency_stats_samples m : recent_latencies m <> [] ->
  exists s st, latency_stats m = Some st /\ s ≡ₚ recent_latencies m /\ StronglySorted Z.le s /\ (0 < length s)%nat
  /\ s !! 0%nat = Some (min_us st) /\ s !! (length s * 50 / 100)%nat = Some (p50_us st)
  /\ s !! (length s * 95 / 100)%nat = Some (p95_us st) /\ s !! (length s * 99 / 100)%nat = Some (p99_us st)
  /\ s !! (length s - 1)%nat = Some (max_us st)
  /\ avg_us st = f64_div (f64_of_Z (wrap_u64 (sumZ s))) (f64_of_Z (Z.of_nat (length s))).
Proof.
  unfold latency_stats. destruct (recent_latencies m) as [|d0 ds]; [done|]. intros _.
  set (buf := d0 :: ds). pose proof (merge_sort_Permutation Z.le buf) as Hperm.
  assert (StronglySorted Z.le (merge_sort Z.le buf)) as Hsort by (apply (StronglySorted_merge_sort Z.le)).
  revert Hperm Hsort. generalize (merge_sort Z.le buf). intros s Hperm Hsort.
  assert (0 < length s)%nat as Hn by (rewrite Hperm; cbn; lia).
  assert (forall i, (i < length s)%nat -> exists x, s !! i = Some x) as Hlk.
  { intros i Hi. by apply lookup_lt_is_Some_2 in Hi as [x ?]; exists x. }
  destruct (Hlk 0%nat Hn) as [mn H0]. destruct (Hlk (length s - 1)%nat ltac:(lia)) as [mx H1].
  destruct (Hlk (length s * 50 / 100)%nat) as [a Ha]; [apply percentile_index; lia|].
  destruct (Hlk (length s * 95 / 100)%nat) as [b Hb]; [apply percentile_index; lia|].
  destruct (Hlk (length s * 99 / 100)%nat) as [c Hc]; [apply percentile_index; lia|].
  exists s. rewrite H0, H1, Ha, Hb, Hc. cbn [mbind option_bind]. by eexists.
Qed.

(** ** Properties *)

(** C40: percentiles. [latency_stats] never indexes out of bounds; on recorded latencies its
    five order statistics are recorded latencies, the minimum and maximum bound all of
    them, and they are ordered: min <= p50 <= p95 <= p99 <= max. *)
Theorem latency_stats_ordered (m : Metrics) (Hne : recent_latencies m <> []) :
  exists st, latency_stats m = Some st
  /\ Forall (fun x => x ∈ recent_latencies m) [min_us st; p50_us st; p95_us st; p99_us st; max_us st]
  /\ Forall (fun x => min_us st <= x <= max_us st) (recent_latencies m)
  /\ min_us st <= p50_us st <= p95_us st /\ p95_us st <= p99_us st <= max_us st.
Proof.
  destruct (latency_stats_samples m Hne) as (s & st & Hst & Hperm & Hsort & Hn & H0 & Ha & Hb & Hc & H1 & _).
  exists st. split; [exact Hst|].
  pose proof (percentile_index (length s) 99 Hn ltac:(lia)).
  assert (length s * 50 / 100 <= length s * 95 / 100)%nat by (apply Nat.Div0.div_le_mono; lia).
  assert (length s * 95 / 100 <= length s * 99 / 100)%nat by (apply Nat.Div0.div_le_mono; lia).
  split_and!; try (eapply sorted_lookup_le; [exact Hsort|eassumption|eassumption|lia]).
  - assert (forall i x, s !! i = Some x -> x ∈ recent_latencies m) as Hin.
    { intros i x Hx. rewrite <- Hperm. by eapply list_elem_of_lookup_2. }
    repeat (apply Forall_cons_2; [by eapply Hin|]). apply Forall_nil_2.
  - rewrite <- Hperm. apply Forall_lookup_2. intros i x Hx.
    pose proof (lookup_lt_Some _ _ _ Hx). split; (eapply sorted_lookup_le; [exact Hsort|eassumption|eassumption|lia]).
Qed.

Lemma latency_stats_ordered_witness :
  let m := record_command 10 (record_command 50 (record_command 30 (Metrics_new 0 None))) in
  recent_latencies m <> [] /\ exists st, latency_stats m = Some st /\ p50_us st <= p95_us st.
Proof.
  cbn zeta. split; [discriminate|].
  edestruct (latency_stats_ordered (record_command 10 (record_command 50 (record_command 30 (Metrics_new 0 None)))))
    as (st & Hst & _ & _ & Hle & _); [discriminate|].
  exists st. split; [exact Hst|apply Hle].
Defined.

(** The latency ring. However many commands are recorded, the ring holds exactly the
    last [LATENCY_BUFFER_SIZE] durations in order, and the three counters have counted
    every command (modulo 2^64). *)
Lemma latency_ring (ds : list Z) (m : Metrics)
    (Hlen : (length (recent_latencies m) <= LATENCY_BUFFER_SIZE)%nat) :
  let m' := fold_left (fun m d => record_command d m) ds m in
  recent_latencies m' = lastn LATENCY_BUFFER_SIZE (recent_latencies m ++ ds)
  /\ (length (recent_latencies m') <= LATENCY_BUFFER_SIZE)%nat
  /\ wrap_u64 (total_commands m') = wrap_u64 (total_commands m + len ds)
  /\ wrap_u64 (total_latency_us m') = wrap_u64 (total_latency_us m + sumZ ds).
Proof.
  cbn zeta. revert m Hlen. induction ds as [|d ds IH]; intros m Hlen.
  - cbn. rewrite app_nil_r. unfold lastn.
    replace (length (recent_latencies m) - LATENCY_BUFFER_SIZE)%nat with 0%nat by lia.
    by rewrite !Z.add_0_r.
  - cbn [fold_left].
    assert (recent_latencies (record_command d m) = lastn LATENCY_BUFFER_SIZE (recent_latencies m ++ [d])) as Hr.
    { destruct m. apply push_ring_lastn; [unfold LATENCY_BUFFER_SIZE; lia | done]. }
    destruct (IH (record_command d m)) as (H1 & H2 & H3 & H4).
    { rewrite Hr. apply lastn_length. }
    split_and!; [|done|..].
    + rewrite H1, Hr, lastn_lastn_app. by rewrite <- app_assoc.
    + rewrite H3. destruct m. cbn [record_command total_commands]. unfold wrap_u64.
      rewrite len_cons, Zplus_mod_idemp_l. f_equal. lia.
    + rewrite H4. destruct m. cbn [record_command total_latency_us sumZ]. unfold wrap_u64.
      rewrite Zplus_mod_idemp_l. f_equal. lia.
Qed.

Lemma latency_ring_witness :
  recent_latencies (fold_left (fun m d => record_command d m) [5; 6; 7] (Metrics_new 0 None)) = [5; 6; 7].
Proof.
  destruct (latency_ring [5; 6; 7] (Metrics_new 0 None)) as [H _]; [cbn; lia|].
  rewrite H. reflexivity.
Defined.

(** One arrival or departure of a client. *)
Inductive client_event := Connect | Disconnect.
Definition client_step (m : Metrics) (e : client_event) : Metrics :=
  match e with Connect => client_connected m | Disconnect => client_disconnected m end.
Definition clients_after (n : Z) (e : client_event) : Z :=
  match e with Connect => n + 1 | Disconnect => n - 1 end.

(** The running counts of a history, from [n]. *)
Fixpoint client_counts (n : Z) (es : list client_event) : list Z :=
  match es with [] => [] | e :: es' => clients_after n e :: client_counts (clients_after n e) es' end.

Lemma client_step_fields m e :
  0 <= clients_after (connected_clients m) e <= i64_max -> 0 <= peak_clients m ->
  connected_clients (client_step m e) = clients_after (connected_clients m) e /\
  peak_clients (client_step m e) =
    match e with
    | Connect => Z.max (peak_clients m) (clients_after (connected_clients m) e)
    | Disconnect => peak_clients m
    end.
Proof.
  intros Hr Hp. destruct m, e; cbn in *; rewrite as_i64_small by lia; split; try done.
  destruct (Z.ltb_spec 0 (connected_clients0 + 1)); [|lia].
  destruct (Z.ltb_spec peak_clients0 (connected_clients0 + 1)); lia.
Qed.

(** Client tracking. Over any history of connections and disconnections, the gauge is
    the number of clients and the peak is the largest number there has been (clients are
    counted in an [i64]; a disconnection is one of a connected client). *)
Lemma client_peak (es : list client_event) (m : Metrics)
    (Hcounts : Forall (fun n => 0 <= n <= i64_max) (client_counts (connected_clients m) es))
    (Hpeak : 0 <= connected_clients m <= peak_clients m) :
  let m' := fold_left client_step es m in
  connected_clients m' = fold_left clients_after es (connected_clients m)
  /\ peak_clients m' = fold_left Z.max (client_counts (connected_clients m) es) (peak_clients m).
Proof.
  cbn zeta. revert m Hcounts Hpeak. induction es as [|e es IH]; intros m Hc Hp; [done|].
  cbn [client_counts fold_left] in *. inversion Hc as [|? ? Hn Hc']; subst.
  destruct (client_step_fields m e Hn ltac:(lia)) as [Hcc Hpp].
  rewrite <- Hcc in Hc'. specialize (IH (client_step m e) Hc').
  rewrite Hcc, Hpp in IH.
  assert (match e with Connect => Z.max (peak_clients m) (clients_after (connected_clients m) e)
    | Disconnect => peak_clients m end = Z.max (peak_clients m) (clients_after (connected_clients m) e)) as Heq.
  { destruct e; [done|]. cbn. lia. }
  rewrite Heq in IH. apply IH. lia.
Qed.

Lemma client_peak_witness :
  peak_clients (fold_left client_step [Connect; Connect; Disconnect; Connect; Disconnect] (Metrics_new 0 None)) = 2.
Proof.
  destruct (client_peak [Connect; Connect; Disconnect; Connect; Disconnect] (Metrics_new 0 None)) as [_ H].
  - cbn. repeat (constructor; [unfold i64_max; lia|]). constructor.
  - cbn. lia.
  - etransitivity; [exact H|]. vm_compute. reflexivity.
Defined.

