(* ===== verification/MetricsJson.v ===== *)
(** * The JSON document of the metrics: [Metrics::to_json]

    The text the dashboard polls, printed by hand in [src/src/metrics.rs], the type of a
    metrics state ([metrics_ok]: every field in the range of its Rust type, every recorded
    float finite and not negative, which a JSON number needs), and the readers of [/proc]
    that feed the sampler. *)
From S2P Require Import Prelude.
From S2P Require Import RustStd.
From S2P Require Import F64.
From S2P Require Import F64Bounds.
From S2P Require Import Json.
From S2P Require Import Metrics.

(** A literal of the source with its escaped double quotes written as apostrophes. *)
Definition js (s : String.string) : bytes := map (fun c => if Ascii.eqb c "'" then DQ else c) (bs s).
Arguments js _%_string.

(** ** The text *)

(** [Metrics::get_history] *)
Definition get_history (m : Metrics) : list HistoryPoint := history m.

(** The format of one point of the history. *)
Definition history_item (p : HistoryPoint) : bytes :=
  js "{'t':" ++ show_uint (timestamp_sec p) ++
  js ",'hr':" ++ show_fixed 1 (hp_hit_ratio p) ++
  js ",'mr':" ++ show_fixed 1 (hp_miss_ratio p) ++
  js ",'ops':" ++ show_uint (hp_ops_per_sec p) ++
  js ",'lat':" ++ show_fixed 1 (avg_latency_us p) ++
  js ",'p95':" ++ show_uint (p95_latency_us p) ++
  js ",'mem':" ++ show_uint (memory_cache_bytes p) ++
  js ",'rss':" ++ show_uint (memory_rss_bytes p) ++
  js ",'cpu':" ++ show_fixed 1 (hp_cpu_percent p) ++
  js ",'cli':" ++ show_i64 (hp_connected_clients p) ++ js "}".

(** The loop over the history: [i] is the index, [hist_json] the text so far. *)
Fixpoint history_loop (i : nat) (hist : list HistoryPoint) (hist_json : bytes) : bytes :=
  match hist with
  | [] => hist_json
  | p :: hist' =>
    let hist_json := if (0 <? i)%nat then hist_json ++ js "," else hist_json in
    history_loop (S i) hist' (hist_json ++ history_item p)
  end.

(** [Metrics::to_json] at time [now]; [None] is a panic of [latency_stats]. *)
Definition to_json (now current_cache_memory current_keys maxmemory : Z) (m : Metrics) : option bytes :=
  lat ← latency_stats m;
  let hit_r := f64_div (f64_round (f64_mul (hit_ratio m) (f64_of_Z 100))) (f64_of_Z 100) in
  let miss_r := f64_div (f64_round (f64_mul (miss_ratio m) (f64_of_Z 100))) (f64_of_Z 100) in
  let clients := Z.max (connected_clients m) 0 in
  let cpu := cpu_percent m in
  let rss := rss_memory_bytes m in
  let uptime := uptime_seconds now m in
  let mem_pct :=
    if 0 <? maxmemory then
      f64_min (f64_mul (f64_div (f64_of_Z current_cache_memory) (f64_of_Z maxmemory)) (f64_of_Z 100)) (f64_of_Z 100)
    else f64_zero in
  let maxmem_str := if 0 <? maxmemory then format_human_bytes maxmemory else bs "Unlimited" in
  let hist_json := history_loop 0 (get_history m) [] in
  Some (concat [
    js "{";
    js "'server':{'status':'running','uptime_seconds':" ++ show_uint uptime ++
      js ",'total_keys':" ++ show_uint current_keys ++ js "},";
    js "'metrics':{";
    js "'cache_hit_ratio':" ++ show_fixed 2 hit_r ++ js ",";
    js "'cache_miss_ratio':" ++ show_fixed 2 miss_r ++ js ",";
    js "'hits':" ++ show_uint (hits m) ++ js ",";
    js "'misses':" ++ show_uint (misses m) ++ js ",";
    js "'memory_cache_bytes':" ++ show_uint current_cache_memory ++ js ",";
    js "'memory_cache_human':'" ++ format_human_bytes current_cache_memory ++ js "',";
    js "'memory_rss_bytes':" ++ show_uint rss ++ js ",";
    js "'memory_rss_human':'" ++ format_human_bytes rss ++ js "',";
    js "'maxmemory_bytes':" ++ show_uint maxmemory ++ js ",";
    js "'maxmemory_human':'" ++ maxmem_str ++ js "',";
    js "'memory_usage_percent':" ++ show_fixed 2 mem_pct ++ js ",";
    js "'cpu_percent':" ++ show_fixed 2 cpu ++ js ",";
    js "'connected_clients':" ++ show_i64 clients ++ js ",";
    js "'peak_clients':" ++ show_uint (peak_clients m) ++ js ",";
    js "'total_connections':" ++ show_uint (total_connections m) ++ js ",";
    js "'connection_errors':" ++ show_uint (connection_errors m) ++ js ",";
    js "'commands_per_sec':" ++ show_uint (ops_per_sec m) ++ js ",";
    js "'total_commands':" ++ show_uint (total_commands m) ++ js ",";
    js "'evicted_keys':" ++ show_uint (evicted_keys m) ++ js ",";
    js "'expired_keys':" ++ show_uint (expired_keys m) ++ js ",";
    js "'latency':{'avg_us':" ++ show_fixed 2 (avg_us lat) ++
      js ",'min_us':" ++ show_uint (min_us lat) ++ js ",'max_us':" ++ show_uint (max_us lat) ++
      js ",'p50_us':" ++ show_uint (p50_us lat) ++ js ",'p95_us':" ++ show_uint (p95_us lat) ++
      js ",'p99_us':" ++ show_uint (p99_us lat) ++ js "}";
    js "},";
    js "'history':[" ++ hist_json ++ js "]";
    js "}"]).

(** ** The document the text means *)

Definition uint (z : Z) : Json := JNum (show_uint z).
Definition int (z : Z) : Json := JNum (show_i64 z).
Definition fixed (d : nat) (x : f64) : Json := JNum (show_fixed d x).
Definition str (s : bytes) : Json := JStr s.
Definition field (key : String.string) (v : Json) : bytes * Json := (bs key, v).
Arguments field _%_string _.
Local Notation "k :=> v" := (field k v) (at level 60).

Definition history_json (p : HistoryPoint) : Json := JObj [
  ("t" :=> uint (timestamp_sec p)); ("hr" :=> fixed 1 (hp_hit_ratio p)); ("mr" :=> fixed 1 (hp_miss_ratio p));
  ("ops" :=> uint (hp_ops_per_sec p)); ("lat" :=> fixed 1 (avg_latency_us p)); ("p95" :=> uint (p95_latency_us p));
  ("mem" :=> uint (memory_cache_bytes p)); ("rss" :=> uint (memory_rss_bytes p)); ("cpu" :=> fixed 1 (hp_cpu_percent p));
  ("cli" :=> int (hp_connected_clients p))].

(** A percentage with two decimals, as [to_json] rounds it. *)
Definition round_hundredth (x : f64) : f64 := f64_div (f64_round (f64_mul x (f64_of_Z 100))) (f64_of_Z 100).

Definition usage_percent (used maxmemory : Z) : f64 :=
  if 0 <? maxmemory then f64_min (f64_mul (f64_div (f64_of_Z used) (f64_of_Z maxmemory)) (f64_of_Z 100)) (f64_of_Z 100)
  else f64_zero.

Definition metrics_json (now memory keys maxmemory : Z) (m : Metrics) (lat : LatencyStats) : Json := JObj [
  ("server" :=> JObj [("status" :=> str (bs "running")); ("uptime_seconds" :=> uint (uptime_seconds now m));
    ("total_keys" :=> uint keys)]);
  ("metrics" :=> JObj [
    ("cache_hit_ratio" :=> fixed 2 (round_hundredth (hit_ratio m)));
    ("cache_miss_ratio" :=> fixed 2 (round_hundredth (miss_ratio m)));
    ("hits" :=> uint (hits m)); ("misses" :=> uint (misses m));
    ("memory_cache_bytes" :=> uint memory); ("memory_cache_human" :=> str (format_human_bytes memory));
    ("memory_rss_bytes" :=> uint (rss_memory_bytes m)); ("memory_rss_human" :=> str (format_human_bytes (rss_memory_bytes m)));
    ("maxmemory_bytes" :=> uint maxmemory);
    ("maxmemory_human" :=> str (if 0 <? maxmemory then format_human_bytes maxmemory else bs "Unlimited"));
    ("memory_usage_percent" :=> fixed 2 (usage_percent memory maxmemory));
    ("cpu_percent" :=> fixed 2 (cpu_percent m));
    ("connected_clients" :=> int (Z.max (connected_clients m) 0)); ("peak_clients" :=> uint (peak_clients m));
    ("total_connections" :=> uint (total_connections m)); ("connection_errors" :=> uint (connection_errors m));
    ("commands_per_sec" :=> uint (ops_per_sec m)); ("total_commands" :=> uint (total_commands m));
    ("evicted_keys" :=> uint (evicted_keys m)); ("expired_keys" :=> uint (expired_keys m));
    ("latency" :=> JObj [("avg_us" :=> fixed 2 (avg_us lat)); ("min_us" :=> uint (min_us lat)); ("max_us" :=> uint (max_us lat));
      ("p50_us" :=> uint (p50_us lat)); ("p95_us" :=> uint (p95_us lat)); ("p99_us" :=> uint (p99_us lat))])]);
  ("history" :=> JArr (map history_json (history m)))].

(** Names for the printed values, so that both texts become chains of literals and names. *)
Ltac name_values :=
  repeat match goal with
  | |- context [show_uint ?x] => generalize (show_uint x); intro
  | |- context [show_i64 ?x] => generalize (show_i64 x); intro
  | |- context [show_fixed ?d ?x] => generalize (show_fixed d x); intro
  | |- context [format_human_bytes ?x] => generalize (format_human_bytes x); intro
  end.

(** Equality of two such texts. *)
Ltac flatten_texts := cbn; repeat (rewrite <- app_assoc; cbn [app]); reflexivity.

Lemma history_item_render p : history_item p = render (history_json p).
Proof.
  unfold history_item, history_json, field, uint, int, fixed. name_values.
  flatten_texts.
Qed.

Lemma history_loop_commas hist : forall i acc,
  history_loop i hist acc =
  acc ++ match i, hist with S _, _ :: _ => js "," | _, _ => [] end ++ commas (map history_item hist).
Proof.
  induction hist as [|p hist IH]; intros i acc; cbn [history_loop map].
  { destruct i; cbn; by rewrite app_nil_r. }
  rewrite IH. change (js ",") with [","%char]. generalize (history_item p) as x. intros x.
  destruct i as [|i], hist as [|q hist]; cbn [map commas Nat.ltb Nat.leb app];
    repeat (rewrite <- app_assoc; cbn [app]); by rewrite ?app_nil_r.
Qed.

Lemma to_json_render now memory keys maxmemory m lat : latency_stats m = Some lat ->
  to_json now memory keys maxmemory m = Some (render (metrics_json now memory keys maxmemory m lat)).
Proof.
  intros Hlat. unfold to_json, metrics_json. rewrite Hlat. cbn [mbind option_bind]. f_equal.
  unfold get_history. rewrite history_loop_commas. cbn [app].
  rewrite (map_ext _ _ history_item_render), <- (map_map history_json render).
  unfold field, uint, int, fixed, str, round_hundredth, usage_percent.
  change (render (JArr (map history_json (history m)))) with
    ("["%char :: commas (map render (map history_json (history m))) ++ ["]"%char]).
  generalize (map history_json (history m)) as h. intros h.
  generalize (if 0 <? maxmemory then format_human_bytes maxmemory else bs "Unlimited"). intros maxmem_str.
  name_values.
  cbn [render]. cbn. generalize (commas (map render h)). intros hist_json.
  repeat (rewrite <- app_assoc; cbn [app]). reflexivity.
Qed.

(** ** The type of a metrics state *)

Definition is_u64 (z : Z) : Prop := 0 <= z <= u64_max.

(** A float that has a JSON number: a zero, or finite and positive (and not huge). *)
Definition json_float (x : f64) : Prop := below 100 x.

Record point_ok (p : HistoryPoint) : Prop := {
  po_ints : Forall is_u64 [timestamp_sec p; hp_ops_per_sec p; p95_latency_us p; p99_latency_us p;
    memory_cache_bytes p; memory_rss_bytes p; hp_evicted_keys p; hp_expired_keys p];
  po_clients : 0 <= hp_connected_clients p <= i64_max;
  po_floats : Forall json_float [hp_hit_ratio p; hp_miss_ratio p; avg_latency_us p; hp_cpu_percent p];
}.

Record metrics_ok (m : Metrics) : Prop := {
  mo_counters : Forall is_u64 [hits m; misses m; total_commands m; ops_per_sec m; total_latency_us m; latency_count m;
    peak_clients m; total_connections m; connection_errors m; evicted_keys m; expired_keys m; rss_memory_bytes m;
    last_total_commands m; last_cpu_jiffies m];
  mo_start : 0 <= m_start_time m;
  mo_clients : i64_min <= connected_clients m <= i64_max;
  mo_cpu : 0 <= cpu_percent_scaled m <= 4294967295;
  mo_latencies : Forall is_u64 (recent_latencies m) /\ (length (recent_latencies m) <= LATENCY_BUFFER_SIZE)%nat;
  mo_history : Forall point_ok (history m) /\ (length (history m) <= HISTORY_CAPACITY)%nat;
}.

(** *** The floats *)

Lemma u64_float z : is_u64 z -> below 65 (f64_of_Z z) /\ (f64_of_Z z = f64_zero \/ at_least_1 (f64_of_Z z)).
Proof.
  intros Hz. unfold is_u64, u64_max, u64_modulus in Hz. split; [apply (of_Z_below z 64); lia|].
  destruct (decide (z = 0)) as [->|]; [by left|]. right. apply of_Z_at_least_1. lia.
Qed.

Lemma ratio_below part h m : is_u64 h -> is_u64 m -> below 65 part ->
  below 75 (ratio_of part (f64_of_Z h) (f64_of_Z m)).
Proof.
  intros Hh Hm Hp. unfold ratio_of. destruct (u64_float h Hh) as [Bh Lh], (u64_float m Hm) as [Bm Lm].
  destruct (f64_gt _ _) eqn:E; [|done]. apply (mul_below 66 8); [|apply (of_Z_below 100 7); lia|lia..].
  apply (div_below 65); [done| |lia].
  by apply add_at_least_1; [..|apply (below_le 65); [lia|]|apply (below_le 65); [lia|]|].
Qed.

Lemma hit_ratio_below m : metrics_ok m -> below 75 (hit_ratio m).
Proof.
  intros [Hc _ _ _ _ _]. rewrite !Forall_cons in Hc. destruct Hc as (Hh & Hm & _). apply ratio_below; [done|done|].
  by apply u64_float.
Qed.
Lemma miss_ratio_below m : metrics_ok m -> below 75 (miss_ratio m).
Proof.
  intros [Hc _ _ _ _ _]. rewrite !Forall_cons in Hc. destruct Hc as (Hh & Hm & _). apply ratio_below; [done|done|].
  by apply u64_float.
Qed.

Lemma round_tenth_below k x : below k x -> 0 <= k <= 80 -> below (k + 10) (round_tenth x).
Proof.
  intros Hx Hk. unfold round_tenth. replace (k + 10) with ((k + 5 + 1 + 3) + 1) by lia.
  apply div_below; [|apply of_Z_at_least_1; lia|lia].
  apply round_below; [|lia]. apply mul_below; [done|by apply (of_Z_below 10 4)|lia..].
Qed.

(** *** The statistics and the readings *)

Lemma latency_stats_ok m : metrics_ok m -> exists lat, latency_stats m = Some lat
  /\ Forall is_u64 [min_us lat; max_us lat; p50_us lat; p95_us lat; p99_us lat] /\ below 66 (avg_us lat).
Proof.
  intros [_ _ _ _ [Hl Hlen] _]. destruct (decide (recent_latencies m = [])) as [E|Hne].
  - exists LatencyStats_default. unfold latency_stats. rewrite E. split; [done|]. split; [|done].
    repeat constructor; cbn; unfold u64_max, u64_modulus; lia.
  - destruct (latency_stats_samples m Hne) as (s & st & Hst & Hp & _ & Hn & H0 & H1 & H2 & H3 & H4 & Ha).
    exists st. split; [done|]. rewrite <- Hp in Hl. rewrite <- Hp in Hlen. rewrite Forall_lookup in Hl. split.
    + repeat (apply Forall_cons_2; [eapply Hl; eassumption|]). apply Forall_nil_2.
    + rewrite Ha. apply (div_below 65); [|apply of_Z_at_least_1; unfold LATENCY_BUFFER_SIZE in Hlen; lia|lia].
      apply u64_float. pose proof (wrap_u64_range (sumZ s)). unfold is_u64, u64_max. lia.
Qed.

Lemma f64_as_uint_range max x : 0 <= max -> 0 <= f64_as_uint max x <= max.
Proof.
  intros Hm. destruct x as [|[]| |[] m e]; cbn [f64_as_uint]; try lia.
  destruct (Z.leb_spec 0 e); [assert (0 <= Z.pos m * 2 ^ e) by lia; lia|].
  pose proof (Z.div_pos (Z.pos m) (2 ^ (- e))). assert (0 < 2 ^ (- e)) by lia. lia.
Qed.

Lemma cpu_below c : 0 <= c <= 4294967295 -> below 34 (f64_div (f64_of_Z c) (f64_of_Z 100)).
Proof.
  intros Hc. apply (div_below 33); [apply (of_Z_below c 32); lia|by apply of_Z_at_least_1|lia].
Qed.

Lemma wrap_is_u64 z : is_u64 (wrap_u64 z).
Proof. pose proof (wrap_u64_range z). unfold is_u64, u64_max. lia. Qed.

Lemma as_i64_range z : i64_min <= as_i64 z <= i64_max.
Proof.
  unfold as_i64. pose proof (wrap_u64_range z). unfold i64_min, i64_max, u64_modulus in *.
  destruct (Z.leb_spec (wrap_u64 z) 9223372036854775807); lia.
Qed.

Lemma push_ring_Forall {A} (P : A -> Prop) cap x l : (0 < cap)%nat -> P x ->
  Forall P l /\ (length l <= cap)%nat -> Forall P (push_ring cap x l) /\ (length (push_ring cap x l) <= cap)%nat.
Proof.
  intros Hc Hx [Hl Hlen]. unfold push_ring. destruct (Nat.leb_spec cap (length l)).
  - destruct l as [|y l]; [cbn in *; lia|]. inversion Hl; subst. cbn [tail]. rewrite length_app. cbn in *.
    split; [apply Forall_app; by auto|lia].
  - rewrite length_app. cbn. split; [apply Forall_app; by auto|lia].
Qed.

(** *** Every operation preserves the type *)

(** The operations of the engine, with what they are given: the durations and counts of
    their callers, and for the sampler the clock, the readings of [/proc] and the store's
    memory. *)
Inductive metrics_op :=
  | RecordHit
  | RecordMiss
  | RecordCommand (duration_us : Z)
  | RecordConnectionError
  | RecordEviction (count : Z)
  | RecordExpiration (count : Z)
  | ClientConnected
  | ClientDisconnected
  | TickSecond (now : Z) (jiffies rss_b : option Z) (current_cache_memory : Z).

Definition metrics_step (o : metrics_op) (m : Metrics) : option Metrics :=
  match o with
  | RecordHit => Some (record_hit m)
  | RecordMiss => Some (record_miss m)
  | RecordCommand d => Some (record_command d m)
  | RecordConnectionError => Some (record_connection_error m)
  | RecordEviction n => Some (record_eviction n m)
  | RecordExpiration n => Some (record_expiration n m)
  | ClientConnected => Some (client_connected m)
  | ClientDisconnected => Some (client_disconnected m)
  | TickSecond now jiffies rss_b memory => tick_second now jiffies rss_b memory m
  end.

Fixpoint metrics_run (ops : list metrics_op) (m : Metrics) : option Metrics :=
  match ops with [] => Some m | o :: ops' => m' ← metrics_step o m; metrics_run ops' m' end.

(** The arguments are of their Rust types, the time is an [Instant]. *)
Definition opt_u64 (o : option Z) : Prop := match o with Some z => is_u64 z | None => True end.
Definition op_ok (o : metrics_op) : Prop :=
  match o with
  | RecordCommand d => is_u64 d
  | TickSecond now jiffies rss_b memory =>
    0 <= now <= Instant_max /\ opt_u64 jiffies /\ opt_u64 rss_b /\ is_u64 memory
  | _ => True
  end.

Create HintDb metrics.
#[local] Hint Resolve wrap_is_u64 as_i64_range : metrics.
#[local] Hint Extern 1 (is_u64 _) => progress unfold is_u64, u64_max, u64_modulus, i64_max, i64_min in *; lia : metrics.

(** Splits the goal [metrics_ok] of an operation that is given by its fields. *)
Ltac split_metrics m H :=
  destruct H as [Hc Hst Hcl Hcp Hl Hh]; destruct m;
  cbn [hits misses total_commands ops_per_sec total_latency_us latency_count peak_clients total_connections
    connection_errors evicted_keys expired_keys rss_memory_bytes last_total_commands last_cpu_jiffies m_start_time
    connected_clients cpu_percent_scaled recent_latencies history] in *;
  rewrite !Forall_cons in Hc; destruct_and! Hc.
Ltac each_field := repeat (apply Forall_cons_2; [auto with metrics|]); apply Forall_nil_2.
Ltac join_metrics :=
  constructor; cbn -[Z.le Z.lt push_ring is_u64];
  [each_field|auto with metrics..].

Lemma peak_is_u64 (peak n : Z) : is_u64 peak ->
  is_u64 (if 0 <? as_i64 n then if peak <? as_i64 n then as_i64 n else peak else peak).
Proof.
  intros Hp. pose proof (as_i64_range n). destruct (Z.ltb_spec 0 (as_i64 n)); [|done].
  destruct (Z.ltb_spec peak (as_i64 n)); [|done]. unfold is_u64, u64_max, u64_modulus, i64_max in *. lia.
Qed.
#[local] Hint Resolve peak_is_u64 : metrics.

Lemma tick_point_ok now m rs' cp' ops memory lat : metrics_ok m -> 0 <= now <= Instant_max ->
  Forall is_u64 [ops; rs'; memory] -> 0 <= cp' <= 4294967295 ->
  Forall is_u64 [min_us lat; max_us lat; p50_us lat; p95_us lat; p99_us lat] -> below 66 (avg_us lat) ->
  point_ok (mkHistoryPoint (as_secs (duration_since now (m_start_time m)))
    (round_tenth (hit_ratio m)) (round_tenth (miss_ratio m)) ops (round_tenth (avg_us lat)) (p95_us lat) (p99_us lat)
    memory rs' (f64_div (f64_of_Z cp') (f64_of_Z 100)) (Z.max (connected_clients m) 0) (evicted_keys m) (expired_keys m)).
Proof.
  intros Hok Hnow Hin Hcp Hlat Havg. pose proof (hit_ratio_below m Hok) as Hhr. pose proof (miss_ratio_below m Hok) as Hmr.
  destruct Hok as [Hc Hst Hcl _ _ _]. rewrite !Forall_cons in *. destruct_and! Hc. destruct_and! Hin. destruct_and! Hlat.
  constructor; cbn -[show_uint below]; rewrite ?Forall_cons; split_and?; auto using Forall_nil_2; unfold json_float.
  - unfold as_secs, duration_since, is_u64, u64_max, u64_modulus. unfold Instant_max, i64_max, NANOS in *.
    split; [apply Z.div_pos; lia|]. apply Z.div_le_upper_bound; lia.
  - unfold i64_max in *. lia.
  - unfold i64_max in *. lia.
  - apply (below_le 85); [lia|]. by apply (round_tenth_below 75).
  - apply (below_le 85); [lia|]. by apply (round_tenth_below 75).
  - apply (below_le 76); [lia|]. by apply (round_tenth_below 66).
  - apply (below_le 34); [lia|]. by apply cpu_below.
Qed.

(** What a tick writes: every value is in the range of its type. *)
Lemma tick_fields now jiffies rss_b memory m : metrics_ok m -> op_ok (TickSecond now jiffies rss_b memory) ->
  exists ops cp' rs' lj' p, tick_second now jiffies rss_b memory m =
    Some (let '(mkMetrics h mi tc os tl lc rl cc pc tn ce ev ex cp rs hi st lt lm lj) := m in
      mkMetrics h mi tc ops tl lc rl cc pc tn ce ev ex cp' rs' (push_ring HISTORY_CAPACITY p hi) st now tc lj')
  /\ is_u64 ops /\ 0 <= cp' <= 4294967295 /\ is_u64 rs' /\ is_u64 lj' /\ point_ok p.
Proof.
  intros Hok (Hnow & Hj & Hr & Hm). destruct (latency_stats_ok m Hok) as (lat & Hlat & Hli & Hla).
  pose proof (mo_counters _ Hok) as Hc. rewrite !Forall_cons in Hc.
  destruct Hc as (_ & _ & _ & _ & _ & _ & _ & _ & _ & _ & _ & Hrs & _ & Hlj & _). pose proof (mo_cpu _ Hok) as Hcpu.
  destruct m as [h mi tc os tl lc rl cc pc tn ce ev ex cp rs hi st lt lm lj]. unfold tick_second. rewrite Hlat. cbn [mbind option_bind].
  cbn [rss_memory_bytes last_cpu_jiffies cpu_percent_scaled] in *.
  assert (forall x, is_u64 (f64_as_uint u64_max x)) as Hu by (intros x; by apply f64_as_uint_range).
  assert (forall x, 0 <= f64_as_uint 4294967295 x <= 4294967295) as Hw by (intros x; by apply f64_as_uint_range).
  assert (is_u64 (match rss_b with Some r => r | None => rs end)) as Hrs' by by destruct rss_b.
  destruct jiffies as [j|]; eexists _, _, _, _, _; (split; [reflexivity|]);
    (refine (conj (Hu _) (conj _ (conj Hrs' (conj _ _)))); [auto|done|]).
  all: refine (tick_point_ok now _ _ _ _ _ _ Hok Hnow _ _ Hli Hla); [each_field|auto].
Qed.

Lemma metrics_step_ok o m : metrics_ok m -> op_ok o -> exists m', metrics_step o m = Some m' /\ metrics_ok m'.
Proof.
  intros Hok Ho. destruct o as [| |d| |n|n| | |now jiffies rss_b memory]; cbn [metrics_step].
  9: { destruct (tick_fields _ _ _ _ _ Hok Ho) as (ops & cp' & rs' & lj' & p & -> & Hops & Hcp' & Hrs & Hlj & Hp).
    eexists. split; [done|]. split_metrics m Hok. join_metrics.
    by apply push_ring_Forall; [unfold HISTORY_CAPACITY; lia| |]. }
  all: eexists; (split; [done|]); split_metrics m Hok; join_metrics.
  by apply push_ring_Forall; [unfold LATENCY_BUFFER_SIZE; lia| |].
Qed.

Lemma metrics_run_ok ops m : metrics_ok m -> Forall op_ok ops -> exists m', metrics_run ops m = Some m' /\ metrics_ok m'.
Proof.
  intros Hok Hops. revert m Hok. induction Hops as [|o ops Ho _ IH]; intros m Hok; [by exists m|]. cbn [metrics_run].
  destruct (metrics_step_ok o m Hok Ho) as (m' & -> & Hok'). apply (IH _ Hok').
Qed.

Lemma metrics_new_ok now jiffies : 0 <= now -> opt_u64 jiffies -> metrics_ok (Metrics_new now jiffies).
Proof.
  intros Hn Hj. assert (is_u64 0) by (unfold is_u64, u64_max, u64_modulus; lia).
  constructor; cbn -[Z.le is_u64]; [|done|unfold i64_min, i64_max; lia|lia|..].
  - assert (is_u64 match jiffies with Some j => j | None => 0 end) by by destruct jiffies. each_field.
  - split; [constructor|unfold LATENCY_BUFFER_SIZE; lia].
  - split; [constructor|unfold HISTORY_CAPACITY; lia].
Qed.

(** ** The document is well formed *)

Lemma number_char_plain c : number_char c = true -> plain c = true.
Proof. by destruct c as [[] [] [] [] [] [] [] []]. Qed.

Lemma plain_app s t : forallb plain s = true -> forallb plain t = true -> forallb plain (s ++ t) = true.
Proof. intros Hs Ht. by rewrite forallb_app, Hs, Ht. Qed.

Lemma number_plain s : is_number s = true -> forallb plain s = true.
Proof. intros Hs. exact (forallb_weaken _ _ _ number_char_plain (is_number_chars _ Hs)). Qed.

Lemma format_human_bytes_plain n : is_u64 n -> forallb plain (format_human_bytes n) = true.
Proof.
  intros Hn. assert (forall k, 0 < k < 2 ^ 900 -> is_number (show_fixed 2 (f64_div (f64_of_Z n) (f64_of_Z k))) = true) as Hd.
  { intros k Hk. apply (is_number_show_fixed _ 66), (div_below 65); [by apply u64_float|by apply of_Z_at_least_1|lia]. }
  unfold format_human_bytes.
  destruct (_ <=? n); [|destruct (_ <=? n); [|destruct (_ <=? n)]];
    (apply plain_app; [apply number_plain|done]); [apply Hd; lia..|].
  apply is_number_show_uint, Hn.
Qed.

Lemma uint_ok z : is_u64 z -> json_ok (uint z) = true.
Proof. intros Hz. apply is_number_show_uint, Hz. Qed.
Lemma int_ok z : json_ok (int z) = true.
Proof. apply is_number_show_i64. Qed.
Lemma fixed_ok d x : json_float x -> json_ok (fixed d x) = true.
Proof. apply is_number_show_fixed. Qed.

Lemma human_ok n : is_u64 n -> json_ok (str (format_human_bytes n)) = true.
Proof. apply format_human_bytes_plain. Qed.

Lemma obj_ok l : Forall (fun kv => forallb plain kv.1 = true /\ json_ok kv.2 = true) l -> json_ok (JObj l) = true.
Proof.
  induction 1 as [|[k v] l [Hk Hv] _ IH]; [done|]. cbn [json_ok forallb fst snd] in *. rewrite Hk, Hv. exact IH.
Qed.

Lemma round_hundredth_ok x : below 75 x -> json_float (round_hundredth x).
Proof.
  intros Hx. apply (below_le ((75 + 8 + 1 + 3) + 1)); [lia|].
  apply div_below; [|apply of_Z_at_least_1; lia|lia].
  apply round_below; [|lia]. apply mul_below; [done|by apply (of_Z_below 100 7)|lia..].
Qed.

Lemma usage_percent_ok used maxmemory : is_u64 used -> is_u64 maxmemory -> json_float (usage_percent used maxmemory).
Proof.
  intros Hu Hm. unfold usage_percent. destruct (Z.ltb_spec 0 maxmemory); [|done].
  apply min_below; [|by apply (below_le 8); [|by apply (of_Z_below 100 7)]].
  apply (below_le (66 + 8 + 1)); [lia|]. apply mul_below; [|by apply (of_Z_below 100 7)|lia..].
  apply (div_below 65); [by apply u64_float| |lia]. apply of_Z_at_least_1.
  unfold is_u64, u64_max, u64_modulus in Hm. lia.
Qed.

Lemma uptime_u64 now m : metrics_ok m -> 0 <= now <= Instant_max -> is_u64 (uptime_seconds now m).
Proof.
  intros Hok Hnow. pose proof (mo_start _ Hok). unfold uptime_seconds, as_secs, duration_since, is_u64, u64_max, u64_modulus.
  unfold Instant_max, i64_max, NANOS in *. split; [apply Z.div_pos; lia|]. apply Z.div_le_upper_bound; lia.
Qed.

(** A member whose key is a literal. *)
Ltac member_ok := apply Forall_cons_2; [split; [reflexivity|cbn [snd field]]|].

Lemma history_json_ok p : point_ok p -> json_ok (history_json p) = true.
Proof.
  intros [Hi _ Hf]. rewrite !Forall_cons in Hi. rewrite !Forall_cons in Hf. destruct_and! Hi. destruct_and! Hf.
  apply obj_ok. repeat member_ok; [..|apply Forall_nil_2]; auto using uint_ok, fixed_ok, int_ok.
Qed.

Lemma metrics_json_ok now memory keys maxmemory m lat : metrics_ok m -> 0 <= now <= Instant_max ->
  is_u64 memory -> is_u64 keys -> is_u64 maxmemory -> latency_stats m = Some lat ->
  json_ok (metrics_json now memory keys maxmemory m lat) = true.
Proof.
  intros Hok Hnow Hmem Hkeys Hmax Hlat. destruct (latency_stats_ok m Hok) as (lat' & Hlat' & Hli & Hla).
  assert (lat' = lat) as -> by congruence.
  pose proof (uptime_u64 now m Hok Hnow) as Hup.
  pose proof (round_hundredth_ok _ (hit_ratio_below m Hok)). pose proof (round_hundredth_ok _ (miss_ratio_below m Hok)).
  pose proof (usage_percent_ok _ _ Hmem Hmax).
  assert (json_float (cpu_percent m)) by (apply (below_le 34); [lia|apply cpu_below, (mo_cpu _ Hok)]).
  assert (json_float (avg_us lat)) by by apply (below_le 66).
  destruct Hok as [Hc _ _ _ _ [Hh _]]. rewrite !Forall_cons in Hc. rewrite !Forall_cons in Hli. destruct_and! Hc. destruct_and! Hli.
  apply obj_ok. repeat member_ok; [..|apply Forall_nil_2].
  - apply obj_ok. repeat member_ok; [..|apply Forall_nil_2]; auto using uint_ok.
  - apply obj_ok. repeat member_ok; [..|apply Forall_nil_2];
      auto using uint_ok, fixed_ok, int_ok, human_ok.
    + destruct (0 <? maxmemory); [by apply human_ok|done].
    + apply obj_ok. repeat member_ok; [..|apply Forall_nil_2]; auto using uint_ok, fixed_ok.
  - cbn [json_ok]. apply forallb_forall. intros j Hj%list_elem_of_In.
    apply list_elem_of_fmap in Hj as (p & -> & Hp). apply history_json_ok. rewrite Forall_forall in Hh. auto.
Qed.

(** ** Properties *)

(** C16: the type of the metrics. From a new engine, whatever sequence of operations with
    arguments of their types runs, none panics, every counter stays in the range of its
    Rust type, the two rings stay within their capacities, and every float recorded in the
    history is finite and not negative: no NaN and no infinity is ever stored, whatever the
    clock and [/proc] say. *)
Theorem metrics_typed (now : Z) (jiffies : option Z) (ops : list metrics_op)
    (Hnow : 0 <= now) (Hj : opt_u64 jiffies) (Hops : Forall op_ok ops) :
  exists m', metrics_run ops (Metrics_new now jiffies) = Some m' /\ metrics_ok m'.
Proof.
  apply metrics_run_ok; [by apply metrics_new_ok|done].
Qed.

(** A concrete number is in the range of its type. *)
Ltac in_range_const := first [exact I|by vm_compute].

Definition demo_ops : list metrics_op :=
  [ClientConnected; RecordMiss; RecordCommand 12; RecordHit; RecordCommand 30; RecordHit; RecordCommand 7;
   TickSecond 1500000000 (Some 3) (Some 8192) 359; ClientDisconnected; RecordExpiration 2; TickSecond 2500000000 None None 120].

Lemma demo_ops_ok : Forall op_ok demo_ops.
Proof.
  repeat (apply Forall_cons_2; [first [exact I|split_and?; cbn [opt_u64]; in_range_const]|]). apply Forall_nil_2.
Qed.

Lemma metrics_typed_witness :
  exists m', metrics_run demo_ops (Metrics_new 0 (Some 1)) = Some m' /\ metrics_ok m' /\ length (history m') = 2%nat.
Proof.
  destruct (metrics_typed 0 (Some 1) demo_ops) as (m' & Hm & Hok);
    [done|in_range_const|apply demo_ops_ok|].
  exists m'. split; [exact Hm|]. split; [exact Hok|].
  assert (option_map (fun m => length (history m)) (metrics_run demo_ops (Metrics_new 0 (Some 1))) = Some 2%nat) as Hl
    by (vm_compute; reflexivity).
  rewrite Hm in Hl. cbn [option_map] in Hl. congruence.
Defined.

(** C17: [to_json] prints JSON. On every metrics state of the type, whatever the store's
    memory, number of keys and limit, it does not panic, and a reader of RFC 8259 reads its
    text as exactly one document, the one that gives under each name the value of the field,
    the statistics of the latencies and one object per point of the history. *)
Theorem to_json_reads (now memory keys maxmemory : Z) (m : Metrics) (Hok : metrics_ok m)
    (Hnow : 0 <= now <= Instant_max) (Hmem : is_u64 memory) (Hkeys : is_u64 keys) (Hmax : is_u64 maxmemory) :
  exists lat s, latency_stats m = Some lat /\ to_json now memory keys maxmemory m = Some s
  /\ read_json s = Some (metrics_json now memory keys maxmemory m lat).
Proof.
  destruct (latency_stats_ok m Hok) as (lat & Hlat & _).
  exists lat, (render (metrics_json now memory keys maxmemory m lat)). split; [done|].
  split; [by apply to_json_render|]. by apply read_json_render, metrics_json_ok.
Qed.

Definition demo_metrics : Metrics := record_command 15 (client_connected (record_miss (record_hit (Metrics_new 0 None)))).

Lemma demo_metrics_ok : metrics_ok demo_metrics.
Proof.
  destruct (metrics_run_ok [RecordHit; RecordMiss; ClientConnected; RecordCommand 15] (Metrics_new 0 None)) as (m & [= <-] & H);
    [by apply metrics_new_ok| |exact H].
  repeat (apply Forall_cons_2; [in_range_const|]). apply Forall_nil_2.
Qed.

Lemma to_json_reads_witness :
  exists lat s, latency_stats demo_metrics = Some lat /\ to_json 1000000000 1024 5 0 demo_metrics = Some s
  /\ read_json s = Some (metrics_json 1000000000 1024 5 0 demo_metrics lat).
Proof. apply to_json_reads; [exact demo_metrics_ok|in_range_const..]. Defined.

(** The document of that state, evaluated: the test of the source looks for these texts. *)
Example to_json_hits :
  exists before after, to_json 1000000000 1024 5 0 demo_metrics =
    Some (before ++ js "'cache_hit_ratio':50.00,'cache_miss_ratio':50.00,'hits':1,'misses':1," ++ after).
Proof.
  exists (js "{'server':{'status':'running','uptime_seconds':1,'total_keys':5},'metrics':{").
  eexists. vm_compute. reflexivity.
Qed.
