(* ===== verification/Procfs.v ===== *)
(** * The readers of [/proc] of [src/src/metrics.rs]

    [read_proc_cpu_jiffies] and [read_proc_rss_bytes], given what reading the file returned
    ([None] when it cannot be read or is not UTF-8), and that they read the fields that the
    kernel documents, whatever the name of the process is. *)
From S2P Require Import Prelude.
From S2P Require Import RustStd.

(** [str::rfind] of a character *)
Fixpoint rfind (c : ascii) (s : bytes) : option nat :=
  match s with
  | [] => None
  | x :: s' =>
    match rfind c s' with
    | Some i => Some (S i)
    | None => if Ascii.eqb x c then Some 0%nat else None
    end
  end.

(** [&s[i..]]; [None] is the panic when [i] is beyond the end or inside a character. *)
Definition slice_from (s : bytes) (i : nat) : option bytes :=
  match s !! i with
  | Some c => if utf8_cont c then None else Some (drop i s)
  | None => if (i =? length s)%nat then Some [] else None
  end.

(** The outer [None] is a panic, [Some None] the function's [None]. The sum is one of [u64]. *)
Definition read_proc_cpu_jiffies (file : option bytes) : option (option Z) :=
  match file with
  | None => Some None
  | Some stat =>
    match rfind ")" stat with
    | None => Some None
    | Some after_paren =>
      rest ← slice_from stat (after_paren + 2);
      let fields := split_whitespace rest in
      Some (if (12 <? length fields)%nat then
        f11 ← fields !! 11%nat; utime ← parse_u64 f11;
        f12 ← fields !! 12%nat; stime ← parse_u64 f12;
        Some (wrap_u64 (utime + stime))
      else None)
    end
  end.

Definition read_proc_rss_bytes (file : option bytes) : option Z :=
  statm ← file;
  let fields := split_whitespace statm in
  if (1 <? length fields)%nat then
    f1 ← fields !! 1%nat; pages ← parse_u64 f1; Some (wrap_u64 (pages * 4096))
  else None.

(** ** Lemmas *)

(** The visible ASCII characters. *)
Definition graphic (c : ascii) : bool := in_range 33 126 c.
Definition token (t : bytes) : Prop := t <> [] /\ Forall graphic t.

Lemma ws_len_graphic c s : graphic c = true -> ws_len (c :: s) = 0%nat.
Proof.
  unfold graphic, in_range. intros [H1%Z.leb_le H2%Z.leb_le]%andb_true_iff. unfold ws_len, in_range.
  rewrite (proj2 (Z.leb_gt (u8 c) 13)), (proj2 (Z.eqb_neq (u8 c) 32)) by lia. rewrite andb_false_r. cbn [orb].
  destruct s as [|b s]; [done|].
  rewrite (proj2 (Z.eqb_neq (u8 c) 194)), (proj2 (Z.eqb_neq (u8 c) 225)), (proj2 (Z.eqb_neq (u8 c) 226)),
    (proj2 (Z.eqb_neq (u8 c) 227)) by lia.
  by destruct s.
Qed.

Lemma split_ws_graphic t cur s : Forall graphic t -> split_ws 0 cur (t ++ s) = split_ws 0 (rev t ++ cur) s.
Proof.
  intros Ht. revert cur. induction Ht as [|c t Hc _ IH]; intros cur; [done|]. cbn [app split_ws].
  change (c :: t ++ s) with (c :: (t ++ s)). rewrite (ws_len_graphic _ _ (Is_true_eq_true _ Hc)), IH.
  cbn [rev]. by rewrite <- app_assoc.
Qed.

Lemma split_whitespace_token t (sp : ascii) s : token t -> sp ∈ [" "%char; LF] ->
  split_whitespace (t ++ sp :: s) = t :: split_whitespace s.
Proof.
  intros [Hne Ht] Hsp. unfold split_whitespace. rewrite split_ws_graphic, app_nil_r by done.
  assert (ws_len (sp :: s) = 1%nat) as Hw.
  { apply list_elem_of_In in Hsp as [<-|[<-|[]]]; reflexivity. }
  cbn [split_ws]. rewrite Hw. unfold emit. destruct (rev t) eqn:E; [by apply (f_equal (@rev ascii)) in E; rewrite rev_involutive in E|].
  rewrite <- E, rev_involutive. done.
Qed.

(** Fields separated by spaces, ended by a newline. *)
Fixpoint fields_line (l : list bytes) : bytes :=
  match l with [] => [LF] | [t] => t ++ [LF] | t :: l' => t ++ " "%char :: fields_line l' end.

Lemma split_fields_line l : Forall token l -> split_whitespace (fields_line l) = l.
Proof.
  induction 1 as [|t l Ht _ IH]; [done|]. destruct l as [|u l].
  - cbn [fields_line]. rewrite split_whitespace_token; [done|done|set_solver].
  - change (fields_line (t :: u :: l)) with (t ++ " "%char :: fields_line (u :: l)).
    rewrite split_whitespace_token; [by rewrite IH|done|set_solver].
Qed.

Lemma show_uint_token n : token (show_uint n).
Proof.
  split; [by destruct (show_uint_cons n) as (c & s & -> & _)|].
  eapply Forall_impl; [apply show_uint_digits|]. intros c Hc%Is_true_eq_true. apply Is_true_eq_left.
  unfold is_digit, graphic, in_range in *. apply andb_true_iff in Hc as [H1%Z.leb_le H2%Z.leb_le].
  apply andb_true_iff. split; apply Z.leb_le; lia.
Qed.

Lemma rfind_app (c : ascii) s t : c ∉ t -> rfind c (s ++ c :: t) = Some (length s).
Proof.
  intros Ht. assert (rfind c t = None) as Hn.
  { induction t as [|x t IH]; [done|]. cbn. rewrite IH by set_solver.
    destruct (Ascii.eqb_spec x c) as [->|]; [set_solver|done]. }
  induction s as [|x s IH]; cbn [app rfind length]; [by rewrite Hn, Ascii.eqb_refl|by rewrite IH].
Qed.

(** ** Properties *)

(** The text of [/proc/self/stat] as proc(5) documents it: the process id, the name in
    parentheses, then fields separated by spaces. The name is arbitrary text: it may hold
    spaces and parentheses. *)
Definition stat_text (pid name : bytes) (fields : list bytes) : bytes :=
  pid ++ bs " (" ++ name ++ bs ") " ++ fields_line fields.

(** The CPU time of the process is found: whatever the name of the process, the reader
    returns the sum of the 14th and 15th fields of the line ([utime] and [stime], the 12th
    and 13th after the name), modulo [2^64]. *)
Lemma cpu_jiffies_read (pid name : bytes) (fields : list bytes) (utime stime : Z) :
  Forall token fields -> Forall (fun t => ")"%char ∉ t) fields ->
  fields !! 11%nat = Some (show_uint utime) -> fields !! 12%nat = Some (show_uint stime) ->
  0 <= utime <= u64_max -> 0 <= stime <= u64_max ->
  read_proc_cpu_jiffies (Some (stat_text pid name fields)) = Some (Some (wrap_u64 (utime + stime))).
Proof.
  intros Htok Hpar H11 H12 Hu Hs. unfold read_proc_cpu_jiffies, stat_text.
  replace (pid ++ bs " (" ++ name ++ bs ") " ++ fields_line fields)
    with ((pid ++ bs " (" ++ name) ++ ")"%char :: " "%char :: fields_line fields) by by rewrite <- !app_assoc.
  set (before := pid ++ bs " (" ++ name). rewrite rfind_app.
  2: { intros [?|Hin]%elem_of_cons; [done|]. clear - Hpar Hin.
    induction Hpar as [|t l Ht _ IH]; [by apply list_elem_of_singleton in Hin|].
    destruct l as [|u l]; [by apply elem_of_app in Hin as [?|?%list_elem_of_singleton]|].
    change (fields_line (t :: u :: l)) with (t ++ " "%char :: fields_line (u :: l)) in Hin.
    apply elem_of_app in Hin as [?|[?|?]%elem_of_cons]; [done|done|by apply IH]. }
  assert (slice_from (before ++ ")"%char :: " "%char :: fields_line fields) (length before + 2) = Some (fields_line fields)) as ->.
  { unfold slice_from. rewrite lookup_app_r by lia. replace (length before + 2 - length before)%nat with 2%nat by lia.
    rewrite drop_app_ge by lia. replace (length before + 2 - length before)%nat with 2%nat by lia. cbn [drop lookup list_lookup].
    destruct fields as [|t fields]; [done|]. inversion Htok as [|? ? [Hne Hg] _]; subst.
    assert (exists c s, fields_line (t :: fields) = c :: s /\ graphic c = true) as (c & s & -> & Hc).
    { destruct t as [|c t]; [done|]. inversion Hg as [|? ? Hc _]. destruct fields; eexists _, _; (split; [reflexivity|]);
      by apply Is_true_eq_true. }
    cbn. unfold utf8_cont, graphic, in_range in *. apply andb_true_iff in Hc as [_ Hc%Z.leb_le].
    by rewrite (proj2 (Z.leb_gt 128 (u8 c))) by lia. }
  cbn [mbind option_bind]. rewrite split_fields_line by done.
  pose proof (lookup_lt_Some _ _ _ H12). rewrite (proj2 (Nat.ltb_lt _ _)) by done.
  rewrite H11, H12. cbn [mbind option_bind]. unfold parse_u64. by rewrite !parse_int_show_uint by lia.
Qed.

(** The resident set size is found: the second field of [/proc/self/statm], in pages. *)
Lemma rss_bytes_read (fields : list bytes) (pages : Z) :
  Forall token fields -> fields !! 1%nat = Some (show_uint pages) -> 0 <= pages <= u64_max ->
  read_proc_rss_bytes (Some (fields_line fields)) = Some (wrap_u64 (pages * 4096)).
Proof.
  intros Htok H1 Hp. unfold read_proc_rss_bytes. cbn [mbind option_bind]. rewrite split_fields_line by done.
  pose proof (lookup_lt_Some _ _ _ H1). rewrite (proj2 (Nat.ltb_lt _ _)) by done.
  rewrite H1. cbn [mbind option_bind]. unfold parse_u64. by rewrite parse_int_show_uint by lia.
Qed.

(** A name that ends the line makes the reader panic: the slice starts beyond the text. *)
Example truncated_stat_panics : read_proc_cpu_jiffies (Some (bs "1 (cache)")) = None.
Proof. vm_compute. reflexivity. Qed.

Example stat_read :
  read_proc_cpu_jiffies (Some (stat_text (bs "42") (bs "in-memory) (cache")
    (map bs ["S"; "1"; "42"; "42"; "0"; "-1"; "4194560"; "120"; "0"; "0"; "0"; "17"; "5"; "0"]%string))) = Some (Some 22).
Proof. vm_compute. reflexivity. Qed.
