(* ===== verification/Http.v ===== *)
(** * HTTP texts

    What [src/src/web.rs] uses of Rust's strings ([from_utf8_lossy], [lines], [split]), the
    responses it prints, and the reference they are checked against: a reader of HTTP/1.1
    responses (status line, header fields, a body delimited by [Content-Length]) and of
    streams of server-sent events. *)
From S2P Require Import Prelude.
From S2P Require Import RustStd.
From S2P Require Import Metrics.

(** ** Strings *)

(** The first character of a text: how many bytes it takes, and whether they are valid
    UTF-8; of an invalid one, the longest prefix of a valid character. *)
Definition utf8_head (s : bytes) : bool * nat :=
  match s with
  | [] => (true, 0%nat)
  | a :: s1 =>
    let three lo hi :=
      match s1 with
      | b :: s2 => if in_range lo hi b then
          match s2 with c :: _ => if utf8_cont c then (true, 3%nat) else (false, 2%nat) | [] => (false, 2%nat) end
        else (false, 1%nat)
      | [] => (false, 1%nat)
      end in
    let four lo hi :=
      match s1 with
      | b :: s2 => if in_range lo hi b then
          match s2 with
          | c :: s3 => if utf8_cont c then
              match s3 with d :: _ => if utf8_cont d then (true, 4%nat) else (false, 3%nat) | [] => (false, 3%nat) end
            else (false, 2%nat)
          | [] => (false, 2%nat)
          end
        else (false, 1%nat)
      | [] => (false, 1%nat)
      end in
    if is_ascii a then (true, 1%nat)
    else if in_range 194 223 a then
      match s1 with b :: _ => if utf8_cont b then (true, 2%nat) else (false, 1%nat) | [] => (false, 1%nat) end
    else if u8 a =? 224 then three 160 191
    else if u8 a =? 237 then three 128 159
    else if in_range 225 239 a then three 128 191
    else if u8 a =? 240 then four 144 191
    else if in_range 241 243 a then four 128 191
    else if u8 a =? 244 then four 128 143
    else (false, 1%nat)
  end.

(** U+FFFD in UTF-8 *)
Definition REPLACEMENT : bytes := [byte_of 239; byte_of 191; byte_of 189].

(** [String::from_utf8_lossy]: every character takes a byte at least. *)
Fixpoint lossy (fuel : nat) (s : bytes) : bytes :=
  match fuel, s with
  | S fuel', _ :: _ =>
    let '(valid, n) := utf8_head s in
    (if valid then take n s else REPLACEMENT) ++ lossy fuel' (drop n s)
  | _, _ => []
  end.
Definition from_utf8_lossy (s : bytes) : bytes := lossy (length s) s.

(** [s.split(c)]: one piece more than there are separators. *)
Fixpoint split_char (c : ascii) (s : bytes) : list bytes :=
  match s with
  | [] => [[]]
  | x :: s' =>
    if Ascii.eqb x c then [] :: split_char c s'
    else match split_char c s' with p :: ps => (x :: p) :: ps | [] => [[x]] end
  end.

(** [s.lines().next()]: the text before the first newline, without a carriage return at
    its end when there was a newline. *)
Definition strip_cr (s : bytes) : bytes :=
  match rev s with c :: r => if Ascii.eqb c CR then rev r else s | [] => s end.
Definition first_line (s : bytes) : option bytes :=
  match s with
  | [] => None
  | _ => match split_char LF s with p :: _ :: _ => Some (strip_cr p) | [p] => Some p | [] => None end
  end.

(** ** A reader of responses *)

(** The text before the first CRLF and after it. *)
Fixpoint cut_crlf (s : bytes) : option (bytes * bytes) :=
  match s with
  | x :: (y :: s2) as s' =>
    if Ascii.eqb x CR && Ascii.eqb y LF then Some ([], s2) else '(a, b) ← cut_crlf s'; Some (x :: a, b)
  | _ => None
  end.

Fixpoint cut_colon (s : bytes) : option (bytes * bytes) :=
  match s with
  | [] => None
  | x :: s' =>
    if Ascii.eqb x ":" then Some ([], match s' with " "%char :: v => v | _ => s' end)
    else '(a, b) ← cut_colon s'; Some (x :: a, b)
  end.

(** Header fields up to the empty line. *)
Fixpoint read_headers (fuel : nat) (s : bytes) : option (list (bytes * bytes) * bytes) :=
  match fuel with
  | O => None
  | S fuel' =>
    '(line, rest) ← cut_crlf s;
    match line with
    | [] => Some ([], rest)
    | _ => h ← cut_colon line; '(hs, rest) ← read_headers fuel' rest; Some (h :: hs, rest)
    end
  end.

Definition header (name : bytes) (hs : list (bytes * bytes)) : option bytes :=
  snd <$> find (fun h => bool_decide (h.1 = name)) hs.

(** A whole response: the status line, the header fields, and a body of exactly the
    announced length. *)
Definition read_response (s : bytes) : option (bytes * list (bytes * bytes) * bytes) :=
  '(status, rest) ← cut_crlf s;
  '(hs, body) ← read_headers (S (length rest)) rest;
  l ← header (bs "Content-Length") hs;
  n ← parse_digits 0 l;
  if n =? len body then Some (status, hs, body) else None.

(** A stream of server-sent events, each one line of data and an empty line. *)
Fixpoint cut_event (s : bytes) : option (bytes * bytes) :=
  match s with
  | x :: (y :: s2) as s' =>
    if Ascii.eqb x LF && Ascii.eqb y LF then Some ([], s2) else '(a, b) ← cut_event s'; Some (x :: a, b)
  | _ => None
  end.
Definition strip_prefix (p s : bytes) : option bytes :=
  if bool_decide (take (length p) s = p) then Some (drop (length p) s) else None.

Fixpoint read_events (fuel : nat) (s : bytes) : option (list bytes) :=
  match fuel, s with
  | _, [] => Some []
  | O, _ => None
  | S fuel', _ =>
    '(line, rest) ← cut_event s;
    d ← strip_prefix (bs "data: ") line;
    ds ← read_events fuel' rest;
    Some (d :: ds)
  end.

(** ** What the program prints *)

(** The status line, the header fields with the length of the body, the body. *)
Definition response (status : bytes) (headers : list bytes) (body : bytes) : bytes :=
  crlf_lines (status :: headers ++ [bs "Content-Length: " ++ show_uint (len body); bs "Connection: close"; []]) ++ body.

Definition LFLF : bytes := [LF; LF].
Definition event (json : bytes) : bytes := bs "data: " ++ json ++ LFLF.

(** ** Reading back *)

Definition no_cr (s : bytes) : bool := forallb (fun c => negb (Ascii.eqb c CR)) s.

Lemma cut_crlf_line line rest : no_cr line = true -> cut_crlf (line ++ CRLF ++ rest) = Some (line, rest).
Proof.
  induction line as [|x line IH]; intros Hl; [done|]. cbn in Hl. apply andb_true_iff in Hl as [Hx Hl].
  specialize (IH Hl). apply negb_true_iff in Hx. cbn [app cut_crlf].
  destruct (line ++ CRLF ++ rest) as [|y s] eqn:E; [by destruct line|]. rewrite Hx. cbn [andb]. by rewrite IH.
Qed.

Lemma crlf_lines_cons l ls rest : crlf_lines (l :: ls) ++ rest = l ++ CRLF ++ crlf_lines ls ++ rest.
Proof. unfold crlf_lines. cbn [map concat]. by rewrite <- !app_assoc. Qed.

Lemma read_headers_lines ls hs rest fuel :
  Forall2 (fun l h => l <> [] /\ no_cr l = true /\ cut_colon l = Some h) ls hs -> (length ls < fuel)%nat ->
  read_headers fuel (crlf_lines (ls ++ [[]]) ++ rest) = Some (hs, rest).
Proof.
  intros Hls. revert fuel. induction Hls as [|l h ls hs (Hne & Hcr & Hh) _ IH]; intros fuel Hf.
  - destruct fuel; [cbn in Hf; lia|]. done.
  - destruct fuel as [|fuel]; [cbn in Hf; lia|]. cbn [app]. rewrite crlf_lines_cons. cbn [read_headers].
    rewrite cut_crlf_line by done. cbn [mbind option_bind]. destruct l as [|c l]; [done|]. rewrite Hh.
    cbn [mbind option_bind]. rewrite IH by (cbn in Hf; lia). done.
Qed.

Lemma digits_no_cr s : Forall is_digit s -> no_cr s = true.
Proof.
  unfold no_cr. induction 1 as [|c s Hc _ IH]; [done|]. cbn [forallb]. rewrite IH, andb_true_r. apply negb_true_iff.
  destruct (Ascii.eqb_spec c CR) as [->|]; done.
Qed.

Lemma find_app_None {A} (p : A -> bool) l l' : find p l = None -> find p (l ++ l') = find p l'.
Proof. induction l as [|x l IH]; cbn; [done|]. by destruct (p x). Qed.

(** A printed response is read back, when its header fields have the form of one and give
    no length themselves. *)
Lemma read_response_response status headers hs body :
  no_cr status = true ->
  Forall2 (fun l h => l <> [] /\ no_cr l = true /\ cut_colon l = Some h) headers hs ->
  header (bs "Content-Length") hs = None ->
  read_response (response status headers body) =
    Some (status, hs ++ [(bs "Content-Length", show_uint (len body)); (bs "Connection", bs "close")], body).
Proof.
  intros Hst Hh Hnone. unfold read_response, response. rewrite crlf_lines_cons, cut_crlf_line by done.
  cbn [mbind option_bind].
  replace (headers ++ [bs "Content-Length: " ++ show_uint (len body); bs "Connection: close"; []])
    with ((headers ++ [bs "Content-Length: " ++ show_uint (len body); bs "Connection: close"]) ++ [[]])
    by by rewrite <- app_assoc.
  rewrite (read_headers_lines _ (hs ++ [(bs "Content-Length", show_uint (len body)); (bs "Connection", bs "close")])).
  - cbn [mbind option_bind]. unfold header in *. rewrite find_app_None.
    2: { destruct (find _ hs); [done|done]. }
    change (find _ ((bs "Content-Length", show_uint (len body)) :: _))
      with (Some (bs "Content-Length", show_uint (len body))). cbn [fmap option_fmap option_map snd mbind option_bind].
    rewrite parse_show_uint by apply len_nonneg.
    cbn [mbind option_bind]. by rewrite Z.eqb_refl.
  - apply Forall2_app; [done|]. constructor; [|by repeat constructor].
    split; [done|]. split; [|reflexivity]. unfold no_cr. rewrite forallb_app. apply (digits_no_cr _ (show_uint_digits _)).
  - apply Forall2_length in Hh. unfold crlf_lines. rewrite !length_app.
    assert (forall l : list bytes, (length l <= length (concat (map (fun l => l ++ CRLF) l)))%nat) as Hc.
    { induction l as [|x l IH]; [done|]. cbn [map concat length]. rewrite !length_app. cbn. lia. }
    specialize (Hc ((headers ++ [bs "Content-Length: " ++ show_uint (len body); bs "Connection: close"]) ++ [[]])).
    rewrite !length_app in Hc. cbn [length] in *. lia.
Qed.

Definition no_lf (s : bytes) : bool := forallb (fun c => negb (Ascii.eqb c LF)) s.

Lemma cut_event_line line rest : no_lf line = true -> cut_event (line ++ LFLF ++ rest) = Some (line, rest).
Proof.
  induction line as [|x line IH]; intros Hl; [done|]. cbn in Hl. apply andb_true_iff in Hl as [Hx Hl].
  specialize (IH Hl). apply negb_true_iff in Hx. cbn [app cut_event].
  destruct (line ++ LFLF ++ rest) as [|y s] eqn:E; [by destruct line|]. rewrite Hx.
  cbn [andb]. by rewrite IH.
Qed.

Lemma strip_prefix_app p s : strip_prefix p (p ++ s) = Some s.
Proof. unfold strip_prefix. by rewrite take_app_length, drop_app_length, bool_decide_eq_true_2. Qed.

Lemma read_events_events js : forall fuel, Forall (fun j => no_lf j = true) js -> (length js <= fuel)%nat ->
  read_events fuel (concat (map event js)) = Some js.
Proof.
  induction js as [|j js IH]; intros fuel Hj Hf; [by destruct fuel|]. inversion Hj as [|? ? Hlf Hjs]; subst.
  destruct fuel as [|fuel]; [cbn in Hf; lia|]. cbn [map concat].
  assert (event j ++ concat (map event js) = (bs "data: " ++ j) ++ LFLF ++ concat (map event js)) as E
    by (unfold event; by rewrite <- !app_assoc).
  cbn [read_events]. rewrite E. rewrite cut_event_line by (unfold no_lf; rewrite forallb_app; exact Hlf).
  cbn [mbind option_bind]. rewrite strip_prefix_app. cbn [mbind option_bind].
  rewrite IH by (done || cbn in Hf; lia). done.
Qed.

(** Valid text is not changed by the lossy decoding. *)
Example lossy_example : from_utf8_lossy (bs "GET /" ++ [byte_of 255] ++ [byte_of 226; byte_of 130] ++ bs "x")
  = bs "GET /" ++ REPLACEMENT ++ REPLACEMENT ++ bs "x".
Proof. vm_compute. reflexivity. Qed.

Lemma in_range_split a :
  in_range 225 239 a = (in_range 225 236 a || in_range 238 239 a) || (u8 a =? 237).
Proof. unfold in_range. apply eq_true_iff_eq. rewrite !orb_true_iff, !andb_true_iff, !Z.leb_le, Z.eqb_eq. lia. Qed.
Lemma in_range_237 a : (u8 a =? 237) = true -> in_range 225 236 a || in_range 238 239 a = false.
Proof.
  intros E%Z.eqb_eq. unfold in_range. rewrite E. reflexivity.
Qed.

(** A valid text starts with a valid character, and goes on after it. *)
Lemma utf8_head_valid a s : utf8_valid (a :: s) = true ->
  exists n, utf8_head (a :: s) = (true, S n) /\ utf8_valid (drop n s) = true.
Proof.
  cbn [utf8_valid utf8_head]. unfold is_ascii. rewrite in_range_split.
  destruct (u8 a <? 128); [by exists 0%nat|]. destruct s as [|b s]; [done|].
  destruct (in_range 194 223 a); [intros [-> H]%andb_true_iff; by exists 1%nat|]. destruct s as [|c s]; [done|].
  destruct (u8 a =? 224); [intros [[-> ->]%andb_true_iff H]%andb_true_iff; by exists 2%nat|].
  destruct (u8 a =? 237) eqn:E.
  { rewrite (in_range_237 _ E). intros [[-> ->]%andb_true_iff H]%andb_true_iff. by exists 2%nat. }
  rewrite orb_false_r. destruct (in_range 225 236 a || in_range 238 239 a).
  { unfold utf8_cont at 1. intros [[-> ->]%andb_true_iff H]%andb_true_iff. by exists 2%nat. }
  destruct s as [|d s]; [done|].
  destruct (u8 a =? 240); [intros [[[-> ->]%andb_true_iff ->]%andb_true_iff H]%andb_true_iff; by exists 3%nat|].
  destruct (in_range 241 243 a).
  { unfold utf8_cont at 1. intros [[[-> ->]%andb_true_iff ->]%andb_true_iff H]%andb_true_iff. by exists 3%nat. }
  destruct (u8 a =? 244); [intros [[[-> ->]%andb_true_iff ->]%andb_true_iff H]%andb_true_iff; by exists 3%nat|done].
Qed.

(** Decoding valid text does not change it. *)
Lemma from_utf8_lossy_valid s : utf8_valid s = true -> from_utf8_lossy s = s.
Proof.
  unfold from_utf8_lossy. assert (forall fuel s, (length s <= fuel)%nat -> utf8_valid s = true -> lossy fuel s = s) as H.
  { clear s. induction fuel as [|fuel IH]; intros s Hf Hs; [destruct s; cbn in *; done || lia|].
    destruct s as [|a s]; [done|]. destruct (utf8_head_valid _ _ Hs) as (n & E & Hv). cbn [lossy]. rewrite E.
    cbn [take drop app]. rewrite IH; [by rewrite take_drop|rewrite length_drop; cbn in Hf; lia|done]. }
  by apply H.
Qed.
