(* ===== verification/Glob.v ===== *)
(** * Glob matching: [glob_match] of [src/src/db.rs]

    The loop with its single backtracking point, the matching relation it decides, and the
    proofs that it terminates and is correct. *)
From S2P Require Import Prelude.

(** ** The program *)

(** The local variables [p], [t], [star_p] and [star_t]. *)
Record glob_state := mkGlob { gp : nat; gt : nat; star_p : option nat; star_t : nat }.

(** The loop over the items of a bracket, from just after [\[] (and [^] or [!]): the number
    of pattern bytes it takes, [matched] and [closed]. *)
Fixpoint class_scan (ch : ascii) (l : bytes) (matched : bool) : nat * bool * bool :=
  match l with
  | [] => (0%nat, matched, false)
  | x :: l1 =>
    if Ascii.eqb x "]" then (1%nat, matched, true)
    else
      let one :=
        let '(n, m, c) := class_scan ch l1 (matched || Ascii.eqb x ch) in (S n, m, c) in
      match l1 with
      | d :: l2 =>
        match l2 with
        | e :: l3 =>
          if Ascii.eqb d "-" && negb (Ascii.eqb e "]") then
            let '(n, m, c) :=
              class_scan ch l3 (matched || ((u8 x <=? u8 ch) && (u8 ch <=? u8 e))) in
            (S (S (S n)), m, c)
          else one
        | [] => one
        end
      | [] => one
      end
  end.

(** Resume after the last [*] with one more byte given to it; [None] when there is none. *)
Definition backtrack (st : glob_state) : option glob_state :=
  match star_p st with
  | Some sp => Some (mkGlob (sp + 1) (star_t st + 1) (Some sp) (star_t st + 1))
  | None => None
  end.

(** One iteration of the main loop, at text byte [ch]; [None] is [return false]. *)
Definition glob_body (pattern : bytes) (ch : ascii) (st : glob_state) : option glob_state :=
  let p := gp st in
  let t := gt st in
  let advance_to p' := Some (mkGlob p' (t + 1) (star_p st) (star_t st)) in
  match pattern !! p with
  | None => backtrack st
  | Some pc =>
    if Ascii.eqb pc "*" then Some (mkGlob (p + 1) t (Some p) t)
    else if Ascii.eqb pc "?" then advance_to (p + 1)%nat
    else if Ascii.eqb pc "[" then
      let p := (p + 1)%nat in
      let negate :=
        match pattern !! p with Some c => Ascii.eqb c "^" || Ascii.eqb c "!" | None => false end in
      let p := if negate then (p + 1)%nat else p in
      let '(n, matched, closed) := class_scan ch (drop p pattern) false in
      let p := (p + n)%nat in
      let matched := if closed then matched else false in
      if negb (Bool.eqb matched negate) then advance_to p else backtrack st
    else if Ascii.eqb pc "\" then
      match pattern !! (p + 1)%nat with
      | Some c => if Ascii.eqb c ch then advance_to (p + 1 + 1)%nat else backtrack st
      | None => backtrack st
      end
    else if Ascii.eqb pc ch then advance_to (p + 1)%nat
    else backtrack st
  end.

(** [while p < pattern.len() && pattern[p] == b'*' { p += 1; }] from a suffix. *)
Fixpoint skip_stars (l : bytes) : bytes :=
  match l with c :: l' => if Ascii.eqb c "*" then skip_stars l' else l | [] => [] end.

(** The main loop and the final test; [None] only when the fuel is out. *)
Fixpoint glob_loop (fuel : nat) (pattern text : bytes) (st : glob_state) : option bool :=
  match fuel with
  | O => None
  | S f =>
    match text !! gt st with
    | Some ch =>
      match glob_body pattern ch st with
      | Some st' => glob_loop f pattern text st'
      | None => Some false
      end
    | None => Some (match skip_stars (drop (gp st) pattern) with [] => true | _ => false end)
    end
  end.

(** Every iteration moves right in the pattern or moves the backtracking point right in
    the text, which bounds their number. *)
Definition glob_fuel (pattern text : bytes) : nat :=
  (length text + 2) * (length pattern + 2).

Definition glob_match (pattern text : bytes) : bool :=
  match glob_loop (glob_fuel pattern text) pattern text (mkGlob 0 0 None 0) with
  | Some b => b
  | None => false
  end.

(** ** The specification *)

Inductive class_item := IChar (c : ascii) | IRange (lo hi : ascii).

Definition item_matches (ch : ascii) (i : class_item) : bool :=
  match i with
  | IChar c => Ascii.eqb c ch
  | IRange lo hi => (u8 lo <=? u8 ch) && (u8 ch <=? u8 hi)
  end.

(** The items of a bracket, whether it is closed, and the pattern after it. *)
Fixpoint class_items (l : bytes) : list class_item * bool * bytes :=
  match l with
  | [] => ([], false, [])
  | x :: l1 =>
    if Ascii.eqb x "]" then ([], true, l1)
    else
      let one := let '(its, c, r) := class_items l1 in (IChar x :: its, c, r) in
      match l1 with
      | d :: l2 =>
        match l2 with
        | e :: l3 =>
          if Ascii.eqb d "-" && negb (Ascii.eqb e "]") then
            let '(its, c, r) := class_items l3 in (IRange x e :: its, c, r)
          else one
        | [] => one
        end
      | [] => one
      end
  end.

(** The optional negation. *)
Definition class_negated (l : bytes) : bool * bytes :=
  match l with
  | c :: l' => if Ascii.eqb c "^" || Ascii.eqb c "!" then (true, l') else (false, l)
  | [] => (false, [])
  end.

(** A bracket accepts a byte when it is closed and an item does, or dually if negated. *)
Definition class_accepts (negated closed : bool) (items : list class_item) (ch : ascii) : bool :=
  xorb negated (closed && existsb (item_matches ch) items).

Definition special (c : ascii) : bool :=
  Ascii.eqb c "*" || Ascii.eqb c "?" || Ascii.eqb c "[" || Ascii.eqb c "\".

(** [matches pattern text]: the glob semantics. *)
Inductive matches : bytes -> bytes -> Prop :=
  | m_nil : matches [] []
  | m_star_skip P T : matches P T -> matches ("*"%char :: P) T
  | m_star_take P c T : matches ("*"%char :: P) T -> matches ("*"%char :: P) (c :: T)
  | m_any P c T : matches P T -> matches ("?"%char :: P) (c :: T)
  | m_class P0 P1 P2 negated items closed c T :
      class_negated P0 = (negated, P1) -> class_items P1 = (items, closed, P2) ->
      class_accepts negated closed items c = true ->
      matches P2 T -> matches ("["%char :: P0) (c :: T)
  | m_escape P c T : matches P T -> matches ("\"%char :: c :: P) (c :: T)
  | m_lit P c T : special c = false -> matches P T -> matches (c :: P) (c :: T).

(** ** One pattern token against one byte *)

(** The pattern after its first token, when that token is not [*] and accepts [ch]. *)
Definition one (P : bytes) (ch : ascii) : option bytes :=
  match P with
  | [] => None
  | pc :: P0 =>
    if Ascii.eqb pc "*" then None
    else if Ascii.eqb pc "?" then Some P0
    else if Ascii.eqb pc "[" then
      let '(negated, P1) := class_negated P0 in
      let '(items, closed, P2) := class_items P1 in
      if class_accepts negated closed items ch then Some P2 else None
    else if Ascii.eqb pc "\" then
      match P0 with c :: P1 => if Ascii.eqb c ch then Some P1 else None | [] => None end
    else if Ascii.eqb pc ch then Some P0 else None
  end.

(** Length induction on lists. *)
Lemma list_length_ind {A} (Q : list A -> Prop) :
  (forall l, (forall l', (length l' < length l)%nat -> Q l') -> Q l) -> forall l, Q l.
Proof.
  intros H. refine (well_founded_induction (Wf_nat.well_founded_ltof _ (@length A)) Q _).
  intros l IH. apply H. intros l' Hl. by apply IH.
Qed.

(** The item at the head of the rest of a bracket is a range. *)
Definition range_tail (l1 : bytes) : option ascii :=
  match l1 with
  | d :: e :: _ => if Ascii.eqb d "-" && negb (Ascii.eqb e "]") then Some e else None
  | _ => None
  end.

Lemma class_scan_cons ch x l1 m :
  class_scan ch (x :: l1) m =
    if Ascii.eqb x "]" then (1%nat, m, true)
    else match range_tail l1 with
    | Some e =>
      let '(n, m, c) := class_scan ch (drop 2 l1) (m || item_matches ch (IRange x e)) in (S (S (S n)), m, c)
    | None => let '(n, m, c) := class_scan ch l1 (m || item_matches ch (IChar x)) in (S n, m, c)
    end.
Proof.
  destruct l1 as [|d [|e l3]]; [done|done|]. cbn [class_scan range_tail].
  destruct (Ascii.eqb x "]"); [done|]. by destruct (_ && negb _).
Qed.

Lemma class_items_cons x l1 :
  class_items (x :: l1) =
    if Ascii.eqb x "]" then ([], true, l1)
    else match range_tail l1 with
    | Some e => let '(its, c, r) := class_items (drop 2 l1) in (IRange x e :: its, c, r)
    | None => let '(its, c, r) := class_items l1 in (IChar x :: its, c, r)
    end.
Proof.
  destruct l1 as [|d [|e l3]]; [done|done|]. cbn [class_items range_tail].
  destruct (Ascii.eqb x "]"); [done|]. by destruct (_ && negb _).
Qed.

Lemma range_tail_length l1 e : range_tail l1 = Some e -> (2 <= length l1)%nat.
Proof. destruct l1 as [|d [|e' l3]]; [done|done|]. cbn. intros _. lia. Qed.

(** The scanning loop computes the items' verdict and where the bracket ends. *)
Lemma class_scan_items ch l : forall m its closed rest,
  class_items l = (its, closed, rest) ->
  exists n, class_scan ch l m = (n, m || existsb (item_matches ch) its, closed)
    /\ drop n l = rest /\ (n <= length l)%nat.
Proof.
  induction l as [l IH] using list_length_ind. intros m its closed rest Hi.
  destruct l as [|x l1]; [injection Hi as <- <- <-; exists 0%nat; cbn; by rewrite orb_false_r|].
  rewrite class_items_cons in Hi. rewrite class_scan_cons. cbn [length] in *.
  destruct (Ascii.eqb x "]").
  { injection Hi as <- <- <-. exists 1%nat. cbn [existsb drop]. rewrite orb_false_r. split_and!; [done|by destruct l1|lia]. }
  destruct (range_tail l1) as [e|] eqn:Hr.
  - pose proof (range_tail_length _ _ Hr).
    destruct (class_items (drop 2 l1)) as [[its' c'] r'] eqn:E. injection Hi as <- <- <-.
    destruct (IH (drop 2 l1) ltac:(rewrite length_drop; lia) (m || item_matches ch (IRange x e)) _ _ _ E)
      as (n & -> & Hd & Hn).
    exists (S (S (S n))). cbn [existsb]. rewrite orb_assoc. rewrite length_drop in Hn. split_and!; [done| |lia].
    change (drop (S (S (S n))) (x :: l1)) with (drop (2 + n) l1). by rewrite <- drop_drop.
  - destruct (class_items l1) as [[its' c'] r'] eqn:E. injection Hi as <- <- <-.
    destruct (IH l1 ltac:(lia) (m || item_matches ch (IChar x)) _ _ _ E) as (n & -> & Hd & Hn).
    exists (S n). cbn [existsb drop]. rewrite orb_assoc. split_and!; [done|done|lia].
Qed.

(** Looking at a suffix is indexing from its start. *)
Lemma drop_lookup {A} (l : list A) p : l !! p = head (drop p l).
Proof.
  revert p. induction l as [|x l IH]; intros [|p]; try done. cbn. apply IH.
Qed.

Lemma drop_cons_next {A} (l : list A) p x l' : drop p l = x :: l' ->
  (p < length l)%nat /\ drop (p + 1) l = l'.
Proof.
  intros H. split.
  - apply (f_equal length) in H. rewrite length_drop in H. cbn in H. lia.
  - by rewrite <- drop_drop, H.
Qed.

(** An iteration of the loop, in terms of tokens. *)
Lemma glob_body_spec pattern ch st P :
  drop (gp st) pattern = P ->
  match P with
  | c :: _ => if Ascii.eqb c "*" then glob_body pattern ch st = Some (mkGlob (gp st + 1) (gt st) (Some (gp st)) (gt st)) else True
  | [] => True
  end /\
  (match P with c :: _ => Ascii.eqb c "*" = false | [] => True end ->
   match one P ch with
   | Some P' => exists p', glob_body pattern ch st = Some (mkGlob p' (gt st + 1) (star_p st) (star_t st))
        /\ drop p' pattern = P' /\ (gp st < p' <= length pattern)%nat
   | None => glob_body pattern ch st = backtrack st
   end).
Proof.
  intros HP. unfold glob_body. rewrite drop_lookup, HP. destruct P as [|pc P0]; [done|]. cbn [head].
  split; [by destruct (Ascii.eqb pc "*")|]. intros Hstar. cbn [one]. rewrite Hstar.
  destruct (drop_cons_next _ _ _ _ HP) as [Hp HP0].
  destruct (Ascii.eqb pc "?"); [by exists (gp st + 1)%nat; split_and!; [done|done|lia|lia]|].
  destruct (Ascii.eqb pc "[").
  - rewrite drop_lookup, HP0.
    assert (exists neg p1 P1, class_negated P0 = (neg, P1) /\ drop p1 pattern = P1
      /\ (gp st + 1 <= p1 <= length pattern)%nat
      /\ match head P0 with Some c => Ascii.eqb c "^" || Ascii.eqb c "!" | None => false end = neg
      /\ (if neg then (gp st + 1 + 1)%nat else (gp st + 1)%nat) = p1)
      as (neg & p1 & P1 & Hneg & HP1 & Hp1 & -> & ->).
    { destruct P0 as [|c P0']; [exists false, (gp st + 1)%nat, []; split_and!; (done || lia)|].
      cbn [class_negated head]. destruct (drop_cons_next _ _ _ _ HP0) as [? ?].
      destruct (_ || _); [exists true, (gp st + 1 + 1)%nat, P0' | exists false, (gp st + 1)%nat, (c :: P0')];
        split_and!; (done || lia). }
    rewrite Hneg, HP1. destruct (class_items P1) as [[its closed] P2] eqn:Hits.
    destruct (class_scan_items ch P1 false _ _ _ Hits) as (n & -> & Hd & Hn). cbn [orb].
    unfold class_accepts.
    replace (negb (Bool.eqb (if closed then existsb (item_matches ch) its else false) neg))
      with (xorb neg (closed && existsb (item_matches ch) its))
      by (by destruct closed, neg, (existsb _ _)).
    destruct (xorb _ _); [|done]. exists (p1 + n)%nat. split_and!; [done| |lia|].
    + by rewrite <- drop_drop, HP1.
    + rewrite <- HP1, length_drop in Hn. lia.
  - destruct (Ascii.eqb pc "\").
    + rewrite drop_lookup, HP0. destruct P0 as [|c P1]; [done|]. cbn [head].
      destruct (drop_cons_next _ _ _ _ HP0) as [? ?].
      destruct (Ascii.eqb c ch); [|done]. exists (gp st + 1 + 1)%nat. split_and!; (done || lia).
    + destruct (Ascii.eqb pc ch); [|done]. exists (gp st + 1)%nat. split_and!; (done || lia).
Qed.

(** ** The relation *)

Lemma one_unique P c1 c2 P1 P2 : one P c1 = Some P1 -> one P c2 = Some P2 -> P1 = P2.
Proof.
  destruct P as [|pc P0]; [done|]. cbn.
  destruct (class_negated P0) as [neg Q]. destruct (class_items Q) as [[its closed] R].
  repeat case_match; congruence.
Qed.

Lemma one_not_star P c P' : one P c = Some P' -> match P with c :: _ => Ascii.eqb c "*" = false | [] => False end.
Proof. destruct P as [|pc P0]; [done|]. cbn. by destruct (Ascii.eqb pc "*"). Qed.

Lemma matches_one P c T :
  match P with c :: _ => Ascii.eqb c "*" = false | [] => True end ->
  matches P (c :: T) <-> exists P', one P c = Some P' /\ matches P' T.
Proof.
  intros Hstar. split.
  - intros H. inversion H as [|P1 T1 H1|P1 c1 T1 H1|P1 c1 T1 H1|P0 P1 P2 neg its closed c1 T1 Hn Hi Ha H1|P1 c1 T1 H1|P1 c1 T1 Hsp H1];
      subst; try (by cbn in Hstar).
    + by exists P1.
    + exists P2. cbn. by rewrite Hn, Hi, Ha.
    + exists P1. cbn. by rewrite Ascii.eqb_refl.
    + exists P1. unfold special in Hsp. rewrite !orb_false_iff in Hsp. destruct Hsp as [[[_ E1] E2] E3].
      cbn [one]. by rewrite Hstar, E1, E2, E3, Ascii.eqb_refl.
  - intros (P' & H1 & HT). destruct P as [|pc P0]; [done|]. cbn [one] in H1. rewrite Hstar in H1.
    destruct (Ascii.eqb_spec pc "?") as [->|E1]; [by injection H1 as ->; constructor|].
    destruct (Ascii.eqb_spec pc "[") as [->|E2].
    { destruct (class_negated P0) as [neg Q] eqn:Hn. destruct (class_items Q) as [[its closed] R] eqn:Hi.
      destruct (class_accepts _ _ _ _) eqn:Ha; [|done]. injection H1 as ->. by econstructor. }
    destruct (Ascii.eqb_spec pc "\") as [->|E3].
    { destruct P0 as [|d P1]; [done|]. destruct (Ascii.eqb_spec d c) as [->|]; [|done].
      injection H1 as ->. by constructor. }
    destruct (Ascii.eqb_spec pc c) as [->|]; [|done]. injection H1 as ->. apply m_lit; [|done].
    unfold special. rewrite Hstar. by destruct (Ascii.eqb_spec c "?"), (Ascii.eqb_spec c "["), (Ascii.eqb_spec c "\").
Qed.

Lemma matches_star P T :
  matches ("*"%char :: P) T <-> exists k, (k <= length T)%nat /\ matches P (drop k T).
Proof.
  split.
  - intros H. remember ("*"%char :: P) as P0 eqn:E. revert E.
    induction H as [|P1 T1 H1 _|P1 c1 T1 _ IH|P1 c1 T1 H1 _|? ? ? ? ? ? ? ? ? ? ? ? _|? ? ? ? _|P1 c1 T1 Hsp H1 _];
      intros E; try discriminate E; try (injection E as ->).
    + exists 0%nat. split; [lia|done].
    + destruct IH as (k & Hk & H); [done|]. exists (S k). cbn. split; [lia|done].
    + discriminate Hsp.
  - intros (k & Hk & H). revert T Hk H. induction k as [|k IH]; intros T Hk H.
    + by constructor.
    + destruct T as [|c T]; [cbn in Hk; lia|]. cbn in *. apply m_star_take, IH; [lia|done].
Qed.

Lemma matches_nil_r P : matches P [] <-> skip_stars P = [].
Proof.
  induction P as [|c P IH]; [split; [done|constructor]|]. cbn.
  destruct (Ascii.eqb_spec c "*") as [->|Hc].
  - rewrite <- IH. rewrite matches_star. split.
    + intros (k & Hk & H). cbn in Hk. by replace k with 0%nat in H by lia.
    + intros H. by exists 0%nat.
  - split; [|done]. intros H. by inversion H.
Qed.

(** [runs P cs P']: the single-byte tokens from [P] to [P'] accept [cs]. *)
Inductive runs : bytes -> bytes -> bytes -> Prop :=
  | runs_nil P : runs P [] P
  | runs_cons P c P1 cs P2 : one P c = Some P1 -> runs P1 cs P2 -> runs P (c :: cs) P2.

Lemma runs_snoc P cs P1 c P2 : runs P cs P1 -> one P1 c = Some P2 -> runs P (cs ++ [c]) P2.
Proof. induction 1 as [|P c' P' cs P'' H1 H2 IH]; intros H; cbn; econstructor; eauto using runs. Qed.

(** Whatever a pattern matches starts with bytes for its leading single-byte tokens. *)
Lemma runs_matches P cs P1 U : runs P cs P1 -> matches P U ->
  (length cs <= length U)%nat /\ matches P1 (drop (length cs) U).
Proof.
  intros H. revert U. induction H as [P|P c P1 cs P2 H1 H2 IH]; intros U HU; cbn [length].
  { split; [lia|done]. }
  pose proof (one_not_star _ _ _ H1) as Hns. destruct P as [|pc P0]; [done|].
  destruct U as [|c' U].
  { apply matches_nil_r in HU. cbn in HU. by rewrite Hns in HU. }
  apply matches_one in HU as (P' & H1' & HU); [|done].
  rewrite (one_unique _ _ _ _ _ H1' H1) in HU. destruct (IH U HU). cbn. split; [lia|done].
Qed.

(** ** The invariant of the main loop *)

Section loop.
Context (pattern text : bytes).

Definition glob_inv (st : glob_state) : Prop :=
  (gp st <= length pattern)%nat /\ (gt st <= length text)%nat /\ (star_t st <= gt st)%nat /\
  match star_p st with
  | Some sp => (sp < length pattern)%nat /\
      runs (drop (sp + 1) pattern) (take (gt st - star_t st) (drop (star_t st) text)) (drop (gp st) pattern)
  | None => True
  end.

(** What is left to try: the current suffixes, or the last star taking more bytes. *)
Definition star_option (st : glob_state) : Prop :=
  exists sp k, star_p st = Some sp /\ (1 <= k)%nat /\ (star_t st + k <= length text)%nat /\
    matches (drop (sp + 1) pattern) (drop (star_t st + k) text).

Definition remaining (st : glob_state) : Prop :=
  matches (drop (gp st) pattern) (drop (gt st) text) \/ star_option st.

Definition glob_measure (st : glob_state) : nat :=
  (length text + 1 - star_t st) * (length pattern + 2) + (length pattern + 1 - gp st).

(** If the last star could take more bytes, so can the tokens after it, shifted. *)
Lemma star_option_shift st : glob_inv st -> star_option st ->
  exists k, (gt st + k <= length text)%nat /\ (1 <= k)%nat /\ matches (drop (gp st) pattern) (drop (gt st + k) text).
Proof.
  intros (_ & Ht & Hs & Hr) (sp & k & Hsp & Hk & Hle & Hm). rewrite Hsp in Hr. destruct Hr as [_ Hr].
  destruct (runs_matches _ _ _ _ Hr Hm) as [Hlen Hm'].
  rewrite length_take, !length_drop in Hlen. rewrite length_take, length_drop, drop_drop in Hm'.
  exists k. split_and!; [lia|done|].
  by replace (gt st + k)%nat with (star_t st + k + (gt st - star_t st) `min` (length text - star_t st))%nat by lia.
Qed.

Lemma step_star st c P' : glob_inv st -> drop (gp st) pattern = c :: P' -> Ascii.eqb c "*" = true ->
  let st' := mkGlob (gp st + 1) (gt st) (Some (gp st)) (gt st) in
  glob_inv st' /\ (remaining st <-> remaining st') /\ (glob_measure st' < glob_measure st)%nat.
Proof.
  intros Hinv Hd Hc st'. apply Ascii.eqb_eq in Hc as ->.
  destruct (drop_cons_next _ _ _ _ Hd) as [Hp HP']. pose proof Hinv as (_ & Ht & Hs & _). split_and!.
  - unfold glob_inv, st'. cbn. rewrite Nat.sub_diag, take_0. split_and!; try lia. constructor.
  - assert (remaining st' <-> matches (drop (gp st) pattern) (drop (gt st) text)) as ->.
    { unfold remaining, star_option, st'. cbn. rewrite Hd, HP', matches_star, length_drop. split.
      - intros [H|(sp & k & [= <-] & Hk & Hle & H)]; [exists 0%nat; rewrite drop_0; split; [lia|done]|].
        exists k. rewrite drop_drop. rewrite HP' in H. split; [lia|done].
      - intros (k & Hk & H). rewrite drop_drop in H. destruct k as [|k].
        + left. by rewrite Nat.add_0_r in H.
        + right. exists (gp st), (S k). rewrite HP'. split_and!; [done|lia|lia|done]. }
    split; [|by left]. intros [H|H]; [done|]. apply star_option_shift in H as (k & Hk & _ & H); [|done].
    rewrite Hd in *. rewrite matches_star in *. destruct H as (j & Hj & H).
    rewrite drop_drop in H. rewrite length_drop in *. exists (k + j)%nat. rewrite drop_drop.
    split; [lia|]. by rewrite Nat.add_assoc.
  - unfold glob_measure, st'. cbn. nia.
Qed.

Lemma step_one st ch T' p' : glob_inv st -> drop (gt st) text = ch :: T' ->
  one (drop (gp st) pattern) ch = Some (drop p' pattern) -> (gp st < p' <= length pattern)%nat ->
  let st' := mkGlob p' (gt st + 1) (star_p st) (star_t st) in
  glob_inv st' /\ (remaining st <-> remaining st') /\ (glob_measure st' < glob_measure st)%nat.
Proof.
  intros (Hp & Ht & Hs & Hr) HT Ho Hp' st'. destruct (drop_cons_next _ _ _ _ HT) as [Htl HT']. split_and!.
  - unfold glob_inv, st'. cbn. split_and!; try lia. destruct (star_p st) as [sp|]; [|done].
    destruct Hr as [Hsp Hr]. split; [done|].
    replace (take (gt st + 1 - star_t st) (drop (star_t st) text))
      with (take (gt st - star_t st) (drop (star_t st) text) ++ [ch]); [by eapply runs_snoc|].
    replace (gt st + 1 - star_t st)%nat with (S (gt st - star_t st)) by lia.
    symmetry. apply take_S_r. rewrite lookup_drop. replace (star_t st + (gt st - star_t st))%nat with (gt st) by lia.
    by rewrite drop_lookup, HT.
  - unfold remaining. assert (star_option st' <-> star_option st) as -> by done.
    unfold st'. cbn. rewrite HT, HT'. rewrite matches_one; [|pose proof (one_not_star _ _ _ Ho); by destruct (drop (gp st) pattern)].
    split; (intros [H|H]; [left|by right]).
    + destruct H as (P' & Ho' & H). congruence.
    + by exists (drop p' pattern).
  - unfold glob_measure, st'. cbn. lia.
Qed.

Lemma step_backtrack st ch T' : glob_inv st -> drop (gt st) text = ch :: T' ->
  match drop (gp st) pattern with c :: _ => Ascii.eqb c "*" = false | [] => True end ->
  one (drop (gp st) pattern) ch = None ->
  match backtrack st with
  | Some st' => glob_inv st' /\ (remaining st <-> remaining st') /\ (glob_measure st' < glob_measure st)%nat
  | None => ~ remaining st
  end.
Proof.
  intros (Hp & Ht & Hs & Hr) HT Hns Ho. destruct (drop_cons_next _ _ _ _ HT) as [Htl HT'].
  assert (~ matches (drop (gp st) pattern) (drop (gt st) text)) as Hno.
  { rewrite HT, matches_one by done. intros (P' & ? & _). congruence. }
  unfold backtrack. destruct (star_p st) as [sp|] eqn:Hsp.
  - destruct Hr as [Hspl Hr]. split_and!.
    + unfold glob_inv. cbn. rewrite Nat.sub_diag, take_0. split_and!; try lia. constructor.
    + unfold remaining, star_option. cbn. rewrite Hsp. split.
      * intros [H|(sp' & k & [= <-] & Hk & Hle & H)]; [done|]. destruct (decide (k = 1%nat)) as [->|]; [by left|].
        right. exists sp, (k - 1)%nat. replace (star_t st + 1 + (k - 1))%nat with (star_t st + k)%nat by lia.
        split_and!; [done|lia|lia|done].
      * intros [H|(sp' & k & [= <-] & Hk & Hle & H)]; right; exists sp; [exists 1%nat|exists (k + 1)%nat]; split_and!; try done; try lia.
        by replace (star_t st + (k + 1))%nat with (star_t st + 1 + k)%nat by lia.
    + unfold glob_measure. cbn. nia.
  - intros [H|(sp & k & H & _)]; [done|congruence].
Qed.

(** The loop returns, and decides what is left to try. *)
Lemma glob_loop_correct fuel st : glob_inv st -> (glob_measure st < fuel)%nat ->
  exists b, glob_loop fuel pattern text st = Some b /\ (b = true <-> remaining st).
Proof.
  revert st. induction fuel as [|f IH]; intros st Hinv Hf; [lia|]. cbn [glob_loop].
  rewrite drop_lookup. destruct (drop (gt st) text) as [|ch T'] eqn:HT; cbn [head].
  - eexists. split; [done|].
    assert (remaining st <-> matches (drop (gp st) pattern) []) as ->.
    { unfold remaining. rewrite HT. split; [|by left]. intros [H|H]; [done|].
      apply star_option_shift in H as (k & Hk & ? & _); [|done].
      apply (f_equal length) in HT. rewrite length_drop in HT. cbn in HT. lia. }
    rewrite matches_nil_r. by destruct (skip_stars _).
  - destruct (glob_body_spec pattern ch st _ eq_refl) as [Hstar Hone].
    assert (forall st', glob_inv st' /\ (remaining st <-> remaining st') /\ (glob_measure st' < glob_measure st)%nat ->
      exists b, glob_loop f pattern text st' = Some b /\ (b = true <-> remaining st)) as Hnext.
    { intros st' (Hi & Hr & Hm). destruct (IH st' Hi ltac:(lia)) as (b & Hb & Hb'). exists b. by rewrite Hr. }
    destruct (match drop (gp st) pattern with c :: _ => Ascii.eqb c "*" | [] => false end) eqn:Hs.
    + destruct (drop (gp st) pattern) as [|c P'] eqn:HP; [done|]. rewrite Hs in Hstar. rewrite Hstar.
      apply Hnext. by eapply step_star.
    + assert (match drop (gp st) pattern with c :: _ => Ascii.eqb c "*" = false | [] => True end) as Hns
        by (by destruct (drop (gp st) pattern)).
      specialize (Hone Hns). destruct (one (drop (gp st) pattern) ch) as [P1|] eqn:Ho.
      * destruct Hone as (p' & -> & <- & Hp'). apply Hnext. by eapply step_one.
      * rewrite Hone. pose proof (step_backtrack st ch T' Hinv HT Hns Ho) as Hb.
        destruct (backtrack st); [by apply Hnext|]. exists false. split; [done|]. split; [done|]. by intros ?%Hb.
Qed.

End loop.

Lemma glob_loop_start pattern text :
  exists b, glob_loop (glob_fuel pattern text) pattern text (mkGlob 0 0 None 0) = Some b
    /\ (b = true <-> matches pattern text).
Proof.
  destruct (glob_loop_correct pattern text (glob_fuel pattern text) (mkGlob 0 0 None 0)) as (b & Hb & Hm).
  - unfold glob_inv. cbn. split_and!; (done || lia).
  - unfold glob_measure, glob_fuel. cbn. nia.
  - exists b. split; [done|]. rewrite Hm. unfold remaining, star_option. cbn. rewrite !drop_0.
    split; [|by left]. intros [H|(sp & k & H & _)]; [done|discriminate].
Qed.

(** ** Properties *)

(** Termination of [glob_match]. On every pattern and text the loop returns, within
    [(|text| + 2) * (|pattern| + 2)] iterations. *)
Lemma glob_terminates (pattern text : bytes) :
  exists b, glob_loop (glob_fuel pattern text) pattern text (mkGlob 0 0 None 0) = Some b.
Proof. destruct (glob_loop_start pattern text) as (b & Hb & _). by exists b. Qed.

Lemma glob_match_spec (pattern text : bytes) : glob_match pattern text = true <-> matches pattern text.
Proof.
  unfold glob_match. destruct (glob_loop_start pattern text) as (b & -> & Hb). exact Hb.
Qed.

(** C12: correctness of [glob_match]. The greedy loop with one backtracking point decides
    exactly the glob relation: [*] matches any bytes, [?] one byte, a bracket one byte by
    its items, ranges and negation, a backslash the next byte literally. *)
Theorem glob_match_correct (pattern text : bytes) :
  glob_match pattern text = true <-> matches pattern text.
Proof. apply glob_match_spec. Qed.

(** [KEYS *] and [SCAN] without a pattern skip the matcher: it would accept anyway. *)
Lemma glob_match_star text : glob_match (bs "*") text = true.
Proof.
  apply glob_match_spec. apply (proj2 (matches_star [] text)). exists (length text).
  rewrite drop_all. split; [lia|constructor].
Qed.
