(* ===== verification/Store.v ===== *)
(** * The sharded store: data model and lock-protected primitives of [src/src/db.rs]

    [DataType], [CacheEntry], [Shared]/[Db], shard selection, the accesses to one shard's
    map, the memory counter; then the flat view of the shards and the rules that let every
    operation be reasoned about as an operation on one map. *)
From S2P Require Import Prelude.
From S2P Require Import RustStd.
From S2P Require Import Metrics.

Definition DEFAULT_NUM_SHARDS : nat := 64.
Definition DEFAULT_LRU_SAMPLE_SIZE : nat := 8.
Definition ESTIMATED_ENTRY_OVERHEAD : Z := 64.

Definition WRONG_TYPE_ERR : bytes :=
  bs "WRONGTYPE Operation against a key holding the wrong kind of value".

(** ** Data *)

Inductive DataType :=
  | DString (b : bytes)
  | DList (l : list bytes)
  | DSet (s : gset bytes)
  | DHash (h : gmap bytes bytes).

Record CacheEntry := mkEntry {
  data : DataType;
  expires_at : option Z;
  last_accessed : Z;
}.

(** [CacheEntry::new] *)
Definition CacheEntry_new (d : DataType) (expires : option Z) (now_millis : Z) : CacheEntry :=
  mkEntry d expires now_millis.

(** [CacheEntry::is_expired] *)
Definition is_expired (entry : CacheEntry) (now : Z) : bool :=
  match expires_at entry with Some exp => exp <=? now | None => false end.

(** The bytes a value counts for. *)
Definition data_size (d : DataType) : Z :=
  match d with
  | DString b => len b
  | DList l => sumZ (map (fun b => len b + 16) l)
  | DSet s => sumZ (map (fun b => len b + 16) (elements s))
  | DHash h => sumZ (map (fun kv => len kv.1 + len kv.2 + 32) (map_to_list h))
  end.

(** [CacheEntry::size_bytes] *)
Definition size_bytes (entry : CacheEntry) (key : bytes) : Z :=
  len key + data_size (data entry) + ESTIMATED_ENTRY_OVERHEAD.

(** [entry.last_accessed.store(t)], [entry.expires_at = e], and a change of the value. *)
Definition touch (t : Z) (e : CacheEntry) : CacheEntry := mkEntry (data e) (expires_at e) t.
Definition with_expiry (x : option Z) (e : CacheEntry) : CacheEntry :=
  mkEntry (data e) x (last_accessed e).
Definition with_data (d : DataType) (e : CacheEntry) : CacheEntry :=
  mkEntry d (expires_at e) (last_accessed e).

Abbreviation entries := (gmap bytes CacheEntry).

(** [Shared], the state behind the [Arc] every clone of [Db] holds. *)
Record Db := mkDb {
  shards : list entries;
  num_shards : nat;
  maxmemory : Z;
  current_memory : Z;
  start_time : Z;
  metrics : Metrics;
}.

Definition with_shards (f : list entries -> list entries) (db : Db) : Db :=
  mkDb (f (shards db)) (num_shards db) (maxmemory db) (current_memory db) (start_time db) (metrics db).
Definition with_memory (f : Z -> Z) (db : Db) : Db :=
  mkDb (shards db) (num_shards db) (maxmemory db) (f (current_memory db)) (start_time db) (metrics db).
Definition with_metrics (f : Metrics -> Metrics) (db : Db) : Db :=
  mkDb (shards db) (num_shards db) (maxmemory db) (current_memory db) (start_time db) (f (metrics db)).

(** [Db::with_options_and_metrics], at time [now]. *)
Definition with_options_and_metrics (num_shards : nat) (maxmemory : Z) (now : Z) (m : Metrics) : Db :=
  mkDb (repeat (∅ : entries) num_shards) num_shards maxmemory 0 now m.

(** ** The environment of a call

    What an operation reads from outside the store: the clock (its [i]-th reading), the
    random generator ([fastrand], its [i]-th draw, reduced to the requested range), and the
    order in which a hash table yields its keys, which the standard library leaves
    unspecified: any order, given the number of the iteration and the set of keys. *)
Record Env := mkEnv {
  clock : nat -> Z;
  draw : nat -> nat;
  order : nat -> gset bytes -> list bytes;
  order_perm : forall i s, order i s ≡ₚ elements s;
}.

(** [fastrand::usize(..n)] for the [i]-th draw. *)
Definition fastrand_usize (e : Env) (i n : nat) : nat := (draw e i mod n)%nat.

(** [DefaultHasher]: the standard library documents that its algorithm is unspecified. *)
Class Hasher := hash_key : bytes -> N.

(** ** Primitives *)

Section primitives.
Context `{Hasher}.

(** [Db::now_millis], at the [i]-th clock reading. *)
Definition now_millis (e : Env) (i : nat) : ST Db Z :=
  fun db => Done (wrap_u64 (as_millis (duration_since (clock e i) (start_time db)))) db.

(** [Db::get_shard_index]; the remainder by zero panics. *)
Definition get_shard_index (key : bytes) : ST Db nat :=
  fun db =>
    if bool_decide (num_shards db = 0%nat) then Panic db
    else Done (N.to_nat (hash_key key mod N.of_nat (num_shards db))) db.

(** [&self.shared.shards[idx]]: an index out of bounds panics. *)
Definition shard_at (idx : nat) : ST Db unit :=
  fun db => match shards db !! idx with Some _ => Done tt db | None => Panic db end.

(** Shard selection, the first two lines of every operation on a key. *)
Definition locate (key : bytes) : ST Db nat :=
  idx ← get_shard_index key; shard_at idx ;; mret idx.

(** [entries.get(key)], [entries.remove(key)], [entries.insert(key, entry)] on shard [idx]. *)
Definition entries_get (idx : nat) (key : bytes) : ST Db (option CacheEntry) :=
  fun db => Done (shards db !! idx ≫= fun m => m !! key) db.
Definition entries_remove (idx : nat) (key : bytes) : ST Db unit :=
  modify (with_shards (alter (delete key) idx)).
Definition entries_insert (idx : nat) (key : bytes) (e : CacheEntry) : ST Db unit :=
  modify (with_shards (alter (insert key e) idx)).

(** [entries.entry(key).or_insert_with(..)] *)
Definition or_insert_with (idx : nat) (key : bytes) (new : CacheEntry) : ST Db CacheEntry :=
  o ← entries_get idx key;
  match o with
  | Some e => mret e
  | None => entries_insert idx key new ;; mret new
  end.

(** [Db::add_memory], [Db::sub_memory]: relaxed [fetch_add] and [fetch_sub], which wrap. *)
Definition add_memory (n : Z) : ST Db unit := modify (with_memory (fun m => wrap_u64 (m + n))).
Definition sub_memory (n : Z) : ST Db unit := modify (with_memory (fun m => wrap_u64 (m - n))).

(** [self.shared.metrics.record_...()] *)
Definition metric (f : Metrics -> Metrics) : ST Db unit := modify (with_metrics f).

(** The passive eviction at the head of the operations that create a key. *)
Definition evict_if_expired (idx : nat) (key : bytes) (now : Z) : ST Db unit :=
  o ← entries_get idx key;
  match o with
  | Some entry =>
    if is_expired entry now then
      entries_remove idx key ;; sub_memory (size_bytes entry key)
    else mret tt
  | None => mret tt
  end.
End primitives.

(** ** The flat view

    What the shards hold together, as one map, with the scalars of [Shared]. *)

Record Flat := mkFlat {
  ks : entries;
  mem : Z;
  met : Metrics;
  cap : Z;
  nsh : nat;
  t0 : Z;
}.

Definition set_ks (f : entries -> entries) (s : Flat) : Flat :=
  mkFlat (f (ks s)) (mem s) (met s) (cap s) (nsh s) (t0 s).
Definition set_mem (f : Z -> Z) (s : Flat) : Flat :=
  mkFlat (ks s) (f (mem s)) (met s) (cap s) (nsh s) (t0 s).
Definition set_met (f : Metrics -> Metrics) (s : Flat) : Flat :=
  mkFlat (ks s) (mem s) (f (met s)) (cap s) (nsh s) (t0 s).

(** All entries, shard by shard. *)
Definition view (db : Db) : entries := foldr (∪) ∅ (shards db).

Section view.
Context `{Hasher}.

(** The shard a key belongs to, among [n]. *)
Definition shard_index (n : nat) (key : bytes) : nat := N.to_nat (hash_key key mod N.of_nat n).

(** The invariant of [Shared]: there are [num_shards > 0] shards, every key sits in the
    shard its hash selects, and the counter is a [usize]. *)
Record wf (db : Db) : Prop := mkWf {
  wf_pos : (0 < num_shards db)%nat;
  wf_len : length (shards db) = num_shards db;
  wf_home : forall i m k, shards db !! i = Some m -> is_Some (m !! k) -> i = shard_index (num_shards db) k;
  wf_mem : 0 <= current_memory db < u64_modulus;
}.

(** [db] is well formed and its flat view is [s]. *)
Definition models (db : Db) (s : Flat) : Prop :=
  wf db /\ ks s = view db /\ mem s = current_memory db /\ met s = metrics db
  /\ cap s = maxmemory db /\ nsh s = num_shards db /\ t0 s = start_time db.

Definition flat (db : Db) : Flat :=
  mkFlat (view db) (current_memory db) (metrics db) (maxmemory db) (num_shards db) (start_time db).

Lemma models_flat db : wf db -> models db (flat db).
Proof. by intros. Qed.

Lemma models_eq db s : models db s -> s = flat db.
Proof. intros (_ & ? & ? & ? & ? & ? & ?). destruct s; cbn in *; by subst. Qed.

Lemma models_wf db s : models db s -> wf db.
Proof. by intros [? _]. Qed.

Lemma shard_index_lt n key : (0 < n)%nat -> (shard_index n key < n)%nat.
Proof.
  intros Hn. unfold shard_index. pose proof (N.mod_upper_bound (hash_key key) (N.of_nat n)). lia.
Qed.

(** Looking up the union of maps in which only one can have the key. *)
Lemma union_lookup (l : list entries) i k :
  (forall j m, l !! j = Some m -> is_Some (m !! k) -> j = i) ->
  foldr (∪) ∅ l !! k = l !! i ≫= fun m => m !! k.
Proof.
  revert i. induction l as [|m l IH]; intros i Hh; [done|]. cbn [foldr].
  destruct i as [|i].
  - cbn. rewrite lookup_union. destruct (m !! k) as [e|] eqn:E; [by rewrite union_Some_l|].
    rewrite (left_id_L None _). rewrite (IH (length l)).
    + by rewrite (lookup_ge_None_2 l).
    + intros j m' Hj Hk. specialize (Hh (S j) m' Hj Hk). discriminate.
  - cbn. rewrite lookup_union. destruct (m !! k) as [e|] eqn:E.
    + specialize (Hh 0%nat m eq_refl (mk_is_Some _ _ E)). discriminate.
    + rewrite (left_id_L None _). apply IH. intros j m' Hj Hk. specialize (Hh (S j) m' Hj Hk). lia.
Qed.

Lemma view_lookup db k : wf db ->
  view db !! k = shards db !! shard_index (num_shards db) k ≫= fun m => m !! k.
Proof. intros Hw. apply union_lookup. intros j m Hj Hk. by eapply wf_home. Qed.

(** Changing one key in its own shard is changing it in the view. *)
Section update.
Context (f : entries -> entries) (k : bytes) (g : option CacheEntry -> option CacheEntry).
Hypothesis f_lookup : forall m k', f m !! k' = if decide (k' = k) then g (m !! k) else m !! k'.

Lemma wf_update db : wf db ->
  wf (with_shards (alter f (shard_index (num_shards db) k)) db).
Proof.
  intros [Hp Hl Hh Hm]. split; cbn; [done|by rewrite length_alter| |done].
  intros i m k' Hi Hk'. destruct (decide (i = shard_index (num_shards db) k)) as [->|Hne].
  - rewrite list_lookup_alter_eq in Hi. destruct (shards db !! _) as [m0|] eqn:E; [|done].
    injection Hi as <-. rewrite f_lookup in Hk'. case_decide; [by subst|]. by eapply Hh.
  - rewrite list_lookup_alter_ne in Hi by done. by eapply Hh.
Qed.

Lemma view_update db k' : wf db ->
  view (with_shards (alter f (shard_index (num_shards db) k)) db) !! k'
    = if decide (k' = k) then g (view db !! k) else view db !! k'.
Proof.
  intros Hw. pose proof (wf_update db Hw) as Hw'. rewrite !view_lookup by done. cbn.
  assert (is_Some (shards db !! shard_index (num_shards db) k)) as [m Hm].
  { apply lookup_lt_is_Some. rewrite (wf_len _ Hw). apply shard_index_lt, (wf_pos _ Hw). }
  case_decide as Hk.
  - subst k'. rewrite list_lookup_alter_eq, Hm. cbn. rewrite f_lookup. by case_decide.
  - destruct (decide (shard_index (num_shards db) k' = shard_index (num_shards db) k)) as [->|Hne].
    + rewrite list_lookup_alter_eq, Hm. cbn. rewrite f_lookup. by case_decide.
    + by rewrite list_lookup_alter_ne.
Qed.
End update.

(** ** Execution rules *)

Lemma wp_locate db s key (Q : nat -> Db -> Prop) :
  models db s -> Q (shard_index (nsh s) key) db -> wp (locate key) Q db.
Proof.
  intros (Hw & _ & _ & _ & _ & Hn & _) HQ. rewrite Hn in HQ. unfold wp, locate, get_shard_index, shard_at, mbind, ST_bind.
  pose proof (wf_pos _ Hw). rewrite bool_decide_eq_false_2 by lia.
  assert (is_Some (shards db !! shard_index (num_shards db) key)) as [m Hm].
  { apply lookup_lt_is_Some. rewrite (wf_len _ Hw). by apply shard_index_lt. }
  fold (shard_index (num_shards db) key). by rewrite Hm.
Qed.

Lemma wp_entries_get db s key (Q : option CacheEntry -> Db -> Prop) :
  models db s -> Q (ks s !! key) db -> wp (entries_get (shard_index (nsh s) key) key) Q db.
Proof.
  intros (Hw & Hk & _ & _ & _ & Hn & _) HQ. rewrite Hk, view_lookup in HQ by done. by rewrite Hn.
Qed.

Lemma wp_entries_remove db s key (Q : unit -> Db -> Prop) :
  models db s -> (forall db', models db' (set_ks (delete key) s) -> Q tt db') ->
  wp (entries_remove (shard_index (nsh s) key) key) Q db.
Proof.
  intros (Hw & Hk & Hm & Hmet & Hc & Hn & Ht) HQ. apply wp_modify, HQ. rewrite Hn.
  assert (forall (m : entries) k', delete key m !! k' = if decide (k' = key) then None else m !! k') as Hf.
  { intros m k'. rewrite lookup_delete. repeat case_decide; congruence. }
  split_and!; try done.
  - by apply (wf_update _ _ (fun _ => None) Hf).
  - apply map_eq. intros k'. rewrite (view_update _ _ (fun _ => None) Hf) by done.
    cbn. by rewrite Hf, Hk.
Qed.

Lemma wp_entries_insert db s key e (Q : unit -> Db -> Prop) :
  models db s -> (forall db', models db' (set_ks (insert key e) s) -> Q tt db') ->
  wp (entries_insert (shard_index (nsh s) key) key e) Q db.
Proof.
  intros (Hw & Hk & Hm & Hmet & Hc & Hn & Ht) HQ. apply wp_modify, HQ. rewrite Hn.
  assert (forall (m : entries) k', insert key e m !! k' = if decide (k' = key) then Some e else m !! k') as Hf.
  { intros m k'. rewrite lookup_insert. repeat case_decide; congruence. }
  split_and!; try done.
  - by apply (wf_update _ _ (fun _ => Some e) Hf).
  - apply map_eq. intros k'. rewrite (view_update _ _ (fun _ => Some e) Hf) by done.
    cbn. by rewrite Hf, Hk.
Qed.

Lemma models_memory db s n : models db s ->
  models (with_memory (fun m => wrap_u64 (n m)) db) (set_mem (fun m => wrap_u64 (n m)) s).
Proof.
  intros ([Hp Hl Hh Hm] & Hk & Hm' & Hmet & Hc & Hn & Ht). split_and!; try done; cbn; [|by rewrite Hm'].
  split; try done. cbn. apply wrap_u64_range.
Qed.

Lemma wp_add_memory db s n (Q : unit -> Db -> Prop) :
  models db s -> (forall db', models db' (set_mem (fun m => wrap_u64 (m + n)) s) -> Q tt db') ->
  wp (add_memory n) Q db.
Proof. intros Hm HQ. by apply wp_modify, HQ, (models_memory _ _ (fun m => m + n)). Qed.

Lemma wp_sub_memory db s n (Q : unit -> Db -> Prop) :
  models db s -> (forall db', models db' (set_mem (fun m => wrap_u64 (m - n)) s) -> Q tt db') ->
  wp (sub_memory n) Q db.
Proof. intros Hm HQ. by apply wp_modify, HQ, (models_memory _ _ (fun m => m - n)). Qed.

Lemma wp_metric db s f (Q : unit -> Db -> Prop) :
  models db s -> (forall db', models db' (set_met f s) -> Q tt db') -> wp (metric f) Q db.
Proof.
  intros ([Hp Hl Hh Hm] & Hk & Hm' & Hmet & Hc & Hn & Ht) HQ. apply wp_modify, HQ. split_and!; try done.
  cbn. by rewrite Hmet.
Qed.

Lemma wp_now_millis db s e i (Q : Z -> Db -> Prop) :
  models db s -> (forall t, Q t db) -> wp (now_millis e i) Q db.
Proof. intros _ HQ. apply HQ. Qed.
End view.

(** ** A new store *)
Section new.
Context {Hh : Hasher}.

Lemma wf_new n cap now m : (0 < n)%nat -> wf (with_options_and_metrics n cap now m).
Proof.
  intros Hn. split; cbn; [done|apply repeat_length| |split; [done|reflexivity]].
  intros i m0 k Hi [x Hx]. apply list_elem_of_lookup_2 in Hi. apply list_elem_of_In, repeat_spec in Hi. subst m0.
  by rewrite lookup_empty in Hx.
Qed.

Lemma view_new n cap now m : view (with_options_and_metrics n cap now m) = ∅.
Proof.
  unfold view. cbn. induction n as [|n IH]; [done|]. cbn. by rewrite IH, (left_id_L ∅ (∪)).
Qed.

(** A store with the given entries. *)
Fixpoint store_of (l : list (bytes * CacheEntry)) (db : Db) : Db :=
  match l with
  | [] => db
  | (k, e) :: l' => with_shards (alter (insert k e) (shard_index (num_shards db) k)) (store_of l' db)
  end.

Lemma store_of_config l db : num_shards (store_of l db) = num_shards db.
Proof. induction l as [|[k e] l IH]; done. Qed.

Lemma wf_store_of l db : wf db -> wf (store_of l db).
Proof.
  intros Hw. induction l as [|[k e] l IH]; [done|]. cbn [store_of]. rewrite <- (store_of_config l db).
  apply (wf_update (insert k e) k (fun _ => Some e)); [|done].
  intros m k'. rewrite lookup_insert. repeat case_decide; congruence.
Qed.
End new.

(** A small store and environment for concrete runs. *)
Module Demo.
Definition hash : Hasher := fun k => N.of_nat (length k).
#[local] Existing Instance hash.

Definition env : Env :=
  mkEnv (fun i => 5 * NANOS + Z.of_nat i) (fun i => i) (fun _ s => elements s) (fun _ _ => reflexivity _).

Definition db : Db :=
  store_of
    [(bs "name", mkEntry (DString (bs "redis")) None 1);
     (bs "list", mkEntry (DList [bs "a"; bs "b"; bs "c"]) (Some (9 * NANOS)) 2);
     (bs "old", mkEntry (DString (bs "x")) (Some (3 * NANOS)) 3);
     (bs "h", mkEntry (DHash {[bs "f" := bs "v"]}) None 4)]
    (with_memory (fun _ => 359) (with_options_and_metrics 4 1000 0 (Metrics_new 0 None))).

Lemma ok : models db (flat db).
Proof.
  apply models_flat, wf_store_of.
  destruct (wf_new 4 1000 0 (Metrics_new 0 None)) as [? ? ? ?]; [lia|]. by split.
Qed.
End Demo.

(** Shards and keys are located in the flat view of the state at hand: the index an
    operation computed first stays valid, as no step changes the number of shards. *)
Ltac db_step :=
  lazymatch goal with
  | Hm : models ?db _ |- wp (locate _) _ ?db => apply (wp_locate _ _ _ _ Hm)
  | Hm : models ?db _ |- wp (entries_get _ _) _ ?db => apply (wp_entries_get _ _ _ _ Hm)
  | Hm : models ?db _ |- wp (entries_remove _ _) _ ?db =>
      apply (wp_entries_remove _ _ _ _ Hm); clear Hm; intros ? Hm
  | Hm : models ?db _ |- wp (entries_insert _ _ _) _ ?db =>
      apply (wp_entries_insert _ _ _ _ _ Hm); clear Hm; intros ? Hm
  | Hm : models ?db _ |- wp (add_memory _) _ ?db =>
      apply (wp_add_memory _ _ _ _ Hm); clear Hm; intros ? Hm
  | Hm : models ?db _ |- wp (sub_memory _) _ ?db =>
      apply (wp_sub_memory _ _ _ _ Hm); clear Hm; intros ? Hm
  | Hm : models ?db _ |- wp (metric _) _ ?db =>
      apply (wp_metric _ _ _ _ Hm); clear Hm; intros ? Hm
  | Hm : models ?db _ |- wp (now_millis _ _) _ ?db =>
      apply (wp_now_millis _ _ _ _ _ Hm); intros ?
  | |- wp (mret _) _ _ => apply wp_ret
  | |- wp (_ ≫= _) _ _ => apply wp_bind
  end.

Ltac db_run := repeat (db_step; cbn beta).
