(* ===== verification/Keyspace.v ===== *)
(** * The keyspace: what the store promises

    The abstract store a client reasons about: one map from keys to values with an optional
    deadline, with no shards, no access times, no memory counter and no expired entries.
    The reference operations on it, the abstraction from the sharded store ([live]), and
    the memory account of a set of entries ([used], [unaccounted]). *)
From S2P Require Import Prelude.
From S2P Require Import RustStd.
From S2P Require Import Metrics.
From S2P Require Import Store.

(** ** The abstract store and its operations *)

Abbreviation keyspace := (gmap bytes (DataType * option Z)).

(** A reply of a typed operation. *)
Abbreviation reply A := (Result bytes A).

Definition wrong_type {A} : reply A := Err WRONG_TYPE_ERR.

(** [GET] *)
Definition spec_get (k : bytes) (s : keyspace) : reply (option bytes) :=
  match s !! k with
  | None => Ok None
  | Some (DString b, _) => Ok (Some b)
  | Some _ => wrong_type
  end.

(** [SET] at time [now]: with a deadline that has passed, the key is gone at once. *)
Definition spec_set (now : Z) (k v : bytes) (x : option Z) (s : keyspace) : keyspace :=
  if match x with Some d => d <=? now | None => false end then delete k s
  else <[k := (DString v, x)]> s.

(** [DEL]: the keys that are left. *)
Definition spec_del (keys : list bytes) (s : keyspace) : keyspace :=
  filter (fun kv => kv.1 ∉ keys) s.

(** A push creates the list if the key is absent and keeps the deadline otherwise;
    [place old new] says where the new elements go. *)
Definition spec_push (place : list bytes -> list bytes -> list bytes) (k : bytes) (els : list bytes)
    (s : keyspace) : reply Z * keyspace :=
  match s !! k with
  | None => (Ok (len els), <[k := (DList (place [] els), None)]> s)
  | Some (DList l, x) => (Ok (len l + len els), <[k := (DList (place l els), x)]> s)
  | Some _ => (wrong_type, s)
  end.

(** [LPUSH] puts each element at the head in turn, [RPUSH] each at the tail. *)
Definition spec_lpush : bytes -> list bytes -> keyspace -> reply Z * keyspace :=
  spec_push (fun l els => rev els ++ l).
Definition spec_rpush : bytes -> list bytes -> keyspace -> reply Z * keyspace :=
  spec_push (fun l els => l ++ els).

(** A pop takes one element ([split l]) and forgets a key whose list becomes empty. *)
Definition spec_pop (split : list bytes -> option bytes * list bytes) (k : bytes) (s : keyspace)
    : reply (option bytes) * keyspace :=
  match s !! k with
  | None => (Ok None, s)
  | Some (DList l, x) =>
    let '(p, l') := split l in
    (Ok p, match l' with [] => delete k s | _ => <[k := (DList l', x)]> s end)
  | Some _ => (wrong_type, s)
  end.

Definition pop_front (l : list bytes) : option bytes * list bytes := (head l, tail l).
Definition pop_back (l : list bytes) : option bytes * list bytes := (last l, removelast l).

Definition spec_lpop : bytes -> keyspace -> reply (option bytes) * keyspace := spec_pop pop_front.
Definition spec_rpop : bytes -> keyspace -> reply (option bytes) * keyspace := spec_pop pop_back.

(** [LRANGE]: both ends inclusive, negative indices count from the end, out of range is
    cut off. *)
Definition slice (l : list bytes) (start stop : Z) : list bytes :=
  let lo := Z.max 0 (if start <? 0 then len l + start else start) in
  let hi := Z.min (len l - 1) (if stop <? 0 then len l + stop else stop) in
  take (Z.to_nat (hi + 1 - lo)) (drop (Z.to_nat lo) l).

Definition spec_lrange (k : bytes) (start stop : Z) (s : keyspace) : reply (list bytes) :=
  match s !! k with
  | None => Ok []
  | Some (DList l, _) => Ok (slice l start stop)
  | Some _ => wrong_type
  end.

(** [HSET]: how many fields are new, and the hash with every pair written in order. *)
Definition hash_write (h : gmap bytes bytes) (fields : list (bytes * bytes)) : gmap bytes bytes :=
  fold_left (fun h kv => <[kv.1 := kv.2]> h) fields h.

Definition spec_hset (k : bytes) (fields : list (bytes * bytes)) (s : keyspace) : reply Z * keyspace :=
  let add h x := (Ok (Z.of_nat (size (hash_write h fields) - size h)),
                  <[k := (DHash (hash_write h fields), x)]> s) in
  match s !! k with
  | None => add ∅ None
  | Some (DHash h, x) => add h x
  | Some _ => (wrong_type, s)
  end.

Definition spec_hget (k f : bytes) (s : keyspace) : reply (option bytes) :=
  match s !! k with
  | None => Ok None
  | Some (DHash h, _) => Ok (h !! f)
  | Some _ => wrong_type
  end.

Definition spec_hdel (k : bytes) (fields : list bytes) (s : keyspace) : reply Z * keyspace :=
  match s !! k with
  | None => (Ok 0, s)
  | Some (DHash h, x) =>
    let h' := filter (fun fv => fv.1 ∉ fields) h in
    (Ok (Z.of_nat (size h - size h')),
     if decide (h' = ∅) then delete k s else <[k := (DHash h', x)]> s)
  | Some _ => (wrong_type, s)
  end.

(** [HGETALL]: the pairs in some order. *)
Definition spec_hgetall (k : bytes) (s : keyspace) (r : reply (list (bytes * bytes))) : Prop :=
  match s !! k with
  | None => r = Ok []
  | Some (DHash h, _) => exists l, r = Ok l /\ l ≡ₚ map_to_list h
  | Some _ => r = wrong_type
  end.

(** [SADD], [SREM]: how many members are new, or were there. *)
Definition spec_sadd (k : bytes) (ms : list bytes) (s : keyspace) : reply Z * keyspace :=
  let add (m : gset bytes) x := (Ok (Z.of_nat (size (m ∪ list_to_set ms) - size m)),
                 <[k := (DSet (m ∪ list_to_set ms), x)]> s) in
  match s !! k with
  | None => add ∅ None
  | Some (DSet m, x) => add m x
  | Some _ => (wrong_type, s)
  end.

Definition spec_srem (k : bytes) (ms : list bytes) (s : keyspace) : reply Z * keyspace :=
  match s !! k with
  | None => (Ok 0, s)
  | Some (DSet m, x) =>
    let m' := m ∖ list_to_set ms in
    (Ok (Z.of_nat (size m - size m')),
     if decide (m' = ∅) then delete k s else <[k := (DSet m', x)]> s)
  | Some _ => (wrong_type, s)
  end.

Definition spec_sismember (k m : bytes) (s : keyspace) : reply bool :=
  match s !! k with
  | None => Ok false
  | Some (DSet ms, _) => Ok (bool_decide (m ∈ ms))
  | Some _ => wrong_type
  end.

(** [SMEMBERS]: the members in some order. *)
Definition spec_smembers (k : bytes) (s : keyspace) (r : reply (list bytes)) : Prop :=
  match s !! k with
  | None => r = Ok []
  | Some (DSet m, _) => exists l, r = Ok l /\ l ≡ₚ elements m
  | Some _ => r = wrong_type
  end.

(** [EXPIRE] at time [now]: a new deadline for a key that exists; one that has passed
    already removes the key at once. *)
Definition spec_expire (now : Z) (k : bytes) (deadline : Z) (s : keyspace) : bool * keyspace :=
  match s !! k with
  | None => (false, s)
  | Some (d, _) => (true, if deadline <=? now then delete k s else <[k := (d, Some deadline)]> s)
  end.

(** [KEYS]: the keys that match, each once, in some order. *)
Definition spec_keys (matching : bytes -> Prop) (s : keyspace) (r : list bytes) : Prop :=
  NoDup r /\ forall k, k ∈ r <-> is_Some (s !! k) /\ matching k.

(** [TTL], [PTTL] at time [now]: -2 without the key, -1 without a deadline, else the time
    left in [unit] nanoseconds, rounded down. *)
Definition spec_ttl (unit now : Z) (k : bytes) (s : keyspace) : Z :=
  match s !! k with
  | None => -2
  | Some (_, None) => -1
  | Some (_, Some x) => (x - now) / unit
  end.

(** ** Abstraction *)

(** A value as a client sees it. *)
Definition value_of (e : CacheEntry) : DataType * option Z := (data e, expires_at e).

(** What is alive at time [now]: expired entries are absent, whether or not the store has
    removed them yet. *)
Definition live_entry (now : Z) (e : CacheEntry) : option (DataType * option Z) :=
  if is_expired e now then None else Some (value_of e).

Definition live (now : Z) (m : entries) : keyspace := omap (live_entry now) m.

Lemma live_lookup now m k : live now m !! k = m !! k ≫= live_entry now.
Proof. apply lookup_omap. Qed.

Lemma live_delete now m k : live now (delete k m) = delete k (live now m).
Proof.
  apply map_eq. intros k'. rewrite live_lookup, !lookup_delete, live_lookup. by case_decide.
Qed.

Lemma live_insert now m k e : is_expired e now = false ->
  live now (<[k := e]> m) = <[k := value_of e]> (live now m).
Proof.
  intros He. apply map_eq. intros k'. rewrite live_lookup, !lookup_insert, live_lookup.
  case_decide; [|done]. cbn. unfold live_entry. by rewrite He.
Qed.

(** Storing an entry, expired or not. *)
Lemma live_insert_deadline now m k e :
  live now (<[k := e]> m)
  = if is_expired e now then delete k (live now m) else <[k := value_of e]> (live now m).
Proof.
  destruct (is_expired e now) eqn:He; [|by apply live_insert].
  apply map_eq. intros k'. rewrite live_lookup, lookup_insert, lookup_delete, live_lookup.
  case_decide; [|done]. cbn. unfold live_entry. by rewrite He.
Qed.

(** Removing an expired entry changes nothing for a client. *)
Lemma live_delete_expired now m k e : m !! k = Some e -> is_expired e now = true ->
  live now (delete k m) = live now m.
Proof.
  intros Hk He. rewrite live_delete. apply delete_id. rewrite live_lookup, Hk. cbn.
  unfold live_entry. by rewrite He.
Qed.

(** Recording an access changes nothing either. *)
Lemma live_touch now m k e t : m !! k = Some e -> live now (<[k := touch t e]> m) = live now m.
Proof.
  intros Hk. apply map_eq. intros k'. rewrite !live_lookup, lookup_insert.
  case_decide as Hd; [|done]. subst k'. by rewrite Hk.
Qed.

Lemma live_Some now m k e : m !! k = Some e -> is_expired e now = false ->
  live now m !! k = Some (value_of e).
Proof. intros Hk He. rewrite live_lookup, Hk. cbn. unfold live_entry. by rewrite He. Qed.

Lemma live_expired now m k e : m !! k = Some e -> is_expired e now = true -> live now m !! k = None.
Proof. intros Hk He. rewrite live_lookup, Hk. cbn. unfold live_entry. by rewrite He. Qed.

Lemma live_None now m k : m !! k = None -> live now m !! k = None.
Proof. intros Hk. by rewrite live_lookup, Hk. Qed.

Lemma live_mono now m m' : m' ⊆ m -> live now m' ⊆ live now m.
Proof.
  intros Hsub. apply map_subseteq_spec. intros k v. rewrite !live_lookup. intros Hv.
  apply bind_Some in Hv as (e & He & Hv). by rewrite (lookup_weaken _ _ _ _ He Hsub).
Qed.

(** What is alive later depends only on what is alive now. *)
Lemma live_later now t m m' : now <= t -> live now m = live now m' -> live t m = live t m'.
Proof.
  assert (forall e, now <= t -> live_entry t e = (live_entry now e ≫= fun v =>
    if match v.2 with Some d => d <=? t | None => false end then None else Some v)) as Hl.
  { intros e Ht. unfold live_entry, is_expired, value_of. destruct (expires_at e) as [d|]; [|done].
    destruct (Z.leb_spec d now), (Z.leb_spec d t); cbn; try done; [lia|by rewrite (proj2 (Z.leb_le d t))|].
    by rewrite (proj2 (Z.leb_gt d t)). }
  intros Ht Heq. apply map_eq. intros k.
  assert (live now m !! k = live now m' !! k) as Hk by by rewrite Heq.
  rewrite !live_lookup in *.
  destruct (m !! k) as [e|], (m' !! k) as [e'|]; cbn in *; rewrite ?(Hl _ Ht); [by rewrite Hk..| |done].
  by rewrite <- Hk.
Qed.

(** ** The memory account *)

(** The bytes the entries of a store take by [size_bytes]. *)
Definition used (m : entries) : Z := sumZ (map (fun ke => size_bytes ke.2 ke.1) (map_to_list m)).

(** The bytes the counter does not account for, modulo the counter's width. *)
Definition unaccounted (s : Flat) : Z := wrap_u64 (used (ks s) - mem s).

Lemma used_insert_new m k e : m !! k = None -> used (<[k := e]> m) = size_bytes e k + used m.
Proof. intros Hk. unfold used. by rewrite map_to_list_insert. Qed.

Lemma used_delete m k e : m !! k = Some e -> used (delete k m) = used m - size_bytes e k.
Proof.
  intros Hk. rewrite <- (insert_id m k e) at 2 by done. rewrite <- insert_delete_eq.
  rewrite used_insert_new by apply lookup_delete_eq. lia.
Qed.

Lemma used_insert m k e e' : m !! k = Some e ->
  used (<[k := e']> m) = used m - size_bytes e k + size_bytes e' k.
Proof.
  intros Hk. rewrite <- insert_delete_eq, used_insert_new by apply lookup_delete_eq.
  rewrite (used_delete m k e) by done. lia.
Qed.

Lemma data_size_nonneg d : 0 <= data_size d.
Proof.
  assert (forall l : list bytes, 0 <= sumZ (map (fun b => len b + 16) l)) as Hl.
  { intros l. apply sumZ_nonneg, Forall_fmap, Forall_true. intros x. cbn. pose proof (len_nonneg x). lia. }
  destruct d; cbn; [apply len_nonneg|apply Hl|apply Hl|].
  apply sumZ_nonneg, Forall_fmap, Forall_true. intros [x y]. cbn.
  pose proof (len_nonneg x). pose proof (len_nonneg y). lia.
Qed.

Lemma size_bytes_pos e k : 64 <= size_bytes e k.
Proof.
  unfold size_bytes, ESTIMATED_ENTRY_OVERHEAD. pose proof (data_size_nonneg (data e)). pose proof (len_nonneg k). lia.
Qed.

Lemma used_nonneg m : 0 <= used m.
Proof.
  apply sumZ_nonneg, Forall_fmap, Forall_true. intros [k e]. cbn. pose proof (size_bytes_pos e k). lia.
Qed.

Lemma used_mono m m' : m' ⊆ m -> used m' <= used m.
Proof.
  intros Hsub. rewrite <- (map_difference_union m' m Hsub).
  assert (forall m1 m2 : entries, m1 ##ₘ m2 -> used (m1 ∪ m2) = used m1 + used m2) as Hu.
  { intros m1 m2. induction m1 as [|k e m1 Hk IH] using map_ind; intros Hd; [by rewrite (left_id_L ∅ (∪))|].
    apply map_disjoint_insert_l in Hd as [Hk2 Hd].
    rewrite <- insert_union_l, !used_insert_new by (done || by apply lookup_union_None).
    rewrite IH by done. lia. }
  rewrite Hu by by apply map_disjoint_difference_r1. pose proof (used_nonneg (m ∖ m')). lia.
Qed.

(** A counter that accounts for everything is the size of the store. *)
Lemma models_counter {Hh : Hasher} db s :
  models db s -> used (ks s) < u64_modulus -> unaccounted s = 0 -> mem s = used (ks s).
Proof.
  intros (Hw & _ & Hmem & _) Hlt Hu. pose proof (wf_mem _ Hw) as Hr. rewrite <- Hmem in Hr.
  pose proof (used_nonneg (ks s)). unfold unaccounted in Hu.
  apply Z.mod_divide in Hu as [q Hq]; [|discriminate]. unfold u64_modulus in *. nia.
Qed.

#[global] Arguments live : simpl never.
#[global] Arguments used : simpl never.
#[global] Arguments size_bytes : simpl never.
#[global] Arguments data_size : simpl never.

(** ** What an operation guarantees *)

(** The configuration of the store does not change. *)
Definition same_config (s s' : Flat) : Prop := cap s' = cap s /\ nsh s' = nsh s /\ t0 s' = t0 s.

(** A change of the store seen by a client at time [now] as [k] becoming [k'], after which
    [extra] more bytes are missing from the memory counter. *)
Definition step_to (now : Z) (s : Flat) (k' : keyspace) (extra : Z) (s' : Flat) : Prop :=
  same_config s s' /\ live now (ks s') = k' /\ unaccounted s' = wrap_u64 (unaccounted s + extra).

(** The specification of an operation on the sharded store from the flat state [s]: it
    does not panic, keeps the store well formed, replies and acts as [spec] does on the
    live keyspace, and leaves [extra] more bytes unaccounted for. *)
Definition implements {Hh : Hasher} {R} (now : Z) (s : Flat) (spec : keyspace -> R * keyspace) (extra : Z)
    (m : ST Db R) (db : Db) : Prop :=
  wp m (fun r db' => exists s', models db' s' /\
    step_to now s (snd (spec (live now (ks s)))) extra s' /\ r = fst (spec (live now (ks s)))) db.

(** What is left of a read: the reply, from the unchanged keyspace. *)
Definition reads {R} (q : keyspace -> R) : keyspace -> R * keyspace := fun k => (q k, k).

(** The store without the entry [ent] at [key], which is taken off the memory counter for
    what it takes, and with the metrics after [f]. *)
Definition drop_entry (f : Metrics -> Metrics) (key : bytes) (ent : CacheEntry) (s : Flat) : Flat :=
  set_met f (set_mem (fun m => wrap_u64 (m - size_bytes ent key)) (set_ks (delete key) s)).

(** The passive eviction: if the entry at [key] is expired, an operation replies [r], and
    all it does is to drop that entry. *)
Definition evicts_expired {Hh : Hasher} {R} (now : Z) (s : Flat) (key : bytes) (f : Metrics -> Metrics) (r : R)
    (m : ST Db R) (db : Db) : Prop :=
  forall ent, ks s !! key = Some ent -> is_expired ent now = true ->
  wp m (fun r' db' => r' = r /\ models db' (drop_entry f key ent s)) db.

#[export] Instance same_config_preorder : PreOrder same_config.
Proof.
  split; [done|]. intros s1 s2 s3 (? & ? & ?) (? & ? & ?). unfold same_config. split_and!; congruence.
Qed.

(** The bytes a new key takes that the operations creating it do not count. *)
Definition key_overhead (k : bytes) : Z := len k + ESTIMATED_ENTRY_OVERHEAD.

(** What an operation that creates a missing key leaves out of the account. *)
Definition creation_cost (k : bytes) (s : keyspace) : Z :=
  match s !! k with Some _ => 0 | None => key_overhead k end.

(** Effects on the account of the writes an operation makes. *)
Lemma unaccounted_mem s f : unaccounted (set_mem f s) = wrap_u64 (used (ks s) - f (mem s)).
Proof. done. Qed.
Lemma unaccounted_range s : 0 <= unaccounted s < u64_modulus.
Proof. apply wrap_u64_range. Qed.

(** ** Rules for the steps the operations share *)

Section rules.
Context {Hh : Hasher}.

Lemma step_to_refl now s : step_to now s (live now (ks s)) 0 s.
Proof. split_and!; try done. symmetry. rewrite Z.add_0_r. apply wrap_u64_small, unaccounted_range. Qed.

Lemma step_to_trans (now : Z) (s : Flat) k1 x (s1 : Flat) k2 y (s2 : Flat) :
  step_to now s k1 x s1 -> step_to now s1 k2 y s2 -> step_to now s k2 (x + y) s2.
Proof.
  intros (C1 & ? & Hx) (C2 & ? & Hy). split; [by etrans|]. split; [done|].
  rewrite Hy, Hx. wrap_lia.
Qed.

(** A step before an operation that the client cannot see. *)
Lemma implements_after {R} (now : Z) (s s1 : Flat) (spec : keyspace -> R * keyspace) (extra : Z) (m : ST Db R) (db : Db) :
  step_to now s (live now (ks s)) 0 s1 -> implements now s1 spec extra m db ->
  implements now s spec extra m db.
Proof.
  intros Hstep Hm. eapply wp_mono; [exact Hm|]. cbn beta. intros r db' (s' & Hmod & Hs' & Hr).
  assert (live now (ks s1) = live now (ks s)) as E by apply Hstep. rewrite E in *.
  exists s'. split_and!; [done|..|done]. by apply (step_to_trans _ _ _ _ _ _ _ _ Hstep).
Qed.

(** The steps of a client-visible write: the change of the map, the change of the account. *)
Lemma step_to_intro (now : Z) (s : Flat) k' extra (s' : Flat) :
  same_config s s' -> live now (ks s') = k' ->
  eq64 (used (ks s') - mem s') (used (ks s) - mem s + extra) -> step_to now s k' extra s'.
Proof.
  intros Hc Hk Hm. split_and!; [done..|]. unfold unaccounted, eq64 in *. rewrite Hm. wrap_lia.
Qed.

(** Removing an expired entry and what it was counted for is invisible. *)
Lemma step_to_evict now s key e :
  ks s !! key = Some e -> is_expired e now = true ->
  forall s', same_config s s' -> ks s' = delete key (ks s) ->
    eq64 (mem s') (mem s - size_bytes e key) -> step_to now s (live now (ks s)) 0 s'.
Proof.
  intros Hk He s' Hc Hs Hm. apply step_to_intro; [done|..].
  - rewrite Hs. by eapply live_delete_expired.
  - rewrite Hs, (used_delete _ _ e), Hm by done. apply eq64_eq. lia.
Qed.

Lemma eq64_mem f s : eq64 (mem (set_mem (fun m => wrap_u64 (f m)) s)) (f (mem s)).
Proof. apply eq64_wrap. Qed.

(** The passive eviction: whatever is at the key afterwards is alive. *)
Lemma implements_evict {R} (now : Z) (s : Flat) (spec : keyspace -> R * keyspace) (extra : Z) (key : bytes) (db : Db) (k : ST Db R) :
  models db s ->
  (forall db1 s1, models db1 s1 -> nsh s1 = nsh s -> live now (ks s1) = live now (ks s) ->
     (forall ent, ks s1 !! key = Some ent -> is_expired ent now = false) ->
     implements now s1 spec extra k db1) ->
  implements now s spec extra (evict_if_expired (shard_index (nsh s) key) key now ;; k) db.
Proof.
  intros Hm Hk. apply wp_bind. unfold evict_if_expired. db_run.
  destruct (ks s !! key) as [ent|] eqn:Hent; [destruct (is_expired ent now) eqn:Hexp|].
  - db_run. set (s1 := set_mem _ _) in *.
    assert (step_to now s (live now (ks s)) 0 s1) as Hstep.
    { apply (step_to_evict _ _ _ _ Hent Hexp); [done|done|]. apply eq64_wrap. }
    apply (implements_after _ _ _ _ _ _ _ Hstep). apply Hk; [done|done|apply Hstep|].
    intros ? Hs1. cbn in Hs1. by rewrite lookup_delete_eq in Hs1.
  - db_run. apply Hk; [done..|]. intros ? E. by simplify_eq.
  - db_run. apply Hk; [done..|]. intros ? E. by simplify_eq.
Qed.

Lemma wp_or_insert_with db s key new (Q : CacheEntry -> Db -> Prop) :
  models db s ->
  (forall ent, ks s !! key = Some ent -> Q ent db) ->
  (ks s !! key = None -> forall db', models db' (set_ks (insert key new) s) -> Q new db') ->
  wp (or_insert_with (shard_index (nsh s) key) key new) Q db.
Proof.
  intros Hm H1 H2. unfold or_insert_with. db_run.
  destruct (ks s !! key) eqn:E; db_run; eauto.
Qed.

(** Removing an entry that is alive, and what it was counted for ([e'] is the entry at the
    time of the removal, [d] what was already taken off the counter). *)
Lemma step_to_remove (now : Z) (s : Flat) key e e' d k' :
  ks s !! key = Some e -> size_bytes e key = size_bytes e' key + d ->
  k' = delete key (live now (ks s)) ->
  forall s', same_config s s' -> ks s' = delete key (ks s) ->
    eq64 (mem s') (mem s - d - size_bytes e' key) -> step_to now s k' 0 s'.
Proof.
  intros Hk Hd -> s' Hc Hs Hm. apply step_to_intro; [done|..].
  - by rewrite Hs, live_delete.
  - rewrite Hs, (used_delete _ _ e), Hm by done. apply eq64_eq. lia.
Qed.

(** Rewriting an entry that is alive. *)
Lemma step_to_update (now : Z) (s s' : Flat) key e e' k' extra :
  ks s !! key = Some e -> ks s' = <[key := e']> (ks s) -> same_config s s' ->
  is_expired e' now = false -> k' = <[key := value_of e']> (live now (ks s)) ->
    eq64 (mem s' + extra) (mem s + size_bytes e' key - size_bytes e key) -> step_to now s k' extra s'.
Proof.
  intros Hk Hs Hc He -> Hm. apply step_to_intro; [done|..].
  - by rewrite Hs, live_insert.
  - rewrite Hs, (used_insert _ _ e) by done.
    transitivity (used (ks s) - size_bytes e key + size_bytes e' key - (mem s' + extra) + extra);
      [apply eq64_eq; lia|]. rewrite Hm. apply eq64_eq. lia.
Qed.

(** Creating an entry. *)
Lemma step_to_create (now : Z) (s s' : Flat) key e' k' extra :
  ks s !! key = None -> ks s' = <[key := e']> (ks s) -> same_config s s' ->
  is_expired e' now = false -> k' = <[key := value_of e']> (live now (ks s)) ->
    eq64 (mem s' + extra) (mem s + size_bytes e' key) -> step_to now s k' extra s'.
Proof.
  intros Hk Hs Hc He -> Hm. apply step_to_intro; [done|..].
  - by rewrite Hs, live_insert.
  - rewrite Hs, used_insert_new by done.
    transitivity (size_bytes e' key + used (ks s) - (mem s' + extra) + extra);
      [apply eq64_eq; lia|]. rewrite Hm. apply eq64_eq. lia.
Qed.

(** Recording an access, and metrics. *)
Lemma step_to_touch (now : Z) (s : Flat) key e t :
  ks s !! key = Some e ->
  forall s', same_config s s' -> ks s' = <[key := touch t e]> (ks s) -> mem s' = mem s ->
    step_to now s (live now (ks s)) 0 s'.
Proof.
  intros Hk s' Hc Hs Hm. apply step_to_intro; [done|..].
  - by rewrite Hs, (live_touch _ _ _ e).
  - rewrite Hs, (used_insert _ _ e), Hm by done. apply eq64_eq.
    change (size_bytes (touch t e) key) with (size_bytes e key). lia.
Qed.

Lemma step_to_same (now : Z) (s : Flat) :
  forall s', same_config s s' -> ks s' = ks s -> mem s' = mem s -> step_to now s (live now (ks s)) 0 s'.
Proof.
  intros s' Hc Hs Hm. apply step_to_intro; [done|by rewrite Hs|]. rewrite Hs, Hm. apply eq64_eq. lia.
Qed.
End rules.

(** The side conditions of the [step_to_] lemmas on a computed state: configuration and map
    compute, the counter is a wrapped sum. *)
Ltac step_side :=
  first [done | progress (cbn [mem set_mem set_ks set_met]); rewrite ?eq64_wrap; apply eq64_eq; lia].

(** The first two steps of every operation on a key, then the cases on what the key holds:
    an expired entry, one that is alive, nothing. *)
Ltac op_start := unfold implements, reads; cbn [fst snd]; do 2 db_step; cbn beta.

Ltac lookup_cases :=
  lazymatch goal with
  | |- context [live ?now (ks ?s) !! ?key] =>
    let ent := fresh "ent" in let Hent := fresh "Hent" in let Hexp := fresh "Hexp" in
    destruct (ks s !! key) as [ent|] eqn:Hent; [destruct (is_expired ent now) eqn:Hexp|];
    [ rewrite (live_expired now _ _ ent Hent Hexp)
    | rewrite (live_Some now _ _ ent Hent Hexp); unfold value_of
    | rewrite (live_None now _ _ Hent) ]
  end.

(** Ends the symbolic execution: the final flat state is the one reached. *)
Ltac op_done := eexists; split; [eassumption|].
