(* ===== verification/DbList.v ===== *)
(** * List operations of [src/src/db.rs]: [lpush], [rpush], [lpop], [rpop], [lrange] *)
From S2P Require Import Prelude.
From S2P Require Import RustStd.
From S2P Require Import Metrics.
From S2P Require Import Store.
From S2P Require Import Keyspace.

Section list.
Context {Hh : Hasher}.

(** The loop of a push: the list with every element pushed, and [added_bytes]. *)
Fixpoint push_loop (push_el : bytes -> list bytes -> list bytes) (elements : list bytes)
    (l : list bytes) (added_bytes : Z) : list bytes * Z :=
  match elements with
  | [] => (l, added_bytes)
  | el :: rest => push_loop push_el rest (push_el el l) (added_bytes + (len el + 16))
  end.

(** The body [lpush] and [rpush] share, up to [push_front] and [push_back]. *)
Definition push (push_el : bytes -> list bytes -> list bytes)
    (e : Env) (key : bytes) (elements : list bytes) : ST Db (Result bytes Z) :=
  idx ← locate key;
  let now := clock e 0 in
  evict_if_expired idx key now ;;
  now_m ← now_millis e 1;
  entry ← or_insert_with idx key (CacheEntry_new (DList []) None now_m);
  match data entry with
  | DList l =>
    let '(l', added_bytes) := push_loop push_el elements l 0 in
    entries_insert idx key (touch now_m (with_data (DList l') entry)) ;;
    add_memory added_bytes ;;
    mret (Ok (len l'))
  | _ => mret (Err WRONG_TYPE_ERR)
  end.

(** [Db::lpush], [Db::rpush] *)
Definition lpush : Env -> bytes -> list bytes -> ST Db (Result bytes Z) := push (fun el l => el :: l).
Definition rpush : Env -> bytes -> list bytes -> ST Db (Result bytes Z) := push (fun el l => l ++ [el]).

(** The body [lpop] and [rpop] share, up to [pop_front] and [pop_back]. *)
Definition pop (pop_el : list bytes -> option bytes * list bytes)
    (e : Env) (key : bytes) : ST Db (Result bytes (option bytes)) :=
  idx ← locate key;
  let now := clock e 0 in
  o ← entries_get idx key;
  match o with
  | Some entry =>
    if is_expired entry now then
      entries_remove idx key ;;
      sub_memory (size_bytes entry key) ;;
      metric (record_expiration 1) ;;
      metric record_miss ;;
      mret (Ok None)
    else
      match data entry with
      | DList l =>
        let '(popped, l') := pop_el l in
        match popped with
        | Some p => sub_memory (len p + 16) ;; metric record_hit
        | None => metric record_miss
        end ;;
        let entry := with_data (DList l') entry in
        match l' with
        | [] => entries_remove idx key ;; sub_memory (size_bytes entry key)
        | _ =>
          now_m ← now_millis e 1;
          entries_insert idx key (touch now_m entry)
        end ;;
        mret (Ok popped)
      | _ => mret (Err WRONG_TYPE_ERR)
      end
  | None => metric record_miss ;; mret (Ok None)
  end.

(** [Db::lpop], [Db::rpop] *)
Definition lpop : Env -> bytes -> ST Db (Result bytes (option bytes)) := pop pop_front.
Definition rpop : Env -> bytes -> ST Db (Result bytes (option bytes)) := pop pop_back.

(** The index arithmetic of [lrange]; list lengths and indices are [i64]. *)
Definition lrange_indices (l : list bytes) (start stop : Z) : list bytes :=
  let n := len l in
  if n =? 0 then []
  else
    let s := if start <? 0 then n + start else start in
    let e := if stop <? 0 then n + stop else stop in
    let s := if s <? 0 then 0 else s in
    let e := if n <=? e then n - 1 else e in
    if (e <? s) || (n <=? s) then []
    else omap (fun i => l !! Z.to_nat i) (seqZ s (e - s + 1)).

(** [Db::lrange] *)
Definition lrange (e : Env) (key : bytes) (start stop : Z) : ST Db (Result bytes (list bytes)) :=
  idx ← locate key;
  let now := clock e 0 in
  o ← entries_get idx key;
  match o with
  | Some entry =>
    if is_expired entry now then metric record_miss ;; mret (Ok [])
    else
      match data entry with
      | DList l =>
        now_m ← now_millis e 1;
        entries_insert idx key (touch now_m entry) ;;
        metric record_hit ;;
        mret (Ok (lrange_indices l start stop))
      | _ => mret (Err WRONG_TYPE_ERR)
      end
  | None => metric record_miss ;; mret (Ok [])
  end.

(** ** Pushes *)

Lemma data_size_DList l : data_size (DList l) = sumZ (map (fun b => len b + 16) l).
Proof. done. Qed.

Lemma push_loop_eq push_el place els l b :
  (forall l, place l [] = l) -> (forall el l els, place (push_el el l) els = place l (el :: els)) ->
  push_loop push_el els l b = (place l els, b + data_size (DList els)).
Proof.
  intros Hn Hc. revert l b. induction els as [|el els IH]; intros l b; cbn [push_loop].
  - rewrite Hn. f_equal. unfold data_size. cbn. lia.
  - rewrite IH, Hc. f_equal. unfold data_size. cbn. lia.
Qed.

Lemma size_place place l els :
  place l els ≡ₚ els ++ l ->
  data_size (DList (place l els)) = data_size (DList l) + data_size (DList els)
  /\ len (place l els) = len l + len els.
Proof.
  intros Hp. split.
  - rewrite !data_size_DList, Hp, map_app, sumZ_app. lia.
  - unfold len. rewrite Hp, length_app. lia.
Qed.

Lemma push_implements push_el place e key els db s :
  (forall l, place l [] = l) -> (forall el l els, place (push_el el l) els = place l (el :: els)) ->
  (forall l els, place l els ≡ₚ els ++ l) ->
  models db s ->
  implements (clock e 0) s (spec_push place key els) (creation_cost key (live (clock e 0) (ks s)))
    (push push_el e key els) db.
Proof.
  intros Hn Hc Hp Hm. unfold push. op_start. apply implements_evict; [done|].
  clear db Hm. intros db s1 Hm Hns <- Halive. rewrite <- Hns. clear s Hns. rename s1 into s.
  apply wp_bind, (wp_now_millis _ _ _ _ _ Hm). intros now_m. apply wp_bind.
  apply (wp_or_insert_with _ _ _ _ _ Hm).
  - intros ent Hent. pose proof (live_Some _ _ _ _ Hent (Halive _ Hent)) as Hl.
    destruct (data ent) as [|l| |] eqn:Hd; try (db_run; exists s; unfold spec_push, creation_cost;
      rewrite Hl; unfold value_of; rewrite Hd; split_and!; [done|apply step_to_refl|done]).
    rewrite (push_loop_eq _ place) by done. destruct (size_place place l els) as [Hs Hlen]; [done|].
    db_run. op_done. unfold spec_push, creation_cost. rewrite Hl. unfold value_of. rewrite Hd.
    cbn [fst snd]. rewrite Hlen. split; [|done].
    eapply step_to_update; [exact Hent|done|done|exact (Halive _ Hent)|done|]. cbn [mem set_mem set_ks].
    rewrite eq64_wrap. apply eq64_eq. unfold size_bytes. cbn [data touch with_data]. rewrite Hd, Hs. lia.
  - intros Hnone db' Hm'. clear Hm. cbn [data CacheEntry_new].
    rewrite (push_loop_eq _ place) by done. destruct (size_place place [] els) as [Hs Hlen]; [done|].
    change (nsh s) with (nsh (set_ks (insert key (CacheEntry_new (DList []) None now_m)) s)).
    db_run. op_done. unfold spec_push, creation_cost. rewrite (live_None _ _ _ Hnone).
    cbn [fst snd]. rewrite Hlen. split; [|done].
    eapply step_to_create; [done|apply insert_insert_eq|done|done|done|]. cbn [mem set_mem set_ks].
    rewrite eq64_wrap. apply eq64_eq. unfold size_bytes, key_overhead. cbn [data touch with_data].
    rewrite Hs. change (data_size (DList [])) with 0. lia.
Qed.

(** ** Pops *)

Lemma pop_implements pop_el e key db s :
  (forall l, match pop_el l with (Some p, l') => l ≡ₚ p :: l' | (None, l') => l = [] /\ l' = [] end) ->
  models db s ->
  implements (clock e 0) s (spec_pop pop_el key) 0 (pop pop_el e key) db.
Proof.
  intros Hpop Hm. unfold pop, spec_pop. op_start. do 2 db_step. lookup_cases.
  { db_run. op_done. split; [|done]. apply (step_to_evict _ _ _ _ Hent Hexp); step_side. }
  2:{ db_run. op_done. split; [|done]. by apply step_to_same. }
  destruct (data ent) as [|l| |] eqn:Hd;
    try (db_run; op_done; split; [apply step_to_same|]; done).
  specialize (Hpop l). destruct (pop_el l) as [[p|] l'].
  - assert (data_size (DList l) = data_size (DList l') + (len p + 16)) as Hsz.
    { rewrite !data_size_DList, Hpop. cbn. lia. }
    destruct l' as [|b l'].
    + db_run. op_done. split; [|done].
      eapply (step_to_remove _ _ _ ent (with_data (DList []) ent) (len p + 16)); [done|..]; try step_side.
      unfold size_bytes. cbn. rewrite Hd. lia.
    + db_run. op_done. split; [|done].
      eapply step_to_update; [exact Hent|done..|]. cbn [mem set_mem set_ks set_met].
      rewrite eq64_wrap. apply eq64_eq. unfold size_bytes. cbn [data touch with_data]. rewrite Hd. lia.
  - destruct Hpop as [-> ->]. db_run. op_done. split; [|done].
    eapply (step_to_remove _ _ _ ent (with_data (DList []) ent) 0); [done|..]; try step_side.
    unfold size_bytes. cbn. rewrite Hd. lia.
Qed.

Lemma pop_evicts pop_el e key db s :
  models db s ->
  evicts_expired (clock e 0) s key (fun m => record_miss (record_expiration 1 m)) (Ok None) (pop pop_el e key) db.
Proof. intros Hm ent Hent Hexp. unfold pop. do 4 db_step. rewrite Hent, Hexp. by db_run. Qed.

(** ** Ranges *)

Lemma omap_lookup_seqZ (l : list bytes) i n : 0 <= i ->
  omap (fun j => l !! Z.to_nat j) (seqZ i n) = take (Z.to_nat n) (drop (Z.to_nat i) l).
Proof.
  intros Hi. remember (Z.to_nat n) as m eqn:Hm. revert i n Hi Hm.
  induction m as [|m IH]; intros i n Hi Hm; [by rewrite seqZ_nil by lia|].
  rewrite seqZ_cons by lia. cbn [omap list_omap].
  rewrite (IH (Z.succ i) (Z.pred n)) by lia. rewrite Z2Nat.inj_succ by done.
  destruct (l !! Z.to_nat i) as [x|] eqn:E.
  - by rewrite (drop_S l x (Z.to_nat i) E).
  - apply lookup_ge_None_1 in E. by rewrite !drop_ge, !take_nil by lia.
Qed.

(** The index arithmetic of the code is the slice. *)
Lemma lrange_indices_slice l start stop : lrange_indices l start stop = slice l start stop.
Proof.
  unfold lrange_indices, slice. pose proof (len_nonneg l).
  generalize (if start <? 0 then len l + start else start). intros lo.
  generalize (if stop <? 0 then len l + stop else stop). intros hi.
  destruct (Z.eqb_spec (len l) 0) as [E0|E0].
  { destruct l; [by rewrite drop_nil, take_nil|discriminate E0]. }
  replace (if lo <? 0 then 0 else lo) with (Z.max 0 lo) by (destruct (Z.ltb_spec lo 0); lia).
  replace (if len l <=? hi then len l - 1 else hi) with (Z.min (len l - 1) hi)
    by (destruct (Z.leb_spec (len l) hi); lia).
  case_match eqn:E.
  - rewrite orb_true_iff, Z.ltb_lt, Z.leb_le in E. destruct E as [E|E].
    + by replace (Z.to_nat (Z.min _ _ + 1 - Z.max 0 lo)) with 0%nat by lia.
    + rewrite drop_ge by (unfold len in *; lia). by rewrite take_nil.
  - rewrite omap_lookup_seqZ by lia. do 2 f_equal. lia.
Qed.

Lemma lrange_implements e key start stop db s :
  models db s ->
  implements (clock e 0) s (reads (spec_lrange key start stop)) 0 (lrange e key start stop) db.
Proof.
  intros Hm. unfold lrange, spec_lrange. op_start. do 2 db_step. lookup_cases.
  { db_run. op_done. by split; [apply step_to_same|]. }
  2:{ db_run. op_done. by split; [apply step_to_same|]. }
  destruct (data ent) as [|l| |] eqn:Hd; db_run; op_done; (split; [|done || by rewrite lrange_indices_slice]);
    first [by eapply step_to_touch|by apply step_to_same].
Qed.

Lemma lpush_implements e key els db s :
  models db s ->
  implements (clock e 0) s (spec_lpush key els) (creation_cost key (live (clock e 0) (ks s)))
    (lpush e key els) db.
Proof.
  intros Hm. apply push_implements; try done.
  - intros el l els'. cbn. by rewrite <- app_assoc.
  - intros l els'. by rewrite <- Permutation_rev.
Qed.

Lemma rpush_implements e key els db s :
  models db s ->
  implements (clock e 0) s (spec_rpush key els) (creation_cost key (live (clock e 0) (ks s)))
    (rpush e key els) db.
Proof.
  intros Hm. apply push_implements; try done.
  - intros l. apply app_nil_r.
  - intros el l els'. by rewrite <- app_assoc.
  - intros l els'. apply Permutation_app_comm.
Qed.

Lemma lpop_implements e key db s :
  models db s -> implements (clock e 0) s (spec_lpop key) 0 (lpop e key) db.
Proof. intros Hm. apply pop_implements; [|done]. intros l. destruct l; cbn; done. Qed.

Lemma rpop_implements e key db s :
  models db s -> implements (clock e 0) s (spec_rpop key) 0 (rpop e key) db.
Proof.
  intros Hm. apply pop_implements; [|done]. intros l.
  destruct (last l) as [p|] eqn:E; unfold pop_back; rewrite E.
  - apply last_Some in E as [l' ->]. rewrite removelast_last. by rewrite Permutation_app_comm.
  - apply last_None in E as ->. done.
Qed.

(** C25: RPUSH and LPUSH, on every branch (missing key, expired key, list, key of another
    type): neither panics; the reply and the change of the live keyspace are those of the
    reference push, which creates the list, keeps the deadline of an existing one, and
    replies WRONGTYPE without a change; and no other key is touched. The memory counter
    misses the key's own bytes exactly when the key is created. *)
Theorem push_correct e key els db s :
  models db s ->
  implements (clock e 0) s (spec_lpush key els) (creation_cost key (live (clock e 0) (ks s)))
    (lpush e key els) db
  /\ implements (clock e 0) s (spec_rpush key els) (creation_cost key (live (clock e 0) (ks s)))
    (rpush e key els) db.
Proof.
  intros Hm. split; [by apply lpush_implements|by apply rpush_implements].
Qed.

(** C26: LPOP and RPOP take the first and the last element of a live list, remove the key
    together with its last element, reply WRONGTYPE on another type and nil for a missing
    key, and keep the memory counter exact. An expired key is treated as a missing one: all
    that happens is that its entry leaves the store and the counter, and that an expiration
    and a miss are counted. *)
Theorem pop_correct e key db s :
  models db s ->
  implements (clock e 0) s (spec_lpop key) 0 (lpop e key) db
  /\ implements (clock e 0) s (spec_rpop key) 0 (rpop e key) db
  /\ evicts_expired (clock e 0) s key (fun m => record_miss (record_expiration 1 m)) (Ok None) (lpop e key) db
  /\ evicts_expired (clock e 0) s key (fun m => record_miss (record_expiration 1 m)) (Ok None) (rpop e key) db.
Proof.
  intros Hm. split_and!; [by apply lpop_implements|by apply rpop_implements|by apply pop_evicts..].
Qed.

(** LRANGE replies the slice with both ends included, negative indices counted from the
    end and out-of-range ends cut off, and changes nothing but the access time. *)
Lemma lrange_correct e key start stop db s :
  models db s ->
  implements (clock e 0) s (reads (spec_lrange key start stop)) 0 (lrange e key start stop) db.
Proof. apply lrange_implements. Qed.

End list.

(** Concrete runs. *)
#[local] Existing Instance Demo.hash.

Lemma push_correct_witness :
  models Demo.db (flat Demo.db)
  /\ implements (clock Demo.env 0) (flat Demo.db) (spec_rpush (bs "list") [bs "d"; bs "e"])
      (creation_cost (bs "list") (live (clock Demo.env 0) (view Demo.db)))
      (rpush Demo.env (bs "list") [bs "d"; bs "e"]) Demo.db.
Proof. split; [exact Demo.ok|]. apply push_correct, Demo.ok. Defined.

Lemma pop_correct_witness :
  models Demo.db (flat Demo.db)
  /\ implements (clock Demo.env 0) (flat Demo.db) (spec_lpop (bs "list")) 0 (lpop Demo.env (bs "list")) Demo.db.
Proof. split; [exact Demo.ok|]. apply pop_correct, Demo.ok. Defined.

Lemma lrange_correct_witness :
  models Demo.db (flat Demo.db)
  /\ implements (clock Demo.env 0) (flat Demo.db) (reads (spec_lrange (bs "list") (-2) 7)) 0
      (lrange Demo.env (bs "list") (-2) 7) Demo.db.
Proof. split; [exact Demo.ok|]. apply lrange_correct, Demo.ok. Defined.
