(* ===== verification/DbHash.v ===== *)
(** * Hash operations of [src/src/db.rs]: [hset], [hget], [hdel], [hgetall] *)
From S2P Require Import Prelude.
From S2P Require Import RustStd.
From S2P Require Import Metrics.
From S2P Require Import Store.
From S2P Require Import Keyspace.

Section hash.
Context {Hh : Hasher}.

(** The loop of [hset]: the hash with every pair inserted, and [added_count]. *)
Fixpoint hset_loop (fields : list (bytes * bytes)) (map : gmap bytes bytes) (added_count : Z)
    : ST Db (gmap bytes bytes * Z) :=
  match fields with
  | [] => mret (map, added_count)
  | (field, value) :: rest =>
    let map' := <[field := value]> map in
    match map !! field with
    | Some old_val =>
      (if len old_val <? len value then add_memory (len value - len old_val)
       else sub_memory (len old_val - len value)) ;;
      hset_loop rest map' added_count
    | None =>
      add_memory (len field + len value + 32) ;;
      hset_loop rest map' (added_count + 1)
    end
  end.

(** [Db::hset] *)
Definition hset (e : Env) (key : bytes) (fields : list (bytes * bytes)) : ST Db (Result bytes Z) :=
  idx ← locate key;
  let now := clock e 0 in
  evict_if_expired idx key now ;;
  now_m ← now_millis e 1;
  entry ← or_insert_with idx key (CacheEntry_new (DHash ∅) None now_m);
  match data entry with
  | DHash map =>
    r ← hset_loop fields map 0;
    entries_insert idx key (touch now_m (with_data (DHash r.1) entry)) ;;
    mret (Ok r.2)
  | _ => mret (Err WRONG_TYPE_ERR)
  end.

(** [Db::hget] *)
Definition hget (e : Env) (key field : bytes) : ST Db (Result bytes (option bytes)) :=
  idx ← locate key;
  let now := clock e 0 in
  o ← entries_get idx key;
  match o with
  | Some entry =>
    if is_expired entry now then metric record_miss ;; mret (Ok None)
    else
      match data entry with
      | DHash map =>
        now_m ← now_millis e 1;
        entries_insert idx key (touch now_m entry) ;;
        match map !! field with
        | Some val => metric record_hit ;; mret (Ok (Some val))
        | None => metric record_miss ;; mret (Ok None)
        end
      | _ => mret (Err WRONG_TYPE_ERR)
      end
  | None => metric record_miss ;; mret (Ok None)
  end.

(** The loop of [hdel]: the hash without the fields, and [removed]. *)
Fixpoint hdel_loop (fields : list bytes) (map : gmap bytes bytes) (removed : Z)
    : ST Db (gmap bytes bytes * Z) :=
  match fields with
  | [] => mret (map, removed)
  | f :: rest =>
    match map !! f with
    | Some val => sub_memory (len f + len val + 32) ;; hdel_loop rest (delete f map) (removed + 1)
    | None => hdel_loop rest map removed
    end
  end.

(** [Db::hdel] *)
Definition hdel (e : Env) (key : bytes) (fields : list bytes) : ST Db (Result bytes Z) :=
  idx ← locate key;
  let now := clock e 0 in
  o ← entries_get idx key;
  match o with
  | Some entry =>
    if is_expired entry now then
      entries_remove idx key ;;
      sub_memory (size_bytes entry key) ;;
      mret (Ok 0)
    else
      match data entry with
      | DHash map =>
        r ← hdel_loop fields map 0;
        let entry := with_data (DHash r.1) entry in
        (if bool_decide (r.1 = ∅) then entries_remove idx key ;; sub_memory (size_bytes entry key)
         else
           now_m ← now_millis e 1;
           entries_insert idx key (touch now_m entry)) ;;
        mret (Ok r.2)
      | _ => mret (Err WRONG_TYPE_ERR)
      end
  | None => mret (Ok 0)
  end.

(** The pairs of a hash in the order its table yields them. *)
Definition hash_iter (e : Env) (map : gmap bytes bytes) : list (bytes * bytes) :=
  omap (fun f => v ← map !! f; Some (f, v)) (order e 0 (dom map)).

(** [Db::hgetall] *)
Definition hgetall (e : Env) (key : bytes) : ST Db (Result bytes (list (bytes * bytes))) :=
  idx ← locate key;
  let now := clock e 0 in
  o ← entries_get idx key;
  match o with
  | Some entry =>
    if is_expired entry now then metric record_miss ;; mret (Ok [])
    else
      match data entry with
      | DHash map =>
        now_m ← now_millis e 1;
        entries_insert idx key (touch now_m entry) ;;
        metric record_hit ;;
        mret (Ok (hash_iter e map))
      | _ => mret (Err WRONG_TYPE_ERR)
      end
  | None => metric record_miss ;; mret (Ok [])
  end.

(** ** Sizes *)

Lemma size_hash_new h f v : h !! f = None ->
  data_size (DHash (<[f := v]> h)) = data_size (DHash h) + (len f + len v + 32).
Proof. intros Hf. unfold data_size. rewrite map_to_list_insert by done. cbn. lia. Qed.

Lemma size_hash_delete h f v : h !! f = Some v ->
  data_size (DHash (delete f h)) = data_size (DHash h) - (len f + len v + 32).
Proof.
  intros Hf. rewrite <- (insert_id h f v) at 2 by done. rewrite <- insert_delete_eq.
  rewrite size_hash_new by apply lookup_delete_eq. lia.
Qed.

Lemma size_hash_update h f v old : h !! f = Some old ->
  data_size (DHash (<[f := v]> h)) = data_size (DHash h) + (len v - len old).
Proof.
  intros Hf. rewrite <- insert_delete_eq, size_hash_new by apply lookup_delete_eq.
  rewrite (size_hash_delete _ _ old) by done. lia.
Qed.

(** ** The loops *)

Lemma set_mem_id s : set_mem (fun _ => mem s) s = s.
Proof. by destruct s. Qed.

Lemma wp_hset_loop (fields : list (bytes * bytes)) (map : gmap bytes bytes) (n : Z) (db : Db) (s : Flat) (Q : gmap bytes bytes * Z -> Db -> Prop) :
  models db s ->
  (forall db' m, models db' (set_mem (fun _ => m) s) ->
     eq64 m (mem s + data_size (DHash (hash_write map fields)) - data_size (DHash map)) ->
     Q (hash_write map fields, n + (Z.of_nat (size (hash_write map fields)) - Z.of_nat (size map))) db') ->
  wp (hset_loop fields map n) Q db.
Proof.
  revert map n db s. induction fields as [|[f v] fields IH]; intros map n db s Hm HQ; cbn [hset_loop].
  { apply wp_ret. rewrite <- (Z.add_0_r n), <- (Z.sub_diag (Z.of_nat (size map))).
    apply (HQ db (mem s)); [by rewrite set_mem_id|apply eq64_eq; cbn; lia]. }
  assert (forall a n' db1 g,
    models db1 (set_mem g s) -> eq64 (g (mem s)) (mem s + a) ->
    data_size (DHash (<[f := v]> map)) = data_size (DHash map) + a ->
    n' - Z.of_nat (size (<[f := v]> map)) = n - Z.of_nat (size map) ->
    wp (hset_loop fields (<[f := v]> map) n') Q db1) as Hk.
  { intros a n' db1 g Hm1 Hmm Hsz Hn. apply (IH _ _ _ _ Hm1). intros db' m Hm' Hmm'.
    change (hash_write (<[f := v]> map) fields) with (hash_write map ((f, v) :: fields)) in *.
    match goal with |- Q (_, ?x) _ => replace x with
      (n + (Z.of_nat (size (hash_write map ((f, v) :: fields))) - Z.of_nat (size map))) by lia end.
    apply (HQ db' m Hm'). rewrite Hmm'. cbn [mem set_mem]. rewrite Hmm. apply eq64_eq. lia. }
  destruct (map !! f) as [old|] eqn:Hf.
  - apply wp_bind. destruct (len old <? len v); db_step;
      eapply (Hk (len v - len old)); try eassumption;
      first [rewrite eq64_wrap; apply eq64_eq; lia|by apply size_hash_update
            |by rewrite map_size_insert, Hf].
  - db_run. eapply (Hk (len f + len v + 32)); [eassumption|apply eq64_wrap|by apply size_hash_new|].
    rewrite map_size_insert_None by done. lia.
Qed.

Lemma hash_write_size fields h : (size h <= size (hash_write h fields))%nat.
Proof.
  revert h. induction fields as [|[f v] fields IH]; intros h; [done|].
  etrans; [|apply (IH (<[f := v]> h))]. rewrite map_size_insert. by case_match; cbn; lia.
Qed.

Lemma filter_not_in_delete (h : gmap bytes bytes) f fields :
  filter (fun fv => fv.1 ∉ f :: fields) h = filter (fun fv => fv.1 ∉ fields) (delete f h).
Proof.
  apply map_eq. intros k. apply option_eq. intros v.
  rewrite !map_lookup_filter_Some, lookup_delete_Some. cbn. rewrite not_elem_of_cons. split; [intros (?&?&?)|intros ((?&?)&?)]; split_and!; congruence.
Qed.

Lemma wp_hdel_loop (fields : list bytes) (map : gmap bytes bytes) (n : Z) (db : Db) (s : Flat) (Q : gmap bytes bytes * Z -> Db -> Prop) :
  models db s ->
  (let map' := filter (fun fv => fv.1 ∉ fields) map in
   forall db' m, models db' (set_mem (fun _ => m) s) ->
     eq64 m (mem s + data_size (DHash map') - data_size (DHash map)) ->
     (size map' <= size map)%nat ->
     Q (map', n + Z.of_nat (size map - size map')) db') ->
  wp (hdel_loop fields map n) Q db.
Proof.
  revert map n db s. induction fields as [|f fields IH]; intros map n db s Hm; cbv zeta; intros HQ; cbn [hdel_loop].
  { apply wp_ret. assert (filter (fun fv => fv.1 ∉ []) map = map) as E.
    { apply map_filter_id. intros i x _. cbn. apply not_elem_of_nil. }
    rewrite E in HQ. rewrite <- (Z.add_0_r n). replace 0 with (Z.of_nat (size map - size map)) by lia.
    apply (HQ db (mem s)); [by rewrite set_mem_id|apply eq64_eq; lia|done]. }
  rewrite filter_not_in_delete in HQ. destruct (map !! f) as [val|] eqn:Hf.
  - db_run. pose proof (size_hash_delete _ _ _ Hf) as Hsz.
    assert (S (size (delete f map)) = size map) as Hc.
    { rewrite map_size_delete_Some by done. destruct (size map) eqn:E; [|done].
      apply map_size_empty_inv in E as ->. by rewrite lookup_empty in Hf. }
    eapply IH; [eassumption|]. intros map' db1 m Hm1 Hmm Hle. subst map'.
    replace (n + 1 + Z.of_nat (size (delete f map) - size (filter (fun fv => fv.1 ∉ fields) (delete f map)))) with (n + Z.of_nat (size map - size (filter (fun fv => fv.1 ∉ fields) (delete f map)))) by lia.
    apply (HQ db1 m); [done| |etrans; [exact Hle|lia]]. rewrite Hmm. cbn [mem set_mem]. rewrite eq64_wrap. apply eq64_eq. lia.
  - rewrite delete_id in HQ by done. by eapply IH.
Qed.

(** ** The operations *)

Lemma hset_implements e key fields db s :
  models db s ->
  implements (clock e 0) s (spec_hset key fields) (creation_cost key (live (clock e 0) (ks s)))
    (hset e key fields) db.
Proof.
  intros Hm. unfold hset. op_start. apply implements_evict; [done|].
  clear db Hm. intros db s1 Hm Hns <- Halive. rewrite <- Hns. clear s Hns. rename s1 into s.
  apply wp_bind, (wp_now_millis _ _ _ _ _ Hm). intros now_m. apply wp_bind.
  apply (wp_or_insert_with _ _ _ _ _ Hm).
  - intros ent Hent. unfold spec_hset, creation_cost.
    rewrite (live_Some _ _ _ _ Hent (Halive _ Hent)). unfold value_of.
    destruct (data ent) as [| | |h] eqn:Hd; try (db_run; op_done; split; [apply step_to_refl|done]).
    apply wp_bind, (wp_hset_loop _ _ _ _ _ _ Hm). clear db Hm. intros db m Hm Hmm.
    change (nsh s) with (nsh (set_mem (fun _ => m) s)). db_run. op_done. cbn [fst snd].
    split; [|f_equal; pose proof (hash_write_size fields h); lia].
    eapply step_to_update; [exact Hent|done|done|exact (Halive _ Hent)|done|]. cbn [mem set_mem set_ks].
    rewrite Hmm. apply eq64_eq. unfold size_bytes. cbn [data touch with_data]. rewrite Hd. lia.
  - intros Hnone db' Hm'. unfold spec_hset, creation_cost. rewrite (live_None _ _ _ Hnone).
    cbn [data CacheEntry_new].
    apply wp_bind, (wp_hset_loop _ _ _ _ _ _ Hm'). clear db Hm db' Hm'. intros db m Hm Hmm.
    cbn [mem set_ks] in Hmm.
    change (nsh s) with (nsh (set_mem (fun _ => m) (set_ks (insert key (CacheEntry_new (DHash ∅) None now_m)) s))).
    db_run. op_done. cbn [fst snd]. split; [|f_equal; pose proof (hash_write_size fields ∅); lia].
    eapply step_to_create; [done|apply insert_insert_eq|done|done|done|]. cbn [mem set_mem set_ks].
    rewrite Hmm. apply eq64_eq. unfold size_bytes, key_overhead. cbn [data touch with_data].
    change (data_size (DHash ∅)) with 0. lia.
Qed.

Lemma hdel_implements e key fields db s :
  models db s -> implements (clock e 0) s (spec_hdel key fields) 0 (hdel e key fields) db.
Proof.
  intros Hm. unfold hdel, spec_hdel. op_start. do 2 db_step. lookup_cases.
  { db_run. op_done. split; [|done]. apply (step_to_evict _ _ _ _ Hent Hexp); step_side. }
  2:{ db_run. op_done. split; [|done]. by apply step_to_same. }
  destruct (data ent) as [| | |h] eqn:Hd; try (db_run; op_done; split; [apply step_to_refl|done]).
  cbv zeta. apply wp_bind, (wp_hdel_loop _ _ _ _ _ _ Hm). intros h' db' m Hm' Hmm Hle. clear Hm.
  cbn [fst snd]. change (nsh s) with (nsh (set_mem (fun _ => m) s)).
  fold h'. destruct (decide (h' = ∅)) as [He|He].
  - rewrite bool_decide_eq_true_2 by done. db_run. op_done. split; [|done].
    eapply (step_to_remove _ _ _ ent (with_data (DHash h') ent)
      (data_size (DHash h) - data_size (DHash h'))); [done|..]; try done.
    + unfold size_bytes. cbn [data with_data]. rewrite Hd. lia.
    + cbn [mem set_mem set_ks]. rewrite eq64_wrap, Hmm. apply eq64_eq. lia.
  - rewrite bool_decide_eq_false_2 by done. db_run. op_done. split; [|done].
    eapply step_to_update; [exact Hent|done..|]. cbn [mem set_mem set_ks].
    rewrite Hmm. apply eq64_eq. unfold size_bytes. cbn [data touch with_data]. rewrite Hd. lia.
Qed.

Lemma hget_implements e key field db s :
  models db s -> implements (clock e 0) s (reads (spec_hget key field)) 0 (hget e key field) db.
Proof.
  intros Hm. unfold hget, spec_hget. op_start. do 2 db_step. lookup_cases.
  { db_run. op_done. by split; [apply step_to_same|]. }
  2:{ db_run. op_done. by split; [apply step_to_same|]. }
  destruct (data ent) as [| | |h] eqn:Hd; [db_run; op_done; by split; [apply step_to_same|]..|].
  db_run. destruct (h !! field); db_run; op_done; (split; [by eapply step_to_touch|done]).
Qed.

Lemma elements_dom_perm {A} (h : gmap bytes A) : elements (dom h) ≡ₚ (map_to_list h).*1.
Proof.
  apply NoDup_Permutation; [apply NoDup_elements|apply NoDup_fst_map_to_list|].
  intros k. rewrite elem_of_elements, elem_of_dom, list_elem_of_fmap. split.
  - intros [v Hv]. exists (k, v). split; [done|]. by apply elem_of_map_to_list.
  - intros ([k' v] & -> & Hv). exists v. by apply elem_of_map_to_list in Hv.
Qed.

Lemma hash_iter_perm e h : hash_iter e h ≡ₚ map_to_list h.
Proof.
  unfold hash_iter. rewrite (order_perm e 0 (dom h)), elements_dom_perm.
  assert (forall kv, kv ∈ map_to_list h -> h !! kv.1 = Some kv.2) as Hl.
  { intros [k v] Hkv. by apply elem_of_map_to_list in Hkv. }
  induction (map_to_list h) as [|[k v] l IH]; [done|]. cbn. rewrite (Hl (k, v) ltac:(left) : h !! k = Some v).
  cbn. f_equiv. apply IH. intros kv Hkv. apply Hl. by right.
Qed.

Lemma hgetall_implements e key db s :
  models db s ->
  wp (hgetall e key) (fun r db' => exists s', models db' s' /\
    step_to (clock e 0) s (live (clock e 0) (ks s)) 0 s' /\
    spec_hgetall key (live (clock e 0) (ks s)) r) db.
Proof.
  intros Hm. unfold hgetall, spec_hgetall. op_start. do 2 db_step. lookup_cases.
  { db_run. op_done. by split; [apply step_to_same|]. }
  2:{ db_run. op_done. by split; [apply step_to_same|]. }
  destruct (data ent) as [| | |h] eqn:Hd; [db_run; op_done; by split; [apply step_to_same|]..|].
  db_run. op_done. split; [by eapply step_to_touch|]. eexists. split; [done|]. apply hash_iter_perm.
Qed.

(** C14: HSET, on every branch: the reply is the number of fields that are new after all pairs
    are written in order (a field given twice counts once, the last value wins), the key is
    created if it is missing or expired and keeps its deadline otherwise, WRONGTYPE changes
    nothing, and the per-field adjustments of the memory counter add up to the change in
    size except for the bytes of a newly created key itself. *)
Theorem hset_correct e key fields db s :
  models db s ->
  implements (clock e 0) s (spec_hset key fields) (creation_cost key (live (clock e 0) (ks s)))
    (hset e key fields) db.
Proof. apply hset_implements. Qed.

(** HDEL replies the number of fields it removed (a field given twice counts once),
    removes the key with its last field, and keeps the memory counter exact; HGET replies the
    field's value. *)
Lemma hdel_hget_correct e key field fields db s :
  models db s ->
  implements (clock e 0) s (spec_hdel key fields) 0 (hdel e key fields) db
  /\ implements (clock e 0) s (reads (spec_hget key field)) 0 (hget e key field) db.
Proof. intros Hm. split; [by apply hdel_implements|by apply hget_implements]. Qed.

End hash.

(** Concrete runs. *)
#[local] Existing Instance Demo.hash.

Lemma hset_correct_witness :
  models Demo.db (flat Demo.db)
  /\ implements (clock Demo.env 0) (flat Demo.db) (spec_hset (bs "h") [(bs "f", bs "w"); (bs "g", bs "u")])
      (creation_cost (bs "h") (live (clock Demo.env 0) (view Demo.db)))
      (hset Demo.env (bs "h") [(bs "f", bs "w"); (bs "g", bs "u")]) Demo.db.
Proof. split; [exact Demo.ok|]. apply hset_correct, Demo.ok. Defined.

Lemma hdel_hget_correct_witness :
  models Demo.db (flat Demo.db)
  /\ implements (clock Demo.env 0) (flat Demo.db) (spec_hdel (bs "h") [bs "f"]) 0
      (hdel Demo.env (bs "h") [bs "f"]) Demo.db.
Proof. split; [exact Demo.ok|]. apply (hdel_hget_correct _ _ []), Demo.ok. Defined.
