(* ===== verification/DbSet.v ===== *)
(** * Set operations of [src/src/db.rs]: [sadd], [smembers], [srem], [sismember] *)
From S2P Require Import Prelude.
From S2P Require Import RustStd.
From S2P Require Import Metrics.
From S2P Require Import Store.
From S2P Require Import Keyspace.

Section set.
Context {Hh : Hasher}.

(** The loop of [sadd]: the set with every member inserted, and [added]. *)
Fixpoint sadd_loop (members : list bytes) (set : gset bytes) (added : Z) : ST Db (gset bytes * Z) :=
  match members with
  | [] => mret (set, added)
  | m :: rest =>
    if bool_decide (m ∈ set) then sadd_loop rest set added
    else add_memory (len m + 16) ;; sadd_loop rest ({[m]} ∪ set) (added + 1)
  end.

(** [Db::sadd] *)
Definition sadd (e : Env) (key : bytes) (members : list bytes) : ST Db (Result bytes Z) :=
  idx ← locate key;
  let now := clock e 0 in
  evict_if_expired idx key now ;;
  now_m ← now_millis e 1;
  entry ← or_insert_with idx key (CacheEntry_new (DSet ∅) None now_m);
  match data entry with
  | DSet set =>
    r ← sadd_loop members set 0;
    entries_insert idx key (touch now_m (with_data (DSet r.1) entry)) ;;
    mret (Ok r.2)
  | _ => mret (Err WRONG_TYPE_ERR)
  end.

(** [Db::smembers] *)
Definition smembers (e : Env) (key : bytes) : ST Db (Result bytes (list bytes)) :=
  idx ← locate key;
  let now := clock e 0 in
  o ← entries_get idx key;
  match o with
  | Some entry =>
    if is_expired entry now then metric record_miss ;; mret (Ok [])
    else
      match data entry with
      | DSet set =>
        now_m ← now_millis e 1;
        entries_insert idx key (touch now_m entry) ;;
        metric record_hit ;;
        mret (Ok (order e 0 set))
      | _ => mret (Err WRONG_TYPE_ERR)
      end
  | None => metric record_miss ;; mret (Ok [])
  end.

(** The loop of [srem]: the set without the members, and [removed]. *)
Fixpoint srem_loop (members : list bytes) (set : gset bytes) (removed : Z) : ST Db (gset bytes * Z) :=
  match members with
  | [] => mret (set, removed)
  | m :: rest =>
    if bool_decide (m ∈ set) then sub_memory (len m + 16) ;; srem_loop rest (set ∖ {[m]}) (removed + 1)
    else srem_loop rest set removed
  end.

(** [Db::srem] *)
Definition srem (e : Env) (key : bytes) (members : list bytes) : ST Db (Result bytes Z) :=
  idx ← locate key;
  let now := clock e 0 in
  o ← entries_get idx key;
  match o with
  | Some entry =>
    if is_expired entry now then
      entries_remove idx key ;;
      sub_memory (size_bytes entry key) ;;
      mret (Ok 0)
    else
      match data entry with
      | DSet set =>
        r ← srem_loop members set 0;
        let entry := with_data (DSet r.1) entry in
        (if bool_decide (r.1 = ∅) then entries_remove idx key ;; sub_memory (size_bytes entry key)
         else
           now_m ← now_millis e 1;
           entries_insert idx key (touch now_m entry)) ;;
        mret (Ok r.2)
      | _ => mret (Err WRONG_TYPE_ERR)
      end
  | None => mret (Ok 0)
  end.

(** [Db::sismember] *)
Definition sismember (e : Env) (key member : bytes) : ST Db (Result bytes bool) :=
  idx ← locate key;
  let now := clock e 0 in
  o ← entries_get idx key;
  match o with
  | Some entry =>
    if is_expired entry now then metric record_miss ;; mret (Ok false)
    else
      match data entry with
      | DSet set =>
        now_m ← now_millis e 1;
        entries_insert idx key (touch now_m entry) ;;
        let found := bool_decide (member ∈ set) in
        (if found then metric record_hit else metric record_miss) ;;
        mret (Ok found)
      | _ => mret (Err WRONG_TYPE_ERR)
      end
  | None => metric record_miss ;; mret (Ok false)
  end.

(** ** Sizes *)

Lemma size_set_add (m : bytes) (set : gset bytes) : m ∉ set ->
  data_size (DSet ({[m]} ∪ set)) = data_size (DSet set) + (len m + 16).
Proof. intros Hm. unfold data_size. rewrite elements_union_singleton by done. cbn. lia. Qed.

Lemma size_set_remove (m : bytes) (set : gset bytes) : m ∈ set ->
  data_size (DSet (set ∖ {[m]})) = data_size (DSet set) - (len m + 16).
Proof.
  intros Hm. rewrite (union_difference_singleton_L m set) at 2 by done.
  rewrite size_set_add by set_solver. lia.
Qed.

(** ** The loops *)

Lemma wp_sadd_loop (members : list bytes) (set : gset bytes) (n : Z) (db : Db) (s : Flat)
    (Q : gset bytes * Z -> Db -> Prop) :
  models db s ->
  (forall db' m set', set' = set ∪ list_to_set members ->
     models db' (set_mem (fun _ => m) s) ->
     eq64 m (mem s + data_size (DSet set') - data_size (DSet set)) ->
     Q (set', n + Z.of_nat (size set' - size set)) db') ->
  wp (sadd_loop members set n) Q db.
Proof.
  revert set n db s. induction members as [|x members IH]; intros set n db s Hm HQ; cbn [sadd_loop].
  { apply wp_ret. replace n with (n + Z.of_nat (size set - size set)) by lia.
    apply (HQ db (mem s)); [set_solver|by destruct s|apply eq64_eq; lia]. }
  case_bool_decide as Hx.
  - apply (IH _ _ _ _ Hm). intros db' m set' ->. apply HQ. set_solver.
  - db_run. eapply IH; [eassumption|]. intros db1 m set' -> Hm1 Hmm.
    set (set' := _ ∪ list_to_set members) in *.
    pose proof (size_set_add _ _ Hx). assert (size ({[x]} ∪ set) = S (size set)) as E.
    { rewrite size_union by set_solver. by rewrite size_singleton. }
    assert (size ({[x]} ∪ set) <= size set')%nat by (apply subseteq_size; set_solver).
    replace (n + 1 + Z.of_nat (size set' - size ({[x]} ∪ set)))
      with (n + Z.of_nat (size set' - size set)) by lia.
    apply (HQ db1 m); [set_solver|done|]. rewrite Hmm. cbn [mem set_mem]. rewrite eq64_wrap. apply eq64_eq. lia.
Qed.

Lemma wp_srem_loop (members : list bytes) (set : gset bytes) (n : Z) (db : Db) (s : Flat)
    (Q : gset bytes * Z -> Db -> Prop) :
  models db s ->
  (forall db' m set', set' = set ∖ list_to_set members ->
     models db' (set_mem (fun _ => m) s) ->
     eq64 m (mem s + data_size (DSet set') - data_size (DSet set)) ->
     Q (set', n + Z.of_nat (size set - size set')) db') ->
  wp (srem_loop members set n) Q db.
Proof.
  revert set n db s. induction members as [|x members IH]; intros set n db s Hm HQ; cbn [srem_loop].
  { apply wp_ret. replace n with (n + Z.of_nat (size set - size set)) by lia.
    apply (HQ db (mem s)); [set_solver|by destruct s|apply eq64_eq; lia]. }
  case_bool_decide as Hx.
  - db_run. eapply IH; [eassumption|]. intros db1 m set' -> Hm1 Hmm.
    set (set' := _ ∖ list_to_set members) in *.
    pose proof (size_set_remove _ _ Hx). assert (S (size (set ∖ {[x]})) = size set) as E.
    { rewrite size_difference by set_solver. rewrite size_singleton.
      assert (size ({[x]} : gset bytes) <= size set)%nat as Hle by (apply subseteq_size; set_solver).
      rewrite size_singleton in Hle. lia. }
    assert (size set' <= size (set ∖ {[x]}))%nat by (apply subseteq_size; set_solver).
    replace (n + 1 + Z.of_nat (size (set ∖ {[x]}) - size set'))
      with (n + Z.of_nat (size set - size set')) by lia.
    apply (HQ db1 m); [set_solver|done|]. rewrite Hmm. cbn [mem set_mem]. rewrite eq64_wrap. apply eq64_eq. lia.
  - apply (IH _ _ _ _ Hm). intros db' m set' ->. apply HQ. set_solver.
Qed.

(** ** The operations *)

Lemma sadd_implements e key members db s :
  models db s ->
  implements (clock e 0) s (spec_sadd key members) (creation_cost key (live (clock e 0) (ks s)))
    (sadd e key members) db.
Proof.
  intros Hm. unfold sadd. op_start. apply implements_evict; [done|].
  clear db Hm. intros db s1 Hm Hns <- Halive. rewrite <- Hns. clear s Hns. rename s1 into s.
  apply wp_bind, (wp_now_millis _ _ _ _ _ Hm). intros now_m. apply wp_bind.
  apply (wp_or_insert_with _ _ _ _ _ Hm).
  - intros ent Hent. unfold spec_sadd, creation_cost.
    rewrite (live_Some _ _ _ _ Hent (Halive _ Hent)). unfold value_of.
    destruct (data ent) as [| |st|] eqn:Hd; try (db_run; op_done; split; [apply step_to_refl|done]).
    apply wp_bind, (wp_sadd_loop _ _ _ _ _ _ Hm). clear db Hm. intros db m st' -> Hm Hmm.
    change (nsh s) with (nsh (set_mem (fun _ => m) s)). db_run. op_done. cbn [fst snd]. split; [|done].
    eapply step_to_update; [exact Hent|done|done|exact (Halive _ Hent)|done|]. cbn [mem set_mem set_ks].
    rewrite Hmm. apply eq64_eq. unfold size_bytes. cbn [data touch with_data]. rewrite Hd. lia.
  - intros Hnone db' Hm'. unfold spec_sadd, creation_cost. rewrite (live_None _ _ _ Hnone).
    cbn [data CacheEntry_new].
    apply wp_bind, (wp_sadd_loop _ _ _ _ _ _ Hm'). clear db Hm db' Hm'. intros db m st' -> Hm Hmm.
    cbn [mem set_ks] in Hmm.
    change (nsh s) with (nsh (set_mem (fun _ => m) (set_ks (insert key (CacheEntry_new (DSet ∅) None now_m)) s))).
    db_run. op_done. cbn [fst snd]. split; [|done].
    eapply step_to_create; [done|apply insert_insert_eq|done|done|done|]. cbn [mem set_mem set_ks].
    rewrite Hmm. apply eq64_eq. unfold size_bytes, key_overhead. cbn [data touch with_data].
    change (data_size (DSet ∅)) with 0. lia.
Qed.

Lemma srem_implements e key members db s :
  models db s -> implements (clock e 0) s (spec_srem key members) 0 (srem e key members) db.
Proof.
  intros Hm. unfold srem, spec_srem. op_start. do 2 db_step. lookup_cases.
  { db_run. op_done. split; [|done]. apply (step_to_evict _ _ _ _ Hent Hexp); step_side. }
  2:{ db_run. op_done. split; [|done]. by apply step_to_same. }
  destruct (data ent) as [| |st|] eqn:Hd; try (db_run; op_done; split; [apply step_to_refl|done]).
  cbv zeta. apply wp_bind, (wp_srem_loop _ _ _ _ _ _ Hm). intros db' m st' <- Hm' Hmm. clear Hm.
  cbn [fst snd]. change (nsh s) with (nsh (set_mem (fun _ => m) s)).
  destruct (decide (st' = ∅)) as [He|He].
  - rewrite bool_decide_eq_true_2 by done. db_run. op_done. split; [|done].
    eapply (step_to_remove _ _ _ ent (with_data (DSet st') ent)
      (data_size (DSet st) - data_size (DSet st'))); [done|..]; try done.
    + unfold size_bytes. cbn [data with_data]. rewrite Hd. lia.
    + cbn [mem set_mem set_ks]. rewrite eq64_wrap, Hmm. apply eq64_eq. lia.
  - rewrite bool_decide_eq_false_2 by done. db_run. op_done. split; [|done].
    eapply step_to_update; [exact Hent|done..|]. cbn [mem set_mem set_ks].
    rewrite Hmm. apply eq64_eq. unfold size_bytes. cbn [data touch with_data]. rewrite Hd. lia.
Qed.

Lemma sismember_implements e key member db s :
  models db s -> implements (clock e 0) s (reads (spec_sismember key member)) 0 (sismember e key member) db.
Proof.
  intros Hm. unfold sismember, spec_sismember. op_start. do 2 db_step. lookup_cases.
  { db_run. op_done. by split; [apply step_to_same|]. }
  2:{ db_run. op_done. by split; [apply step_to_same|]. }
  destruct (data ent) as [| |st|] eqn:Hd; try (db_run; op_done; split; [apply step_to_refl|done]).
  db_run. cbv zeta. case_bool_decide; db_run; op_done; (split; [by eapply step_to_touch|done]).
Qed.

Lemma smembers_implements e key db s :
  models db s ->
  wp (smembers e key) (fun r db' => exists s', models db' s' /\
    step_to (clock e 0) s (live (clock e 0) (ks s)) 0 s' /\
    spec_smembers key (live (clock e 0) (ks s)) r) db.
Proof.
  intros Hm. unfold smembers, spec_smembers. op_start. do 2 db_step. lookup_cases.
  { db_run. op_done. by split; [apply step_to_same|]. }
  2:{ db_run. op_done. by split; [apply step_to_same|]. }
  destruct (data ent) as [| |st|] eqn:Hd; try (db_run; op_done; split; [apply step_to_refl|done]).
  db_run. op_done. split; [by eapply step_to_touch|]. eexists. split; [done|]. apply order_perm.
Qed.

(** SADD, SREM and SISMEMBER reply and act as union, difference and membership on the set at
    the key, counting each given member once: SADD creates a missing or expired key and keeps
    the deadline of an existing one, SREM removes the key with its last member, WRONGTYPE
    changes nothing, and the per-member adjustments of the memory counter add up exactly,
    except for the bytes of a newly created key itself. *)
Lemma set_ops_correct e key member members db s :
  models db s ->
  implements (clock e 0) s (spec_sadd key members) (creation_cost key (live (clock e 0) (ks s)))
    (sadd e key members) db
  /\ implements (clock e 0) s (spec_srem key members) 0 (srem e key members) db
  /\ implements (clock e 0) s (reads (spec_sismember key member)) 0 (sismember e key member) db.
Proof.
  intros Hm. split; [by apply sadd_implements|].
  split; [by apply srem_implements|by apply sismember_implements].
Qed.
End set.

(** Concrete runs. *)
#[local] Existing Instance Demo.hash.

Lemma set_ops_correct_witness :
  models Demo.db (flat Demo.db)
  /\ implements (clock Demo.env 0) (flat Demo.db) (spec_sadd (bs "new") [bs "a"; bs "a"; bs "b"])
      (creation_cost (bs "new") (live (clock Demo.env 0) (view Demo.db)))
      (sadd Demo.env (bs "new") [bs "a"; bs "a"; bs "b"]) Demo.db.
Proof. split; [exact Demo.ok|]. apply (set_ops_correct _ _ []), Demo.ok. Defined.
