(* ===== verification/Evict.v ===== *)
(** * Eviction of [src/src/db.rs]: [evict_lru_step], [ensure_capacity], [purge_expired_step]

    The sampling of random shards and keys takes its draws from the environment; each
    function takes the number of draws made so far and returns the next. *)
From S2P Require Import Prelude.
From S2P Require Import RustStd.
From S2P Require Import Metrics.
From S2P Require Import Store.
From S2P Require Import Keyspace.

Section evict.
Context {Hh : Hasher}.

(** [fastrand::usize(..n)]: an empty range panics. *)
Definition draw_below (e : Env) (i n : nat) : ST Db nat :=
  fun db => if bool_decide (n = 0%nat) then Panic db else Done (fastrand_usize e i n) db.

(** [shards[idx].entries.read()]: the map of one shard. *)
Definition read_shard (idx : nat) : ST Db entries :=
  fun db => match shards db !! idx with Some m => Done m db | None => Panic db end.

(** [keys[r]]: an index out of bounds panics. *)
Definition index_key (keys : list bytes) (r : nat) : ST Db bytes :=
  fun db => match keys !! r with Some k => Done k db | None => Panic db end.

(** ** [Db::evict_lru_step] *)

(** The sampling loop: [oldest_key] and [oldest_time] after [n] more samples. *)
Fixpoint sample_loop (e : Env) (n i : nat) (oldest_key : option (nat * bytes)) (oldest_time : Z)
    : ST Db (option (nat * bytes) * nat) :=
  match n with
  | O => mret (oldest_key, i)
  | S n' =>
    db ← get_state;
    shard_idx ← draw_below e i (num_shards db);
    entries ← read_shard shard_idx;
    if bool_decide (entries = ∅) then sample_loop e n' (S i) oldest_key oldest_time
    else
      let keys := order e i (dom entries) in
      rand_idx ← draw_below e (S i) (length keys);
      candidate_key ← index_key keys rand_idx;
      match entries !! candidate_key with
      | Some entry =>
        let accessed := last_accessed entry in
        if accessed <? oldest_time
        then sample_loop e n' (S (S i)) (Some (shard_idx, candidate_key)) accessed
        else sample_loop e n' (S (S i)) oldest_key oldest_time
      | None => sample_loop e n' (S (S i)) oldest_key oldest_time
      end
  end.

Definition evict_lru_step (e : Env) (sample_size i : nat) : ST Db (bool * nat) :=
  r ← sample_loop e sample_size i None u64_max;
  match r.1 with
  | Some (shard_idx, key_to_evict) =>
    o ← entries_get shard_idx key_to_evict;
    match o with
    | Some entry =>
      entries_remove shard_idx key_to_evict ;;
      sub_memory (size_bytes entry key_to_evict) ;;
      metric (record_eviction 1) ;;
      mret (true, r.2)
    | None => mret (false, r.2)
    end
  | None => mret (false, r.2)
  end.

(** ** [Db::ensure_capacity] *)

(** The loop, whose fuel bounds the number of evictions. *)
Fixpoint ensure_capacity_loop (e : Env) (needed_bytes : Z) (fuel i : nat) : ST Db unit :=
  match fuel with
  | O => mret tt
  | S fuel' =>
    db ← get_state;
    if maxmemory db <? wrap_u64 (current_memory db + needed_bytes) then
      r ← evict_lru_step e DEFAULT_LRU_SAMPLE_SIZE i;
      if negb r.1 then mret tt else ensure_capacity_loop e needed_bytes fuel' r.2
    else mret tt
  end.

(** Every eviction removes an entry, so one more iteration than there are entries is enough. *)
Definition total_entries (db : Db) : nat := foldr (fun m n => (size m + n)%nat) 0%nat (shards db).

Definition ensure_capacity (e : Env) (needed_bytes : Z) (i : nat) : ST Db unit :=
  db ← get_state;
  if 0 <? maxmemory db then ensure_capacity_loop e needed_bytes (S (total_entries db)) i
  else mret tt.

(** ** [Db::purge_expired_step] *)

(** The sampling of [n] keys with replacement: those found expired, in order, with duplicates. *)
Fixpoint purge_sample (e : Env) (entries : entries) (keys : list bytes) (now : Z) (n i : nat)
    (expired : list bytes) : ST Db (list bytes) :=
  match n with
  | O => mret expired
  | S n' =>
    r ← draw_below e i (length keys);
    key ← index_key keys r;
    match entries !! key with
    | Some entry =>
      purge_sample e entries keys now n' (S i) (if is_expired entry now then expired ++ [key] else expired)
    | None => purge_sample e entries keys now n' (S i) expired
    end
  end.

(** The removal of the sampled keys that are still expired, and how many they were. *)
Fixpoint purge_remove (idx : nat) (now : Z) (expired_keys : list bytes) (actually_removed : Z) : ST Db Z :=
  match expired_keys with
  | [] => mret actually_removed
  | key :: rest =>
    o ← entries_get idx key;
    match o with
    | Some entry =>
      if is_expired entry now then
        entries_remove idx key ;;
        sub_memory (size_bytes entry key) ;;
        purge_remove idx now rest (actually_removed + 1)
      else purge_remove idx now rest actually_removed
    | None => purge_remove idx now rest actually_removed
    end
  end.

Definition purge_expired_step (e : Env) (sample_size : nat) : ST Db (Z * Z) :=
  db ← get_state;
  random_shard_idx ← draw_below e 0 (num_shards db);
  entries ← read_shard random_shard_idx;
  let now := clock e 0 in
  if bool_decide (entries = ∅) then mret (0, 0)
  else
    let keys := order e 0 (dom entries) in
    let n := (length keys `min` sample_size)%nat in
    expired_keys ← purge_sample e entries keys now n 1 [];
    (if bool_decide (expired_keys = []) then mret tt
     else
       actually_removed ← purge_remove random_shard_idx now expired_keys 0;
       if 0 <? actually_removed then metric (record_expiration actually_removed) else mret tt) ;;
    mret (Z.of_nat n, len expired_keys).

(** ** Shards and the flat view *)

Lemma models_home db s i m k ent :
  models db s -> shards db !! i = Some m -> m !! k = Some ent ->
  i = shard_index (nsh s) k /\ ks s !! k = Some ent.
Proof.
  intros (Hw & Hk & _ & _ & _ & Hn & _) Hi Hm. rewrite Hk, Hn.
  assert (i = shard_index (num_shards db) k) as -> by (by eapply wf_home).
  split; [done|]. by rewrite view_lookup, Hi by done.
Qed.

Lemma wf_shard db i : wf db -> (i < num_shards db)%nat -> exists m, shards db !! i = Some m.
Proof. intros Hw Hi. apply lookup_lt_is_Some. by rewrite (wf_len _ Hw). Qed.

Lemma fastrand_lt e i n : (0 < n)%nat -> (fastrand_usize e i n < n)%nat.
Proof. intros Hn. apply Nat.mod_upper_bound. lia. Qed.

Lemma order_length (e : Env) (i : nat) (m : entries) : length (order e i (dom m)) = size m.
Proof. rewrite (order_perm e i (dom m)). by rewrite <- size_dom. Qed.

Lemma order_lookup (e : Env) (i : nat) (m : entries) (r : nat) :
  (r < size m)%nat -> exists k ent, order e i (dom m) !! r = Some k /\ m !! k = Some ent.
Proof.
  intros Hr. destruct (lookup_lt_is_Some_2 (order e i (dom m)) r) as [k Hk]; [by rewrite order_length|].
  assert (k ∈ dom m) as [ent Hent]%elem_of_dom; [|by exists k, ent].
  apply list_elem_of_lookup_2 in Hk. rewrite (order_perm e i (dom m)) in Hk. by apply elem_of_elements.
Qed.

Lemma size_pos_ne (m : entries) : m <> ∅ -> (0 < size m)%nat.
Proof. intros Hm. destruct (size m) eqn:E; [by apply map_size_empty_inv in E|lia]. Qed.

(** ** The sampling *)

(** The candidates that [n] samples look at from draw [i], and the next draw. *)
Fixpoint candidates (e : Env) (sh : list entries) (n i : nat) : list (nat * bytes * CacheEntry) * nat :=
  match n with
  | O => ([], i)
  | S n' =>
    let idx := fastrand_usize e i (length sh) in
    let m := default ∅ (sh !! idx) in
    if bool_decide (m = ∅) then candidates e sh n' (S i)
    else
      let k := default [] (order e i (dom m) !! fastrand_usize e (S i) (size m)) in
      let rest := candidates e sh n' (S (S i)) in
      (match m !! k with Some ent => [(idx, k, ent)] | None => [] end ++ rest.1, rest.2)
  end.

(** One candidate against the oldest so far. *)
Definition older (acc : option (nat * bytes) * Z) (c : nat * bytes * CacheEntry) : option (nat * bytes) * Z :=
  if last_accessed c.2 <? acc.2 then (Some c.1, last_accessed c.2) else acc.

Lemma sample_loop_eq e db n i o t : wf db ->
  sample_loop e n i o t db
  = Done ((fold_left older (candidates e (shards db) n i).1 (o, t)).1, (candidates e (shards db) n i).2) db.
Proof.
  intros Hw. revert i o t. induction n as [|n IH]; intros i o t; [done|].
  cbn [sample_loop candidates]. unfold mbind, ST_bind, get_state, draw_below. rewrite (wf_len _ Hw).
  pose proof (wf_pos _ Hw). rewrite bool_decide_eq_false_2 by lia.
  destruct (wf_shard db (fastrand_usize e i (num_shards db)) Hw) as [m Hm]; [by apply fastrand_lt|].
  unfold read_shard. rewrite Hm. cbn [default from_option id].
  case_bool_decide as Hem; [apply IH|].
  rewrite order_length. pose proof (size_pos_ne _ Hem). rewrite bool_decide_eq_false_2 by lia.
  destruct (order_lookup e i m (fastrand_usize e (S i) (size m))) as (k & ent & Hk & Hent); [by apply fastrand_lt|].
  unfold index_key. rewrite Hk. cbn [default from_option id]. rewrite Hent.
  cbn [fst snd]. rewrite fold_left_app. cbn [fold_left]. unfold older at 2. cbn [fst snd].
  case_match; by rewrite IH.
Qed.

Lemma candidates_stored e db n i c : wf db ->
  c ∈ (candidates e (shards db) n i).1 -> exists m, shards db !! c.1.1 = Some m /\ m !! c.1.2 = Some c.2.
Proof.
  intros Hw. revert i. induction n as [|n IH]; intros i; cbn [candidates]; [by intros ?%elem_of_nil|].
  destruct (shards db !! fastrand_usize _ _ _) as [m|] eqn:Hm; cbn [default from_option id];
    (case_bool_decide as Hem; [apply IH|]); [|by destruct Hem].
  cbn [fst]. rewrite elem_of_app. intros [Hc|Hc]; [|by eapply IH]. destruct (m !! _) as [ent|] eqn:Hent; [|by apply elem_of_nil in Hc].
  apply list_elem_of_singleton in Hc as ->. eauto.
Qed.

(** The fold picks a candidate no younger one precedes. *)
Lemma fold_older_spec l o t :
  let r := fold_left older l (o, t) in
  r.2 <= t /\ Forall (fun c => r.2 <= last_accessed c.2) l
  /\ (r = (o, t) \/ exists c, c ∈ l /\ r = (Some c.1, last_accessed c.2)).
Proof.
  revert o t. induction l as [|c l IH]; intros o t; cbn [fold_left]; [split_and!; [done..|by left]|].
  cbv zeta. unfold older at 2 4 6 8. cbn [snd]. destruct (Z.ltb_spec (last_accessed c.2) t) as [Hlt|Hge].
  - destruct (IH (Some c.1) (last_accessed c.2)) as (H1 & H2 & H3).
    split_and!; [lia|by constructor|]. right. destruct H3 as [->|(c' & Hc' & ->)].
    + exists c. split; [left|done].
    + exists c'. split; [by right|done].
  - destruct (IH o t) as (H1 & H2 & H3). split_and!; [done|constructor; [lia|done]|].
    destruct H3 as [->|(c' & Hc' & ->)]; [by left|]. right. exists c'. split; [by right|done].
Qed.

(** ** Counting entries *)

Lemma foldr_union_Some (l : list entries) k x :
  foldr (∪) ∅ l !! k = Some x -> exists j m, l !! j = Some m /\ m !! k = Some x.
Proof.
  induction l as [|m l IH]; cbn; [by rewrite lookup_empty|].
  rewrite lookup_union_Some_raw. intros [Hm|[_ Hl]].
  - by exists 0%nat, m.
  - destruct (IH Hl) as (j & m' & Hj & Hm'). by exists (S j), m'.
Qed.

Lemma size_foldr_union (l : list entries) :
  (forall i j mi mj k, l !! i = Some mi -> l !! j = Some mj ->
    is_Some (mi !! k) -> is_Some (mj !! k) -> i = j) ->
  size (foldr (∪) ∅ l) = foldr (fun m n => (size m + n)%nat) 0%nat l.
Proof.
  induction l as [|m l IH]; intros Hd; [done|]. cbn [foldr]. rewrite <- IH.
  - apply map_size_disj_union, map_disjoint_spec. intros k x y Hx Hy.
    apply foldr_union_Some in Hy as (j & m' & Hj & Hy).
    specialize (Hd 0%nat (S j) m m' k eq_refl Hj (mk_is_Some _ _ Hx) (mk_is_Some _ _ Hy)). discriminate.
  - intros i j mi mj k Hi Hj Hki Hkj. by injection (Hd (S i) (S j) mi mj k Hi Hj Hki Hkj).
Qed.

Lemma total_entries_size db s : models db s -> total_entries db = size (ks s).
Proof.
  intros (Hw & -> & _). symmetry. apply size_foldr_union. intros i j mi mj k Hi Hj Hki Hkj.
  by rewrite (wf_home _ Hw _ _ _ Hi Hki), (wf_home _ Hw _ _ _ Hj Hkj).
Qed.

(** ** One eviction *)

(** The state after the eviction of [ent] at [k]. *)
Definition after_eviction : bytes -> CacheEntry -> Flat -> Flat := drop_entry (record_eviction 1).

Lemma evict_step_spec (e : Env) (n i : nat) db s :
  models db s ->
  wp (evict_lru_step e n i) (fun r db' =>
    let cs := (candidates e (shards db) n i).1 in
    if r.1 then exists idx k ent, (idx, k, ent) ∈ cs
      /\ Forall (fun c => last_accessed ent <= last_accessed c.2) cs
      /\ ks s !! k = Some ent /\ models db' (after_eviction k ent s)
    else db' = db /\ Forall (fun c => u64_max <= last_accessed c.2) cs) db.
Proof.
  intros Hm. unfold evict_lru_step. apply wp_bind. unfold wp at 1.
  rewrite (sample_loop_eq e db n i None u64_max) by (by eapply models_wf). cbv zeta.
  destruct (fold_older_spec (candidates e (shards db) n i).1 None u64_max) as (Hle & Hmin & Hcase).
  destruct Hcase as [Hr|([[idx k] ent] & Hc & Hr)]; rewrite Hr in *; cbn [fst snd] in *.
  - by apply wp_ret.
  - destruct (candidates_stored e db n i _ (models_wf _ _ Hm) Hc) as (m & Hidx & Hent). cbn in Hidx, Hent.
    destruct (models_home _ _ _ _ _ _ Hm Hidx Hent) as [-> Hks].
    do 2 db_step. rewrite Hks. db_run. exists (shard_index (nsh s) k), k, ent. by split_and!.
Qed.

(** ** Making room *)

(** What evictions may do: drop entries, each with what it was counted for. *)
Definition evicted (s s' : Flat) : Prop :=
  same_config s s' /\ ks s' ⊆ ks s /\ unaccounted s' = unaccounted s.

#[export] Instance evicted_preorder : PreOrder evicted.
Proof.
  split; [done|]. intros s1 s2 s3 (H1 & H2 & H3) (H4 & H5 & H6). split; [by etrans|].
  split; [by etrans|congruence].
Qed.

Lemma evicted_one s k ent : ks s !! k = Some ent -> evicted s (after_eviction k ent s).
Proof.
  intros Hk. split; [done|]. split; [apply delete_subseteq|].
  unfold unaccounted. cbn. rewrite (used_delete _ _ ent) by done. wrap_lia.
Qed.

(** The room there is for [needed] more bytes. *)
Definition fits (needed : Z) (s : Flat) : Prop := wrap_u64 (mem s + needed) <= cap s.

(** A round of the loop that makes room for [needed] bytes: the store is over the limit, and
    an eviction takes a key. A position is the number of draws made and the store. *)
Definition over (needed : Z) (db : Db) : Prop := maxmemory db < wrap_u64 (current_memory db + needed).
Definition evict_round (e : Env) (needed : Z) (p p' : nat * Db) : Prop :=
  over needed p.2 /\ evict_lru_step e DEFAULT_LRU_SAMPLE_SIZE p.1 p.2 = Done (true, p'.1) p'.2.

(** The loop gives up: from [db], after some rounds, at draw [j], the store [db'] is still
    over the limit and the samples of the next round give no key to evict. *)
Definition gives_up (e : Env) (needed : Z) (i : nat) (db : Db) (j : nat) (db' : Db) : Prop :=
  rtc (evict_round e needed) (i, db) (j, db') /\ over needed db'
  /\ exists j', evict_lru_step e DEFAULT_LRU_SAMPLE_SIZE j db' = Done (false, j') db'.

Lemma gives_up_after e needed i j db db1 k db' :
  evict_round e needed (i, db) (j, db1) -> gives_up e needed j db1 k db' -> gives_up e needed i db k db'.
Proof. intros Hr (Hrs & Hend). split; [by eapply rtc_l|done]. Qed.

(** Then no entry it sampled is older than the latest time there is. *)
Lemma gives_up_samples e needed i db j db' s' : models db' s' -> gives_up e needed i db j db' ->
  Forall (fun c => u64_max <= last_accessed c.2) (candidates e (shards db') DEFAULT_LRU_SAMPLE_SIZE j).1.
Proof.
  intros Hm (_ & _ & j' & Heq). pose proof (evict_step_spec e DEFAULT_LRU_SAMPLE_SIZE j db' s' Hm) as Hstep.
  unfold wp in Hstep. rewrite Heq in Hstep. apply Hstep.
Qed.

Lemma wp_ensure_loop (e : Env) (needed : Z) (fuel i : nat) db s :
  models db s -> (size (ks s) < fuel)%nat ->
  wp (ensure_capacity_loop e needed fuel i) (fun _ db' => exists s', models db' s' /\ evicted s s'
    /\ (fits needed s' \/ (exists j, gives_up e needed i db j db')) /\ (fits needed s -> db' = db)) db.
Proof.
  revert i db s. induction fuel as [|fuel IH]; intros i db s Hm Hf; [lia|]. cbn [ensure_capacity_loop].
  apply wp_bind, wp_get. pose proof Hm as (_ & _ & Hmem & _ & Hcap & _). rewrite <- Hmem, <- Hcap.
  destruct (Z.ltb_spec (cap s) (wrap_u64 (mem s + needed))) as [Hlt|Hge].
  2:{ apply wp_ret. exists s. split_and!; [done..| |done]. by left. }
  assert (~ fits needed s) as Hno by (unfold fits; lia).
  assert (over needed db) as Hover by (unfold over; congruence).
  apply wp_bind. pose proof (evict_step_spec e DEFAULT_LRU_SAMPLE_SIZE i db s Hm) as Hstep.
  apply wp_Done in Hstep as ([b i'] & db1 & Heq & Hpost). unfold wp at 1. rewrite Heq. cbn [fst snd negb] in *.
  destruct b; cbn [negb].
  - destruct Hpost as (idx & k & ent & _ & _ & Hk & Hm1).
    eapply wp_mono; [apply (IH i' _ _ Hm1)|].
    + cbn. rewrite map_size_delete_Some by done. pose proof (size_pos_ne (ks s)) as Hp.
      destruct (size (ks s)) eqn:E; [|lia]. apply map_size_empty_inv in E. by rewrite E in Hk.
    + cbn beta. intros _ db' (s' & Hm' & Hev & Hfit & _). exists s'. split_and!; [done| | |done].
      * etrans; [by apply evicted_one|done].
      * destruct Hfit as [?|[j Hg]]; [by left|right]. exists j. eapply gives_up_after; [|exact Hg]. by split.
  - destruct Hpost as [-> _]. apply wp_ret. exists s. split_and!; [done..| |done]. right. exists i.
    split; [apply rtc_refl|]. split; [done|by exists i'].
Qed.

Lemma wp_ensure_capacity (e : Env) (needed : Z) (i : nat) db s :
  models db s ->
  wp (ensure_capacity e needed i) (fun _ db' => exists s', models db' s' /\ evicted s s'
    /\ (cap s <= 0 \/ fits needed s' \/ (exists j, gives_up e needed i db j db'))
    /\ (cap s <= 0 \/ fits needed s -> db' = db)) db.
Proof.
  intros Hm. unfold ensure_capacity. apply wp_bind, wp_get.
  rewrite (total_entries_size _ _ Hm). pose proof Hm as (_ & _ & _ & _ & Hcap & _). rewrite <- Hcap.
  destruct (Z.ltb_spec 0 (cap s)) as [Hlt|Hge].
  - eapply wp_mono; [apply (wp_ensure_loop _ _ _ _ _ _ Hm); lia|].
    intros _ db' (s' & Hm' & Hev & Hfit & Hid). exists s'. split_and!; [done..|by right|].
    intros [?|?]; [lia|auto].
  - apply wp_ret. exists s. split_and!; [done..|by left|done].
Qed.

(** ** The sweep *)

(** What a sweep at time [now] may do: drop expired entries, each with what it was counted
    for. *)
Definition purged (now : Z) (s s' : Flat) : Prop :=
  same_config s s' /\ ks s' ⊆ ks s /\ unaccounted s' = unaccounted s
  /\ (forall k ent, ks s !! k = Some ent -> is_expired ent now = false -> ks s' !! k = Some ent).

#[export] Instance purged_preorder now : PreOrder (purged now).
Proof.
  split; [done|]. intros s1 s2 s3 (H1 & H2 & H3 & H4) (H5 & H6 & H7 & H8).
  split; [by etrans|]. split; [by etrans|]. split; [congruence|auto].
Qed.

(** A client sees no difference, at that time or later. *)
Lemma purged_live now s s' t : purged now s s' -> now <= t -> live t (ks s') = live t (ks s).
Proof.
  intros (_ & Hsub & _ & Hkeep) Ht. apply map_eq. intros k. rewrite !live_lookup.
  destruct (ks s !! k) as [ent|] eqn:Hk.
  - destruct (is_expired ent now) eqn:Hexp; [|by rewrite (Hkeep k ent)].
    destruct (ks s' !! k) as [ent'|] eqn:Hk'; cbn.
    + rewrite (lookup_weaken _ _ _ _ Hk' Hsub) in Hk. by simplify_eq.
    + unfold live_entry, is_expired in *. destruct (expires_at ent); [|done].
      rewrite (proj2 (Z.leb_le _ _)); [done|]. apply Z.leb_le in Hexp. lia.
  - by rewrite (lookup_weaken_None _ _ _ Hk Hsub).
Qed.

Lemma purged_one now s k ent s' :
  ks s !! k = Some ent -> is_expired ent now = true -> same_config s s' -> ks s' = delete k (ks s) ->
  eq64 (mem s') (mem s - size_bytes ent k) -> purged now s s'.
Proof.
  intros Hk Hexp Hc Hs Hm. split; [done|]. rewrite Hs. split; [apply delete_subseteq|]. split.
  - unfold unaccounted. rewrite Hs, (used_delete _ _ ent) by done.
    change (eq64 (used (ks s) - size_bytes ent k - mem s') (used (ks s) - mem s)).
    rewrite Hm. apply eq64_eq. lia.
  - intros k' ent' Hk' Hlive. rewrite lookup_delete_ne; [done|]. intros ->. congruence.
Qed.

Lemma wp_purge_sample (e : Env) (m : entries) (now : Z) (n i j : nat) (acc : list bytes) db :
  m <> ∅ ->
  wp (purge_sample e m (order e j (dom m)) now n i acc) (fun r db' => db' = db
    /\ (length r <= n + length acc)%nat
    /\ forall k, k ∈ r -> k ∈ acc \/ is_Some (m !! k)) db.
Proof.
  intros Hm. revert i acc. induction n as [|n IH]; intros i acc; cbn [purge_sample].
  { apply wp_ret. split_and!; [done|lia|]. intros k Hk. by left. }
  pose proof (size_pos_ne _ Hm). apply wp_bind. unfold wp at 1, draw_below. rewrite order_length.
  rewrite bool_decide_eq_false_2 by lia. apply wp_bind. unfold wp at 1, index_key.
  destruct (order_lookup e j m (fastrand_usize e i (size m))) as (k & ent & Hk & Hent); [by apply fastrand_lt|].
  rewrite Hk, Hent. eapply wp_mono; [apply IH|]. cbn beta. intros r db' (-> & Hl & Hr).
  split_and!; [done| |].
  - destruct (is_expired ent now); [rewrite length_app in Hl; cbn in Hl|]; lia.
  - intros k' Hk'. destruct (Hr k' Hk') as [Hin|Hin]; [|by right].
    destruct (is_expired ent now); [|by left].
    apply elem_of_app in Hin as [Hin| ->%list_elem_of_singleton]; [by left|]. right. by exists ent.
Qed.

Lemma wp_purge_remove (idx : nat) (now : Z) (l : list bytes) (n : Z) db s :
  models db s -> Forall (fun k => idx = shard_index (nsh s) k) l ->
  wp (purge_remove idx now l n) (fun r db' => exists s', models db' s' /\ purged now s s' /\ met s' = met s
    /\ r = n + (Z.of_nat (size (ks s)) - Z.of_nat (size (ks s')))) db.
Proof.
  intros Hm Hl. revert n db s Hm Hl. induction l as [|k l IH]; intros n db s Hm Hl; cbn [purge_remove].
  { apply wp_ret. exists s. split_and!; [done..|lia]. }
  apply Forall_cons in Hl as [-> Hl]. do 2 db_step.
  destruct (ks s !! k) as [ent|] eqn:Hk; [destruct (is_expired ent now) eqn:Hexp|]; [|by apply IH..].
  db_run. eapply wp_mono; [apply (IH _ _ _ Hm)|].
  - eapply Forall_impl; [exact Hl|]. done.
  - cbn beta. intros r db1 (s' & Hm' & Hp & Hmet & ->). exists s'. split; [done|]. split; [|split; [done|]].
    + etrans; [|exact Hp]. eapply purged_one; [done..|]. apply eq64_wrap.
    + cbn [ks set_ks set_mem]. rewrite map_size_delete_Some by done.
      pose proof (size_pos_ne (ks s)) as Hpos. destruct (size (ks s)) eqn:E; [|lia].
      apply map_size_empty_inv in E. by rewrite E in Hk.
Qed.

Lemma wp_purge (e : Env) (sample_size : nat) db s :
  models db s ->
  wp (purge_expired_step e sample_size) (fun r db' => exists s', models db' s' /\ purged (clock e 0) s s'
    /\ 0 <= r.2 <= r.1 /\ r.1 <= Z.of_nat sample_size
    /\ met s' = (let removed := Z.of_nat (size (ks s)) - Z.of_nat (size (ks s')) in
                 if 0 <? removed then record_expiration removed (met s) else met s)) db.
Proof.
  intros Hm. unfold purge_expired_step. pose proof (models_wf _ _ Hm) as Hw. pose proof (wf_pos _ Hw).
  apply wp_bind, wp_get, wp_bind. unfold wp at 1, draw_below. rewrite bool_decide_eq_false_2 by lia.
  destruct (wf_shard db (fastrand_usize e 0 (num_shards db)) Hw) as [m Hidx]; [by apply fastrand_lt|].
  apply wp_bind. unfold wp at 1, read_shard. rewrite Hidx. case_bool_decide as Hem.
  { apply wp_ret. exists s. split_and!; cbn; try done; [lia|]. by rewrite Z.sub_diag. }
  apply wp_bind. eapply wp_mono; [by apply wp_purge_sample|]. cbn beta.
  intros keys db' (-> & Hlen & Hkeys). cbn [length] in Hlen.
  assert (0 <= len keys <= Z.of_nat (length (order e 0 (dom m)) `min` sample_size)) as Hr by (unfold len; lia).
  apply wp_bind. case_bool_decide as Hnil.
  { do 2 apply wp_ret. exists s. split_and!; cbn [fst snd]; try done; try lia. by rewrite Z.sub_diag. }
  apply wp_bind. eapply wp_mono; [apply (wp_purge_remove _ _ _ _ _ _ Hm)|].
  - apply list.Forall_forall. intros k Hk. destruct (Hkeys k Hk) as [Hn|[ent Hent]]; [by apply elem_of_nil in Hn|].
    by destruct (models_home _ _ _ _ _ _ Hm Hidx Hent).
  - cbn beta. intros r db1 (s' & Hm' & Hp & Hmet & ->). rewrite Z.add_0_l.
    destruct (0 <? _) eqn:Hpos; db_run; eexists; (split; [eassumption|]);
      split_and!; cbn [fst snd ks met set_met]; try lia; try exact Hp; by rewrite Hpos, Hmet.
Qed.

(** C29: a step of the LRU eviction either takes exactly one entry, which no candidate it
    sampled was accessed before, off the store together with the bytes it was counted for,
    and records one eviction; or it changes nothing at all, and then every candidate it
    sampled, if any, has the largest access time. It never panics. *)
Theorem evict_lru_step_oldest (e : Env) (n i : nat) db s :
  models db s ->
  wp (evict_lru_step e n i) (fun r db' =>
    let cs := (candidates e (shards db) n i).1 in
    if r.1 then exists idx k ent, (idx, k, ent) ∈ cs
      /\ Forall (fun c => last_accessed ent <= last_accessed c.2) cs
      /\ ks s !! k = Some ent /\ models db' (after_eviction k ent s)
      /\ evicted s (after_eviction k ent s)
    else db' = db /\ Forall (fun c => u64_max <= last_accessed c.2) cs) db.
Proof.
  intros Hm. eapply wp_mono; [by apply evict_step_spec|]. cbn beta zeta. intros [[] i'] db'; [|done].
  intros (idx & k & ent & ? & ? & Hk & ?). exists idx, k, ent. split_and!; try done. by apply evicted_one.
Qed.

(** A step of the active sweeper removes only entries that are expired, so no client can
    tell, at that time or later, that it ran; the memory counter stays exact, the
    expirations it records are the entries it removed, and it reports at most as many
    expired samples as samples, and at most [sample_size] of those. *)
Lemma purge_invisible (e : Env) (sample_size : nat) db s t :
  models db s -> clock e 0 <= t ->
  wp (purge_expired_step e sample_size) (fun r db' => exists s', models db' s'
    /\ live t (ks s') = live t (ks s) /\ unaccounted s' = unaccounted s
    /\ 0 <= r.2 <= r.1 /\ r.1 <= Z.of_nat sample_size
    /\ met s' = (let removed := Z.of_nat (size (ks s)) - Z.of_nat (size (ks s')) in
                 if 0 <? removed then record_expiration removed (met s) else met s)) db.
Proof.
  intros Hm Ht. eapply wp_mono; [by apply wp_purge|]. cbn beta.
  intros r db' (s' & Hm' & Hp & Hr & Hn & Hmet). exists s'. split; [done|].
  split; [by eapply purged_live|]. split; [apply Hp|done].
Qed.
End evict.

(** Concrete runs. *)
#[local] Existing Instance Demo.hash.

Lemma evict_lru_step_oldest_witness :
  models Demo.db (flat Demo.db)
  /\ wp (evict_lru_step Demo.env 2 0) (fun r db' => r.1 = true ->
       exists k ent, ks (flat Demo.db) !! k = Some ent /\ models db' (after_eviction k ent (flat Demo.db))) Demo.db.
Proof.
  split; [exact Demo.ok|].
  refine (wp_mono _ _ _ _ (evict_lru_step_oldest Demo.env 2 0 _ _ Demo.ok) _).
  cbv zeta beta. intros [b i] db' H Hb. cbn in Hb. subst b.
  destruct H as (idx & k & ent & _ & _ & Hk & Hm & _). by exists k, ent.
Defined.

Lemma purge_invisible_witness :
  models Demo.db (flat Demo.db) /\ clock Demo.env 0 <= 6 * NANOS
  /\ wp (purge_expired_step Demo.env 20) (fun _ db' => exists s', models db' s'
       /\ live (6 * NANOS) (ks s') = live (6 * NANOS) (view Demo.db)) Demo.db.
Proof.
  split; [exact Demo.ok|]. split; [vm_compute; discriminate|].
  refine (wp_mono _ _ _ _ (purge_invisible Demo.env 20 _ _ (6 * NANOS) Demo.ok _) _).
  - vm_compute. discriminate.
  - intros r db' (s' & Hm & Hl & _). by exists s'.
Defined.
