(* ===== verification/DbKeys.v ===== *)
(** * String and key operations of [src/src/db.rs]: [get], [set], [del], [expire], [ttl],
    [pttl], [len], [is_empty], [keys] *)
From S2P Require Import Prelude.
From S2P Require Import RustStd.
From S2P Require Import Metrics.
From S2P Require Import Glob.
From S2P Require Import Store.
From S2P Require Import Keyspace.
From S2P Require Import Evict.

Section keys.
Context {Hh : Hasher}.

(** ** [Db::get] *)

(** A live entry's reply, with its access recorded. *)
Definition get_hit (e : Env) (idx : nat) (key : bytes) (entry : CacheEntry) (i : nat)
    : ST Db (Result bytes (option bytes)) :=
  now_m ← now_millis e i;
  entries_insert idx key (touch now_m entry) ;;
  metric record_hit ;;
  mret (match data entry with DString b => Ok (Some b) | _ => Err WRONG_TYPE_ERR end).

(** 1. The attempt under the read lock; [None] falls through to the write lock. *)
Definition get_read (e : Env) (idx : nat) (key : bytes) (now : Z)
    : ST Db (option (Result bytes (option bytes))) :=
  o ← entries_get idx key;
  match o with
  | Some entry =>
    if is_expired entry now then mret None
    else r ← get_hit e idx key entry 1; mret (Some r)
  | None => metric record_miss ;; mret (Some (Ok None))
  end.

(** 2. Passive eviction under the write lock, which looks the key up again. *)
Definition get_write (e : Env) (idx : nat) (key : bytes) (now : Z) : ST Db (Result bytes (option bytes)) :=
  o ← entries_get idx key;
  match o with
  | Some entry =>
    if is_expired entry now then
      entries_remove idx key ;;
      sub_memory (size_bytes entry key) ;;
      metric (record_expiration 1) ;;
      metric record_miss ;;
      mret (Ok None)
    else get_hit e idx key entry 2
  | None => metric record_miss ;; mret (Ok None)
  end.

Definition get (e : Env) (key : bytes) : ST Db (Result bytes (option bytes)) :=
  idx ← locate key;
  let now := clock e 0 in
  r ← get_read e idx key now;
  match r with
  | Some reply => mret reply
  | None => get_write e idx key now
  end.

(** ** [Db::set] *)

Definition set (e : Env) (key value : bytes) (expires_at : option Z) : ST Db unit :=
  now_m ← now_millis e 0;
  let new_entry := CacheEntry_new (DString value) expires_at now_m in
  let new_size := size_bytes new_entry key in
  ensure_capacity e new_size 0 ;;
  idx ← locate key;
  o ← entries_get idx key;
  entries_insert idx key new_entry ;;
  match o with
  | Some old_entry =>
    let old_size := size_bytes old_entry key in
    if old_size <? new_size then add_memory (new_size - old_size) else sub_memory (old_size - new_size)
  | None => add_memory new_size
  end.

(** ** [Db::del] *)

Fixpoint del_loop (keys : list bytes) (removed : Z) : ST Db Z :=
  match keys with
  | [] => mret removed
  | key :: rest =>
    idx ← locate key;
    o ← entries_get idx key;
    match o with
    | Some entry =>
      entries_remove idx key ;;
      sub_memory (size_bytes entry key) ;;
      del_loop rest (removed + 1)
    | None => del_loop rest removed
    end
  end.

Definition del (keys : list bytes) : ST Db Z := del_loop keys 0.

(** ** [Db::expire]; [now + duration] panics when it is out of range *)

Definition expire (e : Env) (key : bytes) (duration : Z) : ST Db bool :=
  idx ← locate key;
  let now := clock e 0 in
  o ← entries_get idx key;
  match o with
  | Some entry =>
    if is_expired entry now then
      entries_remove idx key ;;
      sub_memory (size_bytes entry key) ;;
      mret false
    else
      match instant_add now duration with
      | Some deadline => entries_insert idx key (with_expiry (Some deadline) entry) ;; mret true
      | None => panic
      end
  | None => mret false
  end.

(** ** [Db::ttl], [Db::pttl] *)

Definition ttl (e : Env) (key : bytes) : ST Db Z :=
  idx ← locate key;
  let now := clock e 0 in
  o ← entries_get idx key;
  mret match o with
       | Some entry =>
         match expires_at entry with
         | Some exp => if exp <=? now then -2 else as_i64 (as_secs (exp - now))
         | None => -1
         end
       | None => -2
       end.

Definition pttl (e : Env) (key : bytes) : ST Db Z :=
  idx ← locate key;
  let now := clock e 0 in
  o ← entries_get idx key;
  mret match o with
       | Some entry =>
         match expires_at entry with
         | Some exp => if exp <=? now then -2 else as_i64 (as_millis (exp - now))
         | None => -1
         end
       | None => -2
       end.

(** ** [Db::len], [Db::is_empty], [Db::keys] *)

Definition len_db : ST Db Z :=
  db ← get_state; mret (fold_left (fun total m => total + Z.of_nat (size m)) (shards db) 0).

Definition is_empty : ST Db bool := n ← len_db; mret (n =? 0).

(** The keys of one shard that are alive and match, in the order of the shard's table. *)
Definition shard_keys (e : Env) (i : nat) (now : Z) (match_all : bool) (pattern : bytes) (m : entries)
    : list bytes :=
  omap (fun key =>
    match m !! key with
    | Some entry =>
      if is_expired entry now then None
      else if match_all || glob_match pattern key then Some key else None
    | None => None
    end) (order e i (dom m)).

Fixpoint keys_loop (e : Env) (i : nat) (now : Z) (match_all : bool) (pattern : bytes)
    (shards : list entries) (result : list bytes) : list bytes :=
  match shards with
  | [] => result
  | m :: rest => keys_loop e (S i) now match_all pattern rest (result ++ shard_keys e i now match_all pattern m)
  end.

Definition keys (e : Env) (pattern : bytes) : ST Db (list bytes) :=
  db ← get_state;
  let now := clock e 0 in
  let match_all := bool_decide (pattern = bs "*") in
  mret (keys_loop e 0 now match_all pattern (shards db) []).

(** ** Reads and single-key writes *)

Lemma get_hit_implements e key ent i now db s :
  models db s -> ks s !! key = Some ent -> is_expired ent now = false ->
  implements now s (reads (spec_get key)) 0 (get_hit e (shard_index (nsh s) key) key ent i) db.
Proof.
  intros Hm Hent Hexp. unfold implements, reads, spec_get, get_hit. cbn [fst snd].
  rewrite (live_Some _ _ _ ent) by done. unfold value_of. db_run. op_done.
  split; [by eapply step_to_touch|]. by destruct (data ent).
Qed.

(** The write phase of a read, from any state: what other threads did since the read
    phase does not matter. *)
Lemma get_write_implements e key now db s :
  models db s ->
  implements now s (reads (spec_get key)) 0 (get_write e (shard_index (nsh s) key) key now) db.
Proof.
  intros Hm. unfold get_write. pose proof Hm as Hm0. unfold implements. do 2 db_step.
  destruct (ks s !! key) as [ent|] eqn:Hent; [destruct (is_expired ent now) eqn:Hexp|].
  - unfold reads, spec_get. rewrite (live_expired _ _ _ ent) by done. db_run. op_done.
    split; [|done]. apply (step_to_evict _ _ _ _ Hent Hexp); step_side.
  - by apply get_hit_implements.
  - unfold reads, spec_get. rewrite live_None by done. db_run. op_done. by split; [apply step_to_same|].
Qed.

Lemma get_implements e key db s :
  models db s -> implements (clock e 0) s (reads (spec_get key)) 0 (get e key) db.
Proof.
  intros Hm. unfold get, get_read. op_start. do 2 (apply wp_bind || db_step).
  apply (wp_entries_get _ _ _ _ Hm).
  destruct (ks s !! key) as [ent|] eqn:Hent; [destruct (is_expired ent (clock e 0)) eqn:Hexp|].
  - db_run. by apply get_write_implements.
  - apply wp_bind. eapply wp_mono; [by apply (get_hit_implements e key ent 1 (clock e 0) db s)|].
    cbn beta. intros r db' Hr. by do 2 apply wp_ret.
  - db_run. op_done. unfold spec_get. rewrite live_None by done. by split; [apply step_to_same|].
Qed.

Lemma get_write_evicts e key now db s :
  models db s ->
  evicts_expired now s key (fun m => record_miss (record_expiration 1 m)) (Ok None)
    (get_write e (shard_index (nsh s) key) key now) db.
Proof. intros Hm ent Hent Hexp. unfold get_write. do 2 db_step. rewrite Hent, Hexp. by db_run. Qed.

Lemma get_evicts e key db s :
  models db s ->
  evicts_expired (clock e 0) s key (fun m => record_miss (record_expiration 1 m)) (Ok None) (get e key) db.
Proof.
  intros Hm ent Hent Hexp. unfold get, get_read. op_start. do 2 (apply wp_bind || db_step).
  apply (wp_entries_get _ _ _ _ Hm). rewrite Hent, Hexp. db_run. by apply get_write_evicts.
Qed.

Lemma expire_implements e key duration d db s :
  models db s -> instant_add (clock e 0) duration = Some d ->
  implements (clock e 0) s (spec_expire (clock e 0) key d) 0 (expire e key duration) db.
Proof.
  intros Hm Hd. unfold expire, spec_expire. op_start. do 2 db_step. lookup_cases.
  - db_run. op_done. split; [|done]. apply (step_to_evict _ _ _ _ Hent Hexp); step_side.
  - rewrite Hd. db_run. op_done. split; [|done]. apply step_to_intro; [done|..].
    + cbn [ks set_ks]. by rewrite live_insert_deadline.
    + cbn [ks mem set_ks]. rewrite (used_insert _ _ ent) by done.
      change (size_bytes (with_expiry (Some d) ent) key) with (size_bytes ent key). apply eq64_eq. lia.
  - db_run. op_done. by split; [apply step_to_same|].
Qed.

Lemma expire_evicts e key duration db s :
  models db s -> evicts_expired (clock e 0) s key id false (expire e key duration) db.
Proof. intros Hm ent Hent Hexp. unfold expire. do 4 db_step. rewrite Hent, Hexp. by db_run. Qed.

Lemma ttl_implements e key db s :
  models db s ->
  implements (clock e 0) s (reads (fun k => as_i64 (spec_ttl NANOS (clock e 0) key k))) 0 (ttl e key) db
  /\ implements (clock e 0) s (reads (fun k => as_i64 (spec_ttl 1000000 (clock e 0) key k))) 0 (pttl e key) db.
Proof.
  intros Hm. unfold ttl, pttl, spec_ttl. split; op_start; db_run; op_done;
    (split; [by apply step_to_same|]); lookup_cases; try done;
    unfold is_expired in Hexp; destruct (expires_at ent); try done; by rewrite Hexp.
Qed.

(** ** [SET] *)

(** Storing a string after evictions that led to [s1]. *)
Definition stores (now : Z) (key value : bytes) (x : option Z) (s1 s' : Flat) : Prop :=
  step_to now s1 (spec_set now key value x (live now (ks s1))) 0 s'
  /\ exists new, data new = DString value /\ expires_at new = x /\ ks s' = <[key := new]> (ks s1).

Lemma wp_set e key value x db s :
  models db s ->
  wp (set e key value x) (fun _ db' => exists db1 s1 s', models db1 s1 /\ models db' s' /\ evicted s s1
    /\ (forall now, stores now key value x s1 s')
    /\ (let need := size_bytes (CacheEntry_new (DString value) x 0) key in
        (cap s <= 0 \/ fits need s1 \/ (exists j, gives_up e need 0 db j db1)) /\ (cap s <= 0 \/ fits need s -> s1 = s))) db.
Proof.
  intros Hm. unfold set. db_step. db_step. cbn beta zeta.
  change (size_bytes (CacheEntry_new (DString value) x t) key)
    with (size_bytes (CacheEntry_new (DString value) x 0) key).
  set (need := size_bytes (CacheEntry_new (DString value) x 0) key).
  apply wp_bind. eapply wp_mono; [by apply wp_ensure_capacity|]. cbn beta.
  intros _ db1 (s1 & Hm1 & Hev & Hfit & Hid).
  assert (cap s <= 0 \/ fits need s -> s1 = s) as Hid'.
  { intros Hc. specialize (Hid Hc). subst db1. by rewrite (models_eq _ _ Hm1), (models_eq _ _ Hm). }
  set (new := CacheEntry_new (DString value) x t).
  assert (forall s', same_config s1 s' -> ks s' = <[key := new]> (ks s1) ->
    eq64 (used (ks s') - mem s') (used (ks s1) - mem s1) ->
    forall now, stores now key value x s1 s') as Hstores.
  { intros s' Hc Hks Hu now. split; [|by exists new]. apply step_to_intro; [done|..].
    - by rewrite Hks, live_insert_deadline.
    - rewrite Hu. apply eq64_eq. lia. }
  assert (models db1 s1 /\ True) as Hkeep by done. do 4 db_step. db_step. cbn beta.
  destruct (ks s1 !! key) as [old|] eqn:Hold.
  - destruct (size_bytes old key <? need) eqn:Hlt; db_run; exists db1, s1; eexists; (split; [exact (proj1 Hkeep)|]; split; [eassumption|]);
      split_and!; try done; apply Hstores; try done; cbn [ks mem set_ks set_mem];
      rewrite (used_insert _ _ old), eq64_wrap by done; apply eq64_eq; fold need;
      change (size_bytes new key) with need; lia.
  - db_run. exists db1, s1. eexists. split; [exact (proj1 Hkeep)|]. split; [eassumption|]. split_and!; try done. apply Hstores; try done.
    cbn [ks mem set_ks set_mem]. rewrite used_insert_new, eq64_wrap by done. apply eq64_eq.
    change (size_bytes new key) with need. lia.
Qed.

(** ** [DEL] *)

Lemma wp_del_loop (l : list bytes) (n : Z) db s :
  models db s ->
  wp (del_loop l n) (fun r db' => exists s', models db' s' /\ same_config s s'
    /\ ks s' = filter (fun ke => ke.1 ∉ l) (ks s) /\ unaccounted s' = unaccounted s
    /\ r = n + Z.of_nat (size (ks s)) - Z.of_nat (size (ks s'))) db.
Proof.
  revert n db s. induction l as [|k l IH]; intros n db s Hm; cbn [del_loop].
  { apply wp_ret. exists s. split; [done|]. split; [done|]. split; [|split; [done|lia]].
    symmetry. apply map_filter_id. intros i x _. cbn. apply not_elem_of_nil. }
  assert (forall m : entries, filter (fun ke => ke.1 ∉ k :: l) m = filter (fun ke => ke.1 ∉ l) (delete k m)) as Hf.
  { intros m. apply map_eq. intros k'. apply option_eq. intros v.
    rewrite !map_lookup_filter_Some, lookup_delete_Some. cbn. rewrite not_elem_of_cons.
    split; [intros (?&?&?)|intros ((?&?)&?)]; split_and!; congruence. }
  do 2 db_step. cbn beta. do 2 db_step. rewrite Hf.
  destruct (ks s !! k) as [ent|] eqn:Hk.
  - db_run. eapply wp_mono; [by apply IH|]. cbn beta. intros r db1 (s' & Hm' & Hc & Hs' & Hu & ->).
    exists s'. split; [done|]. split; [done|]. split; [done|]. split.
    + rewrite Hu. unfold unaccounted. cbn. rewrite (used_delete _ _ ent) by done. wrap_lia.
    + cbn [ks set_ks set_mem]. rewrite map_size_delete_Some by done.
      pose proof (size_pos_ne (ks s)) as Hp. destruct (size (ks s)) eqn:E; [|lia].
      apply map_size_empty_inv in E. by rewrite E in Hk.
  - rewrite delete_id by done. by apply IH.
Qed.

Lemma live_filter (now : Z) (l : list bytes) (m : entries) :
  live now (filter (fun ke => ke.1 ∉ l) m) = filter (fun ke => ke.1 ∉ l) (live now m).
Proof.
  apply map_eq. intros k. apply option_eq. intros v.
  rewrite live_lookup, map_lookup_filter_Some, live_lookup, bind_Some. cbn. split.
  - intros (ent & [Hk HP]%map_lookup_filter_Some & Hv). cbn in HP. by rewrite Hk.
  - intros [Hb HP]. apply bind_Some in Hb as (ent & Hk & Hv). exists ent.
    by rewrite map_lookup_filter_Some.
Qed.

Lemma live_removed (now : Z) (l : list bytes) (m : entries) :
  Z.of_nat (size (live now m)) - Z.of_nat (size (filter (fun ke => ke.1 ∉ l) (live now m)))
  <= 0 + Z.of_nat (size m) - Z.of_nat (size (filter (fun ke => ke.1 ∉ l) m)).
Proof.
  induction m as [|k ent m Hk IH] using map_ind; [done|].
  assert (live now m !! k = None) as Hl by by apply live_None.
  rewrite live_insert_deadline, delete_id by done.
  assert (forall (A : Type) (m : gmap bytes A) x, m !! k = None ->
    Z.of_nat (size (<[k := x]> m)) - Z.of_nat (size (filter (fun ke => ke.1 ∉ l) (<[k := x]> m)))
    = Z.of_nat (size m) - Z.of_nat (size (filter (fun ke => ke.1 ∉ l) m)) + (if decide (k ∈ l) then 1 else 0)) as Hs.
  { intros A m' x Hm'. rewrite map_size_insert_None by done. case_decide as Hin.
    - rewrite map_filter_insert_False by naive_solver. rewrite delete_id by done. lia.
    - rewrite map_filter_insert_True, map_size_insert_None by (done || by rewrite map_lookup_filter, Hm'). lia. }
  pose proof (Hs _ m ent Hk). destruct (is_expired ent now); [case_decide; lia|].
  pose proof (Hs _ (live now m) (value_of ent) Hl). lia.
Qed.

(** ** [KEYS], [len] *)

Lemma keys_loop_elem (e : Env) (i : nat) (now : Z) (all : bool) (p : bytes) (sh : list entries) (r : list bytes) (k : bytes) :
  k ∈ keys_loop e i now all p sh r <->
  k ∈ r \/ exists j m, sh !! j = Some m /\ k ∈ shard_keys e (i + j) now all p m.
Proof.
  revert i r. induction sh as [|m sh IH]; intros i r; cbn [keys_loop].
  - split; [by left|]. intros [?|(j & m & Hj & _)]; [done|]. by rewrite lookup_nil in Hj.
  - rewrite IH, elem_of_app. split.
    + intros [[?|?]|(j & m' & Hj & Hk)]; [by left|right; exists 0%nat, m; by rewrite Nat.add_0_r|].
      right. exists (S j), m'. split; [done|]. by rewrite Nat.add_succ_r.
    + intros [?|([|j] & m' & Hj & Hk)]; [by left; left|..].
      * injection Hj as ->. left. right. by rewrite Nat.add_0_r in Hk.
      * right. exists j, m'. split; [done|]. by rewrite Nat.add_succ_r in Hk.
Qed.

Lemma shard_keys_elem (e : Env) (i : nat) (now : Z) (p : bytes) (m : entries) (k : bytes) :
  k ∈ shard_keys e i now (bool_decide (p = bs "*")) p m <->
  is_Some (live now m !! k) /\ glob_match p k = true.
Proof.
  assert (bool_decide (p = bs "*") || glob_match p k = glob_match p k) as Hall.
  { case_bool_decide; [subst p; by rewrite glob_match_star|done]. }
  unfold shard_keys. rewrite list_elem_of_omap. split.
  - intros (k' & Hk' & Heq). destruct (m !! k') as [ent|] eqn:Hent; [|done].
    destruct (is_expired ent now) eqn:Hexp; [done|].
    destruct (_ || glob_match p k') eqn:Hg; [|done]. injection Heq as <-. rewrite Hall in Hg.
    split; [|done]. rewrite (live_Some _ _ _ ent) by done. by eexists.
  - intros [[v Hv] Hg]. rewrite live_lookup in Hv. apply bind_Some in Hv as (ent & Hent & Hv).
    exists k. rewrite (order_perm e i (dom m)), elem_of_elements, elem_of_dom, Hent.
    split; [by eexists|]. unfold live_entry in Hv. destruct (is_expired ent now); [done|].
    by rewrite Hall, Hg.
Qed.

Lemma NoDup_omap_id {A} (f : A -> option A) (l : list A) :
  (forall x y, f x = Some y -> x = y) -> NoDup l -> NoDup (omap f l).
Proof.
  intros Hf. induction 1 as [|x l Hx Hl IH]; cbn [omap list_omap]; [apply NoDup_nil_2|].
  destruct (f x) as [y|] eqn:E; [|done]. apply Hf in E as <-. apply NoDup_cons. split; [|done].
  intros (x' & Hx' & E')%list_elem_of_omap. by apply Hf in E' as ->.
Qed.

Lemma NoDup_keys_loop (e : Env) (i : nat) (now : Z) (all : bool) (p : bytes) (sh : list entries) (r : list bytes) :
  NoDup r -> (forall j m k, sh !! j = Some m -> is_Some (m !! k) -> k ∉ r) ->
  (forall j j' m m' k, sh !! j = Some m -> sh !! j' = Some m' -> is_Some (m !! k) -> is_Some (m' !! k) -> j = j') ->
  NoDup (keys_loop e i now all p sh r).
Proof.
  assert (forall i (m : entries) k, k ∈ shard_keys e i now all p m -> is_Some (m !! k)) as Hsk.
  { intros i0 m k Hk. apply list_elem_of_omap in Hk as (k' & _ & Hk'). destruct (m !! k') eqn:E; [|done].
    repeat case_match; simplify_eq. by eexists. }
  revert i r. induction sh as [|m sh IH]; intros i r Hr Hnew Hd; cbn [keys_loop]; [done|]. apply IH.
  - apply NoDup_app. split; [done|]. split.
    + intros k Hk Hin. by apply (Hnew 0%nat m k eq_refl (Hsk _ _ _ Hin)).
    + unfold shard_keys. apply NoDup_omap_id.
      * intros k k' Hk. repeat case_match; by simplify_eq.
      * rewrite (order_perm e i (dom m)). apply NoDup_elements.
  - intros j m' k Hj Hk. apply not_elem_of_app. split; [by apply (Hnew (S j) m' k)|].
    intros Hin. specialize (Hd 0%nat (S j) m m' k eq_refl Hj (Hsk _ _ _ Hin) Hk). discriminate.
  - intros j j' m1 m2 k H1 H2 Hk1 Hk2. by injection (Hd (S j) (S j') m1 m2 k H1 H2 Hk1 Hk2).
Qed.

Lemma keys_implements (e : Env) (pattern : bytes) db s :
  models db s ->
  wp (keys e pattern) (fun r db' => db' = db
    /\ spec_keys (fun k => glob_match pattern k = true) (live (clock e 0) (ks s)) r) db.
Proof.
  intros Hm. unfold keys. apply wp_bind, wp_get, wp_ret. split; [done|].
  pose proof (models_wf _ _ Hm) as Hw. split.
  - apply NoDup_keys_loop; [apply NoDup_nil_2|by intros ? ? ? ? ? ?%elem_of_nil|].
    intros j j' m m' k Hj Hj' Hk Hk'. by rewrite (wf_home _ Hw _ _ _ Hj Hk), (wf_home _ Hw _ _ _ Hj' Hk').
  - intros k. rewrite keys_loop_elem. split.
    + intros [Hk|(j & m & Hj & Hk)]; [by apply elem_of_nil in Hk|].
      apply shard_keys_elem in Hk as [[v Hv] Hg]. split; [|done].
      rewrite live_lookup in Hv. apply bind_Some in Hv as (ent & Hent & Hv).
      destruct (models_home _ _ _ _ _ _ Hm Hj Hent) as [_ Hks]. rewrite live_lookup, Hks. by exists v.
    + intros [[v Hv] Hg]. right. rewrite live_lookup in Hv. apply bind_Some in Hv as (ent & Hent & Hv).
      rewrite (proj1 (proj2 Hm)), view_lookup in Hent by done.
      apply bind_Some in Hent as (m & Hj & Hent). eexists _, m. split; [exact Hj|].
      apply shard_keys_elem. split; [|done]. rewrite live_lookup, Hent. by exists v.
Qed.

Lemma len_implements db s :
  models db s -> wp len_db (fun r db' => db' = db /\ r = Z.of_nat (size (ks s))) db.
Proof.
  intros Hm. unfold len_db. apply wp_bind, wp_get, wp_ret. split; [done|].
  rewrite <- (total_entries_size _ _ Hm). unfold total_entries.
  assert (forall (l : list entries) a, fold_left (fun total m => total + Z.of_nat (size m)) l a
    = a + Z.of_nat (foldr (fun m n => (size m + n)%nat) 0%nat l)) as ->; [|lia].
  intros l. induction l as [|m l IH]; intros a; cbn [fold_left foldr]; [lia|]. rewrite IH. lia.
Qed.

(** ** Properties *)

(** C28: GET. Its two phases reply and act as one lookup in the live keyspace: the string,
    nil for a missing or expired key (which is evicted and taken off the counter),
    WRONGTYPE for another type. The lock is released between the phases, and the second
    one is a lookup in whatever state it finds, so an interleaved write cannot make GET
    reply with anything but the value at that moment. *)
Theorem get_correct e key db s now :
  models db s ->
  implements (clock e 0) s (reads (spec_get key)) 0 (get e key) db
  /\ implements now s (reads (spec_get key)) 0 (get_write e (shard_index (nsh s) key) key now) db
  /\ evicts_expired (clock e 0) s key (fun m => record_miss (record_expiration 1 m)) (Ok None) (get e key) db
  /\ evicts_expired now s key (fun m => record_miss (record_expiration 1 m)) (Ok None)
       (get_write e (shard_index (nsh s) key) key now) db.
Proof.
  intros Hm. split_and!; [by apply get_implements|by apply get_write_implements|by apply get_evicts|by apply get_write_evicts].
Qed.

(** C19: SET stores the value with its deadline and touches no other key, except for the
    entries evicted beforehand to make room; without a memory limit, or when the value
    fits already, there are none. The memory counter stays exact. *)
Theorem set_correct e key value x db s now :
  models db s ->
  wp (set e key value x) (fun _ db' => exists s1 s', models db' s'
    /\ ks s1 ⊆ ks s /\ unaccounted s' = unaccounted s
    /\ live now (ks s') = spec_set now key value x (live now (ks s1))
    /\ (cap s <= 0 \/ fits (size_bytes (CacheEntry_new (DString value) x 0) key) s -> s1 = s)) db.
Proof.
  intros Hm. eapply wp_mono; [by apply wp_set|]. cbn beta zeta.
  intros _ db' (db1 & s1 & s' & _ & Hm' & (_ & Hsub & Hu) & Hst & _ & Hid).
  destruct (Hst now) as [(_ & Hl & Hu') _]. exists s1, s'. split_and!; try done.
  rewrite Hu', Z.add_0_r, Hu. apply wrap_u64_small, unaccounted_range.
Qed.

(** C20: MAXMEMORY. If the counter accounts for everything, then after a SET the entries of the
    store take at most [maxmemory] bytes, or the evictions of this SET gave up: they took
    keys as long as there was no room and one was found, until eight samples in a row saw no
    entry older than the latest time there is (in practice, nothing but empty shards); and
    the value was stored on what was left. (The counter may be wrong when other commands created keys:
    see [creation_cost].) *)
Theorem set_within_maxmemory e key value x db s :
  models db s -> 0 < cap s -> unaccounted s = 0 ->
  let need := size_bytes (CacheEntry_new (DString value) x 0) key in
  used (ks s) + need < u64_modulus ->
  wp (set e key value x) (fun _ db' => exists s', models db' s'
    /\ (used (ks s') <= cap s
        \/ exists j db1 s1, gives_up e need 0 db j db1 /\ models db1 s1 /\ evicted s s1
             /\ Forall (fun c => u64_max <= last_accessed c.2) (candidates e (shards db1) DEFAULT_LRU_SAMPLE_SIZE j).1
             /\ forall now, stores now key value x s1 s')) db.
Proof.
  intros Hm Hcap Hacc need Hw. eapply wp_mono; [by apply wp_set|]. cbn beta zeta. fold need.
  intros _ db' (db1 & s1 & s' & Hm1 & Hm' & Hev & Hst & Hfit & _). pose proof Hev as ((Hc & _) & Hsub & Hu).
  exists s'. split; [done|]. destruct Hfit as [?|[Hfit|[j Hg]]]; [lia| |right].
  2:{ exists j, db1, s1. split_and!; try done. by eapply gives_up_samples. }
  left. destruct (Hst 0) as [_ (new & Hd & Hx & ->)]. unfold fits in Hfit. rewrite Hc in Hfit.
  assert (size_bytes new key = need) as Hnew.
  { unfold need, size_bytes. by rewrite Hd. }
  rewrite <- Hnew in *. pose proof (used_mono _ _ Hsub). pose proof (used_nonneg (ks s1)).
  pose proof (size_bytes_pos new key).
  assert (mem s1 = used (ks s1)) as Hmem.
  { apply (models_counter db1); [done|lia|by rewrite Hu]. }
  rewrite Hmem, wrap_u64_small in Hfit by lia.
  destruct (ks s1 !! key) as [old|] eqn:Hold.
  - rewrite (used_insert _ _ old) by done. pose proof (size_bytes_pos old key). lia.
  - rewrite used_insert_new by done. lia.
Qed.

(** DEL removes exactly the given keys, each with what it was counted for, and replies
    how many there were in the store: never fewer than were alive. *)
Lemma del_correct (l : list bytes) db s now :
  models db s ->
  wp (del l) (fun r db' => exists s', models db' s' /\ unaccounted s' = unaccounted s
    /\ live now (ks s') = spec_del l (live now (ks s))
    /\ r = Z.of_nat (size (ks s)) - Z.of_nat (size (ks s'))
    /\ Z.of_nat (size (live now (ks s))) - Z.of_nat (size (live now (ks s'))) <= r) db.
Proof.
  intros Hm. eapply wp_mono; [by apply wp_del_loop|]. cbn beta.
  intros r db' (s' & Hm' & Hc & Hk & Hu & ->). exists s'. split; [done|]. split; [done|].
  split; [by rewrite Hk, (live_filter now l)|]. split; [lia|].
  rewrite Hk, (live_filter now l). apply live_removed.
Qed.

(** EXPIRE of a live key, with a deadline out of range. *)
Lemma expire_panics e key duration db s ent :
  models db s -> instant_add (clock e 0) duration = None -> ks s !! key = Some ent ->
  is_expired ent (clock e 0) = false -> expire e key duration db = Panic db.
Proof.
  intros Hm Hd Hent Hexp. unfold expire, mbind, ST_bind.
  pose proof (wp_locate db s key (fun r db' => r = shard_index (nsh s) key /\ db' = db) Hm (conj eq_refl eq_refl)) as Hl.
  unfold wp in Hl. destruct (locate key db) as [idx db1|]; [|done]. destruct Hl as [-> ->].
  pose proof (wp_entries_get db s key (fun o db' => o = ks s !! key /\ db' = db) Hm (conj eq_refl eq_refl)) as Hg.
  unfold wp in Hg. destruct (entries_get _ _ _) as [o db1|]; [|done]. destruct Hg as [-> ->].
  by rewrite Hent, Hexp, Hd.
Qed.

(** C36: EXPIRE replaces the deadline of a live key, replies 0 for a missing one, and drops
    an expired one from the store and from the counter, whatever the new deadline; when that
    is beyond the clock's range, it panics on a live key and leaves the store as it was. *)
Theorem expire_correct e key duration db s :
  models db s ->
  match instant_add (clock e 0) duration with
  | Some d => implements (clock e 0) s (spec_expire (clock e 0) key d) 0 (expire e key duration) db
  | None => forall ent, ks s !! key = Some ent -> is_expired ent (clock e 0) = false ->
      expire e key duration db = Panic db
  end
  /\ evicts_expired (clock e 0) s key id false (expire e key duration) db.
Proof.
  intros Hm. split; [|by apply expire_evicts].
  destruct (instant_add _ _) as [d|] eqn:Hd; [by apply expire_implements|].
  intros ent Hent Hexp. by eapply expire_panics.
Qed.

(** TTL is exact: the seconds left, rounded down, -1 without a deadline, -2 for a missing
    or expired key. No deadline the clock can represent overflows the reply. *)
Lemma ttl_exact e key db s :
  models db s -> 0 <= clock e 0 ->
  (forall k ent d, ks s !! k = Some ent -> expires_at ent = Some d -> d <= Instant_max) ->
  implements (clock e 0) s (reads (spec_ttl NANOS (clock e 0) key)) 0 (ttl e key) db.
Proof.
  intros Hm Hnow Hd. eapply wp_mono; [apply (ttl_implements e key db s Hm)|]. cbn beta.
  intros r db' (s' & Hm' & Hst & ->). exists s'. split_and!; [done|done..|]. unfold reads. cbn [fst].
  unfold spec_ttl. rewrite live_lookup. destruct (ks s !! key) as [ent|] eqn:Hent; [|done]. cbn.
  unfold live_entry, is_expired. destruct (expires_at ent) as [d|] eqn:Hx; [|by unfold value_of; rewrite Hx].
  destruct (Z.leb_spec d (clock e 0)); [done|]. unfold value_of. rewrite Hx.
  specialize (Hd _ _ _ Hent Hx). apply as_i64_small. split; [apply Z.div_pos; [lia|done]|].
  unfold Instant_max in Hd. assert ((d - clock e 0) / NANOS < i64_max + 1); [|lia].
  apply Z.div_lt_upper_bound; [done|]. lia.
Qed.

(** KEYS replies the live keys that match the pattern, each exactly once, and changes
    nothing; [len] counts the stored entries, expired ones included. *)
Lemma keys_correct (e : Env) (pattern : bytes) db s :
  models db s ->
  wp (keys e pattern) (fun r db' => db' = db
    /\ spec_keys (fun k => glob_match pattern k = true) (live (clock e 0) (ks s)) r) db
  /\ wp len_db (fun r db' => db' = db /\ r = Z.of_nat (size (ks s))) db.
Proof. intros Hm. split; [by apply keys_implements|by apply len_implements]. Qed.
End keys.

(** Concrete runs. *)
#[local] Existing Instance Demo.hash.

Lemma get_correct_witness :
  models Demo.db (flat Demo.db)
  /\ implements (clock Demo.env 0) (flat Demo.db) (reads (spec_get (bs "name"))) 0 (get Demo.env (bs "name")) Demo.db.
Proof. split; [exact Demo.ok|]. apply (get_correct _ _ _ _ 0), Demo.ok. Defined.

Lemma set_correct_witness :
  models Demo.db (flat Demo.db)
  /\ wp (set Demo.env (bs "name") (bs "valkey") None) (fun _ db' => exists s1 s', models db' s'
       /\ live 0 (ks s') = spec_set 0 (bs "name") (bs "valkey") None (live 0 (ks s1))) Demo.db.
Proof.
  split; [exact Demo.ok|].
  refine (wp_mono _ _ _ _ (set_correct Demo.env (bs "name") (bs "valkey") None _ _ 0 Demo.ok) _).
  intros _ db' (s1 & s' & Hm & _ & _ & Hl & _). by exists s1, s'.
Defined.

Lemma demo_used : used (view Demo.db) = 359.
Proof. reflexivity. Qed.

Lemma set_within_maxmemory_witness :
  let value := repeat "x"%char 700 in
  wp (set Demo.env (bs "big") value None) (fun _ db' => exists s', models db' s'
    /\ (used (ks s') <= 1000
        \/ exists j db1 s1, gives_up Demo.env (size_bytes (CacheEntry_new (DString value) None 0) (bs "big")) 0 Demo.db j db1
             /\ models db1 s1 /\ evicted (flat Demo.db) s1
             /\ Forall (fun c => u64_max <= last_accessed c.2)
                 (candidates Demo.env (shards db1) DEFAULT_LRU_SAMPLE_SIZE j).1
             /\ forall now, stores now (bs "big") value None s1 s')) Demo.db.
Proof.
  intros value. apply (set_within_maxmemory Demo.env (bs "big") value None Demo.db (flat Demo.db) Demo.ok).
  - reflexivity.
  - reflexivity.
  - cbn [ks flat]. rewrite demo_used. reflexivity.
Defined.

Lemma del_correct_witness :
  wp (del [bs "name"; bs "old"; bs "name"]) (fun r db' => exists s', models db' s'
    /\ Z.of_nat (size (live (4 * NANOS) (ks (flat Demo.db)))) - Z.of_nat (size (live (4 * NANOS) (ks s'))) <= r) Demo.db.
Proof.
  refine (wp_mono _ _ _ _ (del_correct [bs "name"; bs "old"; bs "name"] _ _ (4 * NANOS) Demo.ok) _).
  intros r db' (s' & Hm & _ & _ & _ & Hl). by exists s'.
Defined.

Lemma expire_correct_witness :
  expire Demo.env (bs "name") (from_secs u64_max) Demo.db = Panic Demo.db
  /\ evicts_expired (clock Demo.env 0) (flat Demo.db) (bs "old") id false
       (expire Demo.env (bs "old") (from_secs u64_max)) Demo.db.
Proof.
  split.
  - apply (proj1 (expire_correct Demo.env (bs "name") (from_secs u64_max) _ _ Demo.ok)
      (mkEntry (DString (bs "redis")) None 1)); reflexivity.
  - apply (expire_correct Demo.env (bs "old") (from_secs u64_max) _ _ Demo.ok).
Defined.

Lemma demo_deadlines k ent d :
  view Demo.db !! k = Some ent -> expires_at ent = Some d -> d <= Instant_max.
Proof.
  intros Hk Hd. apply elem_of_map_to_list in Hk.
  let l := eval vm_compute in (map_to_list (view Demo.db)) in change (map_to_list (view Demo.db)) with l in Hk.
  repeat (apply elem_of_cons in Hk as [[= -> ->]|Hk]; [cbn in Hd; simplify_eq; vm_compute; discriminate|]).
  by apply elem_of_nil in Hk.
Qed.

Lemma ttl_exact_witness :
  implements (clock Demo.env 0) (flat Demo.db) (reads (spec_ttl NANOS (clock Demo.env 0) (bs "list"))) 0
    (ttl Demo.env (bs "list")) Demo.db.
Proof. apply (ttl_exact _ _ _ _ Demo.ok); [vm_compute; discriminate|apply demo_deadlines]. Defined.

Lemma keys_correct_witness :
  wp (keys Demo.env (bs "n*")) (fun r db' => db' = Demo.db
    /\ spec_keys (fun k => glob_match (bs "n*") k = true) (live (clock Demo.env 0) (view Demo.db)) r) Demo.db.
Proof. apply (keys_correct Demo.env (bs "n*") _ _ Demo.ok). Defined.

(** The milliseconds left are truncated to an [i64]: PTTL of a key that lives long enough
    replies a negative number. *)
Lemma pttl_wraps :
  let db := store_of [(bs "k", mkEntry (DString []) (Some Instant_max) 0)]
              (with_options_and_metrics 1 0 0 (Metrics_new 0 None)) in
  match pttl Demo.env (bs "k") db with Done r _ => r = -5001 | Panic _ => False end.
Proof. vm_compute. reflexivity. Qed.
