(* ===== verification/Scan.v ===== *)
(** * [scan] of [src/src/db.rs]: the cursor-based iteration over the shards *)
From S2P Require Import Prelude.
From S2P Require Import RustStd.
From S2P Require Import Metrics.
From S2P Require Import Glob.
From S2P Require Import Store.
From S2P Require Import Keyspace.
From S2P Require Import Evict.
From S2P Require Import DbKeys.

(** The arguments that stay the same along a call. *)
Record ScanArgs := mkScan {
  scan_now : Z;
  scan_pattern : option bytes;
  scan_target : Z;
  scan_type : option bytes;
}.

(** [type_matches] *)
Definition type_matches (tf : bytes) (d : DataType) : bool :=
  match d with
  | DString _ => eq_ignore_ascii_case tf (bs "string")
  | DList _ => eq_ignore_ascii_case tf (bs "list")
  | DSet _ => eq_ignore_ascii_case tf (bs "set")
  | DHash _ => eq_ignore_ascii_case tf (bs "hash")
  end.

(** [is_match] *)
Definition pattern_matches (pattern : option bytes) (key : bytes) : bool :=
  match pattern with
  | None => true
  | Some p => if bool_decide (p = bs "*") then true else glob_match p key
  end.

(** The [for] loop over one shard: [offset], [scanned] and [matched] when it ends. *)
Fixpoint scan_entries (a : ScanArgs) (l : list (bytes * CacheEntry)) (offset scanned : Z)
    (matched : list bytes) : Z * Z * list bytes :=
  match l with
  | [] => (offset, scanned, matched)
  | (key, entry) :: rest =>
    let offset := offset + 1 in
    let scanned := scanned + 1 in
    if is_expired entry (scan_now a) then
      if scan_target a <=? scanned then (offset, scanned, matched)
      else scan_entries a rest offset scanned matched
    else if negb (match scan_type a with Some tf => type_matches tf (data entry) | None => true end) then
      if scan_target a <=? scanned then (offset, scanned, matched)
      else scan_entries a rest offset scanned matched
    else
      let matched := if pattern_matches (scan_pattern a) key then matched ++ [key] else matched in
      if scan_target a <=? scanned then (offset, scanned, matched)
      else scan_entries a rest offset scanned matched
  end.

(** The entries of a shard in the order of its table. *)
Definition shard_iter (e : Env) (i : nat) (m : entries) : list (bytes * CacheEntry) :=
  omap (fun k => ent ← m !! k; Some (k, ent)) (order e i (dom m)).

(** The [while] loop: [shard_idx], [offset] and [matched] when it ends; [None] without fuel. *)
Fixpoint scan_loop (fuel : nat) (e : Env) (a : ScanArgs) (shards : list entries) (shard_idx : nat)
    (offset scanned : Z) (matched : list bytes) : option (nat * Z * list bytes) :=
  match fuel with
  | O => None
  | S fuel' =>
    if (shard_idx <? length shards)%nat && (scanned <? scan_target a) then
      let entries := default ∅ (shards !! shard_idx) in
      let total := Z.of_nat (size entries) in
      if total <=? offset then scan_loop fuel' e a shards (S shard_idx) 0 scanned matched
      else
        let '(offset, scanned, matched) :=
          scan_entries a (drop (Z.to_nat offset) (shard_iter e shard_idx entries)) offset scanned matched in
        if total <=? offset then scan_loop fuel' e a shards (S shard_idx) 0 scanned matched
        else scan_loop fuel' e a shards shard_idx offset scanned matched
    else Some (shard_idx, offset, matched)
  end.

(** Every iteration but the last moves to the next shard. *)
Definition scan_fuel (shards : list entries) : nat := S (S (length shards)).

(** [Db::scan], on the shards of a store. *)
Definition scan_shards (e : Env) (shards : list entries) (cursor : Z) (pattern : option bytes) (count : Z)
    (type_filter : option bytes) : option (Z * list bytes) :=
  let num_shards := length shards in
  let shard_idx := Z.shiftr cursor 32 in
  let offset := Z.land cursor 4294967295 in
  if Z.of_nat num_shards <=? shard_idx then Some (0, [])
  else
    let target_scan := if count =? 0 then 10 else count in
    r ← scan_loop (scan_fuel shards) e (mkScan (clock e 0) pattern target_scan type_filter) shards
          (Z.to_nat shard_idx) offset 0 [];
    let '(shard_idx, offset, matched) := r in
    Some (if (num_shards <=? shard_idx)%nat then 0 else Z.lor (wrap_u64 (Z.shiftl (Z.of_nat shard_idx) 32)) offset,
          matched).

Definition scan (e : Env) (cursor : Z) (pattern : option bytes) (count : Z) (type_filter : option bytes)
    : ST Db (Z * list bytes) :=
  db ← get_state;
  match scan_shards e (shards db) cursor pattern count type_filter with
  | Some r => mret r
  | None => panic
  end.

(** ** The iteration as a walk along one list *)

Section walk.
Context (e : Env) (sh : list entries).

(** All entries in scanning order from shard [i], and from [offset] in it. *)
Fixpoint entries_from (n i : nat) : list (bytes * CacheEntry) :=
  match n with
  | O => []
  | S n' => match sh !! i with Some m => shard_iter e i m | None => [] end ++ entries_from n' (S i)
  end.

Definition suffix (i : nat) (offset : Z) : list (bytes * CacheEntry) :=
  drop (Z.to_nat offset) (shard_iter e i (default ∅ (sh !! i)))
  ++ entries_from (length sh - S i) (S i).

(** Which of the scanned entries are replied. *)
Definition selects (a : ScanArgs) (ke : bytes * CacheEntry) : bool :=
  negb (is_expired ke.2 (scan_now a))
  && match scan_type a with Some tf => type_matches tf (data ke.2) | None => true end
  && pattern_matches (scan_pattern a) ke.1.

Definition selected (a : ScanArgs) (l : list (bytes * CacheEntry)) : list bytes :=
  (filter (fun ke => selects a ke = true) l).*1.

Lemma selected_app a l1 l2 : selected a (l1 ++ l2) = selected a l1 ++ selected a l2.
Proof. unfold selected. by rewrite filter_app, fmap_app. Qed.

Lemma selected_cons a ke l :
  selected a (ke :: l) = (if selects a ke then [ke.1] else []) ++ selected a l.
Proof. unfold selected. rewrite filter_cons. destruct (selects a ke); by case_decide. Qed.

Lemma shard_iter_length (i : nat) (m : entries) : length (shard_iter e i m) = size m.
Proof.
  rewrite <- (order_length e i m). unfold shard_iter.
  assert (forall k, k ∈ order e i (dom m) -> is_Some (m !! k)) as H.
  { intros k. rewrite (order_perm e i (dom m)), elem_of_elements. apply elem_of_dom. }
  induction (order e i (dom m)) as [|k l IH]; [done|]. cbn [omap list_omap].
  destruct (H k ltac:(left)) as [ent Hk]. rewrite Hk. cbn. rewrite IH; [done|].
  intros k' Hk'. apply H. by right.
Qed.

(** The [for] loop takes entries off the front until [target] are scanned or none is left. *)
Lemma scan_entries_eq a l off sc mt : sc < scan_target a ->
  let n := (Z.to_nat (scan_target a - sc) `min` length l)%nat in
  scan_entries a l off sc mt = (off + Z.of_nat n, sc + Z.of_nat n, mt ++ selected a (take n l)).
Proof.
  revert off sc mt. induction l as [|[k ent] l IH]; intros off sc mt Hsc; cbn [scan_entries]; cbv zeta.
  { rewrite Nat.min_0_r, take_nil. cbn. by rewrite !Z.add_0_r, app_nil_r. }
  set (sel := selects a (k, ent)).
  assert (forall mt', mt' = mt ++ (if sel then [k] else []) ->
    (if scan_target a <=? sc + 1 then (off + 1, sc + 1, mt') else scan_entries a l (off + 1) (sc + 1) mt')
    = (off + Z.of_nat (Z.to_nat (scan_target a - sc) `min` length ((k, ent) :: l)),
       sc + Z.of_nat (Z.to_nat (scan_target a - sc) `min` length ((k, ent) :: l)),
       mt ++ selected a (take (Z.to_nat (scan_target a - sc) `min` length ((k, ent) :: l)) ((k, ent) :: l)))) as Hstep.
  { intros mt' ->. destruct (Z.leb_spec (scan_target a) (sc + 1)) as [Hle|Hgt].
    - replace (Z.to_nat (scan_target a - sc)) with 1%nat by lia. cbn [length Nat.min take].
      rewrite selected_cons. cbn. by rewrite app_nil_r.
    - rewrite IH by lia. replace (Z.to_nat (scan_target a - sc)) with (S (Z.to_nat (scan_target a - (sc + 1)))) by lia.
      cbn [length Nat.min take]. rewrite selected_cons, <- app_assoc. cbn [fst]. fold sel. f_equal. f_equal; lia. }
  unfold sel, selects in Hstep. cbn [fst snd] in Hstep.
  destruct (is_expired ent (scan_now a)); [apply Hstep; cbn; by rewrite app_nil_r|].
  destruct (match scan_type a with Some tf => _ | None => true end); [|apply Hstep; cbn; by rewrite app_nil_r].
  apply Hstep. cbn. destruct (pattern_matches _ _); [done|by rewrite app_nil_r].
Qed.

Lemma take_min_length {A} n (l : list A) : take (n `min` length l) l = take n l.
Proof. rewrite <- take_take. f_equal. by rewrite take_ge. Qed.

Lemma shard_iter_empty i : shard_iter e i ∅ = [].
Proof. apply nil_length_inv. by rewrite shard_iter_length, map_size_empty. Qed.

Lemma suffix_end i off : (length sh <= i)%nat -> suffix i off = [].
Proof.
  intros Hi. unfold suffix. rewrite lookup_ge_None_2 by done. cbn [default from_option].
  rewrite shard_iter_empty, drop_nil. by replace (length sh - S i)%nat with 0%nat by lia.
Qed.

Lemma suffix_start i : suffix i 0 = entries_from (length sh - i) i.
Proof.
  destruct (decide (length sh <= i)%nat) as [Hi|Hi].
  - rewrite suffix_end by done. by replace (length sh - i)%nat with 0%nat by lia.
  - replace (length sh - i)%nat with (S (length sh - S i)) by lia. cbn [entries_from]. unfold suffix.
    destruct (lookup_lt_is_Some_2 sh i) as [m ->]; [lia|]. done.
Qed.

Lemma suffix_next i off :
  Z.of_nat (size (default ∅ (sh !! i))) <= off -> suffix i off = suffix (S i) 0.
Proof.
  intros Hoff. rewrite suffix_start. unfold suffix. rewrite drop_ge; [done|]. rewrite shard_iter_length. lia.
Qed.

(** A position that a cursor can name: the offset is inside the shard. *)
Definition in_shard (i : nat) (off : Z) : Prop :=
  off = 0 \/ off < Z.of_nat (size (default ∅ (sh !! i))).

(** The loop ends at once when enough was scanned. *)
Lemma scan_loop_stop a fuel i off sc mt :
  (0 < fuel)%nat -> scan_target a <= sc -> scan_loop fuel e a sh i off sc mt = Some (i, off, mt).
Proof.
  intros Hf Hsc. destruct fuel; [lia|]. cbn [scan_loop].
  rewrite (proj2 (Z.ltb_ge sc _)) by done. by rewrite andb_false_r.
Qed.

(** What the loop does from a position: [n] entries of the walk are scanned. *)
Definition scans (a : ScanArgs) (fuel i : nat) (off sc : Z) (mt : list bytes) : Prop :=
  let n := Z.to_nat (scan_target a - sc) in
  exists i' off',
    scan_loop fuel e a sh i off sc mt = Some (i', off', mt ++ selected a (take n (suffix i off)))
    /\ suffix i' off' = drop n (suffix i off) /\ 0 <= off' /\ (i <= i')%nat
    /\ ((i' < length sh)%nat -> in_shard i' off' /\ (n <= length (suffix i off))%nat
        /\ (sc < scan_target a -> i' = i -> off < off')).

(** From the end of a shard, and when enough was scanned. *)
Lemma scans_stop a fuel i off sc mt :
  (0 < fuel)%nat -> 0 <= off -> in_shard i off -> scan_target a <= sc -> scans a fuel i off sc mt.
Proof.
  intros Hf Hoff Hin Hsc. exists i, off. rewrite scan_loop_stop by done.
  replace (Z.to_nat (scan_target a - sc)) with 0%nat by lia. cbn [take drop].
  rewrite app_nil_r. split_and!; try done; intros; split_and!; [done|lia|lia].
Qed.

Lemma scans_end a fuel i off sc mt :
  (0 < fuel)%nat -> 0 <= off -> (length sh <= i)%nat -> scans a fuel i off sc mt.
Proof.
  intros Hf Hoff Hi. exists i, off. destruct fuel; [lia|]. cbn [scan_loop].
  rewrite (proj2 (Nat.ltb_ge i _)) by done. rewrite suffix_end, take_nil, drop_nil by done.
  rewrite app_nil_r. split_and!; try done; intros; lia.
Qed.

Lemma scans_skip a fuel i off sc mt :
  (i < length sh)%nat -> sc < scan_target a -> Z.of_nat (size (default ∅ (sh !! i))) <= off ->
  scans a fuel (S i) 0 sc mt -> scans a (S fuel) i off sc mt.
Proof.
  intros Hi Hsc Hoff (i' & off' & Hl & Hs & H0 & Hle & Hp). exists i', off'. rewrite (suffix_next i off) by done.
  split; [|split_and!; [done..|lia|]].
  - rewrite <- Hl. cbn [scan_loop]. rewrite (proj2 (Nat.ltb_lt i _)), (proj2 (Z.ltb_lt sc _)) by done.
    cbn [andb]. by rewrite (proj2 (Z.leb_le _ off)).
  - intros Hi'. destruct (Hp Hi') as (? & ? & _). split_and!; [done..|lia].
Qed.

Lemma scan_loop_spec a fuel i off sc mt :
  0 <= off -> (S (length sh - i) < fuel)%nat -> sc < scan_target a -> scans a fuel i off sc mt.
Proof.
  revert i off sc mt. induction fuel as [|fuel IH]; intros i off sc mt Hoff Hf Hsc; [lia|].
  destruct (Nat.ltb_spec i (length sh)) as [Hi|Hi]; [|by apply scans_end; [lia|..]].
  set (m := default ∅ (sh !! i)) in *.
  destruct (Z.leb_spec (Z.of_nat (size m)) off) as [Hle|Hgt].
  { apply scans_skip; [done..|]. apply IH; [done|lia|done]. }
  set (l := drop (Z.to_nat off) (shard_iter e i m)).
  assert (length l = size m - Z.to_nat off)%nat as Hlen by (unfold l; by rewrite length_drop, shard_iter_length).
  assert (suffix i off = l ++ suffix (S i) 0) as Hsuf.
  { rewrite suffix_start. done. }
  set (N := Z.to_nat (scan_target a - sc)).
  assert (scan_loop (S fuel) e a sh i off sc mt =
    let k := Z.of_nat (N `min` length l) in
    if Z.of_nat (size m) <=? off + k then scan_loop fuel e a sh (S i) 0 (sc + k) (mt ++ selected a (take N l))
    else scan_loop fuel e a sh i (off + k) (sc + k) (mt ++ selected a (take N l))) as Hstep.
  { cbn [scan_loop]. rewrite (proj2 (Nat.ltb_lt i _)), (proj2 (Z.ltb_lt sc _)) by done. cbn [andb].
    fold m. rewrite (proj2 (Z.leb_gt _ off)) by done. fold l. rewrite scan_entries_eq by done. cbv zeta. fold N.
    by rewrite take_min_length. }
  cbv zeta in Hstep. unfold scans. rewrite Hstep. fold N. rewrite Hsuf.
  destruct (Z.leb_spec (Z.of_nat (size m)) (off + Z.of_nat (N `min` length l))) as [Hend|Hmore].
  - assert (length l <= N)%nat by lia. rewrite take_app, drop_app, (take_ge l), (drop_ge l) by done.
    replace (N `min` length l)%nat with (length l) by lia.
    assert (scans a fuel (S i) 0 (sc + Z.of_nat (length l)) (mt ++ selected a l)) as (i' & off' & Hl & Hs & H0 & Hle & Hp).
    { destruct (Z.ltb_spec (sc + Z.of_nat (length l)) (scan_target a)); [apply IH; lia|].
      apply scans_stop; [lia|lia|by left|lia]. }
    exists i', off'. rewrite Hl, Hs. replace (Z.to_nat (scan_target a - (sc + Z.of_nat (length l)))) with (N - length l)%nat by lia.
    rewrite selected_app, app_assoc. split_and!; [done..|lia|]. intros Hi'.
    destruct (Hp Hi') as (? & Hn & _). rewrite length_app. split_and!; [done|lia..].
  - assert (N < length l)%nat by lia. replace (N `min` length l)%nat with N by lia.
    rewrite scan_loop_stop by lia. exists i, (off + Z.of_nat N).
    rewrite take_app_le, drop_app_le by lia. split_and!; [done| |lia|lia|].
    + rewrite suffix_start. unfold suffix. fold m. f_equal. unfold l. rewrite drop_drop. f_equal. lia.
    + intros _. rewrite length_app. split_and!; [right; fold m; lia|lia..].
Qed.

(** ** Cursors *)

Definition cursor_at (i : nat) (off : Z) : Z := Z.lor (wrap_u64 (Z.shiftl (Z.of_nat i) 32)) off.

(** The offsets and shard numbers fit the 32 bits a cursor has for each. *)
Definition cursors_fit : Prop :=
  Z.of_nat (length sh) < 4294967296 /\ Forall (fun m => Z.of_nat (size m) < 4294967296) sh.

Lemma cursor_at_eq i off :
  Z.of_nat i < 4294967296 -> 0 <= off < 4294967296 -> cursor_at i off = Z.of_nat i * 4294967296 + off.
Proof.
  intros Hi Hoff. unfold cursor_at. rewrite Z.shiftl_mul_pow2 by done. change (2 ^ 32) with 4294967296.
  rewrite wrap_u64_small by (unfold u64_modulus; lia).
  assert (Z.land (Z.of_nat i * 4294967296) off = 0) as Hland.
  { apply Z.bits_inj. intros j. rewrite Z.land_spec, Z.bits_0. change 4294967296 with (2 ^ 32) in *.
    destruct (Z.ltb_spec j 32) as [Hj|Hj].
    - destruct (Z.ltb_spec j 0); [by rewrite !Z.testbit_neg_r|]. by rewrite Z.mul_pow2_bits_low.
    - destruct (Z.eq_dec off 0) as [->|]; [by rewrite Z.bits_0, andb_false_r|].
      rewrite (Z.bits_above_log2 off), andb_false_r; [done|lia|].
      enough (Z.log2 off < 32) by lia. apply Z.log2_lt_pow2; lia. }
  by rewrite <- Z.lxor_lor, <- Z.add_nocarry_lxor.
Qed.

Lemma cursor_at_decode i off :
  Z.of_nat i < 4294967296 -> 0 <= off < 4294967296 ->
  Z.shiftr (cursor_at i off) 32 = Z.of_nat i /\ Z.land (cursor_at i off) 4294967295 = off.
Proof.
  intros Hi Hoff. rewrite cursor_at_eq by done. rewrite Z.shiftr_div_pow2 by done.
  change 4294967295 with (Z.ones 32). rewrite Z.land_ones by done. change (2 ^ 32) with 4294967296.
  split; [rewrite Z.div_add_l by done; rewrite Z.div_small by done; lia|].
  rewrite Z.add_comm, Z.mod_add by done. by apply Z.mod_small.
Qed.

Section calls.
Context (pattern : option bytes) (count : Z) (type_filter : option bytes).
Hypothesis Hcount : 0 <= count.

Definition the_args : ScanArgs :=
  mkScan (clock e 0) pattern (if count =? 0 then 10 else count) type_filter.
Definition step_size : nat := Z.to_nat (scan_target the_args).

(** What is left of the walk at a cursor: nothing past the last shard. *)
Definition walk_at (cursor : Z) : list (bytes * CacheEntry) :=
  if Z.of_nat (length sh) <=? Z.shiftr cursor 32 then []
  else suffix (Z.to_nat (Z.shiftr cursor 32)) (Z.land cursor 4294967295).

(** What one call replies from a cursor: the selected ones among the next [step_size] entries
    of the walk, and the cursor of the position after them, or 0 when none is left. *)
Definition scan_replies (cursor : Z) (r : Z * list bytes) : Prop :=
  let l := walk_at cursor in
  r.2 = selected the_args (take step_size l)
  /\ ((r.1 = 0 /\ drop step_size l = [])
      \/ exists i' off', r.1 = cursor_at i' off' /\ (i' < length sh)%nat /\ 0 <= off' /\ in_shard i' off'
           /\ suffix i' off' = drop step_size l /\ (step_size <= length l)%nat
           /\ (Z.shiftr cursor 32 <= Z.of_nat i')
           /\ (Z.of_nat i' = Z.shiftr cursor 32 -> Z.land cursor 4294967295 < off')).

Lemma scan_shards_replies cursor : 0 <= cursor ->
  exists r, scan_shards e sh cursor pattern count type_filter = Some r /\ scan_replies cursor r.
Proof.
  intros Hc. unfold scan_shards, scan_replies, walk_at.
  destruct (Z.leb_spec (Z.of_nat (length sh)) (Z.shiftr cursor 32)) as [Hout|Hin].
  { exists (0, []). split; [done|]. rewrite take_nil, drop_nil. split; [done|by left]. }
  assert (0 <= Z.shiftr cursor 32) as Hpos by by apply Z.shiftr_nonneg.
  assert (0 <= Z.land cursor 4294967295) as Hoff by by apply Z.land_nonneg; right.
  fold the_args. assert (0 < scan_target the_args) as Ht by (cbn; destruct (Z.eqb_spec count 0); lia).
  destruct (scan_loop_spec the_args (scan_fuel sh) (Z.to_nat (Z.shiftr cursor 32)) (Z.land cursor 4294967295) 0 [])
    as (i' & off' & Hl & Hs & H0 & Hle & Hp); [done|unfold scan_fuel; lia|done|].
  rewrite Z.sub_0_r in *. fold step_size in Hl, Hs, Hp. rewrite Hl. cbn [mbind option_bind].
  eexists. split; [done|]. cbn [fst snd]. split; [done|]. destruct (Nat.leb_spec (length sh) i') as [Hge|Hlt].
  - left. split; [done|]. by rewrite <- Hs, suffix_end.
  - destruct (Hp Hlt) as (Hin' & Hn & Hprog). specialize (Hprog Ht). right. exists i', off'.
    split_and!; try done; [lia|]. intros Hi. apply Hprog. lia.
Qed.

Hypothesis Hfit : cursors_fit.

Definition valid_pos (i : nat) (off : Z) : Prop := (i < length sh)%nat /\ 0 <= off < 4294967296.

(** One call from the cursor of a position: it replies the selected ones among the next
    [step_size] entries, and the cursor of the position after them. *)
Lemma scan_shards_spec i off :
  valid_pos i off ->
  exists c', scan_shards e sh (cursor_at i off) pattern count type_filter
      = Some (c', selected the_args (take step_size (suffix i off)))
    /\ ((c' = 0 /\ drop step_size (suffix i off) = [])
        \/ exists i' off', c' = cursor_at i' off' /\ c' <> 0 /\ valid_pos i' off'
             /\ suffix i' off' = drop step_size (suffix i off) /\ (step_size <= length (suffix i off))%nat).
Proof.
  intros [Hi Hoff]. destruct Hfit as [Hlen Hsz].
  destruct (scan_shards_replies (cursor_at i off)) as ([c' l] & -> & Hr); [rewrite cursor_at_eq by lia; lia|].
  unfold scan_replies, walk_at in Hr. destruct (cursor_at_decode i off) as [E1 E2]; [lia|done|]. rewrite E1, E2 in Hr.
  destruct (Z.leb_spec (Z.of_nat (length sh)) (Z.of_nat i)); [lia|]. rewrite Nat2Z.id in Hr. cbn [fst snd] in Hr.
  destruct Hr as [-> Hr]. exists c'. split; [done|].
  destruct Hr as [?|(i' & off' & -> & Hlt & H0 & Hin & Hs & Hn & Hle & Hprog)]; [by left|]. right. exists i', off'.
  assert (off' < 4294967296) as Hoff'.
  { destruct Hin as [->|Hin]; [done|]. destruct (lookup_lt_is_Some_2 sh i' Hlt) as [m Hm]. rewrite Hm in Hin.
    cbn in Hin. rewrite Forall_lookup in Hsz. specialize (Hsz _ _ Hm). cbn in Hsz. lia. }
  split; [done|]. split; [|split_and!; done]. rewrite cursor_at_eq by lia. intros Hz. lia.
Qed.

(** The calls a client makes: from cursor 0 until the reply is 0 again. *)
Fixpoint scan_all (fuel : nat) (cursor : Z) : option (list bytes) :=
  match fuel with
  | O => None
  | S fuel' =>
    r ← scan_shards e sh cursor pattern count type_filter;
    if r.1 =? 0 then Some r.2 else rest ← scan_all fuel' r.1; Some (r.2 ++ rest)
  end.

Lemma scan_all_spec fuel i off :
  valid_pos i off -> (length (suffix i off) < fuel)%nat ->
  scan_all fuel (cursor_at i off) = Some (selected the_args (suffix i off)).
Proof.
  revert i off. induction fuel as [|fuel IH]; intros i off Hv Hf; [lia|]. cbn [scan_all].
  destruct (scan_shards_spec i off Hv) as (c' & -> & Hc). cbn [mbind option_bind fst snd].
  rewrite <- (take_drop step_size (suffix i off)) at 2. rewrite selected_app.
  destruct Hc as [[-> Hd]|(i' & off' & -> & Hz & Hv' & Hd & Hn)].
  - rewrite Hd. cbn. by rewrite app_nil_r.
  - rewrite (proj2 (Z.eqb_neq _ _)) by done. rewrite IH, Hd; [done|done|].
    rewrite Hd, length_drop. assert (0 < step_size)%nat; [|lia].
    unfold step_size. cbn. destruct (Z.eqb_spec count 0); lia.
Qed.
End calls.

(** ** What the walk visits *)

Lemma shard_iter_elem (i : nat) (m : entries) k ent : (k, ent) ∈ shard_iter e i m <-> m !! k = Some ent.
Proof.
  unfold shard_iter. rewrite list_elem_of_omap. split.
  - intros (k' & _ & Heq). destruct (m !! k') eqn:E; cbn in Heq; by simplify_eq.
  - intros Hk. exists k. rewrite Hk. split; [|done].
    rewrite (order_perm e i (dom m)), elem_of_elements. apply elem_of_dom. by eexists.
Qed.

Lemma shard_iter_NoDup (i : nat) (m : entries) : NoDup (shard_iter e i m).*1.
Proof.
  assert ((shard_iter e i m).*1 = omap (fun k => match m !! k with Some _ => Some k | None => None end) (order e i (dom m))) as ->.
  { unfold shard_iter. induction (order e i (dom m)) as [|k l IH]; [done|]. cbn.
    destruct (m !! k); cbn; by rewrite IH. }
  apply NoDup_omap_id; [intros k k'; case_match; congruence|].
  rewrite (order_perm e i (dom m)). apply NoDup_elements.
Qed.

Lemma entries_from_elem n i k ent : (i + n)%nat = length sh ->
  (k, ent) ∈ entries_from n i <-> exists j m, (i <= j)%nat /\ sh !! j = Some m /\ m !! k = Some ent.
Proof.
  revert i. induction n as [|n IH]; intros i Hn; cbn [entries_from].
  - split; [by intros ?%elem_of_nil|]. intros (j & m & Hj & Hm & _). apply lookup_lt_Some in Hm. lia.
  - rewrite elem_of_app, IH by lia. destruct (lookup_lt_is_Some_2 sh i) as [m Hm]; [lia|]. rewrite Hm.
    rewrite shard_iter_elem. split.
    + intros [Hk|(j & m' & Hj & Hm')]; [exists i, m; split; [lia|done]|]. exists j, m'. split; [lia|done].
    + intros (j & m' & Hj & Hm' & Hk). destruct (decide (j = i)) as [->|]; [left; by simplify_eq|].
      right. exists j, m'. split; [lia|done].
Qed.

Lemma entries_from_NoDup n i : (i + n)%nat = length sh ->
  (forall j j' m m' k, sh !! j = Some m -> sh !! j' = Some m' -> is_Some (m !! k) -> is_Some (m' !! k) -> j = j') ->
  NoDup (entries_from n i).*1.
Proof.
  intros Hn Hd. revert i Hn. induction n as [|n IH]; intros i Hn; cbn [entries_from]; [apply NoDup_nil_2|].
  destruct (lookup_lt_is_Some_2 sh i) as [m Hm]; [lia|]. rewrite Hm, fmap_app.
  apply NoDup_app. split; [apply shard_iter_NoDup|]. split; [|apply IH; lia].
  intros k ([k1 e1] & -> & H1)%list_elem_of_fmap ([k2 e2] & Hk & H2)%list_elem_of_fmap. cbn in Hk. subst k2.
  apply shard_iter_elem in H1. apply entries_from_elem in H2 as (j & m' & Hj & Hm' & H2); [|lia].
  specialize (Hd i j m m' k1 Hm Hm' (mk_is_Some _ _ H1) (mk_is_Some _ _ H2)). lia.
Qed.

Lemma selected_elem a l k : k ∈ selected a l <-> exists ent, (k, ent) ∈ l /\ selects a (k, ent) = true.
Proof.
  unfold selected. rewrite list_elem_of_fmap. split.
  - intros ([k' ent] & -> & Hk). apply list_elem_of_filter in Hk as [Hs Hk]. by exists ent.
  - intros (ent & Hk & Hs). exists (k, ent). split; [done|]. by apply list_elem_of_filter.
Qed.

Lemma selected_NoDup a l : NoDup l.*1 -> NoDup (selected a l).
Proof.
  induction l as [|ke l IH]; intros Hd; [apply NoDup_nil_2|]. cbn in Hd. apply NoDup_cons in Hd as [Hn Hd].
  rewrite selected_cons. destruct (selects a ke); [|by apply IH]. cbn. apply NoDup_cons. split; [|by apply IH].
  intros (ent & Hk & _)%selected_elem. apply Hn. apply list_elem_of_fmap. by exists (ke.1, ent).
Qed.
End walk.

Section scan.
Context {Hh : Hasher}.

Lemma suffix_elem e sh i off k ent :
  (k, ent) ∈ suffix e sh i off -> exists j m, sh !! j = Some m /\ m !! k = Some ent.
Proof.
  unfold suffix. rewrite elem_of_app. intros [Hk|Hk].
  - apply subseteq_drop in Hk. destruct (sh !! i) as [m|] eqn:Hm; cbn in Hk.
    + apply shard_iter_elem in Hk. by exists i, m.
    + by rewrite shard_iter_empty in Hk; apply elem_of_nil in Hk.
  - destruct (decide (S i <= length sh)%nat).
    + apply entries_from_elem in Hk as (j & m & _ & Hj & Hk); [|lia]. by exists j, m.
    + replace (length sh - S i)%nat with 0%nat in Hk by lia. by apply elem_of_nil in Hk.
Qed.

(** One call: it ends, and replies as the walk says; every key it replies is alive and
    matches. *)
Lemma scan_implements (e : Env) (cursor : Z) pattern count type_filter db s :
  models db s -> 0 <= cursor -> 0 <= count ->
  wp (scan e cursor pattern count type_filter) (fun r db' => db' = db
    /\ scan_replies e (shards db) pattern count type_filter cursor r
    /\ forall k, k ∈ r.2 -> is_Some (live (clock e 0) (ks s) !! k) /\ pattern_matches pattern k = true) db.
Proof.
  intros Hm Hc Hcount. unfold scan. apply wp_bind, wp_get.
  destruct (scan_shards_replies e (shards db) pattern count type_filter Hcount cursor Hc) as (r & -> & Hr).
  apply wp_ret. split; [done|]. split; [done|]. destruct Hr as [-> _].
  intros k (ent & Hk & Hs)%selected_elem. apply subseteq_take in Hk.
  assert (exists j m, shards db !! j = Some m /\ m !! k = Some ent) as (j & m & Hj & Hkm).
  { unfold walk_at in Hk. case_match; [by apply elem_of_nil in Hk|by eapply suffix_elem]. }
  destruct (models_home _ _ _ _ _ _ Hm Hj Hkm) as [_ Hks].
  unfold selects in Hs. cbn [fst snd] in Hs. rewrite !andb_true_iff, negb_true_iff in Hs.
  destruct Hs as [[Hexp _] Hp]. split; [|done]. rewrite (live_Some _ _ _ ent) by done. by eexists.
Qed.

(** One call of SCAN never panics, from any cursor: the loop over the shards ends within
    its fuel; and it changes nothing. A cursor past the last shard replies nothing and ends
    the iteration. *)
Lemma scan_total (e : Env) (cursor : Z) pattern count type_filter db :
  0 <= cursor -> 0 <= count ->
  exists r, scan e cursor pattern count type_filter db = Done r db
    /\ (Z.of_nat (length (shards db)) <= Z.shiftr cursor 32 -> r = (0, [])).
Proof.
  intros Hc Hcount. unfold scan, mbind, ST_bind, get_state.
  destruct (scan_shards_replies e (shards db) pattern count type_filter Hcount cursor Hc) as (r & Hr & _).
  rewrite Hr. exists r. split; [done|]. intros Hout. unfold scan_shards in Hr.
  rewrite (proj2 (Z.leb_le _ _)) in Hr by done. by injection Hr as <-.
Qed.

(** C13: a full iteration is complete. SCAN called from cursor 0 with each cursor it replied,
    on an unchanged store whose shards have less than [2^32] entries (more do not fit a
    cursor), ends with cursor 0 after at most one call more than there are
    entries, and the calls together reply exactly the live keys of the given type that
    match the pattern, each exactly once. *)
Theorem scan_complete (e : Env) pattern count type_filter db s :
  models db s -> 0 <= count -> cursors_fit (shards db) ->
  exists r, scan_all e (shards db) pattern count type_filter (S (size (ks s))) 0 = Some r
    /\ NoDup r
    /\ forall k, k ∈ r <-> exists ent, ks s !! k = Some ent
        /\ selects (the_args e pattern count type_filter) (k, ent) = true.
Proof.
  intros Hm Hcount Hfit. pose proof (models_wf _ _ Hm) as Hw.
  assert (suffix e (shards db) 0 0 = entries_from e (shards db) (length (shards db)) 0) as Hsuf.
  { rewrite suffix_start. by rewrite Nat.sub_0_r. }
  assert (NoDup (entries_from e (shards db) (length (shards db)) 0).*1) as Hnd.
  { apply entries_from_NoDup; [done|]. intros j j' m m' k Hj Hj' Hk Hk'.
    by rewrite (wf_home _ Hw _ _ _ Hj Hk), (wf_home _ Hw _ _ _ Hj' Hk'). }
  assert (forall k ent, (k, ent) ∈ entries_from e (shards db) (length (shards db)) 0 <-> ks s !! k = Some ent) as Hel.
  { intros k ent. rewrite entries_from_elem by done. split.
    - intros (j & m & _ & Hj & Hk). by destruct (models_home _ _ _ _ _ _ Hm Hj Hk).
    - intros Hk. rewrite (proj1 (proj2 Hm)), view_lookup in Hk by done.
      apply bind_Some in Hk as (m & Hj & Hk). eexists _, m. split; [lia|done]. }
  exists (selected (the_args e pattern count type_filter) (suffix e (shards db) 0 0)).
  change 0 with (cursor_at 0 0) at 1. rewrite scan_all_spec; [|done|done| |].
  - split; [done|]. rewrite Hsuf. split; [by apply selected_NoDup|]. intros k. rewrite selected_elem.
    split; intros (ent & Hk & Hs); exists ent; by rewrite ?Hel in *.
  - split; [rewrite (wf_len _ Hw); apply Hw|done].
  - rewrite Hsuf. rewrite <- length_fmap with (f := fst).
    assert ((entries_from e (shards db) (length (shards db)) 0).*1 ≡ₚ (map_to_list (ks s)).*1) as ->.
    { apply NoDup_Permutation; [done|apply NoDup_fst_map_to_list|]. intros k.
      rewrite !list_elem_of_fmap. split; intros ([k' ent] & -> & Hk); exists (k', ent);
        (split; [done|]); [by apply elem_of_map_to_list, Hel|by apply Hel, elem_of_map_to_list]. }
    rewrite length_fmap, length_map_to_list. lia.
Qed.
End scan.

(** Concrete runs. *)
#[local] Existing Instance Demo.hash.

Lemma scan_total_witness :
  exists r, scan Demo.env 0 None 2 None Demo.db = Done r Demo.db.
Proof. destruct (scan_total Demo.env 0 None 2 None Demo.db) as (r & Hr & _); [done|done|]. by exists r. Defined.

Lemma scan_complete_witness :
  cursors_fit (shards Demo.db)
  /\ exists r, scan_all Demo.env (shards Demo.db) (Some (bs "*")) 1 (Some (bs "STRING")) (S (size (view Demo.db))) 0 = Some r
     /\ NoDup r.
Proof.
  assert (cursors_fit (shards Demo.db)) as Hfit by (unfold cursors_fit; apply (bool_decide_unpack _); vm_compute; exact I).
  split; [exact Hfit|].
  destruct (scan_complete Demo.env (Some (bs "*")) 1 (Some (bs "STRING")) Demo.db (flat Demo.db) Demo.ok Z.le_0_1 Hfit)
    as (r & Hr & Hn & _).
  exists r. split; [exact Hr|exact Hn].
Defined.
