(* ===== verification/Flow.v ===== *)
(** * What the operations of the store have in common

    A relation between the store before and after that every elementary update respects
    holds across every operation of [src/src/db.rs], also when the operation panics: the
    class [Flow] lists the elementary updates, the lemmas walk the operations' code. The same
    for predicates on any state is [keeps]. *)
From stdpp Require Import relations.
From S2P Require Import Prelude.
From S2P Require Import RustStd.
From S2P Require Import Metrics.
From S2P Require Import Store.
From S2P Require Import Keyspace.
From S2P Require Import DbList.
From S2P Require Import DbHash.
From S2P Require Import DbSet.
From S2P Require Import Evict.
From S2P Require Import DbKeys.
From S2P Require Import Scan.

(** The updates SET makes, and those of all operations. *)
Class Flow (R : relation Db) : Prop := {
  flow_preorder :: PreOrder R;
  flow_shards f db : R db (with_shards f db);
  flow_memory f db : R db (with_memory (fun m => wrap_u64 (f m)) db);
  flow_eviction n db : R db (with_metrics (record_eviction n) db);
}.

Class FullFlow (R : relation Db) : Prop := {
  full_flow :: Flow R;
  flow_expiration n db : R db (with_metrics (record_expiration n) db);
  flow_hit db : R db (with_metrics record_hit db);
  flow_miss db : R db (with_metrics record_miss db);
}.

(** The state after a computation, whether it returned or panicked. *)
Definition after {S A} (o : Outcome S A) : S := match o with Done _ s | Panic s => s end.

(** [R] holds across a computation. *)
Definition across {A} (R : relation Db) (m : ST Db A) : Prop := forall db, R db (after (m db)).

Section across.
Context {R : relation Db} `{!PreOrder R}.

Lemma across_ret {A} (a : A) : across R (mret a).
Proof. intros db. cbn. reflexivity. Qed.

Lemma across_panic {A} : across R (panic (A := A)).
Proof. intros db. cbn. reflexivity. Qed.

Lemma across_bind {A B} (m : ST Db A) (f : A -> ST Db B) :
  across R m -> (forall a, across R (f a)) -> across R (m ≫= f).
Proof.
  intros Hm Hf db. specialize (Hm db). unfold mbind, ST_bind. destruct (m db) as [a db'|db']; [|done].
  etrans; [exact Hm|apply Hf].
Qed.

Lemma across_get_bind {A} (f : Db -> ST Db A) : (forall db, across R (f db)) -> across R (db ← get_state; f db).
Proof. intros Hf db. apply Hf. Qed.

Lemma across_modify f : (forall db, R db (f db)) -> across R (modify f).
Proof. intros Hf db. apply Hf. Qed.

(** A computation that only reads. *)
Lemma across_read {A} (m : ST Db A) : (forall db, after (m db) = db) -> across R m.
Proof. intros Hm db. by rewrite Hm. Qed.

Lemma wp_across {A} (m : ST Db A) Q db : across R m -> wp m Q db -> wp m (fun a db' => Q a db' /\ R db db') db.
Proof. intros Hm HQ. specialize (Hm db). unfold wp in *. by destruct (m db). Qed.
End across.

(** [P] holds after a computation that starts where it holds, also after a panic. *)
Definition keeps {S A} (P : S -> Prop) (m : ST S A) : Prop := forall s, P s -> P (after (m s)).

Lemma keeps_ret {S A} (P : S -> Prop) (a : A) : keeps P (mret a : ST S A).
Proof. by intros s. Qed.
Lemma keeps_bind {S A B} (P : S -> Prop) (m : ST S A) (f : A -> ST S B) :
  keeps P m -> (forall a, keeps P (f a)) -> keeps P (m ≫= f).
Proof.
  intros Hm Hf s Hs. specialize (Hm s Hs). unfold mbind, ST_bind. destruct (m s) as [a s'|s']; [|done]. by apply Hf.
Qed.

Create HintDb flow.
#[export] Hint Extern 0 (Flow _) => apply _ : flow.
#[export] Hint Extern 0 (FullFlow _) => apply _ : flow.

(** One construct of the code. *)
Ltac flow_step :=
  lazymatch goal with
  | |- across _ (get_state ≫= _) => apply across_get_bind; intro
  | |- across _ (_ ≫= _) => apply across_bind; [|intro]
  | |- across _ (mret _) => apply across_ret
  | |- across _ panic => apply across_panic
  | |- across _ (match ?x with _ => _ end) => destruct x
  | |- across _ (let x := _ in _) => intro
  | |- across _ _ => solve [auto with flow]
  end.
Ltac flow_run := repeat (flow_step; cbn beta iota).

Section primitives.
Context {Hh : Hasher} {R : relation Db} `{!Flow R}.

Lemma locate_flow key : across R (locate key).
Proof.
  apply across_read. intros db. unfold locate, get_shard_index, shard_at, mbind, ST_bind.
  destruct (bool_decide _); [done|]. by destruct (_ !! _).
Qed.
Lemma read_shard_flow i : across R (read_shard i).
Proof. apply across_read. intros db. unfold read_shard. by destruct (_ !! _). Qed.
Lemma index_key_flow l r : across R (index_key l r).
Proof. apply across_read. intros db. unfold index_key. by destruct (_ !! _). Qed.
Lemma draw_below_flow e i n : across R (draw_below e i n).
Proof. apply across_read. intros db. unfold draw_below. by destruct (bool_decide _). Qed.
Lemma entries_get_flow i key : across R (entries_get i key).
Proof. by apply across_read. Qed.
Lemma now_millis_flow e i : across R (now_millis e i).
Proof. by apply across_read. Qed.
Lemma entries_insert_flow i key ent : across R (entries_insert i key ent).
Proof. apply across_modify. intros db. apply flow_shards. Qed.
Lemma entries_remove_flow i key : across R (entries_remove i key).
Proof. apply across_modify. intros db. apply flow_shards. Qed.
Lemma add_memory_flow n : across R (add_memory n).
Proof. apply across_modify. intros db. apply flow_memory. Qed.
Lemma sub_memory_flow n : across R (sub_memory n).
Proof. apply across_modify. intros db. apply flow_memory. Qed.
Lemma metric_eviction_flow n : across R (metric (record_eviction n)).
Proof. apply across_modify. intros db. apply flow_eviction. Qed.
End primitives.

#[export] Hint Resolve locate_flow read_shard_flow index_key_flow draw_below_flow entries_get_flow now_millis_flow
  entries_insert_flow entries_remove_flow add_memory_flow sub_memory_flow metric_eviction_flow : flow.

Section metric_flow.
Context {R : relation Db} `{!FullFlow R}.

Lemma metric_expiration_flow n : across R (metric (record_expiration n)).
Proof. apply across_modify. intros db. apply flow_expiration. Qed.
Lemma metric_hit_flow : across R (metric record_hit).
Proof. apply across_modify. intros db. apply flow_hit. Qed.
Lemma metric_miss_flow : across R (metric record_miss).
Proof. apply across_modify. intros db. apply flow_miss. Qed.
End metric_flow.

#[export] Hint Resolve metric_expiration_flow metric_hit_flow metric_miss_flow : flow.

(** ** SET and its evictions *)

Section set.
Context {Hh : Hasher} {R : relation Db} `{!Flow R}.

Lemma sample_loop_flow e n : forall i k t, across R (sample_loop e n i k t).
Proof. induction n as [|n IH]; intros i k t; cbn [sample_loop]; flow_run. Qed.
#[local] Hint Resolve sample_loop_flow : flow.

Lemma evict_lru_step_flow e n i : across R (evict_lru_step e n i).
Proof. unfold evict_lru_step. flow_run. Qed.
#[local] Hint Resolve evict_lru_step_flow : flow.

Lemma ensure_capacity_flow e n i : across R (ensure_capacity e n i).
Proof.
  assert (forall fuel i, across R (ensure_capacity_loop e n fuel i)) as Hl.
  { induction fuel as [|fuel IH]; intros j; cbn [ensure_capacity_loop]; flow_run. }
  unfold ensure_capacity. flow_run.
Qed.
#[local] Hint Resolve ensure_capacity_flow : flow.

Lemma set_flow e key value x : across R (set e key value x).
Proof. unfold set. flow_run. Qed.

Lemma evict_if_expired_flow idx key now : across R (evict_if_expired idx key now).
Proof. unfold evict_if_expired. flow_run. Qed.

Lemma or_insert_with_flow idx key new : across R (or_insert_with idx key new).
Proof. unfold or_insert_with. flow_run. Qed.

Lemma del_flow keys : across R (del keys).
Proof. unfold del. generalize 0. induction keys as [|key keys IH]; intros n; cbn [del_loop]; flow_run. Qed.

Lemma expire_flow e key d : across R (expire e key d).
Proof. unfold expire. flow_run. Qed.

Lemma ttl_flow e key : across R (ttl e key) /\ across R (pttl e key).
Proof. split; [unfold ttl|unfold pttl]; flow_run. Qed.
End set.

#[export] Hint Resolve set_flow evict_if_expired_flow or_insert_with_flow del_flow expire_flow : flow.

(** ** The other operations *)

Section operations.
Context {Hh : Hasher} {R : relation Db} `{!FullFlow R}.

Lemma get_flow e key : across R (get e key).
Proof. unfold get, get_read, get_write, get_hit. flow_run. Qed.

Lemma push_flow f e key els : across R (push f e key els).
Proof. unfold push. flow_run. Qed.

Lemma pop_flow f e key : across R (pop f e key).
Proof. unfold pop. flow_run. Qed.

Lemma lrange_flow e key i j : across R (lrange e key i j).
Proof. unfold lrange. flow_run. Qed.

Lemma hset_loop_flow fields : forall m n, across R (hset_loop fields m n).
Proof. induction fields as [|[f v] fields IH]; intros m n; cbn [hset_loop]; flow_run. Qed.
Lemma hdel_loop_flow fields : forall m n, across R (hdel_loop fields m n).
Proof. induction fields as [|f fields IH]; intros m n; cbn [hdel_loop]; flow_run. Qed.
Lemma sadd_loop_flow l : forall s n, across R (sadd_loop l s n).
Proof. induction l as [|x l IH]; intros s n; cbn [sadd_loop]; flow_run. Qed.
Lemma srem_loop_flow l : forall s n, across R (srem_loop l s n).
Proof. induction l as [|x l IH]; intros s n; cbn [srem_loop]; flow_run. Qed.
#[local] Hint Resolve hset_loop_flow hdel_loop_flow sadd_loop_flow srem_loop_flow : flow.

Lemma hset_flow e key fields : across R (hset e key fields).
Proof. unfold hset. flow_run. Qed.
Lemma hget_flow e key f : across R (hget e key f).
Proof. unfold hget. flow_run. Qed.
Lemma hdel_flow e key fields : across R (hdel e key fields).
Proof. unfold hdel. flow_run. Qed.
Lemma hgetall_flow e key : across R (hgetall e key).
Proof. unfold hgetall. flow_run. Qed.
Lemma sadd_flow e key l : across R (sadd e key l).
Proof. unfold sadd. flow_run. Qed.
Lemma smembers_flow e key : across R (smembers e key).
Proof. unfold smembers. flow_run. Qed.
Lemma srem_flow e key l : across R (srem e key l).
Proof. unfold srem. flow_run. Qed.
Lemma sismember_flow e key x : across R (sismember e key x).
Proof. unfold sismember. flow_run. Qed.

Lemma scan_flow e cursor p n t : across R (scan e cursor p n t).
Proof. unfold scan. flow_run. Qed.
Lemma keys_flow e p : across R (keys e p).
Proof. unfold keys. flow_run. Qed.
Lemma len_db_flow : across R len_db.
Proof. unfold len_db. flow_run. Qed.

Lemma purge_flow e n : across R (purge_expired_step e n).
Proof.
  assert (forall es ks now n i l, across R (purge_sample e es ks now n i l)) as Hs.
  { intros es ks now k. induction k as [|k IH]; intros i l; cbn [purge_sample]; flow_run. }
  assert (forall idx now l k, across R (purge_remove idx now l k)) as Hr.
  { intros idx now l. induction l as [|x l IH]; intros k; cbn [purge_remove]; flow_run. }
  unfold purge_expired_step. flow_run.
Qed.
End operations.

#[export] Hint Resolve get_flow push_flow pop_flow lrange_flow hset_flow hget_flow hdel_flow hgetall_flow sadd_flow
  smembers_flow srem_flow sismember_flow scan_flow keys_flow len_db_flow purge_flow : flow.
