(* ===== verification/Web.v ===== *)
(** * The dashboard's web server: [src/src/web.rs]

    [handle_http_connection]: the request is parsed from the first read, each route answers
    from the store and its metrics, [/api/simulate] drives traffic through the store. The
    page is a parameter. A call [i] to the store runs in the environment [es i]. *)
From S2P Require Import Prelude.
From S2P Require Import RustStd.
From S2P Require Import F64.
From S2P Require Import F64Bounds.
From S2P Require Import Json.
From S2P Require Import Metrics.
From S2P Require Import MetricsJson.
From S2P Require Import Http.
From S2P Require Import Store.
From S2P Require Import Keyspace.
From S2P Require Import Evict.
From S2P Require Import DbKeys.
From S2P Require Import Flow.

Section web.
Context {Hh : Hasher} (DASHBOARD_HTML : bytes).

(** ** Routes *)

(** [fastrand::u64(lo..hi)] *)
Definition fastrand_u64 (e : Env) (i : nat) (lo hi : Z) : Z := lo + Z.of_nat (draw e i) mod (hi - lo).

(** [metrics.to_json(db.current_memory(), db.len(), db.maxmemory())] at time [now]. *)
Definition metrics_document (now : Z) : ST Db bytes :=
  n ← len_db;
  db ← get_state;
  match to_json now (current_memory db) n (maxmemory db) (metrics db) with
  | Some json => mret json
  | None => panic
  end.

Definition json_headers : list bytes :=
  [bs "Content-Type: application/json; charset=utf-8"; bs "Access-Control-Allow-Origin: *"].

(** The parameters of a simulation: [count] and [hit_ratio_target] after one [key=value]. *)
Definition simulate_pair (p : Z * Z) (pair : bytes) : Z * Z :=
  let '(count, hit_ratio_target) := p in
  match split_char "=" pair with
  | k :: v :: _ =>
    if bool_decide (k = bs "count") || bool_decide (k = bs "ops") then
      match parse_usize v with
      | Some c => (Z.min (Z.max c 10) 50000, hit_ratio_target)
      | None => p
      end
    else if bool_decide (k = bs "hit_ratio") || bool_decide (k = bs "ratio") then
      match parse_int false 0 4294967295 v with
      | Some r => (count, Z.min (Z.max r 0) 100)
      | None => p
      end
    else p
  | _ => p
  end.
Definition simulate_params (query : bytes) : Z * Z :=
  fold_left simulate_pair (split_char "&" query) (1000, 80).

Definition sim_key (i : nat) : bytes := bs "sim:key:" ++ show_uint (Z.of_nat i).
Definition sim_val (i : nat) : bytes := bs "sim:val:" ++ show_uint (Z.of_nat i).
Definition sim_nonexistent (i : nat) : bytes := bs "sim:nonexistent:" ++ show_uint (Z.of_nat i).

(** Seeding the benchmark keys [i .. i + n - 1]. *)
Fixpoint seed_loop (es : nat -> Env) (n i : nat) : ST Db unit :=
  match n with
  | O => mret tt
  | S n' => set (es i) (sim_key i) (sim_val i) None ;; seed_loop es n' (S i)
  end.

(** [n] reads from the [i]-th on, each counted as a command of 5 to 39 microseconds. *)
Fixpoint traffic_loop (es : nat -> Env) (key : nat -> bytes) (n i : nat) : ST Db unit :=
  match n with
  | O => mret tt
  | S n' =>
    get (es i) (key i) ;;
    metric (record_command (fastrand_u64 (es i) 0 5 40)) ;;
    traffic_loop es key n' (S i)
  end.

(** The simulated traffic: 100 seeds, the hits, the misses; the environments are numbered
    in that order. *)
Definition simulate (es : nat -> Env) (count hit_ratio_target : Z) : ST Db unit :=
  seed_loop es 100 0 ;;
  let hits_to_do := count * hit_ratio_target / 100 in
  let misses_to_do := count - hits_to_do in
  traffic_loop (fun i => es (100 + i)%nat) (fun i => sim_key (i mod 100)) (Z.to_nat hits_to_do) 0 ;;
  traffic_loop (fun i => es (100 + Z.to_nat hits_to_do + i)%nat) sim_nonexistent (Z.to_nat misses_to_do) 0.

Definition simulate_response (count hit_ratio_target elapsed_ms : Z) : bytes :=
  js "{'status':'ok','simulated_ops':" ++ show_uint count ++ js ",'target_hit_ratio':" ++ show_uint hit_ratio_target ++
  js ",'elapsed_ms':" ++ show_uint elapsed_ms ++ js "}".

(** ** [handle_http_connection] *)

(** What the handler does with the connection: closes it without an answer, answers, or
    sends the header of the event stream and enters its loop. *)
Inductive Served := Closed | Reply (response : bytes) | EventStream (header : bytes).

Definition stream_header : bytes := crlf_lines [
  bs "HTTP/1.1 200 OK"; bs "Content-Type: text/event-stream; charset=utf-8"; bs "Cache-Control: no-cache, no-transform";
  bs "Connection: keep-alive"; bs "Access-Control-Allow-Origin: *"; []].

Definition not_found : bytes := bs "404 Not Found".

Definition is_str (s : bytes) (t : String.string) : bool := bool_decide (s = bs t).
Arguments is_str _ _%_string.

Definition route (es : nat -> Env) (now : nat -> Z) (method path query : bytes) : ST Db Served :=
  if is_str method "GET" && is_str path "/" then
    mret (Reply (response (bs "HTTP/1.1 200 OK") [bs "Content-Type: text/html; charset=utf-8"] DASHBOARD_HTML))
  else if is_str method "GET" && is_str path "/api/metrics" then
    json ← metrics_document (now 0%nat);
    mret (Reply (response (bs "HTTP/1.1 200 OK") json_headers json))
  else if is_str method "GET" && is_str path "/api/stream" then mret (EventStream stream_header)
  else if (is_str method "GET" && is_str path "/api/simulate") || (is_str method "POST" && is_str path "/api/simulate") then
    let '(count, hit_ratio_target) := simulate_params query in
    simulate es count hit_ratio_target ;;
    let elapsed_ms := as_millis (duration_since (now 1%nat) (now 0%nat)) in
    mret (Reply (response (bs "HTTP/1.1 200 OK") json_headers (simulate_response count hit_ratio_target elapsed_ms)))
  else mret (Reply (response (bs "HTTP/1.1 404 Not Found") [] not_found)).

(** [buf] is what the first read of at most 4096 bytes returned, [now] the handler's own
    readings of the clock. *)
Definition handle_http_connection (es : nat -> Env) (now : nat -> Z) (buf : bytes) : ST Db Served :=
  match first_line (from_utf8_lossy buf) with
  | None => mret Closed
  | Some request_line =>
    match split_whitespace request_line with
    | method :: uri :: _ =>
      let path := match split_char "?" uri with p :: _ => p | [] => uri end in
      let query := match split_char "?" uri with _ :: q :: _ => q | _ => [] end in
      route es now method path query
    | _ => mret Closed
    end
  end.

(** The loop of the event stream: the store as each tick finds it, until a write fails. *)
Fixpoint event_loop (ticks : list (Z * Db)) : option bytes :=
  match ticks with
  | [] => Some []
  | (now, db) :: ticks' =>
    match metrics_document now db with
    | Done json _ => rest ← event_loop ticks'; Some (event json ++ rest)
    | Panic _ => None
    end
  end.

(** ** The traffic counters *)

(** Hits, misses and commands. *)
Definition traffic (m : Metrics) : Z * Z * Z := (hits m, misses m, total_commands m).

(** SET and its evictions count no traffic. *)
#[export] Instance traffic_flow : Flow (fun db db' => traffic (metrics db') = traffic (metrics db)).
Proof.
  split; [split; [done|intros x y z; congruence]|done..|]. intros n db. cbn. by destruct (metrics db).
Qed.

(** ** One read *)

(** What a GET does to the map and to the counters. *)
Lemma wp_get_traffic e key db s : models db s ->
  wp (get e key) (fun _ db' => exists s', models db' s' /\ same_config s s' /\
    ((exists ent t, ks s !! key = Some ent /\ is_expired ent (clock e 0) = false
        /\ ks s' = <[key := touch t ent]> (ks s) /\ traffic (met s') = traffic (record_hit (met s)))
     \/ ((forall ent, ks s !! key = Some ent -> is_expired ent (clock e 0) = true)
        /\ ks s' = delete key (ks s) /\ traffic (met s') = traffic (record_miss (met s))))) db.
Proof.
  intros Hm. assert (forall ent i, ks s !! key = Some ent -> is_expired ent (clock e 0) = false ->
    wp (get_hit e (shard_index (nsh s) key) key ent i) (fun _ db' => exists s', models db' s' /\ same_config s s' /\
      exists ent t, ks s !! key = Some ent /\ is_expired ent (clock e 0) = false
        /\ ks s' = <[key := touch t ent]> (ks s) /\ traffic (met s') = traffic (record_hit (met s))) db) as Hhit.
  { intros ent i Hent Hexp. unfold get_hit. db_run. eexists. split; [eassumption|]. split; [done|]. by exists ent, t. }
  unfold get, get_read. do 2 db_step. apply wp_bind. db_step. apply (wp_entries_get _ _ _ _ Hm).
  destruct (ks s !! key) as [ent|] eqn:Hent; [destruct (is_expired ent (clock e 0)) eqn:Hexp|].
  - unfold get_write. db_run. rewrite Hent, Hexp. db_run. eexists. split; [eassumption|]. split; [done|].
    right. split; [by intros ? [= <-]|]. split; [done|]. cbn. by destruct (met s).
  - apply wp_bind. eapply wp_mono; [by apply Hhit|]. cbn beta. intros r db' (s' & Hm' & Hc & Hh'). do 2 apply wp_ret.
    exists s'. split; [done|]. split; [done|]. by left.
  - db_run. eexists. split; [eassumption|]. split; [done|]. right. split; [done|].
    split; [cbn; by rewrite delete_id|done].
Qed.

(** ** The simulator *)

(** From [s] to [s']: [h] hits, [mi] misses and [n] commands more, modulo [2^64]. *)
Definition counted (h mi n : Z) (s s' : Flat) : Prop :=
  eq64 (hits (met s')) (hits (met s) + h) /\ eq64 (misses (met s')) (misses (met s) + mi)
  /\ eq64 (total_commands (met s')) (total_commands (met s) + n).

Lemma counted_same s s' : traffic (met s') = traffic (met s) -> counted 0 0 0 s s'.
Proof. unfold traffic, counted. intros [= -> -> ->]. rewrite !Z.add_0_r. done. Qed.

Lemma counted_trans h mi n h' mi' n' s1 s2 s3 :
  counted h mi n s1 s2 -> counted h' mi' n' s2 s3 -> counted (h + h') (mi + mi') (n + n') s1 s3.
Proof.
  intros (H1 & H2 & H3) (H1' & H2' & H3'). unfold counted. rewrite H1', H2', H3', H1, H2, H3.
  split_and!; apply eq64_eq; lia.
Qed.

(** A GET and its record are one command, a hit or a miss. *)
Lemma counted_command s s' (hit : bool) d :
  traffic (met s') = traffic ((if hit then record_hit else record_miss) (met s)) ->
  counted (if hit then 1 else 0) (if hit then 0 else 1) 1 s (set_met (record_command d) s').
Proof.
  unfold traffic, counted. cbn [met set_met]. destruct (met s'), (met s), hit; intros [= -> -> ->]; cbn;
    rewrite ?eq64_wrap, ?Z.add_0_r; done.
Qed.

(** Traffic on any store: every read is a hit or a miss, and is counted. *)
Lemma wp_traffic es key n : forall i db s, models db s ->
  wp (traffic_loop es key n i) (fun _ db' => exists s' h, models db' s' /\ same_config s s'
    /\ 0 <= h <= Z.of_nat n /\ counted h (Z.of_nat n - h) (Z.of_nat n) s s') db.
Proof.
  induction n as [|n IH]; intros i db s Hm.
  { apply wp_ret. exists s, 0. split; [done|]. split; [done|]. split; [lia|]. by apply counted_same. }
  cbn [traffic_loop]. apply wp_bind. eapply wp_mono; [by apply wp_get_traffic|]. cbn beta.
  intros _ db1 (s1 & Hm1 & Hc1 & Ht). db_step. db_step.
  assert (exists hit : bool, traffic (met s1) = traffic ((if hit then record_hit else record_miss) (met s))) as [hit Hhit].
  { destruct Ht as [(_ & _ & _ & _ & _ & Ht)|(_ & _ & Ht)]; [by exists true|by exists false]. }
  eapply wp_mono; [by apply IH|]. cbn beta. intros _ db2 (s' & h & Hm' & Hc' & Hr & Hcount).
  pose proof (counted_trans _ _ _ _ _ _ _ _ _ (counted_command s s1 hit _ Hhit) Hcount) as Hall.
  exists s', ((if hit then 1 else 0) + h). split; [done|]. split; [by etrans|]. split; [destruct hit; lia|].
  replace (Z.of_nat (S n) - ((if hit then 1 else 0) + h)) with ((if hit then 0 else 1) + (Z.of_nat n - h))
    by (destruct hit; lia).
  replace (Z.of_nat (S n)) with (1 + Z.of_nat n) by lia. exact Hall.
Qed.

(** Traffic whose outcome is known: [P] holds of the map throughout, and says that every
    key of the loop is there for good ([hit]), or not there at all. *)
Lemma wp_traffic_known (es : nat -> Env) (key : nat -> bytes) (n : nat) (P : entries -> Prop) (hit : bool) :
  (forall (i : nat) (m : entries), P m -> if hit
    then exists ent, m !! key i = Some ent /\ expires_at ent = None /\ forall t, P (<[key i := touch t ent]> m)
    else m !! key i = None) ->
  forall (i : nat) (db : Db) (s : Flat), models db s -> P (ks s) ->
  wp (traffic_loop es key n i) (fun _ db' => exists s', models db' s' /\ same_config s s' /\ P (ks s')
    /\ counted (if hit then Z.of_nat n else 0) (if hit then 0 else Z.of_nat n) (Z.of_nat n) s s') db.
Proof.
  intros Hkey. induction n as [|n IH]; intros i db s Hm HP.
  { apply wp_ret. exists s. split; [done|]. split; [done|]. split; [done|]. destruct hit; by apply counted_same. }
  cbn [traffic_loop]. apply wp_bind. eapply wp_mono; [by apply wp_get_traffic|]. cbn beta.
  intros _ db1 (s1 & Hm1 & Hc1 & Ht). db_step. db_step.
  assert (traffic (met s1) = traffic ((if hit then record_hit else record_miss) (met s)) /\ P (ks s1)) as [Hhit HP1].
  { specialize (Hkey i _ HP). destruct hit.
    - destruct Hkey as (ent & Hent & Hx & Htouch). destruct Ht as [(ent' & t & Hent' & _ & -> & Ht)|(Hexp & _)].
      + assert (ent' = ent) as -> by congruence. split; [exact Ht|apply Htouch].
      + specialize (Hexp _ Hent). unfold is_expired in Hexp. by rewrite Hx in Hexp.
    - destruct Ht as [(ent & t & Hent & _)|(_ & -> & Ht)]; [congruence|]. rewrite delete_id by exact Hkey. split; [exact Ht|exact HP]. }
  eapply wp_mono; [by apply (IH _ _ _ ltac:(eassumption))|]. cbn beta. intros _ db2 (s' & Hm' & Hc' & HP' & Hcount).
  pose proof (counted_trans _ _ _ _ _ _ _ _ _ (counted_command s s1 hit _ Hhit) Hcount) as Hall.
  exists s'. split; [done|]. split; [by etrans|]. split; [done|].
  replace (Z.of_nat (S n)) with (1 + Z.of_nat n) by lia. by destruct hit.
Qed.

Lemma show_uint_inj (a b : Z) : 0 <= a -> 0 <= b -> show_uint a = show_uint b -> a = b.
Proof. intros Ha Hb E. pose proof (parse_show_uint a Ha). pose proof (parse_show_uint b Hb). congruence. Qed.

Lemma sim_key_inj i j : sim_key i = sim_key j -> i = j.
Proof. intros E%app_inv_head%show_uint_inj; lia. Qed.

Lemma sim_key_nonexistent i j : sim_key i <> sim_nonexistent j.
Proof. done. Qed.

(** The first [n] benchmark keys are stored, without a deadline, and none of the keys that
    the misses ask for. *)
Definition seeded (n : nat) (m : entries) : Prop :=
  forall j, (j < n)%nat -> exists ent, m !! sim_key j = Some ent /\ data ent = DString (sim_val j) /\ expires_at ent = None.
Definition none_of_them (m : entries) : Prop := forall j, m !! sim_nonexistent j = None.

Lemma wp_set_config e key value x db s : models db s ->
  wp (set e key value x) (fun _ db' => exists s', models db' s' /\ same_config s s' /\ traffic (met s') = traffic (met s)
    /\ (cap s <= 0 -> exists new, data new = DString value /\ expires_at new = x /\ ks s' = <[key := new]> (ks s))) db.
Proof.
  intros Hm. refine (wp_mono _ _ _ _ (wp_across _ _ _ (set_flow (R := fun db db' => traffic (metrics db') = traffic (metrics db)) e key value x) (wp_set e key value x db s Hm)) _). cbn beta zeta.
  intros _ db' [(db1 & s1 & s' & _ & Hm' & (Hc1 & _) & Hst & _ & Hid) Ht]. destruct (Hst 0) as [(Hc2 & _) (new & Hd & Hx & Hks)].
  exists s'. split; [done|]. split; [by etrans|]. split; [by rewrite (models_eq _ _ Hm'), (models_eq _ _ Hm)|].
  intros Hcap. exists new. rewrite Hid in Hks by (by left). done.
Qed.

Lemma wp_seed es n : forall i db s, models db s ->
  wp (seed_loop es n i) (fun _ db' => exists s', models db' s' /\ same_config s s' /\ traffic (met s') = traffic (met s)
    /\ (cap s <= 0 -> none_of_them (ks s) -> seeded i (ks s) -> none_of_them (ks s') /\ seeded (i + n) (ks s'))) db.
Proof.
  induction n as [|n IH]; intros i db s Hm.
  { apply wp_ret. exists s. split_and!; try done. intros. by rewrite Nat.add_0_r. }
  cbn [seed_loop]. apply wp_bind. eapply wp_mono; [by apply wp_set_config|]. cbn beta.
  intros _ db1 (s1 & Hm1 & Hc1 & Ht1 & Hks1). eapply wp_mono; [by apply IH|]. cbn beta.
  intros _ db2 (s2 & Hm2 & Hc2 & Ht2 & Hks2). exists s2. split; [done|]. split; [by etrans|]. split; [congruence|].
  intros Hcap Hnone Hseed. replace (i + S n)%nat with (S i + n)%nat by lia.
  destruct (Hks1 Hcap) as (new & Hd & Hx & Hks). apply Hks2.
  - destruct Hc1 as (-> & _). done.
  - intros j. rewrite Hks, lookup_insert_ne by apply sim_key_nonexistent. apply Hnone.
  - intros j Hj. rewrite Hks. destruct (decide (j = i)) as [->|].
    + exists new. by rewrite lookup_insert_eq.
    + rewrite lookup_insert_ne by (intros ?%sim_key_inj; congruence). apply Hseed. lia.
Qed.

(** The two traffic loops keep the seeds and find the other keys missing. *)
Lemma seeds_stay (i : nat) (m : entries) : none_of_them m /\ seeded 100 m ->
  exists ent, m !! sim_key (i mod 100) = Some ent /\ expires_at ent = None
    /\ forall t, none_of_them (<[sim_key (i mod 100) := touch t ent]> m) /\ seeded 100 (<[sim_key (i mod 100) := touch t ent]> m).
Proof.
  intros [Hnone Hseed]. pose proof (Nat.mod_upper_bound i 100 ltac:(lia)) as Hi.
  destruct (Hseed _ Hi) as (ent & Hent & Hd & Hx). exists ent. split; [done|]. split; [done|]. intros t. split.
  - intros j. rewrite lookup_insert_ne by apply sim_key_nonexistent. apply Hnone.
  - intros j Hj. destruct (decide (j = (i mod 100)%nat)) as [->|].
    + exists (touch t ent). by rewrite lookup_insert_eq.
    + rewrite lookup_insert_ne by (intros ?%sim_key_inj; congruence). by apply Hseed.
Qed.

(** A simulation on any store: [count] commands, each a hit or a miss. *)
Lemma wp_simulate es count ratio db s : models db s -> 0 <= count -> 0 <= ratio <= 100 ->
  wp (simulate es count ratio) (fun _ db' => exists s' h, models db' s' /\ same_config s s' /\ 0 <= h <= count
    /\ counted h (count - h) count s s') db.
Proof.
  intros Hm Hcount Hratio. unfold simulate. cbn zeta.
  assert (0 <= count * ratio / 100 <= count) by (split; [apply Z.div_pos; nia|apply Z.div_le_upper_bound; nia]).
  set (h0 := count * ratio / 100) in *. apply wp_bind. eapply wp_mono; [by apply wp_seed|]. cbn beta.
  intros _ db1 (s1 & Hm1 & Hc1 & Ht1 & _). apply wp_bind. eapply wp_mono; [by apply wp_traffic|]. cbn beta.
  intros _ db2 (s2 & h2 & Hm2 & Hc2 & Hr2 & Ht2). eapply wp_mono; [by apply wp_traffic|]. cbn beta.
  intros _ db3 (s3 & h3 & Hm3 & Hc3 & Hr3 & Ht3). rewrite !Z2Nat.id in * by lia.
  exists s3, (h2 + h3). split; [done|]. split; [by etrans; [|etrans]|]. split; [lia|].
  pose proof (counted_trans _ _ _ _ _ _ _ _ _ (counted_same _ _ Ht1) (counted_trans _ _ _ _ _ _ _ _ _ Ht2 Ht3)) as Hall.
  replace (count - (h2 + h3)) with (0 + (h0 - h2 + (count - h0 - h3))) by lia.
  replace count with (0 + (h0 + (count - h0))) at 2 by lia. exact Hall.
Qed.

(** A simulation on a store without a memory limit that holds none of the missing keys. *)
Lemma wp_simulate_unlimited es count ratio db s : models db s -> 0 <= count -> 0 <= ratio <= 100 ->
  cap s <= 0 -> none_of_them (ks s) ->
  wp (simulate es count ratio) (fun _ db' => exists s', models db' s' /\ seeded 100 (ks s')
    /\ counted (count * ratio / 100) (count - count * ratio / 100) count s s') db.
Proof.
  intros Hm Hcount Hratio Hcap Hnone. unfold simulate. cbn zeta.
  assert (0 <= count * ratio / 100 <= count) by (split; [apply Z.div_pos; nia|apply Z.div_le_upper_bound; nia]).
  set (h0 := count * ratio / 100) in *. apply wp_bind. eapply wp_mono; [by apply wp_seed|]. cbn beta.
  intros _ db1 (s1 & Hm1 & _ & Ht1 & Hseed). destruct (Hseed Hcap Hnone) as [Hnone1 Hseed1]; [by intros j Hj; lia|].
  apply wp_bind. eapply wp_mono; [apply (wp_traffic_known _ _ _ (fun m : entries => none_of_them m /\ seeded 100 m) true) with (s := s1)|]; [|done..|].
  { exact seeds_stay. }
  cbn beta. intros _ db2 (s2 & Hm2 & _ & HP2 & Ht2).
  eapply wp_mono; [apply (wp_traffic_known _ _ _ (fun m : entries => none_of_them m /\ seeded 100 m) false) with (s := s2)|]; [|done..|].
  { intros i m [Hn _]. apply Hn. }
  cbn beta. intros _ db3 (s3 & Hm3 & _ & HP3 & Ht3). rewrite !Z2Nat.id in * by lia.
  exists s3. split; [done|]. split; [apply HP3|].
  pose proof (counted_trans _ _ _ _ _ _ _ _ _ (counted_same _ _ Ht1) (counted_trans _ _ _ _ _ _ _ _ _ Ht2 Ht3)) as Hall.
  cbn iota in Hall. replace h0 with (0 + (h0 + 0)) at 1 by lia. replace (count - h0) with (0 + (0 + (count - h0))) by lia.
  replace count with (0 + (h0 + (count - h0))) at 2 by lia. exact Hall.
Qed.

(** ** Reading the answers *)

Lemma no_lf_render j : json_ok j = true -> no_lf (render j) = true.
Proof.
  intros Hj. refine (forallb_weaken _ _ _ _ (render_printable j Hj)). intros c Hc.
  destruct (Ascii.eqb_spec c LF) as [->|]; done.
Qed.

(** What the clock and the store must satisfy for their values to be of their types. *)
Definition measurable (now : Z) (s : Flat) : Prop :=
  metrics_ok (met s) /\ 0 <= now <= Instant_max /\ is_u64 (Z.of_nat (size (ks s))) /\ is_u64 (cap s).

(** The document of a store. *)
Definition store_json (now : Z) (s : Flat) (lat : LatencyStats) : Json :=
  metrics_json now (mem s) (Z.of_nat (size (ks s))) (cap s) (met s) lat.

Lemma wp_metrics_document now db s : models db s -> measurable now s ->
  wp (metrics_document now) (fun json db' => db' = db /\ exists lat, latency_stats (met s) = Some lat
    /\ json_ok (store_json now s lat) = true /\ json = render (store_json now s lat)) db.
Proof.
  intros Hm (Hok & Hnow & Hsize & Hcap). unfold metrics_document. apply wp_bind.
  eapply wp_mono; [by apply (len_implements db s)|]. cbn beta. intros r db' [-> ->]. apply wp_bind, wp_get.
  destruct (latency_stats_ok _ Hok) as (lat & Hlat & _). pose proof (models_eq _ _ Hm) as ->. cbn [flat met mem cap ks] in *.
  rewrite (to_json_render _ _ _ _ _ _ Hlat). apply wp_ret. split; [done|]. exists lat. split; [done|]. split; [|done].
  unfold store_json. cbn [flat met mem cap ks].
  apply metrics_json_ok; try done. pose proof (wf_mem _ (models_wf _ _ Hm)). unfold is_u64, u64_max. lia.
Qed.

Definition OK_200 : bytes := bs "HTTP/1.1 200 OK".
Definition NOT_FOUND_404 : bytes := bs "HTTP/1.1 404 Not Found".

(** [text] is one whole response with the given status, type and body. *)
Definition responds (text status : bytes) (content_type : option bytes) (body : bytes) : Prop :=
  exists hs, read_response text = Some (status, hs, body) /\ header (bs "Content-Type") hs = content_type
  /\ header (bs "Connection") hs = Some (bs "close").

Lemma responds_json body : responds (response OK_200 json_headers body) OK_200 (Some (bs "application/json; charset=utf-8")) body.
Proof.
  unfold responds. eexists. split; [|split].
  - apply (read_response_response _ _ [(bs "Content-Type", bs "application/json; charset=utf-8");
      (bs "Access-Control-Allow-Origin", bs "*")]); [done|by repeat constructor|done].
  - done.
  - done.
Qed.

Definition simulate_json (count ratio elapsed_ms : Z) : Json := JObj [
  field "status" (str (bs "ok")); field "simulated_ops" (uint count); field "target_hit_ratio" (uint ratio);
  field "elapsed_ms" (uint elapsed_ms)].

Lemma simulate_response_json count ratio ms : 0 <= count -> 0 <= ratio -> 0 <= ms ->
  simulate_response count ratio ms = render (simulate_json count ratio ms)
  /\ json_ok (simulate_json count ratio ms) = true.
Proof.
  intros Hc Hr Hms. split.
  - unfold simulate_response, simulate_json, field, uint, str.
    repeat match goal with |- context [show_uint ?x] => generalize (show_uint x); intro end.
    cbn. repeat (rewrite <- app_assoc; cbn [app]). reflexivity.
  - apply obj_ok. assert (forall z, 0 <= z -> json_ok (uint z) = true) as Hu by (intros z Hz; by apply is_number_show_uint).
    repeat (apply Forall_cons_2; [split; [reflexivity|]|]); [done|by apply Hu|by apply Hu|by apply Hu|apply Forall_nil_2].
Qed.

(** The parameters of a simulation are within their limits, whatever the query is. *)
Lemma simulate_params_range query : 10 <= (simulate_params query).1 <= 50000 /\ 0 <= (simulate_params query).2 <= 100.
Proof.
  unfold simulate_params. generalize (split_char "&" query). intros l.
  assert (10 <= (1000, 80).1 <= 50000 /\ 0 <= (1000, 80).2 <= 100) as H by (cbn; lia). revert H.
  generalize (1000, 80). induction l as [|pair l IH]; intros [c r] H; [exact H|]. cbn [fold_left]. apply IH.
  cbn [fst snd] in H. unfold simulate_pair. repeat case_match; cbn [fst snd]; lia.
Qed.

(** The contract of the routes: what a request for [method], [path] and [query] on the store
    [db] gets, and the store it leaves. *)
Inductive answer (db : Db) (s : Flat) (now : nat -> Z) (method path query : bytes) : Served -> Db -> Prop :=
  | answer_page text :
    method = bs "GET" -> path = bs "/" ->
    responds text OK_200 (Some (bs "text/html; charset=utf-8")) DASHBOARD_HTML ->
    answer db s now method path query (Reply text) db
  | answer_metrics text body lat :
    method = bs "GET" -> path = bs "/api/metrics" ->
    responds text OK_200 (Some (bs "application/json; charset=utf-8")) body ->
    latency_stats (met s) = Some lat -> read_json body = Some (store_json (now 0%nat) s lat) ->
    answer db s now method path query (Reply text) db
  | answer_stream :
    method = bs "GET" -> path = bs "/api/stream" ->
    answer db s now method path query (EventStream stream_header) db
  | answer_simulate text body elapsed_ms db' s' h :
    method ∈ [bs "GET"; bs "POST"] -> path = bs "/api/simulate" ->
    responds text OK_200 (Some (bs "application/json; charset=utf-8")) body ->
    read_json body = Some (simulate_json (simulate_params query).1 (simulate_params query).2 elapsed_ms) ->
    models db' s' -> counted h ((simulate_params query).1 - h) (simulate_params query).1 s s' ->
    answer db s now method path query (Reply text) db'
  | answer_not_found text :
    (method, path) ∉ [(bs "GET", bs "/"); (bs "GET", bs "/api/metrics"); (bs "GET", bs "/api/stream");
      (bs "GET", bs "/api/simulate"); (bs "POST", bs "/api/simulate")] ->
    responds text NOT_FOUND_404 None not_found ->
    answer db s now method path query (Reply text) db.

Lemma is_str_true m p m' p' : is_str m m' && is_str p p' = true -> m = bs m' /\ p = bs p'.
Proof. unfold is_str. intros [?%bool_decide_eq_true ?%bool_decide_eq_true]%andb_true_iff. done. Qed.
Lemma is_str_false m p m' p' : is_str m m' && is_str p p' = false -> (m, p) <> (bs m', bs p').
Proof.
  unfold is_str. intros E [= -> ->]. by rewrite !bool_decide_eq_true_2 in E.
Qed.

Lemma wp_route es now method path query db s : models db s -> measurable (now 0%nat) s ->
  wp (route es now method path query) (fun r db' => answer db s now method path query r db') db.
Proof.
  intros Hm Hmeas. unfold route.
  destruct (is_str method _ && is_str path "/") eqn:E1.
  { apply is_str_true in E1 as [-> ->]. apply wp_ret, answer_page; [done..|].
    eexists. split; [|split].
    - apply (read_response_response _ _ [(bs "Content-Type", bs "text/html; charset=utf-8")]); [done|by repeat constructor|done].
    - done.
    - done. }
  destruct (is_str method _ && is_str path "/api/metrics") eqn:E2.
  { apply is_str_true in E2 as [-> ->]. apply wp_bind. eapply wp_mono; [by apply wp_metrics_document|]. cbn beta.
    intros json db' (-> & lat & Hlat & Hok & ->). eapply wp_ret, answer_metrics; [done|done|apply responds_json|done|].
    by apply read_json_render. }
  destruct (is_str method _ && is_str path "/api/stream") eqn:E3.
  { apply is_str_true in E3 as [-> ->]. by apply wp_ret, answer_stream. }
  destruct (is_str method "GET" && is_str path "/api/simulate" || is_str method "POST" && is_str path "/api/simulate") eqn:E4.
  - destruct (simulate_params query) as [count ratio] eqn:Ep. pose proof (simulate_params_range query) as Hr.
    rewrite Ep in Hr. cbn [fst snd] in Hr. apply wp_bind. eapply wp_mono; [apply (wp_simulate es count ratio db s Hm); lia|].
    cbn beta. intros _ db' (s' & h & Hm' & _ & _ & Hc). cbn zeta.
    set (ms := as_millis _). assert (0 <= ms) as Hms by (apply Z.div_pos; unfold duration_since; lia).
    destruct (simulate_response_json count ratio ms) as [E Hok]; [lia..|]. rewrite E.
    assert (method ∈ [bs "GET"; bs "POST"] /\ path = bs "/api/simulate") as [Hmeth Hpath].
    { apply orb_true_iff in E4 as [E4|E4]; apply is_str_true in E4 as [-> ->]; split; set_solver. }
    eapply wp_ret, (answer_simulate _ _ _ _ _ _ _ _ ms db' s' h); [done|done|apply responds_json| |done|by rewrite Ep].
    rewrite Ep. by apply read_json_render.
  - apply orb_false_iff in E4 as [E4 E5]. apply wp_ret, answer_not_found.
    + apply is_str_false in E1, E2, E3, E4, E5. rewrite !elem_of_cons, elem_of_nil. tauto.
    + eexists. split; [|split].
      * apply (read_response_response _ _ []); [done|by constructor|done].
      * done.
      * done.
Qed.

(** ** Requests *)

(** [path] and [query] are what the handler takes from a URI: the text before the first
    question mark, and the text between it and the second one, if there are any. *)
Definition uri_parts (uri path query : bytes) : Prop :=
  ("?"%char ∉ path) /\ ("?"%char ∉ query)
  /\ (uri = path /\ query = [] \/ exists t, uri = path ++ "?"%char :: query ++ t /\ (t = [] \/ exists t', t = "?"%char :: t')).

Lemma split_char_spec c s : exists p ps, split_char c s = p :: ps /\ (c ∉ p)
  /\ (s = p /\ ps = [] \/ exists t, s = p ++ c :: t /\ ps = split_char c t).
Proof.
  induction s as [|x s IH]; cbn [split_char].
  { exists [], []. split; [done|]. split; [by apply not_elem_of_nil|by left]. }
  destruct (Ascii.eqb_spec x c) as [->|Hx].
  { eexists [], _. split; [done|]. split; [by apply not_elem_of_nil|]. right. by exists s. }
  destruct IH as (p & ps & -> & Hp & Hs). exists (x :: p), ps. split; [done|].
  split; [by apply not_elem_of_cons|]. destruct Hs as [[-> ->]|(t & -> & ->)]; [by left|right; by exists t].
Qed.

Lemma uri_parts_split uri :
  uri_parts uri (match split_char "?" uri with p :: _ => p | [] => uri end)
    (match split_char "?" uri with _ :: q :: _ => q | _ => [] end).
Proof.
  destruct (split_char_spec "?" uri) as (p & ps & -> & Hp & [[-> ->]|(t & -> & ->)]).
  { split; [done|]. split; [by apply not_elem_of_nil|by left]. }
  destruct (split_char_spec "?" t) as (q & qs & -> & Hq & Ht). split; [done|]. split; [done|]. right.
  destruct Ht as [[-> _]|(t' & -> & _)].
  - exists []. rewrite app_nil_r. split; [done|by left].
  - eexists. split; [reflexivity|]. right. by eexists.
Qed.

(** C18: the dashboard's server. Whatever bytes the first read of a connection returns, the
    handler does not panic; it closes the connection without an answer exactly when the
    first line has fewer than two words, and otherwise answers the method, the path and the
    query of that line by the contract of the routes: every answer is one whole HTTP/1.1
    response whose [Content-Length] is the length of its body, [/api/metrics] gives the
    document of the store, and no route but the simulator changes the store. *)
Theorem web_answers (es : nat -> Env) (now : nat -> Z) (buf : bytes) (db : Db) (s : Flat)
    (Hm : models db s) (Hmeas : measurable (now 0%nat) s) :
  let words := match first_line (from_utf8_lossy buf) with Some l => split_whitespace l | None => [] end in
  wp (handle_http_connection es now buf) (fun r db' =>
    ((length words < 2)%nat /\ r = Closed /\ db' = db)
    \/ exists method uri rest path query, words = method :: uri :: rest /\ uri_parts uri path query
      /\ answer db s now method path query r db') db.
Proof.
  cbn zeta. unfold handle_http_connection. destruct (first_line _) as [line|]; [|apply wp_ret; left; cbn; by split_and!; lia || done].
  destruct (split_whitespace line) as [|method [|uri rest]]; [apply wp_ret; left; cbn; by split_and!; lia || done..|].
  eapply wp_mono; [by apply wp_route|]. cbn beta. intros r db' Ha. right. eexists _, _, _, _, _.
  split; [done|]. split; [apply uri_parts_split|exact Ha].
Qed.

(** The traffic simulator. On any store, a simulation of [count] reads does not panic
    and counts [count] commands, each a hit or a miss. On a store without a memory limit
    that holds none of the keys the misses ask for, the hit ratio is the one asked for, to
    the command, and the hundred benchmark keys are left in the store for good. *)
Lemma simulate_traffic (es : nat -> Env) (count ratio : Z) (db : Db) (s : Flat)
    (Hm : models db s) (Hcount : 0 <= count) (Hratio : 0 <= ratio <= 100) :
  wp (simulate es count ratio) (fun _ db' => exists s' h, models db' s' /\ 0 <= h <= count
    /\ counted h (count - h) count s s') db
  /\ (cap s <= 0 -> none_of_them (ks s) ->
      wp (simulate es count ratio) (fun _ db' => exists s', models db' s' /\ seeded 100 (ks s')
        /\ counted (count * ratio / 100) (count - count * ratio / 100) count s s') db).
Proof.
  split; [|by apply wp_simulate_unlimited].
  eapply wp_mono; [by apply (wp_simulate es count ratio db s)|]. cbn beta.
  intros _ db' (s' & h & Hm' & _ & Hr & Hc). by exists s', h.
Qed.

(** C33: the event stream. Whatever the store is at each tick, the text the server has sent
    after any number of ticks is a sequence of complete server-sent events, one per tick,
    whose data is the document of the store at that tick. *)
Theorem event_stream_reads (ticks : list (Z * Db))
    (Hticks : Forall (fun t => wf t.2 /\ measurable t.1 (flat t.2)) ticks) :
  exists text docs, event_loop ticks = Some text /\ read_events (length docs) text = Some docs
  /\ Forall2 (fun t doc => exists lat, latency_stats (metrics t.2) = Some lat
       /\ read_json doc = Some (store_json t.1 (flat t.2) lat)) ticks docs.
Proof.
  assert (exists docs, event_loop ticks = Some (concat (map event docs)) /\ Forall (fun d => no_lf d = true) docs
    /\ Forall2 (fun t doc => exists lat, latency_stats (metrics t.2) = Some lat
       /\ read_json doc = Some (store_json t.1 (flat t.2) lat)) ticks docs) as (docs & He & Hlf & Hdocs).
  { induction Hticks as [|[now db] ticks [Hwf Hmeas] _ IH]; [by exists []|].
    destruct IH as (docs & He & Hlf & Hdocs). cbn [event_loop fst snd] in *.
    pose proof (wp_metrics_document now db _ (models_flat _ Hwf) Hmeas) as Hw. unfold wp in Hw.
    destruct (metrics_document now db) as [json db'|]; [|done]. destruct Hw as (_ & lat & Hlat & Hok & ->).
    rewrite He. eexists (_ :: docs). split; [done|]. split; [apply Forall_cons; by split; [apply no_lf_render|]|].
    constructor; [|done]. exists lat. split; [done|]. by apply read_json_render. }
  exists (concat (map event docs)), docs. split; [done|]. split; [by apply read_events_events|done].
Qed.
End web.

(** Concrete runs. *)
#[local] Existing Instance Demo.hash.

Lemma demo_measurable now : 0 <= now <= Instant_max -> measurable now (flat Demo.db).
Proof.
  intros Hnow. split; [|split; [done|split; in_range_const]].
  assert (metrics Demo.db = Metrics_new 0 None) as E by reflexivity. cbn [flat met]. rewrite E. by apply metrics_new_ok.
Qed.

Lemma web_answers_witness :
  wp (handle_http_connection (bs "<html>") (fun _ => Demo.env) (fun _ => NANOS) (bs "GET /api/metrics?x=1 HTTP/1.1" ++ CRLF))
    (fun r db' => exists method uri rest path query,
      [bs "GET"; bs "/api/metrics?x=1"; bs "HTTP/1.1"] = method :: uri :: rest /\ uri_parts uri path query
      /\ answer (bs "<html>") Demo.db (flat Demo.db) (fun _ => NANOS) method path query r db') Demo.db.
Proof.
  refine (wp_mono _ _ _ _ (web_answers (bs "<html>") (fun _ => Demo.env) (fun _ => NANOS) _ _ _ Demo.ok _) _).
  - apply demo_measurable. in_range_const.
  - cbn beta. intros r db' [[Hlt _]|H]; [|exact H]. vm_compute in Hlt. lia.
Defined.

Definition demo_unlimited : Db := with_options_and_metrics 4 0 0 (Metrics_new 0 None).

Lemma simulate_traffic_witness :
  wp (simulate (fun _ => Demo.env) 10 75) (fun _ db' => exists s', models db' s' /\ seeded 100 (ks s')
    /\ counted 7 3 10 (flat demo_unlimited) s') demo_unlimited.
Proof.
  destruct (simulate_traffic (fun _ => Demo.env) 10 75 demo_unlimited (flat demo_unlimited)) as [_ H].
  - apply models_flat, wf_new. lia.
  - lia.
  - lia.
  - apply H; [cbn; lia|]. intros j. cbn [flat ks]. unfold demo_unlimited. rewrite view_new. apply lookup_empty.
Defined.

Lemma event_stream_reads_witness :
  exists text docs, event_loop [(NANOS, Demo.db); (2 * NANOS, Demo.db)] = Some text
  /\ read_events 2 text = Some docs /\ length docs = 2%nat.
Proof.
  destruct (event_stream_reads [(NANOS, Demo.db); (2 * NANOS, Demo.db)]) as (text & docs & He & Hr & Hd).
  - repeat constructor; try apply Demo.ok; apply demo_measurable; in_range_const.
  - pose proof (Forall2_length _ _ _ Hd) as Hl. cbn in Hl. exists text, docs. rewrite <- Hl in Hr. by split_and!.
Defined.
