(* ===== verification/PubSub.v ===== *)
(** * Publish/subscribe: [src/src/pubsub.rs]

    The hub over the broadcast channels of tokio, which are an interface here: what a
    sender, a subscription and the drop of a receiver do to the number of receivers, as the
    library documents it. *)
From S2P Require Import Prelude.

Definition CHANNEL_CAPACITY : nat := 1024.

(** [tokio::sync::broadcast]. [channel n] is the sender of [channel(n)] once the receiver
    made with it is dropped; [drop_receiver] is the drop of any one receiver. *)
Class Broadcast := {
  Sender : Type;
  Receiver : Type;
  channel : nat -> Sender;
  receiver_count : Sender -> Z;
  send : bytes -> Sender -> Sender;
  subscribe_sender : Sender -> Sender * Receiver;
  drop_receiver : Sender -> Sender;
  channel_count : forall n, receiver_count (channel n) = 0;
  send_count : forall m s, receiver_count (send m s) = receiver_count s;
  subscribe_count : forall s, receiver_count (subscribe_sender s).1 = receiver_count s + 1;
  drop_count : forall s, 0 < receiver_count s -> receiver_count (drop_receiver s) = receiver_count s - 1;
}.

Section pubsub.
Context `{Broadcast}.

(** [PubSub]: the senders of the channels that were ever subscribed to. *)
Record PubSub := mkPubSub { channels : gmap bytes Sender }.

(** [PubSub::new] *)
Definition PubSub_new : PubSub := mkPubSub ∅.

(** [PubSub::publish] *)
Definition publish (channel : bytes) (msg : bytes) (p : PubSub) : Z * PubSub :=
  match channels p !! channel with
  | Some sender => (receiver_count sender, mkPubSub (<[channel := send msg sender]> (channels p)))
  | None => (0, p)
  end.

(** [PubSub::subscribe] *)
Definition subscribe (ch : bytes) (p : PubSub) : Receiver * PubSub :=
  let sender := default (channel CHANNEL_CAPACITY) (channels p !! ch) in
  let '(sender', rx) := subscribe_sender sender in
  (rx, mkPubSub (<[ch := sender']> (channels p))).

(** A subscriber of a channel goes away: its receiver is dropped. *)
Definition unsubscribe (ch : bytes) (p : PubSub) : PubSub :=
  mkPubSub (alter drop_receiver ch (channels p)).

(** ** Histories *)

Inductive Event := Publishes (ch msg : bytes) | Subscribes (ch : bytes) | Leaves (ch : bytes).

Definition pubsub_step (p : PubSub) (ev : Event) : PubSub :=
  match ev with
  | Publishes ch msg => (publish ch msg p).2
  | Subscribes ch => (subscribe ch p).2
  | Leaves ch => unsubscribe ch p
  end.

(** The subscribers of a channel, counted over a history in which nobody leaves a channel
    without having subscribed to it. *)
Definition subscribers_after (ch : bytes) (n : Z) (ev : Event) : Z :=
  match ev with
  | Subscribes ch' => if bool_decide (ch' = ch) then n + 1 else n
  | Leaves ch' => if bool_decide (ch' = ch) then n - 1 else n
  | Publishes _ _ => n
  end.

Definition subscribers (ch : bytes) (evs : list Event) : Z := fold_left (subscribers_after ch) evs 0.

(** Every leave has a subscriber to leave. *)
Definition fair (evs : list Event) : Prop :=
  forall ch pre post, evs = pre ++ Leaves ch :: post -> 0 < subscribers ch pre.

Definition count_at (ch : bytes) (p : PubSub) : Z :=
  match channels p !! ch with Some s => receiver_count s | None => 0 end.

Lemma count_at_step ch p ev :
  (forall ch', ev = Leaves ch' -> 0 < count_at ch' p) ->
  count_at ch (pubsub_step p ev) = subscribers_after ch (count_at ch p) ev.
Proof.
  intros Hfair. unfold count_at in *. destruct ev as [ch' msg|ch'|ch']; cbn.
  - unfold publish. destruct (channels p !! ch') as [s|] eqn:E; [|done]. cbn. rewrite lookup_insert.
    case_decide; [|done]. subst. by rewrite E, send_count.
  - unfold subscribe. pose proof (subscribe_count (default (channel CHANNEL_CAPACITY) (channels p !! ch'))) as Hs.
    destruct (subscribe_sender _) as [s' rx]. cbn in *. rewrite lookup_insert.
    case_decide; case_bool_decide; try done. subst. rewrite Hs.
    destruct (channels p !! ch); cbn; [done|]. by rewrite channel_count.
  - specialize (Hfair ch' eq_refl). case_bool_decide as Hch.
    + subst. rewrite lookup_alter_eq. destruct (channels p !! ch); cbn; [by apply drop_count|lia].
    + by rewrite lookup_alter_ne.
Qed.

Lemma count_at_history ch evs :
  fair evs -> count_at ch (fold_left pubsub_step evs PubSub_new) = subscribers ch evs.
Proof.
  revert ch. induction evs as [|ev evs IH] using rev_ind; intros ch Hf.
  { unfold count_at. cbn. by rewrite lookup_empty. }
  assert (fair evs) as Hf'.
  { intros ch' pre post ->. apply (Hf ch' pre (post ++ [ev])). by rewrite <- app_assoc. }
  unfold subscribers. rewrite !fold_left_app. cbn [fold_left]. fold (subscribers ch evs).
  rewrite <- (IH ch Hf'). apply count_at_step. intros ch' ->. rewrite IH by done. by apply (Hf ch' evs []).
Qed.

(** PUBLISH replies the number of receivers subscribed to the channel at that moment: over
    any history of subscriptions, publications and departures on any channels, the
    subscriptions to it less the departures from it, and 0 for a channel nobody ever
    subscribed to. *)
Lemma publish_count (ch msg : bytes) (evs : list Event) :
  fair evs ->
  (publish ch msg (fold_left pubsub_step evs PubSub_new)).1 = subscribers ch evs.
Proof.
  intros Hf. rewrite <- count_at_history by done. unfold publish, count_at. by case_match.
Qed.
End pubsub.

(** A broadcast channel that is only its number of receivers. *)
Definition counting : Broadcast.
Proof.
  refine {| Sender := Z; Receiver := unit; channel := fun _ => 0; receiver_count := id; send := fun _ s => s;
            subscribe_sender := fun s => (s + 1, tt); drop_receiver := fun s => s - 1 |}; done.
Defined.

Lemma publish_count_witness :
  let evs := [@Subscribes (bs "news"); Subscribes (bs "chat"); Subscribes (bs "news"); Leaves (bs "news");
              Publishes (bs "news") (bs "hi")] in
  fair evs /\ (@publish counting (bs "news") (bs "again") (fold_left pubsub_step evs PubSub_new)).1 = 1.
Proof.
  intros evs.
  assert (fair evs) as Hf.
  { intros ch pre post Heq. subst evs.
    do 4 (destruct pre as [|? pre]; [try discriminate Heq|injection Heq as <- Heq]).
    - injection Heq as <- _. reflexivity.
    - destruct pre as [|? [|? pre]]; discriminate Heq. }
  split; [exact Hf|]. exact (@publish_count counting (bs "news") (bs "again") evs Hf).
Defined.
