(* ===== verification/Cmd.v ===== *)
(** * The commands: [src/src/cmd/*.rs]

    One Module per file: the command's fields, the parsing of its arguments with every
    error the source returns, and its execution on the store. *)
From S2P Require Import Prelude.
From S2P Require Import RustStd.
From S2P Require Import Frame.
From S2P Require Import Metrics.
From S2P Require Import Store.
From S2P Require Import DbList.
From S2P Require Import DbHash.
From S2P Require Import DbSet.
From S2P Require Import DbKeys.
From S2P Require Import Scan.
From S2P Require Import PubSub.

(** ** Parsing arguments *)

(** A parse that does not succeed returns a message or panics (the sum of an [Instant] and
    a [Duration] out of range). *)
Inductive ParseError := Msg (s : bytes) | ParsePanic.

#[export] Instance ParseError_eq_dec : EqDecision ParseError.
Proof. solve_decision. Defined.

Abbreviation parsed A := (Result ParseError A).

Definition fail {A} (s : String.string) : parsed A := Err (Msg (bs s)).
Arguments fail {A} s%_string.

Definition NOT_INTEGER : bytes := bs "ERR value is not an integer or out of range".
Definition SYNTAX : bytes := bs "ERR syntax error".
(** ["ERR wrong number of arguments for '<name>' command"] *)
Definition wrong_args (name : String.string) : bytes :=
  bs "ERR wrong number of arguments for '" ++ bs name ++ bs "' command".
Arguments wrong_args name%_string.

(** [match args.next() { Some(Bulk(b)) => b, Some(Simple(s)) => Bytes::from(s), _ => err }]:
    the bytes and the arguments left. *)
Definition next_bytes (err : bytes) (args : list Frame) : parsed (bytes * list Frame) :=
  match args with
  | Bulk b :: rest => Ok (b, rest)
  | Simple s :: rest => Ok (s, rest)
  | _ => Err (Msg err)
  end.

(** [if args.next().is_some() { return err }] *)
Definition no_more (err : bytes) (args : list Frame) : parsed unit :=
  match args with [] => Ok tt | _ => Err (Msg err) end.

(** [for frame in args { .. push .. }]: every argument must be a string. *)
Fixpoint all_bytes (err : bytes) (args : list Frame) : parsed (list bytes) :=
  match args with
  | [] => Ok []
  | Bulk b :: rest => l ← all_bytes err rest; Ok (b :: l)
  | Simple s :: rest => l ← all_bytes err rest; Ok (s :: l)
  | _ => Err (Msg err)
  end.

(** [String::from_utf8(b.to_vec()).map_err(..)?] *)
Definition utf8_or (err : bytes) (b : bytes) : parsed bytes := ok_or (Msg err) (from_utf8 b).

(** A string argument: [Bulk] if it is UTF-8 ([err1]), [Simple], anything else is [err2]. *)
Definition string_arg (err1 err2 : bytes) (f : Frame) : parsed bytes :=
  match f with
  | Bulk b => utf8_or err1 b
  | Simple s => Ok s
  | _ => Err (Msg err2)
  end.

(** The same, or an [Integer], printed. *)
Definition number_arg (err1 err2 : bytes) (f : Frame) : parsed bytes :=
  match f with
  | Integer i => Ok (show_i64 i)
  | _ => string_arg err1 err2 f
  end.

(** [args.next().ok_or_else(..)?] *)
Definition next_frame (err : bytes) (args : list Frame) : parsed (Frame * list Frame) :=
  match args with
  | f :: rest => Ok (f, rest)
  | [] => Err (Msg err)
  end.

(** [.parse().map_err(..)?] *)
Definition parsed_or (err : bytes) (o : option Z) : parsed Z := ok_or (Msg err) o.

(** ** Replies *)

(** [Ok(n) => Frame::Integer(n as i64), Err(err) => Frame::Error(err)] *)
Definition reply_count (r : Result bytes Z) : Frame :=
  match r with Ok n => Integer (as_i64 n) | Err e => Error e end.
(** [Ok(Some(v)) => Bulk(v), Ok(None) => Null, Err(err) => Error(err)] *)
Definition reply_value (r : Result bytes (option bytes)) : Frame :=
  match r with Ok (Some v) => Bulk v | Ok None => Null | Err e => Error e end.
(** [Ok(l) => Array(l.into_iter().map(Bulk).collect()), Err(err) => Error(err)] *)
Definition reply_list (r : Result bytes (list bytes)) : Frame :=
  match r with Ok l => Array (map Bulk l) | Err e => Error e end.

(** [Ok(b) => Integer(if b { 1 } else { 0 }), Err(err) => Error(err)] *)
Definition reply_bool (r : Result bytes bool) : Frame :=
  match r with Ok b => Integer (if b : bool then 1 else 0) | Err e => Error e end.

(** ** [cmd/ping.rs] *)
Module CmdPing.
Record Ping := mkPing { msg : option bytes }.

Definition parse_frames (args : list Frame) : parsed Ping :=
  match args with
  | Bulk b :: rest => no_more (wrong_args "ping") rest ;; Ok (mkPing (Some b))
  | Simple s :: rest => no_more (wrong_args "ping") rest ;; Ok (mkPing (Some s))
  | _ :: _ => fail "ERR invalid argument for 'ping' command"
  | [] => Ok (mkPing None)
  end.

Definition apply (c : Ping) : Frame :=
  match msg c with Some m => Bulk m | None => Simple (bs "PONG") end.
End CmdPing.

(** ** [cmd/echo.rs] *)
Module CmdEcho.
Record Echo := mkEcho { msg : bytes }.

Definition parse_frames (args : list Frame) : parsed Echo :=
  match args with
  | Bulk b :: rest => no_more (wrong_args "echo") rest ;; Ok (mkEcho b)
  | Simple s :: rest => no_more (wrong_args "echo") rest ;; Ok (mkEcho s)
  | _ :: _ => fail "ERR invalid argument for 'echo' command"
  | [] => Err (Msg (wrong_args "echo"))
  end.

Definition apply (c : Echo) : Frame := Bulk (msg c).
End CmdEcho.

(** ** [cmd/get.rs] *)
Module CmdGet.
Record Get := mkGet { key : bytes }.

Definition parse_frames (args : list Frame) : parsed Get :=
  '(key, args) ← next_bytes (wrong_args "get") args;
  no_more (wrong_args "get") args ;;
  Ok (mkGet key).

Definition apply {Hh : Hasher} (e : Env) (c : Get) : ST Db Frame :=
  r ← get e (key c); mret (reply_value r).
End CmdGet.

(** ** [cmd/set.rs] *)
Module CmdSet.
Record Set_ := mkSet { key : bytes; value : bytes; expires_at : option Z }.

Section parse.
Context `{UnicodeCase}.

(** The loop over the options: the last duration given. *)
Fixpoint parse_options (args : list Frame) (expire_duration : option Z) : parsed (option Z) :=
  match args with
  | [] => Ok expire_duration
  | arg :: rest =>
    opt ← string_arg SYNTAX SYNTAX arg;
    let opt := to_uppercase opt in
    if bool_decide (opt = bs "EX") then
      match rest with
      | [] => Err (Msg SYNTAX)
      | sec_frame :: rest =>
        sec_str ← number_arg NOT_INTEGER SYNTAX sec_frame;
        secs ← parsed_or NOT_INTEGER (parse_u64 sec_str);
        parse_options rest (Some (from_secs secs))
      end
    else if bool_decide (opt = bs "PX") then
      match rest with
      | [] => Err (Msg SYNTAX)
      | ms_frame :: rest =>
        ms_str ← number_arg NOT_INTEGER SYNTAX ms_frame;
        ms ← parsed_or NOT_INTEGER (parse_u64 ms_str);
        parse_options rest (Some (from_millis ms))
      end
    else Err (Msg SYNTAX)
  end.

(** [now] is the reading of the clock at the end of the parse. *)
Definition parse_frames (now : Z) (args : list Frame) : parsed Set_ :=
  '(key, args) ← next_bytes (wrong_args "set") args;
  '(value, args) ← next_bytes (wrong_args "set") args;
  expire_duration ← parse_options args None;
  match expire_duration with
  | None => Ok (mkSet key value None)
  | Some d =>
    match instant_add now d with
    | Some x => Ok (mkSet key value (Some x))
    | None => Err ParsePanic
    end
  end.
End parse.

Definition apply {Hh : Hasher} (e : Env) (c : Set_) : ST Db Frame :=
  set e (key c) (value c) (expires_at c) ;; mret (Simple (bs "OK")).
End CmdSet.

(** ** [cmd/del.rs] *)
Module CmdDel.
Record Del := mkDel { keys : list bytes }.

Definition parse_frames (args : list Frame) : parsed Del :=
  keys ← all_bytes (bs "ERR invalid argument for 'del' command") args;
  match keys with
  | [] => Err (Msg (wrong_args "del"))
  | _ => Ok (mkDel keys)
  end.

Definition apply {Hh : Hasher} (c : Del) : ST Db Frame :=
  count ← del (keys c); mret (Integer (as_i64 count)).
End CmdDel.

(** ** [cmd/expire.rs] *)
Module CmdExpire.
Record Expire := mkExpire { key : bytes; duration : Z }.

(** The body [parse_expire] and [parse_pexpire] share, up to the name and the unit. *)
Definition parse_duration (name : String.string) (unit : Z -> Z) (args : list Frame) : parsed Expire :=
  '(key, args) ← next_bytes (wrong_args name) args;
  '(f, args) ← next_frame (wrong_args name) args;
  s ← number_arg NOT_INTEGER NOT_INTEGER f;
  n ← parsed_or NOT_INTEGER (parse_u64 s);
  no_more SYNTAX args ;;
  Ok (mkExpire key (unit n)).

Definition parse_expire : list Frame -> parsed Expire := parse_duration "expire" from_secs.
Definition parse_pexpire : list Frame -> parsed Expire := parse_duration "pexpire" from_millis.

Definition apply {Hh : Hasher} (e : Env) (c : Expire) : ST Db Frame :=
  success ← expire e (key c) (duration c);
  mret (Integer (if success : bool then 1 else 0)).
End CmdExpire.

(** ** [cmd/ttl.rs] *)
Module CmdTtl.
Record Ttl := mkTtl { key : bytes; millis : bool }.

Definition parse_frames (args : list Frame) (millis : bool) : parsed Ttl :=
  let err := bs "ERR wrong number of arguments for command" in
  '(key, args) ← next_bytes err args;
  no_more err args ;;
  Ok (mkTtl key millis).

Definition apply {Hh : Hasher} (e : Env) (c : Ttl) : ST Db Frame :=
  res ← (if millis c then pttl e (key c) else ttl e (key c));
  mret (Integer res).
End CmdTtl.

(** ** [cmd/list.rs] *)
Module CmdList.
Inductive ListCmd :=
  | Lpush (key : bytes) (elements : list bytes)
  | Rpush (key : bytes) (elements : list bytes)
  | Lpop (key : bytes)
  | Rpop (key : bytes)
  | Lrange (key : bytes) (start stop : Z).

(** The body [parse_lpush] and [parse_rpush] share. *)
Definition parse_push (name : String.string) (make : bytes -> list bytes -> ListCmd) (args : list Frame)
    : parsed ListCmd :=
  '(key, args) ← next_bytes (wrong_args name) args;
  elements ← all_bytes SYNTAX args;
  match elements with
  | [] => Err (Msg (wrong_args name))
  | _ => Ok (make key elements)
  end.

Definition parse_lpush : list Frame -> parsed ListCmd := parse_push "lpush" Lpush.
Definition parse_rpush : list Frame -> parsed ListCmd := parse_push "rpush" Rpush.

(** The body [parse_lpop] and [parse_rpop] share. *)
Definition parse_pop (name : String.string) (make : bytes -> ListCmd) (args : list Frame) : parsed ListCmd :=
  '(key, args) ← next_bytes (wrong_args name) args;
  no_more (wrong_args name) args ;;
  Ok (make key).

Definition parse_lpop : list Frame -> parsed ListCmd := parse_pop "lpop" Lpop.
Definition parse_rpop : list Frame -> parsed ListCmd := parse_pop "rpop" Rpop.

(** One index of [parse_lrange]. *)
Definition parse_index (args : list Frame) : parsed (Z * list Frame) :=
  '(f, args) ← next_frame (wrong_args "lrange") args;
  s ← number_arg (bs "ERR value is not an integer") (wrong_args "lrange") f;
  n ← parsed_or NOT_INTEGER (parse_i64 s);
  Ok (n, args).

Definition parse_lrange (args : list Frame) : parsed ListCmd :=
  '(key, args) ← next_bytes (wrong_args "lrange") args;
  '(start, args) ← parse_index args;
  '(stop, args) ← parse_index args;
  no_more (wrong_args "lrange") args ;;
  Ok (Lrange key start stop).

Definition apply {Hh : Hasher} (e : Env) (c : ListCmd) : ST Db Frame :=
  match c with
  | Lpush key elements => r ← lpush e key elements; mret (reply_count r)
  | Rpush key elements => r ← rpush e key elements; mret (reply_count r)
  | Lpop key => r ← lpop e key; mret (reply_value r)
  | Rpop key => r ← rpop e key; mret (reply_value r)
  | Lrange key start stop => r ← lrange e key start stop; mret (reply_list r)
  end.
End CmdList.

(** ** [cmd/hash.rs] *)
Module CmdHash.
Inductive HashCmd :=
  | Hset (key : bytes) (fields : list (bytes * bytes))
  | Hget (key field : bytes)
  | Hdel (key : bytes) (fields : list bytes)
  | Hgetall (key : bytes).

(** The loop of [parse_hset]: fields and values in turn. *)
Fixpoint parse_fields (args : list Frame) : parsed (list (bytes * bytes)) :=
  match args with
  | [] => Ok []
  | field_frame :: rest =>
    '(field, _) ← next_bytes SYNTAX [field_frame];
    match rest with
    | [] => Err (Msg (wrong_args "hset"))
    | val_frame :: rest =>
      '(value, _) ← next_bytes SYNTAX [val_frame];
      fields ← parse_fields rest;
      Ok ((field, value) :: fields)
    end
  end.

Definition parse_hset (args : list Frame) : parsed HashCmd :=
  '(key, args) ← next_bytes (wrong_args "hset") args;
  fields ← parse_fields args;
  match fields with
  | [] => Err (Msg (wrong_args "hset"))
  | _ => Ok (Hset key fields)
  end.

Definition parse_hget (args : list Frame) : parsed HashCmd :=
  '(key, args) ← next_bytes (wrong_args "hget") args;
  '(field, args) ← next_bytes (wrong_args "hget") args;
  no_more (wrong_args "hget") args ;;
  Ok (Hget key field).

Definition parse_hdel (args : list Frame) : parsed HashCmd :=
  '(key, args) ← next_bytes (wrong_args "hdel") args;
  fields ← all_bytes SYNTAX args;
  match fields with
  | [] => Err (Msg (wrong_args "hdel"))
  | _ => Ok (Hdel key fields)
  end.

Definition parse_hgetall (args : list Frame) : parsed HashCmd :=
  '(key, args) ← next_bytes (wrong_args "hgetall") args;
  no_more (wrong_args "hgetall") args ;;
  Ok (Hgetall key).

(** The reply of [HGETALL]: fields and values in turn. *)
Definition reply_pairs (r : Result bytes (list (bytes * bytes))) : Frame :=
  match r with
  | Ok pairs => Array (concat (map (fun kv => [Bulk kv.1; Bulk kv.2]) pairs))
  | Err e => Error e
  end.

Definition apply {Hh : Hasher} (e : Env) (c : HashCmd) : ST Db Frame :=
  match c with
  | Hset key fields => r ← hset e key fields; mret (reply_count r)
  | Hget key field => r ← hget e key field; mret (reply_value r)
  | Hdel key fields => r ← hdel e key fields; mret (reply_count r)
  | Hgetall key => r ← hgetall e key; mret (reply_pairs r)
  end.
End CmdHash.

(** ** [cmd/set_cmd.rs] *)
Module CmdSets.
Inductive SetCmd :=
  | Sadd (key : bytes) (members : list bytes)
  | Smembers (key : bytes)
  | Srem (key : bytes) (members : list bytes)
  | Sismember (key member : bytes).

Definition parse_sadd (args : list Frame) : parsed SetCmd :=
  '(key, args) ← next_bytes (wrong_args "sadd") args;
  members ← all_bytes SYNTAX args;
  match members with
  | [] => Err (Msg (wrong_args "sadd"))
  | _ => Ok (Sadd key members)
  end.

Definition parse_smembers (args : list Frame) : parsed SetCmd :=
  '(key, args) ← next_bytes (wrong_args "smembers") args;
  no_more (wrong_args "smembers") args ;;
  Ok (Smembers key).

Definition parse_srem (args : list Frame) : parsed SetCmd :=
  '(key, args) ← next_bytes (wrong_args "srem") args;
  members ← all_bytes SYNTAX args;
  match members with
  | [] => Err (Msg (wrong_args "srem"))
  | _ => Ok (Srem key members)
  end.

Definition parse_sismember (args : list Frame) : parsed SetCmd :=
  '(key, args) ← next_bytes (wrong_args "sismember") args;
  '(member, args) ← next_bytes (wrong_args "sismember") args;
  no_more (wrong_args "sismember") args ;;
  Ok (Sismember key member).

Definition apply {Hh : Hasher} (e : Env) (c : SetCmd) : ST Db Frame :=
  match c with
  | Sadd key members => r ← sadd e key members; mret (reply_count r)
  | Smembers key => r ← smembers e key; mret (reply_list r)
  | Srem key members => r ← srem e key members; mret (reply_count r)
  | Sismember key member => r ← sismember e key member; mret (reply_bool r)
  end.
End CmdSets.

(** ** [cmd/pubsub.rs] *)
Module CmdPubSub.
Inductive PubSubCmd :=
  | Publish (channel message : bytes)
  | Subscribe (channels : list bytes).

Definition parse_publish (args : list Frame) : parsed PubSubCmd :=
  '(f, args) ← next_frame (wrong_args "publish") args;
  channel ← string_arg (bs "ERR invalid channel name") (wrong_args "publish") f;
  '(message, args) ← next_bytes (wrong_args "publish") args;
  no_more (wrong_args "publish") args ;;
  Ok (Publish channel message).

Fixpoint parse_channels (args : list Frame) : parsed (list bytes) :=
  match args with
  | [] => Ok []
  | f :: rest =>
    ch ← string_arg (bs "ERR invalid channel name") SYNTAX f;
    l ← parse_channels rest;
    Ok (ch :: l)
  end.

Definition parse_subscribe (args : list Frame) : parsed PubSubCmd :=
  channels ← parse_channels args;
  match channels with
  | [] => Err (Msg (wrong_args "subscribe"))
  | _ => Ok (Subscribe channels)
  end.

Definition apply_publish `{Broadcast} (c : PubSubCmd) (p : PubSub) : Frame * PubSub :=
  match c with
  | Publish channel message => let '(count, p') := publish channel message p in (Integer (as_i64 count), p')
  | _ => (Error (bs "ERR invalid pubsub command execution"), p)
  end.
End CmdPubSub.

(** ** [cmd/keys.rs] *)
Module CmdKeys.
Record Keys := mkKeys { pattern : bytes }.

Definition parse_frames (args : list Frame) : parsed Keys :=
  '(pattern_frame, args) ← next_frame (wrong_args "keys") args;
  no_more (wrong_args "keys") args ;;
  '(pattern, _) ← next_bytes (bs "ERR invalid argument for 'keys' command") [pattern_frame];
  Ok (mkKeys pattern).

Definition apply {Hh : Hasher} (e : Env) (c : Keys) : ST Db Frame :=
  matched ← keys e (pattern c); mret (Array (map Bulk matched)).
End CmdKeys.

(** ** [cmd/scan.rs] *)
Module CmdScan.
Record Scan := mkScanCmd { cursor : Z; pattern : option bytes; count : Z; type_filter : option bytes }.

Definition INVALID_CURSOR : bytes := bs "ERR invalid cursor".

Section parse.
Context `{UnicodeCase}.

Definition parse_cursor (f : Frame) : parsed Z :=
  s ← match f with
      | Integer i => if i <? 0 then Err (Msg INVALID_CURSOR) else Ok (show_i64 i)
      | _ => string_arg INVALID_CURSOR INVALID_CURSOR f
      end;
  parsed_or INVALID_CURSOR (parse_u64 s).

Definition parse_count (f : Frame) : parsed Z :=
  match f with
  | Integer i => if i <=? 0 then Err (Msg NOT_INTEGER) else Ok (wrap_u64 i)
  | _ => s ← string_arg NOT_INTEGER NOT_INTEGER f; parsed_or NOT_INTEGER (parse_usize s)
  end.

(** The loop over the options. *)
Fixpoint parse_options (args : list Frame) (c : Scan) : parsed Scan :=
  match args with
  | [] => Ok c
  | frame :: rest =>
    opt ← string_arg SYNTAX SYNTAX frame;
    let opt := to_uppercase opt in
    if bool_decide (opt = bs "MATCH") then
      match rest with
      | [] => Err (Msg SYNTAX)
      | pat_frame :: rest =>
        '(pat, _) ← next_bytes SYNTAX [pat_frame];
        parse_options rest (mkScanCmd (cursor c) (Some pat) (count c) (type_filter c))
      end
    else if bool_decide (opt = bs "COUNT") then
      match rest with
      | [] => Err (Msg SYNTAX)
      | count_frame :: rest =>
        n ← parse_count count_frame;
        parse_options rest (mkScanCmd (cursor c) (pattern c) n (type_filter c))
      end
    else if bool_decide (opt = bs "TYPE") then
      match rest with
      | [] => Err (Msg SYNTAX)
      | type_frame :: rest =>
        t ← string_arg SYNTAX SYNTAX type_frame;
        parse_options rest (mkScanCmd (cursor c) (pattern c) (count c) (Some t))
      end
    else Err (Msg SYNTAX)
  end.

Definition parse_frames (args : list Frame) : parsed Scan :=
  '(cursor_frame, args) ← next_frame (wrong_args "scan") args;
  cursor ← parse_cursor cursor_frame;
  parse_options args (mkScanCmd cursor None 10 None).
End parse.

Definition apply {Hh : Hasher} (e : Env) (c : Scan) : ST Db Frame :=
  r ← scan e (cursor c) (pattern c) (count c) (type_filter c);
  mret (Array [Bulk (show_uint r.1); Array (map Bulk r.2)]).
End CmdScan.
