(* ===== verification/Command.v ===== *)
(** * Dispatch: [src/src/cmd/mod.rs]

    The [Command] enum, its parsing from a frame, its execution, and the refinement of the
    abstract keyspace by every command. *)
From S2P Require Import Prelude.
From S2P Require Import RustStd.
From S2P Require Import Frame.
From S2P Require Import Metrics.
From S2P Require Import Glob.
From S2P Require Import Store.
From S2P Require Import Keyspace.
From S2P Require Import DbList.
From S2P Require Import DbHash.
From S2P Require Import DbSet.
From S2P Require Import Evict.
From S2P Require Import DbKeys.
From S2P Require Import Scan.
From S2P Require Import PubSub.
From S2P Require Import Cmd.

Inductive Command :=
  | Ping (c : CmdPing.Ping)
  | Echo (c : CmdEcho.Echo)
  | Get (c : CmdGet.Get)
  | Set_ (c : CmdSet.Set_)
  | Del (c : CmdDel.Del)
  | Expire (c : CmdExpire.Expire)
  | Ttl (c : CmdTtl.Ttl)
  | List (c : CmdList.ListCmd)
  | Hash (c : CmdHash.HashCmd)
  | SetCmd (c : CmdSets.SetCmd)
  | PubSubC (c : CmdPubSub.PubSubCmd)
  | Keys (c : CmdKeys.Keys)
  | Scan (c : CmdScan.Scan)
  | CommandC
  | Info
  | Client.

(** The derived [Debug] of a frame, which prints its [Bytes] by that library's own. *)
Class FrameDebug := debug_frame : Frame -> bytes.

Section parse.
Context `{UnicodeCase} `{FrameDebug}.

(** The name of a command, from its first frame. *)
Definition command_name (f : Frame) : parsed bytes :=
  match f with
  | Bulk b => utf8_or (bs "protocol error; invalid command name") b
  | Simple s => Ok s
  | _ => fail "protocol error; command name must be a string"
  end.

(** The [match] on the upper-case name. *)
Definition dispatch (now : Z) (name : bytes) (args : list Frame) : parsed Command :=
  let named (s : String.string) := bool_decide (name = bs s) in
  if named "PING" then Ping <$> CmdPing.parse_frames args
  else if named "ECHO" then Echo <$> CmdEcho.parse_frames args
  else if named "GET" then Get <$> CmdGet.parse_frames args
  else if named "SET" then Set_ <$> CmdSet.parse_frames now args
  else if named "DEL" then Del <$> CmdDel.parse_frames args
  else if named "EXPIRE" then Expire <$> CmdExpire.parse_expire args
  else if named "PEXPIRE" then Expire <$> CmdExpire.parse_pexpire args
  else if named "TTL" then Ttl <$> CmdTtl.parse_frames args false
  else if named "PTTL" then Ttl <$> CmdTtl.parse_frames args true
  else if named "LPUSH" then List <$> CmdList.parse_lpush args
  else if named "RPUSH" then List <$> CmdList.parse_rpush args
  else if named "LPOP" then List <$> CmdList.parse_lpop args
  else if named "RPOP" then List <$> CmdList.parse_rpop args
  else if named "LRANGE" then List <$> CmdList.parse_lrange args
  else if named "HSET" then Hash <$> CmdHash.parse_hset args
  else if named "HGET" then Hash <$> CmdHash.parse_hget args
  else if named "HDEL" then Hash <$> CmdHash.parse_hdel args
  else if named "HGETALL" then Hash <$> CmdHash.parse_hgetall args
  else if named "SADD" then SetCmd <$> CmdSets.parse_sadd args
  else if named "SMEMBERS" then SetCmd <$> CmdSets.parse_smembers args
  else if named "SREM" then SetCmd <$> CmdSets.parse_srem args
  else if named "SISMEMBER" then SetCmd <$> CmdSets.parse_sismember args
  else if named "PUBLISH" then PubSubC <$> CmdPubSub.parse_publish args
  else if named "SUBSCRIBE" then PubSubC <$> CmdPubSub.parse_subscribe args
  else if named "KEYS" then Keys <$> CmdKeys.parse_frames args
  else if named "SCAN" then Scan <$> CmdScan.parse_frames args
  else if named "COMMAND" then Ok CommandC
  else if named "INFO" then Ok Info
  else if named "CLIENT" then Ok Client
  else Err (Msg (bs "ERR unknown command '" ++ name ++ bs "'")).

(** [Command::from_frame], at time [now]. *)
Definition from_frame (now : Z) (frame : Frame) : parsed Command :=
  match frame with
  | Array frames =>
    match frames with
    | [] => fail "protocol error; empty command array"
    | cmd_frame :: args =>
      cmd_name ← command_name cmd_frame;
      dispatch now (to_uppercase cmd_name) args
    end
  | f => Err (Msg (bs "protocol error; expected array, got " ++ debug_frame f))
  end.
End parse.

(** [Command::is_write] *)
Definition is_write (c : Command) : bool :=
  match c with
  | Set_ _ | Del _ | Expire _ => true
  | List (CmdList.Lpush _ _) | List (CmdList.Rpush _ _) => true
  | List (CmdList.Lpop _) | List (CmdList.Rpop _) => true
  | Hash (CmdHash.Hset _ _) | Hash (CmdHash.Hdel _ _) => true
  | SetCmd (CmdSets.Sadd _ _) | SetCmd (CmdSets.Srem _ _) => true
  | _ => false
  end.

Section apply.
Context {Hh : Hasher}.

(** [Command::apply] *)
Definition apply (e : Env) (c : Command) : ST Db Frame :=
  match c with
  | Ping ping => mret (CmdPing.apply ping)
  | Echo echo => mret (CmdEcho.apply echo)
  | Get get => CmdGet.apply e get
  | Set_ set => CmdSet.apply e set
  | Del del => CmdDel.apply del
  | Expire expire => CmdExpire.apply e expire
  | Ttl ttl => CmdTtl.apply e ttl
  | List list => CmdList.apply e list
  | Hash hash => CmdHash.apply e hash
  | SetCmd set_cmd => CmdSets.apply e set_cmd
  | PubSubC _ => mret (Error (bs "ERR pubsub executed in wrong context"))
  | Keys keys => CmdKeys.apply e keys
  | Scan scan => CmdScan.apply e scan
  | CommandC => mret (Array [])
  | Info =>
    n ← len_db;
    db ← get_state;
    mret (Bulk (format_redis_info (clock e 0) (current_memory db) n (maxmemory db) (metrics db)))
  | Client => mret (Simple (bs "OK"))
  end.

(** [Command::apply_with_pubsub], on the store and the hub. *)
Definition apply_with_pubsub `{Broadcast} (e : Env) (c : Command) : ST (Db * PubSub) Frame :=
  fun '(db, p) =>
    match c with
    | PubSubC pubsub_cmd => let '(f, p') := CmdPubSub.apply_publish pubsub_cmd p in Done f (db, p')
    | other =>
      match apply e other db with
      | Done f db' => Done f (db', p)
      | Panic db' => Panic (db', p)
      end
    end.
End apply.

(** ** The abstract specification of a command *)

(** What a command makes of the live keyspace at time [now]. *)
Definition spec_next (now : Z) (c : Command) (k : keyspace) : keyspace :=
  match c with
  | Set_ s => spec_set now (CmdSet.key s) (CmdSet.value s) (CmdSet.expires_at s) k
  | Del d => spec_del (CmdDel.keys d) k
  | Expire x =>
    match instant_add now (CmdExpire.duration x) with
    | Some d => (spec_expire now (CmdExpire.key x) d k).2
    | None => k
    end
  | List (CmdList.Lpush key els) => (spec_lpush key els k).2
  | List (CmdList.Rpush key els) => (spec_rpush key els k).2
  | List (CmdList.Lpop key) => (spec_lpop key k).2
  | List (CmdList.Rpop key) => (spec_rpop key k).2
  | Hash (CmdHash.Hset key fields) => (spec_hset key fields k).2
  | Hash (CmdHash.Hdel key fields) => (spec_hdel key fields k).2
  | SetCmd (CmdSets.Sadd key ms) => (spec_sadd key ms k).2
  | SetCmd (CmdSets.Srem key ms) => (spec_srem key ms k).2
  | _ => k
  end.

(** What it replies, when that depends on the live keyspace at one moment alone. *)
Definition keyspace_reply (now : Z) (c : Command) (k : keyspace) (f : Frame) : Prop :=
  match c with
  | Ping p => f = CmdPing.apply p
  | Echo p => f = CmdEcho.apply p
  | Get g => f = reply_value (spec_get (CmdGet.key g) k)
  | Set_ _ | Client => f = Simple (bs "OK")
  | Expire x => f = Integer (match k !! CmdExpire.key x with Some _ => 1 | None => 0 end)
  | Ttl t =>
    f = Integer (as_i64 (spec_ttl (if CmdTtl.millis t then 1000000 else NANOS) now (CmdTtl.key t) k))
  | List (CmdList.Lpush key els) => f = reply_count (spec_lpush key els k).1
  | List (CmdList.Rpush key els) => f = reply_count (spec_rpush key els k).1
  | List (CmdList.Lpop key) => f = reply_value (spec_lpop key k).1
  | List (CmdList.Rpop key) => f = reply_value (spec_rpop key k).1
  | List (CmdList.Lrange key start stop) => f = reply_list (spec_lrange key start stop k)
  | Hash (CmdHash.Hset key fields) => f = reply_count (spec_hset key fields k).1
  | Hash (CmdHash.Hget key field) => f = reply_value (spec_hget key field k)
  | Hash (CmdHash.Hdel key fields) => f = reply_count (spec_hdel key fields k).1
  | Hash (CmdHash.Hgetall key) => exists r, spec_hgetall key k r /\ f = CmdHash.reply_pairs r
  | SetCmd (CmdSets.Sadd key ms) => f = reply_count (spec_sadd key ms k).1
  | SetCmd (CmdSets.Srem key ms) => f = reply_count (spec_srem key ms k).1
  | SetCmd (CmdSets.Smembers key) => exists r, spec_smembers key k r /\ f = reply_list r
  | SetCmd (CmdSets.Sismember key m) => f = reply_bool (spec_sismember key m k)
  | PubSubC _ => f = Error (bs "ERR pubsub executed in wrong context")
  | Keys q => exists r, spec_keys (fun key => glob_match (CmdKeys.pattern q) key = true) k r
      /\ f = Array (map Bulk r)
  | CommandC => f = Array []
  | Del _ | Scan _ | Info => False
  end.

(** The commands that do not panic: the new deadline of an EXPIRE is in the clock's range. A
    cursor and a count are unsigned. *)
Definition command_ok (now : Z) (c : Command) : Prop :=
  match c with
  | Expire x => is_Some (instant_add now (CmdExpire.duration x))
  | Scan q => 0 <= CmdScan.cursor q /\ 0 <= CmdScan.count q
  | _ => True
  end.

Definition is_pubsub (c : Command) : bool := match c with PubSubC _ => true | _ => false end.

Definition is_set (c : Command) : bool := match c with Set_ _ => true | _ => false end.

(** The bytes a command leaves out of the memory counter: those of a key it creates empty. *)
Definition command_cost (c : Command) (k : keyspace) : Z :=
  match c with
  | List (CmdList.Lpush key _) | List (CmdList.Rpush key _) | Hash (CmdHash.Hset key _)
  | SetCmd (CmdSets.Sadd key _) => creation_cost key k
  | _ => 0
  end.

Section refinement.
Context {Hh : Hasher}.

(** What a command replies on the store [s] with the shards [sh]. DEL counts the entries it
    removes, those that expired and were not evicted yet included. SCAN replies as the walk
    through the shards says, and keys that are alive and match only. INFO prints the state of
    the store. *)
Definition spec_reply (e : Env) (c : Command) (s : Flat) (sh : list entries) (f : Frame) : Prop :=
  let now := clock e 0 in
  match c with
  | Del d => f = Integer (as_i64 (Z.of_nat (size (filter (fun ke => ke.1 ∈ CmdDel.keys d) (ks s)))))
  | Scan q => exists next r, f = Array [Bulk (show_uint next); Array (map Bulk r)]
      /\ scan_replies e sh (CmdScan.pattern q) (CmdScan.count q) (CmdScan.type_filter q) (CmdScan.cursor q) (next, r)
      /\ forall key, key ∈ r ->
           is_Some (live now (ks s) !! key) /\ pattern_matches (CmdScan.pattern q) key = true
  | Info => f = Bulk (format_redis_info now (mem s) (Z.of_nat (size (ks s))) (cap s) (met s))
  | _ => keyspace_reply now c (live now (ks s)) f
  end.

(** The specification of a command from the flat state [s]; SET may evict ([k1]). *)
Definition acts (e : Env) (s : Flat) (c : Command) (m : ST Db Frame) (db : Db) : Prop :=
  let now := clock e 0 in
  wp m (fun f db' => exists s' k1, models db' s' /\ same_config s s'
    /\ unaccounted s' = wrap_u64 (unaccounted s + command_cost c (live now (ks s)))
    /\ k1 ⊆ live now (ks s) /\ (cap s <= 0 \/ is_set c = false -> k1 = live now (ks s))
    /\ live now (ks s') = spec_next now c k1 /\ spec_reply e c s (shards db) f) db.

Lemma acts_intro e s c m db :
  let now := clock e 0 in
  wp m (fun f db' => exists s', models db' s'
    /\ step_to now s (spec_next now c (live now (ks s))) (command_cost c (live now (ks s))) s'
    /\ spec_reply e c s (shards db) f) db ->
  acts e s c m db.
Proof.
  intros now Hm. eapply wp_mono; [exact Hm|]. cbn beta. intros f db' (s' & ? & (? & ? & ?) & ?).
  exists s', (live now (ks s)). by split_and!.
Qed.

(** An operation that implements its specification, followed by the rendering of its reply. *)
Lemma acts_implements {R} (e : Env) (s : Flat) (c : Command) (spec : keyspace -> R * keyspace) (extra : Z) (m : ST Db R)
    (r : R -> Frame) (db : Db) :
  let now := clock e 0 in
  implements now s spec extra m db ->
  (forall k, (spec k).2 = spec_next now c k) ->
  spec_reply e c s (shards db) (r (spec (live now (ks s))).1) ->
  extra = command_cost c (live now (ks s)) ->
  acts e s c (x ← m; mret (r x)) db.
Proof.
  intros now Hm Hn Hr ->. apply acts_intro, wp_bind. eapply wp_mono; [exact Hm|]. cbn beta.
  intros x db' (s' & Hm' & Hst & ->). apply wp_ret. exists s'. rewrite <- Hn. done.
Qed.

Lemma acts_pure e s c f db :
  models db s -> (forall k, spec_next (clock e 0) c k = k) -> (forall k, command_cost c k = 0) ->
  spec_reply e c s (shards db) f -> acts e s c (mret f) db.
Proof.
  intros Hm Hn H0 Hr. apply acts_intro, wp_ret. exists s. rewrite Hn, H0. split; [done|]. split; [apply step_to_refl|done].
Qed.

(** SET, with the evictions that may come first. *)
Lemma acts_set e c db s :
  models db s -> acts e s (Set_ c) (CmdSet.apply e c) db.
Proof.
  intros Hm. apply wp_bind. eapply wp_mono; [by apply wp_set|]. cbn beta zeta.
  intros _ db' (db1 & s1 & s' & _ & Hm' & (Hc & Hsub & Hu) & Hst & _ & Hid).
  destruct (Hst (clock e 0)) as [(Hc' & Hl & Hu') _]. apply wp_ret.
  exists s', (live (clock e 0) (ks s1)). split; [done|]. split; [by etrans|]. split; [by rewrite Hu', Hu|].
  split; [by apply live_mono|]. split; [|done]. intros [Hcap|]; [|done]. by rewrite Hid by by left.
Qed.

(** What a filter keeps and what it leaves out. *)
Lemma size_filter_split (P : bytes * CacheEntry -> Prop) `{!forall x, Decision (P x)} (m : entries) :
  size m = (size (filter P m) + size (filter (fun x => ~ P x) m))%nat.
Proof.
  rewrite <- map_size_disj_union by apply map_disjoint_filter_complement. by rewrite map_filter_union_complement.
Qed.

Lemma acts_del e c db s : models db s -> acts e s (Del c) (CmdDel.apply c) db.
Proof.
  intros Hm. apply acts_intro, wp_bind. eapply wp_mono; [by apply wp_del_loop|]. cbn beta.
  intros r db' (s' & Hm' & Hc & Hk & Hu & ->). apply wp_ret. exists s'. split; [done|].
  assert (live (clock e 0) (ks s') = spec_del (CmdDel.keys c) (live (clock e 0) (ks s))) as Hl by by rewrite Hk, live_filter.
  split; [split; [done|split; [done|]]; rewrite Hu; symmetry; cbn; rewrite Z.add_0_r; apply wrap_u64_small, unaccounted_range|].
  cbn [spec_reply]. rewrite Hk, (size_filter_split (fun ke => ke.1 ∈ CmdDel.keys c) (ks s)). do 2 f_equal. lia.
Qed.

Lemma acts_expire e c db s :
  models db s -> command_ok (clock e 0) (Expire c) -> acts e s (Expire c) (CmdExpire.apply e c) db.
Proof.
  intros Hm [d Hd].
  apply (acts_implements _ _ _ (spec_expire (clock e 0) (CmdExpire.key c) d) 0 _ (fun b : bool => Integer (if b then 1 else 0))).
  - by apply expire_implements.
  - intros k. cbn. by rewrite Hd.
  - cbn. unfold spec_expire. by destruct (_ !! _) as [[? ?]|].
  - done.
Qed.

Lemma acts_list e c db s : models db s -> acts e s (List c) (CmdList.apply e c) db.
Proof.
  intros Hm. destruct c as [key els|key els|key|key|key start stop]; cbn [CmdList.apply].
  - eapply acts_implements; [by apply lpush_implements|done..].
  - eapply acts_implements; [by apply rpush_implements|done..].
  - eapply acts_implements; [by apply lpop_implements|done..].
  - eapply acts_implements; [by apply rpop_implements|done..].
  - eapply acts_implements; [by apply lrange_implements|done..].
Qed.

Lemma acts_hash e c db s : models db s -> acts e s (Hash c) (CmdHash.apply e c) db.
Proof.
  intros Hm. destruct c as [key fields|key field|key fields|key]; cbn [CmdHash.apply].
  - eapply acts_implements; [by apply hset_implements|done..].
  - eapply acts_implements; [by apply hget_implements|done..].
  - eapply acts_implements; [by apply hdel_implements|done..].
  - apply acts_intro, wp_bind. eapply wp_mono; [by apply hgetall_implements|]. cbn beta.
    intros r db' (s' & Hm' & Hst & Hr). apply wp_ret. exists s'. split; [done|]. split; [done|]. by exists r.
Qed.

Lemma acts_sets e c db s : models db s -> acts e s (SetCmd c) (CmdSets.apply e c) db.
Proof.
  intros Hm. destruct c as [key ms|key|key ms|key m]; cbn [CmdSets.apply].
  - eapply acts_implements; [by apply sadd_implements|done..].
  - apply acts_intro, wp_bind. eapply wp_mono; [by apply smembers_implements|]. cbn beta.
    intros r db' (s' & Hm' & Hst & Hr). apply wp_ret. exists s'. split; [done|]. split; [done|]. by exists r.
  - eapply acts_implements; [by apply srem_implements|done..].
  - eapply acts_implements; [by apply sismember_implements|done..].
Qed.

Lemma acts_ttl e c db s : models db s -> acts e s (Ttl c) (CmdTtl.apply e c) db.
Proof.
  intros Hm. destruct (ttl_implements e (CmdTtl.key c) db s Hm) as [H1 H2]. unfold CmdTtl.apply.
  destruct (CmdTtl.millis c) eqn:Hc; (eapply (acts_implements _ _ _ _ _ _ Integer); [eassumption|done| |done]);
    cbn; by rewrite Hc.
Qed.

Lemma acts_scan e c db s :
  models db s -> command_ok (clock e 0) (Scan c) -> acts e s (Scan c) (CmdScan.apply e c) db.
Proof.
  intros Hm [Hc Hn]. apply acts_intro, wp_bind. eapply wp_mono; [by apply (scan_implements e _ _ _ _ db s)|].
  cbn beta. intros [next r] db' (-> & Hr & Hl). apply wp_ret. exists s. split; [done|]. split; [apply step_to_refl|]. by exists next, r.
Qed.

(** Every command refines its specification. *)
Lemma apply_acts e c db s :
  models db s -> command_ok (clock e 0) c -> acts e s c (apply e c) db.
Proof.
  intros Hm Hok. destruct c as [c|c|c|c|c|c|c|c|c|c|c|c|c| | |]; cbn [apply]; try by apply acts_pure.
  - eapply acts_implements; [by apply get_implements|done..].
  - by apply acts_set.
  - by apply acts_del.
  - by apply acts_expire.
  - by apply acts_ttl.
  - by apply acts_list.
  - by apply acts_hash.
  - by apply acts_sets.
  - apply acts_intro, wp_bind. eapply wp_mono; [by apply keys_implements|]. cbn beta.
    intros r db' [-> Hr]. apply wp_ret. exists s. split; [done|]. split; [apply step_to_refl|]. by exists r.
  - by apply acts_scan.
  - apply acts_intro, wp_bind. eapply wp_mono; [by apply len_implements|]. cbn beta.
    intros n db' [-> ->]. apply wp_bind, wp_get, wp_ret. exists s. split; [done|]. split; [apply step_to_refl|].
    cbn [spec_reply]. by destruct Hm as (_ & _ & -> & -> & -> & _).
Qed.

(** C1: the refinement of the whole store. Executing any command on the sharded store, from
    any well-formed state, never panics (an EXPIRE whose deadline overflows apart), leaves
    the store well formed with the same configuration, and replies and acts exactly as
    the command's specification does on the live keyspace, expired keys counting as
    absent, and moves the memory counter by what the entries take, up to the cost of a key
    created empty. Three replies depend on more than the live keyspace, and are specified on
    the stored entries: DEL counts those it removes, SCAN replies the keys it wants among the
    next entries of its walk with the cursor of the position after them, and INFO prints the
    store's counters. Only SET with a memory limit may drop other keys. *)
Theorem command_refines e c db s :
  models db s -> command_ok (clock e 0) c -> acts e s c (apply e c) db.
Proof. apply apply_acts. Qed.

(** C37: the commands that are not logged ([is_write] is false) leave the live keyspace as it
    is, at the time of the command and at every later one (an EXPIRE whose deadline
    overflows is a write): replaying only the logged ones loses nothing of it. *)
Theorem is_write_sound e c db s t :
  models db s -> command_ok (clock e 0) c -> is_write c = false -> clock e 0 <= t ->
  wp (apply e c) (fun _ db' => exists s', models db' s' /\ live t (ks s') = live t (ks s)) db.
Proof.
  intros Hm Hok Hw Ht. eapply wp_mono; [by apply apply_acts|]. cbn beta.
  intros f db' (s' & k1 & Hm' & _ & _ & _ & Hk1 & Hl & _). exists s'. split; [done|].
  apply (live_later (clock e 0)); [done|]. rewrite Hl, Hk1 by (right; by destruct c).
  destruct c as [| | | | | | |[]|[]|[]| | | | | |]; done.
Qed.
End refinement.

(** Text functions for concrete runs: the case of ASCII strings only, no debug output. *)
Module DemoText.
Definition case : UnicodeCase := {| unicode_upper := fun s => s; unicode_lower := fun s => s |}.
Definition debug : FrameDebug := fun _ => [].
(** The frame of a command line. *)
Definition cmd (words : list String.string) : Frame := Array (map (fun w => Bulk (bs w)) words).
End DemoText.

(** Concrete runs. *)
#[local] Existing Instance Demo.hash.

Lemma command_refines_witness :
  let c := List (CmdList.Lpop (bs "list")) in
  command_ok (clock Demo.env 0) c /\ acts Demo.env (flat Demo.db) c (apply Demo.env c) Demo.db.
Proof. split; [exact I|]. apply (command_refines Demo.env (List (CmdList.Lpop (bs "list"))) _ _ Demo.ok I). Defined.

Lemma is_write_sound_witness :
  wp (apply Demo.env (Get (CmdGet.mkGet (bs "old"))))
    (fun _ db' => exists s', models db' s' /\ live (6 * NANOS) (ks s') = live (6 * NANOS) (view Demo.db)) Demo.db.
Proof.
  apply (is_write_sound Demo.env (Get (CmdGet.mkGet (bs "old"))) _ _ (6 * NANOS) Demo.ok I eq_refl).
  vm_compute. discriminate.
Defined.

(** The name of an unknown command is echoed into a one-line error frame: a name with a line
    break makes a reply that a client cannot read back as one frame. *)
Lemma unknown_command_breaks_framing `{FrameDebug} :
  let uc := {| unicode_upper := fun s => s; unicode_lower := fun s => s |} in
  match @from_frame uc _ 0 (Array [Bulk (bs "A" ++ CRLF ++ bs "+OK")]) with
  | Err (Msg m) => frame_ok (Error m) = false
      /\ parse (cursor_of (encode (Error m)))
         = Ok (Error (bs "ERR unknown command 'A"), mkCursor 25 (bs "+OK'" ++ CRLF))
  | _ => False
  end.
Proof. vm_compute. split; reflexivity. Qed.
