(* ===== verification/Sections.v ===== *)
(** * Operations as sequences of lock sections

    An operation of [src/src/db.rs] that takes more than one lock is a program whose steps
    are the sections between locks: other connections run between them. A section is atomic:
    the shard's lock excludes the others from its map, and the counters are atomics that are
    only added to, which commutes. Run alone, the programs are the operations of the other
    files. *)
From S2P Require Import Prelude.
From S2P Require Import RustStd.
From S2P Require Import Metrics.
From S2P Require Import Frame.
From S2P Require Import Glob.
From S2P Require Import Store.
From S2P Require Import Keyspace.
From S2P Require Import DbList.
From S2P Require Import DbHash.
From S2P Require Import DbSet.
From S2P Require Import Evict.
From S2P Require Import DbKeys.
From S2P Require Import Scan.
From S2P Require Import Cmd.
From S2P Require Import Command.

(** ** Programs *)

(** A result; a section and what follows it; or the end of the fuel, where the program
    stays (a run of finitely many steps cannot tell a large fuel from none). *)
Inductive Prog (A : Type) : Type :=
  | PRet (a : A)
  | PStep (section : Db -> Outcome Db (Prog A))
  | POut.
Arguments PRet {A} a.
Arguments PStep {A} section.
Arguments POut {A}.

Fixpoint prog_bind {A B} (f : A -> Prog B) (p : Prog A) : Prog B :=
  match p with
  | PRet a => f a
  | PStep m => PStep (fun db => match m db with Done p' db' => Done (prog_bind f p') db' | Panic db' => Panic db' end)
  | POut => POut
  end.

#[export] Instance Prog_ret : MRet Prog := fun A a => PRet a.
#[export] Instance Prog_bind : MBind Prog := fun A B f p => prog_bind f p.

(** One section. *)
Definition section {A} (m : ST Db A) : Prog A :=
  PStep (fun db => match m db with Done a db' => Done (PRet a) db' | Panic db' => Panic db' end).

(** The program without interference. *)
Fixpoint run_alone {A} (p : Prog A) : ST Db A :=
  match p with
  | PRet a => mret a
  | PStep m => fun db => match m db with Done p' db' => run_alone p' db' | Panic db' => Panic db' end
  | POut => panic
  end.

Section programs.
Context {Hh : Hasher}.

(** ** The operations of several sections *)

(** [Db::get]: the read phase, and the write phase when the entry was expired. *)
Definition get_prog (e : Env) (key : bytes) : Prog (Result bytes (option bytes)) :=
  let now := clock e 0 in
  r ← section (idx ← locate key; r ← get_read e idx key now; mret (idx, r));
  match r.2 with
  | Some reply => mret reply
  | None => section (get_write e r.1 key now)
  end.

(** [Db::evict_lru_step]: each sample is read under a lock of its own. *)
Definition sample_one (e : Env) (i : nat) (oldest_key : option (nat * bytes)) (oldest_time : Z)
    : ST Db (option (nat * bytes) * Z * nat) :=
  db ← get_state;
  shard_idx ← draw_below e i (num_shards db);
  entries ← read_shard shard_idx;
  if bool_decide (entries = ∅) then mret (oldest_key, oldest_time, S i)
  else
    let keys := order e i (dom entries) in
    rand_idx ← draw_below e (S i) (length keys);
    candidate_key ← index_key keys rand_idx;
    match entries !! candidate_key with
    | Some entry =>
      let accessed := last_accessed entry in
      if accessed <? oldest_time
      then mret (Some (shard_idx, candidate_key), accessed, S (S i))
      else mret (oldest_key, oldest_time, S (S i))
    | None => mret (oldest_key, oldest_time, S (S i))
    end.

Fixpoint sample_prog (e : Env) (n i : nat) (oldest_key : option (nat * bytes)) (oldest_time : Z)
    : Prog (option (nat * bytes) * nat) :=
  match n with
  | O => mret (oldest_key, i)
  | S n' => r ← section (sample_one e i oldest_key oldest_time); sample_prog e n' r.2 r.1.1 r.1.2
  end.

(** The removal of the chosen key, if it is still there. *)
Definition evict_key (shard_idx : nat) (key_to_evict : bytes) (i : nat) : ST Db (bool * nat) :=
  o ← entries_get shard_idx key_to_evict;
  match o with
  | Some entry =>
    entries_remove shard_idx key_to_evict ;;
    sub_memory (size_bytes entry key_to_evict) ;;
    metric (record_eviction 1) ;;
    mret (true, i)
  | None => mret (false, i)
  end.

Definition evict_prog (e : Env) (sample_size i : nat) : Prog (bool * nat) :=
  r ← sample_prog e sample_size i None u64_max;
  match r.1 with
  | Some (shard_idx, key_to_evict) => section (evict_key shard_idx key_to_evict r.2)
  | None => mret (false, r.2)
  end.

(** [Db::ensure_capacity]: the counter is loaded before every eviction. The fuel bounds the
    evictions of this call. *)
Fixpoint capacity_loop_prog (e : Env) (needed_bytes : Z) (fuel i : nat) : Prog unit :=
  match fuel with
  | O => POut
  | S fuel' =>
    over ← section (db ← get_state; mret (maxmemory db <? wrap_u64 (current_memory db + needed_bytes)));
    if over : bool then
      r ← evict_prog e DEFAULT_LRU_SAMPLE_SIZE i;
      if negb r.1 then mret tt else capacity_loop_prog e needed_bytes fuel' r.2
    else mret tt
  end.

Definition capacity_prog (fuel : nat) (e : Env) (needed_bytes : Z) (i : nat) : Prog unit :=
  limited ← section (db ← get_state; mret (0 <? maxmemory db));
  if limited : bool then capacity_loop_prog e needed_bytes fuel i else mret tt.

(** [Db::set]: room is made first, then the entry is stored under its shard's lock. *)
Definition set_store (key : bytes) (new_entry : CacheEntry) : ST Db unit :=
  let new_size := size_bytes new_entry key in
  idx ← locate key;
  o ← entries_get idx key;
  entries_insert idx key new_entry ;;
  match o with
  | Some old_entry =>
    let old_size := size_bytes old_entry key in
    if old_size <? new_size then add_memory (new_size - old_size) else sub_memory (old_size - new_size)
  | None => add_memory new_size
  end.

Definition set_prog (fuel : nat) (e : Env) (key value : bytes) (expires_at : option Z) : Prog unit :=
  now_m ← section (now_millis e 0);
  let new_entry := CacheEntry_new (DString value) expires_at now_m in
  capacity_prog fuel e (size_bytes new_entry key) 0 ;;
  section (set_store key new_entry).

(** [Db::del]: a lock for each key. *)
Definition del_key (key : bytes) : ST Db Z :=
  idx ← locate key;
  o ← entries_get idx key;
  match o with
  | Some entry => entries_remove idx key ;; sub_memory (size_bytes entry key) ;; mret 1
  | None => mret 0
  end.

Fixpoint del_prog (keys : list bytes) (removed : Z) : Prog Z :=
  match keys with
  | [] => mret removed
  | key :: rest => n ← section (del_key key); del_prog rest (removed + n)
  end.

(** [Db::keys], [Db::len]: a lock for each of the [n] shards from the [i]-th on. *)
Fixpoint keys_prog (e : Env) (n i : nat) (now : Z) (match_all : bool) (pattern : bytes) (result : list bytes)
    : Prog (list bytes) :=
  match n with
  | O => mret result
  | S n' =>
    l ← section (m ← read_shard i; mret (shard_keys e i now match_all pattern m));
    keys_prog e n' (S i) now match_all pattern (result ++ l)
  end.

Fixpoint len_prog (n i : nat) (total : Z) : Prog Z :=
  match n with
  | O => mret total
  | S n' => k ← section (m ← read_shard i; mret (Z.of_nat (size m))); len_prog n' (S i) (total + k)
  end.

(** [Db::purge_expired_step]: the sample is taken under the read lock, the expired keys are
    removed under the write lock. *)
Definition purge_prog (e : Env) (sample_size : nat) : Prog (Z * Z) :=
  let now := clock e 0 in
  r ← section (
    db ← get_state;
    random_shard_idx ← draw_below e 0 (num_shards db);
    entries ← read_shard random_shard_idx;
    if bool_decide (entries = ∅) then mret None
    else
      let keys := order e 0 (dom entries) in
      let n := (length keys `min` sample_size)%nat in
      expired_keys ← purge_sample e entries keys now n 1 [];
      mret (Some (random_shard_idx, n, expired_keys)));
  match r with
  | None => mret (0, 0)
  | Some (random_shard_idx, n, expired_keys) =>
    (if bool_decide (expired_keys = []) then mret tt
     else section (
       actually_removed ← purge_remove random_shard_idx now expired_keys 0;
       if 0 <? actually_removed then metric (record_expiration actually_removed) else mret tt)) ;;
    mret (Z.of_nat n, len expired_keys)
  end.

(** [Db::scan]: a lock for each shard it visits. *)
Fixpoint scan_prog (fuel : nat) (e : Env) (a : ScanArgs) (num_shards shard_idx : nat)
    (offset scanned : Z) (matched : list bytes) : Prog (nat * Z * list bytes) :=
  match fuel with
  | O => POut
  | S fuel' =>
    if (shard_idx <? num_shards)%nat && (scanned <? scan_target a) then
      r ← section (
        entries ← read_shard shard_idx;
        let total := Z.of_nat (size entries) in
        mret (if total <=? offset then (true, 0, scanned, matched)
              else
                let '(offset, scanned, matched) :=
                  scan_entries a (drop (Z.to_nat offset) (shard_iter e shard_idx entries)) offset scanned matched in
                if total <=? offset then (true, 0, scanned, matched) else (false, offset, scanned, matched)));
      let '(next, offset, scanned, matched) := r in
      scan_prog fuel' e a num_shards (if next : bool then S shard_idx else shard_idx) offset scanned matched
    else mret (shard_idx, offset, matched)
  end.

(** ** Commands *)

Definition shard_count : Prog nat := section (db ← get_state; mret (length (shards db))).

(** [Command::apply]: the operations of one lock are one section. *)
Definition command_prog (fuel : nat) (e : Env) (c : Command) : Prog Frame :=
  match c with
  | Get g => r ← get_prog e (CmdGet.key g); mret (reply_value r)
  | Set_ s => set_prog fuel e (CmdSet.key s) (CmdSet.value s) (CmdSet.expires_at s) ;; mret (Simple (bs "OK"))
  | Del d => n ← del_prog (CmdDel.keys d) 0; mret (Integer (as_i64 n))
  | Keys q =>
    n ← shard_count;
    r ← keys_prog e n 0 (clock e 0) (bool_decide (CmdKeys.pattern q = bs "*")) (CmdKeys.pattern q) [];
    mret (Array (map Bulk r))
  | Scan q =>
    n ← shard_count;
    let shard_idx := Z.shiftr (CmdScan.cursor q) 32 in
    let offset := Z.land (CmdScan.cursor q) 4294967295 in
    r ← (if Z.of_nat n <=? shard_idx then mret (0, [])
         else
           let target_scan := if CmdScan.count q =? 0 then 10 else CmdScan.count q in
           r ← scan_prog (S (S n)) e (mkScan (clock e 0) (CmdScan.pattern q) target_scan (CmdScan.type_filter q))
                 n (Z.to_nat shard_idx) offset 0 [];
           let '(shard_idx, offset, matched) := r in
           mret (if (n <=? shard_idx)%nat then 0 else Z.lor (wrap_u64 (Z.shiftl (Z.of_nat shard_idx) 32)) offset,
                 matched));
    mret (Array [Bulk (show_uint r.1); Array (map Bulk r.2)])
  | Info =>
    n ← shard_count;
    k ← len_prog n 0 0;
    section (db ← get_state;
      mret (Bulk (format_redis_info (clock e 0) (current_memory db) k (maxmemory db) (metrics db))))
  | _ => section (apply e c)
  end.
End programs.

(** ** Alone, the programs are the operations *)

Section prog_ind.
Context {A : Type} (P : Prog A -> Prop).
Context (Hret : forall a, P (PRet a)) (Hout : P POut).
Context (Hstep : forall m, (forall db p db', m db = Done p db' -> P p) -> P (PStep m)).

Definition outcome_all (o : Outcome Db (Prog A)) : Prop := match o with Done p _ => P p | Panic _ => True end.

Fixpoint Prog_nested_ind (p : Prog A) : P p :=
  match p with
  | PRet a => Hret a
  | POut => Hout
  | PStep m => Hstep m (fun db p' db' (E : m db = Done p' db') =>
      match E in _ = o return outcome_all o with
      | eq_refl => match m db as o return outcome_all o with Done p'' _ => Prog_nested_ind p'' | Panic _ => I end
      end)
  end.
End prog_ind.

Lemma run_bind {A B} (p : Prog A) (f : A -> Prog B) db :
  run_alone (p ≫= f) db = (run_alone p ≫= fun a => run_alone (f a)) db.
Proof.
  revert db. induction p as [a| |m IH] using Prog_nested_ind; intros db; [done..|]. cbn.
  unfold mbind, ST_bind. cbn. destruct (m db) as [p' db'|db'] eqn:E; [|done]. exact (IH _ _ _ E db').
Qed.

Lemma run_section {A} (m : ST Db A) db : run_alone (section m) db = m db.
Proof. unfold section. cbn. by destruct (m db). Qed.

Lemma ST_bind_ext {A B} (m m' : ST Db A) (f f' : A -> ST Db B) db :
  m db = m' db -> (forall a db', f a db' = f' a db') -> (m ≫= f) db = (m' ≫= f') db.
Proof. intros Hm Hf. unfold mbind, ST_bind. rewrite Hm. by destruct (m' db). Qed.

Lemma ST_bind_assoc {A B C} (m : ST Db A) (f : A -> ST Db B) (g : B -> ST Db C) (db : Db) :
  ((m ≫= f) ≫= g) db = (m ≫= fun a => f a ≫= g) db.
Proof. unfold mbind, ST_bind. by destruct (m db). Qed.

Lemma ST_get_bind {A} (f : Db -> ST Db A) db : (get_state ≫= f) db = f db db.
Proof. done. Qed.
Lemma ST_ret_bind {A B} (a : A) (f : A -> ST Db B) db : (mret a ≫= f) db = f a db.
Proof. done. Qed.

Lemma ST_now_bind {A} e i (f : Z -> ST Db A) db :
  (now_millis e i ≫= f) db = f (wrap_u64 (as_millis (duration_since (clock e i) (start_time db)))) db.
Proof. done. Qed.

Lemma run_section_bind {A B} (m : ST Db A) (f : A -> Prog B) db :
  run_alone (section m ≫= f) db = (m ≫= fun a => run_alone (f a)) db.
Proof. rewrite run_bind. apply ST_bind_ext; [apply run_section|done]. Qed.

Section alone.
Context {Hh : Hasher}.

Lemma get_alone e key db : run_alone (get_prog e key) db = get e key db.
Proof.
  unfold get_prog, get. rewrite run_section_bind, ST_bind_assoc. apply ST_bind_ext; [done|]. intros idx db1.
  rewrite ST_bind_assoc. apply ST_bind_ext; [done|]. intros [r|] db2; [done|]. exact (run_section _ _).
Qed.

Lemma sample_alone e n : forall i k t db, run_alone (sample_prog e n i k t) db = sample_loop e n i k t db.
Proof.
  induction n as [|n IH]; intros i k t db; [done|]. cbn [sample_prog sample_loop]. rewrite run_section_bind.
  unfold sample_one. rewrite ST_bind_assoc. apply ST_bind_ext; [done|]. intros db0 db1.
  rewrite ST_bind_assoc. apply ST_bind_ext; [done|]. intros idx db2.
  rewrite ST_bind_assoc. apply ST_bind_ext; [done|]. intros m db3. case_bool_decide; [exact (IH _ _ _ _)|].
  rewrite ST_bind_assoc. apply ST_bind_ext; [done|]. intros r db4.
  rewrite ST_bind_assoc. apply ST_bind_ext; [done|]. intros ck db5.
  destruct (m !! ck) as [ent|]; [|exact (IH _ _ _ _)]. destruct (_ <? _); exact (IH _ _ _ _).
Qed.

Lemma evict_alone e n i db : run_alone (evict_prog e n i) db = evict_lru_step e n i db.
Proof.
  unfold evict_prog, evict_lru_step. rewrite run_bind. apply ST_bind_ext; [apply sample_alone|].
  intros [[[idx k]|] j] db'; [exact (run_section _ _)|done].
Qed.

(** The fuel of the program is that of the loop: on a well-formed store neither ends. *)
Lemma capacity_loop_alone e needed fuel : forall i db s, models db s -> (size (ks s) < fuel)%nat ->
  run_alone (capacity_loop_prog e needed fuel i) db = ensure_capacity_loop e needed fuel i db.
Proof.
  induction fuel as [|fuel IH]; intros i db s Hm Hf; [lia|]. cbn [capacity_loop_prog ensure_capacity_loop].
  rewrite run_section_bind, ST_bind_assoc, !ST_get_bind, ST_ret_bind.
  destruct (maxmemory db <? wrap_u64 (current_memory db + needed)); [|done].
  rewrite run_bind. unfold mbind, ST_bind. rewrite evict_alone.
  pose proof (evict_step_spec e DEFAULT_LRU_SAMPLE_SIZE i db s Hm) as Hw. unfold wp in Hw. cbn zeta in Hw.
  destruct (evict_lru_step e DEFAULT_LRU_SAMPLE_SIZE i db) as [[[] j] db'|]; [|done|done]. cbn [fst snd negb].
  destruct Hw as (idx & k & ent & _ & _ & Hk & Hm').
  apply (IH j db' _ Hm'). cbn [after_eviction drop_entry ks set_met set_mem set_ks].
  change (size (delete k (ks s)) < fuel)%nat. rewrite map_size_delete, Hk. cbn.
  assert (size (ks s) <> 0%nat) by (intros E%map_size_empty_inv; rewrite E in Hk; by rewrite lookup_empty in Hk). lia.
Qed.

Lemma set_alone e key value x db s : models db s ->
  run_alone (set_prog (S (total_entries db)) e key value x) db = set e key value x db.
Proof.
  intros Hm. unfold set_prog, set. rewrite run_section_bind, !ST_now_bind.
  set (new := CacheEntry_new _ _ _). rewrite run_bind. apply ST_bind_ext; [|intros; apply run_section].
  unfold capacity_prog, ensure_capacity. rewrite run_section_bind, ST_bind_assoc, !ST_get_bind, ST_ret_bind.
  destruct (0 <? maxmemory db); [|done]. apply (capacity_loop_alone _ _ _ _ _ s Hm).
  rewrite (total_entries_size _ _ Hm). lia.
Qed.

Lemma del_alone keys : forall n db, run_alone (del_prog keys n) db = del_loop keys n db.
Proof.
  induction keys as [|key rest IH]; intros n db; [done|]. cbn [del_prog del_loop]. rewrite run_section_bind.
  unfold del_key. rewrite ST_bind_assoc. apply ST_bind_ext; [done|]. intros idx db1.
  rewrite ST_bind_assoc. apply ST_bind_ext; [done|]. intros [ent|] db2.
  - rewrite ST_bind_assoc. apply ST_bind_ext; [done|]. intros _ db3. rewrite ST_bind_assoc.
    apply ST_bind_ext; [done|]. intros _ db4. rewrite ST_ret_bind. apply IH.
  - rewrite ST_ret_bind, IH. by rewrite Z.add_0_r.
Qed.

Lemma read_shard_bind {A} (i : nat) (f : entries -> ST Db A) (db : Db) (m : entries) : shards db !! i = Some m ->
  (read_shard i ≫= f) db = f m db.
Proof. intros Hi. unfold mbind, ST_bind, read_shard. by rewrite Hi. Qed.

Lemma keys_alone e now all p n : forall i r db, (i + n = length (shards db))%nat ->
  run_alone (keys_prog e n i now all p r) db = Done (keys_loop e i now all p (drop i (shards db)) r) db.
Proof.
  induction n as [|n IH]; intros i r db Hi.
  { cbn. rewrite drop_ge by lia. done. }
  destruct (lookup_lt_is_Some_2 (shards db) i ltac:(lia)) as [m Hm]. cbn [keys_prog].
  rewrite run_section_bind, ST_bind_assoc, (read_shard_bind _ _ _ _ Hm), ST_ret_bind, (drop_S _ _ _ Hm).
  apply IH. lia.
Qed.

Lemma len_alone n : forall i t db, (i + n = length (shards db))%nat ->
  run_alone (len_prog n i t) db = Done (fold_left (fun total m => total + Z.of_nat (size m)) (drop i (shards db)) t) db.
Proof.
  induction n as [|n IH]; intros i t db Hi.
  { cbn. rewrite drop_ge by lia. done. }
  destruct (lookup_lt_is_Some_2 (shards db) i ltac:(lia)) as [m Hm]. cbn [len_prog].
  rewrite run_section_bind, ST_bind_assoc, (read_shard_bind _ _ _ _ Hm), ST_ret_bind, (drop_S _ _ _ Hm).
  apply IH. lia.
Qed.

Lemma scan_alone e a fuel : forall i off sc mt db,
  run_alone (scan_prog fuel e a (length (shards db)) i off sc mt) db =
  match scan_loop fuel e a (shards db) i off sc mt with Some r => Done r db | None => Panic db end.
Proof.
  induction fuel as [|fuel IH]; intros i off sc mt db; [done|]. cbn [scan_prog scan_loop].
  destruct ((i <? length (shards db))%nat && (sc <? scan_target a)) eqn:E; [|done].
  apply andb_true_iff in E as [Hi%Nat.ltb_lt _]. destruct (lookup_lt_is_Some_2 (shards db) i Hi) as [m Hm].
  rewrite run_section_bind, ST_bind_assoc, (read_shard_bind _ _ _ _ Hm), Hm, ST_ret_bind. change (default ∅ (Some m)) with m.
  destruct (Z.of_nat (size m) <=? off); [apply IH|].
  destruct (scan_entries _ _ _ _ _) as [[off' sc'] mt']. destruct (Z.of_nat (size m) <=? off'); apply IH.
Qed.

(** Every command, run without interference, does what [apply] does. *)
Lemma command_alone e c db s : models db s ->
  run_alone (command_prog (S (total_entries db)) e c) db = apply e c db.
Proof.
  intros Hm. destruct c as [c|c|c|c|c|c|c|c|c|c|c|c|c| | |]; try exact (run_section _ _).
  - cbn [command_prog apply]. unfold CmdGet.apply. rewrite run_bind. apply ST_bind_ext; [apply get_alone|done].
  - cbn [command_prog apply]. unfold CmdSet.apply. rewrite run_bind.
    apply ST_bind_ext; [by apply (set_alone _ _ _ _ _ s)|done].
  - cbn [command_prog apply]. unfold CmdDel.apply, del. rewrite run_bind. apply ST_bind_ext; [apply del_alone|done].
  - cbn [command_prog apply]. unfold CmdKeys.apply, keys, shard_count.
    rewrite run_section_bind, !ST_bind_assoc, !ST_get_bind, !ST_ret_bind, run_bind.
    unfold mbind, ST_bind. rewrite keys_alone by done. by rewrite drop_0.
  - cbn [command_prog apply]. unfold CmdScan.apply, scan, scan_shards, shard_count.
    rewrite run_section_bind, !ST_bind_assoc, !ST_get_bind, !ST_ret_bind, run_bind. cbn zeta.
    destruct (Z.of_nat (length (shards db)) <=? Z.shiftr (CmdScan.cursor c) 32); [done|].
    unfold mbind at 1, ST_bind at 1. rewrite run_bind. unfold mbind at 1, ST_bind at 1.
    unfold scan_fuel. rewrite scan_alone. 
    destruct (scan_loop _ _ _ _ _ _ _ _) as [[[i off] mt]|]; done.
  - cbn [command_prog apply]. unfold len_db, shard_count.
    rewrite run_section_bind, !ST_bind_assoc, !ST_get_bind, !ST_ret_bind, run_bind.
    unfold mbind at 1, ST_bind at 1. rewrite len_alone by done. by rewrite drop_0, run_section.
Qed.
End alone.
