(* ===== verification/Concurrent.v ===== *)
(** * The store under interleaving

    Connections run their commands as the programs of [Sections], one lock section at a time
    in any order, next to sweeps. The specification of a command here says what it does
    while others run: most commands are one atomic action on the keyspace, DEL is one per
    key, KEYS one per shard; between the actions only evictions happen. Every interleaving of
    the programs is an interleaving of the specifications. *)
From stdpp Require Import relations.
From S2P Require Import Prelude.
From S2P Require Import RustStd.
From S2P Require Import Metrics.
From S2P Require Import Frame.
From S2P Require Import Glob.
From S2P Require Import Store.
From S2P Require Import Keyspace.
From S2P Require Import Evict.
From S2P Require Import DbKeys.
From S2P Require Import Scan.
From S2P Require Import Cmd.
From S2P Require Import Command.
From S2P Require Import Sections.

(** ** Specifications under interference *)

(** An atomic action with its result and what follows, or the replies that are right. *)
Inductive Spec :=
  | SRet (P : Frame -> Prop)
  | SAct (action : Flat -> Frame -> Flat -> Prop) (k : Frame -> Spec).

Section concurrent.
Context {Hh : Hasher}.
(** The number of shards and the memory limit, which never change, and a time that is not
    before the clock of any job. *)
Context (N : nat) (C T : Z).

Definition conf (s : Flat) : Prop := nsh s = N /\ cap s = C.

(** What may happen to the store between actions: entries are dropped, each with what it was
    counted for, and without a memory limit only expired ones. *)
Definition drops (s s' : Flat) : Prop :=
  evicted s s' /\ (C <= 0 -> forall t, T <= t -> live t (ks s') = live t (ks s)).

(** A command as one action: its reply and its effect are those of the command's
    specification on the keyspace as it is at that moment. *)
Definition act_command (now : Z) (c : Command) (s : Flat) (f : Frame) (s' : Flat) : Prop :=
  step_to now s (spec_next now c (live now (ks s))) (command_cost c (live now (ks s))) s'
  /\ keyspace_reply now c (live now (ks s)) f.
Definition atomic (now : Z) (c : Command) : Spec := SAct (act_command now c) (fun f => SRet (eq f)).

(** One key of a DEL. *)
Definition act_del (key : bytes) (s : Flat) (f : Frame) (s' : Flat) : Prop :=
  same_config s s' /\ ks s' = delete key (ks s) /\ unaccounted s' = unaccounted s
  /\ f = Integer (match ks s !! key with Some _ => 1 | None => 0 end).
Fixpoint del_spec (keys : list bytes) (removed : Z) : Spec :=
  match keys with
  | [] => SRet (eq (Integer (as_i64 removed)))
  | key :: rest =>
    SAct (act_del key) (fun f => del_spec rest (removed + match f with Integer n => n | _ => 0 end))
  end.

(** One shard of a KEYS: the keys that are alive and match at that moment. *)
Definition act_keys (now : Z) (pattern : bytes) (i : nat) (s : Flat) (f : Frame) (s' : Flat) : Prop :=
  s' = s /\ exists l, f = Array (map Bulk l) /\ NoDup l
    /\ forall k, k ∈ l <-> shard_index (nsh s) k = i /\ is_Some (live now (ks s) !! k) /\ glob_match pattern k = true.
Definition bulks (f : Frame) : list bytes :=
  match f with Array fs => omap (fun x => match x with Bulk b => Some b | _ => None end) fs | _ => [] end.
Fixpoint keys_spec (now : Z) (pattern : bytes) (n i : nat) (result : list bytes) : Spec :=
  match n with
  | O => SRet (eq (Array (map Bulk result)))
  | S n' => SAct (act_keys now pattern i) (fun f => keys_spec now pattern n' (S i) (result ++ bulks f))
  end.

(** One shard of a SCAN: keys that are alive and wanted at that moment, all of them if the
    shard is read from its start to its end. The result also says whether the scan stops
    inside the shard (0), goes on (1) or stops after it (2), and the offset in the shard. *)
Definition wanted (q : CmdScan.Scan) (k : keyspace) (key : bytes) : Prop :=
  exists v, k !! key = Some v
  /\ match CmdScan.type_filter q with Some tf => type_matches tf v.1 | None => true end = true
  /\ pattern_matches (CmdScan.pattern q) key = true.
Definition act_scan (now : Z) (q : CmdScan.Scan) (i : nat) (whole : bool) (s : Flat) (f : Frame) (s' : Flat) : Prop :=
  s' = s /\ exists flag offset l, f = Array [Integer flag; Integer offset; Array (map Bulk l)] /\ NoDup l
    /\ (forall k, k ∈ l -> shard_index (nsh s) k = i /\ wanted q (live now (ks s)) k)
    /\ (whole = true -> flag <> 0 -> forall k, shard_index (nsh s) k = i -> wanted q (live now (ks s)) k -> k ∈ l).
Definition scan_frame (i : nat) (offset : Z) (result : list bytes) : Frame :=
  Array [Bulk (show_uint (if (N <=? i)%nat then 0 else Z.lor (wrap_u64 (Z.shiftl (Z.of_nat i) 32)) offset));
         Array (map Bulk result)].
Fixpoint scan_spec (now : Z) (q : CmdScan.Scan) (n i : nat) (whole : bool) (result : list bytes) : Spec :=
  match n with
  | O => SRet (eq (scan_frame i 0 result))
  | S n' => SAct (act_scan now q i whole) (fun f =>
      match f with
      | Array [Integer flag; Integer offset; l] =>
        if flag =? 0 then SRet (eq (scan_frame i offset (result ++ bulks l)))
        else if flag =? 1 then scan_spec now q n' (S i) true (result ++ bulks l)
        else SRet (eq (scan_frame (S i) 0 (result ++ bulks l)))
      | _ => SRet (fun _ => False)
      end)
  end.

Definition command_spec (now : Z) (c : Command) : Spec :=
  match c with
  | Del d => del_spec (CmdDel.keys d) 0
  | Keys q => keys_spec now (CmdKeys.pattern q) N 0 []
  | Scan q =>
    let i := Z.to_nat (Z.shiftr (CmdScan.cursor q) 32) in
    let offset := Z.land (CmdScan.cursor q) 4294967295 in
    if (N <=? i)%nat then SRet (eq (scan_frame i 0 []))
    else scan_spec now q (N - i) i (bool_decide (offset = 0)) []
  | Info => SRet (fun f => exists text, f = Bulk text)
  | _ => atomic now c
  end.

(** ** Refinement of one program *)

(** From any well-formed store of [N] shards, whatever the others did to it, the next
    section does not panic, and evicts entries at most, or performs the next action. *)
Fixpoint refines (p : Prog Frame) (sp : Spec) : Prop :=
  match p with
  | PRet f => match sp with SRet P => P f | SAct _ _ => False end
  | PStep m => forall db s, models db s -> conf s ->
    match m db with
    | Done p' db' => exists s', models db' s' /\
        ((drops s s' /\ refines p' sp)
         \/ exists action k f, sp = SAct action k /\ action s f s' /\ same_config s s' /\ refines p' (k f))
    | Panic _ => False
    end
  | POut => True
  end.

(** A program that only evicts, and whose result is a [Q]. *)
Fixpoint silent {A} (Q : A -> Prop) (p : Prog A) : Prop :=
  match p with
  | PRet a => Q a
  | PStep m => forall db s, models db s -> conf s ->
    match m db with
    | Done p' db' => (exists s', models db' s' /\ drops s s') /\ silent Q p'
    | Panic _ => False
    end
  | POut => True
  end.

Lemma silent_bind {A B} (Q : A -> Prop) (R : B -> Prop) (p : Prog A) (f : A -> Prog B) :
  silent Q p -> (forall a, Q a -> silent R (f a)) -> silent R (p ≫= f).
Proof.
  intros Hp Hf. induction p as [a| |m IH] using Prog_nested_ind; [by apply Hf|done|]. cbn in Hp |- *.
  intros db s Hm HN. specialize (Hp db s Hm HN). destruct (m db) as [p' db'|] eqn:E; [|done].
  destruct Hp as [Hs Hp]. split; [done|]. exact (IH _ _ _ E Hp).
Qed.

Lemma silent_section {A} (Q : A -> Prop) (m : ST Db A) :
  (forall db s, models db s -> conf s -> wp m (fun a db' => Q a /\ exists s', models db' s' /\ drops s s') db) ->
  silent Q (section m).
Proof.
  intros Hm db s Hmod HN. specialize (Hm db s Hmod HN). unfold wp in Hm. destruct (m db); [|done]. by destruct Hm.
Qed.

Lemma silent_mono {A} (Q R : A -> Prop) p : silent Q p -> (forall a, Q a -> R a) -> silent R p.
Proof.
  intros Hp HQ. induction p as [a| |m IH] using Prog_nested_ind; [by apply HQ|done|]. cbn in Hp |- *.
  intros db s Hm HN. specialize (Hp db s Hm HN). destruct (m db) as [p' db'|] eqn:E; [|done].
  destruct Hp as [Hs Hp]. split; [done|]. exact (IH _ _ _ E Hp).
Qed.

Lemma refines_silent_bind {A} (Q : A -> Prop) (p : Prog A) (f : A -> Prog Frame) sp :
  silent Q p -> (forall a, Q a -> refines (f a) sp) -> refines (p ≫= f) sp.
Proof.
  intros Hp Hf. induction p as [a| |m IH] using Prog_nested_ind; [by apply Hf|done|]. cbn in Hp |- *.
  intros db s Hm HN. specialize (Hp db s Hm HN). destruct (m db) as [p' db'|] eqn:E; [|done].
  destruct Hp as [(s' & Hm' & Hev) Hp]. exists s'. split; [done|]. left. split; [done|]. exact (IH _ _ _ E Hp).
Qed.

Lemma refines_silent (P : Frame -> Prop) p : silent P p -> refines p (SRet P).
Proof.
  intros Hp. induction p as [a| |m IH] using Prog_nested_ind; [done|done|]. cbn in Hp |- *.
  intros db s Hm HN. specialize (Hp db s Hm HN). destruct (m db) as [p' db'|] eqn:E; [|done].
  destruct Hp as [(s' & Hm' & Hev) Hp]. exists s'. split; [done|]. left. split; [done|]. exact (IH _ _ _ E Hp).
Qed.

(** A section that performs the next action. *)
Lemma refines_act {A} (m : ST Db A) (g : A -> Prog Frame) action k :
  (forall db s, models db s -> conf s -> wp m (fun a db' => exists s' f, models db' s' /\ action s f s' /\ same_config s s'
     /\ refines (g a) (k f)) db) ->
  refines (section m ≫= g) (SAct action k).
Proof.
  intros Hm db s Hmod HN. specialize (Hm db s Hmod HN). unfold wp in Hm. destruct (m db) as [a db'|]; [|done].
  destruct Hm as (s' & f & Hm' & Ha & Hc & Hr). exists s'. split; [done|]. right. by exists action, k, f.
Qed.

(** A section that does one or the other. *)
Lemma refines_section {A} (m : ST Db A) (g : A -> Prog Frame) sp :
  (forall db s, models db s -> conf s -> wp m (fun a db' => exists s', models db' s' /\
     ((drops s s' /\ refines (g a) sp)
      \/ exists action k f, sp = SAct action k /\ action s f s' /\ same_config s s' /\ refines (g a) (k f))) db) ->
  refines (section m ≫= g) sp.
Proof.
  intros Hm db s Hmod HN. specialize (Hm db s Hmod HN). unfold wp in Hm. by destruct (m db).
Qed.

Lemma refines_assoc {A B} (p : Prog A) (g : A -> Prog B) (f : B -> Prog Frame) sp :
  refines (p ≫= fun a => g a ≫= f) sp -> refines ((p ≫= g) ≫= f) sp.
Proof.
  revert sp. induction p as [a| |m IH] using Prog_nested_ind; intros sp; [done|done|]. cbn.
  intros Hp db s Hm HN. specialize (Hp db s Hm HN). destruct (m db) as [p' db'|] eqn:E; [|done].
  destruct Hp as (s' & Hm' & Hp). exists s'. split; [done|]. destruct Hp as [[Hd Hp]|(act & k & f' & -> & Ha & Hc & Hp)].
  - left. split; [done|]. exact (IH _ _ _ E _ Hp).
  - right. exists act, k, f'. split; [done|]. split; [done|]. split; [done|]. exact (IH _ _ _ E _ Hp).
Qed.

(** ** The programs refine their specifications *)

Lemma drops_refl s : drops s s.
Proof. by split. Qed.

(** A section that reads. *)
Lemma silent_read {A} (Q : A -> Prop) (m : ST Db A) :
  (forall db s, models db s -> conf s -> wp m (fun a db' => db' = db /\ Q a) db) -> silent Q (section m).
Proof.
  intros Hm. apply silent_section. intros db s Hmod HN. eapply wp_mono; [by apply (Hm db s)|]. cbn beta.
  intros a db' [-> HQ]. split; [done|]. exists s. split; [done|apply drops_refl].
Qed.

Lemma drops_limited s s' : 0 < C -> evicted s s' -> drops s s'.
Proof. intros HC He. split; [done|lia]. Qed.

(** A sampled key is in the shard of its sample, and stays there. *)
Definition homed (o : option (nat * bytes)) : Prop := forall idx k, o = Some (idx, k) -> idx = shard_index N k.

Lemma sample_one_homed e i o t db s : models db s -> conf s -> homed o ->
  wp (sample_one e i o t) (fun r db' => db' = db /\ homed r.1.1) db.
Proof.
  intros Hm [HN _] Ho. pose proof (models_wf _ _ Hm) as Hw. pose proof (sample_alone e 1 i o t db) as E.
  cbn [sample_prog] in E. rewrite run_section_bind, (sample_loop_eq e db 1 i o t Hw) in E.
  pose proof (fold_older_spec (candidates e (shards db) 1 i).1 o t) as (_ & _ & Hf). revert E Hf.
  generalize (fold_left older (candidates e (shards db) 1 i).1 (o, t)). intros acc E Hf.
  unfold wp. unfold mbind, ST_bind in E. destruct (sample_one e i o t db) as [r db'|]; [|done].
  injection E as Er _ Edb. split; [done|]. rewrite Er.
  destruct Hf as [->|([[idx k] ent] & Hc & ->)]; cbn [fst]; [exact Ho|].
  intros idx' k' [= <- <-]. destruct (candidates_stored e db 1 i _ Hw Hc) as (m & Hidx & Hent). cbn in Hidx, Hent.
  destruct (models_home _ _ _ _ _ _ Hm Hidx Hent) as [-> _]. by rewrite HN.
Qed.

Lemma sample_silent e n : forall i o t, homed o -> silent (fun r => homed r.1) (sample_prog e n i o t).
Proof.
  induction n as [|n IH]; intros i o t Ho; [done|]. cbn [sample_prog].
  apply (silent_bind (fun r => homed r.1.1)); [|intros r; apply IH].
  apply silent_read. intros db s Hm Hc. by apply (sample_one_homed _ _ _ _ _ s).
Qed.

(** Evicting a key that may be gone. *)
Lemma evict_key_silent key i : 0 < C -> silent (fun _ => True) (section (evict_key (shard_index N key) key i)).
Proof.
  intros HC. apply silent_section. intros db s Hm [HN _]. rewrite <- HN. unfold evict_key. do 2 db_step. cbn beta.
  destruct (ks s !! key) as [ent|] eqn:Hent.
  - db_run. split; [done|]. eexists. split; [eassumption|]. apply drops_limited; [done|]. exact (evicted_one s key ent Hent).
  - db_run. split; [done|]. exists s. split; [done|apply drops_refl].
Qed.

Lemma capacity_silent fuel e needed i : silent (fun _ => True) (capacity_prog fuel e needed i).
Proof.
  unfold capacity_prog. apply (silent_bind (fun limited : bool => limited = true -> 0 < C)).
  { apply silent_read. intros db s Hm [_ HC]. apply wp_bind, wp_get, wp_ret. split; [done|]. intros Hlt%Z.ltb_lt.
    rewrite <- HC. destruct Hm as (_ & _ & _ & _ & -> & _). done. }
  intros [] HC; [|done]. specialize (HC eq_refl). revert i. induction fuel as [|fuel IH]; intros i; [done|].
  cbn [capacity_loop_prog]. apply (silent_bind (fun _ => True)).
  { apply silent_read. intros db s _ _. by apply wp_bind, wp_get, wp_ret. }
  intros [] _; [|done]. apply (silent_bind (fun _ => True)); [|intros [[] j] _; [apply IH|done]].
  unfold evict_prog. apply (silent_bind (fun r => homed r.1)); [by apply sample_silent|].
  intros [[[idx k]|] j] Hr; [|done]. cbn [fst snd]. rewrite (Hr idx k eq_refl). by apply evict_key_silent.
Qed.

(** The reply of an operation that implements its specification, as an action. *)
Lemma wp_act {R} now c spec (m : ST Db R) (r : R -> Frame) db s :
  implements now s spec 0 m db -> (forall k, (spec k).2 = spec_next now c k) -> (forall k, command_cost c k = 0) ->
  (forall k, keyspace_reply now c k (r (spec k).1)) ->
  wp m (fun x db' => exists s', models db' s' /\ act_command now c s (r x) s') db.
Proof.
  intros Hm Hn Hc Hr. eapply wp_mono; [exact Hm|]. cbn beta. intros x db' (s' & Hm' & Hst & ->).
  exists s'. split; [done|]. split; [|apply Hr]. by rewrite Hc, <- Hn.
Qed.

(** The two phases of GET: the first replies, unless it found an expired entry. *)
Lemma get_read_act e g db s : models db s ->
  wp (idx ← locate (CmdGet.key g); r ← get_read e idx (CmdGet.key g) (clock e 0); mret (idx, r)) (fun ir db' =>
    ir.1 = shard_index (nsh s) (CmdGet.key g) /\ exists s', models db' s' /\
    match ir.2 with
    | Some reply => act_command (clock e 0) (Get g) s (reply_value reply) s'
    | None => s' = s
    end) db.
Proof.
  intros Hm. set (key := CmdGet.key g). assert (forall ent, ks s !! key = Some ent -> is_expired ent (clock e 0) = false ->
    wp (get_hit e (shard_index (nsh s) key) key ent 1)
      (fun x db' => exists s', models db' s' /\ act_command (clock e 0) (Get g) s (reply_value x) s') db) as Hhit.
  { intros ent Hent Hexp. apply (wp_act _ _ (reads (spec_get key))); [by apply get_hit_implements|done..]. }
  unfold get_read. do 2 db_step. cbn beta. do 2 apply wp_bind. apply (wp_entries_get _ _ _ _ Hm).
  destruct (ks s !! key) as [ent|] eqn:Hent; [destruct (is_expired ent (clock e 0)) eqn:Hexp|].
  - do 2 apply wp_ret. split; [done|]. by exists s.
  - apply wp_bind. eapply wp_mono; [by apply Hhit|]. cbn beta. intros r db' (s' & Hm' & Ha).
    do 2 apply wp_ret. split; [done|]. by exists s'.
  - db_run. split; [done|]. eexists. split; [eassumption|]. unfold act_command. cbn [spec_next command_cost keyspace_reply].
    unfold spec_get. fold key. rewrite live_None by done. split; [by apply step_to_same|done].
Qed.

Lemma get_refines e g : refines (r ← get_prog e (CmdGet.key g); mret (reply_value r)) (atomic (clock e 0) (Get g)).
Proof.
  apply refines_assoc, refines_section. intros db s Hm [HN _]. eapply wp_mono; [by apply (get_read_act e g db s)|]. cbn beta.
  intros [idx [reply|]] db' (Hi & s' & Hm' & Ha); cbn [fst snd] in *; exists s'; (split; [done|]).
  - right. eexists _, _, _. split; [reflexivity|]. split; [exact Ha|]. split; [apply Ha|]. done.
  - left. subst s'. split; [apply drops_refl|]. apply refines_act. intros db1 s1 Hm1 [HN1 _].
    rewrite Hi, HN, <- HN1. eapply wp_mono; [eapply (wp_act _ (Get g) _ _ reply_value); [by apply get_write_implements|done..]|].
    cbn beta. intros x db2 (s2 & Hm2 & Ha). exists s2, (reply_value x). split; [done|]. split; [done|]. split; [apply Ha|done].
Qed.

(** The last section of SET, on the store as the evictions left it. *)
Lemma set_store_step now key value x t db s : models db s ->
  wp (set_store key (CacheEntry_new (DString value) x t)) (fun _ db' => exists s', models db' s'
    /\ step_to now s (spec_set now key value x (live now (ks s))) 0 s') db.
Proof.
  intros Hm. set (new := CacheEntry_new (DString value) x t). unfold set_store. cbn zeta.
  assert (forall s', same_config s s' -> ks s' = <[key := new]> (ks s) ->
    eq64 (used (ks s') - mem s') (used (ks s) - mem s) -> step_to now s (spec_set now key value x (live now (ks s))) 0 s') as Hstep.
  { intros s' Hc Hks Hu. apply step_to_intro; [done|..].
    - by rewrite Hks, live_insert_deadline.
    - rewrite Hu. apply eq64_eq. lia. }
  do 4 db_step. db_step. cbn beta. destruct (ks s !! key) as [old|] eqn:Hold.
  - destruct (size_bytes old key <? size_bytes new key); db_run; eexists; (split; [eassumption|]);
      apply Hstep; try done; cbn [ks mem set_ks set_mem];
      rewrite (used_insert _ _ old), eq64_wrap by done; apply eq64_eq; lia.
  - db_run. eexists. split; [eassumption|]. apply Hstep; [done..|]. cbn [ks mem set_ks set_mem].
    rewrite used_insert_new, eq64_wrap by done. apply eq64_eq. lia.
Qed.

Lemma set_refines fuel e c :
  refines (set_prog fuel e (CmdSet.key c) (CmdSet.value c) (CmdSet.expires_at c) ;; mret (Simple (bs "OK")))
    (atomic (clock e 0) (Set_ c)).
Proof.
  apply refines_assoc. apply (refines_silent_bind (fun _ => True)).
  { apply silent_read. intros db s Hm _. apply (wp_now_millis _ _ _ _ _ Hm). done. }
  intros t _. apply refines_assoc. apply (refines_silent_bind (fun _ => True)); [apply capacity_silent|].
  intros [] _. apply refines_act. intros db s Hm _. eapply wp_mono; [by apply (set_store_step (clock e 0))|]. cbn beta.
  intros [] db' (s' & Hm' & Hst). exists s', (Simple (bs "OK")). split; [done|]. split; [by split|]. split; [apply Hst|done].
Qed.

Lemma del_key_act key db s : models db s ->
  wp (del_key key) (fun n db' => exists s', models db' s' /\ act_del key s (Integer n) s') db.
Proof.
  intros Hm. unfold del_key. do 2 db_step. cbn beta. do 2 db_step. destruct (ks s !! key) as [ent|] eqn:Hent.
  - db_run. eexists. split; [eassumption|]. unfold act_del. rewrite Hent. split; [done|]. split; [done|]. split; [|done].
    unfold unaccounted. cbn. rewrite (used_delete _ _ ent) by done. wrap_lia.
  - db_run. exists s. split; [done|]. unfold act_del. rewrite Hent. split; [done|]. by rewrite delete_id.
Qed.

Lemma del_refines keys : forall n, refines (r ← del_prog keys n; mret (Integer (as_i64 r))) (del_spec keys n).
Proof.
  induction keys as [|key rest IH]; intros n; [done|]. cbn [del_prog del_spec]. apply refines_assoc, refines_act.
  intros db s Hm _. eapply wp_mono; [by apply del_key_act|]. cbn beta. intros k db' (s' & Hm' & Ha).
  exists s', (Integer k). split; [done|]. split; [done|]. split; [apply Ha|apply IH].
Qed.

(** Reading one of the shards. *)
Lemma read_shard_some (i : nat) (db : Db) (s : Flat) : models db s -> conf s -> (i < N)%nat ->
  exists m, shards db !! i = Some m /\ forall A (f : entries -> ST Db A), (read_shard i ≫= f) db = f m db.
Proof.
  intros Hm [HN _] Hi. destruct Hm as (Hw & _ & _ & _ & _ & Hn & _).
  destruct (lookup_lt_is_Some_2 (shards db) i) as [m Hsh]; [rewrite (wf_len _ Hw); lia|].
  exists m. split; [done|]. intros A f. by apply read_shard_bind.
Qed.

Lemma shard_live (i : nat) (m : entries) (now : Z) (k : bytes) (db : Db) (s : Flat) : models db s -> shards db !! i = Some m ->
  is_Some (live now m !! k) <-> shard_index (nsh s) k = i /\ is_Some (live now (ks s) !! k).
Proof.
  intros Hm Hi. rewrite !live_lookup. split.
  - intros [v Hv]. apply bind_Some in Hv as (ent & Hent & Hv). destruct (models_home _ _ _ _ _ _ Hm Hi Hent) as [-> Hks].
    rewrite Hks. split; [done|by exists v].
  - intros [Hidx [v Hv]]. apply bind_Some in Hv as (ent & Hent & Hv).
    destruct Hm as (Hw & Hk & _ & _ & _ & Hn & _). rewrite Hk, view_lookup, <- Hn, Hidx, Hi in Hent by done.
    cbn in Hent. rewrite Hent. by exists v.
Qed.

Lemma NoDup_shard_keys (e : Env) (i : nat) (now : Z) (all : bool) (p : bytes) (m : entries) : NoDup (shard_keys e i now all p m).
Proof.
  unfold shard_keys. apply NoDup_omap_id.
  - intros k k' Hk. repeat case_match; by simplify_eq.
  - rewrite (order_perm e i (dom m)). apply NoDup_elements.
Qed.

Lemma bulks_map l : bulks (Array (map Bulk l)) = l.
Proof. cbn. induction l as [|x l IH]; cbn; [done|]. by f_equal. Qed.

Lemma keys_refines e p n : forall i r, (i + n = N)%nat ->
  refines (l ← keys_prog e n i (clock e 0) (bool_decide (p = bs "*")) p r; mret (Array (map Bulk l)))
    (keys_spec (clock e 0) p n i r).
Proof.
  induction n as [|n IH]; intros i r Hi; [done|]. cbn [keys_prog keys_spec]. apply refines_assoc, refines_act.
  intros db s Hm HN. destruct (read_shard_some i db s Hm HN) as (m & Hsh & Hread); [lia|].
  unfold wp. rewrite Hread. cbn [mret ST_ret].
  exists s, (Array (map Bulk (shard_keys e i (clock e 0) (bool_decide (p = bs "*")) p m))). split; [done|]. split.
  { split; [done|]. eexists. split; [reflexivity|]. split; [apply NoDup_shard_keys|]. intros k.
    rewrite shard_keys_elem, (shard_live i m _ k db s Hm Hsh). tauto. }
  split; [done|]. rewrite bulks_map. apply IH. lia.
Qed.

Lemma shard_count_silent : silent (fun n => n = N) shard_count.
Proof.
  apply silent_read. intros db s Hm [HN _]. apply wp_bind, wp_get, wp_ret. split; [done|].
  rewrite (wf_len _ (models_wf _ _ Hm)), <- HN. by destruct Hm as (_ & _ & _ & _ & _ & -> & _).
Qed.

Lemma len_silent n : forall i t, (i + n = N)%nat -> silent (fun _ => True) (len_prog n i t).
Proof.
  induction n as [|n IH]; intros i t Hi; [done|]. cbn [len_prog]. apply (silent_bind (fun _ => True)); [|intros k _; apply IH; lia].
  apply silent_read. intros db s Hm HN. destruct (read_shard_some i db s Hm HN) as (m & Hsh & Hread); [lia|].
  unfold wp. rewrite Hread. done.
Qed.

(** What SCAN selects of a shard is what it wants of the keyspace. *)
Definition args_of (now : Z) (q : CmdScan.Scan) (target : Z) : ScanArgs :=
  mkScan now (CmdScan.pattern q) target (CmdScan.type_filter q).

Lemma selects_wanted (now : Z) (q : CmdScan.Scan) (t : Z) (m : entries) (k : bytes) (ent : CacheEntry) : m !! k = Some ent ->
  selects (args_of now q t) (k, ent) = true <-> wanted q (live now m) k.
Proof.
  intros Hk. unfold selects, wanted. cbn [fst snd scan_now scan_pattern scan_type args_of].
  rewrite live_lookup, Hk. cbn. unfold live_entry. split.
  - intros [[He Ht]%andb_true_iff Hp]%andb_true_iff. apply negb_true_iff in He. rewrite He. by exists (value_of ent).
  - intros (v & Hv & Ht & Hp). destruct (is_expired ent now); [done|]. injection Hv as <-.
    cbn [value_of fst] in Ht. by rewrite Ht, Hp.
Qed.

Lemma shard_wanted (i : nat) (m : entries) (now : Z) (q : CmdScan.Scan) (k : bytes) (db : Db) (s : Flat) :
  models db s -> shards db !! i = Some m ->
  wanted q (live now m) k <-> shard_index (nsh s) k = i /\ wanted q (live now (ks s)) k.
Proof.
  intros Hm Hi. unfold wanted. setoid_rewrite live_lookup. split.
  - intros (v & Hv & Hw). apply bind_Some in Hv as (ent & Hent & Hv).
    destruct (models_home _ _ _ _ _ _ Hm Hi Hent) as [-> Hks]. rewrite Hks. split; [done|by exists v].
  - intros [Hidx (v & Hv & Hw)]. apply bind_Some in Hv as (ent & Hent & Hv).
    destruct Hm as (Hwf & Hk & _ & _ & _ & Hn & _). rewrite Hk, view_lookup, <- Hn, Hidx, Hi in Hent by done.
    cbn in Hent. rewrite Hent. by exists v.
Qed.

Lemma selected_wanted (now : Z) (q : CmdScan.Scan) (t : Z) (e : Env) (i : nat) (m : entries) (l : list (bytes * CacheEntry)) (k : bytes) :
  (forall x, x ∈ l -> x ∈ shard_iter e i m) ->
  k ∈ selected (args_of now q t) l <-> (exists ent, (k, ent) ∈ l) /\ wanted q (live now m) k.
Proof.
  intros Hl. unfold selected. rewrite list_elem_of_fmap. split.
  - intros ([k' ent] & -> & [Hs Hin]%list_elem_of_filter). cbn [fst].
    split; [by exists ent|]. apply Hl, shard_iter_elem in Hin as Hk. by apply (selects_wanted now q t m k' ent Hk).
  - intros [[ent Hin] Hw]. exists (k, ent). split; [done|]. apply list_elem_of_filter. split; [|done].
    apply Hl, shard_iter_elem in Hin as Hk. by apply (selects_wanted now q t m k ent Hk).
Qed.

(** What one section of SCAN gathers from the [n] entries it looks at. *)
Lemma scan_section_act (e : Env) (q : CmdScan.Scan) (t : Z) (i : nat) (off : Z) (n : nat) (flag off' : Z) (m : entries) (db : Db) (s : Flat) :
  models db s -> shards db !! i = Some m -> 0 <= off -> (flag <> 0 -> (size m - Z.to_nat off <= n)%nat) ->
  act_scan (clock e 0) q i (bool_decide (off = 0)) s
    (Array [Integer flag; Integer off'; Array (map Bulk
       (selected (args_of (clock e 0) q t) (take n (drop (Z.to_nat off) (shard_iter e i m)))))]) s.
Proof.
  intros Hm Hi Hoff Hall. set (l := take n _).
  assert (l `sublist_of` shard_iter e i m) as Hsub.
  { etransitivity; [apply sublist_take|apply sublist_drop]. }
  assert (forall x, x ∈ l -> x ∈ shard_iter e i m) as Hl.
  { intros x Hx. by eapply elem_of_sublist. }
  split; [done|]. eexists flag, off', _. split; [reflexivity|]. split.
  { unfold selected. eapply sublist_NoDup; [apply (shard_iter_NoDup e i m)|]. apply fmap_sublist.
    etransitivity; [apply sublist_filter|exact Hsub]. }
  split.
  - intros k [_ Hw]%(selected_wanted _ _ t e i m l k Hl). by apply (shard_wanted i m _ q k db s Hm Hi).
  - intros Hz%bool_decide_eq_true Hflag k Hidx Hw. subst off. specialize (Hall Hflag).
    apply (selected_wanted _ _ t e i m l k Hl).
    assert (wanted q (live (clock e 0) m) k) as Hwm by (by apply (shard_wanted i m _ q k db s Hm Hi)).
    split; [|done]. destruct Hwm as (v & Hv & _). rewrite live_lookup in Hv. apply bind_Some in Hv as (ent & Hent & _).
    exists ent. unfold l. change (Z.to_nat 0) with 0%nat in *. rewrite drop_0, take_ge; [by apply shard_iter_elem|].
    rewrite shard_iter_length. lia.
Qed.

(** A scan that has looked at enough entries stops. *)
Lemma scan_stops e a g fuel i off sc mt :
  (forall r, g r = mret (scan_frame r.1.1 r.1.2 r.2)) -> scan_target a <= sc ->
  refines (scan_prog fuel e a N i off sc mt ≫= g) (SRet (eq (scan_frame i off mt))).
Proof.
  intros Hg Hsc. destruct fuel as [|fuel]; [done|]. cbn [scan_prog].
  rewrite (proj2 (Z.ltb_ge _ _)), andb_false_r by lia. cbn. by rewrite Hg.
Qed.

Lemma scan_refines e q t g fuel : (forall r, g r = mret (scan_frame r.1.1 r.1.2 r.2)) ->
  forall i off sc mt, 0 <= off -> (i <= N)%nat -> sc < t ->
  refines (scan_prog fuel e (args_of (clock e 0) q t) N i off sc mt ≫= g)
    (scan_spec (clock e 0) q (N - i) i (bool_decide (off = 0)) mt).
Proof.
  intros Hg. set (a := args_of (clock e 0) q t). induction fuel as [|fuel IH]; intros i off sc mt Hoff Hi Hsc; [done|].
  cbn [scan_prog]. change (scan_target a) with t. rewrite (proj2 (Z.ltb_lt sc t)) by lia. rewrite andb_true_r.
  destruct (Nat.ltb_spec i N) as [Hlt|Hge].
  2:{ assert (i = N) as -> by lia. rewrite Nat.sub_diag. cbn. rewrite Hg. cbn. unfold scan_frame. by rewrite Nat.leb_refl. }
  replace (N - i)%nat with (S (N - S i)) by lia. cbn [scan_spec]. apply refines_assoc, refines_act.
  intros db s Hm HN. destruct (read_shard_some i db s Hm HN Hlt) as (m & Hsh & Hread).
  unfold wp. rewrite Hread. cbn zeta. cbn [mret ST_ret]. exists s.
  destruct (Z.leb_spec (Z.of_nat (size m)) off) as [Hskip|Hmore].
  { eexists. split; [done|]. split; [apply (scan_section_act e q t i off 0 1 0 m db s Hm Hsh Hoff); lia|].
    split; [done|]. rewrite bulks_map.
    assert (forall l, mt ++ selected a (take 0 l) = mt) as E by (intros l; apply app_nil_r).
    rewrite E. apply IH; [lia|lia|done]. }
  rewrite scan_entries_eq by done. cbv zeta. change (scan_target a) with t. rewrite length_drop, shard_iter_length.
  set (n := (Z.to_nat (t - sc) `min` (size m - Z.to_nat off))%nat).
  destruct (Z.leb_spec (Z.of_nat (size m)) (off + Z.of_nat n)) as [Hend|Hstop].
  - destruct (Z.ltb_spec (sc + Z.of_nat n) t) as [Hgo|Hfull]; eexists; (split; [done|]).
    + split; [apply (scan_section_act e q t i off n 1 0 m db s Hm Hsh Hoff); lia|]. split; [done|].
      rewrite bulks_map. apply IH; [lia|lia|done].
    + split; [apply (scan_section_act e q t i off n 2 0 m db s Hm Hsh Hoff); lia|]. split; [done|].
      rewrite bulks_map. by apply scan_stops.
  - eexists. split; [done|]. split; [apply (scan_section_act e q t i off n 0 (off + Z.of_nat n) m db s Hm Hsh Hoff); lia|].
    split; [done|]. rewrite bulks_map. apply scan_stops; [done|cbn; lia].
Qed.

Lemma scan_command_refines fuel e c : command_ok (clock e 0) (Scan c) ->
  refines (command_prog fuel e (Scan c)) (command_spec (clock e 0) (Scan c)).
Proof.
  intros [Hcur Hcount]. cbn [command_prog command_spec].
  apply (refines_silent_bind (fun n => n = N)); [apply shard_count_silent|]. intros n ->. cbn zeta.
  pose proof (proj2 (Z.shiftr_nonneg (CmdScan.cursor c) 32) Hcur) as Hsh.
  destruct (Z.leb_spec (Z.of_nat N) (Z.shiftr (CmdScan.cursor c) 32)) as [Hout|Hin].
  { rewrite (proj2 (Nat.leb_le _ _)) by lia. cbn. unfold scan_frame. by rewrite (proj2 (Nat.leb_le _ _)) by lia. }
  rewrite (proj2 (Nat.leb_gt _ _)) by lia. apply refines_assoc.
  apply scan_refines; [by intros [[i off] mt]|by apply Z.land_nonneg; right|lia|].
  destruct (Z.eqb_spec (CmdScan.count c) 0); lia.
Qed.


(** Every command refines its specification under interference. *)
Lemma command_refines_spec fuel e c : command_ok (clock e 0) c ->
  refines (command_prog fuel e c) (command_spec (clock e 0) c).
Proof.
  intros Hok. assert (is_set c = false ->
    (forall s sh f, spec_reply e c s sh f -> keyspace_reply (clock e 0) c (live (clock e 0) (ks s)) f) ->
    refines (section (apply e c)) (atomic (clock e 0) c)) as Hatomic.
  { intros Hset Hkr. intros db s Hm _. pose proof (apply_acts e c db s Hm Hok) as Hw. unfold acts, wp in Hw.
    destruct (apply e c db) as [f db'|]; [|done]. destruct Hw as (s' & k1 & Hm' & Hc & Hu & _ & Hk1 & Hl & Hr).
    exists s'. split; [done|]. right. eexists _, _, f. split; [reflexivity|]. split; [|done].
    split; [|by apply Hkr in Hr]. split; [done|]. split; [|done]. rewrite Hl, Hk1 by by right. done. }
  destruct c as [c|c|c|c|c|c|c|c|c|c|c|c|c| | |]; cbn [command_prog command_spec]; try by apply Hatomic.
  - apply get_refines.
  - apply set_refines.
  - apply del_refines.
  - apply (refines_silent_bind (fun n => n = N)); [apply shard_count_silent|]. intros n ->. by apply keys_refines.
  - by apply scan_command_refines.
  - apply refines_silent, (silent_bind (fun n => n = N)); [apply shard_count_silent|]. intros n ->.
    apply (silent_bind (fun _ => True)); [by apply len_silent|]. intros k _. apply silent_read. intros db s _ _.
    apply wp_bind, wp_get, wp_ret. split; [done|]. by eexists.
Qed.

(** A sweep only drops expired entries, whatever the others do between its sample and its
    removals. *)
Lemma purge_silent e n : clock e 0 <= T -> silent (fun _ => True) (purge_prog e n).
Proof.
  intros HT. unfold purge_prog. cbn zeta. apply (silent_bind (fun r => match r with
    | Some (idx, _, ks) => Forall (fun k => idx = shard_index N k) ks | None => True end)).
  - apply silent_read. intros db s Hm [HN _]. pose proof (models_wf _ _ Hm) as Hw. pose proof (wf_pos _ Hw).
    apply wp_bind, wp_get, wp_bind. unfold wp at 1, draw_below. rewrite bool_decide_eq_false_2 by lia.
    destruct (wf_shard db (fastrand_usize e 0 (num_shards db)) Hw) as [m Hidx]; [by apply fastrand_lt|].
    apply wp_bind. unfold wp at 1, read_shard. rewrite Hidx. case_bool_decide as Hem; [by apply wp_ret|].
    apply wp_bind. eapply wp_mono; [by apply wp_purge_sample|]. cbn beta. intros keys db' (-> & _ & Hkeys).
    apply wp_ret. split; [done|]. apply list.Forall_forall. intros k Hk.
    destruct (Hkeys k Hk) as [Hn|[ent Hent]]; [by apply elem_of_nil in Hn|].
    rewrite <- HN. by destruct (models_home _ _ _ _ _ _ Hm Hidx Hent).
  - intros [[[idx k] keys]|] Hkeys; [|done]. apply (silent_bind (fun _ => True)); [|done].
    case_bool_decide; [done|]. apply silent_section. intros db s Hm [HN _]. rewrite <- HN in Hkeys.
    apply wp_bind. eapply wp_mono; [by apply wp_purge_remove|]. cbn beta. intros r db' (s' & Hm' & Hp & _).
    assert (drops s s') as Hd.
    { split; [by destruct Hp as (? & ? & ? & _)|]. intros _ t Ht. apply (purged_live (clock e 0)); [done|lia]. }
    destruct (0 <? r); db_run; (split; [done|]); eexists; (split; [eassumption|exact Hd]).
Qed.

(** ** Pools of threads *)

(** What threads run: the commands of connections, and sweeps. *)
Inductive Job := Run (fuel : nat) (e : Env) (c : Command) | Sweep (e : Env) (sample_size : nat).

Definition job_prog (j : Job) : Prog Frame :=
  match j with
  | Run fuel e c => command_prog fuel e c
  | Sweep e n => r ← purge_prog e n; mret (Array [Integer r.1; Integer r.2])
  end.
Definition job_spec (j : Job) : Spec :=
  match j with
  | Run _ e c => command_spec (clock e 0) c
  | Sweep _ _ => SRet (fun _ => True)
  end.
Definition job_ok (j : Job) : Prop :=
  match j with Run _ e c => command_ok (clock e 0) c | Sweep e _ => clock e 0 <= T end.

(** A thread: the replies it gave, what it runs, and the jobs it has still to run. *)
Record Thread (P : Type) := mkThread { replies : list Frame; running : option P; waiting : list Job }.
Arguments mkThread {P}.
Arguments replies {P}.
Arguments running {P}.
Arguments waiting {P}.

(** One step of the program pool: a thread takes its next job, runs its next section, or
    replies. *)
Inductive pool_step : Db * list (Thread (Prog Frame)) -> Db * list (Thread (Prog Frame)) -> Prop :=
  | pool_start db ts i r j js :
    ts !! i = Some (mkThread r None (j :: js)) ->
    pool_step (db, ts) (db, <[i := mkThread r (Some (job_prog j)) js]> ts)
  | pool_section db ts i r m js p db' :
    ts !! i = Some (mkThread r (Some (PStep m)) js) -> m db = Done p db' ->
    pool_step (db, ts) (db', <[i := mkThread r (Some p) js]> ts)
  | pool_reply db ts i r f js :
    ts !! i = Some (mkThread r (Some (PRet f)) js) ->
    pool_step (db, ts) (db, <[i := mkThread (r ++ [f]) None js]> ts).

(** The same for the specifications, on the flat keyspace, where entries may be dropped at
    any moment. *)
Inductive spec_step : Flat * list (Thread Spec) -> Flat * list (Thread Spec) -> Prop :=
  | spec_drop s ts s' : drops s s' -> spec_step (s, ts) (s', ts)
  | spec_start s ts i r j js :
    ts !! i = Some (mkThread r None (j :: js)) ->
    spec_step (s, ts) (s, <[i := mkThread r (Some (job_spec j)) js]> ts)
  | spec_act s ts i r action k js f s' :
    ts !! i = Some (mkThread r (Some (SAct action k)) js) -> action s f s' -> same_config s s' ->
    spec_step (s, ts) (s', <[i := mkThread r (Some (k f)) js]> ts)
  | spec_answer s ts i r (P : Frame -> Prop) f js :
    ts !! i = Some (mkThread r (Some (SRet P)) js) -> P f ->
    spec_step (s, ts) (s, <[i := mkThread (r ++ [f]) None js]> ts).

(** Threads that have not started. *)
Definition idle {P} (jobs : list (list Job)) : list (Thread P) := map (mkThread [] None) jobs.

(** A scheduler: [i] is the thread that runs next. *)
Definition exec_step (i : nat) (x : Db * list (Thread (Prog Frame))) : option (Db * list (Thread (Prog Frame))) :=
  match x.2 !! i with
  | Some (mkThread r None (j :: js)) => Some (x.1, <[i := mkThread r (Some (job_prog j)) js]> x.2)
  | Some (mkThread r (Some (PStep m)) js) =>
    match m x.1 with Done p db' => Some (db', <[i := mkThread r (Some p) js]> x.2) | Panic _ => None end
  | Some (mkThread r (Some (PRet f)) js) => Some (x.1, <[i := mkThread (r ++ [f]) None js]> x.2)
  | _ => None
  end.
Fixpoint exec (schedule : list nat) (x : Db * list (Thread (Prog Frame))) : option (Db * list (Thread (Prog Frame))) :=
  match schedule with [] => Some x | i :: rest => x' ← exec_step i x; exec rest x' end.

Lemma exec_sound schedule : forall x x', exec schedule x = Some x' -> rtc pool_step x x'.
Proof.
  induction schedule as [|i rest IH]; intros x x'; cbn [exec]; [by intros [= ->]|].
  destruct (exec_step i x) as [x1|] eqn:E; [|done]. cbn [mbind option_bind]. intros Hrest.
  apply rtc_l with x1; [|by apply IH]. unfold exec_step in E. destruct x as [db ts]. cbn [fst snd] in E.
  destruct (ts !! i) as [[r [[f|m|]|] js]|] eqn:Hi; [| |done| |done].
  - injection E as <-. by apply pool_reply.
  - destruct (m db) as [p db'|] eqn:Hm; [|done]. injection E as <-. by apply (pool_section _ _ _ _ m).
  - destruct js as [|j js]; [done|]. injection E as <-. by apply pool_start.
Qed.

(** ** The simulation *)

Inductive thread_sim : Thread (Prog Frame) -> Thread Spec -> Prop :=
  | sim_idle r js : Forall job_ok js -> thread_sim (mkThread r None js) (mkThread r None js)
  | sim_running r p sp js : Forall job_ok js -> refines p sp ->
    thread_sim (mkThread r (Some p) js) (mkThread r (Some sp) js).

Definition pool_sim (x : Db * list (Thread (Prog Frame))) (y : Flat * list (Thread Spec)) : Prop :=
  models x.1 y.1 /\ conf y.1 /\ Forall2 thread_sim x.2 y.2.

Lemma conf_same s s' : conf s -> same_config s s' -> conf s'.
Proof. intros [H1 H2] (E1 & E2 & _). unfold conf. by rewrite E1, E2, H1, H2. Qed.

Lemma job_refines j : job_ok j -> refines (job_prog j) (job_spec j).
Proof.
  destruct j as [fuel e c|e n]; cbn [job_ok job_prog job_spec]; [by apply command_refines_spec|]. intros HT.
  apply refines_silent, (silent_bind (fun _ => True)); [by apply purge_silent|done].
Qed.

Lemma Forall2_lookup_some {A B} (R : A -> B -> Prop) l k i x : Forall2 R l k -> l !! i = Some x ->
  exists y, k !! i = Some y /\ R x y.
Proof. intros H1 H2. destruct (Forall2_lookup_l _ _ _ _ _ H1 H2) as (y & ? & ?). by exists y. Qed.

(** Every step of the programs is matched by a step of the specifications. *)
Lemma pool_sim_step x x' y : pool_sim x y -> pool_step x x' -> exists y', spec_step y y' /\ pool_sim x' y'.
Proof.
  destruct y as [s sts]. intros (Hm & Hc & Hts) Hstep. cbn [fst snd] in *.
  destruct Hstep as [db ts i r j js Hi|db ts i r m js p db' Hi Hdb|db ts i r f js Hi]; cbn [fst snd] in *;
    destruct (Forall2_lookup_some _ _ _ _ _ Hts Hi) as (sp & Hsp & Hsim).
  - inversion Hsim as [? ? Hjs|]; subst. apply Forall_cons in Hjs as [Hj Hjs].
    eexists. split; [exact (spec_start _ _ _ _ j _ Hsp)|]. split; [done|]. split; [done|].
    apply Forall2_insert; [done|]. constructor; [done|by apply job_refines].
  - inversion Hsim as [|? ? sp' ? Hjs Hr]; subst. cbn [refines] in Hr. specialize (Hr db s Hm Hc).
    rewrite Hdb in Hr. destruct Hr as (s' & Hm' & [[Hd Hr]|(action & k & f & -> & Ha & Hsc & Hr)]).
    + exists (s', sts). split; [by apply spec_drop|]. split; [done|]. split; [apply (conf_same s); [done|apply Hd]|].
      rewrite <- (list_insert_id sts i _ Hsp). apply Forall2_insert; [done|]. by constructor.
    + eexists. split; [exact (spec_act _ _ _ _ _ _ _ _ _ Hsp Ha Hsc)|]. split; [done|].
      split; [by apply (conf_same s)|]. apply Forall2_insert; [done|]. by constructor.
  - inversion Hsim as [|? ? sp' ? Hjs Hr]; subst. cbn [refines] in Hr. destruct sp' as [P|]; [|done].
    eexists. split; [exact (spec_answer _ _ _ _ P f _ Hsp Hr)|]. split; [done|]. split; [done|].
    apply Forall2_insert; [done|]. by constructor.
Qed.

Lemma pool_sim_run x x' y : pool_sim x y -> rtc pool_step x x' -> exists y', rtc spec_step y y' /\ pool_sim x' y'.
Proof.
  intros Hsim Hrun. revert y Hsim. induction Hrun as [x|x x1 x2 Hstep _ IH]; intros y Hsim; [by exists y|].
  destruct (pool_sim_step _ _ _ Hsim Hstep) as (y1 & Hy1 & Hsim1). destruct (IH _ Hsim1) as (y2 & Hy2 & Hsim2).
  exists y2. split; [by eapply rtc_l|done].
Qed.

Lemma idle_sim jobs : Forall (Forall job_ok) jobs -> Forall2 thread_sim (idle jobs) (idle jobs).
Proof. induction 1 as [|js jobs Hjs _ IH]; constructor; [by constructor|done]. Qed.

Lemma initial_sim db s jobs : models db s -> conf s -> Forall (Forall job_ok) jobs ->
  pool_sim (db, idle jobs) (s, idle jobs).
Proof. intros Hm Hc Hjobs. split; [done|]. split; [done|]. by apply idle_sim. Qed.

(** The replies of the threads. *)
Definition all_replies {P} (ts : list (Thread P)) : list (list Frame) := map replies ts.

Lemma sim_replies ts sts : Forall2 thread_sim ts sts -> all_replies ts = all_replies sts.
Proof.
  unfold all_replies. induction 1 as [|t st ts sts Ht _ IH]; [done|]. cbn. f_equal; [|exact IH]. by destruct Ht.
Qed.

(** ** Accounting *)

(** A specification none of whose actions leaves bytes out of the memory counter. *)
Fixpoint accounted (sp : Spec) : Prop :=
  match sp with
  | SRet _ => True
  | SAct action k => (forall s f s', action s f s' -> unaccounted s' = unaccounted s) /\ forall f, accounted (k f)
  end.

Definition costless (j : Job) : Prop :=
  match j with Run _ _ c => forall k, command_cost c k = 0 | Sweep _ _ => True end.

Lemma costless_accounted j : costless j -> accounted (job_spec j).
Proof.
  destruct j as [fuel e c|e n]; [|done]. cbn [costless job_spec]. intros H0.
  assert (accounted (atomic (clock e 0) c)) as Hat.
  { split; [|done]. intros s f s' [(_ & _ & Hu) _]. rewrite Hu, H0, Z.add_0_r. apply wrap_u64_small, unaccounted_range. }
  assert (forall ks n, accounted (del_spec ks n)) as Hdel.
  { induction ks as [|k ks IH]; intros n; [done|]. split; [by intros s f s' (_ & _ & ? & _)|]. intros f. apply IH. }
  assert (forall p n i r, accounted (keys_spec (clock e 0) p n i r)) as Hkeys.
  { intros p n. induction n as [|n IH]; intros i r; [done|]. split; [by intros s f s' (-> & _)|]. intros f. apply IH. }
  assert (forall q n i b r, accounted (scan_spec (clock e 0) q n i b r)) as Hscan.
  { intros q n. induction n as [|n IH]; intros i b r; [done|]. split; [by intros s f s' (-> & _)|]. intros f.
    repeat case_match; done || apply IH. }
  destruct c; try (done || apply Hat || apply Hdel || apply Hkeys). cbn [command_spec]. cbv zeta.
  destruct (_ <=? _)%nat; [done|apply Hscan].
Qed.

Definition thread_accounted (t : Thread Spec) : Prop :=
  Forall costless (waiting t) /\ match running t with Some sp => accounted sp | None => True end.

Lemma spec_step_accounted y y' : spec_step y y' -> Forall thread_accounted y.2 ->
  unaccounted y'.1 = unaccounted y.1 /\ Forall thread_accounted y'.2.
Proof.
  destruct 1 as [s ts s' Hd|s ts i r j js Hi|s ts i r action k js f s' Hi Ha _|s ts i r P f js Hi _]; cbn [fst snd]; intros Hts.
  - split; [apply Hd|done].
  - split; [done|]. apply Forall_insert; [done|]. destruct (Forall_lookup_1 _ _ _ _ Hts Hi) as [Hjs _].
    apply Forall_cons in Hjs as [Hj Hjs]. split; [done|by apply costless_accounted].
  - destruct (Forall_lookup_1 _ _ _ _ Hts Hi) as [Hjs [Hact Hk]]. split; [by eapply Hact|].
    apply Forall_insert; [done|]. split; [done|apply Hk].
  - split; [done|]. apply Forall_insert; [done|]. by destruct (Forall_lookup_1 _ _ _ _ Hts Hi) as [Hjs _].
Qed.

Lemma spec_run_accounted y y' : rtc spec_step y y' -> Forall thread_accounted y.2 -> unaccounted y'.1 = unaccounted y.1.
Proof.
  induction 1 as [|y y1 y2 Hstep _ IH]; intros Hts; [done|].
  destruct (spec_step_accounted _ _ Hstep Hts) as [E Hts1]. rewrite <- E. by apply IH.
Qed.

(** ** A program among others *)

(** The result of a program whose sections find the given stores: whatever the other
    threads did before each of them. *)
Fixpoint runs_in {A} (p : Prog A) (dbs : list Db) : option A :=
  match p, dbs with
  | PRet a, [] => Some a
  | PStep m, db :: dbs' => match m db with Done p' _ => runs_in p' dbs' | Panic _ => None end
  | _, _ => None
  end.

Lemma keys_runs_in e now all p n : forall i r dbs l,
  runs_in (keys_prog e n i now all p r) dbs = Some l ->
  length dbs = n /\ forall k, k ∈ l <-> k ∈ r \/ exists j db m, dbs !! j = Some db /\ shards db !! (i + j)%nat = Some m
    /\ k ∈ shard_keys e (i + j) now all p m.
Proof.
  induction n as [|n IH]; intros i r dbs l; cbn [keys_prog].
  { destruct dbs; [|done]. intros [= <-]. split; [done|]. intros k. split; [by left|]. intros [?|(j & db & m & Hj & _)]; [done|].
    by rewrite lookup_nil in Hj. }
  destruct dbs as [|db dbs]; [done|]. cbn. unfold mbind, ST_bind, read_shard at 1. destruct (shards db !! i) as [m|] eqn:Hm; [|done].
  cbn. intros Hl. destruct (IH _ _ _ _ Hl) as [Hlen Hk]. split; [by rewrite <- Hlen|]. intros k. rewrite Hk, elem_of_app. split.
  - intros [[?|Hin]|(j & db' & m' & Hj & Hm' & Hin)]; [by left|right; exists 0%nat, db, m; by rewrite Nat.add_0_r|].
    right. exists (S j), db', m'. by rewrite Nat.add_succ_r.
  - intros [?|([|j] & db' & m' & Hj & Hm' & Hin)]; [by left; left| |].
    + injection Hj as <-. rewrite Nat.add_0_r in Hm', Hin. rewrite Hm in Hm'. injection Hm' as <-. left. by right.
    + right. exists j, db', m'. rewrite Nat.add_succ_r in Hm', Hin. done.
Qed.

Definition of_config (db : Db) : Prop := wf db /\ num_shards db = N.

Lemma shard_keys_home (e : Env) (i : nat) (now : Z) (p : bytes) (db : Db) (m : entries) (k : bytes) : of_config db -> shards db !! i = Some m ->
  k ∈ shard_keys e i now (bool_decide (p = bs "*")) p m <->
  shard_index N k = i /\ is_Some (live now (view db) !! k) /\ glob_match p k = true.
Proof.
  intros [Hw HN] Hi. pose proof (models_flat _ Hw) as Hm.
  rewrite shard_keys_elem, (shard_live i m now k db _ Hm Hi). cbn [flat nsh ks]. rewrite HN. tauto.
Qed.

Lemma keys_runs_total (e : Env) (now : Z) (p : bytes) (n : nat) : forall i r dbs, Forall of_config dbs -> length dbs = n -> (i + n <= N)%nat ->
  NoDup r -> (forall k, k ∈ r -> (shard_index N k < i)%nat) ->
  exists l, runs_in (keys_prog e n i now (bool_decide (p = bs "*")) p r) dbs = Some l /\ NoDup l.
Proof.
  induction n as [|n IH]; intros i r dbs Hdbs Hlen Hi Hr Hlt.
  { destruct dbs; [|done]. by exists r. }
  destruct dbs as [|db dbs]; [done|]. apply Forall_cons in Hdbs as [Hdb Hdbs]. injection Hlen as Hlen.
  destruct (lookup_lt_is_Some_2 (shards db) i) as [m Hm]; [destruct Hdb as [Hw HN]; rewrite (wf_len _ Hw); lia|].
  cbn [keys_prog]. cbn. unfold mbind, ST_bind, read_shard at 1. rewrite Hm. cbn. apply IH; [done|done|lia|..].
  - apply NoDup_app. split; [done|]. split; [|apply NoDup_shard_keys].
    intros k Hk Hin. apply (shard_keys_home _ _ _ _ _ _ _ Hdb Hm) in Hin as [<- _]. specialize (Hlt k Hk). lia.
  - intros k [Hk|Hin]%elem_of_app; [specialize (Hlt k Hk); lia|].
    apply (shard_keys_home _ _ _ _ _ _ _ Hdb Hm) in Hin as [<- _]. lia.
Qed.

(** ** Progress *)

(** The program ends after at most [n] sections of its own, whatever the others do. *)
Fixpoint bounded {A} (n : nat) (p : Prog A) : Prop :=
  match p with
  | PRet _ => True
  | POut => False
  | PStep m =>
    match n with
    | O => False
    | S n' => forall db s, models db s -> conf s -> match m db with Done p' _ => bounded n' p' | Panic _ => True end
    end
  end.

Lemma bounded_mono {A} n : forall k (p : Prog A), (n <= k)%nat -> bounded n p -> bounded k p.
Proof.
  induction n as [|n IH]; intros k p Hk Hp; (destruct p as [a|m|]; [by destruct k|..]); destruct k; try done; try lia.
  cbn in Hp |- *. intros db s Hm Hc. specialize (Hp db s Hm Hc). destruct (m db); [|done]. apply (IH k); [lia|done].
Qed.

Lemma bounded_bind {A B} n k (p : Prog A) (f : A -> Prog B) :
  bounded n p -> (forall a, bounded k (f a)) -> bounded (n + k) (p ≫= f).
Proof.
  revert p. induction n as [|n IH]; intros p Hp Hf; (destruct p as [a|m|]; [by apply (bounded_mono k); [lia|apply Hf]|..]); try done.
  cbn in Hp |- *. intros db s Hm Hc. specialize (Hp db s Hm Hc). destruct (m db); [|done]. by apply IH.
Qed.

(** What follows takes no section. *)
Lemma bounded_last {A B} n (p : Prog A) (f : A -> Prog B) : bounded n p -> (forall a, bounded 0 (f a)) -> bounded n (p ≫= f).
Proof. intros Hp Hf. rewrite <- (Nat.add_0_r n). by apply bounded_bind. Qed.

Lemma bounded_section {A B} n (m : ST Db A) (f : A -> Prog B) :
  (forall db s, models db s -> conf s -> match m db with Done a _ => bounded n (f a) | Panic _ => True end) ->
  bounded (S n) (section m ≫= f).
Proof. intros Hm db s Hmod Hc. specialize (Hm db s Hmod Hc). by destruct (m db). Qed.

Lemma bounded_section_any {A B} n (m : ST Db A) (f : A -> Prog B) :
  (forall a, bounded n (f a)) -> bounded (S n) (section m ≫= f).
Proof. intros Hf. apply bounded_section. intros db s _ _. by destruct (m db). Qed.

Lemma bounded_one {A} (m : ST Db A) : bounded 1 (section m).
Proof. intros db s _ _. by destruct (m db). Qed.

(** How many sections a job takes; SET only without a memory limit: making room has no bound
    while others fill the store. *)
Definition sections (j : Job) : nat :=
  match j with
  | Run _ _ c =>
    match c with
    | Get _ => 2
    | Set_ _ => 3
    | Del d => length (CmdDel.keys d)
    | Keys _ => 1 + N
    | Scan _ => 3 + N
    | Info => 2 + N
    | _ => 1
    end
  | Sweep _ _ => 2
  end.
Definition wait_free (j : Job) : Prop := match j with Run _ _ (Set_ _) => C <= 0 | _ => True end.

Lemma scan_bounded e a fuel : forall i off sc mt, 0 <= off ->
  (S (N - i) < fuel)%nat \/ (scan_target a <= sc /\ (0 < fuel)%nat) ->
  bounded (if scan_target a <=? sc then 0 else S (N - i)) (scan_prog fuel e a N i off sc mt).
Proof.
  induction fuel as [|fuel IH]; intros i off sc mt Hoff Hf; [lia|]. cbn [scan_prog].
  destruct (Z.leb_spec (scan_target a) sc) as [Hle|Hlt].
  { rewrite (proj2 (Z.ltb_ge _ _)), andb_false_r by lia. done. }
  destruct (Nat.ltb_spec i N); [|done]. rewrite (proj2 (Z.ltb_lt _ _)) by lia. cbn [andb].
  destruct Hf as [Hf|[Hf _]]; [|lia]. apply bounded_section. intros db s Hm HN.
  destruct (read_shard_some i db s Hm HN) as (m & Hsh & Hread); [lia|]. rewrite Hread. cbn zeta. cbn [mret ST_ret].
  assert (forall sc' mt', bounded (N - i) (scan_prog fuel e a N (S i) 0 sc' mt')) as Hnext.
  { intros sc' mt'. apply (bounded_mono (if scan_target a <=? sc' then 0 else S (N - S i))); [destruct (_ <=? _); lia|].
    apply IH; lia. }
  destruct (Z.of_nat (size m) <=? off) eqn:Ht; [apply Hnext|]. apply Z.leb_gt in Ht.
  rewrite scan_entries_eq by done. cbv zeta. rewrite length_drop, shard_iter_length.
  set (n := (Z.to_nat (scan_target a - sc) `min` (size m - Z.to_nat off))%nat).
  destruct (Z.leb_spec (Z.of_nat (size m)) (off + Z.of_nat n)) as [_|Hmore]; [apply Hnext|].
  assert (Z.of_nat n = scan_target a - sc) as Hn by (subst n; lia).
  apply (bounded_mono (if scan_target a <=? sc + Z.of_nat n then 0 else S (N - i))).
  - rewrite (proj2 (Z.leb_le _ _)) by lia. lia.
  - apply IH; [lia|]. right. lia.
Qed.

Lemma del_bounded ks : forall n, bounded (length ks) (del_prog ks n).
Proof. induction ks as [|k ks IH]; intros n; [done|]. cbn [del_prog length]. apply bounded_section_any. intros. apply IH. Qed.

Lemma keys_bounded (e : Env) (now : Z) (all : bool) (p : bytes) (n : nat) : forall i r, bounded n (keys_prog e n i now all p r).
Proof. induction n as [|n IH]; intros i r; [done|]. cbn [keys_prog]. apply bounded_section_any. intros. apply IH. Qed.

Lemma len_bounded n : forall i t, bounded n (len_prog n i t).
Proof. induction n as [|n IH]; intros i t; [done|]. cbn [len_prog]. apply bounded_section_any. intros. apply IH. Qed.

Lemma bounded_count {B} n (f : nat -> Prog B) : bounded n (f N) -> bounded (S n) (shard_count ≫= f).
Proof.
  intros Hf. apply bounded_section. intros db s Hm [HN _]. rewrite ST_get_bind. cbn [mret ST_ret].
  rewrite (wf_len _ (models_wf _ _ Hm)). destruct Hm as (_ & _ & _ & _ & _ & Hn & _). by rewrite <- Hn, HN.
Qed.

Lemma job_bounded j : job_ok j -> wait_free j -> bounded (sections j) (job_prog j).
Proof.
  destruct j as [fuel e c|e n]; cbn [job_prog sections wait_free].
  - intros Hok Hw. destruct c as [c|c|c|c|c|c|c|c|c|c|c|c|c| | |]; try exact (bounded_one _); cbn [command_prog].
    + apply (bounded_bind 2 0); [|done]. apply bounded_section_any. intros [idx [r|]]; [done|apply bounded_one].
    + apply (bounded_bind 3 0); [|done]. apply bounded_section_any. intros t.
      apply (bounded_bind 1 1); [|intros; apply bounded_one]. apply bounded_section. intros db s Hm [_ HC].
      rewrite ST_get_bind. cbn [mret ST_ret]. rewrite (proj2 (Z.ltb_ge _ _)); [done|].
      destruct Hm as (_ & _ & _ & _ & <- & _). lia.
    + apply bounded_last; [|done].
      apply del_bounded.
    + apply bounded_count. apply bounded_last; [|done]. apply keys_bounded.
    + apply bounded_count. cbn zeta. apply bounded_last; [|done].
      destruct (Z.leb_spec (Z.of_nat N) (Z.shiftr (CmdScan.cursor c) 32)); [done|].
      apply bounded_last; [|by intros [[i off] mt]].
      set (a := mkScan _ _ _ _). apply (bounded_mono (if scan_target a <=? 0 then 0 else S (N - Z.to_nat (Z.shiftr (CmdScan.cursor c) 32)))).
      * destruct (_ <=? _); lia.
      * apply scan_bounded; [by apply Z.land_nonneg; right|]. 
        destruct Hok as [Hcur _]. pose proof (proj2 (Z.shiftr_nonneg (CmdScan.cursor c) 32) Hcur). left. lia.
    + apply bounded_count. rewrite (Nat.add_comm 1). apply bounded_bind; [apply len_bounded|].
      intros; apply bounded_one.
  - intros _ _. apply (bounded_bind 2 0); [|done]. unfold purge_prog. cbn zeta. apply (bounded_section_any 1).
    intros [[[idx k] keys]|]; [|done]. apply (bounded_bind 1 0); [|done]. case_bool_decide; [done|apply bounded_one].
Qed.

(** How many steps a thread may still take, and how many jobs it has had. *)
Definition jobs_steps (js : list Job) : nat := sum_list_with (fun j => S (S (sections j))) js.
Definition thread_left (n : nat) (t : Thread (Prog Frame)) : Prop :=
  Forall wait_free (waiting t) /\
  match running t with
  | Some p => exists b, bounded b p /\ n = (S b + jobs_steps (waiting t))%nat
  | None => n = jobs_steps (waiting t)
  end.
Definition thread_jobs (t : Thread (Prog Frame)) : nat :=
  (length (replies t) + match running t with Some _ => 1 | None => 0 end + length (waiting t))%nat.

Definition pool_left (n : nat) (ts : list (Thread (Prog Frame))) : Prop :=
  exists ns, Forall2 thread_left ns ts /\ n = sum_list ns.

Lemma sum_list_lt (l : list nat) i x y : l !! i = Some x -> (y < x)%nat -> (sum_list (<[i:=y]> l) < sum_list l)%nat.
Proof.
  revert i. induction l as [|z l IH]; intros i Hi Hy; [done|]. destruct i as [|i].
  - injection Hi as ->. change (y + sum_list l < x + sum_list l)%nat. lia.
  - specialize (IH i Hi Hy). change (z + sum_list (<[i:=y]> l) < z + sum_list l)%nat. lia.
Qed.

Lemma pool_left_update n ts i t t' : pool_left n ts -> ts !! i = Some t ->
  (forall k, thread_left k t -> exists k', (k' < k)%nat /\ thread_left k' t') ->
  exists n', (n' < n)%nat /\ pool_left n' (<[i := t']> ts).
Proof.
  intros (ns & Hns & ->) Hi Ht. destruct (Forall2_lookup_r _ _ _ _ _ Hns Hi) as (k & Hk & Hl).
  destruct (Ht k Hl) as (k' & Hlt & Hl'). exists (sum_list (<[i := k']> ns)). split; [by eapply sum_list_lt|].
  eexists. split; [|done]. by apply Forall2_insert.
Qed.

(** Every step brings the end nearer, and loses no job. *)
Lemma pool_step_left x x' y n : pool_sim x y -> pool_left n x.2 -> pool_step x x' ->
  (exists n', (n' < n)%nat /\ pool_left n' x'.2) /\ map thread_jobs x'.2 = map thread_jobs x.2.
Proof.
  intros (Hm & Hc & Hts) Hleft Hstep.
  assert (forall ts i t t', ts !! i = Some t -> thread_jobs t' = thread_jobs t ->
    map thread_jobs (<[i := t']> ts) = map thread_jobs ts) as Hjobs.
  { intros ts i t t' Hi E. transitivity (<[i := thread_jobs t']> (thread_jobs <$> ts)); [apply (list_fmap_insert thread_jobs)|].
    rewrite E. apply list_insert_id. by rewrite list_lookup_fmap, Hi. }
  destruct Hstep as [db ts i r j js Hi|db ts i r m js p db' Hi Hdb|db ts i r f js Hi]; cbn [fst snd] in *.
  - split; [|apply (Hjobs _ _ _ _ Hi); unfold thread_jobs; cbn; lia]. apply (pool_left_update _ _ _ _ _ Hleft Hi).
    intros k [Hw ->]. cbn [waiting] in *. apply Forall_cons in Hw as [Hwj Hw].
    destruct (Forall2_lookup_some _ _ _ _ _ Hts Hi) as (sp & _ & Hsim). inversion Hsim as [? ? Hok|]; subst.
    apply Forall_cons in Hok as [Hok _]. exists (S (sections j) + jobs_steps js)%nat.
    split; [unfold jobs_steps; cbn; lia|]. split; [done|]. exists (sections j). split; [by apply job_bounded|done].
  - split; [|by apply (Hjobs _ _ _ _ Hi)]. apply (pool_left_update _ _ _ _ _ Hleft Hi).
    intros k [Hw (b & Hb & ->)]. cbn [waiting] in *. destruct b as [|b]; [done|]. cbn in Hb. specialize (Hb db _ Hm Hc).
    rewrite Hdb in Hb. exists (S b + jobs_steps js)%nat. split; [lia|]. split; [done|]. by exists b.
  - split; [|apply (Hjobs _ _ _ _ Hi); unfold thread_jobs; cbn; rewrite length_app; cbn; lia].
    apply (pool_left_update _ _ _ _ _ Hleft Hi). intros k [Hw (b & _ & ->)]. cbn [waiting] in *. exists (jobs_steps js). by split; [lia|].
Qed.

Lemma pool_run_left x x' y n k : pool_sim x y -> pool_left n x.2 -> nsteps pool_step k x x' ->
  exists y' n', pool_sim x' y' /\ pool_left n' x'.2 /\ (n' + k <= n)%nat /\ map thread_jobs x'.2 = map thread_jobs x.2.
Proof.
  intros Hsim Hleft Hrun. revert y n Hsim Hleft. induction Hrun as [x|k x x1 x2 Hstep _ IH]; intros y n Hsim Hleft.
  { exists y, n. split; [done|]. split; [done|]. split; [lia|done]. }
  destruct (pool_step_left _ _ _ _ Hsim Hleft Hstep) as [(n1 & Hn1 & Hleft1) Hj].
  destruct (pool_sim_step _ _ _ Hsim Hstep) as (y1 & _ & Hsim1).
  destruct (IH _ _ Hsim1 Hleft1) as (y' & n' & Hsim' & Hleft' & Hn' & Hj'). exists y', n'.
  split; [done|]. split; [done|]. split; [lia|congruence].
Qed.

(** A pool in which no step is possible has finished. *)
Lemma pool_stuck x y n : pool_sim x y -> pool_left n x.2 -> (forall x', ~ pool_step x x') ->
  Forall (fun t => running t = None /\ waiting t = []) x.2.
Proof.
  destruct x as [db ts]. intros (Hm & Hc & Hts) (ns & Hns & _) Hstuck. cbn [fst snd] in *.
  apply Forall_lookup_2. intros i t Hi. destruct (Forall2_lookup_r _ _ _ _ _ Hns Hi) as (k & _ & Hl).
  destruct (Forall2_lookup_some _ _ _ _ _ Hts Hi) as (st & _ & Hsim).
  destruct Hsim as [r js _|r p sp js _ Hr]; cbn [running waiting] in *.
  - split; [done|]. destruct js as [|j js]; [done|]. destruct (Hstuck _ (pool_start _ _ _ _ _ _ Hi)).
  - exfalso. destruct p as [f|m|]; cbn in Hr.
    + by destruct (Hstuck _ (pool_reply _ _ _ _ _ _ Hi)).
    + specialize (Hr db _ Hm Hc). destruct (m db) as [p db'|] eqn:E; [|done].
      by destruct (Hstuck _ (pool_section _ _ _ _ _ _ _ _ Hi E)).
    + by destruct Hl as [_ (b & Hb & _)]; destruct b.
Qed.

(** The steps of all threads together. *)
Definition total_steps (jobs : list (list Job)) : nat := sum_list_with jobs_steps jobs.

Lemma idle_left jobs : Forall (Forall wait_free) jobs -> pool_left (total_steps jobs) (idle jobs).
Proof.
  intros Hw. exists (map jobs_steps jobs). split.
  - induction Hw as [|js jobs Hjs _ IH]; constructor; [by split|done].
  - unfold total_steps. clear Hw. induction jobs as [|js jobs IH]; [done|]. cbn. by rewrite IH.
Qed.
(** ** Properties *)

(** C4: the store under interleaving. Whatever commands the threads run, except for an EXPIRE
    whose deadline is out of the clock's range ([job_ok]; such a section panics, see
    [expire_correct]), whatever sweeps, and in whatever order their lock sections are
    scheduled, the run is one of the specifications: the same replies in each thread, from a
    keyspace that is the store's, where GET, SET, EXPIRE, TTL and every list, hash and set
    command takes effect and replies in one atomic action, DEL in one per key, KEYS in one
    per shard and SCAN in one per shard it visits, and between actions entries are only
    dropped (only expired ones without a memory limit). At no point can a section panic. *)
Theorem interleaving_refines (db : Db) (s : Flat) (jobs : list (list Job)) db' ts'
    (Hm : models db s) (Hc : conf s) (Hjobs : Forall (Forall job_ok) jobs)
    (Hrun : rtc pool_step (db, idle jobs) (db', ts')) :
  exists s' sts', rtc spec_step (s, idle jobs) (s', sts') /\ models db' s' /\ all_replies ts' = all_replies sts'
  /\ forall t m, t ∈ ts' -> running t = Some (PStep m) -> exists p db'', m db' = Done p db''.
Proof.
  destruct (pool_sim_run _ _ _ (initial_sim _ _ _ Hm Hc Hjobs) Hrun) as ([s' sts'] & Hspec & Hm' & Hc' & Hts).
  cbn [fst snd] in *. exists s', sts'. split; [done|]. split; [done|]. split; [by apply sim_replies|].
  intros t m [i Hi]%list_elem_of_lookup Ht. destruct (Forall2_lookup_some _ _ _ _ _ Hts Hi) as (st & _ & Hsim).
  destruct Hsim as [|r p sp js _ Hr]; [done|]. cbn in Ht. injection Ht as ->. specialize (Hr db' s' Hm' Hc').
  destruct (m db') as [p db''|]; [by exists p, db''|done].
Qed.

(** C11: memory accounting under interleaving. When no thread runs a command that creates a
    list, hash or set, or an EXPIRE whose deadline is out of the clock's range, every
    interleaving of GETs, SETs, DELs, EXPIREs, pops, evictions and sweeps leaves the store
    well formed and the memory counter exactly as accurate as it was: no increment is lost or
    applied twice. *)
Theorem interleaving_accounts (db : Db) (s : Flat) (jobs : list (list Job)) db' ts'
    (Hm : models db s) (Hc : conf s) (Hjobs : Forall (Forall job_ok) jobs) (Hcost : Forall (Forall costless) jobs)
    (Hrun : rtc pool_step (db, idle jobs) (db', ts')) :
  exists s', models db' s' /\ unaccounted s' = unaccounted s.
Proof.
  destruct (pool_sim_run _ _ _ (initial_sim _ _ _ Hm Hc Hjobs) Hrun) as ([s' sts'] & Hspec & Hm' & _).
  exists s'. split; [done|]. apply (spec_run_accounted _ _ Hspec). cbn [snd idle].
  apply Forall_fmap. eapply Forall_impl; [exact Hcost|]. intros js Hjs. by split.
Qed.

(** C10: every connection is answered. A pool of commands and sweeps, without a SET under a
    memory limit ([wait_free]) and without an EXPIRE whose deadline is out of the clock's range
    ([job_ok]; that one panics and never replies), takes at most [total_steps] steps, however
    the threads are scheduled and with no assumption of fairness (a thread waits for no
    other: each job takes a number of its own sections that does not depend on what the
    others do), and when it can take no more, every thread has replied to every one of its
    jobs. *)
Theorem interleaving_replies (db : Db) (s : Flat) (jobs : list (list Job))
    (Hm : models db s) (Hc : conf s) (Hjobs : Forall (Forall job_ok) jobs) (Hw : Forall (Forall wait_free) jobs) :
  (forall k x, nsteps pool_step k (db, idle jobs) x -> (k <= total_steps jobs)%nat)
  /\ (forall x, rtc pool_step (db, idle jobs) x -> (forall x', ~ pool_step x x') ->
       Forall (fun t => running t = None /\ waiting t = []) x.2 /\ map length (all_replies x.2) = map length jobs).
Proof.
  pose proof (initial_sim _ _ _ Hm Hc Hjobs) as Hsim. pose proof (idle_left _ Hw) as Hleft. split.
  - intros k x Hrun. destruct (pool_run_left _ _ _ _ _ Hsim Hleft Hrun) as (_ & n' & _ & _ & Hn & _). lia.
  - intros x [k Hrun]%rtc_nsteps_1 Hstuck.
    destruct (pool_run_left _ _ _ _ _ Hsim Hleft Hrun) as (y' & n' & Hsim' & Hleft' & _ & Hj).
    pose proof (pool_stuck _ _ _ Hsim' Hleft' Hstuck) as Hdone. split; [done|].
    transitivity (map thread_jobs x.2).
    + unfold all_replies. rewrite map_map. clear - Hdone. induction Hdone as [|t ts [Hr Hw] _ IH]; [done|].
      cbn. rewrite IH. f_equal. unfold thread_jobs. rewrite Hr, Hw. cbn. lia.
    + rewrite Hj. cbn [snd]. unfold idle. rewrite map_map. by apply map_ext.
Qed.

(** C34: KEYS among other connections. Whatever the other threads do between the shards it
    visits, KEYS replies; its reply has no duplicates and holds exactly the keys that matched
    and were alive when their shard was read ([dbs] are the stores at the reads, in the order
    of the shards); so a matching key that is alive all along is in it. *)
Theorem keys_interference (e : Env) (now : Z) (p : bytes) (dbs : list Db)
    (Hdbs : Forall of_config dbs) (Hlen : length dbs = N) :
  exists l, runs_in (keys_prog e N 0 now (bool_decide (p = bs "*")) p []) dbs = Some l
  /\ NoDup l
  /\ (forall k, k ∈ l <-> glob_match p k = true
       /\ exists db, dbs !! shard_index N k = Some db /\ is_Some (live now (view db) !! k))
  /\ (forall k, glob_match p k = true -> (forall db, db ∈ dbs -> is_Some (live now (view db) !! k)) ->
       (0 < N)%nat -> k ∈ l).
Proof.
  destruct (keys_runs_total e now p N 0 [] dbs Hdbs Hlen) as (l & Hl & Hnd); [lia|apply NoDup_nil_2|by intros k ?%elem_of_nil|].
  exists l. split; [done|]. split; [done|]. destruct (keys_runs_in _ _ _ _ _ _ _ _ _ Hl) as [_ Hk].
  rewrite Forall_forall in Hdbs.
  assert (forall k, k ∈ l <-> glob_match p k = true
    /\ exists db, dbs !! shard_index N k = Some db /\ is_Some (live now (view db) !! k)) as Hin.
  { intros k. rewrite Hk. split.
    - intros [?%elem_of_nil|(j & db & m & Hj & Hm & Hin)]; [done|]. pose proof (list_elem_of_lookup_2 _ _ _ Hj) as Hdb.
      apply (shard_keys_home _ _ _ _ _ _ _ (Hdbs _ Hdb) Hm) in Hin as (Hi & Hlive & Hg). split; [done|].
      rewrite Hi. by exists db.
    - intros (Hg & db & Hj & Hlive). right. pose proof (Hdbs _ (list_elem_of_lookup_2 _ _ _ Hj)) as Hdb.
      destruct (lookup_lt_is_Some_2 (shards db) (shard_index N k)) as [m Hm].
      { destruct Hdb as [Hw HN']. apply lookup_lt_Some in Hj. rewrite (wf_len _ Hw). lia. }
      exists (shard_index N k), db, m. split; [done|]. split; [done|]. cbn [Nat.add].
      by apply (shard_keys_home _ _ _ _ _ _ _ Hdb Hm). }
  split; [exact Hin|]. intros k Hg Hlive HN. apply Hin. split; [done|].
  destruct (lookup_lt_is_Some_2 dbs (shard_index N k)) as [db Hj]; [rewrite Hlen; by apply shard_index_lt|].
  exists db. split; [done|]. apply Hlive. by eapply list_elem_of_lookup_2.
Qed.
End concurrent.

(** Concrete runs. *)
#[local] Existing Instance Demo.hash.

Lemma demo_conf : conf 4 1000 (flat Demo.db).
Proof. done. Qed.

(** A SET that another connection's reads overtake, between the making of room and the store. *)
Definition demo_jobs : list (list Job) := [
  [Run 5 Demo.env (Set_ (CmdSet.mkSet (bs "name") (bs "new") None))];
  [Run 5 Demo.env (Get (CmdGet.mkGet (bs "name"))); Run 5 Demo.env (Get (CmdGet.mkGet (bs "name")))];
  [Sweep Demo.env 3]].
Definition demo_schedule : list nat := [0; 0; 1; 0; 2; 1; 1; 0; 2; 1; 0; 1; 1; 0]%nat.
Definition demo_replies : list (list Frame) := [
  [Simple (bs "OK")]; [Bulk (bs "redis"); Bulk (bs "new")]; []].

Lemma demo_jobs_ok : Forall (Forall (job_ok (clock Demo.env 0))) demo_jobs /\ Forall (Forall costless) demo_jobs.
Proof. split; repeat constructor; done. Qed.

Lemma demo_run : exists x, exec demo_schedule (Demo.db, idle demo_jobs) = Some x /\ all_replies x.2 = demo_replies.
Proof.
  assert (option_map (fun x => all_replies x.2) (exec demo_schedule (Demo.db, idle demo_jobs)) = Some demo_replies) as H
    by (vm_compute; reflexivity).
  destruct (exec _ _) as [x|]; [|done]. exists x. split; [done|]. cbn in H. congruence.
Qed.

Lemma interleaving_refines_witness :
  exists db' ts' s' sts', rtc pool_step (Demo.db, idle demo_jobs) (db', ts')
  /\ rtc (spec_step 4 1000 (clock Demo.env 0)) (flat Demo.db, idle demo_jobs) (s', sts')
  /\ models db' s' /\ all_replies sts' = demo_replies.
Proof.
  destruct demo_run as ([db' ts'] & Hx & Hr). apply exec_sound in Hx.
  destruct (interleaving_refines 4 1000 (clock Demo.env 0) _ _ _ _ _ Demo.ok demo_conf (proj1 demo_jobs_ok) Hx)
    as (s' & sts' & Hs & Hm & Hrep & _).
  exists db', ts', s', sts'. rewrite <- Hrep. split; [exact Hx|]. split; [exact Hs|]. split; [exact Hm|exact Hr].
Defined.

Lemma interleaving_accounts_witness :
  exists db' ts' s', rtc pool_step (Demo.db, idle demo_jobs) (db', ts') /\ models db' s'
  /\ unaccounted s' = unaccounted (flat Demo.db).
Proof.
  destruct demo_run as ([db' ts'] & Hx & Hr). apply exec_sound in Hx.
  destruct (interleaving_accounts 4 1000 (clock Demo.env 0) _ _ _ _ _ Demo.ok demo_conf
    (proj1 demo_jobs_ok) (proj2 demo_jobs_ok) Hx) as (s' & Hm & Hu).
  exists db', ts', s'. split; [exact Hx|]. split; [exact Hm|exact Hu].
Defined.

(** Another connection deletes a key while KEYS is between two shards. *)
Definition demo_deleted : Db := match del [bs "h"] Demo.db with Done _ db | Panic db => db end.

Lemma demo_deleted_config : of_config 4 demo_deleted.
Proof.
  pose proof (wp_del_loop [bs "h"] 0 Demo.db _ Demo.ok) as Hw. unfold demo_deleted, del.
  unfold wp in Hw. destruct (del_loop [bs "h"] 0 Demo.db) as [r db'|]; [|done].
  destruct Hw as (s' & Hm & (_ & Hn & _) & _). split; [by eapply models_wf|].
  destruct Hm as (_ & _ & _ & _ & _ & <- & _). exact Hn.
Qed.

Lemma keys_interference_witness :
  exists l, runs_in (keys_prog Demo.env 4 0 0 true (bs "*") []) [Demo.db; Demo.db; demo_deleted; demo_deleted] = Some l
  /\ NoDup l /\ forall k, k ∈ l -> exists db,
       [Demo.db; Demo.db; demo_deleted; demo_deleted] !! shard_index 4 k = Some db /\ is_Some (live 0 (view db) !! k).
Proof.
  destruct (keys_interference 4 Demo.env 0 (bs "*") [Demo.db; Demo.db; demo_deleted; demo_deleted]) as (l & Hl & Hnd & Hin & _).
  - assert (of_config 4 Demo.db) by (split; [apply Demo.ok|done]). pose proof demo_deleted_config.
    do 4 (apply Forall_cons_2; [assumption|]). apply Forall_nil_2.
  - done.
  - exists l. split; [exact Hl|]. split; [exact Hnd|]. intros k Hk. exact (proj2 (proj1 (Hin k) Hk)).
Defined.

(** Two connections and the sweeper on a store without a memory limit. *)
Definition unlimited_jobs : list (list Job) := [
  [Run 1 Demo.env (Set_ (CmdSet.mkSet (bs "name") (bs "new") None)); Run 1 Demo.env (Keys (CmdKeys.mkKeys (bs "*")))];
  [Run 1 Demo.env (Del (CmdDel.mkDel [bs "name"; bs "h"]))];
  [Sweep Demo.env 3]].

Lemma interleaving_replies_witness :
  let db := with_options_and_metrics 4 0 0 (Metrics_new 0 None) in
  (forall k x, nsteps pool_step k (db, idle unlimited_jobs) x -> (k <= 20)%nat)
  /\ (forall x, rtc pool_step (db, idle unlimited_jobs) x -> (forall x', ~ pool_step x x') ->
       map length (all_replies x.2) = [2; 1; 1]%nat).
Proof.
  cbn zeta. destruct (interleaving_replies 4 0 (clock Demo.env 0) (with_options_and_metrics 4 0 0 (Metrics_new 0 None))
    (flat (with_options_and_metrics 4 0 0 (Metrics_new 0 None))) unlimited_jobs) as [H1 H2].
  - apply models_flat, wf_new. lia.
  - done.
  - repeat constructor; done.
  - repeat constructor; cbn; lia.
  - split; [exact H1|]. intros x Hx Hs. exact (proj2 (H2 x Hx Hs)).
Defined.
