(* ===== verification/Aof.v ===== *)
(** * The append-only file: [src/src/aof.rs]

    The recording of frames, the writer task with its queue and its buffered file, and the
    replay at startup. *)
From S2P Require Import Prelude.
From S2P Require Import RustStd.
From S2P Require Import Frame.
From S2P Require Connection.
From S2P Require Import Metrics.
From S2P Require Import Store.
From S2P Require Import Keyspace.
From S2P Require Import Evict.
From S2P Require Import DbKeys.
From S2P Require Import Cmd.
From S2P Require Import Command.

(** ** The writer task *)

Inductive AofMsg :=
  | Record_ (b : bytes)
  | Flush (id : nat).

(** The channel, the bytes in the [BufWriter], the file, and the flushes replied to; [sent]
    is every message ever sent. *)
Record Writer := mkWriter {
  queue : list AofMsg;
  pending : bytes;
  file : bytes;
  acked : list nat;
  sent : list AofMsg;
}.

(** [Aof::start] on a file that holds [initial] (it is opened for appending). *)
Definition Aof_start (initial : bytes) : Writer := mkWriter [] [] initial [] [].

(** [Aof::record]: the message for a frame. *)
Definition record (f : Frame) : AofMsg := Record_ (write_to_buf f []).

(** The steps of the task and of its clients. The buffered writer may write any part of what
    it holds at any time; a flush writes and syncs all of it before it replies. *)
Inductive writer_step : Writer -> Writer -> Prop :=
  | step_send m w :
      writer_step w (mkWriter (queue w ++ [m]) (pending w) (file w) (acked w) (sent w ++ [m]))
  | step_record b q w :
      queue w = Record_ b :: q ->
      writer_step w (mkWriter q (pending w ++ b) (file w) (acked w) (sent w))
  | step_spill n w :
      writer_step w (mkWriter (queue w) (drop n (pending w)) (file w ++ take n (pending w)) (acked w) (sent w))
  | step_flush id q w :
      queue w = Flush id :: q ->
      writer_step w (mkWriter q [] (file w ++ pending w) (acked w ++ [id]) (sent w)).

Inductive writer_reach (initial : bytes) : Writer -> Prop :=
  | reach_start : writer_reach initial (Aof_start initial)
  | reach_step w w' : writer_reach initial w -> writer_step w w' -> writer_reach initial w'.

(** The bytes of the records among some messages. *)
Definition recorded (ms : list AofMsg) : bytes :=
  concat (map (fun m => match m with Record_ b => b | Flush _ => [] end) ms).

Lemma recorded_app ms1 ms2 : recorded (ms1 ++ ms2) = recorded ms1 ++ recorded ms2.
Proof. unfold recorded. by rewrite map_app, concat_app. Qed.

(** The invariant of the task: nothing is lost or reordered, and a flush that was replied to
    has everything sent before it in the file. *)
Definition writer_inv (initial : bytes) (w : Writer) : Prop :=
  exists done,
    sent w = done ++ queue w
    /\ file w ++ pending w = initial ++ recorded done
    /\ forall id, id ∈ acked w -> exists pre post, done = pre ++ Flush id :: post
         /\ exists more, file w = initial ++ recorded pre ++ more.

Lemma writer_inv_reach initial w : writer_reach initial w -> writer_inv initial w.
Proof.
  induction 1 as [|w w' _ (d & Hs & Hf & Ha) Hstep].
  - exists []. split_and!; [done|by rewrite !app_nil_r|by intros id ?%elem_of_nil].
  - destruct Hstep as [m w|b q w Hq|n w|id q w Hq]; cbn in *.
    + exists d. cbn. rewrite Hs, app_assoc. by split_and!.
    + exists (d ++ [Record_ b]). cbn. split_and!.
      * by rewrite Hs, Hq, <- app_assoc.
      * rewrite (app_assoc (file w)), Hf, recorded_app. unfold recorded at 2. cbn. by rewrite app_nil_r, app_assoc.
      * intros id Hid. destruct (Ha id Hid) as (pre & post & -> & Hm). exists pre, (post ++ [Record_ b]).
        split; [by rewrite <- app_assoc|done].
    + exists d. cbn. split_and!; [done|by rewrite <- app_assoc, take_drop|].
      intros id Hid. destruct (Ha id Hid) as (pre & post & Hd & more & ->).
      exists pre, post. split; [done|]. eexists. by rewrite <- !app_assoc.
    + exists (d ++ [Flush id]). cbn. split_and!.
      * by rewrite Hs, Hq, <- app_assoc.
      * rewrite app_nil_r, Hf, recorded_app. unfold recorded at 3. cbn. by rewrite app_nil_r.
      * intros id' [Hid'| ->%list_elem_of_singleton]%elem_of_app.
        -- destruct (Ha id' Hid') as (pre & post & -> & more & Hfile). exists pre, (post ++ [Flush id]).
           split; [by rewrite <- app_assoc|]. rewrite Hfile. eexists. by rewrite <- !app_assoc.
        -- exists d, []. split; [done|]. exists []. by rewrite app_nil_r.
Qed.

(** ** [Aof::load] *)

(** What one replayed command reads from outside: the clock while it is parsed, and the
    environment of its execution. *)
Record Input := mkInput { parse_now : Z; env : Env }.

Section load.
Context {Hh : Hasher} `{UnicodeCase} `{FrameDebug}.

(** The loop; [None] without fuel. *)
Fixpoint load_loop (fuel : nat) (inp : nat -> Input) (i : nat) (buf : bytes) (cursor : Cursor) (command_count : Z)
    : ST Db (option (Result bytes Z)) :=
  match fuel with
  | O => mret None
  | S fuel' =>
    match chunk cursor with
    | [] => mret (Some (Ok command_count))
    | _ =>
      let start_pos := position cursor in
      match check cursor with
      | Ok (_, cursor') =>
        let end_pos := position cursor' in
        match parse (cursor_of (take (end_pos - start_pos) (drop start_pos buf))) with
        | Err e => mret (Some (Err (Connection.FrameError_to_string e)))
        | Ok (frame, _) =>
          match from_frame (parse_now (inp i)) frame with
          | Ok cmd =>
            apply (env (inp i)) cmd ;;
            load_loop fuel' inp (S i) buf cursor' (command_count + 1)
          | Err (Msg _) => load_loop fuel' inp (S i) buf cursor' command_count
          | Err ParsePanic => panic
          end
        end
      | Err Incomplete => mret (Some (Ok command_count))
      | Err (Other _) => mret (Some (Ok command_count))
      end
    end
  end.

(** Every frame takes at least two bytes, so there are fewer of them than bytes. *)
Definition load (inp : nat -> Input) (contents : bytes) : ST Db (option (Result bytes Z)) :=
  load_loop (S (length contents)) inp 0 contents (cursor_of contents) 0.

(** [None] for a file that does not exist. *)
Definition Aof_load (inp : nat -> Input) (contents : option bytes) : ST Db (option (Result bytes Z)) :=
  match contents with
  | None => mret (Some (Ok 0))
  | Some contents => load inp contents
  end.

(** ** The replay as the execution of the recorded frames *)

(** The frames, parsed and executed in order; those that do not parse are skipped. *)
Fixpoint exec_frames (inp : nat -> Input) (i : nat) (fs : list Frame) (count : Z) : ST Db Z :=
  match fs with
  | [] => mret count
  | f :: fs' =>
    match from_frame (parse_now (inp i)) f with
    | Ok cmd => apply (env (inp i)) cmd ;; exec_frames inp (S i) fs' (count + 1)
    | Err (Msg _) => exec_frames inp (S i) fs' count
    | Err ParsePanic => panic
    end
  end.

(** A record whose end was never written. *)
Definition torn (p : bytes) : Prop := exists f ext, p ++ ext = encode f /\ ext <> [] /\ frame_ok f = true.

Lemma torn_nil : torn [].
Proof. exists Null, (encode Null). by split_and!. Qed.

(** What is left of a log after any cut: whole records and a torn one. *)
Lemma cut_log (fs : list Frame) : Forall (fun f => frame_ok f = true) fs -> forall (k : nat) (s : bytes),
  s `prefix_of` concat (map encode fs) -> concat (map encode (take k fs)) `prefix_of` s ->
  exists n tail, s = concat (map encode (take n fs)) ++ tail /\ torn tail /\ (k <= n)%nat.
Proof.
  induction 1 as [|f fs Hf Hfs IH]; intros k s Hs Hk.
  { apply prefix_nil_inv in Hs as ->. exists k, []. split; [by destruct k|]. split; [apply torn_nil|done]. }
  cbn [map concat] in Hs. destruct (decide (encode f `prefix_of` s)) as [[s' ->]|Hno].
  - apply prefix_app_inv in Hs. destruct (IH (pred k) s' Hs) as (n & tail & -> & Ht & Hn).
    + destruct k as [|k]; [apply prefix_nil|]. cbn in Hk. by apply prefix_app_inv in Hk.
    + exists (S n), tail. split; [cbn; by rewrite <- app_assoc|]. split; [done|lia].
  - assert (k = 0)%nat as ->.
    { destruct k as [|k]; [done|]. destruct Hno. cbn in Hk. etrans; [|exact Hk]. by apply prefix_app_r. }
    exists 0%nat, s. split; [done|]. split; [|done].
    destruct (prefix_weak_total s (encode f) _ Hs (prefix_app_r _ _ _ (reflexivity _))) as [[ext E]|]; [|done].
    exists f, ext. split; [done|]. split; [|done]. intros ->. destruct Hno. rewrite app_nil_r in E. by rewrite E.
Qed.

Lemma torn_incomplete p pos : torn p -> check (mkCursor pos p) = Err Incomplete.
Proof.
  intros (f & ext & Hp & Hne & Hok). pose proof (framed_check (mkCursor pos p)) as Hf.
  assert (check (mkCursor pos (p ++ ext)) = Ok (tt, mkCursor (pos + length (encode f)) [])) as Hc.
  { pose proof (parse_encode f pos [] Hok) as H1. rewrite app_nil_r in H1. rewrite Hp. by eapply check_covers_parse. }
  destruct (check (mkCursor pos p)) as [[[] c']|[|m]]; [|done|].
  - destruct Hf as [_ Hext]. specialize (Hext ext). unfold extend in Hext. cbn [position chunk] in Hext.
    rewrite Hc in Hext. injection Hext as _ Hnil. symmetry in Hnil. apply app_nil in Hnil as [_ Hnil]. done.
  - specialize (Hf ext). unfold extend in Hf. cbn [position chunk] in Hf. by rewrite Hc in Hf.
Qed.

(** The loop on the records [fs] and a torn tail. *)
Lemma load_loop_spec inp fs tail : Forall (fun f => frame_ok f = true) fs -> torn tail ->
  forall fuel i pre n db, (length (concat (map encode fs) ++ tail) < fuel)%nat ->
  load_loop fuel inp i (pre ++ concat (map encode fs) ++ tail)
    (mkCursor (length pre) (concat (map encode fs) ++ tail)) n db
  = (m ← exec_frames inp i fs n; mret (Some (Ok m))) db.
Proof.
  intros Hok Htail. induction Hok as [|f fs Hf _ IH]; intros fuel i pre n db Hfuel; destruct fuel as [|fuel]; try lia.
  - cbn [load_loop chunk map concat app]. destruct tail as [|c tail]; [done|].
    by rewrite (torn_incomplete _ (length pre) Htail).
  - cbn [map concat] in *. rewrite <- app_assoc in *. set (rest := concat (map encode fs) ++ tail) in *.
    pose proof (encode_length_pos f) as Hlen. rewrite length_app in Hfuel.
    pose proof (parse_encode f (length pre) rest Hf) as Hp. pose proof (check_covers_parse _ _ _ Hp) as Hc.
    cbn [load_loop chunk]. destruct (encode f ++ rest) as [|c l] eqn:E.
    { apply (f_equal length) in E. rewrite length_app in E. cbn in E. lia. }
    rewrite <- E, Hc in *. cbn [position].
    replace (length pre + length (encode f) - length pre)%nat with (length (encode f)) by lia.
    rewrite drop_app_length, take_app_length.
    pose proof (parse_encode f 0 [] Hf) as Hp0. rewrite app_nil_r in Hp0. unfold cursor_of. rewrite Hp0.
    cbn [exec_frames].
    assert (forall j m db', load_loop fuel inp j (pre ++ encode f ++ rest)
        (mkCursor (length pre + length (encode f)) rest) m db'
      = (r ← exec_frames inp j fs m; mret (Some (Ok r))) db') as Hrec.
    { intros j m db'. rewrite app_assoc, <- length_app. apply IH. fold rest. lia. }
    destruct (from_frame (parse_now (inp i)) f) as [cmd|[msg|]]; [|by apply Hrec|done].
    unfold mbind, ST_bind. destruct (apply (env (inp i)) cmd db) as [r db'|]; [|done].
    rewrite Hrec. done.
Qed.

Lemma load_spec inp fs tail db : Forall (fun f => frame_ok f = true) fs -> torn tail ->
  load inp (concat (map encode fs) ++ tail) db = (m ← exec_frames inp 0 fs 0; mret (Some (Ok m))) db.
Proof. intros Hok Ht. apply (load_loop_spec inp fs tail Hok Ht _ 0 [] 0). lia. Qed.

(** Replay. A log that is any list of records, complete or cut off anywhere inside the
    last one, is replayed as exactly the execution of the whole records, in order, on the
    store; the replay stops at the torn record without an error, and the loop ends within
    its fuel. *)
Lemma load_replays inp fs tail db : Forall (fun f => frame_ok f = true) fs -> torn tail ->
  load inp (concat (map encode fs) ++ tail) db = (m ← exec_frames inp 0 fs 0; mret (Some (Ok m))) db.
Proof. apply load_spec. Qed.
End load.

(** What is recorded is what was received. A frame parsed from a client's bytes, whatever
    they were (inline commands included), is recorded as bytes that parse back to the same
    frame, whatever follows them in the file. *)
Lemma record_reads_back (received : bytes) (f : Frame) (c' : Cursor) (rest : bytes) :
  len received <= i64_max -> parse (cursor_of received) = Ok (f, c') ->
  match record f with
  | Record_ b => parse (cursor_of (b ++ rest)) = Ok (f, mkCursor (length b) rest)
  | Flush _ => False
  end.
Proof.
  intros Hlen Hp. pose proof (parse_frame_ok (cursor_of received) f c' Hlen Hp) as Hok. cbn.
  exact (parse_encode f 0 rest Hok).
Qed.

Lemma record_reads_back_witness :
  parse (cursor_of (bs "SET  k v" ++ CRLF)) = Ok (DemoText.cmd ["SET"; "k"; "v"]%string, mkCursor 10 [])
  /\ parse (cursor_of (encode (DemoText.cmd ["SET"; "k"; "v"]%string) ++ bs "x"))
     = Ok (DemoText.cmd ["SET"; "k"; "v"]%string, mkCursor 27 (bs "x")).
Proof.
  split; [reflexivity|].
  apply (record_reads_back (bs "SET  k v" ++ CRLF) (DemoText.cmd ["SET"; "k"; "v"]%string) (mkCursor 10 []) (bs "x"));
    [discriminate|reflexivity].
Defined.

(** Durability of the log. In every state the writer task can reach, the file and the
    buffer together hold the records received, in order and without a gap, after what the
    file held at the start; and once a flush was replied to, every record sent before it is
    in the file. *)
Lemma writer_durable initial w :
  writer_reach initial w ->
  exists received, sent w = received ++ queue w
    /\ file w ++ pending w = initial ++ recorded received
    /\ forall id, id ∈ acked w -> exists pre post, received = pre ++ Flush id :: post
         /\ exists more, file w = initial ++ recorded pre ++ more.
Proof. apply writer_inv_reach. Qed.

Lemma writer_durable_witness :
  let w := mkWriter [] [] (bs "old" ++ encode Null) [7%nat] [record Null; Flush 7] in
  writer_reach (bs "old") w
  /\ exists received, sent w = received ++ queue w /\ file w ++ pending w = bs "old" ++ recorded received.
Proof.
  intros w. assert (writer_reach (bs "old") w) as Hr.
  { pose (w1 := mkWriter [record Null] [] (bs "old") [] [record Null]).
    pose (w2 := mkWriter [record Null; Flush 7] [] (bs "old") [] [record Null; Flush 7]).
    pose (w3 := mkWriter [Flush 7] (encode Null) (bs "old") [] [record Null; Flush 7]).
    apply (reach_step _ w3); [|exact (step_flush 7 [] w3 eq_refl)].
    apply (reach_step _ w2); [|exact (step_record (encode Null) [Flush 7] w2 eq_refl)].
    apply (reach_step _ w1); [|exact (step_send (Flush 7) w1)].
    apply (reach_step _ (Aof_start (bs "old"))); [apply reach_start|exact (step_send (record Null) _)]. }
  split; [exact Hr|]. destruct (writer_durable _ _ Hr) as (received & Hs & Hf & _).
  by exists received.
Defined.

(** Concrete runs. *)
#[local] Existing Instance Demo.hash.
#[local] Existing Instance DemoText.case.
#[local] Existing Instance DemoText.debug.

Definition demo_input (i : nat) : Input := mkInput (Z.of_nat i * NANOS)
  (mkEnv (fun _ => Z.of_nat i * NANOS) (fun i => i) (fun _ s => elements s) (fun _ _ => reflexivity _)).

Lemma load_replays_witness :
  let fs := [DemoText.cmd ["SET"; "k"; "v"]; DemoText.cmd ["RPUSH"; "l"; "a"]]%string in
  load demo_input (concat (map encode fs) ++ bs "*3" ++ CRLF ++ bs "$3") Demo.db
  = (m ← exec_frames demo_input 0 fs 0; mret (Some (Ok m))) Demo.db.
Proof.
  apply (load_replays demo_input [DemoText.cmd ["SET"; "k"; "v"]; DemoText.cmd ["RPUSH"; "l"; "a"]]%string).
  - repeat constructor.
  - exists (DemoText.cmd ["SET"; "k"; "v"]%string). eexists. split; [reflexivity|]. split; [discriminate|reflexivity].
Defined.
