(* ===== verification/AofFaults.v ===== *)
(** * The append-only file on a disk that fails: [Aof::start] of [src/src/aof.rs]

    [Aof] has the writer task over a file that takes every byte. Here the file may fail to
    open, and any write or flush may fail: the task logs the error (or not even that) and
    goes on. What is in the file then, and what [sync] still promises. *)
From S2P Require Import Prelude.
From S2P Require Import RustStd.
From S2P Require Import Frame.
From S2P Require Import Aof.

(** ** The task *)

(** A failed operation on the buffered file had the bytes [bs] to write. The first [k] are
    in the file; of the others, the buffers keep those from the [m]-th to the [l]-th, and
    what lies between was in flight, or never buffered, and is lost. *)
Definition after_fault (k m l : nat) (bs : bytes) (w : Writer) (q : list AofMsg) (acks : list nat) : Writer :=
  mkWriter q (drop m (take l bs)) (file w ++ take k bs) acks (sent w).

(** [writer.write_all(&bytes)] fails: [continue], and the record is given up. [flush] or
    [sync_all] fails: the result is ignored ([let _ =]), and the reply is sent. *)
Inductive fault_step : Writer -> Writer -> Prop :=
  | fault_write b q k m l w :
      queue w = Record_ b :: q -> (k <= m)%nat ->
      fault_step w (after_fault k m l (pending w ++ b) w q (acked w))
  | fault_flush id q k m l w :
      queue w = Flush id :: q -> (k <= m)%nat ->
      fault_step w (after_fault k m l (pending w) w q (acked w ++ [id])).

(** The states after a number of faults. *)
Inductive faulty_reach (initial : bytes) : nat -> Writer -> Prop :=
  | faulty_start : faulty_reach initial 0 (Aof_start initial)
  | faulty_ok n w w' : faulty_reach initial n w -> writer_step w w' -> faulty_reach initial n w'
  | faulty_fault n w w' : faulty_reach initial n w -> fault_step w w' -> faulty_reach initial (S n) w'.

(** The handle the server holds: on a file that could not be opened the task has returned
    and dropped the receiver. *)
Inductive Aof := Started (w : Writer) | Stopped.

(** [Aof::start], given what [OpenOptions::open] came to. *)
Definition start (opened : Result bytes bytes) : Aof :=
  match opened with Ok contents => Started (Aof_start contents) | Err _ => Stopped end.

(** [Aof::record] and the first half of [Aof::sync]: a send to a closed channel fails, and
    neither reports it. *)
Definition send (msg : AofMsg) (aof : Aof) : Aof :=
  match aof with
  | Started w => Started (mkWriter (queue w ++ [msg]) (pending w) (file w) (acked w) (sent w ++ [msg]))
  | Stopped => Stopped
  end.

(** Whether [Aof::sync] can return: at once when the send failed, or on the reply. *)
Definition sync_returns (id : nat) (aof : Aof) : Prop :=
  match aof with Started w => id ∈ acked w | Stopped => True end.

(** ** Invariant *)

Lemma after_fault_sublist k m l (bs : bytes) :
  (k <= m)%nat -> take k bs ++ drop m (take l bs) `sublist_of` bs.
Proof.
  intros Hk. rewrite <- (take_drop k bs) at 3. apply sublist_app; [done|].
  rewrite skipn_firstn_comm. etransitivity; [apply sublist_take|].
  replace m with (k + (m - k))%nat by lia. rewrite <- drop_drop. apply sublist_drop.
Qed.

(** Nothing is invented or reordered, and the old contents stay. *)
Definition faulty_inv (initial : bytes) (w : Writer) : Prop :=
  initial `prefix_of` file w
  /\ exists done, sent w = done ++ queue w /\ file w ++ pending w `sublist_of` initial ++ recorded done.

Lemma faulty_inv_fault initial w w' : faulty_inv initial w -> fault_step w w' -> faulty_inv initial w'.
Proof.
  intros (Hp & d & Hs & Hf) Hstep. destruct Hstep as [b q k m l w Hq Hk|id q k m l w Hq Hk];
    (split; [by apply prefix_app_r|]); cbn.
  - exists (d ++ [Record_ b]). split; [by rewrite Hs, Hq, <- app_assoc|].
    rewrite <- app_assoc. etransitivity; [apply sublist_app; [done|by apply after_fault_sublist]|].
    rewrite app_assoc, recorded_app, app_assoc. apply sublist_app; [done|].
    unfold recorded. cbn. by rewrite app_nil_r.
  - exists (d ++ [Flush id]). split; [by rewrite Hs, Hq, <- app_assoc|].
    rewrite <- app_assoc. etransitivity; [apply sublist_app; [done|by apply after_fault_sublist]|].
    rewrite recorded_app. unfold recorded at 2. cbn. by rewrite app_nil_r.
Qed.

Lemma faulty_inv_step initial w w' : faulty_inv initial w -> writer_step w w' -> faulty_inv initial w'.
Proof.
  intros (Hp & d & Hs & Hf) Hstep. destruct Hstep as [m w|b q w Hq|n w|id q w Hq]; cbn.
  - split; [done|]. exists d. cbn. by rewrite Hs, app_assoc.
  - split; [done|]. exists (d ++ [Record_ b]). cbn. split; [by rewrite Hs, Hq, <- app_assoc|].
    rewrite recorded_app, !app_assoc. apply sublist_app; [done|]. unfold recorded. cbn. by rewrite app_nil_r.
  - split; [cbn; by apply prefix_app_r|]. exists d. cbn. split; [done|]. by rewrite <- app_assoc, take_drop.
  - split; [cbn; by apply prefix_app_r|]. exists (d ++ [Flush id]). cbn. split; [by rewrite Hs, Hq, <- app_assoc|].
    rewrite recorded_app, app_nil_r. unfold recorded at 2. cbn. by rewrite app_nil_r.
Qed.

Lemma faulty_inv_reach initial n w : faulty_reach initial n w -> faulty_inv initial w.
Proof.
  induction 1 as [|n w w' _ IH Hs|n w w' _ IH Hs];
    [|by eapply faulty_inv_step|by eapply faulty_inv_fault].
  split; [done|]. exists []. split; [done|]. cbn. by rewrite !app_nil_r.
Qed.

Lemma faulty_zero initial w : faulty_reach initial 0 w -> writer_reach initial w.
Proof.
  remember 0%nat as n eqn:Hn. induction 1; [apply reach_start|by eapply reach_step; [apply IHfaulty_reach|]|done].
Qed.

(** ** Properties *)

(** C38: The log on a disk that fails. After any number of failed writes and flushes, each of
    which leaves out of the buffer at least what it has put in the file, the writer has taken the messages in order, and what is in the file, followed by what is
    buffered, is what was there at the start and then the recorded bytes with some left
    out: none is invented, none is moved, and the old contents stay. Without a fault it is
    the writer of [Aof], which leaves nothing out. *)
Theorem faulty_log initial n w (Hr : faulty_reach initial n w) :
  initial `prefix_of` file w
  /\ (exists done, sent w = done ++ queue w
      /\ file w ++ pending w `sublist_of` initial ++ recorded done
      /\ (n = 0%nat -> file w ++ pending w = initial ++ recorded done)).
Proof.
  destruct (faulty_inv_reach _ _ _ Hr) as (Hp & d & Hs & Hf). split; [done|].
  destruct n as [|n]; [|by exists d].
  destruct (writer_inv_reach _ _ (faulty_zero _ _ Hr)) as (d' & Hs' & Hf' & _).
  exists d'. split; [done|]. split; [by rewrite Hf'|done].
Qed.

Definition demo_first : bytes := encode (Array [Bulk (bs "SET"); Bulk (bs "k"); Bulk (bs "1")]).
Definition demo_second : bytes := encode (Array [Bulk (bs "SET"); Bulk (bs "k"); Bulk (bs "2")]).

(** Two records and a flush; the write of the first fails after four bytes. *)
Definition demo_gap : Writer :=
  mkWriter [] [] (bs "*3" ++ CRLF ++ demo_second) [7%nat] [Record_ demo_first; Record_ demo_second; Flush 7].

Lemma demo_gap_reach : faulty_reach [] 1 demo_gap.
Proof.
  pose proof (faulty_ok _ _ _ _ (faulty_start []) (step_send (Record_ demo_first) _)) as H1.
  pose proof (faulty_ok _ _ _ _ H1 (step_send (Record_ demo_second) _)) as H2.
  pose proof (faulty_ok _ _ _ _ H2 (step_send (Flush 7) _)) as H3.
  pose proof (fun E => faulty_fault _ _ _ _ H3
    (fault_write demo_first [Record_ demo_second; Flush 7] 4 100 0 _ E ltac:(lia))) as H4.
  specialize (H4 eq_refl). pose proof (fun E => faulty_ok _ _ _ _ H4 (step_record demo_second [Flush 7] _ E)) as H5.
  specialize (H5 eq_refl). pose proof (fun E => faulty_ok _ _ _ _ H5 (step_flush 7 [] _ E)) as H6.
  exact (H6 eq_refl).
Qed.

Lemma faulty_log_witness :
  faulty_reach [] 1 demo_gap /\ exists done, sent demo_gap = done ++ []
    /\ file demo_gap ++ [] `sublist_of` recorded done.
Proof.
  split; [exact demo_gap_reach|].
  destruct (faulty_log [] 1 demo_gap demo_gap_reach) as (_ & d & Hs & Hf & _). exists d. split; [exact Hs|exact Hf].
Defined.
