(* ===== verification/Server.v ===== *)
(** * The server: the connection task and the sweeper, of [src/src/main.rs]

    What one connection does with each frame ([process_connection]); the state it shares
    with the others (store, pub/sub hub, messages to the append-only file); and the sweeper's
    tick. *)
From S2P Require Import Prelude.
From S2P Require Import RustStd.
From S2P Require Import Frame.
From S2P Require Import Connection.
From S2P Require Import Metrics.
From S2P Require Import Store.
From S2P Require Import Keyspace.
From S2P Require Import Evict.
From S2P Require Import DbKeys.
From S2P Require Import PubSub.
From S2P Require Import Cmd.
From S2P Require Import Command.
From S2P Require Import Aof.

(** What one request reads from outside: its [Input] and the microseconds its execution
    takes by the clock. *)
Record Request := mkRequest { input : Input; duration_us : Z; frame : Frame }.

Section server.
Context {Hh : Hasher} `{UnicodeCase} `{FrameDebug} `{Broadcast}.

(** What the tasks share. *)
Record World := mkWorld { w_db : Db; w_pubsub : PubSub; w_sent : list AofMsg }.

(** A computation on the store, and one on the store and the hub, as steps of the world. *)
Definition on_db {A} (m : ST Db A) : ST World A := fun w =>
  match m (w_db w) with
  | Done a db => Done a (mkWorld db (w_pubsub w) (w_sent w))
  | Panic db => Panic (mkWorld db (w_pubsub w) (w_sent w))
  end.

Definition on_db_pubsub {A} (m : ST (Db * PubSub) A) : ST World A := fun w =>
  match m (w_db w, w_pubsub w) with
  | Done a (db, p) => Done a (mkWorld db p (w_sent w))
  | Panic (db, p) => Panic (mkWorld db p (w_sent w))
  end.

(** [aof.record(&frame).await] *)
Definition aof_record (f : Frame) : ST World unit :=
  modify (fun w => mkWorld (w_db w) (w_pubsub w) (w_sent w ++ [record f])).

(** What comes of a frame: a reply, flushed at once if the frame was not a command, or the
    switch to subscriber mode. *)
Inductive Handled :=
  | Reply (response : Frame) (flush_now : bool)
  | Subscribing (channels : list bytes).

(** The body of the loop of [process_connection], between the read and the write. *)
Definition handle (r : Request) : ST World Handled :=
  match from_frame (parse_now (input r)) (frame r) with
  | Err (Msg err) =>
    on_db (metric record_connection_error) ;;
    mret (Reply (Error err) true)
  | Err ParsePanic => panic
  | Ok (PubSubC (CmdPubSub.Subscribe channels)) => mret (Subscribing channels)
  | Ok cmd =>
    (if is_write cmd then aof_record (frame r) else mret tt) ;;
    response ← on_db_pubsub (apply_with_pubsub (env (input r)) cmd);
    on_db (metric (record_command (duration_us r))) ;;
    mret (Reply response false)
  end.

(** How the task of a connection ends. *)
Inductive SessionEnd :=
  | Closed
  | Failed (e : CrateError)
  | Subscriber (channels : list bytes).

(** [process_connection]; [None] without fuel. The [i]-th frame reads [inp i] from outside. *)
Fixpoint process_connection (fuel : nat) (inp : nat -> Frame -> Request) (i : nat) (conn : Connection)
    : ST World (option (SessionEnd * Connection)) :=
  match fuel with
  | O => mret None
  | S fuel' =>
    match read_frame conn with
    | Err e => mret (Some (Failed e, conn))
    | Ok None => mret (Some (Closed, flush conn))
    | Ok (Some (f, conn)) =>
      h ← handle (inp i f);
      match h with
      | Reply response true => process_connection fuel' inp (S i) (write_frame response conn)
      | Reply response false =>
        let conn := write_frame_buffered response conn in
        process_connection fuel' inp (S i) (if has_queued_bytes conn then conn else flush conn)
      | Subscribing channels => mret (Some (Subscriber channels, conn))
      end
    end
  end.

(** ** The sweeper: one tick of the task in [main] *)

Definition SWEEP_ROUNDS : nat := 16.
Definition SWEEP_SAMPLE : nat := 20.

(** [for _ in 0..16 { .. if sampled == 0 || expired * 4 <= sampled { break } }], from the
    [i]-th call of the step on. *)
Fixpoint sweep_loop (envs : nat -> Env) (rounds i : nat) : ST Db unit :=
  match rounds with
  | O => mret tt
  | S rounds' =>
    r ← purge_expired_step (envs i) SWEEP_SAMPLE;
    let '(sampled, expired) := r in
    if (sampled =? 0) || (expired * 4 <=? sampled) then mret tt
    else sweep_loop envs rounds' (S i)
  end.

Definition sweep (envs : nat -> Env) : ST Db unit := sweep_loop envs SWEEP_ROUNDS 0.

(** ** Sessions *)

(** Requests handled one after the other, of one connection or of several. *)
Fixpoint serve_all (rs : list Request) : ST World (list Handled) :=
  match rs with
  | [] => mret []
  | r :: rs' => h ← handle r; hs ← serve_all rs'; mret (h :: hs)
  end.

(** The requests the frames of one connection make. *)
Fixpoint requests (inp : nat -> Frame -> Request) (i : nat) (fs : list Frame) : list Request :=
  match fs with [] => [] | f :: fs' => inp i f :: requests inp (S i) fs' end.

(** The command a request asks for, if it parses. *)
Definition command_of (r : Request) : option Command :=
  match from_frame (parse_now (input r)) (frame r) with Ok c => Some c | Err _ => None end.

(** The frames of the requests that are writes. *)
Definition logged (rs : list Request) : list Frame :=
  omap (fun r => c ← command_of r; if is_write c then Some (frame r) else None) rs.

Definition writes (rs : list Request) : list Command :=
  omap (fun r => c ← command_of r; if is_write c then Some c else None) rs.

Lemma logged_cons r rs : logged (r :: rs) = logged [r] ++ logged rs.
Proof. unfold logged. cbn. by destruct (_ ≫= _). Qed.

Lemma writes_cons r rs : writes (r :: rs) = writes [r] ++ writes rs.
Proof. unfold writes. cbn. by destruct (_ ≫= _). Qed.

(** A request sends its record, if it is a write, before it is executed; nothing else does. *)
Lemma on_db_sent {A} (m : ST Db A) w : match on_db m w with Done _ w' | Panic w' => w_sent w' = w_sent w end.
Proof. unfold on_db. by destruct (m (w_db w)). Qed.

Lemma on_db_pubsub_sent {A} (m : ST (Db * PubSub) A) w :
  match on_db_pubsub m w with Done _ w' | Panic w' => w_sent w' = w_sent w end.
Proof. unfold on_db_pubsub. by destruct (m (w_db w, w_pubsub w)) as [a [db p]|[db p]]. Qed.

Lemma handle_sent r w :
  match handle r w with Done _ w' | Panic w' => w_sent w' = w_sent w ++ map record (logged [r]) end.
Proof.
  unfold handle, logged, command_of. cbn [omap list_omap].
  destruct (from_frame (parse_now (input r)) (frame r)) as [c|[err|]]; cbn; [| |by rewrite app_nil_r].
  - assert (forall cmd (w0 : World), match (response ← on_db_pubsub (apply_with_pubsub (env (input r)) cmd);
      on_db (metric (record_command (duration_us r))) ;; mret (Reply response false)) w0
      with Done _ w' | Panic w' => w_sent w' = w_sent w0 end) as Hrun.
    { intros cmd w0. unfold mbind, ST_bind. pose proof (on_db_pubsub_sent (apply_with_pubsub (env (input r)) cmd) w0) as Hs1.
      destruct (on_db_pubsub _ w0) as [a w1|w1]; [|done]. rewrite <- Hs1.
      pose proof (on_db_sent (metric (record_command (duration_us r))) w1) as Hs2. by destruct (on_db _ w1). }
    assert (match ((if is_write c then aof_record (frame r) else mret tt) ;;
        response ← on_db_pubsub (apply_with_pubsub (env (input r)) c);
        on_db (metric (record_command (duration_us r))) ;; mret (Reply response false)) w
      with Done _ w' | Panic w' => w_sent w' = w_sent w ++ map record (if is_write c then [frame r] else []) end) as Hmain.
    { destruct (is_write c); [|rewrite app_nil_r; apply Hrun].
      exact (Hrun c (mkWorld (w_db w) (w_pubsub w) (w_sent w ++ [record (frame r)]))). }
    destruct c as [| | | | | | | | | |[]| | | | |]; try (destruct (is_write _); exact Hmain). cbn. by rewrite app_nil_r.
  - pose proof (on_db_sent (metric record_connection_error) w) as Hs1. unfold mbind, ST_bind.
    rewrite app_nil_r. by destruct (on_db _ w).
Qed.

Lemma serve_all_sent rs : forall w hs w', serve_all rs w = Done hs w' -> w_sent w' = w_sent w ++ map record (logged rs).
Proof.
  induction rs as [|r rs IH]; intros w hs w'; cbn [serve_all].
  { intros [= _ <-]. by rewrite app_nil_r. }
  pose proof (handle_sent r w) as Hr. unfold mbind, ST_bind. destruct (handle r w) as [h w1|]; [|done].
  destruct (serve_all rs w1) as [hs' w2|] eqn:E; [|done]. intros [= _ <-].
  rewrite (IH _ _ _ E), Hr, (logged_cons r rs), map_app, app_assoc. reflexivity.
Qed.

(** What a handled frame puts on the wire. *)
Definition reply_bytes (h : Handled) : bytes :=
  match h with Reply f _ => encode f | Subscribing _ => [] end.

Definition is_reply (h : Handled) : Prop := match h with Reply _ _ => True | Subscribing _ => False end.

Lemma read_frame_encode f rest conn :
  frame_ok f = true -> Forall (fun r => r <> []) (Connection.reads conn) ->
  buffer conn ++ concat (Connection.reads conn) = encode f ++ rest ->
  exists conn', read_frame conn = Ok (Some (f, conn')) /\ Forall (fun r => r <> []) (Connection.reads conn')
    /\ buffer conn' ++ concat (Connection.reads conn') = rest
    /\ wire conn' = wire conn /\ Connection.pending conn' = Connection.pending conn.
Proof.
  intros Hf Hrs Hb. pose proof (read_frame_loop_spec (Connection.reads conn) (buffer conn) Hrs) as Hl.
  rewrite Hb, parse_frame_encode in Hl by done. destruct Hl as (rs' & buf' & Hl & Hr & Hrs').
  unfold read_frame. rewrite Hl. eexists. split; [done|]. by split_and!.
Qed.

Lemma session_spec fs : forall fuel inp i conn w hs w',
  (length fs < fuel)%nat -> Forall (fun f => frame_ok f = true) fs ->
  Forall (fun r => r <> []) (Connection.reads conn) ->
  buffer conn ++ concat (Connection.reads conn) = concat (map encode fs) ->
  serve_all (requests inp i fs) w = Done hs w' -> Forall is_reply hs ->
  exists conn', process_connection fuel inp i conn w = Done (Some (Closed, conn')) w'
    /\ wire conn' = wire conn ++ Connection.pending conn ++ concat (map reply_bytes hs)
    /\ Connection.pending conn' = [].
Proof.
  induction fs as [|f fs IH]; intros fuel inp i conn w hs w' Hfuel Hok Hrs Hb Hserve Hhs;
    (destruct fuel as [|fuel]; [lia|]); cbn [process_connection].
  - injection Hserve as <- <-. pose proof (read_frame_loop_spec (Connection.reads conn) (buffer conn) Hrs) as Hl.
    rewrite Hb in Hl. cbn in Hl. unfold read_frame. rewrite Hl. eexists. split; [done|].
    cbn. by rewrite app_nil_r.
  - apply Forall_cons in Hok as [Hf Hfs]. cbn [map concat] in Hb.
    destruct (read_frame_encode f _ conn Hf Hrs Hb) as (conn1 & -> & Hrs1 & Hb1 & Hw1 & Hp1).
    cbn [requests serve_all] in Hserve. unfold mbind, ST_bind in Hserve |- *.
    destruct (handle (inp i f) w) as [h w1|]; [|done].
    destruct (serve_all (requests inp (S i) fs) w1) as [hs' w2|] eqn:Hrest; [|done].
    injection Hserve as <- <-. apply Forall_cons in Hhs as [Hrep Hhs].
    destruct h as [response now|]; [|done].
    assert (forall conn2, Connection.reads conn2 = Connection.reads conn1 -> buffer conn2 = buffer conn1 ->
      wire conn2 ++ Connection.pending conn2 = wire conn ++ Connection.pending conn ++ encode response ->
      exists conn', process_connection fuel inp (S i) conn2 w1 = Done (Some (Closed, conn')) w2
        /\ wire conn' = wire conn ++ Connection.pending conn ++ concat (map reply_bytes (Reply response now :: hs'))
        /\ Connection.pending conn' = []) as Hnext.
    { intros conn2 Hr2 Hb2 Hw2. cbn in Hfuel.
      destruct (IH fuel inp (S i) conn2 w1 hs' w2) as (conn' & Hc & Hw & Hp);
        [lia|done|by rewrite Hr2|by rewrite Hr2, Hb2|done|done|].
      exists conn'. split; [done|]. split; [|done]. rewrite Hw, app_assoc, Hw2. cbn. by rewrite <- !app_assoc. }
    destruct now; [|destruct (has_queued_bytes _)]; apply Hnext; try done; cbn; rewrite Hw1, Hp1;
      rewrite ?app_nil_r; by rewrite <- ?app_assoc.
Qed.

(** C6: a session. Take a pipeline of well-formed requests none of which is a SUBSCRIBE (that
    ends the session, see [Subscriber]) or panics (as an EXPIRE out of the clock's range).
    Whatever way TCP cuts its bytes, the connection handles exactly those requests in order,
    and by the time it closes it has put the encoding of exactly one reply per request on the
    wire, in the same order, with nothing left in its buffer. (A client need not read an
    encoded error back as one frame: see [unknown_command_breaks_framing].) *)
Theorem session_replies_in_order fs fuel inp conn w hs w' :
  (length fs < fuel)%nat -> Forall (fun f => frame_ok f = true) fs ->
  Forall (fun r => r <> []) (Connection.reads conn) -> buffer conn = [] -> Connection.pending conn = [] ->
  concat (Connection.reads conn) = concat (map encode fs) ->
  serve_all (requests inp 0 fs) w = Done hs w' -> Forall is_reply hs ->
  exists conn', process_connection fuel inp 0 conn w = Done (Some (Closed, conn')) w'
    /\ wire conn' = wire conn ++ concat (map reply_bytes hs) /\ Connection.pending conn' = []
    /\ length hs = length fs.
Proof.
  intros Hfuel Hok Hrs Hb Hp Hc Hserve Hhs.
  destruct (session_spec fs fuel inp 0 conn w hs w') as (conn' & Hrun & Hwire & Hpend); try done; [by rewrite Hb|].
  exists conn'. rewrite Hp in Hwire. split_and!; try done. clear -Hserve. revert w hs w' Hserve. generalize 0%nat.
  induction fs as [|f fs IH]; intros i w hs w' Hserve; cbn in Hserve; [by injection Hserve as <- <-|].
  unfold mbind, ST_bind in Hserve. destruct (handle _ w) as [h w1|]; [|done].
  destruct (serve_all _ w1) as [hs' w2|] eqn:E; [|done]. injection Hserve as <- <-. cbn. f_equal. by eapply IH.
Qed.

(** ** The sweeper *)

Lemma purged_trans_later now t s s1 s2 :
  now <= t -> live t (ks s1) = live t (ks s) -> purged now s1 s2 -> live t (ks s2) = live t (ks s).
Proof. intros Ht Hl Hp. rewrite <- Hl. by eapply purged_live. Qed.

(** C30: a tick of the sweeper ends within its 16 rounds whatever it samples, and no client
    can tell that it ran: at the time of the last round or later, the same keys are alive
    with the same values, and the memory counter is as exact as before. *)
Theorem sweep_invisible envs db s t :
  models db s -> (forall i, clock (envs i) 0 <= t) ->
  wp (sweep envs) (fun _ db' => exists s', models db' s' /\ live t (ks s') = live t (ks s)
    /\ unaccounted s' = unaccounted s) db.
Proof.
  intros Hm Ht. unfold sweep. generalize SWEEP_ROUNDS 0%nat. intros rounds.
  assert (forall i db s1, models db s1 -> live t (ks s1) = live t (ks s) -> unaccounted s1 = unaccounted s ->
    wp (sweep_loop envs rounds i) (fun _ db' => exists s', models db' s' /\ live t (ks s') = live t (ks s)
    /\ unaccounted s' = unaccounted s) db) as Hloop; [|by intros i; eapply Hloop].
  clear db Hm. induction rounds as [|rounds IH]; intros i db s1 Hm Hl Hu; cbn [sweep_loop].
  { apply wp_ret. by exists s1. }
  apply wp_bind. eapply wp_mono; [by apply wp_purge|]. cbn beta. intros [sampled expired] db' (s' & Hm' & Hp & _).
  assert (live t (ks s') = live t (ks s)) as Hl' by (eapply purged_trans_later; [apply Ht|done|done]).
  assert (unaccounted s' = unaccounted s) as Hu' by (rewrite <- Hu; apply Hp).
  destruct (_ || _); [apply wp_ret; by exists s'|by eapply IH].
Qed.
End server.

(** Concrete runs. *)
#[local] Existing Instance Demo.hash.
#[local] Existing Instance DemoText.case.
#[local] Existing Instance DemoText.debug.
#[local] Existing Instance PubSub.counting.

Definition demo_request (i : nat) (f : Frame) : Request := mkRequest (demo_input i) 10 f.

Lemma session_replies_in_order_witness :
  let conn := mkConnection [bs "*1" ++ CRLF ++ bs "$4"; CRLF ++ bs "PING" ++ CRLF ++ bs "*2"; CRLF ++ bs "$4" ++ CRLF;
    bs "ECHO" ++ CRLF ++ bs "$2" ++ CRLF ++ bs "hi" ++ CRLF] [] [] [] in
  exists conn' w', process_connection 3 demo_request 0 conn (mkWorld Demo.db PubSub_new [])
    = Done (Some (Closed, conn')) w'
    /\ wire conn' = bs "+PONG" ++ CRLF ++ bs "$2" ++ CRLF ++ bs "hi" ++ CRLF.
Proof.
  intros conn.
  destruct (serve_all (requests demo_request 0 [DemoText.cmd ["PING"]; DemoText.cmd ["ECHO"; "hi"]]%string)
    (mkWorld Demo.db PubSub_new [])) as [hs w'|w'] eqn:Hs; [|discriminate Hs].
  destruct (session_replies_in_order [DemoText.cmd ["PING"]; DemoText.cmd ["ECHO"; "hi"]]%string 3 demo_request conn
    (mkWorld Demo.db PubSub_new []) hs w')
    as (conn' & Hrun & Hwire & _ & _).
  - cbn. lia.
  - repeat constructor.
  - repeat (constructor; [discriminate|]). constructor.
  - reflexivity.
  - reflexivity.
  - reflexivity.
  - exact Hs.
  - injection Hs as <- _. repeat constructor.
  - exists conn', w'. split; [exact Hrun|]. rewrite Hwire. injection Hs as <- _. reflexivity.
Defined.

Lemma sweep_invisible_witness :
  models Demo.db (flat Demo.db) /\ (forall i : nat, clock Demo.env 0 <= 6 * NANOS)
  /\ wp (sweep (fun _ => Demo.env)) (fun _ db' => exists s', models db' s'
       /\ live (6 * NANOS) (ks s') = live (6 * NANOS) (view Demo.db)) Demo.db.
Proof.
  assert (forall i : nat, clock Demo.env 0 <= 6 * NANOS) as Ht by (intros _; discriminate).
  split; [exact Demo.ok|]. split; [exact Ht|].
  refine (wp_mono _ _ _ _ (sweep_invisible (fun _ => Demo.env) _ _ (6 * NANOS) Demo.ok Ht) _).
  intros _ db' (s' & Hm & Hl & _). by exists s'.
Defined.
