(* ===== verification/SessionIO.v ===== *)
(** * Sessions over a network that fails: [process_connection] of [src/src/main.rs]

    [Server] has the task of a connection over a socket on which reads and writes succeed.
    Here each read, write and flush may also fail, the write buffer may spill when it likes,
    and the shutdown may drop the task at any of its awaits ([tokio::select!] in [main]).
    Whatever happens, what the peer has seen is a prefix of the replies to the requests
    that were handled. *)
From S2P Require Import Prelude.
From S2P Require Import RustStd.
From S2P Require Import Frame.
From S2P Require Import Connection.
From S2P Require Import Store.
From S2P Require Import PubSub.
From S2P Require Import Cmd.
From S2P Require Import Command.
From S2P Require Import Aof.
From S2P Require Import Server.

(** How an [.await] of the task ends: its future is ready, it failed, or the task is
    dropped while it waits. *)
Inductive Await := Ready | IoError (e : CrateError) | Dropped.

(** What the network and the runtime do: the read after the connection's [reads]
    ([Ready]: the end of the stream); for the [j]-th write or flush, how it ends and how
    many bytes [BufWriter] has passed on by then; and whether the task is dropped while it
    waits for room in the channel of the log, at the [i]-th request. *)
Record Network := mkNetwork {
  at_end : Await;
  on_write : nat -> nat * Await;
  dropped_recording : nat -> bool;
}.

(** [BufWriter] passes on the first [k] bytes it holds. *)
Definition spill (k : nat) (conn : Connection) : Connection :=
  mkConnection (Connection.reads conn) (buffer conn) (drop k (Connection.pending conn))
    (wire conn ++ take k (Connection.pending conn)).

(** [write_all] on the buffered stream: the bytes join those the buffer holds, of which any
    number may go out, whether the call succeeds or not. *)
Definition write_frame_buffered_io (o : nat * Await) (frame : Frame) (conn : Connection)
    : Await * Connection :=
  (o.2, spill o.1 (write_frame_buffered frame conn)).

(** [flush]: when it succeeds, all that was buffered is on the wire. *)
Definition flush_io (o : nat * Await) (conn : Connection) : Await * Connection :=
  match o.2 with
  | Ready => (Ready, flush conn)
  | r => (r, spill o.1 conn)
  end.

(** [Connection::read_frame], whose reads end as [last] says. *)
Inductive ReadEnd :=
  | GotFrame (f : Frame) (rs : list bytes) (buf : bytes)
  | EndOfStream
  | ReadFailed (e : CrateError)
  | ReadDropped.

Fixpoint read_frame_loop_io (last : Await) (rs : list bytes) (buf : bytes) : ReadEnd :=
  match parse_frame buf with
  | Err e => ReadFailed e
  | Ok (Some frame, buf') => GotFrame frame rs buf'
  | Ok (None, _) =>
    match rs with
    | (c :: r) :: rs' => read_frame_loop_io last rs' (buf ++ c :: r)
    | _ =>
      match rs, last with
      | [], IoError e => ReadFailed e
      | [], Dropped => ReadDropped
      | _, _ => match buf with [] => EndOfStream | _ => ReadFailed reset_error end
      end
    end
  end.

(** How the task ends. *)
Inductive Exit := Returned (e : SessionEnd) | Cancelled.

Section session.
Context {Hh : Hasher} `{UnicodeCase} `{FrameDebug} `{Broadcast}.
Variable net : Network.

Abbreviation Session := (ST World (option (Exit * Connection))).

(** [.await?]: go on, return the error, or be dropped. *)
Definition await (r : Await * Connection) (k : Connection -> Session) : Session :=
  match r with
  | (Ready, conn) => k conn
  | (IoError e, conn) => mret (Some (Returned (Failed e), conn))
  | (Dropped, conn) => mret (Some (Cancelled, conn))
  end.

(** [aof.record(&frame).await] of a write waits while the channel is full; a task dropped
    there has neither recorded nor executed the request. *)
Definition drops_recording (i : nat) (r : Request) : bool :=
  match from_frame (parse_now (input r)) (frame r) with
  | Ok cmd => is_write cmd && dropped_recording net i
  | Err _ => false
  end.

(** [process_connection]: the [i]-th request, the [j]-th write or flush. *)
Fixpoint process_connection_io (fuel : nat) (inp : nat -> Frame -> Request) (i j : nat)
    (conn : Connection) : Session :=
  match fuel with
  | O => mret None
  | S fuel' =>
    match read_frame_loop_io (at_end net) (Connection.reads conn) (buffer conn) with
    | ReadFailed e => mret (Some (Returned (Failed e), conn))
    | ReadDropped => mret (Some (Cancelled, conn))
    | EndOfStream =>
      await (flush_io (on_write net j) conn) (fun conn => mret (Some (Returned Closed, conn)))
    | GotFrame f rs buf =>
      let conn := with_input conn rs buf in
      if drops_recording i (inp i f) then mret (Some (Cancelled, conn))
      else
        h ← handle (inp i f);
        match h with
        | Subscribing channels => mret (Some (Returned (Subscriber channels), conn))
        | Reply response now =>
          await (write_frame_buffered_io (on_write net j) response conn) (fun conn =>
          if now || negb (has_queued_bytes conn)
          then await (flush_io (on_write net (S j)) conn) (fun conn =>
               process_connection_io fuel' inp (S i) (S (S j)) conn)
          else process_connection_io fuel' inp (S i) (S j) conn)
        end
    end
  end.

(** ** What goes out *)

(** The bytes on the wire and those still buffered: every byte written, in order. *)
Definition output (conn : Connection) : bytes := wire conn ++ Connection.pending conn.

Lemma output_spill k conn : output (spill k conn) = output conn.
Proof. unfold output, spill. cbn. by rewrite <- app_assoc, take_drop. Qed.

Lemma output_write o f conn r conn' :
  write_frame_buffered_io o f conn = (r, conn') -> output conn' = output conn ++ encode f.
Proof.
  intros [= _ <-]. rewrite output_spill. unfold output. cbn. by rewrite <- app_assoc.
Qed.

Lemma output_flush o conn r conn' : flush_io o conn = (r, conn') ->
  output conn' = output conn /\ (r = Ready -> Connection.pending conn' = []).
Proof.
  unfold flush_io. destruct (o.2); intros [= <- <-]; (split; [|done]); rewrite ?output_spill;
    unfold output; cbn; by rewrite ?app_nil_r.
Qed.

Lemma input_write o f conn r conn' : write_frame_buffered_io o f conn = (r, conn') ->
  Connection.reads conn' = Connection.reads conn /\ buffer conn' = buffer conn.
Proof. by intros [= _ <-]. Qed.

Lemma input_flush o conn r conn' : flush_io o conn = (r, conn') ->
  Connection.reads conn' = Connection.reads conn /\ buffer conn' = buffer conn.
Proof. unfold flush_io. by destruct (o.2); intros [= _ <-]. Qed.

(** ** What comes in *)

Lemma read_frame_loop_io_spec last rs buf : Forall (fun r => r <> []) rs ->
  match parse_frame (buf ++ concat rs) with
  | Ok (Some f, rest) => exists rs' buf', read_frame_loop_io last rs buf = GotFrame f rs' buf'
      /\ buf' ++ concat rs' = rest /\ Forall (fun r => r <> []) rs'
  | Ok (None, _) => read_frame_loop_io last rs buf =
      match last with
      | IoError e => ReadFailed e
      | Dropped => ReadDropped
      | Ready => match buf ++ concat rs with [] => EndOfStream | _ => ReadFailed reset_error end
      end
  | Err e => read_frame_loop_io last rs buf = ReadFailed e
  end.
Proof.
  revert buf. induction rs as [|r rs IH]; intros buf Hrs; cbn [concat read_frame_loop_io].
  - rewrite app_nil_r. destruct (parse_frame buf) as [[[f|] rest]|e]; [|by destruct last|done].
    exists [], rest. cbn. by rewrite app_nil_r.
  - inversion Hrs as [|? ? Hr Hrs']; subst. destruct r as [|c r]; [done|].
    pose proof (parse_frame_extend buf ((c :: r) ++ concat rs)) as Hx.
    destruct (parse_frame buf) as [[[f|] rest]|e].
    + rewrite Hx. by exists ((c :: r) :: rs), rest.
    + rewrite app_assoc. apply IH, Hrs'.
    + by rewrite Hx.
Qed.

(** ** The session *)

(** What a run from [w] owes, given the frames that came in and how they end: the requests
    handled are the first [n], and their replies, in order, are what was written. *)
Definition accounts (inp : nat -> Frame -> Request) (i : nat) (frames : list Frame)
    (ending : option CrateError) (conn : Connection) (w : World)
    (r : Outcome World (option (Exit * Connection))) : Prop :=
  match r with
  | Panic w' => exists n, (n <= length frames)%nat /\ serve_all (requests inp i (take n frames)) w = Panic w'
  | Done None _ => False
  | Done (Some (exit, conn')) w' => exists n hs, (n <= length frames)%nat
      /\ serve_all (requests inp i (take n frames)) w = Done hs w'
      /\ output conn' = output conn ++ concat (map reply_bytes hs)
      /\ match exit with
         | Returned Closed => n = length frames /\ ending = None /\ Connection.pending conn' = []
         | Returned (Subscriber channels) => exists hs0, hs = hs0 ++ [Subscribing channels]
         | _ => True
         end
  end.

(** A run that ends before the next request is handled. *)
Lemma accounts_stop inp i frames ending conn w exit conn' :
  output conn' = output conn ->
  match exit with
  | Returned Closed => frames = [] /\ ending = None /\ Connection.pending conn' = []
  | Returned (Subscriber _) => False
  | _ => True
  end ->
  accounts inp i frames ending conn w (Done (Some (exit, conn')) w).
Proof.
  intros Ho He. exists 0%nat, []. split; [lia|]. split; [done|]. split; [by rewrite Ho, app_nil_r|].
  destruct exit as [[|e|c]|]; try done. by destruct He as (-> & -> & ->).
Qed.

(** One request handled, then the rest. *)
Lemma accounts_step inp i f frames ending conn w h w1 conn1 r :
  handle (inp i f) w = Done h w1 -> output conn1 = output conn ++ reply_bytes h ->
  accounts inp (S i) frames ending conn1 w1 r -> accounts inp i (f :: frames) ending conn w r.
Proof.
  intros Hh1 Ho. destruct r as [[[exit conn']|] w'|w']; [|done|]; cbn [accounts].
  - intros (n & hs & Hn & Hs & Hout & He). exists (S n), (h :: hs). cbn [length take requests serve_all].
    unfold mbind, ST_bind. rewrite Hh1, Hs. split; [lia|]. split; [done|].
    split; [by rewrite Hout, Ho, <- app_assoc|].
    destruct exit as [[|e|c]|]; [|done| |done].
    + destruct He as (-> & He). done.
    + destruct He as [hs0 ->]. by exists (h :: hs0).
  - intros (n & Hn & Hs). exists (S n). cbn [length take requests serve_all].
    unfold mbind, ST_bind. rewrite Hh1, Hs. split; [lia|done].
Qed.

(** An await that changes nothing of the output: the failure, or what follows. *)
Lemma accounts_await inp i frames ending conn w r conn1 k :
  output conn1 = output conn ->
  (r = Ready -> accounts inp i frames ending conn1 w (k conn1 w)) ->
  accounts inp i frames ending conn w (await (r, conn1) k w).
Proof.
  intros Ho Hk. destruct r; [|by apply accounts_stop..].
  specialize (Hk eq_refl). unfold accounts in *. by rewrite <- Ho.
Qed.

Lemma process_connection_io_accounts fuel inp : forall i j conn w,
  Forall (fun r => r <> []) (Connection.reads conn) ->
  (length (buffer conn ++ concat (Connection.reads conn)) < fuel)%nat ->
  let d := decode_all fuel (buffer conn ++ concat (Connection.reads conn)) in
  accounts inp i d.1 d.2 conn w (process_connection_io fuel inp i j conn w).
Proof.
  induction fuel as [|fuel IH]; intros i j conn w Hrs Hfuel; [lia|]. cbn [process_connection_io decode_all].
  pose proof (read_frame_loop_io_spec (at_end net) _ (buffer conn) Hrs) as Hl.
  destruct (parse_frame _) as [[[f|] rest]|e] eqn:Ep; [| |by rewrite Hl; apply accounts_stop].
  2:{ destruct (at_end net); [|by rewrite Hl; apply accounts_stop..].
    destruct (buffer conn ++ concat (Connection.reads conn)) eqn:Eb; rewrite Hl; [|by apply accounts_stop].
    destruct (flush_io _ conn) as [r conn1] eqn:Ef. destruct (output_flush _ _ _ _ Ef) as [Ho Hp].
    apply accounts_await; [done|]. intros Hr. apply accounts_stop; [done|]. auto. }
  destruct Hl as (rs' & buf' & -> & Hrest & Hrs').
  apply parse_frame_length in Ep as Hlen. set (conn1 := with_input conn rs' buf').
  destruct (decode_all fuel rest) as [frames ending] eqn:Ed. cbn [fst snd].
  destruct (drops_recording _ _); [by apply accounts_stop|].
  unfold mbind at 1, ST_bind at 1. destruct (handle (inp i f) w) as [h w1|w1] eqn:Hh1.
  2:{ exists 1%nat. cbn. unfold mbind, ST_bind. rewrite Hh1. split; [lia|done]. }
  destruct h as [response now|channels].
  2:{ exists 1%nat, [Subscribing channels]. cbn. unfold mbind, ST_bind. rewrite Hh1.
    split; [lia|]. split; [done|]. split; [by rewrite app_nil_r|]. by exists []. }
  assert (forall j conn2, Connection.reads conn2 = rs' -> buffer conn2 = buf' ->
    accounts inp (S i) frames ending conn2 w1 (process_connection_io fuel inp (S i) j conn2 w1)) as Hnext.
  { intros j' conn2 Hr2 Hb2. specialize (IH (S i) j' conn2 w1). rewrite Hr2, Hb2, Hrest, Ed in IH.
    apply IH; [done|lia]. }
  destruct (write_frame_buffered_io _ response conn1) as [r conn2] eqn:Ew.
  pose proof (output_write _ _ _ _ _ Ew) as Ho2. destruct (input_write _ _ _ _ _ Ew) as [Hr2 Hb2].
  eapply accounts_step; [done|exact Ho2|]. apply accounts_await; [done|]. intros _.
  destruct (now || _); [|by apply Hnext].
  destruct (flush_io _ conn2) as [r3 conn3] eqn:Ef. destruct (output_flush _ _ _ _ Ef) as [Ho3 _].
  destruct (input_flush _ _ _ _ Ef) as [Hr3 Hb3].
  apply accounts_await; [done|]. intros _. apply Hnext; [by rewrite Hr3, Hr2|by rewrite Hb3, Hb2].
Qed.

(** ** A network that does not fail *)

(** Where nothing fails or spills, this is the task of [Server]. *)
Definition as_server (r : option (SessionEnd * Connection)) : option (Exit * Connection) :=
  match r with Some (e, conn) => Some (Returned e, conn) | None => None end.

Lemma read_frame_loop_io_ready rs buf :
  read_frame_loop_io Ready rs buf =
  match read_frame_loop rs buf with
  | Err e => ReadFailed e
  | Ok None => EndOfStream
  | Ok (Some (f, (rs', buf'))) => GotFrame f rs' buf'
  end.
Proof.
  revert buf. induction rs as [|[|c r] rs IH]; intros buf; cbn [read_frame_loop_io read_frame_loop];
    (destruct (parse_frame buf) as [[[f|] b]|e]; [done| |done]); [by destruct buf..|]. apply IH.
Qed.

Lemma process_connection_io_quiet fuel inp :
  at_end net = Ready -> (forall j, on_write net j = (0%nat, Ready)) ->
  (forall i, dropped_recording net i = false) -> forall i j conn w,
  process_connection_io fuel inp i j conn w
  = (r ← process_connection fuel inp i conn; mret (as_server r)) w.
Proof.
  intros He Hw Hd. induction fuel as [|fuel IH]; intros i j conn w; [done|].
  cbn [process_connection_io process_connection]. unfold read_frame.
  rewrite He, read_frame_loop_io_ready.
  destruct (read_frame_loop _ _) as [[[f [rs buf]]|]|e]; [| |done].
  2:{ unfold flush_io. by rewrite Hw. }
  assert (drops_recording i (inp i f) = false) as ->.
  { unfold drops_recording. destruct (from_frame _ _); [|done]. by rewrite Hd, andb_false_r. }
  unfold mbind, ST_bind in *. destruct (handle (inp i f) w) as [h w1|w1]; [|done].
  destruct h as [response now|]; [|done].
  unfold write_frame_buffered_io, flush_io. rewrite !Hw. cbn [fst snd await].
  assert (forall c, spill 0 (write_frame_buffered response c) = write_frame_buffered response c) as ->.
  { intros c. unfold spill, write_frame_buffered. cbn. by rewrite app_nil_r. }
  destruct now; cbn [orb]; [by rewrite IH|].
  destruct (has_queued_bytes _); cbn [negb]; by rewrite IH.
Qed.
End session.

(** ** Properties *)

(** C7: A session whose network may fail. Whatever reads, writes and flushes do, and
    wherever the shutdown drops the task, the task ends; the requests it has handled are
    the first [n] that came in; and what its peer has seen is a prefix of their replies, in
    order and without a gap; the records sent to the log are those of the writes among them,
    so the first byte of a reply to a write is never seen before its record was sent. A
    session that ends cleanly has handled every request and delivered every reply. If one of
    the requests panics, the world is as handling the first [n], up to it, leaves it. *)
Theorem session_survives_faults `{Hh : Hasher} `{UnicodeCase} `{FrameDebug} `{Broadcast} net inp conn w :
  Forall (fun r => r <> []) (Connection.reads conn) -> buffer conn = [] -> Connection.pending conn = [] ->
  let s := concat (Connection.reads conn) in
  let d := decode_all (S (length s)) s in
  match process_connection_io net (S (length s)) inp 0 0 conn w with
  | Panic w' => exists n, (n <= length d.1)%nat /\ serve_all (requests inp 0 (take n d.1)) w = Panic w'
  | Done None _ => False
  | Done (Some (exit, conn')) w' => exists n hs, (n <= length d.1)%nat
      /\ serve_all (requests inp 0 (take n d.1)) w = Done hs w'
      /\ wire conn' `prefix_of` wire conn ++ concat (map reply_bytes hs)
      /\ w_sent w' = w_sent w ++ map record (logged (requests inp 0 (take n d.1)))
      /\ (exit = Returned Closed -> n = length d.1 /\ d.2 = None
          /\ wire conn' = wire conn ++ concat (map reply_bytes hs))
  end.
Proof.
  intros Hrs Hb Hp s d.
  pose proof (process_connection_io_accounts net (S (length s)) inp 0 0 conn w Hrs) as Ha.
  rewrite Hb in Ha. specialize (Ha ltac:(apply Nat.lt_succ_diag_r)). cbn zeta in Ha. change (decode_all _ _) with d in Ha.
  destruct (process_connection_io _ _ _ _ _ _ _) as [[[exit conn']|] w'|w']; [|done|done].
  destruct Ha as (n & hs & Hn & Hs & Ho & He). exists n, hs. split; [done|]. split; [done|].
  unfold output in Ho. rewrite Hp, app_nil_r in Ho. rewrite <- Ho. split; [by apply prefix_app_r|].
  split; [by eapply serve_all_sent|]. intros ->. destruct He as (-> & -> & Hp'). by rewrite Hp', app_nil_r.
Qed.

(** Concrete runs. *)
#[local] Existing Instance Demo.hash.
#[local] Existing Instance DemoText.case.
#[local] Existing Instance DemoText.debug.
#[local] Existing Instance PubSub.counting.

Definition demo_reads (rs : list bytes) : Connection := mkConnection rs [] [] [].

(** The connection breaks three bytes into the first reply. *)
Definition demo_broken : Network :=
  mkNetwork Ready (fun j => (3%nat, IoError (bs "Broken pipe"))) (fun _ => false).

Definition demo_pings : list bytes := [bs "PING" ++ CRLF; bs "PING" ++ CRLF].

Lemma session_survives_faults_witness :
  let run := process_connection_io demo_broken 13 demo_request 0 0 (demo_reads demo_pings)
    (mkWorld Demo.db PubSub_new []) in
  match run with
  | Done (Some (exit, conn')) w' => exit = Returned (Failed (bs "Broken pipe")) /\ wire conn' = bs "+PO"
      /\ exists n hs, serve_all (requests demo_request 0 (take n (decode_all 13 (concat demo_pings)).1))
           (mkWorld Demo.db PubSub_new []) = Done hs w' /\ wire conn' `prefix_of` concat (map reply_bytes hs)
  | _ => False
  end.
Proof.
  pose proof (session_survives_faults demo_broken demo_request (demo_reads demo_pings) (mkWorld Demo.db PubSub_new [])
    ltac:(repeat (constructor; [discriminate|]); constructor) eq_refl eq_refl) as Hf.
  assert (exists c' w', process_connection_io demo_broken 13 demo_request 0 0 (demo_reads demo_pings)
    (mkWorld Demo.db PubSub_new []) = Done (Some (Returned (Failed (bs "Broken pipe")), c')) w' /\ wire c' = bs "+PO")
    as (c' & w' & Hrun & Hwire).
  { vm_compute. eexists _, _. split; reflexivity. }
  cbn zeta in Hf |- *. change (S (length (concat (Connection.reads (demo_reads demo_pings))))) with 13%nat in Hf.
  rewrite Hrun in Hf |- *. split; [reflexivity|]. split; [exact Hwire|].
  destruct Hf as (n & hs & _ & Hs & Hp & _). exists n, hs. split; [exact Hs|exact Hp].
Defined.

(** A reply is withheld while the read buffer holds the start of the next request: with the
    whole SET received, logged and executed, its reply stays in the write buffer, and is
    lost if the peer closes. *)
Example reply_withheld :
  let conn := demo_reads [encode (DemoText.cmd ["SET"; "k"; "v"]%string) ++ bs "*1"] in
  exists conn' w', process_connection_io (mkNetwork Dropped (fun _ => (0%nat, Ready)) (fun _ => false)) 100
      demo_request 0 0 conn (mkWorld Demo.db PubSub_new [])
    = Done (Some (Cancelled, conn')) w'
  /\ wire conn' = [] /\ Connection.pending conn' = bs "+OK" ++ CRLF /\ length (w_sent w') = 1%nat.
Proof. vm_compute. eexists _, _. repeat split; reflexivity. Qed.
