(* ===== verification/Subscriber.v ===== *)
(** * Subscriber mode: [run_subscriber_mode] of [src/src/main.rs]

    What a connection does after its first SUBSCRIBE: it pushes the messages of its
    channels and answers SUBSCRIBE, PING and nothing else. The select of the loop chooses
    between a message, a request and, in between, whatever other connections do to the hub:
    a list of events. The network is that of [SessionIO]: every read, write and flush may
    fail, and the shutdown may drop the task at any await. *)
From S2P Require Import Prelude.
From S2P Require Import RustStd.
From S2P Require Import Frame.
From S2P Require Import Connection.
From S2P Require Import Metrics.
From S2P Require Import Store.
From S2P Require Import PubSub.
From S2P Require Import Cmd.
From S2P Require Import Command.
From S2P Require Import Aof.
From S2P Require Import Server.
From S2P Require Import SessionIO.

Section subscriber.
Context `{UnicodeCase} `{FrameDebug} `{Broadcast}.
Variable net : Network.

(** The state of the mode: the connection, the writes and flushes so far, the [StreamMap] of
    its receivers, and what it shares with the other tasks: the hub and the metrics. *)
Record SubState := mkSub {
  conn : Connection;
  writes : nat;
  subscriptions : gmap bytes Receiver;
  hub : PubSub;
  sub_metrics : Metrics;
}.

Definition set_conn (c : Connection) (s : SubState) : SubState :=
  mkSub c (writes s) (subscriptions s) (hub s) (sub_metrics s).
Definition set_hub (p : PubSub) (s : SubState) : SubState :=
  mkSub (conn s) (writes s) (subscriptions s) p (sub_metrics s).

(** ** The task's monad: a step of the task goes on with a value, or ends the task *)

Definition SubTask (A : Type) : Type := SubState -> Outcome SubState (Exit + A).

#[export] Instance SubTask_ret : MRet SubTask := fun A a s => Done (inr a) s.
#[export] Instance SubTask_bind : MBind SubTask := fun A B f m s =>
  match m s with
  | Done (inr a) s' => f a s'
  | Done (inl e) s' => Done (inl e) s'
  | Panic s' => Panic s'
  end.

Definition exit {A} (e : Exit) : SubTask A := fun s => Done (inl e) s.
Definition panics {A} : SubTask A := fun s => Panic s.
Definition state : SubTask SubState := fun s => Done (inr s) s.
Definition update (f : SubState -> SubState) : SubTask unit := fun s => Done (inr tt) (f s).

(** [.await?] on an operation of the connection. *)
Definition await_conn (op : nat * Await -> Connection -> Await * Connection) : SubTask unit := fun s =>
  let '(r, c) := op (on_write net (writes s)) (conn s) in
  let s' := mkSub c (S (writes s)) (subscriptions s) (hub s) (sub_metrics s) in
  match r with
  | Ready => Done (inr tt) s'
  | IoError e => Done (inl (Returned (Failed e))) s'
  | Dropped => Done (inl Cancelled) s'
  end.

(** [connection.write_frame(&frame).await?] *)
Definition write (f : Frame) : SubTask unit :=
  await_conn (fun o => write_frame_buffered_io o f) ;; await_conn flush_io.

Definition sub_metric (f : Metrics -> Metrics) : SubTask unit :=
  update (fun s => mkSub (conn s) (writes s) (subscriptions s) (hub s) (f (sub_metrics s))).

(** [let rx = pubsub.subscribe(&ch); subscriptions.insert(ch.clone(), BroadcastStream::new(rx))]:
    a stream that was in the map under this channel is dropped, and its receiver with it. *)
Definition subscribe_to (ch : bytes) : SubTask unit :=
  update (fun s =>
    let '(rx, p) := subscribe ch (hub s) in
    mkSub (conn s) (writes s) (<[ch := rx]> (subscriptions s))
      (match subscriptions s !! ch with Some _ => unsubscribe ch p | None => p end) (sub_metrics s)).

Definition confirm (ch : bytes) (n : Z) : Frame := Array [Bulk (bs "subscribe"); Bulk ch; Integer n].
Definition push_frame (ch msg : bytes) : Frame := Array [Bulk (bs "message"); Bulk ch; Bulk msg].
Definition pong : Frame := Array [Bulk (bs "pong"); Bulk []].
Definition refusal : Frame :=
  Error (bs "ERR only (P)SUBSCRIBE / (P)UNSUBSCRIBE / PING / QUIT are allowed in this context").

(** The loop over the channels of the first SUBSCRIBE. *)
Fixpoint initial_loop (i : Z) (channels : list bytes) : SubTask unit :=
  match channels with
  | [] => mret tt
  | ch :: rest =>
    subscribe_to ch ;;
    write (confirm ch (as_i64 (i + 1))) ;;
    initial_loop (i + 1) rest
  end.

(** The loop over the channels of a later SUBSCRIBE. *)
Fixpoint subscribe_loop (channels : list bytes) : SubTask unit :=
  match channels with
  | [] => mret tt
  | ch :: rest =>
    s ← state;
    (match subscriptions s !! ch with Some _ => mret tt | None => subscribe_to ch end) ;;
    s ← state;
    write (confirm ch (as_i64 (Z.of_nat (size (subscriptions s))))) ;;
    subscribe_loop rest
  end.

(** The answer to a frame; [now] is the clock for the parse. *)
Definition on_frame (now : Z) (f : Frame) : SubTask unit :=
  match from_frame now f with
  | Err ParsePanic => panics
  | Ok (PubSubC (CmdPubSub.Subscribe channels)) => sub_metric (record_command 5) ;; subscribe_loop channels
  | Ok (Ping _) => sub_metric (record_command 2) ;; write pong
  | _ => sub_metric record_connection_error ;; write refusal
  end.

(** What happens next: a stream yields a message, or the error that it lagged behind and
    lost some; the reading of a frame ends; another task acts on the hub; the shutdown drops
    the task. In a real run a stream that yields is one of the map; the theorems do not need
    to suppose so. *)
Inductive SubEvent :=
  | Delivers (ch msg : bytes)
  | Lags (ch : bytes)
  | Reads (now : Z)
  | Elsewhere (ev : Event)
  | Shutdown.

Definition on_event (e : SubEvent) : SubTask unit :=
  match e with
  | Delivers ch msg => write (push_frame ch msg)
  | Lags _ => mret tt
  | Reads now =>
    s ← state;
    match read_frame_loop_io (at_end net) (Connection.reads (conn s)) (buffer (conn s)) with
    | ReadFailed err => exit (Returned (Failed err))
    | ReadDropped => exit Cancelled
    | EndOfStream => exit (Returned Closed)
    | GotFrame f rs buf => update (fun s => set_conn (with_input (conn s) rs buf) s) ;; on_frame now f
    end
  | Elsewhere ev => update (fun s => set_hub (pubsub_step (hub s) ev) s)
  | Shutdown => exit Cancelled
  end.

(** The loop, for the given events. *)
Fixpoint select_loop (es : list SubEvent) : SubTask unit :=
  match es with [] => mret tt | e :: es' => on_event e ;; select_loop es' end.

(** The end of the task, by a return, an error, the shutdown or a panic, drops the map, and
    every receiver in it. *)
Definition leave_all (s : SubState) : SubState :=
  mkSub (conn s) (writes s) ∅ (map_fold (fun ch _ p => unsubscribe ch p) (hub s) (subscriptions s))
    (sub_metrics s).

(** [None] when the task is still running after the events. *)
Definition run_subscriber_mode (initial_channels : list bytes) (es : list SubEvent)
    : ST SubState (option Exit) := fun s =>
  match (initial_loop 0 initial_channels ;; select_loop es) s with
  | Done (inr _) s' => Done None s'
  | Done (inl e) s' => Done (Some e) (leave_all s')
  | Panic s' => Panic (leave_all s')
  end.

(** ** Invariants *)

(** The message a frame on the wire pushes, if it is a push. *)
Definition pushed (f : Frame) : option (bytes * bytes) :=
  match f with
  | Array [Bulk kind; Bulk ch; Bulk msg] => if bool_decide (kind = bs "message") then Some (ch, msg) else None
  | _ => None
  end.

(** This connection counts once on every channel of its map: on top of what the others hold
    ([base]), the hub has one receiver for each. *)
Definition counted_once (base : bytes -> Z) (s : SubState) : Prop :=
  forall ch, 0 <= base ch
  /\ count_at ch (hub s) = base ch + match subscriptions s !! ch with Some _ => 1 | None => 0 end.

(** Since the mode was entered with [w0] written, the connection wrote whole frames, of
    which the pushes are those of [ms], in order; if [F], it flushed them. *)
Definition pushed_on (F : Prop) (w0 : bytes) (ms : list (bytes * bytes)) (s : SubState) : Prop :=
  exists frames, output (conn s) = w0 ++ concat (map encode frames)
  /\ omap pushed frames = ms /\ (F -> Connection.pending (conn s) = []).

Definition sub_inv (F : Prop) (base : bytes -> Z) (w0 : bytes) (ms : list (bytes * bytes)) (s : SubState) : Prop :=
  counted_once base s /\ pushed_on F w0 ms s.

(** A step that leads from [I] to [J] if it goes on or panics, and to [E] if it ends the
    task. *)
Definition leads {A} (I J : SubState -> Prop) (E : Exit -> SubState -> Prop) (m : SubTask A) : Prop :=
  forall s, I s -> match m s with Done (inr _) s' | Panic s' => J s' | Done (inl e) s' => E e s' end.

Lemma leads_bind {A B} (I J : SubState -> Prop) E (m : SubTask A) (f : A -> SubTask B) :
  leads I J E m -> (forall a, leads J J E (f a)) -> leads I J E (m ≫= f).
Proof.
  intros Hm Hf s Hs. specialize (Hm s Hs). unfold mbind, SubTask_bind.
  destruct (m s) as [[e|a] s'|s']; [done|by apply Hf|done].
Qed.

Lemma leads_state {A} (I J : SubState -> Prop) E (f : SubState -> SubTask A) :
  (forall s, leads I J E (f s)) -> leads I J E (s ← state; f s).
Proof. intros Hf s Hs. by apply Hf. Qed.

Lemma leads_ret {A} (I : SubState -> Prop) E (a : A) : leads I I E (mret a).
Proof. by intros s Hs. Qed.

(** What holds when the task ends: all is flushed only if the stream was closed. *)
Definition ended (F : Prop) (base : bytes -> Z) (w0 : bytes) (ms : list (bytes * bytes)) (e : Exit) : SubState -> Prop :=
  sub_inv (F /\ e = Returned Closed) base w0 ms.

Lemma sub_inv_weaken (F F' : Prop) base w0 ms s : (F' -> F) -> sub_inv F base w0 ms s -> sub_inv F' base w0 ms s.
Proof.
  intros HF (Hc & frames & Hw & Hms & Hf). split; [done|]. exists frames. split_and!; [done|done|]. auto.
Qed.

(** Writing one frame, whatever comes of it. *)
Lemma write_inv (F F' : Prop) base w0 ms f :
  let ms' := ms ++ match pushed f with Some m => [m] | None => [] end in
  leads (sub_inv F base w0 ms) (sub_inv F' base w0 ms') (ended F' base w0 ms') (write f).
Proof.
  intros ms' s (Hc & frames & Hw & Hms & _).
  assert (forall c n (P : Prop), output c = output (conn s) ++ encode f -> (P -> Connection.pending c = []) ->
    sub_inv P base w0 ms' (mkSub c n (subscriptions s) (hub s) (sub_metrics s))) as Hnext.
  { intros c n P Ho Hp. split; [done|]. exists (frames ++ [f]). split_and!; [| |done].
    - cbn [conn]. rewrite Ho, Hw, map_app, concat_app. cbn. by rewrite app_nil_r, app_assoc.
    - rewrite omap_app, Hms. unfold ms'. cbn. by destruct (pushed f). }
  unfold write, mbind, SubTask_bind, await_conn.
  destruct (write_frame_buffered_io _ f (conn s)) as [r c] eqn:Ew. apply output_write in Ew as Ho.
  destruct r; [|by apply Hnext; [|intros [_ ?]]..]. cbn [conn writes].
  destruct (flush_io _ c) as [r2 c2] eqn:Ef. apply output_flush in Ef as [Ho2 Hp2]. rewrite Ho in Ho2.
  destruct r2; [by apply Hnext; auto|by apply Hnext; [|intros [_ ?]]..].
Qed.

Lemma write_quiet (F F' : Prop) base w0 ms f : pushed f = None ->
  leads (sub_inv F base w0 ms) (sub_inv F' base w0 ms) (ended F' base w0 ms) (write f).
Proof. intros Hf. pose proof (write_inv F F' base w0 ms f) as Hi. by rewrite Hf, app_nil_r in Hi. Qed.

Lemma subscribe_to_inv F base w0 ms ch :
  leads (sub_inv F base w0 ms) (sub_inv F base w0 ms) (ended F base w0 ms) (subscribe_to ch).
Proof.
  intros s (Hc & Hp).
  split; [|unfold subscribe_to, update; destruct (subscribe ch (hub s)); exact Hp].
  intros ch'. destruct (Hc ch') as [Hb Hn]. split; [done|].
  pose proof (count_at_step ch' (hub s) (Subscribes ch)) as Hs1. cbn [pubsub_step subscribers_after] in Hs1.
  specialize (Hs1 ltac:(done)).
  unfold subscribe_to, update. destruct (subscribe ch (hub s)) as [rx p] eqn:Hsub. cbn [snd] in Hs1.
  cbn [subscriptions hub]. rewrite lookup_insert.
  destruct (subscriptions s !! ch) as [old|] eqn:E.
  - pose proof (count_at_step ch' p (Leaves ch)) as Hs2. cbn [pubsub_step subscribers_after] in Hs2.
    rewrite Hs2, Hs1, Hn.
    + case_bool_decide; case_decide; try done; subst; rewrite ?E; lia.
    + intros ch2 [= <-]. destruct (Hc ch) as [Hb2 Hn2]. rewrite E in Hn2.
      pose proof (count_at_step ch (hub s) (Subscribes ch) ltac:(done)) as Hs3. cbn [pubsub_step subscribers_after] in Hs3.
      rewrite Hsub in Hs3. cbn [snd] in Hs3. rewrite bool_decide_eq_true_2 in Hs3 by done. lia.
  - rewrite Hs1, Hn. case_bool_decide; case_decide; try done; subst; rewrite ?E; lia.
Qed.

Lemma sub_metric_inv F base w0 ms f :
  leads (sub_inv F base w0 ms) (sub_inv F base w0 ms) (ended F base w0 ms) (sub_metric f).
Proof. by intros s Hs. Qed.

Lemma initial_loop_inv base w0 ms channels : forall (F : Prop) i,
  leads (sub_inv F base w0 ms) (sub_inv (F \/ channels <> []) base w0 ms)
    (ended (F \/ channels <> []) base w0 ms) (initial_loop i channels).
Proof.
  induction channels as [|ch rest IH]; intros F i; cbn [initial_loop].
  { intros s Hs. eapply sub_inv_weaken; [|exact Hs]. by intros [?|?]. }
  intros s Hs. unfold mbind at 1, SubTask_bind at 1.
  pose proof (subscribe_to_inv F base w0 ms ch s Hs) as Hs1. destruct (subscribe_to ch s) as [[e|[]] s1|s1] eqn:E1; try done.
  unfold mbind, SubTask_bind.
  pose proof (write_quiet F True base w0 ms (confirm ch (as_i64 (i + 1))) eq_refl s1 Hs1) as Hs2.
  assert (F \/ ch :: rest <> []) as HF by by right.
  destruct (write _ s1) as [[e|[]] s2|s2].
  - eapply sub_inv_weaken; [|exact Hs2]. by intros [_ ?].
  - specialize (IH True (i + 1) s2 Hs2). destruct (initial_loop _ _ _) as [[e|[]] s3|s3];
      (eapply sub_inv_weaken; [|exact IH]); [intros [_ ?]|intros _|intros _]; [split; [by left|done]|by left..].
  - eapply sub_inv_weaken; [|exact Hs2]. done.
Qed.

Lemma subscribe_loop_inv F base w0 ms channels :
  leads (sub_inv F base w0 ms) (sub_inv F base w0 ms) (ended F base w0 ms) (subscribe_loop channels).
Proof.
  induction channels as [|ch rest IH]; cbn [subscribe_loop]; [apply leads_ret|].
  apply leads_state. intros s. apply (leads_bind _ (sub_inv F base w0 ms)).
  - destruct (subscriptions s !! ch); [apply leads_ret|apply subscribe_to_inv].
  - intros _. apply leads_state. intros s'. apply (leads_bind _ (sub_inv F base w0 ms)); [by apply write_quiet|done].
Qed.

Lemma on_frame_inv F base w0 ms now f :
  leads (sub_inv F base w0 ms) (sub_inv F base w0 ms) (ended F base w0 ms) (on_frame now f).
Proof.
  unfold on_frame. repeat case_match; try (by intros s Hs);
    (apply (leads_bind _ (sub_inv F base w0 ms)); [apply sub_metric_inv|
     intros _; first [apply subscribe_loop_inv|by apply write_quiet]]).
Qed.

Lemma reads_inv F base w0 ms now :
  leads (sub_inv F base w0 ms) (sub_inv F base w0 ms) (ended F base w0 ms) (on_event (Reads now)).
Proof.
  intros s Hs. unfold on_event, mbind, SubTask_bind, state.
  assert (forall (P : Prop), (P -> F) -> sub_inv P base w0 ms s) as Hw by (intros P HP; by eapply sub_inv_weaken).
  destruct (read_frame_loop_io _ _ _) as [f rs buf| |e|]; cbn; [|by apply Hw; intros [? _]..].
  apply (on_frame_inv F base w0 ms now f). by destruct Hs as (Hc & Hp).
Qed.

(** The receivers the others hold, after what they do. *)
Definition others (n : bytes -> Z) (evs : list Event) (ch : bytes) : Z := fold_left (subscribers_after ch) evs (n ch).

(** They only drop receivers they hold. *)
Definition fair_from (n : bytes -> Z) (evs : list Event) : Prop :=
  forall ch pre post, evs = pre ++ Leaves ch :: post -> 0 < others n pre ch.

Definition elsewhere (es : list SubEvent) : list Event :=
  omap (fun e => match e with Elsewhere ev => Some ev | _ => None end) es.
Definition deliveries (es : list SubEvent) : list (bytes * bytes) :=
  omap (fun e => match e with Delivers ch msg => Some (ch, msg) | _ => None end) es.

Lemma elsewhere_inv F base w0 ms ev s :
  (forall ch, ev = Leaves ch -> 0 < base ch) -> sub_inv F base w0 ms s ->
  sub_inv F (others base [ev]) w0 ms (set_hub (pubsub_step (hub s) ev) s).
Proof.
  intros Hev (Hc & Hp). split; [|done]. intros ch. destruct (Hc ch) as [Hb Hn]. unfold others. cbn [fold_left set_hub hub subscriptions].
  rewrite count_at_step, Hn.
  - split; [|destruct ev; cbn; try case_bool_decide; lia].
    destruct ev as [| |ch']; cbn; try case_bool_decide; try lia. subst. specialize (Hev ch eq_refl). lia.
  - intros ch' ->. destruct (Hc ch') as [Hb' Hn']. specialize (Hev ch' eq_refl). destruct (subscriptions s !! ch'); lia.
Qed.

Lemma drop_all_count (subs : gmap bytes Receiver) (p : PubSub) :
  (forall ch, is_Some (subs !! ch) -> 0 < count_at ch p) ->
  forall ch, count_at ch (map_fold (fun ch _ p => unsubscribe ch p) p subs)
    = count_at ch p - match subs !! ch with Some _ => 1 | None => 0 end.
Proof.
  revert subs. apply (map_fold_weak_ind (fun q (m : gmap bytes Receiver) =>
    (forall ch, is_Some (m !! ch) -> 0 < count_at ch p) ->
    forall ch, count_at ch q = count_at ch p - match m !! ch with Some _ => 1 | None => 0 end)).
  { intros _ ch. rewrite lookup_empty. lia. }
  intros i rx m q Hi IH Hpos ch.
  assert (forall ch', is_Some (m !! ch') -> 0 < count_at ch' p) as Hm.
  { intros ch' Hch. apply Hpos. rewrite lookup_insert. by case_decide. }
  pose proof (count_at_step ch q (Leaves i)) as Hs. cbn [pubsub_step subscribers_after] in Hs. rewrite Hs.
  - rewrite (IH Hm), lookup_insert. case_bool_decide; case_decide; try done; subst; rewrite ?Hi; lia.
  - intros ch' [= <-]. rewrite (IH Hm), Hi. specialize (Hpos i). rewrite lookup_insert_eq in Hpos.
    specialize (Hpos (mk_is_Some _ _ eq_refl)). lia.
Qed.

(** Dropping the map leaves the receivers of the others. *)
Lemma leave_all_inv F base w0 ms s : sub_inv F base w0 ms s ->
  sub_inv F base w0 ms (leave_all s) /\ forall ch, count_at ch (hub (leave_all s)) = base ch.
Proof.
  intros (Hc & Hp).
  assert (forall ch, count_at ch (hub (leave_all s)) = base ch) as Hcount.
  { intros ch. destruct (Hc ch) as [Hb Hn]. unfold leave_all. cbn [hub]. rewrite drop_all_count, Hn; [lia|].
    intros ch' [rx Hr]. destruct (Hc ch') as [Hb' Hn']. rewrite Hr in Hn'. lia. }
  split; [|done]. split; [|done]. intros ch. split; [apply Hc|]. rewrite Hcount. unfold leave_all. cbn [subscriptions].
  rewrite lookup_empty. lia.
Qed.

Lemma others_cons base ev evs ch : others base (ev :: evs) ch = others (others base [ev]) evs ch.
Proof. done. Qed.

Lemma fair_from_tail base ev evs : fair_from base (ev :: evs) -> fair_from (others base [ev]) evs.
Proof. intros Hf ch pre post ->. rewrite <- others_cons. by apply (Hf ch (ev :: pre) post). Qed.

Lemma on_event_inv F base w0 ms e s :
  (forall ch, e = Elsewhere (Leaves ch) -> 0 < base ch) -> sub_inv F base w0 ms s ->
  let base' := others base (elsewhere [e]) in
  let ms' := ms ++ deliveries [e] in
  match on_event e s with
  | Done (inr _) s' | Panic s' => sub_inv F base' w0 ms' s'
  | Done (inl ex) s' => ended F base' w0 ms' ex s'
  end.
Proof.
  intros Hev Hs. destruct e as [ch msg|ch|now|ev|]; cbn [elsewhere deliveries omap list_omap]; cbn zeta.
  - apply (write_inv F F base w0 ms (push_frame ch msg) s Hs).
  - by rewrite app_nil_r.
  - rewrite app_nil_r. by apply reads_inv.
  - rewrite app_nil_r. apply elsewhere_inv; [|done]. intros ch ->. by apply Hev.
  - rewrite app_nil_r. eapply sub_inv_weaken; [|exact Hs]. by intros [_ ?].
Qed.

(** What a run leaves behind: it handled a prefix of the events, all of them unless it
    ended, and the invariant holds for that prefix. *)
Definition after_run (F : Prop) (base : bytes -> Z) (w0 : bytes) (ms : list (bytes * bytes)) (es : list SubEvent)
    (o : Outcome SubState (Exit + unit)) : Prop :=
  exists handled rest, es = handled ++ rest
  /\ let base' := others base (elsewhere handled) in
     let ms' := ms ++ deliveries handled in
     match o with
     | Done (inr _) s' => sub_inv F base' w0 ms' s' /\ rest = []
     | Done (inl e) s' => ended F base' w0 ms' e s'
     | Panic s' => sub_inv F base' w0 ms' s'
     end.

Lemma elsewhere_app es1 es2 : elsewhere (es1 ++ es2) = elsewhere es1 ++ elsewhere es2.
Proof. apply omap_app. Qed.
Lemma deliveries_app es1 es2 : deliveries (es1 ++ es2) = deliveries es1 ++ deliveries es2.
Proof. apply omap_app. Qed.

Lemma select_loop_run F es : forall base w0 ms s,
  fair_from base (elsewhere es) -> sub_inv F base w0 ms s -> after_run F base w0 ms es (select_loop es s).
Proof.
  induction es as [|e es IH]; intros base w0 ms s Hfair Hs.
  { exists [], []. cbn. rewrite app_nil_r. split; [done|]. by split. }
  pose proof (on_event_inv F base w0 ms e s) as He. cbn zeta in He. specialize (fun H1 => He H1 Hs).
  specialize (He ltac:(intros ch ->; by apply (Hfair ch [] (elsewhere es)))).
  cbn [select_loop]. unfold mbind, SubTask_bind. destruct (on_event e s) as [[ex|[]] s1|s1].
  - exists [e], es. by split.
  - destruct (IH (others base (elsewhere [e])) w0 (ms ++ deliveries [e]) s1) as (handled & rest & -> & Ho); [|done|].
    + destruct e; try done. by apply fair_from_tail.
    + exists (e :: handled), rest. split; [done|]. rewrite <- app_assoc, <- deliveries_app in Ho. by destruct e.
  - exists [e], es. by split.
Qed.

Lemma subscriber_run channels es s :
  subscriptions s = ∅ -> (forall ch, 0 <= count_at ch (hub s)) ->
  fair_from (fun ch => count_at ch (hub s)) (elsewhere es) ->
  after_run (channels <> []) (fun ch => count_at ch (hub s)) (output (conn s)) [] es
    ((initial_loop 0 channels ;; select_loop es) s).
Proof.
  intros Hsub Hpos Hfair. set (base := fun ch => count_at ch (hub s)).
  assert (sub_inv False base (output (conn s)) [] s) as Hs.
  { split.
    - intros ch. split; [apply Hpos|]. rewrite Hsub, lookup_empty. unfold base. lia.
    - exists []. cbn. by rewrite app_nil_r. }
  pose proof (initial_loop_inv base (output (conn s)) [] channels False 0 s Hs) as Hi. unfold mbind, SubTask_bind.
  destruct (initial_loop 0 channels s) as [[e|[]] s1|s1].
  - exists [], es. split; [done|]. eapply sub_inv_weaken; [|exact Hi]. intros [? ?]. split; [by right|done].
  - apply select_loop_run; [done|]. eapply sub_inv_weaken; [|exact Hi]. by right.
  - exists [], es. split; [done|]. eapply sub_inv_weaken; [|exact Hi]. by right.
Qed.

Lemma subscriber_counts channels es s :
  subscriptions s = ∅ -> (forall ch, 0 <= count_at ch (hub s)) ->
  fair_from (fun ch => count_at ch (hub s)) (elsewhere es) ->
  exists handled rest, es = handled ++ rest
  /\ let counts := others (fun ch => count_at ch (hub s)) (elsewhere handled) in
     match run_subscriber_mode channels es s with
     | Done None s' => rest = [] /\ forall ch,
         count_at ch (hub s') = counts ch + match subscriptions s' !! ch with Some _ => 1 | None => 0 end
     | Done (Some _) s' | Panic s' => forall ch, count_at ch (hub s') = counts ch
     end.
Proof.
  intros Hsub Hpos Hfair. destruct (subscriber_run channels es s Hsub Hpos Hfair) as (handled & rest & Hes & Ho).
  exists handled, rest. split; [done|]. cbn zeta in Ho |- *. unfold run_subscriber_mode.
  revert Ho. generalize ((initial_loop 0 channels ;; select_loop es) s).
  intros [[e|[]] s'|s'] Ho; [by apply leave_all_inv in Ho as [_ Ho]| |by apply leave_all_inv in Ho as [_ Ho]].
  destruct Ho as [(Hc & _) ->]. split; [done|]. intros ch. apply Hc.
Qed.

(** C32: subscriber mode counts once, and cleans up. Whatever the events, while the task is
    running the hub holds on every channel the receivers of the other connections and
    exactly one more if this connection is subscribed to it (however often it asked for it);
    when the task has ended, by the end of the stream, a failed read or write, the shutdown
    or a panic, none of its receivers is left, so PUBLISH stops counting it. *)
Theorem subscriber_counted_once channels es s :
  subscriptions s = ∅ -> (forall ch, 0 <= count_at ch (hub s)) ->
  fair_from (fun ch => count_at ch (hub s)) (elsewhere es) ->
  exists handled rest, es = handled ++ rest
  /\ let counts := others (fun ch => count_at ch (hub s)) (elsewhere handled) in
     match run_subscriber_mode channels es s with
     | Done None s' => rest = [] /\ forall ch,
         count_at ch (hub s') = counts ch + match subscriptions s' !! ch with Some _ => 1 | None => 0 end
     | Done (Some _) s' | Panic s' => forall ch, count_at ch (hub s') = counts ch
     end.
Proof. apply subscriber_counts. Qed.

(** C31: subscriber mode delivers. Whatever fails, what the connection wrote since it entered
    the mode is a sequence of whole frames, whose pushes are exactly the messages its streams
    delivered, each once and in the order of delivery, whatever requests came in between;
    its peer has a prefix of it, and all of it while the task is running and when the peer
    closed the stream. *)
Theorem subscriber_delivers channels es s :
  channels <> [] -> subscriptions s = ∅ -> (forall ch, 0 <= count_at ch (hub s)) ->
  fair_from (fun ch => count_at ch (hub s)) (elsewhere es) ->
  exists handled rest frames, es = handled ++ rest /\ omap pushed frames = deliveries handled
  /\ let written := wire (conn s) ++ Connection.pending (conn s) ++ concat (map encode frames) in
     match run_subscriber_mode channels es s with
     | Done None s' => wire (conn s') = written /\ rest = []
     | Done (Some e) s' => wire (conn s') `prefix_of` written /\ (e = Returned Closed -> wire (conn s') = written)
     | Panic s' => wire (conn s') = written
     end.
Proof.
  intros Hne Hsub Hpos Hfair. destruct (subscriber_run channels es s Hsub Hpos Hfair) as (handled & rest & Hes & Ho).
  unfold run_subscriber_mode. cbn zeta in Ho |- *. unfold output at 1 in Ho.
  assert (forall P base s', sub_inv P base (wire (conn s) ++ Connection.pending (conn s)) (deliveries handled) s' ->
    exists frames, omap pushed frames = deliveries handled
      /\ output (conn s') = wire (conn s) ++ Connection.pending (conn s) ++ concat (map encode frames)
      /\ (P -> Connection.pending (conn s') = [])) as Hend.
  { intros P base s' (_ & frames & Hw & Hms & Hf). exists frames. by rewrite Hw, <- app_assoc. }
  revert Ho. generalize ((initial_loop 0 channels ;; select_loop es) s). intros [[e|[]] s'|s'] Ho;
    [destruct (Hend _ _ _ Ho) as (frames & Hms & Hw & Hf)|destruct Ho as [Ho ->]; destruct (Hend _ _ _ Ho) as (frames & Hms & Hw & Hf)
    |destruct (Hend _ _ _ Ho) as (frames & Hms & Hw & Hf)];
    exists handled; eexists; exists frames; (split; [exact Hes|]); (split; [done|]); cbn [leave_all conn];
    rewrite <- Hw; unfold output.
  - split; [by apply prefix_app_r|]. intros ->. by rewrite Hf, app_nil_r.
  - by rewrite Hf, app_nil_r.
  - by rewrite Hf, app_nil_r.
Qed.
End subscriber.

#[local] Existing Instance DemoText.case.
#[local] Existing Instance DemoText.debug.
#[local] Existing Instance PubSub.counting.

(** Two channels, one asked for twice; another subscriber comes and goes; a message; a PING;
    the client closes. *)
Definition demo_events : list SubEvent :=
  [Elsewhere (Subscribes (bs "news")); Delivers (bs "news") (bs "hello"); Reads 0;
   Elsewhere (Leaves (bs "news")); Reads 0].
Definition demo_sub : SubState :=
  mkSub (mkConnection [bs "PING" ++ CRLF] [] [] []) 0 ∅ PubSub_new (Metrics_new 0 None).
Definition demo_channels : list bytes := [bs "news"; bs "chat"; bs "news"].

(** A network that works, and one on which the write of the first push, after three
    confirmations, stops after seven bytes. *)
Definition demo_quiet : Network := mkNetwork Ready (fun _ => (0%nat, Ready)) (fun _ => false).
Definition demo_failing : Network :=
  mkNetwork Ready (fun j => if (j <? 6)%nat then (0%nat, Ready) else (7%nat, IoError (bs "Broken pipe"))) (fun _ => false).

Lemma demo_fair : fair_from (fun ch => count_at ch (hub demo_sub)) (elsewhere demo_events).
Proof.
  intros ch pre post Heq. cbn in Heq. destruct pre as [|e1 [|e2 pre]]; [discriminate Heq| |].
  - injection Heq as <- <- _. vm_compute. reflexivity.
  - injection Heq as _ _ Heq. by destruct pre.
Qed.
Lemma demo_counts : forall ch, 0 <= count_at ch (hub demo_sub).
Proof. intros ch. unfold count_at. cbn. rewrite lookup_empty. lia. Qed.

Lemma subscriber_counted_once_witness :
  match run_subscriber_mode demo_failing demo_channels demo_events demo_sub with
  | Done r s' => r = Some (Returned (Failed (bs "Broken pipe"))) /\ exists handled, forall ch,
      count_at ch (hub s') = others (fun ch => count_at ch (hub demo_sub)) (elsewhere handled) ch
  | Panic _ => False
  end.
Proof.
  destruct (subscriber_counted_once demo_failing demo_channels demo_events demo_sub eq_refl demo_counts demo_fair)
    as (handled & rest & _ & Hrun). cbn zeta in Hrun.
  assert (exists s', run_subscriber_mode demo_failing demo_channels demo_events demo_sub
    = Done (Some (Returned (Failed (bs "Broken pipe")))) s') as [s' E] by (vm_compute; eexists; reflexivity).
  rewrite E in Hrun |- *. split; [reflexivity|]. exists handled. exact Hrun.
Defined.

Lemma subscriber_delivers_witness :
  match run_subscriber_mode demo_quiet demo_channels demo_events demo_sub with
  | Done r s' => r = Some (Returned Closed) /\ exists handled rest frames, demo_events = handled ++ rest
      /\ omap pushed frames = deliveries handled /\ wire (conn s') = concat (map encode frames)
  | Panic _ => False
  end.
Proof.
  assert (demo_channels <> []) as Hne by discriminate.
  destruct (subscriber_delivers demo_quiet demo_channels demo_events demo_sub Hne eq_refl demo_counts demo_fair)
    as (handled & rest & frames & Hes & Hms & Hrun). cbn zeta in Hrun.
  assert (exists s', run_subscriber_mode demo_quiet demo_channels demo_events demo_sub = Done (Some (Returned Closed)) s')
    as [s' E] by (vm_compute; eexists; reflexivity).
  rewrite E in Hrun |- *. split; [reflexivity|]. exists handled, rest, frames.
  split; [exact Hes|]. split; [exact Hms|]. exact (proj2 Hrun eq_refl).
Defined.
