(* ===== verification/Accept.v ===== *)
(** * The accept loop: [main] of [src/src/main.rs]

    The limit on concurrent connections, enforced with a semaphore, and the client gauge of
    the metrics, over any history of connections. The shutdown is in [Shutdown];
    the logging is not modelled. *)
From S2P Require Import Prelude.
From S2P Require Import RustStd.
From S2P Require Import Metrics.

Definition DEFAULT_MAX_CONNECTIONS : Z := 10000.

(** The value of [MAX_CONNECTIONS], if it is set to a number. *)
Definition env_max_connections (var : option bytes) : Z := default DEFAULT_MAX_CONNECTIONS (v ← var; parse_usize v).

(** [tokio::sync::Semaphore], as documented: [try_acquire_owned] takes one of the permits
    left or fails when there is none; dropping an owned permit gives it back. *)
Class Semaphore := {
  Sem : Type;
  sem_new : nat -> Sem;
  available : Sem -> nat;
  try_acquire_owned : Sem -> option Sem;
  drop_permit : Sem -> Sem;
  sem_new_available : forall n, available (sem_new n) = n;
  try_acquire_some : forall s, (0 < available s)%nat ->
    exists s', try_acquire_owned s = Some s' /\ S (available s') = available s;
  try_acquire_none : forall s, available s = 0%nat -> try_acquire_owned s = None;
  drop_permit_available : forall s, available (drop_permit s) = S (available s);
}.

Section accept.
Context `{Semaphore}.

(** The listener: the semaphore, the tasks spawned and not yet over, and the metrics. *)
Record Listener := mkListener { conn_limiter : Sem; sessions : nat; listener_metrics : Metrics }.

Definition Listener_start (max_connections : nat) (m : Metrics) : Listener :=
  mkListener (sem_new max_connections) 0 m.

(** The accept succeeds or fails; the task of a session ends cleanly (or by the shutdown),
    with an error, or by a panic. *)
Inductive ConnEvent := AcceptOk | AcceptErr | SessionOk | SessionErr | SessionPanic.

(** One turn of the loop, or the end of a spawned task. A panic unwinds the task: the permit
    is dropped, but [client_disconnected] is not reached. *)
Definition listener_step (l : Listener) (ev : ConnEvent) : Listener :=
  let m := listener_metrics l in
  match ev with
  | AcceptOk =>
    match try_acquire_owned (conn_limiter l) with
    | Some s => mkListener s (S (sessions l)) (client_connected m)
    | None => mkListener (conn_limiter l) (sessions l) (record_connection_error m)
    end
  | AcceptErr => mkListener (conn_limiter l) (sessions l) (record_connection_error m)
  | SessionOk => mkListener (drop_permit (conn_limiter l)) (pred (sessions l)) (client_disconnected m)
  | SessionErr =>
    mkListener (drop_permit (conn_limiter l)) (pred (sessions l)) (client_disconnected (record_connection_error m))
  | SessionPanic => mkListener (drop_permit (conn_limiter l)) (pred (sessions l)) m
  end.

(** A session ends only while there is one. *)
Definition ends_session (ev : ConnEvent) : bool :=
  match ev with SessionOk | SessionErr | SessionPanic => true | _ => false end.

Fixpoint possible (l : Listener) (evs : list ConnEvent) : Prop :=
  match evs with
  | [] => True
  | ev :: evs' => (ends_session ev = true -> (0 < sessions l)%nat) /\ possible (listener_step l ev) evs'
  end.

Definition panics (evs : list ConnEvent) : Z :=
  sumZ (map (fun ev => match ev with SessionPanic => 1 | _ => 0 end) evs).

(** The permits and the sessions share the limit; the gauge counts the sessions, and the
    tasks that panicked; the peak has not passed the limit by more than those. *)
Definition listener_inv (max : nat) (panicked : Z) (l : Listener) : Prop :=
  (available (conn_limiter l) + sessions l)%nat = max
  /\ connected_clients (listener_metrics l) = Z.of_nat (sessions l) + panicked
  /\ 0 <= peak_clients (listener_metrics l) <= Z.of_nat max + panicked.

Lemma connected_gauge m : 0 <= connected_clients m -> connected_clients m + 1 <= i64_max ->
  connected_clients (client_connected m) = connected_clients m + 1
  /\ peak_clients (client_connected m) = Z.max (peak_clients m) (connected_clients m + 1).
Proof.
  intros H0 H1. destruct m. cbn -[as_i64] in *. rewrite as_i64_small by lia.
  split; [done|]. destruct (Z.ltb_spec 0 (connected_clients + 1)); [|lia].
  destruct (Z.ltb_spec peak_clients (connected_clients + 1)); lia.
Qed.

Lemma disconnected_gauge m : 1 <= connected_clients m <= i64_max ->
  connected_clients (client_disconnected m) = connected_clients m - 1
  /\ peak_clients (client_disconnected m) = peak_clients m.
Proof. intros Hr. destruct m. cbn -[as_i64] in *. by rewrite as_i64_small by lia. Qed.

Lemma error_gauge m : connected_clients (record_connection_error m) = connected_clients m
  /\ peak_clients (record_connection_error m) = peak_clients m.
Proof. by destruct m. Qed.

Lemma listener_step_inv max panicked l ev :
  0 <= panicked -> Z.of_nat max + panicked + 1 <= i64_max -> (ends_session ev = true -> (0 < sessions l)%nat) ->
  listener_inv max panicked l -> listener_inv max (panicked + panics [ev]) (listener_step l ev).
Proof.
  intros Hp Hmax Hend (Hs & Hc & Hk). unfold panics. cbn [map sumZ foldr].
  pose proof (error_gauge (listener_metrics l)) as [He1 He2].
  pose proof (drop_permit_available (conn_limiter l)) as Hd.
  destruct ev; cbn [listener_step ends_session] in *; unfold listener_inv.
  - destruct (decide (available (conn_limiter l) = 0%nat)) as [E|E].
    + rewrite try_acquire_none by done. cbn. rewrite He1, He2. lia.
    + destruct (try_acquire_some (conn_limiter l)) as (s & -> & Ha); [lia|]. cbn.
      destruct (connected_gauge (listener_metrics l)) as [-> ->]; lia.
  - cbn. rewrite He1, He2. lia.
  - specialize (Hend eq_refl). cbn. destruct (disconnected_gauge (listener_metrics l)) as [-> ->]; lia.
  - specialize (Hend eq_refl). cbn. destruct (disconnected_gauge (record_connection_error (listener_metrics l))) as [-> ->]; lia.
  - specialize (Hend eq_refl). cbn. lia.
Qed.

(** C35: the connection limit. Over any history there are never more than [max_connections]
    sessions, every permit not left in the semaphore belongs to one, so a slot is never
    lost, not even to a task that panics; and the client gauge is the number of sessions
    plus the number of tasks that panicked, which it never stops counting. *)
Theorem connection_limit (max_connections : nat) (m : Metrics) (evs : list ConnEvent) :
  connected_clients m = 0 -> peak_clients m = 0 ->
  Z.of_nat max_connections + len evs + 1 <= i64_max -> possible (Listener_start max_connections m) evs ->
  let l := fold_left listener_step evs (Listener_start max_connections m) in
  (sessions l <= max_connections)%nat
  /\ (available (conn_limiter l) = max_connections - sessions l)%nat
  /\ connected_clients (listener_metrics l) = Z.of_nat (sessions l) + panics evs
  /\ peak_clients (listener_metrics l) <= Z.of_nat max_connections + panics evs.
Proof.
  intros Hc Hk Hmax Hpos l.
  assert (forall evs p l, 0 <= p -> Z.of_nat max_connections + p + len evs + 1 <= i64_max -> possible l evs ->
    listener_inv max_connections p l -> listener_inv max_connections (p + panics evs) (fold_left listener_step evs l)) as Hall.
  { clear. induction evs as [|ev evs IH]; intros p l Hp Hmax Hpos Hl; [by rewrite Z.add_0_r|].
    destruct Hpos as [Hend Hpos]. rewrite len_cons in Hmax. pose proof (len_nonneg evs).
    change (panics (ev :: evs)) with (match ev with SessionPanic => 1 | _ => 0 end + panics evs).
    assert (panics [ev] = match ev with SessionPanic => 1 | _ => 0 end) as Hpan by (by destruct ev).
    rewrite Z.add_assoc, <- Hpan. cbn [fold_left].
    assert (0 <= panics [ev] <= 1) by (rewrite Hpan; destruct ev; lia).
    apply IH; [lia|lia|done|]. apply listener_step_inv; [lia|lia|done|done]. }
  destruct (Hall evs 0 (Listener_start max_connections m)) as (Hs & Hg & Hpk); try done; try lia.
  - split_and!; cbn; [by rewrite sem_new_available, Nat.add_0_r|by rewrite Hc|lia|lia].
  - fold l in Hs, Hg, Hpk. split_and!; lia.
Qed.
End accept.

(** A semaphore that is its number of permits. *)
Definition counting_semaphore : Semaphore.
Proof.
  refine {| Sem := nat; sem_new := id; available := id; try_acquire_owned := fun n => match n with O => None | S k => Some k end;
            drop_permit := S |}.
  - done.
  - intros [|k] Hk; [cbn in Hk; lia|by exists k].
  - by intros [|k].
  - done.
Defined.

Lemma connection_limit_witness :
  let l := fold_left (@listener_step counting_semaphore) [AcceptOk; AcceptOk; AcceptOk; SessionPanic; AcceptOk; SessionOk]
    (@Listener_start counting_semaphore 2 (Metrics_new 0 None)) in
  sessions l = 1%nat /\ connected_clients (listener_metrics l) = 2.
Proof.
  destruct (@connection_limit counting_semaphore 2 (Metrics_new 0 None)
    [AcceptOk; AcceptOk; AcceptOk; SessionPanic; AcceptOk; SessionOk]) as (_ & _ & Hg & _).
  - reflexivity.
  - reflexivity.
  - vm_compute. discriminate.
  - vm_compute. repeat split; intros; try discriminate; repeat constructor.
  - split; [reflexivity|]. rewrite Hg. reflexivity.
Defined.
