(* ===== verification/Recovery.v ===== *)
(** * Recovery: a restart rebuilds the keyspace

    Any number of connections whose requests are handled one at a time, the log they write,
    and the replay of that log, possibly cut off inside its last record, on a new store. *)
From S2P Require Import Prelude.
From S2P Require Import RustStd.
From S2P Require Import Frame.
From S2P Require Import Metrics.
From S2P Require Import Store.
From S2P Require Import Keyspace.
From S2P Require Import Evict.
From S2P Require Import DbKeys.
From S2P Require Import PubSub.
From S2P Require Import Cmd.
From S2P Require Import Command.
From S2P Require Import Aof.
From S2P Require Import Server.

(** ** Commands without deadlines

    A replay restarts every relative time-to-live; without one, a command does the same at
    any time. *)
Definition ttl_free (c : Command) : Prop :=
  match c with
  | Set_ s => CmdSet.expires_at s = None
  | Expire _ => False
  | _ => True
  end.

Definition no_deadlines (k : keyspace) : Prop := map_Forall (fun _ v => v.2 = None) k.

Lemma spec_next_time t t' c k : ttl_free c -> spec_next t c k = spec_next t' c k.
Proof. destruct c; cbn; try done. by intros ->. Qed.

Lemma no_deadlines_insert k key d : no_deadlines k -> no_deadlines (<[key := (d, None)]> k).
Proof. intros Hk. by apply map_Forall_insert_2. Qed.

Lemma no_deadlines_delete k key : no_deadlines k -> no_deadlines (delete key k).
Proof. apply map_Forall_delete. Qed.

Lemma no_deadlines_lookup k key d x : no_deadlines k -> k !! key = Some (d, x) -> x = None.
Proof. intros Hk Hkey. exact (Hk _ _ Hkey). Qed.

#[local] Hint Resolve no_deadlines_insert no_deadlines_delete : core.

Lemma spec_next_no_deadlines t c k : ttl_free c -> no_deadlines k -> no_deadlines (spec_next t c k).
Proof.
  intros Hc Hk. destruct c as [| | |s|d|x| |c|c|c| | | | | |]; cbn; try done.
  - cbn in Hc. unfold spec_set. rewrite Hc. auto.
  - unfold spec_del. intros key v Hv. apply map_lookup_filter_Some in Hv as [Hv _]. exact (Hk _ _ Hv).
  - destruct c as [key els|key els|key|key|]; cbn; try done; unfold spec_lpush, spec_rpush, spec_lpop, spec_rpop,
      spec_push, spec_pop; destruct (k !! key) as [[[] x]|] eqn:E; cbn; auto;
      apply no_deadlines_lookup in E as ->; auto; repeat case_match; auto.
  - destruct c as [key fs| |key fs|]; cbn; try done; unfold spec_hset, spec_hdel;
      destruct (k !! key) as [[[] x]|] eqn:E; cbn; auto; apply no_deadlines_lookup in E as ->; auto.
    case_decide; auto.
  - destruct c as [key ms| |key ms|]; cbn; try done; unfold spec_sadd, spec_srem;
      destruct (k !! key) as [[[] x]|] eqn:E; cbn; auto; apply no_deadlines_lookup in E as ->; auto.
    case_decide; auto.
Qed.

(** What is alive stays alive. *)
Lemma live_no_deadlines now t m : now <= t -> no_deadlines (live now m) -> live t m = live now m.
Proof.
  intros Ht Hk. apply map_eq. intros key. rewrite !live_lookup. destruct (m !! key) as [e|] eqn:E; [|done]. cbn.
  assert (forall v, live_entry now e = Some v -> v.2 = None) as Hv.
  { intros v Hv. apply (Hk key). by rewrite live_lookup, E. }
  unfold live_entry, is_expired, value_of in *. destruct (expires_at e) as [d|]; [|done].
  destruct (Z.leb_spec d now); [by rewrite (proj2 (Z.leb_le d t)) by lia|]. specialize (Hv _ eq_refl). done.
Qed.

(** ** Parsing does not depend on the time *)
Section parsing.
Context `{UnicodeCase} `{FrameDebug}.

Lemma set_parse_time now now' args c :
  CmdSet.parse_frames now args = Ok c -> CmdSet.expires_at c = None -> CmdSet.parse_frames now' args = Ok c.
Proof.
  unfold CmdSet.parse_frames. intros Hp Hx. inv_ok. destruct x as [key args1]. inv_ok. destruct x as [value args2].
  inv_ok. run_ok. destruct x as [d|]; [|done]. by destruct (instant_add now d); inv_ok.
Qed.

Lemma fmap_Ok {A} (f : A -> Command) (p : parsed A) c : f <$> p = Ok c -> exists a, p = Ok a /\ c = f a.
Proof. destruct p; cbn; intros; inv_ok; eauto. Qed.

Lemma dispatch_time now now' name args c :
  dispatch now name args = Ok c -> ttl_free c -> dispatch now' name args = Ok c.
Proof.
  unfold dispatch. intros Hd Ht.
  repeat (case_bool_decide; [try exact Hd|]); [|exact Hd].
  apply fmap_Ok in Hd as (s & Hs & ->). by rewrite (set_parse_time now now' _ _ Hs Ht).
Qed.

Lemma from_frame_time now now' f c : from_frame now f = Ok c -> ttl_free c -> from_frame now' f = Ok c.
Proof.
  unfold from_frame. destruct f as [| | | | |[|cmd_frame args]]; try done.
  intros Hp Ht. inv_ok. run_ok. by eapply dispatch_time.
Qed.

Lemma parse_unsigned hi s z : parse_int false 0 hi s = Some z -> 0 <= z.
Proof. by intros []%parse_int_range. Qed.

Lemma parsed_or_unsigned err hi s z : parsed_or err (parse_int false 0 hi s) = Ok z -> 0 <= z.
Proof.
  unfold parsed_or, ok_or. destruct (parse_int false 0 hi s) eqn:E; intros; inv_ok. by apply parse_unsigned in E.
Qed.

Lemma parse_cursor_nonneg f z : CmdScan.parse_cursor f = Ok z -> 0 <= z.
Proof. unfold CmdScan.parse_cursor. intros Hp. inv_ok. by eapply parsed_or_unsigned. Qed.

Lemma parse_count_nonneg f z : CmdScan.parse_count f = Ok z -> 0 <= z.
Proof.
  assert (forall f, (s ← string_arg NOT_INTEGER NOT_INTEGER f; parsed_or NOT_INTEGER (parse_usize s)) = Ok z -> 0 <= z) as Hs.
  { intros f' Hp. inv_ok. by eapply parsed_or_unsigned. }
  unfold CmdScan.parse_count. destruct f; try by apply Hs.
  destruct (_ <=? 0); intros; inv_ok. apply wrap_u64_range.
Qed.

Lemma scan_options_nonneg n args c c' : (length args <= n)%nat ->
  CmdScan.parse_options args c = Ok c' -> 0 <= CmdScan.cursor c -> 0 <= CmdScan.count c ->
  0 <= CmdScan.cursor c' /\ 0 <= CmdScan.count c'.
Proof.
  revert args c. induction n as [|n IH]; intros args c Hn; (destruct args as [|f rest]; [cbn [CmdScan.parse_options]; intros; by inv_ok|]);
    [cbn in Hn; lia|]. cbn in Hn.
  cbn [CmdScan.parse_options]. intros Hp Hc Hct. inv_ok.
  repeat (case_bool_decide; [destruct rest as [|f' rest]; [done|]; inv_ok|]); [..|done];
    try destruct x0 as [pat rest']; cbn in Hn; eapply IH; try eassumption; try lia.
  by eapply parse_count_nonneg.
Qed.

Lemma from_frame_scan now f c :
  from_frame now f = Ok (Scan c) -> 0 <= CmdScan.cursor c /\ 0 <= CmdScan.count c.
Proof.
  unfold from_frame. destruct f as [| | | | |[|cmd_frame args]]; try done.
  intros Hp. inv_ok. unfold dispatch in H2.
  repeat (case_bool_decide; [try by (apply fmap_Ok in H2 as (? & _ & ?))|]); try done.
  apply fmap_Ok in H2 as (s & Hs & [= ->]). unfold CmdScan.parse_frames in Hs. inv_ok. destruct x0 as [f args1].
  inv_ok. eapply scan_options_nonneg; [done|eassumption|by eapply parse_cursor_nonneg|done].
Qed.

Lemma from_frame_ok now t f c : from_frame now f = Ok c -> ttl_free c -> command_ok t c.
Proof. intros Hp Ht. destruct c; try done. by eapply from_frame_scan. Qed.
End parsing.

(** ** Runs *)
Section runs.
Context {Hh : Hasher} `{UnicodeCase} `{FrameDebug} `{Broadcast}.

(** From time [now] on, the store without a memory limit holds the keyspace [k], which has no
    deadlines. *)
Definition holds (now : Z) (db : Db) (k : keyspace) : Prop :=
  exists s, models db s /\ cap s <= 0 /\ live now (ks s) = k /\ no_deadlines k.

Lemma holds_later now t db k : now <= t -> holds now db k -> holds t db k.
Proof.
  intros Ht (s & Hm & Hc & Hl & Hk). exists s. split_and!; [done|done| |done].
  rewrite <- Hl. apply live_no_deadlines; [done|]. by rewrite Hl.
Qed.

Lemma holds_new n now m t : (0 < n)%nat -> holds t (with_options_and_metrics n 0 now m) ∅.
Proof.
  intros Hn. exists (flat (with_options_and_metrics n 0 now m)).
  split; [by apply models_flat, wf_new|]. split; [done|]. cbn [ks flat]. rewrite view_new. split; [|done].
  apply map_eq. intros k. by rewrite live_lookup, !lookup_empty.
Qed.

Lemma holds_apply t e c db k :
  holds t db k -> t <= clock e 0 -> ttl_free c -> command_ok (clock e 0) c ->
  wp (apply e c) (fun _ db' => holds (clock e 0) db' (spec_next 0 c k)) db.
Proof.
  intros Hh' Ht Hc Hok. apply (holds_later _ _ _ _ Ht) in Hh' as (s & Hm & Hcap & Hl & Hk).
  eapply wp_mono; [by apply apply_acts|]. cbn beta.
  intros f db' (s' & k1 & Hm' & Hconf & _ & _ & Hk1 & Hl' & _). exists s'.
  rewrite Hk1, Hl in Hl' by by left. rewrite (spec_next_time _ 0) in Hl' by done.
  split_and!; [done|by rewrite (proj1 Hconf)|done|by apply spec_next_no_deadlines].
Qed.

(** The keyspace after some commands. *)
Definition spec_run (cs : list Command) (k : keyspace) : keyspace :=
  fold_left (fun k c => spec_next 0 c k) cs k.

(** Each environment's clock is not before the one before. *)
Fixpoint times (t : Z) (es : list Env) : Prop :=
  match es with [] => True | e :: es' => t <= clock e 0 /\ times (clock e 0) es' end.

(** ** A run of the server: requests handled one at a time *)

(** A request whose parse does not panic and whose command, if any, has no deadline. *)
Definition request_ok (r : Request) : Prop :=
  frame_ok (frame r) = true
  /\ match from_frame (parse_now (input r)) (frame r) with
     | Ok c => ttl_free c | Err (Msg _) => True | Err ParsePanic => False end.

Lemma spec_next_read c k : is_write c = false -> spec_next 0 c k = k.
Proof. by destruct c as [| | | | | | |[]|[]|[]| | | | | |]. Qed.

(** An operation on the metrics only. *)
Lemma holds_metric t db k f : holds t db k -> wp (metric f) (fun _ db' => holds t db' k) db.
Proof.
  intros (s & Hm & Hrest). apply (wp_metric _ _ _ _ Hm). intros db' Hm'. by eexists.
Qed.

Lemma wp_on_db {A} (m : ST Db A) (Q : A -> World -> Prop) w :
  wp m (fun a db => Q a (mkWorld db (w_pubsub w) (w_sent w))) (w_db w) -> wp (on_db m) Q w.
Proof. unfold wp, on_db. by destruct (m (w_db w)). Qed.

Lemma wp_on_db_pubsub {A} (m : ST (Db * PubSub) A) (Q : A -> World -> Prop) w :
  wp m (fun a dp => Q a (mkWorld dp.1 dp.2 (w_sent w))) (w_db w, w_pubsub w) -> wp (on_db_pubsub m) Q w.
Proof. unfold wp, on_db_pubsub. by destruct (m (w_db w, w_pubsub w)) as [a [db p]|[db p]]. Qed.

Lemma wp_apply_with_pubsub e c (Q : Frame -> Db -> Prop) db p :
  (forall f, is_pubsub c = true -> Q f db) -> (is_pubsub c = false -> wp (apply e c) Q db) ->
  wp (apply_with_pubsub e c) (fun f dp => Q f dp.1) (db, p).
Proof.
  intros Hpub Happ. unfold wp, apply_with_pubsub. destruct c; cbn [is_pubsub] in *;
    try (specialize (Happ eq_refl); unfold wp in Happ; by destruct (apply _ _ _)).
  destruct (CmdPubSub.apply_publish c p) as [f p']. by apply Hpub.
Qed.

(** One request: the store moves as its command does, and its frame is logged if it writes. *)
Lemma handle_spec t r w k :
  holds t (w_db w) k -> t <= clock (env (input r)) 0 -> request_ok r ->
  wp (handle r) (fun _ w' => holds (clock (env (input r)) 0) (w_db w') (spec_run (writes [r]) k)
    /\ w_sent w' = w_sent w ++ map record (logged [r])) w.
Proof.
  intros Hk Ht [_ Hok]. unfold handle, writes, logged, command_of. cbn [omap list_omap].
  pose proof (holds_later _ _ _ _ Ht Hk) as Hk'.
  destruct (from_frame (parse_now (input r)) (frame r)) as [c|[err|]] eqn:Hf; [| |done].
  2:{ apply wp_bind, wp_on_db. eapply wp_mono; [by apply holds_metric|]. cbn. intros _ db' Hdb. apply wp_ret.
      by rewrite app_nil_r. }
  pose proof (from_frame_ok _ (clock (env (input r)) 0) _ _ Hf Hok) as Hcok. cbn.
  assert (wp ((if is_write c then aof_record (frame r) else mret tt) ;;
     response ← on_db_pubsub (apply_with_pubsub (env (input r)) c);
     on_db (metric (record_command (duration_us r))) ;;
     mret (Reply response false))
    (fun _ w' => holds (clock (env (input r)) 0) (w_db w') (spec_run (if is_write c then [c] else []) k)
      /\ w_sent w' = w_sent w ++ map record (if is_write c then [frame r] else [])) w) as Hmain.
  { assert (forall w1, w_db w1 = w_db w -> wp (response ← on_db_pubsub (apply_with_pubsub (env (input r)) c);
       on_db (metric (record_command (duration_us r))) ;; mret (Reply response false))
      (fun _ w' => holds (clock (env (input r)) 0) (w_db w') (spec_next 0 c k) /\ w_sent w' = w_sent w1) w1) as Hw.
    { intros w1 Hw1. apply wp_bind, wp_on_db_pubsub. rewrite Hw1.
      eapply wp_mono; [apply (wp_apply_with_pubsub _ _ (fun _ db => holds (clock (env (input r)) 0) db (spec_next 0 c k)))|].
      - intros _ Hp. by destruct c.
      - intros _. by eapply holds_apply.
      - cbn. intros f [db p] Hdb. apply wp_bind, wp_on_db. eapply wp_mono; [by apply holds_metric|].
        cbn. intros _ db' Hdb'. by apply wp_ret. }
    apply wp_bind. destruct (is_write c) eqn:Hwr.
    - apply wp_modify. eapply wp_mono; [by apply Hw|]. cbn. intros _ w' [Hdb Hs]. done.
    - apply wp_ret. eapply wp_mono; [by apply Hw|]. cbn. intros _ w' [Hdb Hs]. rewrite app_nil_r.
      by rewrite <- (spec_next_read c k). }
  destruct c as [c|c|c|c|c|c|c|c|c|c|c|c|c| | |]; try exact Hmain; try (destruct (is_write _); exact Hmain).
  destruct c; [exact Hmain|]. apply wp_ret. by rewrite app_nil_r.
Qed.

(** The last of some times. *)
Fixpoint last_time (t : Z) (es : list Env) : Z :=
  match es with [] => t | e :: es' => last_time (clock e 0) es' end.

Lemma serve_all_spec rs : forall t w k,
  holds t (w_db w) k -> times t (map (fun r => env (input r)) rs) -> Forall request_ok rs ->
  wp (serve_all rs) (fun _ w' =>
    holds (last_time t (map (fun r => env (input r)) rs)) (w_db w') (spec_run (writes rs) k)
    /\ w_sent w' = w_sent w ++ map record (logged rs)) w.
Proof.
  induction rs as [|r rs IH]; intros t w k Hk Ht Hok.
  { apply wp_ret. by rewrite app_nil_r. }
  cbn in Ht. destruct Ht as [Ht Hts]. apply Forall_cons in Hok as [Hr Hrs]. cbn [serve_all].
  apply wp_bind. eapply wp_mono; [by eapply handle_spec|]. cbn beta. intros h w1 [Hk1 Hs1].
  apply wp_bind. eapply wp_mono; [by eapply IH|]. cbn beta. intros hs w2 [Hk2 Hs2]. apply wp_ret.
  rewrite logged_cons, writes_cons, map_app, app_assoc, <- Hs1. unfold spec_run. rewrite fold_left_app. by split.
Qed.

(** ** The replay *)

Lemma exec_frames_spec inp rs : forall i t n db k,
  holds t db k -> t <= clock (env (inp i)) 0 ->
  (forall i, clock (env (inp i)) 0 <= clock (env (inp (S i))) 0) -> Forall request_ok rs ->
  wp (exec_frames inp i (logged rs) n)
    (fun r db' => (exists t', t <= t' /\ holds t' db' (spec_run (writes rs) k)) /\ r = n + len (logged rs)) db.
Proof.
  induction rs as [|r rs IH]; intros i t n db k Hk Ht Hinp Hok.
  { apply wp_ret. split; [exists t; split; [lia|done]|]. unfold len. cbn. lia. }
  apply Forall_cons in Hok as [[_ Hr] Hrs]. rewrite logged_cons, writes_cons.
  unfold logged at 1 3, writes at 1, command_of. cbn [omap list_omap].
  destruct (from_frame (parse_now (input r)) (frame r)) as [c|e] eqn:Hf; cbn; [|by eapply IH].
  destruct (is_write c) eqn:Hwr; cbn; [|by eapply IH].
  rewrite (from_frame_time _ (parse_now (inp i)) _ _ Hf Hr).
  apply wp_bind. eapply wp_mono.
  { eapply (holds_apply _ _ _ _ _ Hk Ht Hr). by eapply from_frame_ok. }
  cbn beta. intros _ db1 Hk1. eapply wp_mono; [by apply (IH (S i) (clock (env (inp i)) 0) (n + 1))|]. cbn beta.
  intros m db2 [(t' & Ht' & Hk2) ->]. split; [exists t'; split; [lia|done]|]. rewrite len_cons. lia.
Qed.

Lemma recorded_logged rs : recorded (map record (logged rs)) = concat (map encode (logged rs)).
Proof. unfold recorded. by rewrite map_map. Qed.

Lemma logged_ok rs : Forall request_ok rs -> Forall (fun f => frame_ok f = true) (logged rs).
Proof.
  intros Hok. apply list.Forall_forall. intros f Hf. apply list_elem_of_omap in Hf as (r & Hr & Hf).
  rewrite Forall_forall in Hok. destruct (Hok r Hr) as [Hfr _]. destruct (command_of r) as [c|]; [|done].
  cbn in Hf. destruct (is_write c); [|done]. by injection Hf as <-.
Qed.

(** The requests whose records are the first [j]. *)
Lemma logged_take rs : forall j, (j <= length (logged rs))%nat ->
  exists m, (m <= length rs)%nat /\ logged (take m rs) = take j (logged rs)
  /\ (j = length (logged rs) -> m = length rs).
Proof.
  induction rs as [|r rs IH]; intros j Hj; [exists 0%nat; cbn; by rewrite take_nil|].
  rewrite logged_cons in *. rewrite length_app in Hj. set (own := logged [r]) in *.
  assert (length own <= 1)%nat as Hown.
  { unfold own, logged. cbn. destruct (r' ← _; _) as [f|]; cbn; lia. }
  destruct (decide (length own <= j)%nat) as [Hle|Hlt].
  - destruct (IH (j - length own)%nat) as (m & Hm & Hl & Hend); [lia|]. exists (S m). split; [cbn; lia|].
    cbn [take]. rewrite logged_cons, Hl, take_app, (take_ge own) by lia. split; [done|]. rewrite length_app. cbn [length]. lia.
  - exists 0%nat. assert (j = 0%nat) as -> by lia. split; [lia|]. split; [done|]. rewrite length_app. lia.
Qed.

Lemma times_take t es m : times t es -> times t (take m es).
Proof. revert t m. induction es as [|e es IH]; intros t [|m]; cbn; try done. intros [? ?]. split; [done|by apply IH]. Qed.

Lemma replay_spec rs inp w db0 t t0 tail :
  holds t (w_db w) ∅ -> w_sent w = [] -> times t (map (fun r => env (input r)) rs) -> Forall request_ok rs ->
  holds t0 db0 ∅ -> t0 <= clock (env (inp 0%nat)) 0 ->
  (forall i, clock (env (inp i)) 0 <= clock (env (inp (S i))) 0) -> torn tail ->
  wp (serve_all rs) (fun _ w1 => w_sent w1 = map record (logged rs)
    /\ wp (load inp (recorded (w_sent w1) ++ tail)) (fun r db2 =>
      r = Some (Ok (len (logged rs)))
      /\ exists now k, holds now (w_db w1) k /\ holds now db2 k) db0) w.
Proof.
  intros Hk Hs Ht Hok Hk0 Ht0 Hinp Htail. eapply wp_mono; [by eapply serve_all_spec|]. cbn beta.
  intros _ w1 [Hk1 ->]. rewrite Hs, app_nil_l, recorded_logged. split; [done|].
  unfold wp at 1. rewrite load_spec by (done || by apply logged_ok).
  apply (wp_bind (exec_frames inp 0 (logged rs) 0)). eapply wp_mono; [by apply (exec_frames_spec inp rs 0 t0)|].
  cbn beta. intros n db2 [(t' & _ & Hk2) ->]. apply wp_ret. split; [done|].
  exists (Z.max t' (last_time t (map (fun r => env (input r)) rs))), (spec_run (writes rs) ∅).
  split; eapply holds_later; try eassumption; lia.
Qed.

(** C3: recovery. Requests of any number of connections, handled one at a time on a new store
    without a memory limit, none of them with a deadline; then the server stops, and the log
    on disk is what was recorded, cut off anywhere. It is the records of the writes among the
    first [m] requests, with a torn record after them: all requests if nothing was cut off.
    A new server that replays it runs to the end of it, executes exactly those writes, and
    holds from then on the keyspace the old one held after the first [m] requests. *)
Theorem aof_recovers (rs : list Request) (inp : nat -> Input) (w : World) (db0 : Db) (t t0 : Z) :
  holds t (w_db w) ∅ -> w_sent w = [] -> times t (map (fun r => env (input r)) rs) -> Forall request_ok rs ->
  holds t0 db0 ∅ -> t0 <= clock (env (inp 0%nat)) 0 ->
  (forall i, clock (env (inp i)) 0 <= clock (env (inp (S i))) 0) ->
  wp (serve_all rs) (fun _ w1 => forall contents, contents `prefix_of` recorded (w_sent w1) ->
    exists m, (m <= length rs)%nat /\ (contents = recorded (w_sent w1) -> m = length rs)
    /\ wp (serve_all (take m rs)) (fun _ wm =>
         (exists tail, contents = recorded (w_sent wm) ++ tail /\ torn tail)
         /\ wp (load inp contents) (fun r db2 =>
              r = Some (Ok (len (logged (take m rs))))
              /\ exists now k, holds now (w_db wm) k /\ holds now db2 k) db0) w) w.
Proof.
  intros Hk Hs Ht Hok Hk0 Ht0 Hinp. eapply wp_mono; [by eapply replay_spec, torn_nil|]. cbn beta.
  intros _ w1 [-> _] contents Hpre. rewrite recorded_logged in *.
  destruct (cut_log _ (logged_ok _ Hok) (if bool_decide (contents = concat (map encode (logged rs))) then length (logged rs) else 0)
    _ Hpre) as (n & tail & -> & Htail & Hn).
  { case_bool_decide as Hc; [|apply prefix_nil]. rewrite Hc. by rewrite take_ge. }
  destruct (logged_take rs (n `min` length (logged rs))) as (m & Hm & Hl & Hend); [lia|].
  exists m. split; [done|]. split; [intros Hc; apply Hend; rewrite bool_decide_eq_true_2 in Hn by done; lia|].
  assert (take n (logged rs) = logged (take m rs)) as ->.
  { rewrite Hl. destruct (decide (n <= length (logged rs))%nat); [by rewrite Nat.min_l|].
    rewrite Nat.min_r by lia. by rewrite !take_ge by lia. }
  eapply wp_mono; [eapply (replay_spec (take m rs)); try done|].
  - rewrite <- firstn_map. by apply times_take.
  - by apply Forall_take.
  - cbn beta. intros _ wm [Hw Hload]. rewrite Hw, recorded_logged in *. split; [by exists tail|exact Hload].
Qed.
End runs.

(** Concrete runs. *)
#[local] Existing Instance Demo.hash.
#[local] Existing Instance DemoText.case.
#[local] Existing Instance DemoText.debug.
#[local] Existing Instance PubSub.counting.

Definition demo_requests : list Request :=
  [mkRequest (demo_input 1) 10 (DemoText.cmd ["SET"; "k"; "v"]%string);
   mkRequest (demo_input 2) 10 (DemoText.cmd ["RPUSH"; "l"; "a"; "b"]%string);
   mkRequest (demo_input 3) 10 (DemoText.cmd ["GET"; "k"]%string);
   mkRequest (demo_input 4) 10 (DemoText.cmd ["NOPE"]%string);
   mkRequest (demo_input 5) 10 (DemoText.cmd ["LPOP"; "l"]%string)].

Definition demo_store : Db := with_options_and_metrics 4 0 0 (Metrics_new 0 None).

Lemma demo_requests_ok : Forall request_ok demo_requests.
Proof. repeat (constructor; [split; [reflexivity|cbn; exact I || reflexivity]|]). constructor. Qed.

(** The log is cut inside the record of the RPUSH: what is left is that of the SET. *)
Lemma aof_recovers_witness :
  let contents := encode (DemoText.cmd ["SET"; "k"; "v"]%string) ++ bs "*4" ++ CRLF ++ bs "$5" in
  wp (serve_all demo_requests) (fun _ w1 => contents `prefix_of` recorded (w_sent w1)
    /\ exists m, wp (serve_all (take m demo_requests)) (fun _ wm =>
         wp (load (fun i => demo_input (9 + i)) contents) (fun r db2 => r = Some (Ok 1)
           /\ exists now k, holds now (w_db wm) k /\ holds now db2 k) demo_store) (mkWorld demo_store PubSub_new []))
    (mkWorld demo_store PubSub_new []).
Proof.
  intros contents.
  pose proof (aof_recovers demo_requests (fun i => demo_input (9 + i)) (mkWorld demo_store PubSub_new []) demo_store 0 0) as Hr.
  specialize (Hr ltac:(apply holds_new; lia) eq_refl ltac:(repeat (split; [discriminate|]); exact I) demo_requests_ok
    ltac:(apply holds_new; lia) ltac:(discriminate) ltac:(intros i; cbn [clock env demo_input]; unfold NANOS; lia)).
  assert (exists hs w1, serve_all demo_requests (mkWorld demo_store PubSub_new []) = Done hs w1
    /\ bool_decide (contents `prefix_of` recorded (w_sent w1)) = true) as (hs & w1 & E & Hpre).
  { vm_compute. eexists _, _. split; reflexivity. }
  assert (exists db2, load (fun i => demo_input (9 + i)) contents demo_store = Done (Some (Ok 1)) db2) as [db2 El]
    by (vm_compute; eexists; reflexivity).
  unfold wp at 1 in Hr. unfold wp at 1. rewrite E in Hr |- *. apply bool_decide_eq_true_1 in Hpre. split; [exact Hpre|].
  destruct (Hr contents Hpre) as (m & _ & _ & Hm). exists m. refine (wp_mono _ _ _ _ Hm _). cbn beta.
  intros _ wm [_ Hload]. unfold wp in Hload |- *. rewrite El in Hload |- *. split; [reflexivity|exact (proj2 Hload)].
Defined.
