(* ===== verification/Config.v ===== *)
(** * Configuration: [Db::new], [Db::with_metrics] and [parse_memory_limit] of [src/src/db.rs] *)
From S2P Require Import Prelude.
From S2P Require Import RustStd.
From S2P Require Import Metrics.
From S2P Require Import Store.

(** [str::trim]: white space off both ends. *)
Fixpoint trim_start_skip (skip : nat) (s : bytes) : bytes :=
  match s with
  | [] => []
  | c :: s' =>
    match skip with
    | S k => trim_start_skip k s'
    | O => match ws_len s with O => s | S k => trim_start_skip k s' end
    end
  end.

Definition trim_start (s : bytes) : bytes := trim_start_skip 0 s.

(** A suffix of white space only is dropped. *)
Fixpoint trim_end (s : bytes) : bytes :=
  match s with
  | [] => []
  | c :: s' => match trim_start s with [] => [] | _ => c :: trim_end s' end
  end.

Definition trim (s : bytes) : bytes := trim_end (trim_start s).

(** [str::strip_suffix] *)
Definition strip_suffix (suffix s : bytes) : option bytes :=
  let n := (length s - length suffix)%nat in
  if bool_decide (drop n s = suffix) then Some (take n s) else None.

Section config.
Context `{UnicodeCase}.

(** [parse_memory_limit]; the multiplications wrap in the release profile. *)
Definition parse_memory_limit (s : bytes) : option Z :=
  let s := to_lowercase (trim s) in
  match strip_suffix (bs "gb") s with
  | Some num_str => n ← parse_usize (trim num_str); Some (wrap_u64 (n * 1024 * 1024 * 1024))
  | None =>
    match strip_suffix (bs "mb") s with
    | Some num_str => n ← parse_usize (trim num_str); Some (wrap_u64 (n * 1024 * 1024))
    | None =>
      match strip_suffix (bs "kb") s with
      | Some num_str => n ← parse_usize (trim num_str); Some (wrap_u64 (n * 1024))
      | None => parse_usize s
      end
    end
  end.

(** The limit from the [MAXMEMORY] variable; [None] when it is not set. *)
Definition env_maxmemory (var : option bytes) : Z := default 0 (v ← var; parse_memory_limit v).

(** [Db::with_metrics], and [Db::new] with new metrics. *)
Definition Db_with_metrics (var : option bytes) (now : Z) (m : Metrics) : Db :=
  with_options_and_metrics DEFAULT_NUM_SHARDS (env_maxmemory var) now m.
Definition Db_new (var : option bytes) (now : Z) (jiffies : option Z) : Db :=
  with_options_and_metrics DEFAULT_NUM_SHARDS (env_maxmemory var) now (Metrics_new now jiffies).
(** [Db::with_options] *)
Definition with_options (num_shards : nat) (maxmemory now : Z) (jiffies : option Z) : Db :=
  with_options_and_metrics num_shards maxmemory now (Metrics_new now jiffies).

(** ** Decimal sizes *)

Lemma digit_not_ws c s : is_digit c = true -> ws_len (c :: s) = 0%nat.
Proof.
  intros Hd. apply andb_true_iff in Hd as [H1%Z.leb_le H2%Z.leb_le].
  assert (forall z, z < 48 \/ 57 < z -> (u8 c =? z) = false) as Hne by (intros z Hz; apply Z.eqb_neq; lia).
  assert (in_range 9 13 c = false) as Hr by (apply andb_false_iff; right; apply Z.leb_gt; lia).
  unfold ws_len. rewrite Hr, !Hne by lia. cbn. by destruct s as [|b [|b' s]].
Qed.

(** The characters of a size such as [64mb]. *)
Definition size_char (c : ascii) : Prop := is_digit c = true \/ c ∈ bs "kmgb".

Lemma size_char_not_ws c s : size_char c -> ws_len (c :: s) = 0%nat.
Proof.
  intros [Hd|Hc]; [by apply digit_not_ws|].
  repeat (apply elem_of_cons in Hc as [->|Hc]; [by destruct s as [|b [|b' s]]|]). by apply elem_of_nil in Hc.
Qed.

Lemma trim_start_id s : Forall size_char s -> trim_start s = s.
Proof.
  destruct 1 as [|c s Hc _]; [done|]. unfold trim_start. cbn [trim_start_skip]. by rewrite size_char_not_ws.
Qed.

Lemma trim_id s : Forall size_char s -> trim s = s.
Proof.
  intros Hs. unfold trim. rewrite trim_start_id by done. induction Hs as [|c s Hc Hs IH]; [done|].
  cbn [trim_end]. rewrite trim_start_id by by constructor. by rewrite IH.
Qed.

Lemma size_char_lower c : size_char c -> is_ascii c = true /\ ascii_lower c = c.
Proof.
  intros [Hd|Hc].
  - split; [by apply is_digit_ascii|]. unfold ascii_lower. unfold is_digit, in_range in *.
    apply andb_true_iff in Hd as [_ H2%Z.leb_le]. rewrite (proj2 (Z.leb_gt 65 (u8 c))) by lia. done.
  - repeat (apply elem_of_cons in Hc as [->|Hc]; [done|]). by apply elem_of_nil in Hc.
Qed.

Lemma to_lowercase_id s : Forall size_char s -> to_lowercase s = s.
Proof.
  intros Hs. unfold to_lowercase.
  replace (forallb is_ascii s) with true; [|symmetry; apply forallb_forall; intros c Hc%list_elem_of_In;
    rewrite Forall_forall in Hs; by apply size_char_lower, Hs].
  induction Hs as [|c s Hc _ IH]; [done|]. cbn. rewrite IH. by rewrite (proj2 (size_char_lower c Hc)).
Qed.

Lemma strip_suffix_app s suffix : strip_suffix suffix (s ++ suffix) = Some s.
Proof.
  unfold strip_suffix. rewrite length_app. replace (length s + length suffix - length suffix)%nat with (length s) by lia.
  rewrite drop_app_length, take_app_length. by rewrite bool_decide_eq_true_2.
Qed.

Lemma strip_suffix_other s a b c d : a <> c -> strip_suffix [c; d] (s ++ [a; b]) = None.
Proof.
  intros Hac. unfold strip_suffix. rewrite length_app. cbn [length].
  replace (length s + 2 - 2)%nat with (length s) by lia. rewrite drop_app_length.
  rewrite bool_decide_eq_false_2; [done|]. congruence.
Qed.

(** The sizes: [gb], [mb], [kb] and plain bytes. *)
Definition unit_bytes (u : bytes) : Z :=
  if bool_decide (u = bs "gb") then 1073741824 else if bool_decide (u = bs "mb") then 1048576 else 1024.

Lemma unit_cases u : u ∈ [bs "kb"; bs "mb"; bs "gb"] -> u = bs "kb" \/ u = bs "mb" \/ u = bs "gb".
Proof.
  rewrite !elem_of_cons. intros [?|[?|[?|Hu]]]; auto. by apply elem_of_nil in Hu.
Qed.

Lemma size_char_letter c : bool_decide (c ∈ bs "kmgb") = true -> size_char c.
Proof. intros Hc. right. by apply bool_decide_eq_true in Hc. Qed.

Lemma show_uint_size n : Forall size_char (show_uint n).
Proof.
  eapply Forall_impl; [apply show_uint_digits|]. intros c Hc. left. by apply Is_true_eq_true.
Qed.

(** MAXMEMORY. A decimal number with the suffix kb, mb or gb is read as that number of
    bytes modulo [2^64] (so exactly, when the product fits 64 bits). *)
Lemma parse_memory_limit_units (n : Z) (u : bytes) :
  0 <= n <= u64_max -> u ∈ [bs "kb"; bs "mb"; bs "gb"] ->
  parse_memory_limit (show_uint n ++ u) = Some (wrap_u64 (n * unit_bytes u)).
Proof.
  intros Hn Hu. pose proof (show_uint_size n) as Hd.
  assert (parse_usize (trim (show_uint n)) = Some n) as Hp.
  { rewrite trim_id by done. apply parse_int_show_uint; lia. }
  assert (forall x y, bool_decide (x ∈ bs "kmgb") = true -> bool_decide (y ∈ bs "kmgb") = true ->
    to_lowercase (trim (show_uint n ++ [x; y])) = show_uint n ++ [x; y]) as Hclean.
  { intros x y Hx Hy. assert (Forall size_char (show_uint n ++ [x; y])) as Hs.
    { apply Forall_app. split; [done|]. apply Forall_cons; split; [by apply size_char_letter|]. apply Forall_singleton. by apply size_char_letter. }
    by rewrite trim_id, to_lowercase_id. }
  unfold parse_memory_limit. apply unit_cases in Hu as [->|[->| ->]]; cbn [bs String.list_ascii_of_string];
    rewrite Hclean by done; rewrite ?strip_suffix_app, ?strip_suffix_other, ?strip_suffix_app by done;
    rewrite Hp; cbn [mbind option_bind]; do 2 f_equal;
    match goal with |- context [unit_bytes ?u] => let v := eval vm_compute in (unit_bytes u) in change (unit_bytes u) with v end;
    lia.
Qed.
End config.

Lemma parse_memory_limit_units_witness :
  @parse_memory_limit {| unicode_upper := id; unicode_lower := id |} (bs "64mb") = Some 67108864.
Proof.
  apply (@parse_memory_limit_units {| unicode_upper := id; unicode_lower := id |} 64 (bs "mb")); [done|].
  right. left.
Defined.

(** A limit that does not fit 64 bits wraps: this many gigabytes are no limit at all. *)
Lemma memory_limit_wraps `{UnicodeCase} : env_maxmemory (Some (bs "17179869184gb")) = 0.
Proof. reflexivity. Qed.
