(* ===== verification/Interleave.v ===== *)
(** * Interleaved connections

    Recording a command ([aof.record(&frame).await]) and executing it are two steps of a
    connection's task, and other tasks run in between: a step relation over the shared
    store and log, its write-ahead invariant, and what the invariant does not give. *)
From S2P Require Import Prelude.
From S2P Require Import RustStd.
From S2P Require Import Frame.
From S2P Require Import Metrics.
From S2P Require Import Store.
From S2P Require Import Keyspace.
From S2P Require Import PubSub.
From S2P Require Import Cmd.
From S2P Require Import Command.
From S2P Require Import Aof.
From S2P Require Import Server.

Section interleave.
Context {Hh : Hasher} `{UnicodeCase} `{FrameDebug}.

(** Where the task of a connection is with its write command. *)
Inductive Phase := Parsed | Logged | Applied.

#[export] Instance Phase_eq_dec : EqDecision Phase.
Proof. solve_decision. Defined.

Record Task := mkTask { request : Request; command : Command; phase : Phase }.

Definition advance_to (p : Phase) (t : Task) : Task := mkTask (request t) (command t) p.

(** The store, the frames in the log, the commands executed so far, and the tasks. *)
Record Shared := mkShared { store : Db; log : list Frame; executed : list Command; tasks : list Task }.

Inductive task_step : Shared -> Shared -> Prop :=
  | task_records i t s :
      tasks s !! i = Some t -> phase t = Parsed ->
      task_step s (mkShared (store s) (log s ++ [frame (request t)]) (executed s)
                            (<[i := advance_to Logged t]> (tasks s)))
  | task_applies i t s f db :
      tasks s !! i = Some t -> phase t = Logged ->
      apply (env (input (request t))) (command t) (store s) = Done f db ->
      task_step s (mkShared db (log s) (executed s ++ [command t])
                            (<[i := advance_to Applied t]> (tasks s))).

Inductive reachable (s0 : Shared) : Shared -> Prop :=
  | reach_refl : reachable s0 s0
  | reach_trans s s' : reachable s0 s -> task_step s s' -> reachable s0 s'.

(** Tasks that have just parsed their write commands. *)
Definition initial (db : Db) (rs : list (Request * Command)) : Shared :=
  mkShared db [] [] (map (fun rc => mkTask rc.1 rc.2 Parsed) rs).

(** The frames of the tasks that are past their recording, and the commands of those that are
    past their execution. *)
Definition past_log (ts : list Task) : list Frame :=
  omap (fun t => if bool_decide (phase t = Parsed) then None else Some (frame (request t))) ts.
Definition past_apply (ts : list Task) : list Command :=
  omap (fun t => if bool_decide (phase t = Applied) then Some (command t) else None) ts.

Definition order_inv (s : Shared) : Prop :=
  log s ≡ₚ past_log (tasks s) /\ executed s ≡ₚ past_apply (tasks s).

Lemma omap_update {A B} (f : A -> option B) (l : list A) i x y :
  l !! i = Some x -> f x = None -> omap f (<[i := y]> l) ≡ₚ omap f l ++ match f y with Some b => [b] | None => [] end.
Proof.
  intros Hi Hx. rewrite insert_take_drop by by eapply lookup_lt_Some.
  rewrite <- (take_drop_middle l i x Hi) at 3. rewrite !omap_app. cbn. rewrite Hx.
  destruct (f y) as [b|]; [|by rewrite app_nil_r]. rewrite <- app_assoc. f_equiv.
  apply (Permutation_app_comm [b]).
Qed.

Lemma omap_update_same {A B} (f : A -> option B) (l : list A) i x y :
  l !! i = Some x -> f x = f y -> omap f (<[i := y]> l) = omap f l.
Proof.
  intros Hi Hxy. rewrite insert_take_drop by by eapply lookup_lt_Some.
  rewrite <- (take_drop_middle l i x Hi) at 3. rewrite !omap_app. cbn. by rewrite Hxy.
Qed.

Lemma order_inv_step s s' : order_inv s -> task_step s s' -> order_inv s'.
Proof.
  intros [Hl He] Hstep. destruct Hstep as [i t s Hi Hp|i t s f db Hi Hp _]; split; cbn.
  - unfold past_log. rewrite (omap_update _ _ _ _ _ Hi); cbn; [|by rewrite Hp]. by rewrite Hl.
  - unfold past_apply. rewrite (omap_update_same _ _ _ _ _ Hi); [done|]. cbn. by rewrite Hp.
  - unfold past_log. rewrite (omap_update_same _ _ _ _ _ Hi); [done|]. cbn. by rewrite Hp.
  - unfold past_apply. rewrite (omap_update _ _ _ _ _ Hi); cbn; [|by rewrite Hp]. by rewrite He.
Qed.

Lemma order_inv_reach db rs s : reachable (initial db rs) s -> order_inv s.
Proof.
  induction 1 as [|s s' _ IH Hstep]; [|by eapply order_inv_step].
  split; cbn; [unfold past_log|unfold past_apply]; induction rs; done.
Qed.

(** The tasks keep their requests and commands. *)
Lemma tasks_keep (P : Request -> Command -> Prop) db rs s : Forall (fun rc => P rc.1 rc.2) rs -> reachable (initial db rs) s ->
  Forall (fun t => P (request t) (command t)) (tasks s).
Proof.
  intros Hrs Hr. induction Hr as [|s s' _ IH Hs]; [by apply Forall_fmap|].
  destruct Hs as [i t s Hi _|i t s f db' Hi _ _]; cbn; (apply Forall_insert; [done|]);
    exact (proj1 (Forall_lookup _ _) IH _ _ Hi).
Qed.

(** What was executed had been logged. *)
Lemma applied_logged db rs s t : reachable (initial db rs) s -> t ∈ tasks s -> phase t = Applied ->
  frame (request t) ∈ log s.
Proof.
  intros Hr Ht Hp. rewrite (proj1 (order_inv_reach _ _ _ Hr)). apply list_elem_of_omap. exists t. split; [done|].
  by rewrite Hp.
Qed.

(** Write-ahead. However the tasks of the connections interleave, the log holds exactly
    the frames of the commands past their recording, each once, and only those were
    executed: no command takes effect before its frame was sent to the log. *)
Lemma write_ahead db rs s :
  reachable (initial db rs) s ->
  log s ≡ₚ past_log (tasks s)
  /\ executed s ≡ₚ past_apply (tasks s)
  /\ forall t, t ∈ tasks s -> phase t = Applied -> frame (request t) ∈ log s.
Proof.
  intros Hr. destruct (order_inv_reach _ _ _ Hr) as [Hl He]. split_and!; [done..|].
  intros t. by apply (applied_logged db rs).
Qed.
End interleave.

(** Concrete runs. *)
#[local] Existing Instance Demo.hash.
#[local] Existing Instance DemoText.case.
#[local] Existing Instance DemoText.debug.

Definition race_store : Db := with_options_and_metrics 4 0 0 (Metrics_new 0 None).

Definition race_set (i : nat) (v : String.string) : Request * Command :=
  (mkRequest (demo_input i) 10 (DemoText.cmd ["SET"%string; "k"%string; v]),
   Set_ (CmdSet.mkSet (bs "k") (bs v) None)).

Definition race_tasks : list (Request * Command) := [race_set 1 "one"; race_set 2 "two"].

Definition run_set (rc : Request * Command) (db : Db) : Db :=
  match apply (env (input rc.1)) rc.2 db with Done _ db' => db' | Panic db' => db' end.

(** Both connections record, then the second executes before the first. *)
Definition race_end : Shared :=
  mkShared (run_set (race_set 1 "one") (run_set (race_set 2 "two") race_store))
    (map (fun rc => frame rc.1) race_tasks) [(race_set 2 "two").2; (race_set 1 "one").2]
    (map (fun rc => mkTask rc.1 rc.2 Applied) race_tasks).

Lemma race_reachable : reachable (initial race_store race_tasks) race_end.
Proof.
  pose (t1 := mkTask (race_set 1 "one").1 (race_set 1 "one").2).
  pose (t2 := mkTask (race_set 2 "two").1 (race_set 2 "two").2).
  pose (f1 := frame (race_set 1 "one").1). pose (f2 := frame (race_set 2 "two").1).
  pose (c2 := (race_set 2 "two").2).
  eapply (reach_trans _ (mkShared (run_set (race_set 2 "two") race_store) [f1; f2] [c2] [t1 Logged; t2 Applied])).
  - eapply (reach_trans _ (mkShared race_store [f1; f2] [] [t1 Logged; t2 Logged])).
    + eapply (reach_trans _ (mkShared race_store [f1] [] [t1 Logged; t2 Parsed])).
      * eapply (reach_trans _ (initial race_store race_tasks)); [apply reach_refl|].
        exact (task_records 0 (t1 Parsed) (initial race_store race_tasks) eq_refl eq_refl).
      * exact (task_records 1 (t2 Parsed) (mkShared race_store [f1] [] [t1 Logged; t2 Parsed]) eq_refl eq_refl).
    + exact (task_applies 1 (t2 Logged) (mkShared race_store [f1; f2] [] [t1 Logged; t2 Logged]) (Simple (bs "OK"))
        (run_set (race_set 2 "two") race_store) eq_refl eq_refl eq_refl).
  - exact (task_applies 0 (t1 Logged) (mkShared (run_set (race_set 2 "two") race_store) [f1; f2] [c2] [t1 Logged; t2 Applied])
      (Simple (bs "OK")) (run_set (race_set 1 "one") (run_set (race_set 2 "two") race_store)) eq_refl eq_refl eq_refl).
Qed.

Lemma write_ahead_witness :
  reachable (initial race_store race_tasks) race_end
  /\ forall t, t ∈ tasks race_end -> phase t = Applied -> frame (request t) ∈ log race_end.
Proof. split; [exact race_reachable|]. apply (write_ahead race_store race_tasks), race_reachable. Defined.

(** What a client reads at a key. *)
Definition value_at (k : bytes) (db : Db) : option DataType := data <$> (view db !! k).

(** The order of the log is not the order of execution. Two connections that set the same
    key can leave the store with the first one's value and a log whose replay ends with the
    second one's: after a restart the key has a value it did not have before. *)
Lemma log_order_race :
  exists s, reachable (initial race_store race_tasks) s
    /\ Forall (fun t => phase t = Applied) (tasks s)
    /\ value_at (bs "k") (store s) = Some (DString (bs "one"))
    /\ match load demo_input (concat (map encode (log s))) race_store with
       | Done r db2 => r = Some (Ok 2) /\ value_at (bs "k") db2 = Some (DString (bs "two"))
       | Panic _ => False
       end.
Proof.
  exists race_end. split; [exact race_reachable|]. split; [repeat constructor|]. split; [reflexivity|].
  vm_compute. split; reflexivity.
Qed.
