(* ===== verification/Reorder.v ===== *)
(** * Recovery of interleaved connections

    The log of [Interleave] need not be in the order of execution. What a replay must get
    right is the order of the commands on each key: a command acts on every key by itself,
    so two runs that agree key by key end in the same keyspace. *)
From stdpp Require Import relations.
From S2P Require Import Prelude.
From S2P Require Import RustStd.
From S2P Require Import Frame.
From S2P Require Import Metrics.
From S2P Require Import Store.
From S2P Require Import Keyspace.
From S2P Require Import PubSub.
From S2P Require Import Cmd.
From S2P Require Import Command.
From S2P Require Import Aof.
From S2P Require Import Server.
From S2P Require Import Recovery.
From S2P Require Import Interleave.

(** ** A command on one key *)

(** The keys a command writes. *)
Definition written (c : Command) : list bytes :=
  match c with
  | Set_ s => [CmdSet.key s]
  | Del d => CmdDel.keys d
  | Expire x => [CmdExpire.key x]
  | List (CmdList.Lpush key _) | List (CmdList.Rpush key _) | List (CmdList.Lpop key) | List (CmdList.Rpop key)
  | Hash (CmdHash.Hset key _) | Hash (CmdHash.Hdel key _)
  | SetCmd (CmdSets.Sadd key _) | SetCmd (CmdSets.Srem key _) => [key]
  | _ => []
  end.

(** An update that acts on [key] alone, by the value there. *)
Definition update_at (key : bytes) (f : keyspace -> keyspace) : Prop :=
  (forall s k, k <> key -> f s !! k = s !! k) /\ (forall s s', s !! key = s' !! key -> f s !! key = f s' !! key).

(** The reference updates are cases on the value at the key. *)
Ltac by_cases :=
  repeat (case_match || case_decide); simplify_eq; cbn;
  rewrite ?lookup_insert_eq, ?lookup_delete_eq, ?lookup_insert_ne, ?lookup_delete_ne by done; congruence.
Ltac update_cases :=
  split; [intros s k Hk; by_cases|let Hs := fresh in intros s s' Hs; rewrite <- ?Hs; by_cases].

Lemma update_set now key v x : update_at key (spec_set now key v x).
Proof. unfold spec_set. update_cases. Qed.
Lemma update_expire now key d : update_at key (fun s => (spec_expire now key d s).2).
Proof. unfold spec_expire. update_cases. Qed.
Lemma update_push place key els : update_at key (fun s => (spec_push place key els s).2).
Proof. unfold spec_push. update_cases. Qed.
Lemma update_pop split key : update_at key (fun s => (spec_pop split key s).2).
Proof. unfold spec_pop. update_cases. Qed.
Lemma update_hset key fields : update_at key (fun s => (spec_hset key fields s).2).
Proof. unfold spec_hset. update_cases. Qed.
Lemma update_hdel key fields : update_at key (fun s => (spec_hdel key fields s).2).
Proof. unfold spec_hdel. update_cases. Qed.
Lemma update_sadd key ms : update_at key (fun s => (spec_sadd key ms s).2).
Proof. unfold spec_sadd. update_cases. Qed.
Lemma update_srem key ms : update_at key (fun s => (spec_srem key ms s).2).
Proof. unfold spec_srem. update_cases. Qed.

Lemma update_at_lookup key f k s s' : update_at key f -> (k ∉ [key] -> f s !! k = s !! k)
  /\ (s !! k = s' !! k -> f s !! k = f s' !! k).
Proof.
  intros [Hne Heq]. destruct (decide (k = key)) as [->|Hk].
  - split; [intros Hk; destruct Hk; by left|apply Heq].
  - rewrite !Hne by done. by split.
Qed.

(** A command leaves the keys it does not name as they are, and what it makes of a key
    depends on the value at that key alone. *)
Lemma spec_next_local now c k s s' : (k ∉ written c -> spec_next now c s !! k = s !! k)
  /\ (s !! k = s' !! k -> spec_next now c s !! k = spec_next now c s' !! k).
Proof.
  destruct c as [c|c|c|c|c|c|c|[key els|key els|key|key|key i j]|[key fs|key f|key fs|key]|[key ms|key|key ms|key m]|c|c|c| | |];
    cbn [spec_next written]; try (by split).
  - exact (update_at_lookup _ _ k s s' (update_set _ _ _ _)).
  - unfold spec_del. split; [intros Hk|intros Hs]; rewrite !map_lookup_filter.
    + destruct (s !! k); [|done]. cbn. by rewrite option_guard_True.
    + by rewrite Hs.
  - destruct (instant_add _ _); [exact (update_at_lookup _ _ k s s' (update_expire _ _ _))|by split].
  - exact (update_at_lookup _ _ k s s' (update_push _ _ _)).
  - exact (update_at_lookup _ _ k s s' (update_push _ _ _)).
  - exact (update_at_lookup _ _ k s s' (update_pop _ _)).
  - exact (update_at_lookup _ _ k s s' (update_pop _ _)).
  - exact (update_at_lookup _ _ k s s' (update_hset _ _)).
  - exact (update_at_lookup _ _ k s s' (update_hdel _ _)).
  - exact (update_at_lookup _ _ k s s' (update_sadd _ _)).
  - exact (update_at_lookup _ _ k s s' (update_srem _ _)).
Qed.

(** ** Runs that agree key by key *)

(** The commands of a run that write [key], in order. *)
Definition on_key (key : bytes) (cs : list Command) : list Command := filter (fun c => key ∈ written c) cs.

Lemma spec_run_on_key key cs : forall s s', s !! key = s' !! key ->
  spec_run cs s !! key = spec_run (on_key key cs) s' !! key.
Proof.
  unfold spec_run, on_key. induction cs as [|c cs IH]; intros s s' Hs; [done|]. cbn [fold_left]. rewrite filter_cons.
  destruct (spec_next_local 0 c key s s') as [Hout Hin]. case_decide as Hc; cbn [fold_left]; apply IH.
  - by apply Hin.
  - by rewrite Hout.
Qed.

(** Runs with the same commands in the same order on every key end in the same keyspace. *)
Definition same_per_key (cs cs' : list Command) : Prop := forall key, on_key key cs = on_key key cs'.

#[export] Instance same_per_key_equivalence : Equivalence same_per_key.
Proof. split; [by intros cs key|by intros cs cs' H key|intros cs1 cs2 cs3 H1 H2 key; by rewrite H1]. Qed.

#[export] Instance spec_run_proper : Proper (same_per_key ==> eq ==> eq) spec_run.
Proof.
  intros cs cs' Hcs s _ <-. apply map_eq. intros key. rewrite (spec_run_on_key key cs s s), (spec_run_on_key key cs' s s) by done.
  by rewrite Hcs.
Qed.

(** Commands of disjoint keys may be swapped. *)
Lemma same_per_key_swap c c' cs : written c ## written c' -> same_per_key (c :: c' :: cs) (c' :: c :: cs).
Proof.
  intros Hd key. unfold on_key. rewrite !filter_cons. repeat case_decide; try done. destruct (Hd key); done.
Qed.

(** ** Interleaved writes *)

Section interleaved.
Context {Hh : Hasher} `{UnicodeCase} `{FrameDebug}.

(** A step of the tasks at some time: an execution reads the clock, which does not go back. *)
Definition timed_step (x x' : Shared * Z) : Prop :=
  task_step x.1 x'.1 /\ x.2 <= x'.2
  /\ forall i t, tasks x.1 !! i = Some t -> phase t = Logged -> tasks x'.1 !! i = Some (advance_to Applied t) ->
       x'.2 = clock (env (input (request t))) 0.

(** A task of a write without a deadline, as its frame parses. *)
Definition task_ok (r : Request) (c : Command) : Prop :=
  frame_ok (frame r) = true /\ from_frame (parse_now (input r)) (frame r) = Ok c /\ is_write c = true /\ ttl_free c.

(** The commands of some frames of the log. *)
Definition commands_of (fs : list Frame) : list Command :=
  omap (fun f => match from_frame 0 f with Ok c => Some c | Err _ => None end) fs.

(** At every moment the store holds what the commands executed so far make of it. *)
Lemma timed_run db rs t0 k0 x : holds t0 db k0 -> Forall (fun rc => task_ok rc.1 rc.2) rs ->
  rtc timed_step (initial db rs, t0) x ->
  reachable (initial db rs) x.1 /\ holds x.2 (store x.1) (spec_run (executed x.1) k0).
Proof.
  intros Hk Hrs. revert x. refine (rtc_ind_r _ _ (conj (reach_refl _) Hk) _).
  intros [s t] [s' t'] _ (Hstep & Ht & Hclock) [Hreach Hs].
  cbn [fst snd] in *. split; [by eapply reach_trans|]. pose proof (tasks_keep task_ok _ _ _ Hrs Hreach) as Hok.
  destruct Hstep as [i tk s Hi Hp|i tk s f db' Hi Hp Hap]; cbn [store executed].
  - by eapply holds_later.
  - assert (t' = clock (env (input (request tk))) 0) as ->.
    { apply (Hclock i); [done|done|]. cbn. by rewrite list_lookup_insert_eq by by eapply lookup_lt_Some. }
    destruct (proj1 (Forall_lookup _ _) Hok _ _ Hi) as (_ & Hf & _ & Hfree).
    pose proof (holds_apply _ _ (command tk) _ _ Hs Ht Hfree (from_frame_ok _ _ _ _ Hf Hfree)) as Hw.
    unfold wp in Hw. rewrite Hap in Hw. unfold spec_run in *. by rewrite fold_left_app.
Qed.

(** The frames of the log are those of some requests of the tasks, with their commands. *)
Lemma log_requests db rs s : Forall (fun rc => task_ok rc.1 rc.2) rs -> reachable (initial db rs) s ->
  exists rs', log s = logged rs' /\ commands_of (log s) = writes rs' /\ Forall request_ok rs'.
Proof.
  intros Hrs Hr. pose proof (tasks_keep task_ok _ _ _ Hrs Hr) as Hok. pose proof (proj1 (order_inv_reach _ _ _ Hr)) as Hlog.
  assert (exists rs', log s = map frame rs' /\ Forall (fun r => exists c, task_ok r c) rs') as (rs' & -> & Hrs').
  { unfold past_log in Hlog.
    assert (exists rs1, omap (fun t => if bool_decide (phase t = Parsed) then None else Some (frame (request t))) (tasks s)
      = map frame rs1 /\ Forall (fun r => exists c, task_ok r c) rs1) as (rs1 & E & H1).
    { clear Hlog. induction Hok as [|t ts Ht _ (rs1 & E & H1)]; [by exists []|]. cbn. rewrite E.
      case_bool_decide; [by exists rs1|]. exists (request t :: rs1). split; [done|]. constructor; [by eexists|done]. }
    rewrite E in Hlog. apply Permutation_map_inv in Hlog as (rs' & -> & Hp). exists rs'. split; [done|]. by rewrite <- Hp. }
  exists rs'. clear - Hrs'. unfold logged, writes, commands_of, command_of, request_ok.
  induction Hrs' as [|r rs' (c & Hfr & Hc & Hw & Hfree) _ (E1 & E2 & E3)]; [by split|].
  cbn [map omap list_omap]. rewrite Hc, (from_frame_time _ 0 _ _ Hc Hfree). cbn. rewrite Hw. cbn.
  rewrite <- E1, <- E2. split; [done|]. split; [done|]. constructor; [|done]. split; [done|]. by rewrite Hc.
Qed.

(** The replay of a log that agrees with the execution on every key. *)
Lemma interleaved_load (db db0 : Db) (rs : list (Request * Command)) (inp : nat -> Input) (t t0 : Z)
    (s : Shared) (now : Z) (tail : bytes) :
  holds t db ∅ -> Forall (fun rc => task_ok rc.1 rc.2) rs -> rtc timed_step (initial db rs, t) (s, now) ->
  same_per_key (executed s) (commands_of (log s)) ->
  holds t0 db0 ∅ -> t0 <= clock (env (inp 0%nat)) 0 ->
  (forall i, clock (env (inp i)) 0 <= clock (env (inp (S i))) 0) -> torn tail ->
  wp (load inp (concat (map encode (log s)) ++ tail)) (fun r db2 => r = Some (Ok (len (log s)))
    /\ exists now' k, holds now' (store s) k /\ holds now' db2 k) db0.
Proof.
  intros Hdb Hrs Hrun Hsame Hdb0 Ht0 Hinp Htail. destruct (timed_run _ _ _ _ _ Hdb Hrs Hrun) as [Hreach Hs].
  cbn [fst snd] in *. destruct (log_requests _ _ _ Hrs Hreach) as (rs' & Hlog & Hcs & Hok). rewrite Hlog.
  unfold wp. rewrite load_spec by (done || by apply logged_ok).
  apply (wp_bind (exec_frames inp 0 (logged rs') 0)). eapply wp_mono; [by apply (exec_frames_spec inp rs' 0 t0)|].
  cbn beta. intros n db2 [(t' & _ & Hk2) ->]. apply wp_ret. split; [done|].
  exists (Z.max t' now), (spec_run (executed s) ∅). rewrite Hsame, Hcs in Hs |- *.
  split; eapply holds_later; try eassumption; lia.
Qed.

(** Recovery of interleaved connections. Tasks of writes without deadlines record and
    execute them in any interleaving. If on every key the executed commands are in the order
    of the log, then a new server that replays the log, complete or cut off inside its last
    record, executes all of it and holds the keyspace the server held, whatever the order of
    commands of different keys was. *)
Lemma interleaved_recovers (db db0 : Db) (rs : list (Request * Command)) (inp : nat -> Input) (t t0 : Z)
    (s : Shared) (now : Z) (tail : bytes) :
  holds t db ∅ -> Forall (fun rc => task_ok rc.1 rc.2) rs -> rtc timed_step (initial db rs, t) (s, now) ->
  same_per_key (executed s) (commands_of (log s)) ->
  holds t0 db0 ∅ -> t0 <= clock (env (inp 0%nat)) 0 ->
  (forall i, clock (env (inp i)) 0 <= clock (env (inp (S i))) 0) -> torn tail ->
  wp (load inp (concat (map encode (log s)) ++ tail)) (fun r db2 => r = Some (Ok (len (log s)))
    /\ exists now' k, holds now' (store s) k /\ holds now' db2 k) db0.
Proof. apply interleaved_load. Qed.
End interleaved.

(** Concrete runs: two clients record in one order and execute in the other, on two keys. *)
#[local] Existing Instance Demo.hash.
#[local] Existing Instance DemoText.case.
#[local] Existing Instance DemoText.debug.

Definition demo_set (i : nat) (key : String.string) : Request * Command :=
  (mkRequest (demo_input i) 10 (DemoText.cmd ["SET"%string; key; "v"%string]),
   Set_ (CmdSet.mkSet (bs key) (bs "v") None)).
Definition demo_tasks : list (Request * Command) := [demo_set 2 "a"; demo_set 1 "b"].
Definition demo_task (i : nat) (key : String.string) (p : Phase) : Task :=
  mkTask (demo_set i key).1 (demo_set i key).2 p.

Definition demo_swapped : Shared :=
  mkShared (run_set (demo_set 2 "a") (run_set (demo_set 1 "b") race_store))
    (map (fun rc => frame rc.1) demo_tasks) [(demo_set 1 "b").2; (demo_set 2 "a").2]
    [demo_task 2 "a" Applied; demo_task 1 "b" Applied].

(** Which of the two tasks a step executes, and when. *)
Ltac two_tasks := split; [vm_compute; discriminate|intros [|[|i]] t; cbn; intros [= <-]; done].

Lemma demo_swapped_run : rtc timed_step (initial race_store demo_tasks, 0) (demo_swapped, 2 * NANOS).
Proof.
  pose (fa := frame (demo_set 2 "a").1). pose (fb := frame (demo_set 1 "b").1).
  pose (s0 := initial race_store demo_tasks).
  pose (s1 := mkShared race_store [fa] [] [demo_task 2 "a" Logged; demo_task 1 "b" Parsed]).
  pose (s2 := mkShared race_store [fa; fb] [] [demo_task 2 "a" Logged; demo_task 1 "b" Logged]).
  pose (s3 := mkShared (run_set (demo_set 1 "b") race_store) [fa; fb] [(demo_set 1 "b").2]
    [demo_task 2 "a" Logged; demo_task 1 "b" Applied]).
  apply (rtc_l _ _ (s1, 0)). { split; [exact (task_records 0 (demo_task 2 "a" Parsed) s0 eq_refl eq_refl)|two_tasks]. }
  apply (rtc_l _ _ (s2, 0)). { split; [exact (task_records 1 (demo_task 1 "b" Parsed) s1 eq_refl eq_refl)|two_tasks]. }
  apply (rtc_l _ _ (s3, 1 * NANOS)).
  { split; [|two_tasks]. exact (task_applies 1 (demo_task 1 "b" Logged) s2 (Simple (bs "OK")) _ eq_refl eq_refl eq_refl). }
  apply rtc_once. split; [|two_tasks].
  exact (task_applies 0 (demo_task 2 "a" Logged) s3 (Simple (bs "OK")) _ eq_refl eq_refl eq_refl).
Qed.

Lemma interleaved_recovers_witness :
  executed demo_swapped = rev (commands_of (log demo_swapped))
  /\ wp (load (fun i => demo_input (9 + i)) (concat (map encode (log demo_swapped)) ++ bs "*3" ++ CRLF))
       (fun r db2 => r = Some (Ok 2) /\ exists now k, holds now (store demo_swapped) k /\ holds now db2 k) race_store.
Proof.
  split; [reflexivity|].
  apply (interleaved_recovers race_store race_store demo_tasks (fun i => demo_input (9 + i)) 0 0 demo_swapped (2 * NANOS)
    (bs "*3" ++ CRLF)).
  - apply holds_new. lia.
  - repeat constructor.
  - exact demo_swapped_run.
  - apply (same_per_key_swap (demo_set 1 "b").2 (demo_set 2 "a").2 []). cbn. set_solver.
  - apply holds_new. lia.
  - discriminate.
  - intros i. cbn [clock env demo_input]. unfold NANOS. lia.
  - exists (DemoText.cmd ["SET"; "k"; "v"]%string). eexists. split; [reflexivity|]. split; [discriminate|reflexivity].
Defined.
