(* ===== verification/Shutdown.v ===== *)
(** * The whole process, from the first command to the end

    The sessions, the log's writer task and the end of [main] in [src/src/main.rs] as one
    step relation: the signal, [aof.sync()], the end of the process, and a stop at any other
    moment (a crash). What is in the file then is what the next start replays. *)
From stdpp Require Import relations.
From S2P Require Import Prelude.
From S2P Require Import RustStd.
From S2P Require Import Frame.
From S2P Require Import Metrics.
From S2P Require Import Store.
From S2P Require Import Keyspace.
From S2P Require Import PubSub.
From S2P Require Import Cmd.
From S2P Require Import Command.
From S2P Require Import Aof.
From S2P Require Import Server.
From S2P Require Import Interleave.

Section shutdown.
Context {Hh : Hasher} `{UnicodeCase} `{FrameDebug}.

(** ** The process *)

(** Where [main] is: in the accept loop, past [shutdown_tx.send], waiting in [aof.sync()],
    or returned. *)
Inductive Main := Serving | Signalled | Syncing | Exited.

#[export] Instance Main_eq_dec : EqDecision Main.
Proof. solve_decision. Defined.

(** [running] is false once the process has ended, with whatever was in the file then. *)
Record Process := mkProcess { main : Main; running : bool; shared : Shared; writer : Writer }.

(** The capacity of the channel to the writer task: a send waits while it is full. *)
Definition AOF_CHANNEL : nat := 2048.
Definition room (w : Writer) : Prop := (length (queue w) < AOF_CHANNEL)%nat.
Definition send (m : AofMsg) (w : Writer) : Writer :=
  mkWriter (queue w ++ [m]) (pending w) (file w) (acked w) (sent w ++ [m]).

(** A session records or executes a command at any time, also after the signal: its
    [select!] may poll the connection first. A session that the signal ends takes no more
    steps. The writer task's last flush, when the channel is closed, is a spill of all it
    holds, which may come in time or not. *)
Inductive process_step : Process -> Process -> Prop :=
  | session_records m s s' f w :
      task_step s s' -> log s' = log s ++ [f] -> room w ->
      process_step (mkProcess m true s w) (mkProcess m true s' (send (record f) w))
  | session_executes m s s' w :
      task_step s s' -> log s' = log s -> process_step (mkProcess m true s w) (mkProcess m true s' w)
  | writer_works m s w w' :
      writer_step w w' -> sent w' = sent w -> process_step (mkProcess m true s w) (mkProcess m true s w')
  | main_signal s w : process_step (mkProcess Serving true s w) (mkProcess Signalled true s w)
  | main_sync s w :
      room w -> process_step (mkProcess Signalled true s w) (mkProcess Syncing true s (send (Flush 0) w))
  | main_exit s w :
      0%nat ∈ acked w -> process_step (mkProcess Syncing true s w) (mkProcess Exited true s w)
  | process_stop m s w : process_step (mkProcess m true s w) (mkProcess m false s w).

(** A start on a file of complete records, with commands the sessions are about to receive. *)
Definition start (old : list Frame) (db : Db) (rs : list (Request * Command)) : Process :=
  mkProcess Serving true (initial db rs) (Aof_start (concat (map encode old))).

(** ** The invariant *)

Definition synced (m : Main) : bool := match m with Serving | Signalled => false | _ => true end.

(** The log is in two parts, before and after main's flush; [seen] is a moment of the run
    before the flush. *)
Definition process_inv (contents : bytes) (seen : list Frame) (p : Process) : Prop :=
  writer_reach contents (writer p)
  /\ (main p = Exited -> 0%nat ∈ acked (writer p))
  /\ exists before after, log (shared p) = before ++ after /\ seen `prefix_of` before
     /\ sent (writer p) = map record before ++ (if synced (main p) then [Flush 0] else []) ++ map record after
     /\ (synced (main p) = false -> after = []).

Lemma process_inv_step contents seen p p' :
  process_inv contents seen p -> process_step p p' -> process_inv contents seen p'.
Proof.
  intros (Hr & Hx & before & after & Hlog & Hseen & Hsent & Hafter) Hstep.
  destruct Hstep as [m s s' f w Ht Hl _|m s s' w Ht Hl|m s w w' Hw Hs|s w|s w _|s w Ha|m s w];
    unfold process_inv; cbn in *.
  - split; [by eapply reach_step; [|apply step_send]|]. split; [intros ->; by apply Hx|]. destruct (synced m) eqn:Hm.
    + exists before, (after ++ [f]). split; [by rewrite Hl, Hlog, app_assoc|]. split; [done|]. split; [|done].
      by rewrite Hsent, map_app, <- !app_assoc.
    + rewrite (Hafter eq_refl) in *. exists (before ++ [f]), []. split; [by rewrite Hl, Hlog, !app_nil_r|].
      split; [by apply prefix_app_r|]. split; [|done]. by rewrite Hsent, map_app, !app_nil_r.
  - split; [done|]. split; [done|]. exists before, after. by rewrite Hl.
  - split; [by eapply reach_step|]. split; [|exists before, after; by rewrite Hs].
    intros E. specialize (Hx E). destruct Hw; cbn; [done..|]. apply elem_of_app. by left.
  - split; [done|]. split; [done|]. by exists before, after.
  - split; [by eapply reach_step; [|apply step_send]|]. split; [done|]. exists before, after.
    split; [done|]. split; [done|]. split; [|done]. rewrite Hsent, (Hafter eq_refl), !app_nil_r. done.
  - split; [done|]. split; [done|]. by exists before, after.
  - split; [done|]. split; [done|]. by exists before, after.
Qed.

Lemma process_inv_run contents seen p p' :
  process_inv contents seen p -> rtc process_step p p' -> process_inv contents seen p'.
Proof. intros Hi Hr. induction Hr as [|p p1 p2 Hs _ IH]; [done|]. by eapply IH, process_inv_step. Qed.

Lemma process_inv_start old db rs : process_inv (concat (map encode old)) [] (start old db rs).
Proof. split; [apply reach_start|]. split; [done|]. by exists [], []. Qed.

(** Before main's flush, everything logged so far is a moment of the run. *)
Lemma process_inv_now contents p : process_inv contents [] p -> synced (main p) = false ->
  process_inv contents (log (shared p)) p.
Proof.
  intros (Hr & Hx & before & after & Hlog & _ & Hsent & Hafter) Hm. specialize (Hafter Hm) as ->.
  split; [done|]. split; [done|]. exists before, []. rewrite app_nil_r in Hlog. by rewrite Hlog, app_nil_r.
Qed.

Lemma recorded_frames fs : recorded (map record fs) = concat (map encode fs).
Proof. unfold recorded. by rewrite map_map. Qed.

Lemma record_not_flush fs id : Flush id ∉ map record fs.
Proof. by intros (f & ? & _)%list_elem_of_fmap. Qed.

(** The flush of main splits the messages in one way. *)
Lemma split_at_flush id (l1 l2 : list Frame) (pre post : list AofMsg) :
  pre ++ Flush id :: post = map record l1 ++ Flush id :: map record l2 -> pre = map record l1.
Proof.
  revert pre. induction l1 as [|f l1 IH]; intros [|m pre] E; [done|..|]; injection E as Em E.
  - exfalso. apply (record_not_flush l2 id). rewrite <- E. apply elem_of_app. right. by left.
  - done.
  - cbn [map]. rewrite Em. by rewrite (IH _ E).
Qed.

(** The file only grows. *)
Lemma writer_file_grows contents w : writer_reach contents w -> contents `prefix_of` file w.
Proof.
  induction 1 as [|w w' _ IH Hstep]; [done|]. destruct Hstep; cbn; [done..| |]; by apply prefix_app_r.
Qed.

(** The file is a part of the old file and the log, and after an exit it has all of the log
    up to the flush. *)
Lemma file_is_prefix contents seen p : process_inv contents seen p ->
  file (writer p) `prefix_of` contents ++ concat (map encode (log (shared p)))
  /\ contents `prefix_of` file (writer p)
  /\ (main p = Exited -> contents ++ concat (map encode seen) `prefix_of` file (writer p)).
Proof.
  intros (Hr & Hx & before & after & Hlog & [more ->] & Hsent & _).
  pose proof (writer_inv_reach _ _ Hr) as (received & Hs & Hf & Ha).
  assert (recorded (sent (writer p)) = concat (map encode (log (shared p)))) as Hrec.
  { rewrite Hsent, !recorded_app, !recorded_frames, Hlog, (map_app encode _ after), concat_app.
    by destruct (synced (main p)). }
  split; [|split; [by apply writer_file_grows|]].
  - rewrite <- Hrec, Hs, recorded_app, app_assoc, <- Hf, <- app_assoc. by apply prefix_app_r.
  - intros E. destruct (Ha _ (Hx E)) as (pre & post & -> & rest & ->). rewrite E in Hsent. cbn [synced] in Hsent.
    rewrite Hsent, <- app_assoc in Hs. symmetry in Hs. cbn [app] in Hs. apply split_at_flush in Hs as ->.
    rewrite recorded_frames, (map_app encode), concat_app, <- app_assoc. apply prefix_app. by apply prefix_app_r.
Qed.

(** The sessions of a process are the tasks of [Interleave]. *)
Lemma run_sessions db rs p p' : reachable (initial db rs) (shared p) -> rtc process_step p p' ->
  reachable (initial db rs) (shared p').
Proof.
  intros Hp Hr. induction Hr as [|p p1 p2 Hs _ IH]; [done|]. apply IH.
  destruct Hs; cbn in *; [by eapply reach_trans|by eapply reach_trans|done..].
Qed.

Lemma logged_frames_ok db rs s : Forall (fun rc => frame_ok (frame rc.1) = true) rs -> reachable (initial db rs) s ->
  Forall (fun f => frame_ok f = true) (log s).
Proof.
  intros Hrs Hr. pose proof (tasks_keep (fun r _ => frame_ok (frame r) = true) _ _ _ Hrs Hr) as Ht.
  rewrite (proj1 (order_inv_reach _ _ _ Hr)). apply list.Forall_forall. intros f Hf.
  apply list_elem_of_omap in Hf as (t & Hin & Hf). case_bool_decide; [done|]. injection Hf as <-.
  exact (proj1 (list.Forall_forall _ _) Ht _ Hin).
Qed.

(** What a file left by a process holds. *)
Lemma file_replays (old : list Frame) (db : Db) (rs : list (Request * Command)) p q (inp : nat -> Input) (db2 : Db) :
  Forall (fun f => frame_ok f = true) old -> Forall (fun rc => frame_ok (frame rc.1) = true) rs ->
  rtc process_step (start old db rs) p -> synced (main p) = false -> rtc process_step p q ->
  exists n tail, file (writer q) = concat (map encode (take n (old ++ log (shared q)))) ++ tail
  /\ torn tail /\ (length old <= n)%nat
  /\ load inp (file (writer q)) db2
     = (m ← exec_frames inp 0 (take n (old ++ log (shared q))) 0; mret (Some (Ok m))) db2
  /\ (main q = Exited -> log (shared p) `prefix_of` take (n - length old) (log (shared q))
       /\ forall t, t ∈ tasks (shared p) -> phase t = Applied ->
            frame (request t) ∈ take (n - length old) (log (shared q))).
Proof.
  intros Hold Hrs Hp Hsync Hq.
  pose proof (process_inv_run _ _ _ _ (process_inv_start old db rs) Hp) as Hinv.
  pose proof (process_inv_run _ _ _ _ (process_inv_now _ _ Hinv Hsync) Hq) as Hinv'.
  pose proof (run_sessions db rs (start old db rs) p (reach_refl _) Hp) as Hrp. pose proof (run_sessions _ _ _ _ Hrp Hq) as Hrq.
  destruct (file_is_prefix _ _ _ Hinv') as (Hpre & Hcont & Hexit).
  rewrite <- !concat_app, <- !map_app in Hpre. setoid_rewrite <- concat_app in Hexit. setoid_rewrite <- map_app in Hexit.
  assert (log (shared p) `prefix_of` log (shared q)) as Hlog.
  { destruct Hinv' as (_ & _ & b & a & -> & Hb & _). by apply prefix_app_r. }
  assert (Forall (fun f => frame_ok f = true) (old ++ log (shared q))) as Hok.
  { apply Forall_app. split; [done|]. by eapply logged_frames_ok. }
  destruct (cut_log _ Hok (length old + if bool_decide (main q = Exited) then length (log (shared p)) else 0) _ Hpre)
    as (n & tail & Hfile & Ht & Hn).
  { case_bool_decide as E; [|by rewrite Nat.add_0_r, take_app_length]. destruct Hlog as [l ->].
    rewrite app_assoc, <- length_app, take_app_length. by apply Hexit. }
  exists n, tail. split; [done|]. split; [done|]. split; [lia|]. split.
  - rewrite Hfile. apply load_spec; [by apply Forall_take|done].
  - intros E. rewrite bool_decide_eq_true_2 in Hn by done.
    assert (log (shared p) `prefix_of` take (n - length old) (log (shared q))) as Hin.
    { destruct Hlog as [l ->]. rewrite take_app_ge by lia. by apply prefix_app_r. }
    split; [done|]. intros t Hin' Ha. eapply elem_of_prefix; [|exact Hin].
    by apply (applied_logged db rs).
Qed.

(** ** Properties *)

(** C5: stopping loses nothing that was logged before the sync, and restarting never finds
    more than what was logged. Take any moment of a run before [main] sends its flush, and any
    later state of the process, stopped at any point, in an orderly way or not. The file then
    is whole records and perhaps a torn one, the records are the first [n] of what the file
    held at the start and of what was logged since, and replaying it executes exactly those.
    If [main] returned, they include everything logged at that moment, among it every
    command that had been executed. (The file held whole records at the start, and writes
    succeed; for writes that fail see [AofFaults].) *)
Theorem restart_replays (old : list Frame) (db : Db) (rs : list (Request * Command)) p q (inp : nat -> Input) (db2 : Db) :
  Forall (fun f => frame_ok f = true) old -> Forall (fun rc => frame_ok (frame rc.1) = true) rs ->
  rtc process_step (start old db rs) p -> synced (main p) = false -> rtc process_step p q ->
  exists n tail, file (writer q) = concat (map encode (take n (old ++ log (shared q)))) ++ tail
  /\ torn tail /\ (length old <= n)%nat
  /\ load inp (file (writer q)) db2
     = (m ← exec_frames inp 0 (take n (old ++ log (shared q))) 0; mret (Some (Ok m))) db2
  /\ (main q = Exited -> log (shared p) `prefix_of` take (n - length old) (log (shared q))
       /\ forall t, t ∈ tasks (shared p) -> phase t = Applied ->
            frame (request t) ∈ take (n - length old) (log (shared q))).
Proof. apply file_replays. Qed.
End shutdown.

(** Concrete runs: one connection sets a key. *)
#[local] Existing Instance Demo.hash.
#[local] Existing Instance DemoText.case.
#[local] Existing Instance DemoText.debug.

Definition one_set : list (Request * Command) := [race_set 1 "one"].
Definition set_frame : Frame := frame (race_set 1 "one").1.
Definition set_task (p : Phase) : Task := mkTask (race_set 1 "one").1 (race_set 1 "one").2 p.

(** The sessions before the SET, after its record, and after its execution. *)
Definition sessions_logged : Shared := mkShared race_store [set_frame] [] [set_task Logged].
Definition sessions_applied : Shared :=
  mkShared (run_set (race_set 1 "one") race_store) [set_frame] [(race_set 1 "one").2] [set_task Applied].

Lemma set_records m w : room w ->
  process_step (mkProcess m true (initial race_store one_set) w) (mkProcess m true sessions_logged (send (record set_frame) w)).
Proof.
  intros Hw. apply (session_records m (initial race_store one_set) sessions_logged set_frame w); [|reflexivity|exact Hw].
  exact (task_records 0 (set_task Parsed) (initial race_store one_set) eq_refl eq_refl).
Qed.

Lemma set_executes m w :
  process_step (mkProcess m true sessions_logged w) (mkProcess m true sessions_applied w).
Proof.
  apply session_executes; [|reflexivity].
  exact (task_applies 0 (set_task Logged) sessions_logged (Simple (bs "OK")) (run_set (race_set 1 "one") race_store)
    eq_refl eq_refl eq_refl).
Qed.

Lemma room_few w : (length (queue w) <= 1)%nat -> room w.
Proof. unfold room, AOF_CHANNEL. lia. Qed.

(** The orderly end: the SET, the signal, the sync, the exit. *)
Definition served : Process :=
  mkProcess Serving true sessions_applied (send (record set_frame) (Aof_start [])).
Definition stopped : Process :=
  mkProcess Exited false sessions_applied (mkWriter [] [] (encode set_frame) [0%nat] [record set_frame; Flush 0]).

Lemma served_reachable : rtc process_step (start [] race_store one_set) served.
Proof. eapply rtc_l; [apply set_records, room_few; cbn; lia|]. eapply rtc_once, set_executes. Qed.

Lemma stopped_reachable : rtc process_step served stopped.
Proof.
  eapply rtc_l; [apply main_signal|]. eapply rtc_l; [apply main_sync, room_few; cbn; lia|].
  eapply rtc_l; [eapply writer_works; [by apply step_record|reflexivity]|].
  eapply rtc_l; [eapply writer_works; [by apply step_flush|reflexivity]|].
  eapply rtc_l; [apply main_exit; by left|]. eapply rtc_l; [apply process_stop|]. apply rtc_refl.
Qed.

Lemma restart_replays_witness :
  exists n tail, file (writer stopped) = concat (map encode (take n [set_frame])) ++ tail
  /\ load demo_input (file (writer stopped)) race_store
     = (m ← exec_frames demo_input 0 (take n [set_frame]) 0; mret (Some (Ok m))) race_store
  /\ set_frame ∈ take n [set_frame].
Proof.
  destruct (restart_replays [] race_store one_set served stopped demo_input race_store) as (n & tail & Hf & _ & _ & Hl & Hx).
  - apply Forall_nil_2.
  - repeat constructor.
  - exact served_reachable.
  - reflexivity.
  - exact stopped_reachable.
  - exists n, tail. split; [exact Hf|]. split; [exact Hl|]. destruct (Hx eq_refl) as [_ Ht].
    rewrite Nat.sub_0_r in Ht. apply (Ht (set_task Applied)); [by left|reflexivity].
Defined.

(** An orderly end can lose a write that was executed. The connection's [select!] polls the
    connection after the signal, and after main has sent its flush: the record waits in the
    channel behind the flush, main returns, and the file does not have it. *)
Lemma shutdown_loses_a_write :
  exists q, rtc process_step (start [] race_store one_set) q /\ main q = Exited /\ running q = false
    /\ executed (shared q) = [(race_set 1 "one").2] /\ file (writer q) = [].
Proof.
  eexists. split.
  - eapply rtc_l; [apply main_signal|]. eapply rtc_l; [apply main_sync, room_few; cbn; lia|].
    eapply rtc_l; [apply set_records, room_few; cbn; lia|]. eapply rtc_l; [apply set_executes|].
    eapply rtc_l; [eapply writer_works; [by apply step_flush|reflexivity]|].
    eapply rtc_l; [apply main_exit; by left|]. eapply rtc_l; [apply process_stop|]. apply rtc_refl.
  - do 3 (split; [reflexivity|]). reflexivity.
Qed.
