(* ===== verification/Startup.v ===== *)
(** * Startup: [main] of [src/src/main.rs], up to the accept loop

    The configuration from the environment, the new store, the replay of the append-only
    file, and what the tasks share when the accept loop begins. *)
From stdpp Require Import relations.
From S2P Require Import Prelude.
From S2P Require Import RustStd.
From S2P Require Import Frame.
From S2P Require Import Metrics.
From S2P Require Import Store.
From S2P Require Import Keyspace.
From S2P Require Import PubSub.
From S2P Require Import Cmd.
From S2P Require Import Command.
From S2P Require Import Aof.
From S2P Require Import Server.
From S2P Require Import Accept.
From S2P Require Import Recovery.
From S2P Require Import Interleave.
From S2P Require Import Shutdown.
From S2P Require Import Reorder.
From S2P Require Import Config.

(** The environment variables [main] reads; [None] for one that is not set or not Unicode. *)
Record Vars := mkVars {
  PORT : option bytes;
  MAX_CONNECTIONS : option bytes;
  AOF_PATH : option bytes;
  MAXMEMORY : option bytes;
  WEB_PORT : option bytes;
  DASHBOARD_PORT : option bytes;
}.

(** What reading the append-only file gives, and what it holds. *)
Inductive FileRead := Missing | Unreadable (b : bytes) | Contents (b : bytes).

(** The port of [format!(0.0.0.0:{}).parse::<SocketAddr>()]: digits, in the range of a u16. *)
Definition parse_port (s : bytes) : option Z :=
  match s with
  | [] => None
  | _ => p ← parse_digits 0 s; if p <=? 65535 then Some p else None
  end.

Definition bind_addr (v : Vars) : bytes := bs "0.0.0.0:" ++ default (bs "6379") (PORT v).
Definition aof_path (v : Vars) : bytes := default (bs "appendonly.aof") (AOF_PATH v).
Definition web_port (v : Vars) : Z :=
  let port := match WEB_PORT v with
              | Some p => p
              | None => match DASHBOARD_PORT v with Some p => p | None => bs "8080" end
              end in
  default 8080 (parse_port port).

Section startup.
Context {Hh : Hasher} `{UnicodeCase} `{FrameDebug} `{Broadcast}.
(** [Semaphore::MAX_PERMITS]: a semaphore of more permits panics. *)
Context (MAX_PERMITS : Z).

(** The replay at startup: an error is logged, and the server goes on with what was replayed
    before it. *)
Definition rehydrate (inp : nat -> Input) (file : FileRead) : ST Db unit :=
  match file with
  | Missing => Aof_load inp None ;; mret tt
  | Unreadable _ => mret tt
  | Contents b => Aof_load inp (Some b) ;; mret tt
  end.

(** The state of the accept loop: what the sessions share, the log's writer task and the
    number of permits. *)
Record Server := mkServer { world : World; aof : Writer; permits : Z }.

(** [None] when [main] panics. *)
Definition start_server (v : Vars) (now : Z) (jiffies : option Z) (inp : nat -> Input) (file : FileRead) : option Server :=
  match rehydrate inp file (Db_with_metrics (MAXMEMORY v) now (Metrics_new now jiffies)) with
  | Panic _ => None
  | Done _ db =>
    let writer := Aof_start (match file with Missing => [] | Unreadable b | Contents b => b end) in
    let max_connections := env_max_connections (MAX_CONNECTIONS v) in
    if max_connections <=? MAX_PERMITS then Some (mkServer (mkWorld db PubSub_new []) writer max_connections) else None
  end.

(** A task that has executed its command takes no more steps. *)
Lemma done_steps s s' : Forall (fun t => phase t = Applied) (tasks s) -> ~ task_step s s'.
Proof.
  intros Hs Hstep. rewrite Forall_lookup in Hs.
  destruct Hstep as [i t s Hi Hp|i t s f db Hi Hp _]; specialize (Hs _ _ Hi); congruence.
Qed.

Lemma done_run p q : Forall (fun t => phase t = Applied) (tasks (shared p)) -> rtc process_step p q -> shared q = shared p.
Proof.
  intros Hp Hr. induction Hr as [|p p1 q Hs _ IH]; [done|].
  assert (shared p1 = shared p) as E; [|rewrite IH by (by rewrite E); done].
  destruct Hs as [m s s' f w Ht|m s s' w Ht| | | | |]; try done; by apply done_steps in Ht.
Qed.

(** C2: a restart. On a new server without a memory limit any number of clients write keys
    without deadlines, recording and executing in any interleaving that keeps the order of
    the log on every key; when all have been executed the server is told to stop and returns
    from [main]. A server started on the file it left, with any configuration without a
    memory limit that its semaphore admits, starts, and holds the keyspace the old one held. *)
Theorem restart_equivalent (db : Db) (rs : list (Request * Command)) (t now : Z) (p q : Process)
    (v : Vars) (start_now : Z) (jiffies : option Z) (inp : nat -> Input) :
  holds t db ∅ -> Forall (fun rc => task_ok rc.1 rc.2) rs ->
  rtc process_step (start [] db rs) p -> synced (main p) = false ->
  rtc timed_step (initial db rs, t) (shared p, now) -> Forall (fun t => phase t = Applied) (tasks (shared p)) ->
  same_per_key (executed (shared p)) (commands_of (log (shared p))) ->
  rtc process_step p q -> main q = Exited ->
  env_maxmemory (MAXMEMORY v) = 0 -> env_max_connections (MAX_CONNECTIONS v) <= MAX_PERMITS ->
  (forall i, clock (env (inp i)) 0 <= clock (env (inp (S i))) 0) ->
  exists srv, start_server v start_now jiffies inp (Contents (file (writer q))) = Some srv
  /\ file (aof srv) = file (writer q)
  /\ exists later k, holds later (store (shared q)) k /\ holds later (w_db (world srv)) k.
Proof.
  intros Hdb Hrs Hp Hsync Htimed Hdone Hsame Hq Hexit Hcap Hperm Hinp.
  assert (Forall (fun rc => frame_ok (frame rc.1) = true) rs) as Hok by (eapply Forall_impl; [exact Hrs|by intros rc []]).
  destruct (file_replays [] db rs p q inp db (Forall_nil_2 _) Hok Hp Hsync Hq) as (n & tail & Hfile & Htail & _ & _ & Hx).
  specialize (Hx Hexit) as [Hlog _]. rewrite (done_run _ _ Hdone Hq) in *. cbn [app length] in *.
  rewrite Nat.sub_0_r in Hlog.
  assert (take n (log (shared p)) = log (shared p)) as E.
  { destruct Hlog as [l Hl]. apply (f_equal length) in Hl. rewrite length_app, length_take in Hl. apply take_ge. lia. }
  rewrite E in Hfile. set (db0 := Db_with_metrics (MAXMEMORY v) start_now (Metrics_new start_now jiffies)).
  assert (holds (clock (env (inp 0%nat)) 0) db0 ∅) as Hdb0.
  { unfold db0, Db_with_metrics. rewrite Hcap. apply holds_new. unfold DEFAULT_NUM_SHARDS. lia. }
  pose proof (interleaved_load db db0 rs inp t _ _ now tail Hdb Hrs Htimed Hsame Hdb0 (Z.le_refl _) Hinp Htail) as Hw.
  unfold wp in Hw. rewrite <- Hfile in Hw. unfold start_server, rehydrate, Aof_load, mbind, ST_bind. fold db0.
  destruct (load inp (file (writer q)) db0) as [r db2|]; [|done]. destruct Hw as [_ Hw]. cbn.
  rewrite (proj2 (Z.leb_le _ _) Hperm). eexists. split; [reflexivity|]. split; [reflexivity|exact Hw].
Qed.
End startup.

(** Concrete runs. *)
#[local] Existing Instance Demo.hash.
#[local] Existing Instance DemoText.case.
#[local] Existing Instance DemoText.debug.
#[local] Existing Instance PubSub.counting.

Definition no_vars : Vars := mkVars None None None None None None.

(** The ports: the first variable that is set wins, and one that is no port is ignored. *)
Example ports_read :
  web_port no_vars = 8080 /\ web_port (mkVars None None None None None (Some (bs "9090"))) = 9090
  /\ web_port (mkVars None None None None (Some (bs "99999")) (Some (bs "9090"))) = 8080
  /\ bind_addr (mkVars (Some (bs "7000")) None None None None None) = bs "0.0.0.0:7000".
Proof. split_and!; reflexivity. Qed.

Lemma one_set_timed : rtc timed_step (initial race_store one_set, 0) (sessions_applied, NANOS).
Proof.
  apply (rtc_l _ _ (sessions_logged, 0)).
  { split; [exact (task_records 0 (set_task Parsed) (initial race_store one_set) eq_refl eq_refl)|].
    split; [done|]. intros [|i] t; cbn; intros [= <-]; done. }
  apply rtc_once. split; [exact (task_applies 0 (set_task Logged) sessions_logged (Simple (bs "OK")) _ eq_refl eq_refl eq_refl)|].
  split; [done|]. intros [|i] t; cbn; intros [= <-]; done.
Qed.

Lemma restart_equivalent_witness :
  exists srv, start_server 2305843009213693951 no_vars 0 None (fun i => demo_input (9 + i)) (Contents (file (writer stopped)))
    = Some srv
  /\ exists later k, holds later (store (shared stopped)) k /\ holds later (w_db (world srv)) k.
Proof.
  destruct (restart_equivalent 2305843009213693951 race_store one_set 0 NANOS served stopped no_vars 0 None
    (fun i => demo_input (9 + i))) as (srv & Hs & _ & Hk).
  - apply holds_new. lia.
  - repeat constructor.
  - exact served_reachable.
  - reflexivity.
  - exact one_set_timed.
  - repeat constructor.
  - intros key. reflexivity.
  - exact stopped_reachable.
  - reflexivity.
  - reflexivity.
  - vm_compute. discriminate.
  - intros i. cbn [clock env demo_input]. unfold NANOS. lia.
  - exists srv. split; [exact Hs|exact Hk].
Defined.
