(* ===== verification/Typed.v ===== *)
(** * The types of a running server

    Everything that happens to the store of a server: requests, HTTP requests, connections,
    the sweeper and the one-second sampler of [main]. Whatever happens, also when a task
    panics, the store stays well formed and its metrics well typed. *)
From stdpp Require Import relations.
From S2P Require Import Prelude.
From S2P Require Import RustStd.
From S2P Require Import Json.
From S2P Require Import Metrics.
From S2P Require Import MetricsJson.
From S2P Require Import Frame.
From S2P Require Import Store.
From S2P Require Import Keyspace.
From S2P Require Import DbList.
From S2P Require Import Evict.
From S2P Require Import DbKeys.
From S2P Require Import Scan.
From S2P Require Import Flow.
From S2P Require Import Http.
From S2P Require Import Web.
From S2P Require Import PubSub.
From S2P Require Import Cmd.
From S2P Require Import Command.
From S2P Require Import Aof.
From S2P Require Import Server.
From S2P Require Import Recovery.
From S2P Require Import Config.
From S2P Require Import Startup.

(** ** Operations keep the types *)

(** What no operation changes or breaks, whatever the state: the metrics stay well typed,
    the configuration stays. *)
Definition metrics_kept (db db' : Db) : Prop :=
  (metrics_ok (metrics db) -> metrics_ok (metrics db'))
  /\ maxmemory db' = maxmemory db /\ num_shards db' = num_shards db.

Lemma metrics_kept_metric o f db : (forall m, metrics_step o m = Some (f m)) -> op_ok o ->
  metrics_kept db (with_metrics f db).
Proof.
  intros Ho Hok. split; [|done]. intros Hm. destruct (metrics_step_ok o _ Hm Hok) as (m' & E & Hm').
  rewrite Ho in E. by injection E as <-.
Qed.

#[export] Instance metrics_kept_flow : FullFlow metrics_kept.
Proof.
  split; [split; [split|..]|..].
  - done.
  - intros x y z (H1 & H2 & H3) (H1' & H2' & H3'). split; [auto|]. split; congruence.
  - done.
  - done.
  - intros n db. by apply (metrics_kept_metric (RecordEviction n)).
  - intros n db. by apply (metrics_kept_metric (RecordExpiration n)).
  - intros db. by apply (metrics_kept_metric RecordHit).
  - intros db. by apply (metrics_kept_metric RecordMiss).
Qed.

Section typed.
Context {Hh : Hasher}.

Record typed (maxmem : Z) (n : nat) (db : Db) : Prop := {
  ty_wf : wf db;
  ty_metrics : metrics_ok (metrics db);
  ty_maxmemory : maxmemory db = maxmem;
  ty_shards : num_shards db = n;
}.

(** An operation whose specification gives a well-formed store keeps the invariant. *)
Lemma keeps_wf {A} (m : ST Db A) :
  (forall db s, models db s -> wp m (fun _ db' => exists s', models db' s') db) -> keeps wf m.
Proof.
  intros Hm db Hw. specialize (Hm db _ (models_flat _ Hw)). unfold wp in Hm. destruct (m db); [|done].
  destruct Hm as (s' & Hm'). by eapply models_wf.
Qed.

Lemma keeps_typed {A} maxmem n (m : ST Db A) : keeps wf m -> across metrics_kept m -> keeps (typed maxmem n) m.
Proof.
  intros Hw Hm db [H1 H2 H3 H4]. destruct (Hm db) as (Hm1 & Hm2 & Hm3). split; [by apply Hw|auto|congruence..].
Qed.

(** EXPIRE, which may panic. *)
Lemma expire_keeps_wf e key d : keeps wf (expire e key d).
Proof.
  intros db Hw. pose proof (models_flat _ Hw) as Hm. set (s := flat db) in Hm.
  destruct (instant_add (clock e 0) d) as [t|] eqn:Hd.
  { pose proof (expire_implements e key d t db s Hm Hd) as Hi. unfold implements, wp in Hi.
    destruct (expire e key d db) as [b db'|]; [|done]. destruct Hi as (s' & Hm' & _). by eapply models_wf. }
  destruct (ks s !! key) as [ent|] eqn:Hent; [destruct (is_expired ent (clock e 0)) eqn:Hexp|].
  2:{ by rewrite (expire_panics _ _ _ _ _ _ Hm Hd Hent Hexp). }
  all: assert (wp (expire e key d) (fun _ db' => wf db') db) as Hwp; [unfold expire; do 4 db_step; rewrite Hent|].
  - rewrite Hexp. db_run. by eapply models_wf.
  - unfold wp in Hwp. by destruct (expire e key d db).
  - db_run. done.
  - unfold wp in Hwp. by destruct (expire e key d db).
Qed.

(** What a parser can give to SCAN. *)
Definition scan_ok (c : Command) : Prop :=
  match c with Scan q => 0 <= CmdScan.cursor q /\ 0 <= CmdScan.count q | _ => True end.

Lemma apply_keeps_wf e c : scan_ok c -> keeps wf (apply e c).
Proof.
  intros Hs. assert (command_ok (clock e 0) c -> keeps wf (apply e c)) as Hok.
  { intros Hc. apply keeps_wf. intros db s Hm. eapply wp_mono; [by apply (apply_acts e c db s)|]. cbn beta.
    intros f db' (s' & _ & Hm' & _). by exists s'. }
  destruct c; try (by apply Hok). cbn [apply]. unfold CmdExpire.apply.
  apply keeps_bind; [apply expire_keeps_wf|intros b; apply keeps_ret].
Qed.

Lemma apply_flow (R : relation Db) `{!FullFlow R} e c : across R (apply e c).
Proof.
  destruct c as [c|c|c|c|c|c|c|[]|[]|[]|c|c|c| | |]; cbn [apply CmdList.apply CmdHash.apply CmdSets.apply];
    unfold CmdGet.apply, CmdSet.apply, CmdDel.apply, CmdExpire.apply, CmdTtl.apply, CmdKeys.apply, CmdScan.apply,
      lpush, rpush, lpop, rpop; flow_run; apply ttl_flow.
Qed.

Lemma sweep_keeps_wf envs : keeps wf (sweep envs).
Proof.
  unfold sweep. generalize SWEEP_ROUNDS, 0%nat. intros rounds. induction rounds as [|rounds IH]; intros i; [apply keeps_ret|].
  cbn [sweep_loop]. apply keeps_bind; [|intros [sampled expired]; destruct (_ || _); [apply keeps_ret|apply IH]].
  apply keeps_wf. intros db s Hm. eapply wp_mono; [by apply wp_purge|]. cbn beta. intros r db' (s' & Hm' & _). by exists s'.
Qed.

Lemma sweep_flow envs : across metrics_kept (sweep envs).
Proof.
  unfold sweep. generalize SWEEP_ROUNDS, 0%nat. intros rounds. induction rounds as [|rounds IH]; intros i;
    cbn [sweep_loop]; flow_run.
Qed.

(** A change of the metrics alone. *)
Lemma metric_typed maxmem n o f : (forall m, metrics_step o m = Some (f m)) -> op_ok o -> keeps (typed maxmem n) (metric f).
Proof.
  intros Hf Ho. apply keeps_typed.
  - by intros db [].
  - apply across_modify. intros db. by apply (metrics_kept_metric o).
Qed.

(** The one-second sampler of [main]. *)
Definition sampler (now : Z) (jiffies rss_b : option Z) : ST Db unit :=
  db ← get_state;
  match tick_second now jiffies rss_b (current_memory db) (metrics db) with
  | Some m => modify (with_metrics (fun _ => m))
  | None => panic
  end.

Lemma sampler_typed maxmem n now jiffies rss_b : 0 <= now <= Instant_max -> opt_u64 jiffies -> opt_u64 rss_b ->
  keeps (typed maxmem n) (sampler now jiffies rss_b).
Proof.
  intros Hn Hj Hr db [Hw Hm Hc Hs]. unfold sampler, mbind, ST_bind. cbn.
  destruct (metrics_step_ok (TickSecond now jiffies rss_b (current_memory db)) _ Hm) as (m' & E & Hm').
  { split; [done|]. split; [done|]. split; [done|]. destruct Hw as [_ _ _ Hmem]. unfold is_u64, u64_max. lia. }
  cbn in E. rewrite E. split; try done. by destruct Hw.
Qed.

(** ** The dashboard *)

Lemma metrics_document_reads now db : after (metrics_document now db) = db.
Proof.
  unfold metrics_document, len_db, mbind, ST_bind. cbn. by destruct (to_json _ _ _ _ _).
Qed.

Lemma traffic_flow_kept es key n : forall i, across metrics_kept (traffic_loop es key n i).
Proof.
  induction n as [|n IH]; intros i; cbn [traffic_loop]; flow_run. apply across_modify. intros db.
  apply (metrics_kept_metric (RecordCommand (fastrand_u64 (es i) 0 5 40))); [done|]. unfold op_ok, fastrand_u64, is_u64.
  pose proof (Z.mod_pos_bound (Z.of_nat (draw (es i) 0)) (40 - 5)). unfold u64_max, u64_modulus. lia.
Qed.

Lemma route_typed html maxmem n es now method path query : keeps (typed maxmem n) (route html es now method path query).
Proof.
  assert (across metrics_kept (metrics_document (now 0%nat))) as Hdoc
    by (apply across_read; intros db; apply metrics_document_reads).
  assert (keeps wf (metrics_document (now 0%nat))) as Hdocwf by (intros db; by rewrite metrics_document_reads).
  unfold route. destruct (_ && _); [apply keeps_ret|]. destruct (_ && _).
  { apply keeps_bind; [by apply keeps_typed|intros json; apply keeps_ret]. }
  destruct (_ && _); [apply keeps_ret|]. destruct (_ || _); [|apply keeps_ret].
  destruct (simulate_params query) as [count ratio] eqn:Ep. pose proof (simulate_params_range query) as Hr.
  rewrite Ep in Hr. cbn [fst snd] in Hr. apply keeps_bind; [|intros []; apply keeps_ret]. apply keeps_typed.
  - apply keeps_wf. intros db s Hm. eapply wp_mono; [apply (wp_simulate es count ratio db s Hm); lia|]. cbn beta.
    intros _ db' (s' & h & Hm' & _). by exists s'.
  - unfold simulate. apply across_bind; [|intros []; apply across_bind; [|intros []]; apply traffic_flow_kept].
    generalize 100%nat. intros k. generalize 0%nat. induction k as [|k IH]; intros i; cbn [seed_loop]; flow_run.
Qed.

Lemma http_typed html maxmem n es now buf : keeps (typed maxmem n) (handle_http_connection html es now buf).
Proof.
  unfold handle_http_connection. destruct (first_line _) as [line|]; [|apply keeps_ret].
  destruct (split_whitespace line) as [|method [|uri rest]]; [apply keeps_ret..|]. apply route_typed.
Qed.
End typed.

(** ** The server *)

(** The limit read from the environment is a [usize]. *)
Lemma env_maxmemory_u64 `{UnicodeCase} var : is_u64 (env_maxmemory var).
Proof.
  assert (forall z, is_u64 (wrap_u64 z)) as Hwrap by apply wrap_is_u64.
  unfold env_maxmemory. destruct var as [v|]; cbn [mbind option_bind]; [|by apply (Hwrap 0)].
  destruct (parse_memory_limit v) as [z|] eqn:E; [|by apply (Hwrap 0)]. cbn. unfold parse_memory_limit in E.
  repeat case_match; try (by apply parse_int_range in E);
    apply bind_Some in E as (w & _ & [= <-]); apply Hwrap.
Qed.

Section events.
Context {Hh : Hasher} `{UnicodeCase} `{FrameDebug} `{Broadcast} (DASHBOARD_HTML : bytes).

(** What can happen to the store, each event with what it reads from outside. *)
Inductive ServerEvent :=
  | EvRequest (r : Request)
  | EvHttp (es : nat -> Env) (now : nat -> Z) (buf : bytes)
  | EvConnected
  | EvDisconnected
  | EvConnectionError
  | EvSweep (envs : nat -> Env)
  | EvSample (now : Z) (jiffies rss_b : option Z).

Definition run_event (ev : ServerEvent) (w : World) : World :=
  match ev with
  | EvRequest r => after (handle r w)
  | EvHttp es now buf => after (on_db (handle_http_connection DASHBOARD_HTML es now buf) w)
  | EvConnected => after (on_db (metric client_connected) w)
  | EvDisconnected => after (on_db (metric client_disconnected) w)
  | EvConnectionError => after (on_db (metric record_connection_error) w)
  | EvSweep envs => after (on_db (sweep envs) w)
  | EvSample now jiffies rss_b => after (on_db (sampler now jiffies rss_b) w)
  end.

Definition run_events (evs : list ServerEvent) (w : World) : World := fold_left (fun w ev => run_event ev w) evs w.

(** What is read from outside is of its type. *)
Definition event_ok (ev : ServerEvent) : Prop :=
  match ev with
  | EvRequest r => is_u64 (duration_us r)
  | EvSample now jiffies rss_b => 0 <= now <= Instant_max /\ opt_u64 jiffies /\ opt_u64 rss_b
  | _ => True
  end.

Lemma keeps_on_db {A} (P : Db -> Prop) (m : ST Db A) : keeps P m -> keeps (fun w => P (w_db w)) (on_db m).
Proof. intros Hm w Hw. specialize (Hm _ Hw). unfold on_db. by destruct (m (w_db w)). Qed.

Lemma keeps_on_db_pubsub (P : Db -> Prop) e c : keeps P (apply e c) ->
  keeps (fun w => P (w_db w)) (on_db_pubsub (apply_with_pubsub e c)).
Proof.
  intros Hm w Hw. specialize (Hm _ Hw). unfold on_db_pubsub, apply_with_pubsub.
  destruct c as [c|c|c|c|c|c|c|c|c|c|c|c|c| | |]; try (by destruct (apply _ _ _)).
  by destruct (CmdPubSub.apply_publish _ _).
Qed.

Lemma handle_typed maxmem n r : is_u64 (duration_us r) -> keeps (fun w => typed maxmem n (w_db w)) (handle r).
Proof.
  intros Hd. unfold handle. destruct (from_frame (parse_now (input r)) (frame r)) as [c|[err|]] eqn:Hf.
  2:{ apply keeps_bind; [|intros []; apply keeps_ret]. apply keeps_on_db. by apply (metric_typed _ _ RecordConnectionError). }
  2: by intros w.
  assert (scan_ok c) as Hs by (destruct c; try exact I; by eapply from_frame_scan).
  assert (keeps (fun w => typed maxmem n (w_db w)) ((if is_write c then aof_record (frame r) else mret tt) ;;
    response ← on_db_pubsub (apply_with_pubsub (env (input r)) c);
    on_db (metric (record_command (duration_us r))) ;; mret (Reply response false))) as Hmain.
  { apply keeps_bind; [by destruct (is_write c); intros w Hw|intros []]. apply keeps_bind.
    - apply keeps_on_db_pubsub, keeps_typed; [by apply apply_keeps_wf|apply (apply_flow _)].
    - intros f. apply keeps_bind; [|intros []; apply keeps_ret]. apply keeps_on_db.
      by apply (metric_typed _ _ (RecordCommand (duration_us r))). }
  destruct c as [c|c|c|c|c|c|c|c|c|c|c|c|c| | |]; try exact Hmain. destruct c; [exact Hmain|]. apply keeps_ret.
Qed.

Lemma run_event_typed maxmem n ev w : event_ok ev -> typed maxmem n (w_db w) -> typed maxmem n (w_db (run_event ev w)).
Proof.
  intros Hev Hw. destruct ev as [r|es now buf| | | |envs|now j rss]; cbn [run_event].
  - by apply handle_typed.
  - by apply (keeps_on_db _ _ (http_typed _ _ _ _ _ _)).
  - by apply (keeps_on_db _ _ (metric_typed _ _ ClientConnected _ (fun _ => eq_refl) I)).
  - by apply (keeps_on_db _ _ (metric_typed _ _ ClientDisconnected _ (fun _ => eq_refl) I)).
  - by apply (keeps_on_db _ _ (metric_typed _ _ RecordConnectionError _ (fun _ => eq_refl) I)).
  - refine (keeps_on_db _ _ (keeps_typed _ _ _ _ _) _ Hw); [apply sweep_keeps_wf|apply sweep_flow].
  - destruct Hev as (Hn & Hj & Hr). by apply (keeps_on_db _ _ (sampler_typed _ _ _ _ _ Hn Hj Hr)).
Qed.
End events.

(** The replay at startup keeps the types, whatever the file holds. *)
Lemma load_typed {Hh : Hasher} `{UnicodeCase} `{FrameDebug} maxmem n inp contents : keeps (typed maxmem n) (load inp contents).
Proof.
  unfold load. generalize (cursor_of contents), 0, 0%nat. generalize (S (length contents)). intros fuel.
  induction fuel as [|fuel IH]; intros c k i; cbn [load_loop]; [apply keeps_ret|].
  destruct (chunk c); [apply keeps_ret|]. destruct (check c) as [[u c']|[|m]]; [|apply keeps_ret..].
  destruct (parse _) as [[f c1]|e]; [|apply keeps_ret].
  destruct (from_frame (parse_now (inp i)) f) as [cmd|[m|]] eqn:Hf; [|apply IH|by intros db].
  assert (scan_ok cmd) as Hs by (destruct cmd; try exact I; by eapply from_frame_scan).
  apply keeps_bind; [|intros r; apply IH]. apply keeps_typed; [by apply apply_keeps_wf|apply (apply_flow _)].
Qed.

Lemma start_server_typed {Hh : Hasher} `{UnicodeCase} `{FrameDebug} `{Broadcast} max v now jiffies inp file srv :
  0 <= now -> opt_u64 jiffies -> start_server max v now jiffies inp file = Some srv ->
  typed (env_maxmemory (MAXMEMORY v)) DEFAULT_NUM_SHARDS (w_db (world srv)).
Proof.
  intros Hnow Hj Hs. unfold start_server in Hs. set (db0 := Db_with_metrics _ _ _) in Hs.
  assert (typed (env_maxmemory (MAXMEMORY v)) DEFAULT_NUM_SHARDS db0) as Hdb0.
  { split; [apply wf_new; unfold DEFAULT_NUM_SHARDS; lia|by apply metrics_new_ok|done..]. }
  assert (keeps (typed (env_maxmemory (MAXMEMORY v)) DEFAULT_NUM_SHARDS) (rehydrate inp file)) as Hr.
  { destruct file as [| |b]; cbn [rehydrate Aof_load]; [apply keeps_bind; intros; apply keeps_ret|apply keeps_ret|].
    apply keeps_bind; [apply load_typed|intros; apply keeps_ret]. }
  specialize (Hr _ Hdb0). destruct (rehydrate inp file db0) as [u db|db]; [|done].
  destruct (_ <=? _); [|done]. by injection Hs as <-.
Qed.

(** C15: the types of a running server. Once [main] has started, whatever the environment
    variables and the append-only file hold, any sequence of requests, HTTP requests,
    connections, ticks of the sweeper and of the sampler, whether they return or panic,
    leaves the store well formed and its configuration as it was, every counter in the range
    of its Rust type and no NaN or infinity in the history. So [/api/metrics] answers at
    every moment: its document does not panic and reads back as the values the server holds. *)
Theorem server_typed {Hh : Hasher} `{UnicodeCase} `{FrameDebug} `{Broadcast} (html : bytes) (max : Z)
    (v : Vars) (start : Z) (jiffies : option Z) (inp : nat -> Input) (file : FileRead) (srv : Server)
    (evs : list ServerEvent) (Hstart : 0 <= start) (Hj : opt_u64 jiffies)
    (Hsrv : start_server max v start jiffies inp file = Some srv) (Hevs : Forall event_ok evs) :
  let db := w_db (run_events html evs (world srv)) in
  typed (env_maxmemory (MAXMEMORY v)) DEFAULT_NUM_SHARDS db
  /\ forall now, 0 <= now <= Instant_max -> is_u64 (Z.of_nat (size (view db))) ->
       wp (metrics_document now) (fun json db' => db' = db /\ exists lat, latency_stats (metrics db) = Some lat
         /\ read_json json = Some (store_json now (flat db) lat)) db.
Proof.
  cbn zeta. assert (forall w, typed (env_maxmemory (MAXMEMORY v)) DEFAULT_NUM_SHARDS (w_db w) ->
    typed (env_maxmemory (MAXMEMORY v)) DEFAULT_NUM_SHARDS (w_db (run_events html evs w))) as Hrun.
  { unfold run_events. induction Hevs as [|ev evs Hev _ IH]; intros w Hw; [done|]. by apply IH, run_event_typed. }
  pose proof (Hrun _ (start_server_typed _ _ _ _ _ _ _ Hstart Hj Hsrv)) as Ht. set (w' := run_events _ _ _) in *.
  split; [exact Ht|]. intros now Hnow Hsize. destruct Ht as [Hw Hm Hc _].
  eapply wp_mono; [apply (wp_metrics_document now _ _ (models_flat _ Hw))|].
  - split; [done|]. split; [done|]. split; [done|]. cbn. rewrite Hc. apply env_maxmemory_u64.
  - cbn beta. intros json db' (-> & lat & Hlat & Hok & ->). split; [done|]. exists lat. split; [exact Hlat|].
    by apply read_json_render.
Qed.

(** Concrete runs. *)
#[local] Existing Instance Demo.hash.
#[local] Existing Instance DemoText.case.
#[local] Existing Instance DemoText.debug.
#[local] Existing Instance PubSub.counting.

(** A client sets a key, sends an EXPIRE that panics, and is counted as connected for good. *)
Definition demo_events : list ServerEvent :=
  [EvConnected;
   EvRequest (mkRequest (demo_input 1) 12 (DemoText.cmd ["SET"; "k"; "v"]%string));
   EvRequest (mkRequest (demo_input 2) 7 (DemoText.cmd ["EXPIRE"; "k"; "18446744073709551615"]%string));
   EvHttp (fun i => env (demo_input i)) (fun _ => 3 * NANOS) (bs "GET /api/metrics HTTP/1.1" ++ CRLF);
   EvSweep (fun _ => env (demo_input 4));
   EvSample (5 * NANOS) (Some 9) None;
   EvConnectionError].

(** Started on a file with one record and the beginning of another. *)
Definition demo_vars : Vars := mkVars None None None (Some (bs "1kb")) None None.
Definition demo_start : option Server :=
  start_server 2305843009213693951 demo_vars 0 (Some 3) demo_input
    (Contents (encode (DemoText.cmd ["SET"; "old"; "v"]%string) ++ bs "*3")).

Lemma server_typed_witness :
  exists srv, demo_start = Some srv /\ Forall event_ok demo_events
  /\ typed (env_maxmemory (Some (bs "1kb"))) DEFAULT_NUM_SHARDS (w_db (run_events (bs "<html>") demo_events (world srv)))
  /\ exists json db, metrics_document (6 * NANOS) db = Done json db /\ is_Some (read_json json)
     /\ db = w_db (run_events (bs "<html>") demo_events (world srv)).
Proof.
  assert (Forall event_ok demo_events) as Hok by (repeat constructor; by vm_compute).
  assert ((srv ← demo_start; Some (size (view (w_db (run_events (bs "<html>") demo_events (world srv)))))) = Some 2%nat)
    as Hsize by (vm_compute; reflexivity).
  assert (0 <= 6 * NANOS <= Instant_max) as Hnow by (vm_compute; split; discriminate).
  assert (is_u64 (Z.of_nat 2)) as H2 by (vm_compute; split; discriminate).
  destruct demo_start as [srv|] eqn:E; [|discriminate]. exists srv. split; [reflexivity|]. split; [exact Hok|].
  destruct (server_typed (bs "<html>") _ _ 0 (Some 3) _ _ srv demo_events (Z.le_refl 0) ltac:(in_range_const) E Hok) as [Ht Hdoc].
  split; [exact Ht|]. specialize (Hdoc (6 * NANOS) Hnow). cbn [mbind option_bind] in Hsize. apply Some_inj in Hsize.
  revert Hsize Hdoc.
  generalize (w_db (run_events (bs "<html>") demo_events (world srv))). intros db Hsize Hdoc.
  rewrite Hsize in Hdoc. specialize (Hdoc H2). unfold wp in Hdoc.
  destruct (metrics_document (6 * NANOS) db) as [json db'|] eqn:Ed.
  - destruct Hdoc as (-> & lat & _ & Hr). exists json, db. split; [exact Ed|]. split; [eexists; exact Hr|reflexivity].
  - destruct Hdoc.
Defined.
