(* ===== verification/Lifecycle.v ===== *)
(** * The life of a connection: the task [main] of [src/src/main.rs] spawns for it

    The session, subscriber mode if the client asks for it, and what the task does when it
    ends. Whatever the network does and however the task ends, it gives back what it holds
    that others can see: its place in the gauge of clients, and its receivers in the hub. *)
From stdpp Require Import relations.
From S2P Require Import Prelude.
From S2P Require Import RustStd.
From S2P Require Import Frame.
From S2P Require Import Connection.
From S2P Require Import Metrics.
From S2P Require Import Store.
From S2P Require Import PubSub.
From S2P Require Import Flow.
From S2P Require Import Cmd.
From S2P Require Import Command.
From S2P Require Import Aof.
From S2P Require Import Server.
From S2P Require Import SessionIO.
From S2P Require Import Subscriber.
From S2P Require Import Typed.

Section lifecycle.
Context {Hh : Hasher} `{UnicodeCase} `{FrameDebug} `{Broadcast}.

(** Subscriber mode in the world: its hub and its metrics are the shared ones. *)
Definition subscriber_mode (net : Network) (channels : list bytes) (es : list SubEvent) (conn : Connection)
    : ST World (option Exit) := fun w =>
  let back (s : SubState) :=
    mkWorld (with_metrics (fun _ => sub_metrics s) (w_db w)) (hub s) (w_sent w) in
  match run_subscriber_mode net channels es (mkSub conn 0 ∅ (w_pubsub w) (metrics (w_db w))) with
  | Done r s => Done r (back s)
  | Panic s => Panic (back s)
  end.

(** The end of the task, unless it panicked. *)
Definition task_end (e : Exit) : ST World unit :=
  (match e with
   | Returned (Failed _) => on_db (metric record_connection_error)
   | _ => mret tt
   end) ;;
  on_db (metric client_disconnected).

(** The spawned task, with the events of subscriber mode should it come to that; the network
    of the mode is that of the session from then on. [None]: it is still running. *)
Definition connection_task (net net' : Network) (fuel : nat) (inp : nat -> Frame -> Request)
    (es : list SubEvent) (conn : Connection) : ST World (option Exit) :=
  r ← process_connection_io net fuel inp 0 0 conn;
  r ← match r with
      | Some (Returned (Subscriber channels), conn) => subscriber_mode net' channels es conn
      | Some (e, _) => mret (Some e)
      | None => mret None
      end;
  match r with
  | Some e => task_end e ;; mret (Some e)
  | None => mret None
  end.

(** ** What the session and the mode leave alone *)

Definition gauge (w : World) : Z := connected_clients (metrics (w_db w)).

Definition gauge_kept (db db' : Db) : Prop := connected_clients (metrics db') = connected_clients (metrics db).

#[export] Instance gauge_kept_flow : FullFlow gauge_kept.
Proof.
  split; [split; [split|..]|..]; unfold gauge_kept; try done.
  - intros x y z. congruence.
  - intros n db. cbn. by destruct (metrics db).
  - intros n db. cbn. by destruct (metrics db).
  - intros db. cbn. by destruct (metrics db).
  - intros db. cbn. by destruct (metrics db).
Qed.

(** The gauge is [g], and every channel has the receivers of [n]. *)
Definition quiet (g : Z) (n : bytes -> Z) (w : World) : Prop :=
  gauge w = g /\ forall ch, count_at ch (w_pubsub w) = n ch.

Lemma quiet_metric g n f : (forall m, connected_clients (f m) = connected_clients m) ->
  keeps (quiet g n) (on_db (metric f)).
Proof. intros Hf w [Hg Hn]. split; [|done]. unfold gauge. cbn. by rewrite Hf. Qed.

Lemma quiet_apply g n e c : keeps (quiet g n) (on_db_pubsub (apply_with_pubsub e c)).
Proof.
  intros w [Hg Hn]. unfold on_db_pubsub, apply_with_pubsub.
  assert (forall c', quiet g n (after (match match apply e c' (w_db w) with
      | Done f db' => Done f (db', w_pubsub w) | Panic db' => Panic (db', w_pubsub w) end with
      | Done a (db, p) => Done a (mkWorld db p (w_sent w)) | Panic (db, p) => Panic (mkWorld db p (w_sent w)) end))) as Hdb.
  { intros c'. pose proof (apply_flow gauge_kept e c' (w_db w)) as Hk. unfold gauge_kept in Hk.
    destruct (apply e c' (w_db w)); (split; [|done]); unfold gauge; cbn in *; by rewrite Hk. }
  destruct c as [c|c|c|c|c|c|c|c|c|c|c|c|c| | |]; try apply Hdb.
  destruct c as [ch msg|chs]; cbn; [|done]. pose proof (fun ch' => count_at_step ch' (w_pubsub w) (Publishes ch msg)) as Hs.
  cbn in Hs. destruct (publish ch msg (w_pubsub w)) as [k p]. cbn in Hs |- *. split; [done|].
  intros ch'. by rewrite Hs.
Qed.

Lemma quiet_handle g n r : keeps (quiet g n) (handle r).
Proof.
  unfold handle. destruct (from_frame (parse_now (input r)) (frame r)) as [c|[err|]].
  - assert (keeps (quiet g n) ((if is_write c then aof_record (frame r) else mret tt) ;;
      response ← on_db_pubsub (apply_with_pubsub (env (input r)) c);
      on_db (metric (record_command (duration_us r))) ;; mret (Reply response false))) as Hmain.
    { apply keeps_bind; [by destruct (is_write c); intros w Hw|intros []]. apply keeps_bind; [apply quiet_apply|].
      intros f. apply keeps_bind; [|intros []; apply keeps_ret]. apply quiet_metric. by intros []. }
    destruct c as [c|c|c|c|c|c|c|c|c|c|c|c|c| | |]; try exact Hmain. destruct c; [exact Hmain|apply keeps_ret].
  - apply keeps_bind; [|intros []; apply keeps_ret]. apply quiet_metric. by intros [].
  - by intros w.
Qed.

Lemma await_keeps (P : World -> Prop) r k : (forall conn, keeps P (k conn)) -> keeps P (await r k).
Proof. intros Hk. destruct r as [[] conn]; [apply Hk|apply keeps_ret..]. Qed.

Lemma quiet_session g n net inp fuel : forall i j conn, keeps (quiet g n) (process_connection_io net fuel inp i j conn).
Proof.
  induction fuel as [|fuel IH]; intros i j conn; cbn [process_connection_io]; [apply keeps_ret|].
  destruct (read_frame_loop_io _ _ _) as [f rs buf| |e|]; [|apply await_keeps; intros; apply keeps_ret|apply keeps_ret..].
  destruct (drops_recording _ _ _); [apply keeps_ret|]. apply keeps_bind; [apply quiet_handle|].
  intros [response now|channels]; [|apply keeps_ret]. apply await_keeps. intros c1.
  destruct (_ || _); [apply await_keeps; intros c2|]; apply IH.
Qed.

(** The mode counts commands and errors, and leaves the gauge alone. *)
Definition mode_quiet {A} (g : Z) (m : SubTask A) : Prop :=
  let I := fun s : SubState => connected_clients (sub_metrics s) = g in leads I I (fun _ => I) m.

Lemma mode_quiet_ret {A} g (a : A) : mode_quiet g (mret a).
Proof. apply leads_ret. Qed.
Lemma mode_quiet_bind {A B} g (m : SubTask A) (f : A -> SubTask B) :
  mode_quiet g m -> (forall a, mode_quiet g (f a)) -> mode_quiet g (m ≫= f).
Proof. apply leads_bind. Qed.
Lemma mode_quiet_state {A} g (f : SubState -> SubTask A) :
  (forall s, mode_quiet g (f s)) -> mode_quiet g (s ← state; f s).
Proof. apply leads_state. Qed.
Lemma mode_quiet_exit {A} g e : mode_quiet g (exit (A := A) e).
Proof. by intros s Hs. Qed.
Lemma mode_quiet_panics {A} g : mode_quiet g (panics (A := A)).
Proof. by intros s Hs. Qed.
Lemma mode_quiet_update g f : (forall s, connected_clients (sub_metrics (f s)) = connected_clients (sub_metrics s)) ->
  mode_quiet g (update f).
Proof. intros Hf s Hs. cbn. by rewrite Hf. Qed.
Lemma mode_quiet_await g net op : mode_quiet g (await_conn net op).
Proof. intros s Hs. unfold await_conn. by destruct (op _ _) as [[] c]. Qed.
Lemma mode_quiet_metric g f : (forall m, connected_clients (f m) = connected_clients m) -> mode_quiet g (sub_metric f).
Proof. intros Hf. apply mode_quiet_update. intros s. apply Hf. Qed.
Lemma mode_quiet_write g net f : mode_quiet g (write net f).
Proof. apply mode_quiet_bind; [|intros []]; apply mode_quiet_await. Qed.
Lemma mode_quiet_subscribe g ch : mode_quiet g (subscribe_to ch).
Proof. apply mode_quiet_update. intros s. by destruct (subscribe ch (hub s)). Qed.

Create HintDb mode.
#[local] Hint Resolve mode_quiet_ret mode_quiet_exit mode_quiet_panics mode_quiet_write mode_quiet_subscribe : mode.

(** One construct of the mode's code. *)
Ltac mode_step :=
  lazymatch goal with
  | |- mode_quiet _ (state ≫= _) => apply mode_quiet_state; intro
  | |- mode_quiet _ (_ ≫= _) => apply mode_quiet_bind; [|intro]
  | |- mode_quiet _ (update _) => apply mode_quiet_update; intro; done
  | |- mode_quiet _ (sub_metric _) => apply mode_quiet_metric; by intros []
  | |- mode_quiet _ (match ?x with _ => _ end) => destruct x
  | |- mode_quiet _ _ => solve [auto with mode]
  end.
Ltac mode_run := repeat (mode_step; cbn beta iota).

Lemma mode_quiet_initial g net channels : forall i, mode_quiet g (initial_loop net i channels).
Proof. induction channels as [|ch rest IH]; intros i; cbn [initial_loop]; mode_run. Qed.

Lemma mode_quiet_loop g net channels : mode_quiet g (subscribe_loop net channels).
Proof. induction channels as [|ch rest IH]; cbn [subscribe_loop]; mode_run. Qed.
#[local] Hint Resolve mode_quiet_initial mode_quiet_loop : mode.

Lemma mode_quiet_frame g net now f : mode_quiet g (on_frame net now f).
Proof. unfold on_frame. mode_run. Qed.
#[local] Hint Resolve mode_quiet_frame : mode.

Lemma mode_quiet_select g net es : mode_quiet g (select_loop net es).
Proof.
  induction es as [|e es IH]; cbn [select_loop]; [mode_run|]. apply mode_quiet_bind; [|done].
  destruct e; cbn [on_event]; mode_run.
Qed.

Lemma mode_keeps_gauge net channels es s :
  connected_clients (sub_metrics (after (run_subscriber_mode net channels es s))) = connected_clients (sub_metrics s).
Proof.
  assert (mode_quiet (connected_clients (sub_metrics s)) (initial_loop net 0 channels ;; select_loop net es)) as Hq
    by (apply mode_quiet_bind; [apply mode_quiet_initial|intros []; apply mode_quiet_select]).
  specialize (Hq s eq_refl). unfold run_subscriber_mode. revert Hq.
  generalize ((initial_loop net 0 channels ;; select_loop net es) s). by intros [[e|[]] s'|s'].
Qed.

(** The end of the task. *)
Lemma task_end_spec e g n : forall w, quiet g n w ->
  exists w', task_end e w = Done tt w' /\ quiet (as_i64 (g - 1)) n w'.
Proof.
  intros w [Hg Hn]. unfold task_end, mbind, ST_bind.
  assert (forall w, quiet g n w -> exists w', on_db (metric client_disconnected) w = Done tt w' /\ quiet (as_i64 (g - 1)) n w') as Hend.
  { intros w0 [Hg0 Hn0]. eexists. split; [reflexivity|]. split; [|done]. unfold gauge in *. cbn. rewrite <- Hg0. by destruct (metrics (w_db w0)). }
  destruct e as [[|err|chs]|]; try (by apply Hend). cbn [on_db metric modify].
  apply Hend. apply (quiet_metric g n record_connection_error); [by intros []|done].
Qed.

(** Subscriber mode, in the world. *)
Lemma subscriber_mode_spec net channels es conn n w :
  (forall ch, 0 <= n ch) -> fair_from n (elsewhere es) -> (forall ch, count_at ch (w_pubsub w) = n ch) ->
  exists handled rest, es = handled ++ rest
  /\ match subscriber_mode net channels es conn w with
     | Done (Some _) w' | Panic w' => quiet (gauge w) (others n (elsewhere handled)) w'
     | Done None w' => gauge w' = gauge w
     end.
Proof.
  intros Hpos Hfair Hn. set (s := mkSub conn 0 ∅ (w_pubsub w) (metrics (w_db w))).
  assert (forall evs ch, others (fun ch => count_at ch (hub s)) evs ch = others n evs ch) as Ho.
  { intros evs ch. unfold others. cbn [hub s]. by rewrite Hn. }
  destruct (subscriber_counts net channels es s) as (handled & rest & Hes & Hrun); [done|intros ch; cbn; rewrite Hn; done| |].
  { intros ch pre post Hev. rewrite Ho. by apply (Hfair ch pre post). }
  exists handled, rest. split; [done|]. cbn zeta in Hrun.
  pose proof (mode_keeps_gauge net channels es s) as Hg. unfold subscriber_mode. fold s.
  destruct (run_subscriber_mode net channels es s) as [[e|] s'|s']; cbn in Hg.
  - split; [exact Hg|]. intros ch. cbn. by rewrite Hrun, Ho.
  - exact Hg.
  - split; [exact Hg|]. intros ch. cbn. by rewrite Hrun, Ho.
Qed.

(** C27: a connection's task gives back what it took. Whatever the requests, the network and
    the other connections do, when the task has returned, after the end of the stream, an
    I/O error or the shutdown, the client gauge is one less, and the hub has exactly the
    receivers of the others on every channel; while it runs, the gauge is as it was. A task
    that panicked has left the hub too, but is still counted as a client. *)
Theorem connection_gives_back net net' fuel inp es conn w :
  (forall ch, 0 <= count_at ch (w_pubsub w)) ->
  fair_from (fun ch => count_at ch (w_pubsub w)) (elsewhere es) ->
  exists handled rest, es = handled ++ rest
  /\ let counts := others (fun ch => count_at ch (w_pubsub w)) (elsewhere handled) in
     match connection_task net net' fuel inp es conn w with
     | Done (Some _) w' => gauge w' = as_i64 (gauge w - 1) /\ forall ch, count_at ch (w_pubsub w') = counts ch
     | Done None w' => gauge w' = gauge w
     | Panic w' => gauge w' = gauge w /\ forall ch, count_at ch (w_pubsub w') = counts ch
     end.
Proof.
  intros Hpos Hfair. unfold connection_task, mbind, ST_bind. set (n := fun ch => count_at ch (w_pubsub w)).
  pose proof (quiet_session (gauge w) n net inp fuel 0 0 conn w (conj eq_refl (fun ch => eq_refl))) as Hq.
  destruct (process_connection_io net fuel inp 0 0 conn w) as [[[e conn']|] w1|w1]; cbn [after] in Hq;
    [|exists [], es; by split; [|apply Hq]|exists [], es; by split].
  assert (forall e n w2, quiet (gauge w) n w2 -> match (task_end e ;; mret (Some e)) w2 with
    | Done (Some _) w' => gauge w' = as_i64 (gauge w - 1) /\ forall ch, count_at ch (w_pubsub w') = n ch
    | _ => False end) as Hend.
  { intros e0 n0 w2 Hq2. destruct (task_end_spec e0 _ _ _ Hq2) as (w' & E & Hq'). unfold mbind, ST_bind. by rewrite E. }
  assert (forall e, exists handled rest, es = handled ++ rest /\
    match (task_end e ;; mret (Some e)) w1 with
    | Done (Some _) w' => gauge w' = as_i64 (gauge w - 1)
        /\ forall ch, count_at ch (w_pubsub w') = others n (elsewhere handled) ch
    | Done None w' => gauge w' = gauge w
    | Panic w' => gauge w' = gauge w /\ forall ch, count_at ch (w_pubsub w') = others n (elsewhere handled) ch
    end) as Hnow.
  { intros e0. exists [], es. split; [done|]. pose proof (Hend e0 n w1 Hq) as He.
    cbn [elsewhere omap list_omap]. unfold others. cbn [fold_left].
    by destruct ((task_end e0 ;; mret (Some e0)) w1) as [[]|]. }
  destruct e as [[|err|channels]|]; [apply (Hnow (Returned Closed))|apply (Hnow (Returned (Failed err)))| |apply (Hnow Cancelled)].
  destruct Hq as [Hg Hn].
  destruct (subscriber_mode_spec net' channels es conn' n w1 Hpos Hfair Hn) as (handled & rest & Hes & Hmode).
  exists handled, rest. split; [done|]. rewrite Hg in Hmode.
  destruct (subscriber_mode net' channels es conn' w1) as [[e|] w2|w2]; [|exact Hmode..].
  specialize (Hend e _ w2 Hmode). unfold mbind, ST_bind in *. by destruct (task_end e w2) as [[]|].
Qed.
End lifecycle.

#[local] Existing Instance Demo.hash.
#[local] Existing Instance DemoText.case.
#[local] Existing Instance DemoText.debug.
#[local] Existing Instance PubSub.counting.

(** A client that has just been counted subscribes to two channels; another one comes, a
    message is pushed, and the connection breaks on the second. *)
Definition demo_world : World := after (on_db (metric client_connected) (mkWorld Demo.db PubSub_new [])).
Definition demo_subscriber : Connection := demo_reads [bs "SUBSCRIBE news chat" ++ CRLF].
Definition demo_life : list SubEvent :=
  [Elsewhere (Subscribes (bs "news")); Delivers (bs "news") (bs "hello"); Delivers (bs "news") (bs "again")].
Definition demo_task : ST World (option Exit) :=
  connection_task demo_quiet demo_failing 25 demo_request demo_life demo_subscriber.

Lemma demo_life_fair : fair_from (fun ch => count_at ch (w_pubsub demo_world)) (elsewhere demo_life).
Proof. intros ch pre post Heq. cbn in Heq. destruct pre as [|e1 [|e2 pre]]; discriminate Heq. Qed.
Lemma demo_world_counts : forall ch, 0 <= count_at ch (w_pubsub demo_world).
Proof. intros ch. unfold count_at. cbn. rewrite lookup_empty. lia. Qed.

Lemma connection_gives_back_witness :
  gauge demo_world = 1
  /\ match demo_task demo_world with
     | Done r w' => r = Some (Returned (Failed (bs "Broken pipe"))) /\ gauge w' = 0
         /\ exists handled, forall ch, count_at ch (w_pubsub w')
              = others (fun ch => count_at ch (w_pubsub demo_world)) (elsewhere handled) ch
     | Panic _ => False
     end.
Proof.
  split; [vm_compute; reflexivity|]. unfold demo_task.
  destruct (connection_gives_back demo_quiet demo_failing 25 demo_request demo_life demo_subscriber demo_world
    demo_world_counts demo_life_fair) as (handled & rest & _ & Hrun). cbn zeta in Hrun.
  assert (exists w', connection_task demo_quiet demo_failing 25 demo_request demo_life demo_subscriber demo_world
    = Done (Some (Returned (Failed (bs "Broken pipe")))) w') as [w' E] by (vm_compute; eexists; reflexivity).
  rewrite E in Hrun |- *. split; [reflexivity|]. destruct Hrun as [Hg Hn].
  split; [rewrite Hg; vm_compute; reflexivity|]. exists handled. exact Hn.
Defined.
