(* ===== verification/Divergences.v ===== *)
(** * Divergences: behaviours the runs of the model exhibit

    Each statement is a run of the modelled code on a concrete input, evaluated by the
    kernel, in which the program does something else than its documentation, its comments
    or its intent say. *)
From S2P Require Import Prelude.
From S2P Require Import RustStd.
From S2P Require Import Frame.
From S2P Require Import Metrics.
From S2P Require Import Store.
From S2P Require Import Keyspace.
From S2P Require Import DbList.
From S2P Require Import Evict.
From S2P Require Import DbKeys.
From S2P Require Import PubSub.
From S2P Require Import Cmd.
From S2P Require Import Command.
From S2P Require Import Sections.
From S2P Require Import Concurrent.

From S2P Require Import Aof.
From S2P Require AofFaults.
From S2P Require Import Server.
From S2P Require Import Interleave.

#[local] Existing Instance Demo.hash.
#[local] Existing Instance DemoText.case.
#[local] Existing Instance DemoText.debug.
#[local] Existing Instance PubSub.counting.

(** Command lines executed one after the other at the given seconds; commands that do not
    parse are skipped. *)
Fixpoint run (l : list (Z * list String.string)) : ST Db unit :=
  match l with
  | [] => mret tt
  | (t, words) :: l' =>
    let e := env (demo_input (Z.to_nat t)) in
    match from_frame (clock e 0) (DemoText.cmd words) with
    | Ok c => apply e c ;; run l'
    | Err _ => run l'
    end
  end.

Definition final (m : ST Db unit) (db : Db) : Db := match m db with Done _ db' => db' | Panic db' => db' end.

Definition new_store (maxmemory : Z) : Db := with_options_and_metrics 4 maxmemory 0 (Metrics_new 0 None).

Open Scope string_scope.

(** The memory counter drifts. A list that is pushed to and popped empty leaves the counter
    short of the key's own bytes, which the push did not add and the removal took off: on an
    empty store it wraps around to almost [2^64]. And the drift costs keys: with a limit of
    1000 bytes and nothing but one 66-byte string stored, a SET evicts that string, because
    the wrapped counter looks full. *)
Lemma memory_counter_underflow :
  let churn := [(1, ["RPUSH"; "k"; "a"]); (2, ["LPOP"; "k"])] in
  let empty := final (run churn) (new_store 0) in
  let before := final (run (churn ++ churn ++ churn ++ [(3, ["SET"; "a"; "1"])])) (new_store 1000) in
  let after := final (run [(4, ["SET"; "b"; "2"])]) before in
  (view empty = ∅ /\ current_memory empty = u64_modulus - 65)
  /\ used (view before) = 66 /\ is_Some (view before !! bs "a") /\ view after !! bs "a" = None.
Proof.
  split; [split; [apply (bool_decide_unpack _); vm_compute; exact I|vm_compute; reflexivity]|].
  split; [vm_compute; reflexivity|]. split; [apply (bool_decide_unpack _); vm_compute; exact I|].
  vm_compute. reflexivity.
Qed.

(** A poisoned log. An EXPIRE whose deadline is out of the clock's range is logged before it
    panics in the client's task; replaying the log panics in [main], so the server does
    not start again. *)
Lemma expire_poisons_the_log :
  let set := DemoText.cmd ["SET"; "k"; "v"] in
  let expire := DemoText.cmd ["EXPIRE"; "k"; "18446744073709551615"] in
  let db := final (run [(1, ["SET"; "k"; "v"])]) (new_store 0) in
  match handle (mkRequest (demo_input 2) 10 expire) (mkWorld db PubSub_new [record set]) with
  | Panic w => w_sent w = [record set; record expire]
      /\ match load demo_input (recorded (w_sent w)) (new_store 0) with Panic _ => True | Done _ _ => False end
  | Done _ _ => False
  end.
Proof. vm_compute. split; [reflexivity|exact I]. Qed.

(** A SET with such a time-to-live panics while it is parsed, before it is logged. *)
Lemma set_panics_in_parse :
  from_frame 0 (DemoText.cmd ["SET"; "k"; "v"; "EX"; "18446744073709551615"]) = Err ParsePanic.
Proof. vm_compute. reflexivity. Qed.

(** A restart brings expired keys back. The log holds relative times-to-live, which the
    replay counts from the restart: a key set for ten seconds at second 1 is gone at
    second 12, and there again for the server restarted at second 12. *)
Lemma restart_revives_expired_keys :
  let line := ["SET"; "k"; "v"; "EX"; "10"] in
  let db := final (run [(1, line)]) (new_store 0) in
  live (12 * NANOS) (view db) !! bs "k" = None
  /\ match load (fun i => demo_input (12 + i)) (encode (DemoText.cmd line)) (new_store 0) with
     | Done _ db2 => is_Some (live (12 * NANOS) (view db2) !! bs "k")
     | Panic _ => False
     end.
Proof. split; [vm_compute; reflexivity|]. vm_compute. by eexists. Qed.

(** Records after a torn one are lost. The replay stops at a torn record, but the file is
    then opened for appending as it is: what the new server logs comes after the torn bytes,
    is read as their continuation, and is not there after the next restart. *)
Lemma appending_to_a_torn_log_loses_records :
  let set_a := encode (DemoText.cmd ["SET"; "a"; "1"]) in
  let torn_record := take 14 (encode (DemoText.cmd ["SET"; "b"; "2"])) in
  let set_c := encode (DemoText.cmd ["SET"; "c"; "3"]) in
  torn torn_record
  /\ match load demo_input (set_a ++ torn_record ++ set_c) (new_store 0) with
     | Done r db => r = Some (Ok 1) /\ view db !! bs "c" = None
     | Panic _ => False
     end.
Proof.
  split.
  - exists (DemoText.cmd ["SET"; "b"; "2"]), (drop 14 (encode (DemoText.cmd ["SET"; "b"; "2"]))).
    split; [reflexivity|]. split; [discriminate|reflexivity].
  - vm_compute. split; reflexivity.
Qed.

(** DEL counts keys that expired. GET says the key is gone, DEL that it removed one. *)
Lemma del_counts_expired_keys :
  let db := final (run [(1, ["SET"; "k"; "v"; "EX"; "1"])]) (new_store 0) in
  live (5 * NANOS) (view db) = ∅
  /\ match apply (env (demo_input 5)) (Del (CmdDel.mkDel [bs "k"])) db with
     | Done f _ => f = Integer 1
     | Panic _ => False
     end.
Proof. split; [apply (bool_decide_unpack _); vm_compute; exact I|vm_compute; reflexivity]. Qed.

(** SCAN can pass over a key that is there all along. The cursor is a position in a shard's
    table, and a deletion moves the entries behind it forward: a client that deletes the key
    SCAN gave it and goes on from the cursor never sees the next one. *)
Definition scan_from (cursor : Z) : Command := Scan (CmdScan.mkScanCmd cursor None 1 None).
Definition scan_reply (cursor : Z) (db : Db) : option Frame :=
  match apply (env (demo_input 3)) (scan_from cursor) db with Done f _ => Some f | Panic _ => None end.

Lemma scan_skips_after_delete :
  let before := final (run [(1, ["SET"; "a"; "1"]); (1, ["SET"; "b"; "2"]); (1, ["SET"; "c"; "3"])]) (new_store 0) in
  let next := Z.lor (Z.shiftl 1 32) 1 in
  let after := final (run [(2, ["DEL"; "c"])]) before in
  scan_reply 0 before = Some (Array [Bulk (show_uint next); Array [Bulk (bs "c")]])
  /\ scan_reply next after = Some (Array [Bulk (show_uint (Z.shiftl 2 32)); Array [Bulk (bs "a")]])
  /\ scan_reply (Z.shiftl 2 32) after = Some (Array [Bulk (bs "0"); Array []])
  /\ is_Some (live 0 (view before) !! bs "b") /\ is_Some (live 0 (view after) !! bs "b").
Proof.
  do 3 (split; [vm_compute; reflexivity|]).
  split; apply (bool_decide_unpack _); vm_compute; exact I.
Qed.

(** A failed write in the middle of the log takes what follows with it. The write of the
    first record stops after four bytes, the task goes on, and the flush is replied to: the
    header that is left takes the next records as its elements, so the replay reads no
    command at all. *)
Lemma write_error_hides_later_records :
  AofFaults.faulty_reach [] 1 AofFaults.demo_gap /\ 7%nat ∈ acked AofFaults.demo_gap
  /\ match load demo_input (file AofFaults.demo_gap) (new_store 0) with
     | Done r db => r = Some (Ok 0) /\ bool_decide (view db = ∅) = true
     | Panic _ => False
     end.
Proof.
  split; [exact AofFaults.demo_gap_reach|]. split; [by apply list_elem_of_singleton|].
  vm_compute. split; reflexivity.
Qed.

(** A server whose log cannot be opened takes writes, and its [sync] returns. *)
Lemma unopened_log_is_silent :
  let aof := AofFaults.send (record (DemoText.cmd ["SET"; "k"; "v"])) (AofFaults.start (Err (bs "Permission denied"))) in
  aof = AofFaults.Stopped /\ AofFaults.sync_returns 0 aof.
Proof. done. Qed.

(** The memory limit is checked under one lock and the value stored under another: two SETs
    that both find room store both, past a limit that either alone, or the two one after
    the other, keep. *)
Definition limited_store : Db := with_options_and_metrics 4 100 0 (Metrics_new 0 None).
Definition one_set_each : list (list Job) := [
  [Run 5 (env (demo_input 1)) (Set_ (CmdSet.mkSet (bs "a") (bs "0123456789") None))];
  [Run 5 (env (demo_input 1)) (Set_ (CmdSet.mkSet (bs "b") (bs "0123456789") None))]].

Definition memory_after (schedule : list nat) : option (Z * list (list Frame)) :=
  option_map (fun x => (current_memory x.1, all_replies x.2)) (exec schedule (limited_store, idle one_set_each)).

Lemma concurrent_sets_pass_the_limit :
  memory_after (replicate 6 0%nat ++ replicate 16 1%nat)%list = Some (75, [[Simple (bs "OK")]; [Simple (bs "OK")]])
  /\ memory_after [0;0;0;0;1;1;1;1;0;1;0;1]%nat = Some (150, [[Simple (bs "OK")]; [Simple (bs "OK")]]).
Proof. vm_compute. split; reflexivity. Qed.
